(* ===== verification/_CoqProject ===== *)
-Q . S2P
Prelude.v
StorageSet.v
Packing.v
Hardfork.v
Address.v
Bytes.v
IpAddr.v
Signature.v
AccountConfig.v
Errors.v
DexState.v
State.v
Monad.v
StorageCredits.v
DexOrder.v
DexBook.v
DexMath.v
DexBitmap.v
Nonce.v
AddressRegistry.v
Tip20Base.v
Keychain.v
KeychainSpec.v
KeychainScopes.v
Verifier.v
ValidatorConfig.v
ValidatorConfigV2.v
ValidatorFrame.v
Tip403.v
Tip403Spec.v
Tip20Core.v
Guard.v
Tip20.v
Reserve.v
Dex.v
Tip20Factory.v
GuardOps.v
FeeAmm.v
FeeManager.v
System.v
Tip20Frame.v
ReserveFrame.v
DexFrame.v
DexView.v
DexQueue.v
DexInv.v
DexFill.v
DexLedger.v
DexCancel.v
DexWalk.v
DexRoute.v
SystemFrame.v
Tip20Ledger.v
SupplySpec.v
TransferSpec.v
Authority.v
Custody.v
DexPairs.v
DexPlace.v
DexSpec.v
ReserveRuns.v
ReserveSpec.v
ReserveLive.v
ValidatorInv.v
ValidatorSpec.v
ValidatorHistory.v
ValidatorKeys.v
ConfigurableAccount.v
Pool2dState.v
Pool2d.v
Pool2dBest.v
Pool2dLib.v
Pool2dInv.v
Pool2dSteps.v
Pool2dChain.v
Pool2dRemove.v
Pool2dAdd.v
Pool2dUpdate.v
Pool2dSpec.v
Pool2dIter.v
