(* ===== verification/Prelude.v ===== *)
(** * Tempo: a verification development

    Tempo is a payments chain. Its protocol logic is a set of precompiled contracts, the
    Rust crate [src/crates/precompiles], which hold the state of tokens, fees, access
    keys, transfer policies, payment channels, validators and a stablecoin exchange, and
    which call each other. Transactions with two-dimensional nonces wait in a pool of
    their own, [src/crates/transaction-pool/src/tt_2d_pool.rs]. This development
    translates the contracts into executable definitions over one shared state, and the
    pool into definitions over its own, and proves what their users rely on.

    ** The model of the contracts

    - [Prelude]: machine integers with their checked operations, maps whose missing keys
      read as zero (the way EVM storage does), sums over maps, tactics and hint
      databases.
    - [Hardfork], [Address], [Bytes], [Errors]: the hardfork order of
      [hardfork/src/lib.rs] (every contract branches on it), the address classes of
      [primitives/src/address.rs], byte strings, and the error type of
      [precompiles/src/error.rs] with the errors and events of each contract
      ([contracts/src/precompiles/*.rs]).
    - [State], with [DexState]: the storage of every contract as a record, and the
      [World] of all of them with deployed code, events, the token map and the
      commitments of accounts.
    - [Monad]: contract code runs in [M A := Env -> World -> outcome A * World]. [Env]
      carries what a block or a transaction fixes (hardfork, time, height, chain id) and
      the code that is not part of the repository: [keccak256] and the signature schemes
      are fields of [Env], so every theorem holds for all of them. [checkpoint] is the
      revert-on-error guard of [storage/thread_local.rs]; [mutate] is the wrapper of the
      dispatchers. The file also holds the program logic: [m_inv] inverts a run,
      [Stable] states which relation between states a program respects, whether it
      succeeds or fails, [StableOk] the same of successful runs, [returns] that a run
      succeeds.
    - [StorageSet], [Packing], [StorageCredits]: storage sets ([storage/types/set.rs]),
      packing of fields in words ([storage/packing.rs]) and storage credits
      ([storage_credits/]).
    - [Nonce], [AddressRegistry], [Keychain], [Tip403]: the contracts of the same names
      ([nonce/], [address_registry/], [account_keychain/], [tip403_registry/]).
    - [Tip20Base], [Tip20Core], [Tip20], [Guard], [GuardOps], [Tip20Factory]: the TIP-20
      token with its roles, rewards, permits and dispatch ([tip20/]), the receive-policy
      guard ([receive_policy_guard/]) and the factory ([tip20_factory/]).
    - [FeeAmm], [FeeManager]: fee pools and fee collection ([tip_fee_manager/]).
    - [DexOrder], [DexBook], [Dex]: the stablecoin exchange ([stablecoin_dex/]): orders
      in their three storage layouts, books with tick levels and bitmaps, placing,
      filling, flipping, cancelling, swapping, quoting.
    - [Reserve]: the payment channels ([tip20_channel_reserve/]).
    - [Signature], [Verifier]: signatures of transactions and their byte encoding
      ([primitives/src/transaction/tt_signature.rs]) and the precompile that checks them
      ([signature_verifier/]).
    - [IpAddr], [ValidatorConfig], [ValidatorConfigV2]: the two versions of the
      validator registry ([validator_config/], [validator_config_v2/]) and the part of
      the standard library that parses and prints their endpoints.
    - [AccountConfig], [ConfigurableAccount]: accounts owned by weighted owners
      ([primitives/src/transaction/configurable_account/]) and the precompile that
      changes their configurations ([configurable_account/]).
    - [System]: the entry points as one type of steps and one executor, so that a
      history of the chain is a list of steps, each with its own environment.

    Each contract module has the source's functions under the source's names; a contract
    reads and writes its own part of the [World] through a lens. Storage writes whose
    cost is tracked go through [Credits.sstore_slot].

    ** The model of the pool

    [Pool2dState] has the types, [Pool2d] the pool with its operations (additions,
    replacements, removals, eviction, changes of nonces and of the base fee) and
    [Pool2dBest] the iterator a block is built from. What the pool takes from its
    libraries (hashes, tips, the comparison of priorities, limits, the rule for
    replacements) is the record [Reth]; the class [LawfulReth] of [Pool2dLib] says what
    it relies on: hashes and storage slots tell their preimages apart, priorities are
    totally ordered, a limit is exceeded when one of its two bounds is. [Pool2dSpec] has
    an instance.

    ** The theorems

    - Tokens ([SupplySpec], [TransferSpec], [Authority], on [Tip20Frame], [SystemFrame],
      [DexFrame], [ReserveFrame], [ValidatorFrame], [Tip20Ledger]): balances add up to
      the supply after every history of steps; a transfer moves exactly its amount;
      funds leave an account only by its own action or an authority it gave.
    - Custody ([Custody], [DexPlace], [DexSpec], [ReserveSpec]): in every history from the
      empty state whose steps run under T5 or later the exchange and the reserve hold at
      least what they owe.
    - Exchange ([DexMath], [DexBitmap], [DexSpec], on [DexView], [DexQueue], [DexInv],
      [DexFill], [DexLedger], [DexCancel], [DexWalk], [DexRoute], [DexPairs],
      [DexPlace]): the books are doubly linked queues with correct best ticks; a swap
      gives what its quote says; quotes end; a cancellation refunds the escrow; rounding
      never favours the taker; the bitmap search finds the next tick. Books, solvency,
      swaps and cancellations are followed through histories from the empty state under
      T5 or later, where flip orders are relinked in place. The steps before T5, in which
      a filled flip order is placed anew and errors of that are dropped, are modelled but
      not part of those histories. The quotes of before T12, which go tick by tick, are
      shown to end in any state. A step computed for the other side than the order's, as
      on a corrupted book, fills no more than the order has; what else is lost then is
      shown at the end of [DexMath].
    - Channels ([ReserveRuns], [ReserveSpec], [ReserveLive]): what a payee got was
      signed for, a channel opens once, and after the grace period a payer can withdraw
      from T12 on, unless the token is paused or the payer's own receive policy may block
      the refund.
    - Access keys ([KeychainSpec], [KeychainScopes], [Verifier]): through any history in
      which its limit is not set anew, what a key spends in a window is bounded by the
      reported limit and the refunds; the reported limit is the enforced one; revoked
      keys stay dead; through any history in which its scopes are not changed, calls
      outside a key's scopes are refused; the verifier accepts only what an active key
      signed.
    - Configurable accounts ([AccountConfig], [ConfigurableAccount]): a configuration is
      valid when its owners can reach the threshold, approvals are accepted when they
      come from a quorum, and the commitment of an account moves forward only, by its
      own authority.
    - Policies ([Tip403Spec]): authorization implements the policy semantics, only
      administrators change verdicts, cached types stay coherent.
    - Nonces and addresses ([Nonce], [AddressRegistry], [Address]): expiring nonces are
      not replayed, 2D nonces count, virtual addresses resolve for ever.
    - Validators ([ValidatorInv], [ValidatorSpec], [ValidatorHistory], [ValidatorKeys]):
      the tables of the registry agree with its records, the validators of a past height
      can be read off the records, deactivated records stay, and keys enter with a
      signature of their own.
    - Encodings ([Signature], [StorageSet], [Packing], [IpAddr]): signatures survive
      encoding, sets are duplicate-free lists, packed fields do not disturb each other,
      printed addresses parse.
    - Pool ([Pool2dLib], [Pool2dInv], [Pool2dSteps], [Pool2dChain], [Pool2dRemove],
      [Pool2dAdd], [Pool2dUpdate], [Pool2dSpec], [Pool2dIter]): in every history of
      additions, removals, blocks and base fees in which transactions are added with the
      nonce on chain at that moment, under T1 or later, a transaction is pending exactly
      when no nonce is missing below it, the indexes and counts agree with the
      transactions, the subpools are within their limits, and the iterator, as long as
      nothing is announced to it, yields every executable transaction once, in order. The
      end of [Pool2dSpec] has two situations outside those histories, in which this
      fails. For an iterator that has been sent transactions only the end of each call is
      shown.

    ** Fuel

    Loops of the source over linked data are recursions with fuel. The walk over resting
    orders has fuel for every stored order and two more; the walk up the quote tokens
    has fuel for every token; the legacy quotes have fuel for every tick. Running out is
    the error [OutOfGas], which is what a walk of a cyclic list ends in; [DexWalk] shows
    that it does not happen on the books of a history, [DexSpec] that the legacy quotes
    never run out. The loops of the pool have fuel
    for every transaction in it: [Pool2dRemove] shows that eviction and the removal of
    descendants finish with it, [Pool2dUpdate] that the sweep over nonces does,
    [Pool2dIter] that the iterator does. The counters of the pool are machine words; its
    theorems are about histories of at most 2^31 events, in which they do not wrap.

    ** Not modelled

    Gas metering, ABI decoding and encoding of calls, and the storage backends: the
    contracts are modelled on decoded arguments and on a decoded state. Keccak, the
    signature schemes, the CREATE2 address and the receipt encoding are parameters. The
    zone and committee precompiles and the selector routing of the keychain are left
    out. Transaction validation, the transaction handler, consensus, the node and the
    zone stack are built on external libraries whose code is not part of the repository. *)

From stdpp Require Export base numbers list option gmap strings fin_maps pretty.
From Stdlib Require Export Lia ZArith NArith Ascii.

Ltac Zify.zify_post_hook ::= Z.to_euclidean_division_equations.

Declare Scope tempo_scope.
Delimit Scope tempo_scope with tempo.
#[global] Open Scope tempo_scope.
#[global] Open Scope N_scope.

(** ** Machine integers

    Unsigned integers of the source are [N]; the width shows up in the checked
    operations, which fail exactly where Rust's [checked_*] return [None]. *)

Abbreviation Address := N (only parsing).
Abbreviation U256 := N (only parsing).
Abbreviation B256 := N (only parsing).

Definition U8_MAX : N := 2 ^ 8 - 1.
Definition U32_MAX : N := 2 ^ 32 - 1.
Definition U64_MAX : N := 2 ^ 64 - 1.
Definition U128_MAX : N := 2 ^ 128 - 1.
Definition U256_MAX : N := 2 ^ 256 - 1.

Definition checked_add (max x y : N) : option N :=
  if x + y <=? max then Some (x + y) else None.
Definition checked_sub (x y : N) : option N :=
  if y <=? x then Some (x - y) else None.
Definition checked_mul (max x y : N) : option N :=
  if x * y <=? max then Some (x * y) else None.
Definition checked_div (x y : N) : option N :=
  if y =? 0 then None else Some (x / y).
Definition saturating_add (max x y : N) : N := N.min max (x + y).
Definition saturating_sub (x y : N) : N := x - y.
(** [U256::saturating_to] / [u128::try_from] on a wider word. *)
Definition saturating_to (max x : N) : N := N.min max x.
Definition try_into (max x : N) : option N :=
  if x <=? max then Some x else None.

Lemma checked_add_Some max x y z :
  checked_add max x y = Some z ↔ z = x + y ∧ x + y ≤ max.
Proof. unfold checked_add. destruct (N.leb_spec (x + y) max); naive_solver lia. Qed.

Lemma checked_sub_Some x y z : checked_sub x y = Some z ↔ z = x - y ∧ y ≤ x.
Proof. unfold checked_sub. destruct (N.leb_spec y x); naive_solver lia. Qed.

Lemma checked_mul_Some max x y z :
  checked_mul max x y = Some z ↔ z = x * y ∧ x * y ≤ max.
Proof. unfold checked_mul. destruct (N.leb_spec (x * y) max); naive_solver lia. Qed.

Lemma checked_div_Some x y z : checked_div x y = Some z ↔ z = x / y ∧ y ≠ 0.
Proof. unfold checked_div. destruct (N.eqb_spec y 0); naive_solver. Qed.

Lemma try_into_Some max x z : try_into max x = Some z ↔ z = x ∧ x ≤ max.
Proof. unfold try_into. destruct (N.leb_spec x max); naive_solver lia. Qed.

(** ** Storage mappings

    [Mapping<K, V>] of the source is a finite map whose absent keys read as
    the zero value of [V]; [m .[ k ]] is [self.m[k].read()]. *)

Class Default (A : Type) := dflt : A.
#[export] Instance default_N : Default N := 0.
#[export] Instance default_Z : Default Z := 0%Z.
#[export] Instance default_bool : Default bool := false.
#[export] Instance default_list {A} : Default (list A) := [].
#[export] Instance default_string : Default string := EmptyString.
#[export] Instance default_gmap `{Countable K} {V} : Default (gmap K V) := (∅ : gmap K V).
#[export] Instance default_prod `{Default A, Default B} : Default (A * B) := (dflt, dflt).
#[export] Instance default_option {A} : Default (option A) := @None A.

Definition sread `{Countable K, Default V} (m : gmap K V) (k : K) : V :=
  default dflt (m !! k).
Notation "m .[ k ]" := (sread m k) (at level 1, left associativity, format "m .[ k ]") : tempo_scope.

#[global] Arguments sread : simpl never.

Section Mapping.
Context `{Countable K, Default V}.
Implicit Types (m : gmap K V).

Lemma sread_insert m k k' v :
    (<[k := v]> m).[k'] = if decide (k = k') then v else m.[k'].
Proof. unfold sread. rewrite lookup_insert. by case_decide. Qed.

Lemma sread_insert_eq m k v : (<[k := v]> m).[k] = v.
Proof. rewrite sread_insert. by rewrite decide_True. Qed.

Lemma sread_insert_ne m k k' v : k ≠ k' → (<[k := v]> m).[k'] = m.[k'].
Proof. intros ?. rewrite sread_insert. by rewrite decide_False. Qed.

Lemma sread_empty k : (∅ : gmap K V).[k] = dflt.
Proof. unfold sread. by rewrite lookup_empty. Qed.
End Mapping.

Create Rewrite HintDb tempo_map.
#[export] Hint Rewrite @sread_insert_eq @sread_empty : tempo_map.
#[export] Hint Rewrite @sread_insert_ne using done : tempo_map.

(** ** Sums over mappings *)

Definition msum `{Countable K} (m : gmap K N) : N :=
  map_fold (λ _ v acc, v + acc) 0 m.

#[global] Arguments msum : simpl never.

Section Msum.
Context `{Countable K}.
Implicit Types (m : gmap K N).

Lemma msum_empty : msum (∅ : gmap K N) = 0.
Proof. unfold msum. by rewrite map_fold_empty. Qed.

Lemma msum_insert_None m k v : m !! k = None → msum (<[k := v]> m) = v + msum m.
Proof.
    intros Hk. unfold msum. rewrite map_fold_insert_L; [done | intros; lia | done].
Qed.

Lemma msum_delete m k : msum m = m.[k] + msum (delete k m).
Proof.
    unfold sread. destruct (m !! k) as [v|] eqn:Hk; simpl.
    - rewrite <- (insert_delete_id m k v Hk) at 1.
      apply msum_insert_None, lookup_delete_eq.
    - by rewrite delete_id.
Qed.

(** Writing [v] at [k] moves the sum from the old value at [k] to [v]. *)
Lemma msum_insert m k v : msum (<[k := v]> m) + m.[k] = msum m + v.
Proof.
    rewrite (msum_delete m k), <- insert_delete_eq.
    rewrite msum_insert_None by apply lookup_delete_eq. lia.
Qed.

Lemma msum_lookup_le m k : m.[k] ≤ msum m.
Proof. rewrite (msum_delete m k). lia. Qed.

Lemma msum_two_le m j k : j ≠ k → m.[j] + m.[k] ≤ msum m.
Proof.
    intros Hne. rewrite (msum_delete m j).
    assert (m.[k] = (delete j m).[k]) as ->.
    { unfold sread. by rewrite lookup_delete_ne. }
    pose proof (msum_lookup_le (delete j m) k). lia.
Qed.
End Msum.

(** Sums of derived maps. *)

Section derived_sums.
Context `{Countable K}.
Implicit Types m : gmap K N.

Lemma msum_all_zero m : (∀ k, m.[k] = 0) → msum m = 0.
Proof.
  induction m as [|k v m Hk IH] using map_ind; intros Hz; [apply msum_empty|].
  rewrite msum_insert_None by done. pose proof (Hz k) as Hv. rewrite sread_insert_eq in Hv. subst v.
  rewrite IH; [done|]. intros k'. destruct (decide (k = k')) as [<-|Hne]; [unfold sread; by rewrite Hk|].
  specialize (Hz k'). by rewrite sread_insert_ne in Hz.
Qed.
Lemma sread_delete m k k' : (delete k m).[k'] = if decide (k = k') then 0 else m.[k'].
Proof. unfold sread. rewrite lookup_delete. by case_decide. Qed.
Lemma msum_ext m m' : (∀ k, m.[k] = m'.[k]) → msum m = msum m'.
Proof.
  revert m'. induction m as [|k v m Hk IH] using map_ind; intros m' Hm.
  - rewrite msum_empty, msum_all_zero; [done|]. intros k. by rewrite <- Hm, sread_empty.
  - rewrite msum_insert_None by done. rewrite (msum_delete m' k), <- Hm, sread_insert_eq. f_equal. apply IH.
    intros k'. rewrite sread_delete. case_decide as E; [subst k'; unfold sread; by rewrite Hk|].
    by rewrite <- Hm, sread_insert_ne.
Qed.
(** Two maps that agree but for one key. *)
Lemma msum_change m m' k :
  (∀ k', k' ≠ k → m'.[k'] = m.[k']) → msum m' + m.[k] = msum m + m'.[k].
Proof.
  intros Hm. rewrite (msum_delete m k), (msum_delete m' k).
  rewrite (msum_ext (delete k m') (delete k m)); [lia|].
  intros k'. rewrite !sread_delete. case_decide; [done|]. by apply Hm.
Qed.
Lemma sread_imap {V} (f : K → V → option N) (m : gmap K V) k :
  (map_imap f m).[k] = match m !! k with Some v => default 0 (f k v) | None => 0 end.
Proof. unfold sread. rewrite map_lookup_imap. by destruct (m !! k). Qed.
End derived_sums.

(** ** Tactics *)

(** Turn boolean tests in hypotheses and goal into propositions. *)
Ltac bool_simpl :=
  repeat match goal with
  | H : (_ && _) = true |- _ => apply andb_true_iff in H as [? ?]
  | H : (_ || _) = false |- _ => apply orb_false_iff in H as [? ?]
  | H : negb _ = true |- _ => apply negb_true_iff in H
  | H : negb _ = false |- _ => apply negb_false_iff in H
  | H : (_ =? _) = true |- _ => apply N.eqb_eq in H
  | H : (_ =? _) = false |- _ => apply N.eqb_neq in H
  | H : (_ <=? _) = true |- _ => apply N.leb_le in H
  | H : (_ <=? _) = false |- _ => apply N.leb_gt in H
  | H : (_ <? _) = true |- _ => apply N.ltb_lt in H
  | H : (_ <? _) = false |- _ => apply N.ltb_ge in H
  | H : bool_decide _ = true |- _ => apply bool_decide_eq_true in H
  | H : bool_decide _ = false |- _ => apply bool_decide_eq_false in H
  end.

(** Case on the discriminee of the first [match] of a hypothesis or the goal. *)
Ltac case_match_in H :=
  match type of H with
  | context [match ?x with _ => _ end] => destruct x eqn:?
  end.

(** Decide a comparison of numbers. *)
Ltac bool_lia :=
  lazymatch goal with
  | |- (_ <? _) = true => apply N.ltb_lt
  | |- (_ <? _) = false => apply N.ltb_ge
  | |- (_ <=? _) = true => apply N.leb_le
  | |- (_ <=? _) = false => apply N.leb_gt
  | |- (_ =? _) = true => apply N.eqb_eq
  | |- (_ =? _) = false => apply N.eqb_neq
  end; lia.

Ltac checked_simpl :=
  repeat match goal with
  | H : checked_add _ _ _ = Some _ |- _ => apply checked_add_Some in H as [? ?]
  | H : checked_sub _ _ = Some _ |- _ => apply checked_sub_Some in H as [? ?]
  | H : checked_mul _ _ _ = Some _ |- _ => apply checked_mul_Some in H as [? ?]
  | H : checked_div _ _ = Some _ |- _ => apply checked_div_Some in H as [? ?]
  | H : try_into _ _ = Some _ |- _ => apply try_into_Some in H as [? ?]
  end.
