(* ===== verification/StorageSet.v ===== *)
(** * Enumerable sets in storage

    [crates/precompiles/src/storage/types/set.rs]: [SetHandler] keeps the values of
    a set in an array and their one-based positions in a mapping. The handler is
    modelled cell by cell and shown to implement a duplicate-free list whose
    removal swaps the last value into the hole; clients ([Keychain.v]) use the
    list operations. *)

From S2P Require Import Prelude.

Lemma fold_clear {I K V} `{Countable K} (f : I → K) (x : V) (dv : Default V) l (m : gmap K V) k :
  (fold_left (λ m i, <[f i := x]> m) l m).[k] =
    if bool_decide (k ∈ map f l) then x else m.[k].
Proof.
  revert m. induction l as [|i l IH]; intros m; simpl; [done|]. rewrite IH, sread_insert.
  repeat case_bool_decide; repeat case_decide; set_solver.
Qed.

Section SetHandler.
Context `{Countable T, Default T}.

#[global] Instance default_nat : Default nat := 0%nat.

(** Length slot, array cells, positions mapping (0 = absent). *)
Record SetStorage := mkSet {
  set_len : nat;
  set_cells : gmap nat T;
  set_positions : gmap T nat
}.

Definition checked_position (index : nat) : option nat :=
  if N.of_nat index + 1 <=? U32_MAX then Some (S index) else None.

Definition contains (h : SetStorage) (v : T) : bool :=
  bool_decide (h.(set_positions).[v] ≠ 0%nat).

(** [VecHandler::max_index], from the number of bytes and slots of an element. *)
Definition max_index (bytes slots : N) : N :=
  if bytes <=? 16 then U32_MAX / bytes else U32_MAX / slots.

(** [None] is the arithmetic panic of [checked_position], or the error of
    [VecHandler::push] on an array that has reached the last index [max]. *)
Definition insert_value (max : N) (h : SetStorage) (v : T) : option (bool * SetStorage) :=
  if contains h v then Some (false, h)
  else
    let length := h.(set_len) in
    pos ← checked_position length;
    if max <=? N.of_nat length then None
    else Some (true, mkSet (S length) (<[length := v]> h.(set_cells))
                      (<[v := pos]> h.(set_positions))).

Definition remove_value (h : SetStorage) (v : T) : bool * SetStorage :=
  let position := h.(set_positions).[v] in
  if bool_decide (position = 0%nat) then (false, h)
  else
    let last_index := Nat.pred h.(set_len) in
    let index := Nat.pred position in
    let h1 :=
      if bool_decide (index ≠ last_index) then
        let last_value := h.(set_cells).[last_index] in
        mkSet h.(set_len) (<[index := last_value]> h.(set_cells))
              (<[last_value := position]> h.(set_positions))
      else h in
    (true, mkSet last_index (<[last_index := dflt]> h1.(set_cells))
                 (<[v := 0%nat]> h1.(set_positions))).

Definition read_values (h : SetStorage) : list T :=
  map (λ i, h.(set_cells).[i]) (seq 0 h.(set_len)).

(** Clear the positions of the values currently in the array. *)
Definition clear_positions (h : SetStorage) : gmap T nat :=
  fold_left (λ m i, <[h.(set_cells).[i] := 0%nat]> m) (seq 0 h.(set_len)) h.(set_positions).

(** Write [l] from cell [index] on, with positions. *)
Fixpoint write_from (index : nat) (l : list T) (cells : gmap nat T) (pos : gmap T nat)
    : option (gmap nat T * gmap T nat) :=
  match l with
  | [] => Some (cells, pos)
  | v :: l' =>
      p ← checked_position index;
      write_from (S index) l' (<[index := v]> cells) (<[v := p]> pos)
  end.

Definition write_values (h : SetStorage) (l : list T) : option SetStorage :=
  let old_len := h.(set_len) in
  let new_len := length l in
  cp ← write_from 0 l h.(set_cells) (clear_positions h);
  let cells := fold_left (λ m i, <[i := dflt]> m) (seq new_len (old_len - new_len)) cp.1 in
  Some (mkSet new_len cells cp.2).

Definition delete_values (h : SetStorage) : SetStorage :=
  mkSet 0 (fold_left (λ m i, <[i := dflt]> m) (seq 0 h.(set_len)) h.(set_cells))
        (clear_positions h).

(** ** The abstract set: a duplicate-free list *)

Definition list_contains (l : list T) (v : T) : bool := bool_decide (v ∈ l).

Definition list_insert_value (l : list T) (v : T) : list T :=
  if list_contains l v then l else l ++ [v].

(** Remove [v] by moving the last value into its place. *)
Fixpoint replace_value (l : list T) (v x : T) : list T :=
  match l with
  | [] => []
  | y :: l' => if decide (y = v) then x :: l' else y :: replace_value l' v x
  end.

Definition list_remove_value (l : list T) (v : T) : list T :=
  if list_contains l v then
    match last l with
    | Some x =>
        let l' := take (Nat.pred (length l)) l in
        if decide (x = v) then l' else replace_value l' v x
    | None => l
    end
  else l.

(** ** Invariant *)

Record set_wf (h : SetStorage) : Prop := {
  wf_pos : ∀ i, (i < h.(set_len))%nat → h.(set_positions).[h.(set_cells).[i]] = S i;
  wf_cell : ∀ v p, h.(set_positions).[v] = S p →
    (p < h.(set_len))%nat ∧ h.(set_cells).[p] = v;
  wf_clean : ∀ i, (h.(set_len) ≤ i)%nat → h.(set_cells).[i] = dflt
}.

Lemma read_lookup h i v :
  read_values h !! i = Some v ↔ (i < h.(set_len))%nat ∧ h.(set_cells).[i] = v.
Proof.
  unfold read_values. rewrite list_lookup_fmap_Some. setoid_rewrite lookup_seq. naive_solver lia.
Qed.

Lemma read_length h : length (read_values h) = h.(set_len).
Proof. unfold read_values. by rewrite length_map, length_seq. Qed.

Lemma read_elem h v : set_wf h → v ∈ read_values h ↔ h.(set_positions).[v] ≠ 0%nat.
Proof.
  intros Hwf. rewrite list_elem_of_lookup. setoid_rewrite read_lookup. split.
  - intros (i & Hi & <-). by rewrite (wf_pos h Hwf i Hi).
  - destruct (h.(set_positions).[v]) as [|p] eqn:Hp; [done|]. intros _.
    exists p. by apply (wf_cell h Hwf).
Qed.

Lemma read_nodup h : set_wf h → NoDup (read_values h).
Proof.
  intros Hwf. apply NoDup_alt. intros i j v [Hi <-]%read_lookup [Hj Hv]%read_lookup.
  pose proof (wf_pos h Hwf i Hi) as E. rewrite <- Hv, (wf_pos h Hwf j Hj) in E. congruence.
Qed.

Lemma checked_position_Some i p : checked_position i = Some p → p = S i.
Proof. unfold checked_position. by destruct (_ <=? _); intros [= <-]. Qed.

Lemma contains_list h v : set_wf h → contains h v = list_contains (read_values h) v.
Proof. intros Hwf. unfold contains, list_contains. apply bool_decide_ext. by rewrite read_elem. Qed.

Lemma insert_refines max h v b h' :
  set_wf h → insert_value max h v = Some (b, h') →
  set_wf h' ∧ b = negb (contains h v) ∧
  read_values h' = list_insert_value (read_values h) v.
Proof.
  intros Hwf. unfold insert_value, list_insert_value. rewrite <- contains_list by done.
  destruct (contains h v) eqn:Hc; [by intros [= <- <-]|].
  destruct (checked_position (set_len h)) as [p|] eqn:Hp; [|done].
  apply checked_position_Some in Hp as ->. destruct (_ <=? _) at 1; [done|]. intros [= <- <-].
  apply bool_decide_eq_false in Hc. apply dec_stable in Hc.
  split; [|split; [done|]].
  - split; simpl.
    + intros i Hi. destruct (decide (i = set_len h)) as [->|Hne].
      { by rewrite !sread_insert_eq. }
      rewrite (sread_insert_ne (set_cells h)) by done.
      rewrite sread_insert_ne; [apply Hwf; lia|].
      intros ->. rewrite (wf_pos h Hwf i) in Hc by lia. done.
    + intros v' q. rewrite sread_insert. case_decide as E.
      * intros [= <-]. subst. split; [lia|]. apply sread_insert_eq.
      * intros Hq. destruct (wf_cell h Hwf v' q Hq). split; [lia|].
        by rewrite sread_insert_ne by lia.
    + intros i Hi. rewrite sread_insert_ne by lia. apply (wf_clean h Hwf). lia.
  - unfold read_values. cbn [set_len set_cells]. rewrite seq_S, map_app. f_equal; simpl.
    + apply map_ext_in. intros i Hi%in_seq. by rewrite sread_insert_ne by lia.
    + by rewrite sread_insert_eq.
Qed.

Lemma replace_value_insert l i v x :
  NoDup l → l !! i = Some v → replace_value l v x = <[i := x]> l.
Proof.
  intros Hnd. revert i. induction Hnd as [|y l Hy _ IH]; intros [|i] Hi; simplify_eq/=.
  - by rewrite decide_True.
  - rewrite decide_False; [by rewrite (IH i)|]. intros ->.
    apply Hy. by eapply list_elem_of_lookup_2.
Qed.

Lemma replace_value_perm l v x : v ∈ l → v :: replace_value l v x ≡ₚ x :: l.
Proof.
  induction l as [|y l IH]; intros Hv; [by apply elem_of_nil in Hv|]. simpl.
  case_decide as E; [subst; apply Permutation_swap|].
  apply elem_of_cons in Hv as [->|Hv]; [done|].
  rewrite Permutation_swap, IH by done. apply Permutation_swap.
Qed.

(** Removing a value takes out one occurrence of it. *)
Lemma list_remove_perm l v : v ∈ l → v :: list_remove_value l v ≡ₚ l.
Proof.
  intros Hv. unfold list_remove_value, list_contains. rewrite bool_decide_true by done.
  destruct (list_elem_of_split _ _ Hv) as (l1 & l2 & E).
  destruct l as [|y l _] using rev_ind; [by destruct l1|]. clear E l1 l2.
  rewrite last_snoc. cbv zeta.
  rewrite length_app, Nat.add_1_r. cbn [Nat.pred]. rewrite take_app_length.
  case_decide as E; [subst; by rewrite Permutation_app_comm|].
  rewrite replace_value_perm; [by rewrite Permutation_app_comm|].
  apply elem_of_app in Hv as [?|Hv]; [done|]. by apply list_elem_of_singleton in Hv.
Qed.

Lemma remove_positions_wf h v p :
  set_wf h → h.(set_positions).[v] = S p → set_wf (remove_value h v).2.
Proof.
  intros Hwf Hp. destruct (wf_cell h Hwf v p Hp) as [Hlt Hv].
  unfold remove_value. rewrite Hp. simpl. set (lst := Nat.pred (set_len h)).
  assert (set_len h = S lst) as Hl by lia.
  pose proof (wf_pos h Hwf lst ltac:(lia)) as Hlast.
  case_bool_decide as Hne; simpl; split; simpl.
  - intros i Hi. rewrite (sread_insert_ne _ lst) by lia.
    rewrite (sread_insert (set_cells h)). case_decide as E; subst.
    + rewrite sread_insert_ne, sread_insert_eq; [done|]. intros E. rewrite <- E, Hp in Hlast. lia.
    + pose proof (wf_pos h Hwf i ltac:(lia)) as Hi'.
      rewrite !sread_insert_ne; [done| |]; intros E'; rewrite E' in *; lia.
  - intros v' q. rewrite sread_insert. case_decide; [done|]. rewrite sread_insert.
    case_decide; subst.
    + intros [= <-]. split; [lia|]. rewrite sread_insert_ne by lia. apply sread_insert_eq.
    + intros Hq. destruct (wf_cell h Hwf v' q Hq) as [Hq1 Hq2].
      assert (q ≠ lst) by (intros ->; congruence).
      assert (q ≠ p) by (intros ->; congruence).
      split; [lia|]. by rewrite !sread_insert_ne by lia.
  - intros i Hi. rewrite sread_insert. case_decide; [done|].
    rewrite sread_insert_ne by lia. apply (wf_clean h Hwf). lia.
  - intros i Hi. rewrite (sread_insert_ne (set_cells h)) by lia.
    pose proof (wf_pos h Hwf i ltac:(lia)) as Hi'.
    rewrite sread_insert_ne; [done|]. intros E. rewrite <- E in Hi'. lia.
  - intros v' q. rewrite sread_insert. case_decide; [done|]. intros Hq.
    destruct (wf_cell h Hwf v' q Hq) as [Hq1 Hq2].
    assert (q ≠ lst) by (intros ->; congruence).
    split; [lia|]. by rewrite sread_insert_ne by lia.
  - intros i Hi. rewrite sread_insert. case_decide; [done|]. apply (wf_clean h Hwf). lia.
Qed.

Lemma remove_read h v p :
  set_wf h → h.(set_positions).[v] = S p →
  read_values (remove_value h v).2 = list_remove_value (read_values h) v.
Proof.
  intros Hwf Hp. destruct (wf_cell h Hwf v p Hp) as [Hlt Hv].
  unfold list_remove_value. rewrite <- contains_list by done.
  unfold contains. rewrite Hp, bool_decide_true by done.
  rewrite last_lookup, read_length. set (lst := Nat.pred (set_len h)).
  rewrite (proj2 (read_lookup h lst (h.(set_cells).[lst]))) by (split; [lia|done]).
  unfold remove_value. rewrite Hp. simpl. fold lst.
  assert (NoDup (take lst (read_values h))) as Hnd.
  { pose proof (read_nodup h Hwf) as Hn. rewrite <- (take_drop lst) in Hn.
    by apply NoDup_app in Hn as [? _]. }
  case_bool_decide as Hne; simpl.
  - rewrite decide_False.
    2: { intros E. rewrite <- E, (wf_pos h Hwf lst ltac:(lia)) in Hp. lia. }
    rewrite (replace_value_insert _ p); [|done|].
    2: { rewrite lookup_take_lt by lia. by apply read_lookup. }
    apply list_eq. intros i. apply option_eq. intros x. rewrite read_lookup. simpl.
    destruct (decide (i = p)) as [->|Hi].
    + rewrite list_lookup_insert_eq by (rewrite length_take, read_length; lia).
      rewrite sread_insert_ne, sread_insert_eq by lia. naive_solver lia.
    + rewrite list_lookup_insert_ne, lookup_take_Some, read_lookup by done.
      split; intros; destruct_and?; split_and?; try lia.
      * by rewrite !sread_insert_ne in * by lia.
      * by rewrite !sread_insert_ne in * by lia.
  - subst lst. rewrite decide_True by congruence.
    apply list_eq. intros i. apply option_eq. intros x.
    rewrite read_lookup, lookup_take_Some, read_lookup. simpl.
    split; intros; destruct_and?; split_and?; try lia;
      by rewrite !sread_insert_ne in * by lia.
Qed.

Lemma remove_refines h v :
  set_wf h →
  set_wf (remove_value h v).2 ∧ (remove_value h v).1 = contains h v ∧
  read_values (remove_value h v).2 = list_remove_value (read_values h) v.
Proof.
  intros Hwf. destruct (h.(set_positions).[v]) as [|p] eqn:Hp.
  - assert (contains h v = false) as Hc by (unfold contains; by rewrite Hp).
    unfold remove_value, list_remove_value. rewrite <- contains_list, Hc by done.
    rewrite Hp. done.
  - split; [by eapply remove_positions_wf|]. split; [|by eapply remove_read].
    unfold remove_value, contains. by rewrite Hp.
Qed.

Lemma clear_positions_zero h v : set_wf h → (clear_positions h).[v] = 0%nat.
Proof.
  intros Hwf. unfold clear_positions. rewrite fold_clear. case_bool_decide as Hin; [done|].
  apply dec_stable. intros Hne. apply Hin. by apply read_elem.
Qed.

Lemma write_from_spec index l cells pos cells' pos' :
  NoDup l → write_from index l cells pos = Some (cells', pos') →
  (∀ j v, l !! j = Some v → cells'.[(index + j)%nat] = v ∧ pos'.[v] = S (index + j)) ∧
  (∀ i, (i < index ∨ index + length l ≤ i)%nat → cells'.[i] = cells.[i]) ∧
  (∀ v, v ∉ l → pos'.[v] = pos.[v]).
Proof.
  intros Hnd. revert index cells pos. induction Hnd as [|x l Hx _ IH]; intros index cells pos; simpl.
  { intros [= <- <-]. done. }
  destruct (checked_position index) as [p|] eqn:Hp; [|done].
  apply checked_position_Some in Hp as ->. intros (H1 & H2 & H3)%IH. split_and!.
  - intros [|j] v Hj; simplify_eq/=.
    + rewrite Nat.add_0_r. rewrite H2, H3 by (done || lia). by rewrite !sread_insert_eq.
    + replace (index + S j)%nat with (S index + j)%nat by lia. by apply H1.
  - intros i Hi. rewrite H2 by lia. by rewrite sread_insert_ne by lia.
  - intros v [Hne Hl]%not_elem_of_cons. rewrite H3 by done. by rewrite sread_insert_ne.
Qed.

Lemma write_refines h l h' :
  set_wf h → NoDup l → write_values h l = Some h' → set_wf h' ∧ read_values h' = l.
Proof.
  intros Hwf Hnd. unfold write_values.
  destruct (write_from _ _ _ _) as [[c p]|] eqn:Hw; [|done]. intros [= <-].
  destruct (write_from_spec _ _ _ _ _ _ Hnd Hw) as (H1 & H2 & H3).
  assert (∀ i, (fold_left (λ m i, <[i := dflt]> m) (seq (length l) (set_len h - length l)) c).[i]
    = if decide (i < length l)%nat then c.[i] else dflt) as Hc.
  { intros i. rewrite (fold_clear (λ i, i)), map_id. case_bool_decide as Hi; case_decide; try done.
    - apply elem_of_seq in Hi. lia.
    - rewrite H2 by lia. apply (wf_clean h Hwf). rewrite elem_of_seq in Hi. lia. }
  assert (∀ j v, l !! j = Some v → (j < length l)%nat ∧ c.[j] = v ∧ p.[v] = S j) as Hl.
  { intros j v Hj. split; [by eapply lookup_lt_Some|]. by apply (H1 j v). }
  split.
  - split; cbn [set_len set_cells set_positions].
    + intros i Hi. rewrite Hc, decide_True by done.
      destruct (lookup_lt_is_Some_2 l i Hi) as [v Hv]. by destruct (Hl i v Hv) as (_ & -> & ?).
    + intros v q Hq. destruct (decide (v ∈ l)) as [[j Hj]%list_elem_of_lookup|Hn].
      * destruct (Hl j v Hj) as (Hlt & Hcj & Hpj). rewrite Hq in Hpj. injection Hpj as ->.
        split; [done|]. by rewrite Hc, decide_True.
      * rewrite H3, clear_positions_zero in Hq by done. done.
    + intros i Hi. rewrite Hc, decide_False by lia. done.
  - apply list_eq. intros i. apply option_eq. intros x. rewrite read_lookup.
    cbn [set_len set_cells]. split.
    + intros [Hi <-]. destruct (lookup_lt_is_Some_2 l i Hi) as [v Hv].
      rewrite Hc, decide_True by done. destruct (Hl i v Hv) as (_ & -> & _). done.
    + intros Hv. destruct (Hl i x Hv) as (? & ? & _). split; [done|]. by rewrite Hc, decide_True.
Qed.

Lemma delete_refines h : set_wf h → set_wf (delete_values h) ∧ read_values (delete_values h) = [].
Proof.
  intros Hwf. split; [|done]. split; simpl; [lia| |].
  - intros v p. by rewrite clear_positions_zero.
  - intros i _. rewrite (fold_clear (λ i, i)), map_id. case_bool_decide as Hi; [done|].
    apply (wf_clean h Hwf). rewrite elem_of_seq in Hi. lia.
Qed.

Definition empty_set : SetStorage := mkSet 0 ∅ ∅.

(** ** Property *)

(** C39: the storage set implements a duplicate-free list. From a well-formed
    set, every operation of the handler keeps the values array and the positions
    mapping in step and acts on the list of values as the list operation:
    membership is answered by the positions, insertion appends a new value,
    removal moves the last value into the hole, writing replaces the contents
    (of a duplicate-free list), deletion leaves nothing, and the cells beyond the
    length stay zero. *)
Theorem set_handler_refines_list (max : N) (h : SetStorage) (v : T) (l : list T) :
  set_wf h →
  NoDup (read_values h) ∧
  (contains h v = true ↔ v ∈ read_values h) ∧
  (∀ b h', insert_value max h v = Some (b, h') →
     set_wf h' ∧ b = negb (contains h v) ∧
     read_values h' = list_insert_value (read_values h) v) ∧
  (set_wf (remove_value h v).2 ∧ (remove_value h v).1 = contains h v ∧
   read_values (remove_value h v).2 = list_remove_value (read_values h) v) ∧
  (∀ h', NoDup l → write_values h l = Some h' → set_wf h' ∧ read_values h' = l) ∧
  (set_wf (delete_values h) ∧ read_values (delete_values h) = []).
Proof.
  intros Hwf. split_and!; try by apply remove_refines.
  - by apply read_nodup.
  - unfold contains. rewrite bool_decide_eq_true. symmetry. by apply read_elem.
  - intros b h'. by apply insert_refines.
  - intros h'. by apply write_refines.
  - by apply delete_refines.
  - done.
Qed.

End SetHandler.
Arguments SetStorage T {_ _}.

Lemma set_handler_refines_list_witness :
  let h := default empty_set (snd <$> insert_value 100 (default empty_set
             (snd <$> insert_value 100 (empty_set (T := N)) 5)) 6) in
  read_values (remove_value h 5).2 = [6].
Proof.
  intros h.
  assert (set_wf (empty_set (T := N))) as H0 by (split; [intros; simpl in *; lia|done|done]).
  assert (set_wf h) as Hh.
  { destruct (set_handler_refines_list 100 (empty_set (T := N)) 5 [] H0) as (_ & _ & H1 & _).
    destruct (H1 true _ eq_refl) as [H2 _].
    destruct (set_handler_refines_list 100 _ 6 [] H2) as (_ & _ & H3 & _).
    exact (proj1 (H3 true _ eq_refl)). }
  destruct (set_handler_refines_list 100 h 5 [] Hh) as (_ & _ & _ & (_ & _ & H4) & _).
  rewrite H4. reflexivity.
Defined.
