(* ===== verification/Packing.v ===== *)
(** * Packing of fields into storage words

    [storage/packing.rs] and the word conversions of the primitive types: several
    small fields share one 32-byte slot, each in its own range of bytes. A field is
    read and written through its offset and size without disturbing the others. *)

From S2P Require Import Prelude.

Module Packing.

(** ** Words

    [U256] operations that drop the bits above 256. *)
Definition u256_shl (x : U256) (n : N) : U256 := N.shiftl x n mod 2 ^ 256.
Definition u256_not (x : U256) : U256 := N.lnot x 256.

Definition create_element_mask (byte_count : N) : U256 :=
  if 32 <=? byte_count then U256_MAX else u256_shl 1 (byte_count * 8) - 1.

(** [None] where the source returns an error: the field spans two slots. *)
Definition extract_from_word (slot_value : U256) (offset bytes : N) : option U256 :=
  if 32 <? offset + bytes then None
  else Some (N.land (N.shiftr slot_value (offset * 8)) (create_element_mask bytes)).

Definition insert_into_word (current field_value : U256) (offset bytes : N) : option U256 :=
  if 32 <? offset + bytes then None
  else
    let shift_bits := offset * 8 in
    let mask := create_element_mask bytes in
    let cleared := N.land current (u256_not (u256_shl mask shift_bits)) in
    let positioned := u256_shl (N.land field_value mask) shift_bits in
    Some (N.lor cleared positioned).

Definition delete_from_word (current : U256) (offset bytes : N) : option U256 :=
  if 32 <? offset + bytes then None
  else Some (N.land current (u256_not (u256_shl (create_element_mask bytes) (offset * 8)))).

Definition calc_element_slot (idx elem_bytes : N) : N := idx / (32 / elem_bytes).
Definition calc_element_offset (idx elem_bytes : N) : N := (idx mod (32 / elem_bytes)) * elem_bytes.
Definition calc_packed_slot_count (n elem_bytes : N) : N :=
  (n + (32 / elem_bytes) - 1) / (32 / elem_bytes).

(** ** Word forms of the primitive types *)

Definition bool_word (b : bool) : U256 := if b then 1 else 0.
Definition bool_from_word (w : U256) : bool := negb (w =? 0).
(** [i16]: the two's complement in 16 bits. *)
Definition i16_word (t : Z) : U256 := Z.to_N (t mod 2 ^ 16).
Definition i16_from_word (w : U256) : Z :=
  if w <? 2 ^ 15 then Z.of_N w else (Z.of_N w - 2 ^ 16)%Z.

Definition i16_range (t : Z) : Prop := (- 2 ^ 15 ≤ t < 2 ^ 15)%Z.

(** ** A slot filled field by field

    The store code generated by [#[derive(Storable)]] (T4 on): start from zero and
    insert the fields sharing a slot one after the other. A field is its word,
    offset and size. *)
Fixpoint pack_fields (fs : list (U256 * N * N)) (pending : U256) : option U256 :=
  match fs with
  | [] => Some pending
  | (v, offset, bytes) :: fs' =>
      pending ← insert_into_word pending v offset bytes; pack_fields fs' pending
  end.

(** ** Bits *)

Lemma ones_testbit n i : N.testbit (N.ones n) i = (i <? n).
Proof. destruct (N.ltb_spec i n); [by apply N.ones_spec_low|by apply N.ones_spec_high]. Qed.

Lemma mask_testbit b i : b ≤ 32 → N.testbit (create_element_mask b) i = (i <? b * 8).
Proof.
  intros Hb. rewrite <- ones_testbit. f_equal. unfold create_element_mask, u256_shl, U256_MAX.
  destruct (N.leb_spec 32 b) as [H|H].
  - assert (b = 32) as -> by lia. reflexivity.
  - rewrite N.shiftl_1_l, N.mod_small by (apply N.pow_lt_mono_r; lia). rewrite N.ones_equiv. lia.
Qed.

Lemma shl_testbit x n i :
  N.testbit (u256_shl x n) i = (i <? 256) && (n <=? i) && N.testbit x (i - n).
Proof.
  unfold u256_shl. destruct (N.ltb_spec i 256) as [H|H].
  - rewrite N.mod_pow2_bits_low by done. destruct (N.leb_spec n i); simpl.
    + by rewrite N.shiftl_spec_high'.
    + by rewrite N.shiftl_spec_low.
  - by rewrite N.mod_pow2_bits_high.
Qed.

Lemma not_testbit x i : i < 256 → N.testbit (u256_not x) i = negb (N.testbit x i).
Proof. apply N.lnot_spec_low. Qed.

Lemma extract_testbit s o b w i :
  extract_from_word s o b = Some w → N.testbit w i = (i <? b * 8) && N.testbit s (i + o * 8).
Proof.
  unfold extract_from_word. destruct (N.ltb_spec 32 (o + b)) as [|H]; [done|]. intros [= <-].
  rewrite N.land_spec, N.shiftr_spec', mask_testbit by lia. apply andb_comm.
Qed.

Lemma insert_testbit c v o b w i :
  insert_into_word c v o b = Some w → i < 256 →
  N.testbit w i = if (o * 8 <=? i) && (i <? (o + b) * 8) then N.testbit v (i - o * 8)
                  else N.testbit c i.
Proof.
  unfold insert_into_word. destruct (N.ltb_spec 32 (o + b)) as [|H]; [done|]. intros [= <-] Hi.
  rewrite N.lor_spec, N.land_spec, not_testbit, !shl_testbit, N.land_spec, mask_testbit by lia.
  assert ((i <? 256) = true) as -> by bool_lia. simpl.
  destruct (N.leb_spec (o * 8) i) as [Ho|Ho]; simpl; [|by rewrite andb_true_r, orb_false_r].
  destruct (N.ltb_spec (i - o * 8) (b * 8)) as [H1|H1].
  - assert ((i <? (o + b) * 8) = true) as -> by bool_lia. by rewrite andb_false_r, andb_true_r.
  - assert ((i <? (o + b) * 8) = false) as -> by bool_lia. by rewrite !andb_false_r, andb_true_r, orb_false_r.
Qed.

Lemma testbit_small v n i : v < 2 ^ n → n ≤ i → N.testbit v i = false.
Proof.
  intros Hv Hi. destruct (N.eq_0_gt_0_cases v) as [->|Hp]; [apply N.bits_0|].
  apply N.bits_above_log2. apply N.log2_lt_pow2 in Hv; lia.
Qed.

(** ** Fields are independent *)

(** A stored field is read back. *)
Lemma extract_insert c v o b w :
  v < 2 ^ (b * 8) → insert_into_word c v o b = Some w → extract_from_word w o b = Some v.
Proof.
  intros Hv Hw. assert (o + b ≤ 32) as Hob.
  { unfold insert_into_word in Hw. destruct (N.ltb_spec 32 (o + b)); [done|lia]. }
  destruct (extract_from_word w o b) as [x|] eqn:Hx.
  2: { unfold extract_from_word in Hx. destruct (N.ltb_spec 32 (o + b)); [lia|done]. }
  f_equal. apply N.bits_inj. intros i. rewrite (extract_testbit _ _ _ _ _ Hx).
  destruct (N.ltb_spec i (b * 8)) as [Hi|Hi]; simpl; [|by rewrite (testbit_small v (b * 8))].
  rewrite (insert_testbit _ _ _ _ _ _ Hw) by lia.
  assert ((o * 8 <=? i + o * 8) = true) as -> by bool_lia.
  assert ((i + o * 8 <? (o + b) * 8) = true) as -> by bool_lia. simpl. f_equal. lia.
Qed.

(** A field in other bytes is left alone. *)
Lemma extract_insert_other c v o b w o' b' :
  o + b ≤ o' ∨ o' + b' ≤ o → insert_into_word c v o b = Some w →
  extract_from_word w o' b' = extract_from_word c o' b'.
Proof.
  intros Hd Hw. destruct (extract_from_word w o' b') as [x|] eqn:Hx,
    (extract_from_word c o' b') as [y|] eqn:Hy; try done.
  all: try (unfold extract_from_word in Hx, Hy; by destruct (32 <? o' + b')).
  assert (o' + b' ≤ 32) as Hob.
  { unfold extract_from_word in Hx. destruct (N.ltb_spec 32 (o' + b')); [done|lia]. }
  f_equal. apply N.bits_inj. intros i.
  rewrite (extract_testbit _ _ _ _ _ Hx), (extract_testbit _ _ _ _ _ Hy).
  destruct (N.ltb_spec i (b' * 8)) as [Hi|Hi]; simpl; [|done].
  rewrite (insert_testbit _ _ _ _ _ _ Hw) by lia.
  destruct (N.leb_spec (o * 8) (i + o' * 8)), (N.ltb_spec (i + o' * 8) ((o + b) * 8)); simpl; try done.
  lia.
Qed.

(** Deleting a field stores zero in it. *)
Lemma delete_is_insert c o b : delete_from_word c o b = insert_into_word c 0 o b.
Proof.
  unfold delete_from_word, insert_into_word. destruct (32 <? o + b); [done|].
  unfold u256_shl at 3. by rewrite N.land_0_l, N.shiftl_0_l, N.lor_0_r.
Qed.

Lemma insert_None c v o b : insert_into_word c v o b = None ↔ 32 < o + b.
Proof. unfold insert_into_word. destruct (N.ltb_spec 32 (o + b)); naive_solver lia. Qed.

Lemma i16_word_inv t : i16_range t → i16_from_word (i16_word t) = t.
Proof.
  unfold i16_range, i16_from_word, i16_word. intros Ht.
  destruct (Z.lt_ge_cases t 0).
  - assert ((t mod 2 ^ 16 = t + 2 ^ 16)%Z) as ->.
    { symmetry. apply (Z.mod_unique_pos _ _ (-1)); lia. }
    destruct (N.ltb_spec (Z.to_N (t + 2 ^ 16)) (2 ^ 15)); lia.
  - rewrite Z.mod_small by lia. destruct (N.ltb_spec (Z.to_N t) (2 ^ 15)); lia.
Qed.
Lemma i16_word_bound t : i16_word t < 2 ^ 16.
Proof. unfold i16_word. pose proof (Z.mod_pos_bound t (2 ^ 16)). lia. Qed.
Lemma bool_word_inv b : bool_from_word (bool_word b) = b.
Proof. by destruct b. Qed.

(** A field packed once, with the later fields in other bytes, is read back. *)
Lemma extract_pack fs1 fs2 v o b w0 w :
  v < 2 ^ (b * 8) → Forall (λ '(_, o', b'), o' + b' ≤ o ∨ o + b ≤ o') fs2 →
  pack_fields (fs1 ++ (v, o, b) :: fs2) w0 = Some w → extract_from_word w o b = Some v.
Proof.
  intros Hv Hd. revert w0. induction fs1 as [|[[v' o'] b'] fs1 IH]; intros w0; simpl.
  - intros (w1 & H1 & H2)%bind_Some. apply (extract_insert _ _ _ _ _ Hv) in H1. revert w1 H1 H2.
    induction Hd as [|[[v' o'] b'] fs2 Hd' _ IH]; intros w1 H1; simpl; [congruence|].
    intros (w2 & H2 & H3)%bind_Some. apply (IH w2); [|done].
    rewrite (extract_insert_other _ _ _ _ _ _ _ Hd' H2). done.
  - intros (w1 & _ & H2)%bind_Some. by apply (IH w1).
Qed.

(** C40: fields packed into one word do not disturb each other. Writing a value that
    fits a field succeeds exactly when the field lies within the word; the field then
    reads back as that value, deleting it makes it read as zero, and every field in
    other bytes reads as before. *)
Theorem packed_fields_independent c v o b :
  v < 2 ^ (b * 8) →
  (o + b ≤ 32 ↔ is_Some (insert_into_word c v o b)) ∧
  ∀ w, insert_into_word c v o b = Some w →
    extract_from_word w o b = Some v ∧
    (∀ w', delete_from_word w o b = Some w' → extract_from_word w' o b = Some 0) ∧
    ∀ o' b', o + b ≤ o' ∨ o' + b' ≤ o →
      extract_from_word w o' b' = extract_from_word c o' b' ∧
      ∀ w', delete_from_word w o b = Some w' →
        extract_from_word w' o' b' = extract_from_word c o' b'.
Proof.
  intros Hv. split.
  { destruct (insert_into_word c v o b) eqn:Hi.
    - split; [done|]. intros _. destruct (N.le_gt_cases (o + b) 32) as [|Hgt]; [done|].
      apply (insert_None c v) in Hgt. congruence.
    - apply insert_None in Hi. split; [lia|]. by intros [? ?]. }
  intros w Hw. split_and!.
  - by apply (extract_insert c).
  - intros w'. rewrite delete_is_insert. apply extract_insert. apply N.neq_0_lt_0, N.pow_nonzero. done.
  - intros o' b' Hd. pose proof (extract_insert_other _ _ _ _ _ _ _ Hd Hw) as H1. split; [done|].
    intros w'. rewrite delete_is_insert. intros H2. rewrite <- H1. by apply (extract_insert_other _ _ _ _ _ _ _ Hd H2).
Qed.

Lemma packed_fields_independent_witness :
  let w := 0xAABBCCDD in
  insert_into_word w 0x77 1 1 = Some 0xAABB77DD ∧
  extract_from_word 0xAABB77DD 1 1 = Some 0x77 ∧ extract_from_word 0xAABB77DD 2 2 = Some 0xAABB.
Proof.
  intros w. split; [by vm_compute|].
  destruct (packed_fields_independent w 0x77 1 1) as [_ H]; [by vm_compute|].
  destruct (H 0xAABB77DD) as (H1 & _ & H2); [by vm_compute|]. split; [exact H1|].
  destruct (H2 2 2) as [-> _]; [left; by vm_compute|]. by vm_compute.
Defined.

End Packing.
