(* ===== verification/Hardfork.v ===== *)
(** * Hardforks

    [crates/hardfork/src/lib.rs]: the ordered list of protocol upgrades and the
    per-fork parameters the precompiles read. Every [is_<fork>] test of the
    source is the comparison of variant indices. *)

From S2P Require Import Prelude.

Inductive TempoHardfork :=
| Genesis | T0 | T1 | T1A | T1B | T1C | T2 | T3 | T4 | T5 | T6 | T7 | T8 | T9
| T10 | T11 | T12 | T13 | T14.

#[export] Instance TempoHardfork_eq_dec : EqDecision TempoHardfork.
Proof. solve_decision. Defined.

Definition variant_index (s : TempoHardfork) : N :=
  match s with
  | Genesis => 0 | T0 => 1 | T1 => 2 | T1A => 3 | T1B => 4 | T1C => 5 | T2 => 6
  | T3 => 7 | T4 => 8 | T5 => 9 | T6 => 10 | T7 => 11 | T8 => 12 | T9 => 13
  | T10 => 14 | T11 => 15 | T12 => 16 | T13 => 17 | T14 => 18
  end.

Definition VARIANTS : list TempoHardfork :=
  [Genesis; T0; T1; T1A; T1B; T1C; T2; T3; T4; T5; T6; T7; T8; T9; T10; T11;
   T12; T13; T14].

Definition from_variant_index (i : N) : option TempoHardfork :=
  VARIANTS !! N.to_nat i.

(** [*self as u64 >= Self::Fork as u64]. *)
Definition since (s f : TempoHardfork) : bool := variant_index f <=? variant_index s.

Definition is_t0 (s : TempoHardfork) : bool := since s T0.
Definition is_t1a (s : TempoHardfork) : bool := since s T1A.
Definition is_t1 (s : TempoHardfork) : bool := since s T1.
Definition is_t1c (s : TempoHardfork) : bool := since s T1C.
Definition is_t2 (s : TempoHardfork) : bool := since s T2.
Definition is_t3 (s : TempoHardfork) : bool := since s T3.
Definition is_t4 (s : TempoHardfork) : bool := since s T4.
Definition is_t5 (s : TempoHardfork) : bool := since s T5.
Definition is_t6 (s : TempoHardfork) : bool := since s T6.
Definition is_t7 (s : TempoHardfork) : bool := since s T7.
Definition is_t8 (s : TempoHardfork) : bool := since s T8.
Definition is_t9 (s : TempoHardfork) : bool := since s T9.
Definition is_t10 (s : TempoHardfork) : bool := since s T10.
Definition is_t11 (s : TempoHardfork) : bool := since s T11.
Definition is_t12 (s : TempoHardfork) : bool := since s T12.
Definition is_t13 (s : TempoHardfork) : bool := since s T13.
Definition is_t14 (s : TempoHardfork) : bool := since s T14.

Definition expiring_nonce_set_capacity (s : TempoHardfork) : N :=
  if is_t11 s then 3000000 else 300000.

Definition expiring_nonce_max_expiry_secs (s : TempoHardfork) : N :=
  if is_t11 s then 300 else 30.

(** ** Lemmas *)

Lemma since_mono s s' f : since s f = true → since s' s = true → since s' f = true.
Proof. unfold since. rewrite !N.leb_le. lia. Qed.

Lemma from_variant_index_inverse s : from_variant_index (variant_index s) = Some s.
Proof. by destruct s. Qed.

Lemma expiring_nonce_capacity_mono s s' :
  since s' s = true →
  expiring_nonce_set_capacity s ≤ expiring_nonce_set_capacity s'.
Proof.
  intros Hs. unfold expiring_nonce_set_capacity.
  destruct (is_t11 s) eqn:H; [|destruct (is_t11 s'); lia].
  unfold is_t11 in *. by rewrite (since_mono s s').
Qed.
