(* ===== verification/Address.v ===== *)
(** * Addresses

    [crates/primitives/src/address.rs], [crates/contracts/src/precompiles/mod.rs]
    and [crates/chainspec/src/native_account.rs]. A 20-byte address is the [N]
    of its big-endian bytes; [slice a i j] is the number held by
    [a.as_slice()[i..j]]. *)

From S2P Require Import Prelude Hardfork.

Definition ADDRESS_MAX : N := 2 ^ 160 - 1.

(** Bytes [i..j] of the 20-byte big-endian representation. *)
Definition slice (a : Address) (i j : N) : N :=
  (a / 2 ^ (8 * (20 - j))) mod 2 ^ (8 * (j - i)).

Definition TIP20_TOKEN_PREFIX : N := 0x20C000000000000000000000.
Definition ZONE_PORTAL_PREFIX : N := 0x5AD000000000000000000000.
Definition VIRTUAL_MAGIC : N := 0xFDFDFDFDFDFDFDFDFDFD.

Definition TIP_FEE_MANAGER_ADDRESS : Address := 0xfeec000000000000000000000000000000000000.
Definition TIP403_REGISTRY_ADDRESS : Address := 0x403C000000000000000000000000000000000000.
Definition TIP20_FACTORY_ADDRESS : Address := 0x20FC000000000000000000000000000000000000.
Definition STABLECOIN_DEX_ADDRESS : Address := 0xdec0000000000000000000000000000000000000.
Definition NONCE_PRECOMPILE_ADDRESS : Address := 0x4E4F4E4345000000000000000000000000000000.
Definition VALIDATOR_CONFIG_ADDRESS : Address := 0xCCCCCCCC00000000000000000000000000000000.
Definition ACCOUNT_KEYCHAIN_ADDRESS : Address := 0xAAAAAAAA00000000000000000000000000000000.
Definition VALIDATOR_CONFIG_V2_ADDRESS : Address := 0xCCCCCCCC00000000000000000000000000000001.
Definition ADDRESS_REGISTRY_ADDRESS : Address := 0xFDC0000000000000000000000000000000000000.
Definition SIGNATURE_VERIFIER_ADDRESS : Address := 0x5165300000000000000000000000000000000000.
Definition RECEIVE_POLICY_GUARD_ADDRESS : Address := 0xB10C000000000000000000000000000000000000.
Definition STORAGE_CREDITS_ADDRESS : Address := 0x1060000000000000000000000000000000000000.
Definition CURRENT_COMMITTEE_ADDRESS : Address := 0xC077E00000000000000000000000000000000000.
Definition CONFIGURABLE_ACCOUNT_ADDRESS : Address := 0xAACC000000000000000000000000000000000000.
Definition TIP20_CHANNEL_RESERVE_ADDRESS : Address := 0x4D50500000000000000000000000000000000000.
Definition ZONE_FACTORY_ADDRESS : Address := 0x5AF2000000000000000000000000000000000000.
Definition ZONE_VERIFIER_ADDRESS : Address := 0x5A56000000000000000000000000000000000000.
Definition PATH_USD_ADDRESS : Address := 0x20C0000000000000000000000000000000000000.
Definition DEFAULT_FEE_TOKEN : Address := PATH_USD_ADDRESS.
Definition ZERO_ADDRESS : Address := 0.

Definition SYSTEM_PRECOMPILES : list (Address * TempoHardfork) :=
  [ (TIP403_REGISTRY_ADDRESS, Genesis);
    (TIP_FEE_MANAGER_ADDRESS, Genesis);
    (STABLECOIN_DEX_ADDRESS, Genesis);
    (NONCE_PRECOMPILE_ADDRESS, Genesis);
    (ACCOUNT_KEYCHAIN_ADDRESS, Genesis);
    (VALIDATOR_CONFIG_ADDRESS, Genesis);
    (VALIDATOR_CONFIG_V2_ADDRESS, Genesis);
    (TIP20_FACTORY_ADDRESS, Genesis);
    (ADDRESS_REGISTRY_ADDRESS, T3);
    (SIGNATURE_VERIFIER_ADDRESS, T3);
    (TIP20_CHANNEL_RESERVE_ADDRESS, T5);
    (RECEIVE_POLICY_GUARD_ADDRESS, T6);
    (STORAGE_CREDITS_ADDRESS, T7);
    (CURRENT_COMMITTEE_ADDRESS, T8);
    (ZONE_FACTORY_ADDRESS, T10);
    (ZONE_VERIFIER_ADDRESS, T13) ].

Definition is_zero (a : Address) : bool := a =? 0.

(** The bytes in front of the last eight are the prefix, and nothing else. *)
Definition is_tip20_prefix (a : Address) : bool := a / 2 ^ 64 =? TIP20_TOKEN_PREFIX.

Definition tip20_id (a : Address) : option N :=
  if is_tip20_prefix a then Some (slice a 12 20) else None.

Definition new_tip20 (id : N) : Address :=
  N.lor (N.shiftl TIP20_TOKEN_PREFIX 64) id.

Definition zone_portal_id (a : Address) : option N :=
  if negb (slice a 0 12 =? ZONE_PORTAL_PREFIX) then None
  else let zone_id := slice a 12 20 in
       if negb (zone_id =? 0) then Some zone_id else None.

Definition is_virtual (a : Address) : bool := slice a 4 14 =? VIRTUAL_MAGIC.

Definition is_valid_master (a : Address) : bool :=
  negb (is_zero a) && negb (is_virtual a) && negb (is_tip20_prefix a).

Definition decode_virtual (a : Address) : option (N * N) :=
  if negb (is_virtual a) then None
  else Some (slice a 0 4, slice a 14 20).

Definition new_virtual (master_id user_tag : N) : Address :=
  N.lor (N.shiftl master_id 128) (N.lor (N.shiftl VIRTUAL_MAGIC 48) user_tag).

Definition is_precompile (a : Address) (spec : TempoHardfork) : bool :=
  is_tip20_prefix a
  || existsb (λ p, (p.1 =? a) && since spec p.2) SYSTEM_PRECOMPILES.

(** [Precompiles::new(..).contains], the Ethereum precompile set of revm, is the
    argument [eth_precompile]. *)
Definition is_valid_native_account
    (eth_precompile : TempoHardfork → Address → bool)
    (address : Address) (hardfork : TempoHardfork) : bool :=
  negb (is_zero address)
  && negb (is_virtual address)
  && negb (is_precompile address hardfork)
  && negb (eth_precompile hardfork address)
  && bool_decide (zone_portal_id address = None).

(** ** Big-endian encodings used as hash preimages *)

(** The [n] low-order bytes of [x], most significant first. *)
Fixpoint be_bytes (n : nat) (x : N) : list N :=
  match n with
  | O => []
  | S n' => be_bytes n' (x / 256) ++ [x mod 256]
  end.

Definition address_bytes (a : Address) : list N := be_bytes 20 a.
Definition word_bytes (x : U256) : list N := be_bytes 32 x.
Definition string_bytes (s : string) : list N :=
  map N_of_ascii (String.list_ascii_of_string s).

#[global] Arguments be_bytes : simpl never.
#[global] Arguments address_bytes : simpl never.
#[global] Arguments word_bytes : simpl never.
#[global] Arguments string_bytes : simpl never.
#[global] Arguments slice : simpl never.
#[global] Arguments is_precompile : simpl never.

(** ** Concatenation as arithmetic *)

Lemma lor_shift_add hi lo n : lo < 2 ^ n → N.lor (N.shiftl hi n) lo = hi * 2 ^ n + lo.
Proof.
  intros Hlo. rewrite <- N.shiftl_mul_pow2.
  rewrite N.add_nocarry_lxor, N.lxor_lor; [done | |].
  all: apply N.bits_inj; intros k; rewrite N.land_spec, N.bits_0.
  all: destruct (N.lt_ge_cases k n) as [Hk|Hk].
  all: try (by rewrite N.shiftl_spec_low).
  all: rewrite andb_comm; apply andb_false_intro1.
  all: destruct (N.eq_dec lo 0) as [->|Hnz]; [by rewrite N.bits_0|].
  all: apply N.bits_above_log2, N.log2_lt_pow2; [lia|].
  all: eapply N.lt_le_trans; [exact Hlo|]; apply N.pow_le_mono_r; lia.
Qed.

Lemma new_tip20_arith id :
  id < 2 ^ 64 → new_tip20 id = TIP20_TOKEN_PREFIX * 2 ^ 64 + id.
Proof. apply lor_shift_add. Qed.

Lemma new_virtual_arith m u :
  u < 2 ^ 48 →
  new_virtual m u = m * 2 ^ 128 + (VIRTUAL_MAGIC * 2 ^ 48 + u).
Proof.
  intros Hu. unfold new_virtual. rewrite (lor_shift_add VIRTUAL_MAGIC) by done.
  apply lor_shift_add. unfold VIRTUAL_MAGIC. lia.
Qed.

Lemma new_tip20_is_tip20 id : id < 2 ^ 64 → is_tip20_prefix (new_tip20 id) = true.
Proof.
  intros Hid. unfold is_tip20_prefix. rewrite new_tip20_arith by done.
  unfold TIP20_TOKEN_PREFIX. apply N.eqb_eq. lia.
Qed.

(** A valid master is neither a virtual address nor a token address. *)
Lemma is_valid_master_spec a :
  is_valid_master a = true ↔
  a ≠ 0 ∧ is_virtual a = false ∧ is_tip20_prefix a = false.
Proof.
  unfold is_valid_master, is_zero. rewrite !andb_true_iff, !negb_true_iff, N.eqb_neq. tauto.
Qed.

(** ** Properties *)

Lemma decode_new_virtual m u :
  m < 2 ^ 32 → u < 2 ^ 48 → decode_virtual (new_virtual m u) = Some (m, u).
Proof.
  intros Hm Hu. unfold decode_virtual, is_virtual.
  rewrite new_virtual_arith by done. unfold slice, VIRTUAL_MAGIC.
  change (8 * (20 - 14)) with 48. change (8 * (14 - 4)) with 80.
  change (8 * (20 - 4)) with 128. change (8 * (4 - 0)) with 32.
  change (8 * (20 - 20)) with 0. change (8 * (20 - 14)) with 48.
  replace (_ =? _) with true by (symmetry; apply N.eqb_eq; lia).
  simpl negb. cbv iota. do 2 f_equal; lia.
Qed.

Lemma new_decode_virtual a m u :
  a ≤ ADDRESS_MAX → decode_virtual a = Some (m, u) →
  m < 2 ^ 32 ∧ u < 2 ^ 48 ∧ a = new_virtual m u.
Proof.
  unfold decode_virtual, is_virtual, ADDRESS_MAX, slice.
  change (8 * (20 - 14)) with 48. change (8 * (14 - 4)) with 80.
  change (8 * (20 - 4)) with 128. change (8 * (4 - 0)) with 32.
  change (8 * (20 - 20)) with 0. change (8 * (20 - 14)) with 48.
  intros Ha. destruct (N.eqb_spec ((a / 2 ^ 48) mod 2 ^ 80) VIRTUAL_MAGIC) as [Hv|]; [|done].
  intros [= <- <-]. split_and!; [lia..|].
  rewrite new_virtual_arith by lia. unfold VIRTUAL_MAGIC in *. lia.
Qed.

(** [decode_virtual] and [new_virtual] are inverse to each other: the
    addresses that decode to [(m, u)] are exactly the one address built from the
    4-byte master id [m] and the 6-byte tag [u]. *)
Theorem virtual_address_roundtrip a m u :
  a ≤ ADDRESS_MAX ∧ decode_virtual a = Some (m, u) ↔
  m < 2 ^ 32 ∧ u < 2 ^ 48 ∧ a = new_virtual m u.
Proof.
  split; [intros [? ?]; by apply new_decode_virtual|].
  intros (Hm & Hu & ->). split; [|by apply decode_new_virtual].
  rewrite new_virtual_arith by done. unfold ADDRESS_MAX, VIRTUAL_MAGIC. lia.
Qed.
