(* ===== verification/Bytes.v ===== *)
(** * Byte strings

    Byte strings are lists of numbers below 256. [be_bytes] writes a number at a fixed
    width, most significant byte first, and [from_be_slice] reads it back. *)

From S2P Require Import Prelude Hardfork Address.

Abbreviation bytes := (list N).
Definition is_bytes (l : bytes) : Prop := Forall (λ b, b < 256) l.

(** [U256::from_be_slice], also the conversion of [B256::from_slice] and
    [Address::from_slice] to a number. *)
Definition from_be_slice (l : bytes) : N := foldl (λ x b, x * 256 + b) 0 l.

Lemma be_bytes_S n x : be_bytes (S n) x = be_bytes n (x / 256) ++ [x mod 256].
Proof. done. Qed.
Lemma be_bytes_small n x : is_bytes (be_bytes n x).
Proof. revert x. induction n as [|n IH]; intros x; [constructor|]. apply Forall_app. split; [apply IH|]. repeat constructor. lia. Qed.
Lemma be_bytes_length n x : length (be_bytes n x) = n.
Proof. revert x. induction n as [|n IH]; intros x; [done|]. rewrite be_bytes_S, length_app, IH. cbn. lia. Qed.

Lemma from_be_slice_snoc l x : from_be_slice (l ++ [x]) = from_be_slice l * 256 + x.
Proof. unfold from_be_slice. by rewrite foldl_app. Qed.
Lemma from_be_bytes n x : x < 256 ^ N.of_nat n → from_be_slice (be_bytes n x) = x.
Proof.
  revert x. induction n as [|n IH]; intros x Hx; [change (0 = x); cbn in Hx; lia|].
  rewrite Nat2N.inj_succ, N.pow_succ_r' in Hx. rewrite be_bytes_S, from_be_slice_snoc.
  rewrite IH by by apply N.Div0.div_lt_upper_bound. pose proof (N.Div0.div_mod x 256). lia.
Qed.
Lemma from_be_slice_lt l : is_bytes l → from_be_slice l < 256 ^ N.of_nat (length l).
Proof.
  induction l as [|x l IH] using rev_ind; intros Hl; [done|].
  apply Forall_app in Hl as [Hl [Hx _]%Forall_cons]. rewrite from_be_slice_snoc, length_app.
  specialize (IH Hl). cbn [length]. replace (length l + 1)%nat with (S (length l)) by lia.
  rewrite Nat2N.inj_succ, N.pow_succ_r'. lia.
Qed.
Lemma be_from_be_slice l : is_bytes l → be_bytes (length l) (from_be_slice l) = l.
Proof.
  induction l as [|x l IH] using rev_ind; intros Hl; [done|].
  apply Forall_app in Hl as [Hl [Hx _]%Forall_cons]. rewrite from_be_slice_snoc, length_app. cbn [length].
  replace (length l + 1)%nat with (S (length l)) by lia. rewrite be_bytes_S.
  rewrite N.div_add_l, (N.div_small x), N.add_0_r, IH by done.
  by rewrite N.add_comm, N.Div0.mod_add, N.mod_small.
Qed.

Lemma be_bytes_inj n x y :
  x < 256 ^ N.of_nat n → y < 256 ^ N.of_nat n → be_bytes n x = be_bytes n y → x = y.
Proof. intros Hx Hy E. by rewrite <- (from_be_bytes n x), <- (from_be_bytes n y), E. Qed.

(** Reading the first field of a string of fixed-width fields. *)
Lemma take_be_bytes n x l : take n (be_bytes n x ++ l) = be_bytes n x.
Proof. rewrite take_app_le by (rewrite be_bytes_length; lia). by rewrite take_ge by (rewrite be_bytes_length; lia). Qed.
Lemma drop_be_bytes n x l : drop n (be_bytes n x ++ l) = l.
Proof. rewrite drop_app_ge by (rewrite be_bytes_length; lia). by rewrite be_bytes_length, Nat.sub_diag, drop_0. Qed.
Lemma be_bytes_take n l :
  is_bytes l → (n ≤ length l)%nat → be_bytes n (from_be_slice (take n l)) = take n l.
Proof.
  intros Hl Hn. rewrite <- (be_from_be_slice (take n l)) at 2 by by apply Forall_take.
  by rewrite length_take_le.
Qed.
Lemma from_be_take_lt n l : is_bytes l → (n ≤ length l)%nat → from_be_slice (take n l) < 256 ^ N.of_nat n.
Proof.
  intros Hl Hn. pose proof (from_be_slice_lt (take n l) ltac:(by apply Forall_take)) as H.
  by rewrite length_take_le in H.
Qed.
