(* ===== verification/IpAddr.v ===== *)
(** * Network addresses

    The validator configurations check endpoints with [str::parse] and print addresses
    with [Display] of [std::net]. This file models what they use of the standard
    library: the parser of [IpAddr] and [SocketAddr], a recursive descent over bytes
    that restores its position when an alternative fails, and the printer of [IpAddr].
    It shows that printing and parsing an address gives the address back. *)

From S2P Require Import Prelude Hardfork Address Bytes.

Module Net.

(** Octets of a version 4 address, 16-bit segments of a version 6 address. *)
Inductive IpAddr := V4 (octets : list N) | V6 (segments : list N).
Inductive SocketAddr :=
| SocketV4 (ip : list N) (port : N)
| SocketV6 (ip : list N) (port scope_id : N).
#[global] Instance IpAddr_eq_dec : EqDecision IpAddr.
Proof. solve_decision. Defined.
#[global] Instance SocketAddr_eq_dec : EqDecision SocketAddr.
Proof. solve_decision. Defined.

Definition ip (a : SocketAddr) : IpAddr :=
  match a with SocketV4 i _ => V4 i | SocketV6 i _ _ => V6 i end.

Definition U16_MAX : N := 2 ^ 16 - 1.

(** ** The parser *)

(** A failing parser leaves its input to the next alternative. *)
Definition Parser (A : Type) := bytes → option (A * bytes).
#[global] Instance Parser_ret : MRet Parser := λ A x l, Some (x, l).
#[global] Instance Parser_bind : MBind Parser := λ A B f p l,
  match p l with Some (x, l') => f x l' | None => None end.

Definition char (c : string) : N := nth 0 (string_bytes c) 0.
Definition read_given_char (target : N) : Parser () := λ l,
  match l with c :: l' => if c =? target then Some ((), l') else None | [] => None end.
Definition read_separator {A} (sep : N) (index : nat) (inner : Parser A) : Parser A :=
  (if (0 <? index)%nat then read_given_char sep else mret ()) ;; inner.

(** [char::to_digit]. *)
Definition to_digit (radix c : N) : option N :=
  let d := if (48 <=? c) && (c <=? 57) then c - 48
           else if (97 <=? c) && (c <=? 122) then c - 97 + 10
           else if (65 <=? c) && (c <=? 90) then c - 65 + 10
           else radix in
  if d <? radix then Some d else None.

(** The digits of a number: with at most [limit] of them, or with arithmetic checked
    against [max]. Returns the value, the number of digits and the rest. *)
Fixpoint digits (radix : N) (limit : option nat) (max acc : N) (count : nat) (l : bytes) : option (N * nat * bytes) :=
  match l with
  | [] => Some (acc, count, [])
  | c :: l' =>
      match to_digit radix c with
      | None => Some (acc, count, l)
      | Some d =>
          let acc' := acc * radix + d in
          match limit with
          | Some n => if (n <? S count)%nat then None else digits radix limit max acc' (S count) l'
          | None => if max <? acc' then None else digits radix limit max acc' (S count) l'
          end
      end
  end.
Definition read_number (radix : N) (limit : option nat) (allow_zero_prefix : bool) (max : N) : Parser N := λ l,
  let has_leading_zero := match l with c :: _ => c =? char "0" | [] => false end in
  match digits radix limit max 0 0 l with
  | None => None
  | Some (result, count, l') =>
      if (count =? 0)%nat then None
      else if negb allow_zero_prefix && has_leading_zero && (1 <? count)%nat then None
      else if max <? result then None
      else Some (result, l')
  end.

Fixpoint read_octets (index n : nat) : Parser (list N) :=
  match n with
  | O => mret []
  | S n' =>
      o ← read_separator (char ".") index (read_number 10 (Some 3%nat) false 255);
      os ← read_octets (S index) n';
      mret (o :: os)
  end.
Definition read_ipv4_addr : Parser (list N) := read_octets 0 4.

(** The groups read, whether they end in an embedded version 4 address, and the rest. *)
Fixpoint read_groups (index left : nat) (l : bytes) : list N * bool * bytes :=
  match left with
  | O => ([], false, l)
  | S left' =>
      match (if (0 <? left')%nat then read_separator (char ":") index read_ipv4_addr l else None) with
      | Some ([one; two; three; four], l') => ([one * 256 + two; three * 256 + four], true, l')
      | _ =>
          match read_separator (char ":") index (read_number 16 (Some 4%nat) true U16_MAX) l with
          | Some (g, l') => let '(gs, v4, l'') := read_groups (S index) left' l' in (g :: gs, v4, l'')
          | None => ([], false, l)
          end
      end
  end.
Definition read_ipv6_addr : Parser (list N) := λ l,
  let '(head, head_ipv4, l1) := read_groups 0 8 l in
  if (length head =? 8)%nat then Some (head, l1)
  else if (head_ipv4 : bool) then None
  else
    '(_, l2) ← read_given_char (char ":") l1;
    '(_, l3) ← read_given_char (char ":") l2;
    let '(tail, _, l4) := read_groups 0 (8 - (length head + 1)) l3 in
    Some (head ++ replicate (8 - length head - length tail) 0 ++ tail, l4).

Definition read_ip_addr : Parser IpAddr := λ l,
  match read_ipv4_addr l with
  | Some (o, l') => Some (V4 o, l')
  | None => '(s, l') ← read_ipv6_addr l; Some (V6 s, l')
  end.
Definition read_port : Parser N := read_given_char (char ":") ;; read_number 10 None true U16_MAX.
Definition read_scope_id : Parser N := read_given_char (char "%") ;; read_number 10 None true U32_MAX.
Definition read_socket_addr_v4 : Parser SocketAddr :=
  i ← read_ipv4_addr; port ← read_port; mret (SocketV4 i port).
Definition read_socket_addr_v6 : Parser SocketAddr :=
  read_given_char (char "[") ;;
  i ← read_ipv6_addr;
  scope_id ← (λ l, match read_scope_id l with Some r => Some r | None => Some (0, l) end);
  read_given_char (char "]") ;;
  port ← read_port;
  mret (SocketV6 i port scope_id).
Definition read_socket_addr : Parser SocketAddr := λ l,
  match read_socket_addr_v4 l with Some r => Some r | None => read_socket_addr_v6 l end.

(** [parse_with]: all of the input must be read. *)
Definition parse_with {A} (p : Parser A) (s : string) : option A :=
  match p (string_bytes s) with Some (a, []) => Some a | _ => None end.
Definition parse_ip : string → option IpAddr := parse_with read_ip_addr.
Definition parse_socket : string → option SocketAddr := parse_with read_socket_addr.

(** ** The printer *)

Definition digit_char (d : N) : N := if d <? 10 then 48 + d else 87 + d.
(** The digits of a number below [radix ^ fuel]; four digits are enough for an octet in
    decimal and for a segment in hexadecimal. *)
Fixpoint base (radix : N) (fuel : nat) (n : N) : list N :=
  match fuel with
  | O => []
  | S fuel' => if n <? radix then [n] else base radix fuel' (n / radix) ++ [n mod radix]
  end.
Definition show (radix n : N) : bytes := map digit_char (base radix 4 n).
Fixpoint join (sep : N) (l : list bytes) : bytes :=
  match l with
  | [] => []
  | [x] => x
  | x :: l' => x ++ [sep] ++ join sep l'
  end.

Definition fmt_ipv4 (octets : list N) : bytes := join (char ".") (map (show 10) octets).
Definition fmt_subslice (chunk : list N) : bytes := join (char ":") (map (show 16) chunk).

(** The first of the longest runs of zeros, as its start and its length. *)
Fixpoint zero_span (i : nat) (segments : list N) (longest current : nat * nat) : nat * nat :=
  match segments with
  | [] => longest
  | s :: segments' =>
      if s =? 0 then
        let current := (if (current.2 =? 0)%nat then i else current.1, S current.2) in
        zero_span (S i) segments' (if (longest.2 <? current.2)%nat then current else longest) current
      else zero_span (S i) segments' longest (0%nat, 0%nat)
  end.
Definition to_ipv4_mapped (segments : list N) : option (list N) :=
  if bool_decide (take 6 segments = [0; 0; 0; 0; 0; 0xffff]) then
    match drop 6 segments with
    | [x; y] => Some [x / 256; x mod 256; y / 256; y mod 256]
    | _ => None
    end
  else None.
Definition fmt_ipv6 (segments : list N) : bytes :=
  match to_ipv4_mapped segments with
  | Some octets => string_bytes "::ffff:" ++ fmt_ipv4 octets
  | None =>
      let '(start, len) := zero_span 0 segments (0%nat, 0%nat) (0%nat, 0%nat) in
      if (1 <? len)%nat
      then fmt_subslice (take start segments) ++ string_bytes "::" ++ fmt_subslice (drop (start + len) segments)
      else fmt_subslice segments
  end.
Definition fmt_ip (a : IpAddr) : bytes :=
  match a with V4 octets => fmt_ipv4 octets | V6 segments => fmt_ipv6 segments end.
Definition to_string (a : IpAddr) : string :=
  String.string_of_list_ascii (map ascii_of_N (fmt_ip a)).

(** Addresses that exist. *)
Definition ip_ok (a : IpAddr) : Prop :=
  match a with
  | V4 octets => length octets = 4%nat ∧ Forall (λ o, o < 256) octets
  | V6 segments => length segments = 8%nat ∧ Forall (λ s, s < 65536) segments
  end.

(** ** Numbers *)

Lemma base_S radix f n :
  base radix (S f) n = if n <? radix then [n] else base radix f (n / radix) ++ [n mod radix].
Proof. done. Qed.
Lemma base_small radix f n : 2 ≤ radix → Forall (λ d, d < radix) (base radix f n).
Proof.
  intros Hr. revert n. induction f as [|f IH]; intros n; [constructor|]. rewrite base_S.
  destruct (N.ltb_spec n radix); [by repeat constructor|]. apply Forall_app. split; [apply IH|].
  repeat constructor. apply N.mod_lt. lia.
Qed.
Section base.
Context (radix : N) (Hr : 2 ≤ radix).
Lemma div_room f n : n < radix ^ N.of_nat (S f) → n / radix < radix ^ N.of_nat f.
Proof. rewrite Nat2N.inj_succ, N.pow_succ_r'. intros Hn. by apply N.Div0.div_lt_upper_bound. Qed.
Lemma base_value f n : n < radix ^ N.of_nat (S f) → foldl (λ a d, a * radix + d) 0 (base radix (S f) n) = n.
Proof.
  revert n. induction f as [|f IH]; intros n Hn; rewrite base_S; destruct (N.ltb_spec n radix); try done.
  - apply div_room in Hn. change (radix ^ N.of_nat 0) with 1 in Hn. assert (n / radix = 0) as ?%N.div_small_iff by lia; lia.
  - rewrite foldl_app, IH by by apply div_room. cbn [foldl]. pose proof (N.Div0.div_mod n radix). lia.
Qed.
Lemma base_length f n : (1 ≤ length (base radix (S f) n) ≤ S f)%nat.
Proof.
  revert n. induction f as [|f IH]; intros n; rewrite base_S; (destruct (n <? radix); [cbn; lia|]).
  - cbn. lia.
  - rewrite length_app. cbn [length]. specialize (IH (n / radix)). lia.
Qed.
Lemma base_length_le f k n : n < radix ^ N.of_nat k → (1 ≤ k)%nat → (length (base radix (S f) n) ≤ k)%nat.
Proof.
  revert k n. induction f as [|f IH]; intros k n Hn Hk; rewrite base_S; (destruct (N.ltb_spec n radix); [cbn; lia|]).
  - cbn. lia.
  - destruct k as [|[|k]]; [lia| |].
    { change (N.of_nat 1) with 1 in Hn. rewrite N.pow_1_r in Hn. lia. }
    rewrite length_app. cbn [length]. specialize (IH (S k) (n / radix) (div_room _ _ Hn) ltac:(lia)). lia.
Qed.
(** Only zero starts with a zero. *)
Lemma base_head f n : n < radix ^ N.of_nat (S f) → n ≠ 0 → hd 0 (base radix (S f) n) ≠ 0.
Proof.
  revert n. induction f as [|f IH]; intros n Hn Hnz; rewrite base_S; destruct (N.ltb_spec n radix) as [|Hge]; try done.
  - apply div_room in Hn. change (radix ^ N.of_nat 0) with 1 in Hn. assert (n / radix = 0) as ?%N.div_small_iff by lia; lia.
  - assert (1 ≤ n / radix) by (apply N.div_le_lower_bound; lia).
    specialize (IH (n / radix) (div_room _ _ Hn) ltac:(lia)). pose proof (base_length f (n / radix)) as Hl.
    destruct (base radix (S f) (n / radix)); [cbn in Hl; lia|done].
Qed.
End base.

Lemma to_digit_char radix d : radix ≤ 16 → d < radix → to_digit radix (digit_char d) = Some d.
Proof.
  intros Hr Hd. unfold to_digit, digit_char. destruct (N.ltb_spec d 10).
  - replace (48 <=? 48 + d) with true by (symmetry; apply N.leb_le; lia).
    replace (48 + d <=? 57) with true by (symmetry; apply N.leb_le; lia). cbn [andb].
    replace (48 + d - 48) with d by lia. by rewrite (proj2 (N.ltb_lt _ _) Hd).
  - replace (87 + d <=? 57) with false by (symmetry; apply N.leb_gt; lia). rewrite andb_false_r.
    replace (97 <=? 87 + d) with true by (symmetry; apply N.leb_le; lia).
    replace (87 + d <=? 122) with true by (symmetry; apply N.leb_le; lia). cbn [andb].
    replace (87 + d - 97 + 10) with d by lia. by rewrite (proj2 (N.ltb_lt _ _) Hd).
Qed.

(** The rest after a number does not continue it. *)
Definition ends (radix : N) (l : bytes) : Prop :=
  match l with [] => True | c :: _ => to_digit radix c = None end.
Lemma digits_read radix n max ds rest acc count :
  radix ≤ 16 → Forall (λ d, d < radix) ds → ends radix rest → (count + length ds ≤ n)%nat →
  digits radix (Some n) max acc count (map digit_char ds ++ rest) =
  Some (foldl (λ a d, a * radix + d) acc ds, (count + length ds)%nat, rest).
Proof.
  intros Hr Hds He. revert acc count. induction Hds as [|d ds Hd Hds IH]; intros acc count Hn; cbn [map app digits foldl length] in *.
  - rewrite Nat.add_0_r. destruct rest as [|c rest]; [done|]. cbn in *. by rewrite He.
  - rewrite to_digit_char by done. destruct (Nat.ltb_spec n (S count)); [lia|].
    rewrite IH by lia. do 2 f_equal. f_equal. lia.
Qed.
Lemma digit_char_zero d : d < 16 → digit_char d = char "0" → d = 0.
Proof. unfold digit_char. change (char "0") with 48. destruct (N.ltb_spec d 10); lia. Qed.
Lemma show_read radix n prefix max x rest :
  2 ≤ radix ≤ 16 → x < radix ^ N.of_nat n → (1 ≤ n ≤ 4)%nat → x ≤ max → ends radix rest →
  read_number radix (Some n) prefix max (show radix x ++ rest) = Some (x, rest).
Proof.
  intros Hr Hx Hn Hmax He. unfold read_number, show.
  pose proof (base_length radix ltac:(lia) 3 x) as Hl. pose proof (base_length_le radix ltac:(lia) 3 n x Hx ltac:(lia)) as Hl'.
  pose proof (base_small radix 4 x ltac:(lia)) as Hs.
  assert (x < radix ^ N.of_nat 4) as Hx4.
  { eapply N.lt_le_trans; [exact Hx|]. apply N.pow_le_mono_r; lia. }
  rewrite digits_read by (try done; lia). rewrite base_value by (try done; lia). rewrite Nat.add_0_l.
  replace (max <? x) with false by (symmetry; apply N.ltb_ge; lia).
  destruct (Nat.eqb_spec (length (base radix 4 x)) 0); [lia|].
  replace (negb prefix && _ && _) with false; [done|symmetry].
  destruct (Nat.ltb_spec 1 (length (base radix 4 x))) as [Hlong|]; [|by rewrite andb_false_r].
  assert (x ≠ 0) as Hnz. { intros ->. rewrite base_S in Hlong. destruct (N.ltb_spec 0 radix); cbn in Hlong; lia. }
  pose proof (base_head radix ltac:(lia) 3 x Hx4 Hnz) as Hhd. destruct (base radix 4 x) as [|d ds]; [done|].
  cbn [map app hd] in *. apply Forall_cons in Hs as [Hd _].
  destruct (N.eqb_spec (digit_char d) (char "0")) as [E%digit_char_zero|]; [done|lia|by rewrite andb_false_r].
Qed.

(** ** Version 4 *)

Lemma ends_sep radix c l : to_digit radix c = None → ends radix (c :: l).
Proof. done. Qed.
Lemma octet_read o rest : o < 256 → ends 10 rest → read_number 10 (Some 3%nat) false 255 (show 10 o ++ rest) = Some (o, rest).
Proof. intros Ho He. apply show_read; try done; lia. Qed.
Lemma ipv4_read octets rest :
  length octets = 4%nat → Forall (λ o, o < 256) octets → ends 10 rest →
  read_ipv4_addr (fmt_ipv4 octets ++ rest) = Some (octets, rest).
Proof.
  destruct octets as [|a [|b [|c [|d [|]]]]]; try done. intros _ Hall He. rewrite !Forall_cons in Hall.
  destruct Hall as (Ha & Hb & Hc & Hd & _). unfold fmt_ipv4, read_ipv4_addr. cbn [map join app read_octets].
  unfold read_separator, mbind, Parser_bind, mret, Parser_ret. cbn [Nat.ltb Nat.leb].
  do 3 (rewrite <- app_assoc, octet_read by done; cbn [app read_given_char]; rewrite N.eqb_refl).
  by rewrite octet_read.
Qed.

(** An address in this form has dots. *)
Lemma digits_suffix radix n max l : ∀ acc count x k r, digits radix n max acc count l = Some (x, k, r) → ∃ l0, l = l0 ++ r.
Proof.
  induction l as [|c l IH]; intros acc count x k r H; cbn [digits] in H; [injection H as <- <- <-; by exists []|].
  destruct (to_digit radix c); [|injection H as <- <- <-; by exists []].
  destruct n; [destruct (_ <? _)%nat; [done|]|destruct (_ <? _); [done|]];
    apply IH in H as [l0 ->]; by exists (c :: l0).
Qed.
Lemma number_suffix radix n prefix max l x r : read_number radix n prefix max l = Some (x, r) → ∃ l0, l = l0 ++ r.
Proof.
  unfold read_number. destruct (digits _ _ _ _ _ _) as [[[y k] r']|] eqn:E; [|done]. apply digits_suffix in E as [l0 ->].
  intros H. destruct (_ =? _)%nat; [done|]. destruct (_ && _); [done|]. destruct (_ <? _); [done|]. injection H as _ <-. eauto.
Qed.
Lemma ipv4_dots l : char "." ∉ l → read_ipv4_addr l = None.
Proof.
  intros Hdot. unfold read_ipv4_addr. cbn [read_octets]. unfold read_separator, mbind, Parser_bind, mret, Parser_ret. cbn [Nat.ltb Nat.leb].
  destruct (read_number _ _ _ _ l) as [[o r]|] eqn:E; [|done]. apply number_suffix in E as [l0 ->].
  destruct r as [|c r]; [done|]. cbn [read_given_char]. destruct (N.eqb_spec c (char ".")) as [->|]; [|done].
  exfalso. apply Hdot, elem_of_app. right. by left.
Qed.

(** ** Version 6 *)

Lemma segment_read s rest : s < 65536 → ends 16 rest → read_number 16 (Some 4%nat) true U16_MAX (show 16 s ++ rest) = Some (s, rest).
Proof. intros Hs He. apply show_read; try done; try lia. unfold U16_MAX. lia. Qed.
Lemma show_plain s : (char "." ∉ show 16 s) ∧ (char ":" ∉ show 16 s).
Proof.
  unfold show. pose proof (base_small 16 4 s ltac:(lia)) as H.
  split; intros (d & E & Hd)%list_elem_of_fmap; eapply Forall_forall in H; [|exact Hd| |exact Hd].
  all: unfold digit_char in E; change (char ".") with 46 in E; change (char ":") with 58 in E; destruct (N.ltb_spec d 10); lia.
Qed.
Lemma show_cons s : ∃ c l, show 16 s = c :: l.
Proof.
  unfold show. pose proof (base_length 16 ltac:(lia) 3 s) as H. destruct (base 16 4 s) as [|d ds]; [cbn in H; lia|]. by eexists _, _.
Qed.
Lemma subslice_dots gs : char "." ∉ fmt_subslice gs.
Proof.
  unfold fmt_subslice. induction gs as [|g gs IH]; cbn [map join]; [by intros ?%elem_of_nil|].
  destruct (map (show 16) gs) as [|x l]; [apply show_plain|]. intros [H|[H|H]%elem_of_app]%elem_of_app.
  - by apply (proj1 (show_plain g)).
  - apply list_elem_of_singleton in H. by vm_compute in H.
  - done.
Qed.

(** The groups of a part of an address, up to its end or a double colon. *)
Definition part_end (l : bytes) : Prop := l = [] ∨ ∃ l', l = char ":" :: char ":" :: l'.
Lemma number_colon radix n prefix max l : radix ≤ 16 → read_number radix n prefix max (char ":" :: l) = None.
Proof.
  intros Hr. unfold read_number. cbn [digits]. replace (to_digit radix (char ":")) with (@None N); [done|].
  change (char ":") with 58. unfold to_digit. cbn [N.leb andb]. cbn. by rewrite N.ltb_irrefl.
Qed.
Lemma part_end_stops index n l :
  part_end l → read_separator (char ":") index (read_number 16 n true U16_MAX) l = None.
Proof.
  unfold read_separator, mbind, Parser_bind, mret, Parser_ret. intros [->|[l' ->]]; by destruct (0 <? index)%nat.
Qed.

(** No version 4 address starts where there is no dot. *)
Lemma separator_dots index l : char "." ∉ l → read_separator (char ":") index read_ipv4_addr l = None.
Proof.
  intros Hdot. unfold read_separator, mbind, Parser_bind, mret, Parser_ret. destruct (0 <? index)%nat; [|by apply ipv4_dots].
  destruct l as [|c l]; [done|]. cbn [read_given_char]. destruct (_ =? _); [|done]. apply ipv4_dots.
  intros H. apply Hdot. by right.
Qed.
(** One group, and the next ones after a colon. *)
Definition after (index : nat) (l : bytes) : bytes := if (0 <? index)%nat then char ":" :: l else l.
Lemma group_read index left g l :
  g < 65536 → ends 16 l → char "." ∉ after index (show 16 g ++ l) →
  read_groups index (S left) (after index (show 16 g ++ l)) =
  let '(gs, v4, l') := read_groups (S index) left l in (g :: gs, v4, l').
Proof.
  intros Hg He Hdot. cbn [read_groups]. rewrite separator_dots by done.
  replace (if (0 <? left)%nat then None else None) with (@None (list N * bytes)) by by destruct (0 <? left)%nat.
  unfold read_separator, mbind, Parser_bind, mret, Parser_ret, after. destruct (0 <? index)%nat.
  - cbn [read_given_char]. by rewrite N.eqb_refl, segment_read.
  - by rewrite segment_read.
Qed.
Lemma part_end_read index left l : part_end l → char "." ∉ l → read_groups index left l = ([], false, l).
Proof.
  intros He Hdot. destruct left as [|left]; [done|]. cbn [read_groups]. rewrite separator_dots, part_end_stops by done.
  by destruct (0 <? left)%nat.
Qed.
Lemma groups_read gs g rest : ∀ index left,
  Forall (λ s, s < 65536) (g :: gs) → part_end rest → char "." ∉ rest → (length (g :: gs) ≤ left)%nat →
  read_groups index left (after index (fmt_subslice (g :: gs) ++ rest)) = (g :: gs, false, rest).
Proof.
  revert g. induction gs as [|g' gs IH]; intros g index left Hgs Hend Hdot Hlen.
  - destruct left as [|left]; [cbn in Hlen; lia|]. unfold fmt_subslice. cbn [map join].
    apply Forall_cons in Hgs as [Hg _]. rewrite group_read; [|done|..].
    + by rewrite part_end_read.
    + destruct Hend as [->|[l' ->]]; done.
    + unfold after. destruct (0 <? index)%nat; rewrite ?not_elem_of_cons, not_elem_of_app; split_and?; try done; apply show_plain.
  - destruct left as [|left]; [cbn in Hlen; lia|]. apply Forall_cons in Hgs as [Hg Hgs].
    change (fmt_subslice (g :: g' :: gs)) with (show 16 g ++ char ":" :: fmt_subslice (g' :: gs)).
    rewrite <- app_assoc. cbn [app]. rewrite group_read; [|done|done|].
    + change (char ":" :: fmt_subslice (g' :: gs) ++ rest) with (after (S index) (fmt_subslice (g' :: gs) ++ rest)).
      rewrite IH; [done|done|done|done|cbn in *; lia].
    + pose proof (subslice_dots (g' :: gs)). unfold after.
      destruct (0 <? index)%nat; rewrite ?not_elem_of_cons, not_elem_of_app, not_elem_of_cons, not_elem_of_app; split_and?; try done; apply show_plain.
Qed.
Lemma part_read left gs rest :
  Forall (λ s, s < 65536) gs → part_end rest → char "." ∉ rest → (length gs ≤ left)%nat →
  read_groups 0 left (fmt_subslice gs ++ rest) = (gs, false, rest).
Proof. intros. destruct gs as [|g gs]; [by apply part_end_read|by apply (groups_read gs g rest 0 left)]. Qed.

(** ** Runs of zeros *)

Definition spans (l : list N) (s : nat * nat) : Prop := ∃ x y, l = x ++ replicate s.2 0 ++ y ∧ length x = s.1.
Lemma zero_span_spec l : ∀ pre longest current,
  spans pre longest → (current.2 = 0%nat ∨ ∃ x, pre = x ++ replicate current.2 0 ∧ length x = current.1) →
  spans (pre ++ l) (zero_span (length pre) l longest current).
Proof.
  induction l as [|s l IH]; intros pre longest current Hl Hc; cbn [zero_span]; [by rewrite app_nil_r|].
  replace (pre ++ s :: l) with ((pre ++ [s]) ++ l) by by rewrite <- app_assoc.
  replace (S (length pre)) with (length (pre ++ [s])) by (rewrite length_app; cbn; lia).
  assert (∀ sp, spans pre sp → spans (pre ++ [s]) sp) as Hmore.
  { intros sp (x & y & -> & Hx). exists x, (y ++ [s]). by rewrite <- !app_assoc. }
  destruct (N.eqb_spec s 0) as [->|_]; [|apply IH; [by apply Hmore|by left]].
  set (c := (_, _)). assert (∃ x, pre ++ [0] = x ++ replicate c.2 0 ∧ length x = c.1) as Hc'.
  { subst c. cbn [fst snd]. destruct (Nat.eqb_spec current.2 0) as [E|E].
    - rewrite E. by exists pre.
    - destruct Hc as [?|(x & -> & Hx)]; [done|]. exists x. split; [|done]. by rewrite <- app_assoc, <- replicate_cons_app. }
  apply IH; [|by right]. destruct (_ <? _)%nat; [|by apply Hmore].
  destruct Hc' as (x & E & Hx). exists x, []. by rewrite app_nil_r.
Qed.
Lemma zero_span_cut l s n :
  zero_span 0 l (0%nat, 0%nat) (0%nat, 0%nat) = (s, n) →
  l = take s l ++ replicate n 0 ++ drop (s + n) l ∧ length (take s l) = s ∧ (s + n ≤ length l)%nat.
Proof.
  intros E. assert (spans [] (0%nat, 0%nat)) as H0 by by exists [], [].
  pose proof (zero_span_spec l [] _ (0%nat, 0%nat) H0 ltac:(by left)) as H. cbn [length app] in H. rewrite E in H.
  destruct H as (x & y & Hl & Hx). cbn [fst snd] in *. subst s. rewrite Hl. rewrite take_app_length.
  rewrite app_assoc, drop_app_length' by by rewrite length_app, length_replicate.
  rewrite !length_app, length_replicate. split_and!; [by rewrite <- app_assoc|done|lia].
Qed.

(** ** Round trip *)

Lemma read_groups_v4 index left l a b c d r :
  (0 < left)%nat → read_separator (char ":") index read_ipv4_addr l = Some ([a; b; c; d], r) →
  read_groups index (S left) l = ([a * 256 + b; c * 256 + d], true, r).
Proof. intros Hl H. cbn [read_groups]. by rewrite (proj2 (Nat.ltb_lt 0 left) Hl), H. Qed.
Lemma read_groups_hex index left l g r :
  read_separator (char ":") index read_ipv4_addr l = None →
  read_separator (char ":") index (read_number 16 (Some 4%nat) true U16_MAX) l = Some (g, r) →
  read_groups index (S left) l = let '(gs, v4, l') := read_groups (S index) left r in (g :: gs, v4, l').
Proof. intros H4 H. cbn [read_groups]. rewrite H4, H. by destruct (0 <? left)%nat. Qed.
Lemma read_groups_none index left l :
  read_separator (char ":") index read_ipv4_addr l = None →
  read_separator (char ":") index (read_number 16 (Some 4%nat) true U16_MAX) l = None →
  read_groups index left l = ([], false, l).
Proof. intros H4 H. destruct left; [done|]. cbn [read_groups]. rewrite H4, H. by destruct (0 <? left)%nat. Qed.
Lemma mapped_read a b c d F :
  read_ipv4_addr F = Some ([a; b; c; d], []) →
  read_ipv6_addr (string_bytes "::ffff:" ++ F) = Some ([0; 0; 0; 0; 0; 0xffff; a * 256 + b; c * 256 + d], []) ∧
  read_ipv4_addr (string_bytes "::ffff:" ++ F) = None.
Proof.
  intros HF. split; [|done].
  change (string_bytes "::ffff:" ++ F) with (char ":" :: char ":" :: show 16 0xffff ++ char ":" :: F).
  assert (read_groups 1 6 (char ":" :: F) = ([a * 256 + b; c * 256 + d], true, [])) as H1.
  { apply read_groups_v4; [lia|]. unfold read_separator, mbind, Parser_bind. cbn [Nat.ltb Nat.leb read_given_char].
    by rewrite N.eqb_refl, HF. }
  assert (read_groups 0 7 (show 16 0xffff ++ char ":" :: F) = ([0xffff; a * 256 + b; c * 256 + d], true, [])) as H0.
  { rewrite (read_groups_hex _ _ _ 0xffff (char ":" :: F)) by done. by rewrite H1. }
  unfold read_ipv6_addr. rewrite read_groups_none by done.
  cbn [length Nat.eqb Nat.add Nat.sub read_given_char mbind option_bind]. rewrite N.eqb_refl. cbn [mbind option_bind read_given_char].
  rewrite N.eqb_refl. cbn [mbind option_bind]. by rewrite H0.
Qed.
Lemma compressed_read x y n :
  Forall (λ s, s < 65536) x → Forall (λ s, s < 65536) y → (1 < n)%nat → (length x + n + length y = 8)%nat →
  read_ipv6_addr (fmt_subslice x ++ string_bytes "::" ++ fmt_subslice y) = Some (x ++ replicate n 0 ++ y, []).
Proof.
  intros Hx Hy Hn Hlen. unfold read_ipv6_addr.
  rewrite part_read; [|done|by right; eexists| |lia].
  2: { change (string_bytes "::") with [char ":"; char ":"]. rewrite not_elem_of_app, !not_elem_of_cons.
       split_and!; [done|done|apply not_elem_of_nil|apply subslice_dots]. }
  destruct (Nat.eqb_spec (length x) 8); [lia|]. change (string_bytes "::" ++ fmt_subslice y) with (char ":" :: char ":" :: fmt_subslice y).
  cbn [read_given_char]. rewrite N.eqb_refl. cbn [mbind option_bind read_given_char]. rewrite N.eqb_refl. cbn [mbind option_bind].
  rewrite <- (app_nil_r (fmt_subslice y)). rewrite part_read; [|done|by left|apply not_elem_of_nil|lia].
  by replace (8 - length x - length y)%nat with n by lia.
Qed.

Lemma ipv6_read segments :
  length segments = 8%nat → Forall (λ s, s < 65536) segments →
  read_ipv6_addr (fmt_ipv6 segments) = Some (segments, []) ∧ read_ipv4_addr (fmt_ipv6 segments) = None.
Proof.
  intros Hlen Hs. unfold fmt_ipv6. destruct (to_ipv4_mapped segments) as [octets|] eqn:Hm.
  - unfold to_ipv4_mapped in Hm. case_bool_decide as E; [|done].
    destruct (drop 6 segments) as [|x [|y [|]]] eqn:Ed; try done. injection Hm as <-.
    assert (segments = [0; 0; 0; 0; 0; 0xffff; x; y]) as -> by (rewrite <- (take_drop 6 segments), E, Ed; done).
    rewrite !Forall_cons in Hs. destruct Hs as (_ & _ & _ & _ & _ & _ & Hx & Hy & _).
    assert (x / 256 * 256 + x mod 256 = x) as Ex by (pose proof (N.Div0.div_mod x 256); lia).
    assert (y / 256 * 256 + y mod 256 = y) as Ey by (pose proof (N.Div0.div_mod y 256); lia).
    assert (read_ipv4_addr (fmt_ipv4 [x / 256; x mod 256; y / 256; y mod 256]) = Some ([x / 256; x mod 256; y / 256; y mod 256], [])) as HF.
    { rewrite <- (app_nil_r (fmt_ipv4 _)). apply ipv4_read; [done| |done].
      repeat constructor; try (apply N.mod_lt; lia); apply N.Div0.div_lt_upper_bound; lia. }
    pose proof (mapped_read _ _ _ _ _ HF) as H. by rewrite Ex, Ey in H.
  - destruct (zero_span 0 segments _ _) as [s n] eqn:Ez. apply zero_span_cut in Ez as (E & Hts & Hle).
    destruct (Nat.ltb_spec 1 n) as [Hn|_].
    + split; [|apply ipv4_dots; change (string_bytes "::") with [char ":"; char ":"]].
      * rewrite E at 3. apply compressed_read; [by apply Forall_take|by apply Forall_drop|done|].
        rewrite Hts, length_drop. lia.
      * rewrite !not_elem_of_app, !not_elem_of_cons. split_and!; [apply subslice_dots|done|done|apply not_elem_of_nil|apply subslice_dots].
    + split; [|apply ipv4_dots, subslice_dots]. unfold read_ipv6_addr. rewrite <- (app_nil_r (fmt_subslice _)).
      rewrite part_read; [|done|by left|apply not_elem_of_nil|lia]. by rewrite Hlen.
Qed.

Lemma string_bytes_of l :
  is_bytes l → string_bytes (String.string_of_list_ascii (map ascii_of_N l)) = l.
Proof.
  unfold string_bytes. rewrite String.list_ascii_of_string_of_list_ascii. intros H. rewrite List.map_map.
  induction H as [|x l Hx Hl IH]; [done|]. cbn. by rewrite IH, N_ascii_embedding.
Qed.
Lemma show_bytes radix n : 2 ≤ radix ≤ 16 → is_bytes (show radix n).
Proof.
  intros Hr. unfold show, is_bytes. pose proof (base_small radix 4 n ltac:(lia)) as H. apply Forall_map.
  eapply Forall_impl; [exact H|]. intros d Hd. cbn beta in *. unfold digit_char. destruct (N.ltb_spec d 10); lia.
Qed.
Lemma join_bytes radix sep l : 2 ≤ radix ≤ 16 → sep < 256 → is_bytes (join sep (map (show radix) l)).
Proof.
  intros Hr Hsep. induction l as [|x l IH]; cbn [map join]; [constructor|].
  destruct (map (show radix) l); [by apply show_bytes|]. apply Forall_app. split; [by apply show_bytes|].
  by apply Forall_app; split; [constructor|].
Qed.
Lemma fmt_bytes a : is_bytes (fmt_ip a).
Proof.
  assert (∀ s, s = "::" ∨ s = "::ffff:" → is_bytes (string_bytes s)) as Hs.
  { intros s [-> | ->]; by apply (bool_decide_unpack _). }
  destruct a as [octets|segments]; cbn [fmt_ip]; [by apply join_bytes|]. unfold fmt_ipv6, fmt_subslice, fmt_ipv4.
  destruct (to_ipv4_mapped _); [apply Forall_app; split; [by apply Hs; right|by apply join_bytes]|].
  destruct (zero_span _ _ _ _) as [s n]. destruct (1 <? n)%nat; [|by apply join_bytes].
  apply Forall_app; split; [by apply join_bytes|]. apply Forall_app. split; [by apply Hs; left|by apply join_bytes].
Qed.

(** ** What the parser accepts *)

Lemma number_bound radix n prefix max l x r : read_number radix n prefix max l = Some (x, r) → x ≤ max.
Proof.
  unfold read_number. destruct (digits _ _ _ _ _ _) as [[[y k] r']|]; [|done]. destruct (_ =? _)%nat; [done|].
  destruct (_ && _); [done|]. destruct (N.ltb_spec max y); [done|]. by intros [= <- _].
Qed.
Lemma digits_consumed radix n max l : ∀ acc count x k r,
  digits radix (Some n) max acc count l = Some (x, k, r) → (count ≤ n)%nat → (length l + count ≤ length r + n)%nat.
Proof.
  induction l as [|c l IH]; intros acc count x k r H Hc; cbn [digits] in H; [injection H as <- <- <-; cbn; lia|].
  destruct (to_digit radix c); [|injection H as <- <- <-; lia]. destruct (Nat.ltb_spec n (S count)); [done|].
  apply IH in H; [|lia]. cbn. lia.
Qed.
Lemma number_consumed radix n prefix max l x r :
  read_number radix (Some n) prefix max l = Some (x, r) → (length l ≤ length r + n)%nat.
Proof.
  unfold read_number. destruct (digits _ _ _ _ _ _) as [[[y k] r']|] eqn:E; [|done]. apply digits_consumed in E; [|lia].
  intros H. destruct (_ =? _)%nat; [done|]. destruct (_ && _); [done|]. destruct (_ <? _); [done|]. injection H as _ <-. lia.
Qed.
Lemma separator_inv {A} sep index (p : Parser A) l x r :
  read_separator sep index p l = Some (x, r) → ∃ l', p l' = Some (x, r) ∧ (length l' ≤ length l ≤ S (length l'))%nat.
Proof.
  unfold read_separator, mbind, Parser_bind, mret, Parser_ret. destruct (0 <? index)%nat; [|intros H; exists l; split; [done|lia]].
  destruct l as [|c l]; [done|]. cbn [read_given_char]. destruct (c =? sep); [|done]. intros H. exists l. split; [done|cbn; lia].
Qed.
Lemma octets_inv n : ∀ index l os r,
  read_octets index n l = Some (os, r) →
  length os = n ∧ Forall (λ o, o < 256) os ∧ (length l ≤ length r + 4 * n)%nat.
Proof.
  induction n as [|n IH]; intros index l os r H; cbn [read_octets] in H.
  { injection H as <- <-. split_and!; [done|constructor|lia]. }
  unfold mbind, Parser_bind, mret, Parser_ret in H. destruct (read_separator _ _ _ l) as [[o l1]|] eqn:Eo; [|done].
  apply separator_inv in Eo as (l0 & Eo & Hl0). pose proof (number_bound _ _ _ _ _ _ _ Eo). apply number_consumed in Eo.
  destruct (read_octets _ n l1) as [[os' l2]|] eqn:Eos; [|done]. injection H as <- <-. apply IH in Eos as (E1 & E2 & E3).
  split_and!; [cbn; lia|constructor; [lia|done]|lia].
Qed.
Lemma groups_inv left : ∀ index l gs v4 r,
  read_groups index left l = (gs, v4, r) →
  (length gs ≤ left)%nat ∧ Forall (λ s, s < 65536) gs ∧ (length l ≤ length r + 5 * length gs + 7)%nat.
Proof.
  induction left as [|left IH]; intros index l gs v4 r H; cbn [read_groups] in H.
  { injection H as <- <- <-. split_and!; [cbn; lia|constructor|lia]. }
  assert (∀ gs v4 r, match read_separator (char ":") index (read_number 16 (Some 4%nat) true U16_MAX) l with
    | Some (g, l') => let '(gs, v4, l'') := read_groups (S index) left l' in (g :: gs, v4, l'')
    | None => ([], false, l) end = (gs, v4, r) →
    (length gs ≤ S left)%nat ∧ Forall (λ s, s < 65536) gs ∧ (length l ≤ length r + 5 * length gs + 7)%nat) as Hnum.
  { clear H. intros gs' v4' r' Hg. destruct (read_separator _ _ _ l) as [[g l1]|] eqn:Eg.
    - apply separator_inv in Eg as (l0 & Eg & Hl0). pose proof (number_bound _ _ _ _ _ _ _ Eg) as Hb. apply number_consumed in Eg.
      unfold U16_MAX in Hb. destruct (read_groups _ left l1) as [[gs1 v41] r1] eqn:E1. injection Hg as <- <- <-.
      apply IH in E1 as (E1 & E2 & E3). split_and!; [cbn; lia|constructor; [lia|done]|cbn; lia].
    - injection Hg as <- <- <-. split_and!; [cbn; lia|constructor|lia]. }
  destruct (Nat.ltb_spec 0 left) as [Hl|Hl]; [|by apply Hnum in H].
  destruct (read_separator _ _ read_ipv4_addr l) as [[os l1]|] eqn:E4; [|by apply Hnum in H].
  apply separator_inv in E4 as (l0 & E4 & Hl0). apply octets_inv in E4 as (E1 & E2 & E3).
  destruct os as [|a [|b [|c [|d [|]]]]]; try done. injection H as <- <- <-. rewrite !Forall_cons in E2.
  split_and!; [cbn; lia| |cbn; lia]. repeat constructor; lia.
Qed.
Lemma ipv6_inv l s r :
  read_ipv6_addr l = Some (s, r) → ip_ok (V6 s) ∧ (length l ≤ length r + 51)%nat.
Proof.
  unfold read_ipv6_addr. destruct (read_groups 0 8 l) as [[head v4] l1] eqn:Eh. apply groups_inv in Eh as (H1 & H2 & H3).
  destruct (Nat.eqb_spec (length head) 8) as [E8|]; [intros [= <- <-]; split; [done|lia]|]. destruct v4; [done|].
  destruct l1 as [|c1 l1]; [done|]. cbn [read_given_char]. destruct (c1 =? _); [|done]. cbn [mbind option_bind].
  destruct l1 as [|c2 l1]; [done|]. cbn [read_given_char]. destruct (c2 =? _); [|done]. cbn [mbind option_bind].
  destruct (read_groups 0 _ l1) as [[tail v4] l2] eqn:Et. apply groups_inv in Et as (T1 & T2 & T3). intros [= <- <-].
  split; [|cbn in H3; lia]. split; [rewrite !length_app, length_replicate; lia|].
  apply Forall_app. split; [done|]. apply Forall_app. split; [by apply Forall_replicate|done].
Qed.

Lemma bind_inv {A B} (p : Parser A) (f : A → Parser B) l r :
  (p ≫= f) l = Some r → ∃ x l', p l = Some (x, l') ∧ f x l' = Some r.
Proof. unfold mbind, Parser_bind. destruct (p l) as [[x l']|]; [|done]. by exists x, l'. Qed.
Lemma socket_v4_inv l a r : read_socket_addr_v4 l = Some (a, r) → ip_ok (ip a).
Proof.
  intros (os & l1 & Eo & (port & l2 & _ & H)%bind_inv)%bind_inv. apply octets_inv in Eo as (H1 & H2 & _).
  by injection H as <- _.
Qed.
Lemma socket_v6_inv l a r : read_socket_addr_v6 l = Some (a, r) → ip_ok (ip a).
Proof.
  intros (u & l0 & _ & H)%bind_inv. apply bind_inv in H as (s6 & l1 & E6 & H). apply ipv6_inv in E6 as [H6 _].
  apply bind_inv in H as (sc & l2 & _ & H). apply bind_inv in H as (u' & l3 & _ & H).
  apply bind_inv in H as (port & l4 & _ & H). by injection H as <- _.
Qed.
Lemma socket_ip_ok s a : parse_socket s = Some a → ip_ok (ip a).
Proof.
  unfold parse_socket, parse_with. destruct (read_socket_addr _) as [[a' [|]]|] eqn:E; [|done..]. intros [= ->].
  unfold read_socket_addr in E. destruct (read_socket_addr_v4 _) as [r|] eqn:E4.
  - injection E as ->. by eapply socket_v4_inv.
  - by eapply socket_v6_inv.
Qed.
(** The text of an address without port is short. *)
Lemma ip_text_length s a : parse_ip s = Some a → (length (string_bytes s) ≤ 51)%nat.
Proof.
  unfold parse_ip, parse_with. destruct (read_ip_addr _) as [[a' [|]]|] eqn:E; [|done..]. intros [= ->].
  unfold read_ip_addr in E. destruct (read_ipv4_addr _) as [[os l1]|] eqn:E4.
  - injection E as <- ->. apply octets_inv in E4 as (_ & _ & H). cbn in H. lia.
  - destruct (read_ipv6_addr _) as [[s6 l1]|] eqn:E6; [|done]. injection E as <- ->. apply ipv6_inv in E6 as [_ H]. cbn in H. lia.
Qed.

Lemma parse_to_string a : ip_ok a → parse_ip (to_string a) = Some a.
Proof.
  intros Ha. unfold parse_ip, parse_with, to_string. rewrite string_bytes_of by apply fmt_bytes.
  destruct a as [octets|segments]; destruct Ha as [Hlen Hall]; unfold read_ip_addr; cbn [fmt_ip].
  - rewrite <- (app_nil_r (fmt_ipv4 octets)). by rewrite ipv4_read.
  - destruct (ipv6_read segments Hlen Hall) as [H6 H4]. by rewrite H4, H6.
Qed.

(** Printing and parsing of addresses fit together. Printing an address and parsing
    the result gives the address back, every parsed socket address contains an address
    that can be printed, and so the address of any endpoint that parses, stored as
    text, is read back as the same address. *)
Lemma ip_roundtrip (s : string) (a : SocketAddr) :
  parse_socket s = Some a → parse_ip (to_string (ip a)) = Some (ip a).
Proof. intros H. by apply parse_to_string, (socket_ip_ok s). Qed.
End Net.
