(* ===== verification/Signature.v ===== *)
(** * Tempo signatures

    [primitives/src/transaction/tt_signature.rs]: the primitive signatures (secp256k1,
    P256, WebAuthn), the keychain signatures that wrap them, their byte encoding and
    the recovery of the signer. The cryptographic libraries the file calls are the
    fields of [Crypto]; errors are their messages.

    The theorems show that the encoding is unambiguous: every signature with fields in
    range decodes to itself, the announced length is the length, and whatever decodes
    has fields in range and survives another round. *)

From S2P Require Import Prelude Hardfork Address Bytes.

(** The signature of the [alloy] library. *)
Module EcdsaSignature.
Record t := mk {
  r : U256;
  s : U256;
  y_parity : bool
}.
End EcdsaSignature.

(** The libraries: [alloy]'s reading and writing of secp256k1 signatures, its recovery of
    the signer and derivation of addresses from public keys; SHA-256; the P256
    verification of a digest; the [type] and [challenge] fields of a JSON object; the
    unpadded URL-safe base64 encoding; and, for the validator configuration, the decoding
    of Ed25519 keys and signatures and the verification of a signature on a message in a
    namespace. *)
Record Crypto := mkCrypto {
  signature_try_from : bytes → option EcdsaSignature.t;
  signature_as_bytes : EcdsaSignature.t → bytes;
  secp256k1_recover_signer : EcdsaSignature.t → B256 → option Address;
  from_raw_public_key : bytes → Address;
  sha256 : bytes → B256;
  p256_verify : B256 → B256 → B256 → B256 → B256 → bool;
  client_data_json : bytes → option (bytes * bytes);
  base64_url : bytes → bytes;
  ed25519_key_ok : B256 → bool;
  ed25519_signature_ok : bytes → bool;
  ed25519_verify : B256 → bytes → bytes → bytes → bool
}.

(** What the code relies on in the library's byte format. *)
Class LawfulCrypto (C : Crypto) : Prop := {
  as_bytes_length s : length (signature_as_bytes C s) = 65%nat;
  try_from_as_bytes s :
    s.(EcdsaSignature.r) < 2 ^ 256 → s.(EcdsaSignature.s) < 2 ^ 256 →
    signature_try_from C (signature_as_bytes C s) = Some s;
  try_from_range l s :
    is_bytes l → signature_try_from C l = Some s →
    s.(EcdsaSignature.r) < 2 ^ 256 ∧ s.(EcdsaSignature.s) < 2 ^ 256
}.

Module Signatures.

Definition P256_ORDER : U256 := 0xFFFFFFFF00000000FFFFFFFFFFFFFFFFBCE6FAADA7179E84F3B9CAC2FC632551.
Definition P256N_HALF : U256 := 0x7FFFFFFF800000007FFFFFFFFFFFFFFFDE737D56D38BCF4279DCE5617E3192A8.

Definition normalize_p256_s (s_bytes : bytes) : string + B256 :=
  let s := from_be_slice s_bytes in
  if (s =? 0) || (P256_ORDER <=? s) then inl "P256 s value out of range"
  else inr (if P256N_HALF <? s then P256_ORDER - s else s).

Definition SECP256K1_SIGNATURE_LENGTH : nat := 65.
Definition P256_SIGNATURE_LENGTH : nat := 129.
Definition MAX_WEBAUTHN_SIGNATURE_LENGTH : nat := 2048.
Definition SIGNATURE_TYPE_P256 : N := 0x01.
Definition SIGNATURE_TYPE_WEBAUTHN : N := 0x02.
Definition SIGNATURE_TYPE_KEYCHAIN : N := 0x03.
Definition SIGNATURE_TYPE_KEYCHAIN_V2 : N := 0x04.
Definition MIN_AUTH_DATA_LEN : nat := 37.
Definition UP : N := 0x01.
Definition UV : N := 0x04.
Definition AT : N := 0x40.
Definition ED : N := 0x80.

Record P256SignatureWithPreHash := P256Sig {
  r : B256;
  s : B256;
  pub_key_x : B256;
  pub_key_y : B256;
  pre_hash : bool
}.
Record WebAuthnSignature := WebAuthnSig {
  wr : B256;
  ws : B256;
  wpub_key_x : B256;
  wpub_key_y : B256;
  webauthn_data : bytes
}.

Inductive PrimitiveSignature :=
| Secp256k1 (sig : EcdsaSignature.t)
| P256 (sig : P256SignatureWithPreHash)
| WebAuthn (sig : WebAuthnSignature).

Inductive SignatureType := TSecp256k1 | TP256 | TWebAuthn.
Definition signature_type_u8 (t : SignatureType) : N :=
  match t with TSecp256k1 => 0 | TP256 => 1 | TWebAuthn => 2 end.

Inductive KeychainVersion := V1 | V2.
Inductive KeychainVersionError := LegacyPostT1C | V2BeforeActivation.
#[export] Instance KeychainVersion_eq_dec : EqDecision KeychainVersion.
Proof. solve_decision. Defined.

(** The fields that count for equality. The cache of the key id is an argument and a
    result of [cached_key_id]. *)
Record KeychainSignature := KeychainSig {
  user_address : Address;
  signature : PrimitiveSignature;
  version : KeychainVersion
}.

Inductive TempoSignature :=
| Primitive (sig : PrimitiveSignature)
| Keychain (sig : KeychainSignature).

(** ** Reading and writing primitive signatures *)

Section signatures.
Context (C : Crypto).

Definition split_p256_signature_fields (sig_data : bytes) : bytes * bytes * bytes * bytes * bool :=
  let r := take 32 sig_data in
  let sig_data := drop 32 sig_data in
  let s := take 32 sig_data in
  let sig_data := drop 32 sig_data in
  let pub_key_x := take 32 sig_data in
  let sig_data := drop 32 sig_data in
  let pub_key_y := take 32 sig_data in
  let pre_hash := drop 32 sig_data in
  (r, s, pub_key_x, pub_key_y, negb (hd 0 pre_hash =? 0)).

Definition p256_from_bytes (sig_data : bytes) : string + PrimitiveSignature :=
  if negb (length sig_data =? P256_SIGNATURE_LENGTH)%nat then inl "Invalid P256 signature length"
  else
    let '(r, s, pub_key_x, pub_key_y, pre_hash) := split_p256_signature_fields sig_data in
    inr (P256 (P256Sig (from_be_slice r) (from_be_slice s) (from_be_slice pub_key_x)
                 (from_be_slice pub_key_y) pre_hash)).

Definition webauthn_from_bytes (sig_data : bytes) : string + PrimitiveSignature :=
  let len := length sig_data in
  if negb ((128 <=? len)%nat && (len <=? MAX_WEBAUTHN_SIGNATURE_LENGTH)%nat)
  then inl "Invalid WebAuthn signature length"
  else
    let webauthn_data := take (len - 128) sig_data in
    let sig_data := drop (len - 128) sig_data in
    let r := take 32 sig_data in
    let sig_data := drop 32 sig_data in
    let s := take 32 sig_data in
    let sig_data := drop 32 sig_data in
    let pub_key_x := take 32 sig_data in
    let pub_key_y := drop 32 sig_data in
    inr (WebAuthn (WebAuthnSig (from_be_slice r) (from_be_slice s) (from_be_slice pub_key_x)
                     (from_be_slice pub_key_y) webauthn_data)).

Definition from_bytes (data : bytes) : string + PrimitiveSignature :=
  match data with
  | [] => inl "Signature data is empty"
  | type_id :: sig_data =>
      if (length data =? SECP256K1_SIGNATURE_LENGTH)%nat then
        match signature_try_from C data with
        | Some sig => inr (Secp256k1 sig)
        | None => inl "Failed to parse secp256k1 signature: invalid signature values"
        end
      else if (length data <? 2)%nat then
        inl "Signature data too short: expected type identifier + signature data"
      else if type_id =? SIGNATURE_TYPE_P256 then p256_from_bytes sig_data
      else if type_id =? SIGNATURE_TYPE_WEBAUTHN then webauthn_from_bytes sig_data
      else inl "Unknown signature type identifier"
  end.

(** [encode_bytes_into], which [to_bytes] runs on an empty buffer. *)
Definition encode_bytes_into (sig : PrimitiveSignature) (out : bytes) : bytes :=
  match sig with
  | Secp256k1 sig => out ++ signature_as_bytes C sig
  | P256 sig =>
      out ++ [SIGNATURE_TYPE_P256] ++ word_bytes sig.(r) ++ word_bytes sig.(s) ++
      word_bytes sig.(pub_key_x) ++ word_bytes sig.(pub_key_y) ++ [if sig.(pre_hash) then 1 else 0]
  | WebAuthn sig =>
      out ++ [SIGNATURE_TYPE_WEBAUTHN] ++ sig.(webauthn_data) ++ word_bytes sig.(wr) ++
      word_bytes sig.(ws) ++ word_bytes sig.(wpub_key_x) ++ word_bytes sig.(wpub_key_y)
  end.
Definition to_bytes (sig : PrimitiveSignature) : bytes := encode_bytes_into sig [].

Definition encoded_length (sig : PrimitiveSignature) : nat :=
  match sig with
  | Secp256k1 _ => SECP256K1_SIGNATURE_LENGTH
  | P256 _ => 1 + P256_SIGNATURE_LENGTH
  | WebAuthn sig => 1 + length sig.(webauthn_data) + 128
  end.

Definition signature_type (sig : PrimitiveSignature) : SignatureType :=
  match sig with Secp256k1 _ => TSecp256k1 | P256 _ => TP256 | WebAuthn _ => TWebAuthn end.

(** ** Verification *)

Definition derive_p256_address (pub_key_x pub_key_y : B256) : Address :=
  from_raw_public_key C (word_bytes pub_key_x ++ word_bytes pub_key_y).

Definition verify_p256_signature_internal (r s pub_key_x pub_key_y message_hash : B256) : string + () :=
  if P256N_HALF <? s then inl "P256 signature has high s value"
  else if p256_verify C r s pub_key_x pub_key_y message_hash then inr ()
  else inl "P256 signature verification failed".

Definition verify_webauthn_data_internal (webauthn_data : bytes) (tx_hash : B256) : string + B256 :=
  if (length webauthn_data <? MIN_AUTH_DATA_LEN + 32)%nat then inl "WebAuthn data too short"
  else
    let flags := nth 32 webauthn_data 0 in
    if (N.land flags UP =? 0) && (N.land flags UV =? 0) then inl "neither UP, nor UV flag set"
    else if negb (N.land flags AT =? 0) then inl "AT flag must not be set for assertion signatures"
    else if negb (N.land flags ED =? 0) then
      inl "ED flag must not be set, as Tempo doesn't support extensions"
    else
      let authenticator_data := take MIN_AUTH_DATA_LEN webauthn_data in
      let client_data := drop MIN_AUTH_DATA_LEN webauthn_data in
      match client_data_json C client_data with
      | None => inl "clientDataJSON is not valid JSON"
      | Some (type_field, challenge) =>
          if negb (bool_decide (type_field = string_bytes "webauthn.get")) then
            inl "clientDataJSON type must be webauthn.get"
          else if negb (bool_decide (challenge = base64_url C (word_bytes tx_hash))) then
            inl "clientDataJSON challenge does not match transaction hash"
          else inr (sha256 C (authenticator_data ++ word_bytes (sha256 C client_data)))
      end.

(** [None] is [RecoveryError]. *)
Definition recover_signer (sig : PrimitiveSignature) (sig_hash : B256) : option Address :=
  match sig with
  | Secp256k1 sig => secp256k1_recover_signer C sig sig_hash
  | P256 sig =>
      let message_hash := if sig.(pre_hash) then sha256 C (word_bytes sig_hash) else sig_hash in
      match verify_p256_signature_internal sig.(r) sig.(s) sig.(pub_key_x) sig.(pub_key_y) message_hash with
      | inl _ => None
      | inr _ => Some (derive_p256_address sig.(pub_key_x) sig.(pub_key_y))
      end
  | WebAuthn sig =>
      match verify_webauthn_data_internal sig.(webauthn_data) sig_hash with
      | inl _ => None
      | inr message_hash =>
          match verify_p256_signature_internal sig.(wr) sig.(ws) sig.(wpub_key_x) sig.(wpub_key_y) message_hash with
          | inl _ => None
          | inr _ => Some (derive_p256_address sig.(wpub_key_x) sig.(wpub_key_y))
          end
      end
  end.

(** ** Keychain signatures *)

Definition signing_hash (keccak : bytes → B256) (sig_hash : B256) (user_address : Address) : B256 :=
  keccak ([SIGNATURE_TYPE_KEYCHAIN_V2] ++ word_bytes sig_hash ++ address_bytes user_address).
Definition effective_sig_hash (keccak : bytes → B256) (sig : KeychainSignature) (sig_hash : B256) : B256 :=
  match sig.(version) with
  | V1 => sig_hash
  | V2 => signing_hash keccak sig_hash sig.(user_address)
  end.
(** [key_id] of a signature whose cache holds [cache]: the result and the cache after.
    What is cached is returned whatever the hash. *)
Definition cached_key_id (keccak : bytes → B256) (sig : KeychainSignature) (cache : option Address)
    (sig_hash : B256) : option Address * option Address :=
  match cache with
  | Some cached => (Some cached, cache)
  | None =>
      match recover_signer sig.(signature) (effective_sig_hash keccak sig sig_hash) with
      | None => (None, cache)
      | Some key_id => (Some key_id, Some key_id)
      end
  end.
(** The first call, on a signature just decoded. *)
Definition key_id (keccak : bytes → B256) (sig : KeychainSignature) (sig_hash : B256) : option Address :=
  (cached_key_id keccak sig None sig_hash).1.
Definition is_legacy (sig : KeychainSignature) : bool := bool_decide (sig.(version) = V1).

Definition tempo_from_bytes (data : bytes) : string + TempoSignature :=
  match data with
  | [] => inl "Signature data is empty"
  | b :: sig_data =>
      if (1 <? length data)%nat && negb (length data =? SECP256K1_SIGNATURE_LENGTH)%nat &&
         ((b =? SIGNATURE_TYPE_KEYCHAIN) || (b =? SIGNATURE_TYPE_KEYCHAIN_V2))
      then
        let version := if b =? SIGNATURE_TYPE_KEYCHAIN then V1 else V2 in
        if (length sig_data <? 20)%nat then
          inl "Invalid Keychain signature: too short for user_address"
        else
          let user_address := from_be_slice (take 20 sig_data) in
          match from_bytes (drop 20 sig_data) with
          | inl x => inl x
          | inr inner => inr (Keychain (KeychainSig user_address inner version))
          end
      else
        match from_bytes data with
        | inl x => inl x
        | inr primitive => inr (Primitive primitive)
        end
  end.

Definition tempo_encode_bytes_into (sig : TempoSignature) (out : bytes) : bytes :=
  match sig with
  | Primitive sig => encode_bytes_into sig out
  | Keychain sig =>
      let type_byte :=
        match sig.(version) with V1 => SIGNATURE_TYPE_KEYCHAIN | V2 => SIGNATURE_TYPE_KEYCHAIN_V2 end in
      encode_bytes_into sig.(signature) (out ++ [type_byte] ++ address_bytes sig.(user_address))
  end.
Definition tempo_to_bytes (sig : TempoSignature) : bytes := tempo_encode_bytes_into sig [].
Definition tempo_encoded_length (sig : TempoSignature) : nat :=
  match sig with
  | Primitive sig => encoded_length sig
  | Keychain sig => 1 + 20 + encoded_length sig.(signature)
  end.

Definition tempo_recover_signer (keccak : bytes → B256) (sig : TempoSignature) (sig_hash : B256) : option Address :=
  match sig with
  | Primitive sig => recover_signer sig sig_hash
  | Keychain sig =>
      match key_id keccak sig sig_hash with
      | None => None
      | Some _ => Some sig.(user_address)
      end
  end.

Definition is_legacy_keychain (sig : TempoSignature) : bool :=
  match sig with Keychain k => is_legacy k | Primitive _ => false end.
Definition is_v2_keychain (sig : TempoSignature) : bool :=
  match sig with Keychain k => bool_decide (k.(version) = V2) | Primitive _ => false end.
Definition validate_version (sig : TempoSignature) (is_t1c : bool) : KeychainVersionError + () :=
  if is_t1c && is_legacy_keychain sig then inl LegacyPostT1C
  else if negb is_t1c && is_v2_keychain sig then inl V2BeforeActivation
  else inr ().
Definition as_keychain (sig : TempoSignature) : option KeychainSignature :=
  match sig with Keychain k => Some k | Primitive _ => None end.

(** The first id that is recovered stays, also for other hashes. *)
Lemma cached_key_id_sticks keccak sig h k h' :
  key_id keccak sig h = Some k →
  cached_key_id keccak sig (cached_key_id keccak sig None h).2 h' = (Some k, Some k).
Proof. unfold key_id, cached_key_id. by destruct (recover_signer _ _); intros [= <-]. Qed.
Lemma key_id_recovered keccak sig h :
  key_id keccak sig h = recover_signer sig.(signature) (effective_sig_hash keccak sig h).
Proof. unfold key_id, cached_key_id. by destruct (recover_signer _ _). Qed.

(** ** Signatures with fields in range *)

Definition in_word (x : N) : Prop := x < 2 ^ 256.
Definition primitive_wf (sig : PrimitiveSignature) : Prop :=
  match sig with
  | Secp256k1 sig => in_word sig.(EcdsaSignature.r) ∧ in_word sig.(EcdsaSignature.s)
  | P256 sig => in_word sig.(r) ∧ in_word sig.(s) ∧ in_word sig.(pub_key_x) ∧ in_word sig.(pub_key_y)
  | WebAuthn sig =>
      in_word sig.(wr) ∧ in_word sig.(ws) ∧ in_word sig.(wpub_key_x) ∧ in_word sig.(wpub_key_y) ∧
      (length sig.(webauthn_data) + 128 ≤ MAX_WEBAUTHN_SIGNATURE_LENGTH)%nat
  end.
Definition tempo_wf (sig : TempoSignature) : Prop :=
  match sig with
  | Primitive sig => primitive_wf sig
  | Keychain sig => sig.(user_address) < 2 ^ 160 ∧ primitive_wf sig.(signature)
  end.

Lemma from_word x : in_word x → from_be_slice (word_bytes x) = x.
Proof. apply (from_be_bytes 32). Qed.
Lemma word_length x : length (word_bytes x) = 32%nat.
Proof. apply be_bytes_length. Qed.
Lemma take_word x l : take 32 (word_bytes x ++ l) = word_bytes x.
Proof. apply take_be_bytes. Qed.
Lemma drop_word x l : drop 32 (word_bytes x ++ l) = l.
Proof. apply drop_be_bytes. Qed.
Ltac read_fields := repeat first [rewrite take_word | rewrite drop_word | rewrite word_length | rewrite length_app].

Lemma encode_app sig out : encode_bytes_into sig out = out ++ to_bytes sig.
Proof. by destruct sig. Qed.

Context `{!LawfulCrypto C}.

Lemma to_bytes_length sig : length (to_bytes sig) = encoded_length sig.
Proof.
  destruct sig as [sig|sig|sig]; unfold to_bytes, encode_bytes_into, encoded_length; cbn [app length];
    read_fields; cbn [length].
  - apply as_bytes_length.
  - done.
  - lia.
Qed.
Lemma encoded_length_min sig : (65 ≤ encoded_length sig)%nat.
Proof. destruct sig; unfold encoded_length, SECP256K1_SIGNATURE_LENGTH, P256_SIGNATURE_LENGTH; lia. Qed.

Lemma p256_roundtrip sig :
  primitive_wf (P256 sig) → p256_from_bytes (tail (to_bytes (P256 sig))) = inr (P256 sig).
Proof.
  destruct sig as [R S X Y b]. intros (HR & HS & HX & HY). unfold p256_from_bytes, split_p256_signature_fields, to_bytes.
  cbn [encode_bytes_into app tail r s pub_key_x pub_key_y pre_hash] in *. read_fields.
  rewrite !from_word by done. cbn [hd length]. by destruct b.
Qed.
Lemma webauthn_roundtrip sig :
  primitive_wf (WebAuthn sig) → webauthn_from_bytes (tail (to_bytes (WebAuthn sig))) = inr (WebAuthn sig).
Proof.
  destruct sig as [R S X Y D]. intros (HR & HS & HX & HY & HD). unfold webauthn_from_bytes, to_bytes.
  cbn [encode_bytes_into app tail wr ws wpub_key_x wpub_key_y webauthn_data] in *. read_fields.
  replace (length D + (32 + (32 + (32 + 32))) - 128)%nat with (length D) by lia.
  rewrite !take_app_length, !drop_app_length. read_fields.
  rewrite (proj2 (Nat.leb_le _ _)), (proj2 (Nat.leb_le _ MAX_WEBAUTHN_SIGNATURE_LENGTH)) by lia.
  cbn [negb andb]. by rewrite !from_word.
Qed.

Lemma primitive_roundtrip sig : primitive_wf sig → from_bytes (to_bytes sig) = inr sig.
Proof.
  intros Hw. pose proof (to_bytes_length sig) as HL. unfold from_bytes. rewrite HL.
  destruct sig as [sig|sig|sig].
  - pose proof (try_from_as_bytes sig (proj1 Hw) (proj2 Hw)) as E. unfold to_bytes in *. cbn [encode_bytes_into app encoded_length] in *.
    destruct (signature_as_bytes C sig); [done|]. by rewrite Nat.eqb_refl, E.
  - pose proof (p256_roundtrip sig Hw) as E. by unfold to_bytes in *.
  - pose proof (webauthn_roundtrip sig Hw) as E. cbn [encoded_length]. unfold to_bytes in *.
    cbn [encode_bytes_into app tail] in *. rewrite E.
    rewrite (proj2 (Nat.eqb_neq _ _)), (proj2 (Nat.ltb_ge _ _)) by (unfold SECP256K1_SIGNATURE_LENGTH; lia). done.
Qed.

Lemma tempo_to_bytes_length sig : length (tempo_to_bytes sig) = tempo_encoded_length sig.
Proof.
  destruct sig as [sig|[a sig v]]; unfold tempo_to_bytes, tempo_encode_bytes_into; cbn [user_address signature version].
  - apply to_bytes_length.
  - rewrite encode_app, !length_app, to_bytes_length. unfold address_bytes. by rewrite be_bytes_length.
Qed.

(** A primitive encoding is not taken for a keychain signature. *)
Lemma primitive_head sig b l :
  primitive_wf sig → to_bytes sig = b :: l →
  negb (length (to_bytes sig) =? SECP256K1_SIGNATURE_LENGTH)%nat &&
    ((b =? SIGNATURE_TYPE_KEYCHAIN) || (b =? SIGNATURE_TYPE_KEYCHAIN_V2)) = false.
Proof.
  intros Hw E. rewrite to_bytes_length. destruct sig; [done|..]; injection E as <- _; by rewrite andb_false_r.
Qed.
Lemma tempo_roundtrip sig : tempo_wf sig → tempo_from_bytes (tempo_to_bytes sig) = inr sig.
Proof.
  pose proof (tempo_to_bytes_length sig) as HL. destruct sig as [sig|[a sig v]]; cbn [tempo_wf user_address signature].
  - intros Hw. unfold tempo_from_bytes, tempo_to_bytes, tempo_encode_bytes_into.
    change (encode_bytes_into sig []) with (to_bytes sig).
    destruct (to_bytes sig) as [|b l] eqn:E.
    { pose proof (encoded_length_min sig) as Hm. rewrite <- to_bytes_length, E in Hm. cbn in Hm. lia. }
    rewrite <- E, <- andb_assoc, (primitive_head sig b l Hw E), andb_false_r. by rewrite primitive_roundtrip.
  - intros [Ha Hw]. pose proof (encoded_length_min sig) as Hm. unfold tempo_from_bytes, tempo_to_bytes in *.
    cbn [tempo_encode_bytes_into user_address signature version app tempo_encoded_length] in *.
    rewrite encode_app in *. cbn [app] in *. rewrite HL.
    rewrite (proj2 (Nat.ltb_lt _ _)), (proj2 (Nat.eqb_neq _ _)) by (unfold SECP256K1_SIGNATURE_LENGTH; lia).
    unfold address_bytes. rewrite length_app, be_bytes_length, (proj2 (Nat.ltb_ge _ _)) by lia.
    rewrite take_be_bytes, drop_be_bytes, primitive_roundtrip, from_be_bytes by done. by destruct v.
Qed.

(** ** What decoding returns *)

Lemma take_in_word l : is_bytes l → (32 ≤ length l)%nat → in_word (from_be_slice (take 32 l)).
Proof. apply (from_be_take_lt 32). Qed.
Lemma rest_in_word l : is_bytes l → length l = 32%nat → in_word (from_be_slice l).
Proof. intros Hl E. pose proof (from_be_slice_lt l Hl) as H. by rewrite E in H. Qed.

Lemma p256_parsed data sig :
  is_bytes data → p256_from_bytes data = inr sig → primitive_wf sig ∧ encoded_length sig = S (length data).
Proof.
  unfold p256_from_bytes. intros Hb. destruct (Nat.eqb_spec (length data) P256_SIGNATURE_LENGTH) as [E|]; [|done].
  intros [= <-]. cbn [primitive_wf r s pub_key_x pub_key_y]. unfold P256_SIGNATURE_LENGTH in E.
  split_and!; [apply take_in_word; [by repeat apply Forall_drop|rewrite ?length_drop; lia]..|].
  cbn. by rewrite E.
Qed.
Lemma webauthn_parsed data sig :
  is_bytes data → webauthn_from_bytes data = inr sig → primitive_wf sig ∧ encoded_length sig = S (length data).
Proof.
  unfold webauthn_from_bytes. intros Hb.
  destruct (Nat.leb_spec 128 (length data)) as [H1|]; [|done].
  destruct (Nat.leb_spec (length data) MAX_WEBAUTHN_SIGNATURE_LENGTH) as [H2|]; [|done].
  intros [= <-]. cbn [primitive_wf wr ws wpub_key_x wpub_key_y encoded_length webauthn_data].
  rewrite length_take_le by lia. split_and!; [..|lia|lia].
  1-3: apply take_in_word; [by repeat apply Forall_drop|rewrite ?length_drop; lia].
  apply rest_in_word; [by repeat apply Forall_drop|rewrite ?length_drop; lia].
Qed.
Lemma primitive_parsed data sig :
  is_bytes data → from_bytes data = inr sig → primitive_wf sig ∧ encoded_length sig = length data.
Proof.
  intros Hb. unfold from_bytes. destruct data as [|b data]; [done|].
  destruct (Nat.eqb_spec (length (b :: data)) SECP256K1_SIGNATURE_LENGTH) as [E|_].
  - destruct (signature_try_from C (b :: data)) eqn:E'; [|done]. intros [= <-].
    split; [by apply try_from_range in E'|done].
  - apply Forall_cons in Hb as [_ Hb]. repeat case_match; try done; [apply p256_parsed|apply webauthn_parsed]; done.
Qed.
Lemma tempo_parsed data sig :
  is_bytes data → tempo_from_bytes data = inr sig → tempo_wf sig ∧ tempo_encoded_length sig = length data.
Proof.
  intros Hb. unfold tempo_from_bytes. destruct data as [|b data]; [done|]. destruct (_ && _).
  - apply Forall_cons in Hb as [_ Hb]. destruct (Nat.ltb_spec (length data) 20) as [|Hl]; [done|].
    destruct (from_bytes (drop 20 data)) as [|inner] eqn:E; [done|]. intros [= <-].
    apply primitive_parsed in E as [Hw HL]; [|by apply Forall_drop].
    cbn [tempo_wf tempo_encoded_length user_address signature]. rewrite HL, length_drop. cbn [length].
    split_and!; [by apply (from_be_take_lt 20)|done|lia].
  - destruct (from_bytes (b :: data)) as [|sig'] eqn:E; [done|]. intros [= <-]. by apply primitive_parsed in E.
Qed.

End signatures.

(** ** An example library

    Signatures are read and written in the 65-byte format with the parity offset 27, and
    every signature is its signer's. *)
Definition example_crypto : Crypto := {|
  signature_try_from l :=
    if (length l =? 65)%nat then
      Some (EcdsaSignature.mk (from_be_slice (take 32 l)) (from_be_slice (take 32 (drop 32 l)))
              (nth 64 l 0 =? 28))
    else None;
  signature_as_bytes s :=
    word_bytes s.(EcdsaSignature.r) ++ word_bytes s.(EcdsaSignature.s) ++ [if s.(EcdsaSignature.y_parity) then 28 else 27];
  secp256k1_recover_signer s h := Some s.(EcdsaSignature.r);
  from_raw_public_key l := from_be_slice (take 20 l);
  sha256 l := from_be_slice (take 32 l);
  p256_verify r s x y h := true;
  client_data_json l := Some (string_bytes "webauthn.get", drop 32 l);
  base64_url l := l;
  ed25519_key_ok k := negb (k =? 0);
  ed25519_signature_ok l := (length l =? 64)%nat;
  ed25519_verify k ns m s := true
|}.
#[export] Instance example_crypto_lawful : LawfulCrypto example_crypto.
Proof.
  split.
  - intros s. unfold signature_as_bytes. cbn [example_crypto]. by rewrite !length_app, !word_length.
  - intros [R S v] HR HS. cbn [example_crypto signature_try_from signature_as_bytes EcdsaSignature.r EcdsaSignature.s EcdsaSignature.y_parity].
    rewrite !length_app, !word_length, take_word, drop_word, take_word, !from_word by done. cbn [length Nat.add Nat.eqb].
    do 2 f_equal. rewrite app_nth2, word_length by (rewrite word_length; lia).
    rewrite app_nth2, word_length by (rewrite word_length; lia). by destruct v.
  - intros l s Hl. cbn [example_crypto signature_try_from]. destruct (Nat.eqb_spec (length l) 65) as [E|]; [|done].
    intros [= <-]. cbn [EcdsaSignature.r EcdsaSignature.s].
    split; apply take_in_word; rewrite ?length_drop; [done|lia|by apply Forall_drop|lia].
Qed.

(** C31: no two signatures share an encoding. A primitive or keychain signature with its
    fields in range, whatever library reads its secp256k1 signatures, decodes from its
    encoding to itself, and the encoding has the announced length. *)
Theorem signature_roundtrip C `{!LawfulCrypto C} (sig : TempoSignature) :
  tempo_wf sig →
  tempo_from_bytes C (tempo_to_bytes C sig) = inr sig ∧ length (tempo_to_bytes C sig) = tempo_encoded_length sig.
Proof. intros Hw. split; [by apply tempo_roundtrip|apply tempo_to_bytes_length, _]. Qed.
Lemma signature_roundtrip_witness :
  let sig := Keychain (KeychainSig 7 (WebAuthn (WebAuthnSig 1 2 3 4 (replicate 69 1))) V2) in
  tempo_from_bytes example_crypto (tempo_to_bytes example_crypto sig) = inr sig ∧
  length (tempo_to_bytes example_crypto sig) = 219%nat.
Proof. intros sig. apply (signature_roundtrip example_crypto sig). split; [done|]. split_and!; try done. cbn. unfold MAX_WEBAUTHN_SIGNATURE_LENGTH. lia. Defined.

(** C32: decoding returns signatures in range. Whatever byte string decodes, the result
    has its fields in range, announces the length of the string, and decodes to itself
    once written back, although several strings may decode to one signature. *)
Theorem signature_decoding_stable C `{!LawfulCrypto C} (data : bytes) (sig : TempoSignature) :
  is_bytes data → tempo_from_bytes C data = inr sig →
  tempo_wf sig ∧ tempo_encoded_length sig = length data ∧ tempo_from_bytes C (tempo_to_bytes C sig) = inr sig.
Proof.
  intros Hb H. destruct (tempo_parsed C data sig Hb H) as [Hw HL]. split_and!; [done|done|]. by apply tempo_roundtrip.
Qed.
(** The flag byte 9 of this P256 signature is written back as 1. *)
Lemma signature_decoding_stable_witness :
  let data := 1 :: replicate 128 5 ++ [9] in
  let sig := Primitive (P256 (P256Sig (from_be_slice (replicate 32 5)) (from_be_slice (replicate 32 5))
    (from_be_slice (replicate 32 5)) (from_be_slice (replicate 32 5)) true)) in
  tempo_from_bytes example_crypto data = inr sig ∧
  tempo_from_bytes example_crypto (tempo_to_bytes example_crypto sig) = inr sig.
Proof.
  intros data sig. assert (tempo_from_bytes example_crypto data = inr sig) as E by by vm_compute.
  split; [done|]. apply (signature_decoding_stable example_crypto data sig); [|done].
  apply Forall_cons. split; [done|]. apply Forall_app. split; [by apply Forall_replicate|by constructor].
Defined.

End Signatures.
