(* ===== verification/AccountConfig.v ===== *)
(** * Configurations of accounts

    [primitives/src/transaction/configurable_account/mod.rs]: an account owned by a set
    of weighted owners, its configuration with the byte strings its address and its
    commitment are hashes of, and the signature of such an account, which carries the
    configuration and the approvals of owners; [primitives/src/account/mod.rs]: the
    commitment as it is stored with an account. Keccak and the CREATE2 address are
    arguments; RLP and serde are left out.

    The theorems say what a valid configuration is, that its encoding is unambiguous,
    and which approvals are accepted. *)

From stdpp Require Import sorting.
From S2P Require Import Prelude Hardfork Address Bytes Signature.

Module ConfigurableAccountOwner.
Record t := mk {
  owner : Address;
  weight : N
}.
End ConfigurableAccountOwner.

Module ConfigurableAccountConfig.
Record t := mk {
  salt : B256;
  version : N;
  threshold : N;
  owners : list ConfigurableAccountOwner.t
}.
End ConfigurableAccountConfig.

Module ConfigurableAccountConfigError.
Inductive t :=
| EmptyOwners | TooManyOwners | ZeroThreshold | ZeroOwner | ZeroWeight | DuplicateOwner
| OwnersNotAscending | TotalWeightExceedsMax | ThresholdExceedsWeight | DerivedAccountZero
| AccountIsOwner.
End ConfigurableAccountConfigError.

Module ConfigurableAccountSignatureError.
Inductive t :=
| InvalidConfig (e : ConfigurableAccountConfigError.t)
| ZeroAccount | EmptySignatures | TooManySignatures | OwnerSignatureTooLarge.
End ConfigurableAccountSignatureError.

Module ConfigurableAccountStateError.
Inductive t :=
| CommitmentMismatch (expected actual : B256)
| UnregisteredVersion (actual : N)
| FactoryNotConfigured
| InitialAccountMismatch (expected actual : Address).
End ConfigurableAccountStateError.

Module ConfigurableAccountQuorumError.
Inductive t :=
| ZeroThreshold | EmptySignatures | TooManySignatures | ExcessSignatures | SignerNotOwner
| SignersNotAscending | WeightBelowThreshold | OwnerSignatureRecoveryFailed (approval_index : nat).
End ConfigurableAccountQuorumError.

Module AccountConfig.
Import ConfigurableAccountOwner ConfigurableAccountConfig.
Import (notations) Signatures.
Module CE := ConfigurableAccountConfigError.
Module SE := ConfigurableAccountSignatureError.
Module TE := ConfigurableAccountStateError.
Module QE := ConfigurableAccountQuorumError.

Definition CONFIGURABLE_ACCOUNT_SIGNATURE_DOMAIN : bytes := string_bytes "tempo:configurable-account:signature".
Definition MAX_CONFIGURABLE_ACCOUNT_OWNERS : nat := 48.
Definition MAX_CONFIGURABLE_ACCOUNT_SIGNATURES : nat := 8.
Definition MAX_CONFIGURABLE_ACCOUNT_OWNER_SIGNATURE_BYTES : nat := 1 + Signatures.MAX_WEBAUTHN_SIGNATURE_LENGTH.
Definition CONFIGURABLE_ACCOUNT_DOMAIN : bytes := string_bytes "tempo:configurable-account:account".
Definition CONFIGURABLE_ACCOUNT_UPGRADE_DOMAIN : bytes := string_bytes "tempo:configurable-account:upgrade".
Definition ACCOUNT_PROXY_INIT_CODE_HASH : B256 :=
  0x583cc63a2e37f645b43eac911b1a6d6de08b83abdc308c61364edda8cfc3bd37.
Definition CONFIGURABLE_ACCOUNT_CONFIG_DOMAIN : bytes := string_bytes "tempo:configurable-account:config".

(** ** Validation *)

(** [owners.windows(2).any(|pair| pair[0].owner >= pair[1].owner)]. *)
Fixpoint out_of_order (l : list Address) : bool :=
  match l with
  | x :: (y :: _) as l' => (y <=? x) || out_of_order l'
  | _ => false
  end.
(** An owner that equals one before it. *)
Fixpoint repeated (before l : list Address) : bool :=
  match l with
  | [] => false
  | x :: l' => existsb (N.eqb x) before || repeated (before ++ [x]) l'
  end.
(** The first error of the loop over the owners. *)
Fixpoint check_owners (version : N) (account : option Address) (l : list ConfigurableAccountOwner.t) : option CE.t :=
  match l with
  | [] => None
  | o :: l' =>
      if o.(owner) =? 0 then Some CE.ZeroOwner
      else if (version =? 0) && bool_decide (account = Some o.(owner)) then Some CE.AccountIsOwner
      else check_owners version account l'
  end.
(** [try_fold(0u8, |total, owner| total.checked_add(owner.weight))]. *)
Fixpoint add_weights (total : N) (l : list ConfigurableAccountOwner.t) : option N :=
  match l with
  | [] => Some total
  | o :: l' => total' ← checked_add U8_MAX total o.(weight); add_weights total' l'
  end.
(** The array is kept in ascending order, so its first entry is the smallest. *)
Definition keep_largest (largest_weights : list N) (w : N) : list N :=
  match largest_weights with
  | x :: l => if x <? w then merge_sort N.le (w :: l) else largest_weights
  | [] => []
  end.
Definition reachable_weight (l : list ConfigurableAccountOwner.t) : N :=
  foldr N.add 0 (foldl keep_largest (replicate MAX_CONFIGURABLE_ACCOUNT_SIGNATURES 0) (map weight l)).

Definition validate_inner (self : ConfigurableAccountConfig.t) (account : option Address) : CE.t + N :=
  if bool_decide (self.(owners) = []) then inl CE.EmptyOwners
  else if (MAX_CONFIGURABLE_ACCOUNT_OWNERS <? length self.(owners))%nat then inl CE.TooManyOwners
  else if self.(threshold) =? 0 then inl CE.ZeroThreshold
  else match check_owners self.(version) account self.(owners) with
  | Some x => inl x
  | None =>
  if existsb (λ o, o.(weight) =? 0) self.(owners) then inl CE.ZeroWeight
  else if out_of_order (map owner self.(owners)) then
    if repeated [] (map owner self.(owners)) then inl CE.DuplicateOwner else inl CE.OwnersNotAscending
  else match add_weights 0 self.(owners) with
  | None => inl CE.TotalWeightExceedsMax
  | Some total_weight =>
  if reachable_weight self.(owners) <? self.(threshold) then inl CE.ThresholdExceedsWeight
  else inr total_weight
  end end.
Definition validate (self : ConfigurableAccountConfig.t) : CE.t + N := validate_inner self None.
Definition validate_for_account (self : ConfigurableAccountConfig.t) (account : Address) : CE.t + N :=
  validate_inner self (Some account).

(** [binary_search_by_key] of the standard library: [base] is the start of the part
    still searched and [size] its length, which every round halves. *)
Fixpoint search_from (fuel : nat) (l : list ConfigurableAccountOwner.t) (a : Address) (base size : nat) : nat :=
  match fuel with
  | O => base
  | S fuel =>
      if (size <=? 1)%nat then base
      else
        let half := (size / 2)%nat in
        let mid := (base + half)%nat in
        let base' := match l !! mid with
                     | Some o => if a <? o.(owner) then base else mid
                     | None => base
                     end in
        search_from fuel l a base' (size - half)
  end.
Definition owner_weight (self : ConfigurableAccountConfig.t) (a : Address) : option N :=
  let l := self.(owners) in
  match l !! search_from (length l) l a 0 (length l) with
  | Some o => if o.(owner) =? a then Some o.(weight) else None
  | None => None
  end.

(** ** Encodings *)

Definition encoded_owner_count (self : ConfigurableAccountConfig.t) : CE.t + N :=
  if (MAX_CONFIGURABLE_ACCOUNT_OWNERS <? length self.(owners))%nat then inl CE.TooManyOwners
  else inr (N.of_nat (length self.(owners))).
Definition append_owner_set (self : ConfigurableAccountConfig.t) (owner_count : N) : bytes :=
  [self.(threshold); owner_count] ++
  flat_map (λ o, address_bytes o.(owner) ++ [o.(weight)]) self.(owners).
Definition account_salt_preimage (self : ConfigurableAccountConfig.t) : CE.t + bytes :=
  match encoded_owner_count self with
  | inl x => inl x
  | inr owner_count =>
      inr (CONFIGURABLE_ACCOUNT_DOMAIN ++ word_bytes self.(salt) ++ append_owner_set self owner_count)
  end.
Definition commitment_preimage (self : ConfigurableAccountConfig.t) : CE.t + bytes :=
  match encoded_owner_count self with
  | inl x => inl x
  | inr owner_count =>
      inr (CONFIGURABLE_ACCOUNT_CONFIG_DOMAIN ++ word_bytes self.(salt) ++ be_bytes 8 self.(version) ++
           append_owner_set self owner_count)
  end.
Definition account_salt_preimage_len (self : ConfigurableAccountConfig.t) : nat :=
  length CONFIGURABLE_ACCOUNT_DOMAIN + 32 + 2 + length self.(owners) * 21.
Definition commitment_preimage_len (self : ConfigurableAccountConfig.t) : nat :=
  length CONFIGURABLE_ACCOUNT_CONFIG_DOMAIN + 32 + 8 + 2 + length self.(owners) * 21.

Section hashes.
Context (C : Crypto) (keccak : bytes → B256) (create2 : Address → B256 → B256 → Address).

Definition configurable_account_digest (inner_digest : B256) (account : Address) (config_version : N) : B256 :=
  keccak (CONFIGURABLE_ACCOUNT_SIGNATURE_DOMAIN ++ word_bytes inner_digest ++ address_bytes account ++
          be_bytes 8 config_version).
Definition configurable_account_address (factory : Address) (account_salt : B256) : Address :=
  create2 factory account_salt ACCOUNT_PROXY_INIT_CODE_HASH.

(** [None] where the source panics: the owner count of a valid configuration fits. *)
Definition account_salt_validated (self : ConfigurableAccountConfig.t) : option B256 :=
  match account_salt_preimage self with inl _ => None | inr l => Some (keccak l) end.
Definition commitment_validated (self : ConfigurableAccountConfig.t) : option B256 :=
  match commitment_preimage self with inl _ => None | inr l => Some (keccak l) end.
Definition derive_account_validated (self : ConfigurableAccountConfig.t) (factory : Address) : option (CE.t + Address) :=
  account_salt ← account_salt_validated self;
  let account := configurable_account_address factory account_salt in
  Some (if account =? 0 then inl CE.DerivedAccountZero
        else if bool_decide (is_Some (owner_weight self account)) then inl CE.AccountIsOwner
        else inr account).
Definition derive_account (self : ConfigurableAccountConfig.t) (factory : Address) : option (CE.t + Address) :=
  match validate self with
  | inl x => Some (inl x)
  | inr _ => derive_account_validated self factory
  end.
Definition commitment (self : ConfigurableAccountConfig.t) : option (CE.t + B256) :=
  match validate self with
  | inl x => Some (inl x)
  | inr _ => inr <$> commitment_validated self
  end.

(** ** Signatures *)

Record ConfigurableAccountSignature := AccountSig {
  account : Address;
  config : ConfigurableAccountConfig.t;
  signatures : list Signatures.PrimitiveSignature
}.

Definition validate_shape (self : ConfigurableAccountSignature) : SE.t + () :=
  if self.(account) =? 0 then inl SE.ZeroAccount
  else match validate_for_account self.(config) self.(account) with
  | inl x => inl (SE.InvalidConfig x)
  | inr _ =>
  if bool_decide (self.(signatures) = []) then inl SE.EmptySignatures
  else if (MAX_CONFIGURABLE_ACCOUNT_SIGNATURES <? length self.(signatures))%nat then inl SE.TooManySignatures
  else if existsb (λ s, MAX_CONFIGURABLE_ACCOUNT_OWNER_SIGNATURE_BYTES <? Signatures.encoded_length s)%nat
            self.(signatures)
  then inl SE.OwnerSignatureTooLarge
  else inr ()
  end.
Definition try_new (account : Address) (config : ConfigurableAccountConfig.t)
    (signatures : list Signatures.PrimitiveSignature) : SE.t + ConfigurableAccountSignature :=
  let signature := AccountSig account config signatures in
  match validate_shape signature with inl x => inl x | inr _ => inr signature end.

Definition digest (self : ConfigurableAccountSignature) (inner_digest : B256) : B256 :=
  configurable_account_digest inner_digest self.(account) self.(config).(version).
Definition config_commitment (self : ConfigurableAccountSignature) : option B256 :=
  commitment_validated self.(config).

(** [ConfigurableAccountWeightAccumulator]. *)
Record Accumulator := mkAccumulator {
  acc_threshold : N;
  prev_owner : option Address;
  recovered_weight : N;
  signer_count : nat
}.
Definition new_accumulator (threshold : N) : QE.t + Accumulator :=
  if threshold =? 0 then inl QE.ZeroThreshold else inr (mkAccumulator threshold None 0 0).
Definition has_quorum (self : Accumulator) : bool :=
  (0 <? self.(signer_count))%nat && (self.(acc_threshold) <=? self.(recovered_weight)).
Definition record_owner (self : Accumulator) (owner : Address) (weight : N) : QE.t + Accumulator :=
  if has_quorum self then inl QE.ExcessSignatures
  else if weight =? 0 then inl QE.SignerNotOwner
  else if (MAX_CONFIGURABLE_ACCOUNT_SIGNATURES <? self.(signer_count) + 1)%nat then inl QE.TooManySignatures
  else if match self.(prev_owner) with Some prev => owner <=? prev | None => false end
  then inl QE.SignersNotAscending
  else inr (mkAccumulator self.(acc_threshold) (Some owner) (self.(recovered_weight) + weight)
              (self.(signer_count) + 1)).
Definition finish (self : Accumulator) : QE.t + () :=
  if bool_decide (self.(signer_count) = 0%nat) then inl QE.EmptySignatures
  else if self.(recovered_weight) <? self.(acc_threshold) then inl QE.WeightBelowThreshold
  else inr ().

(** The loop of [verify_approvals], from the approval with index [i]. *)
Fixpoint approve (config : ConfigurableAccountConfig.t) (digest : B256) (i : nat) (weight : Accumulator)
    (l : list Signatures.PrimitiveSignature) : QE.t + Accumulator :=
  match l with
  | [] => inr weight
  | approval :: l' =>
      match Signatures.recover_signer C approval digest with
      | None => inl (QE.OwnerSignatureRecoveryFailed i)
      | Some owner =>
      match owner_weight config owner with
      | None => inl QE.SignerNotOwner
      | Some w =>
      match record_owner weight owner w with
      | inl x => inl x
      | inr weight' =>
          if has_quorum weight' && bool_decide (l' ≠ []) then inl QE.ExcessSignatures
          else approve config digest (S i) weight' l'
      end end end
  end.
Definition verify_approvals (self : ConfigurableAccountSignature) (inner_digest : B256) : QE.t + () :=
  match new_accumulator self.(config).(threshold) with
  | inl x => inl x
  | inr weight =>
      match approve self.(config) (digest self inner_digest) 0 weight self.(signatures) with
      | inl x => inl x
      | inr weight' => finish weight'
      end
  end.

(** [None] where the source panics. *)
Definition validate_account_commitment (self : ConfigurableAccountSignature) (stored : B256)
    (factory : option Address) : option (TE.t + ()) :=
  actual ← config_commitment self;
  if (actual =? 0) || (negb (stored =? 0) && negb (stored =? actual))
  then Some (inl (TE.CommitmentMismatch stored actual))
  else if stored =? 0 then
    if negb (self.(config).(version) =? 0) then Some (inl (TE.UnregisteredVersion self.(config).(version)))
    else match factory with
    | None => Some (inl TE.FactoryNotConfigured)
    | Some factory =>
        account_salt ← account_salt_validated self.(config);
        let expected := configurable_account_address factory account_salt in
        Some (if negb (expected =? self.(account)) then inl (TE.InitialAccountMismatch expected self.(account))
              else inr ())
    end
  else Some (inr ()).
End hashes.

(** ** Commitments in accounts

    [primitives/src/account/mod.rs]: the commitment in the extension of an account. *)

Definition COMMITMENT_FORMAT_TAG : N := 0.
Definition encode_config_commitment (hash : B256) : bytes :=
  if hash =? 0 then [] else [COMMITMENT_FORMAT_TAG] ++ word_bytes hash.
Definition decode_config_commitment (payload : bytes) (hardfork : TempoHardfork) : string + B256 :=
  match payload with
  | [] => inr 0
  | tag :: rest =>
      if negb (is_t14 hardfork) then inl "account commitment before T14"
      else if negb (tag =? COMMITMENT_FORMAT_TAG) then inl "unsupported account commitment format"
      else if negb (length rest =? 32)%nat then inl "tagged account commitment must be 33 bytes"
      else if from_be_slice rest =? 0 then inl "explicit zero account commitment"
      else inr (from_be_slice rest)
  end.

(** From T14 on the extension holds each commitment in exactly one form. *)
Lemma config_commitment_roundtrip hash payload sp :
  is_t14 sp = true → is_bytes payload → hash < 2 ^ 256 →
  decode_config_commitment payload sp = inr hash ↔ payload = encode_config_commitment hash.
Proof.
  intros Hsp Hp Hh. unfold decode_config_commitment, encode_config_commitment. rewrite Hsp. split.
  - destruct payload as [|t l]; [by intros [= <-]|]. apply Forall_cons in Hp as [_ Hl]. cbn [negb].
    destruct (N.eqb_spec t COMMITMENT_FORMAT_TAG) as [->|]; [|done]. destruct (Nat.eqb_spec (length l) 32) as [E|]; [|done].
    cbn [negb]. destruct (N.eqb_spec (from_be_slice l) 0) as [|Hn]; [done|]. intros [= <-].
    rewrite (proj2 (N.eqb_neq _ _) Hn). unfold word_bytes. by rewrite <- E, be_from_be_slice.
  - intros ->. destruct (N.eqb_spec hash 0) as [->|Hn]; [done|]. cbn [app negb]. rewrite N.eqb_refl.
    unfold word_bytes. rewrite be_bytes_length, from_be_bytes by done. cbn. by rewrite (proj2 (N.eqb_neq _ _) Hn).
Qed.

(** ** Valid configurations *)

Definition sum (l : list N) : N := foldr N.add 0 l.
Definition total_weight (l : list ConfigurableAccountOwner.t) : N := sum (map weight l).

(** A configuration is valid when its owners are in ascending order, have weights, and
    some of them, no more than may sign together, reach the threshold. *)
Record valid (c : ConfigurableAccountConfig.t) (account : option Address) : Prop := mkValid {
  valid_count : (1 ≤ length c.(owners) ≤ MAX_CONFIGURABLE_ACCOUNT_OWNERS)%nat;
  valid_threshold : 0 < c.(threshold);
  valid_owners o : o ∈ c.(owners) → o.(owner) ≠ 0;
  valid_not_self o : c.(version) = 0 → o ∈ c.(owners) → account ≠ Some o.(owner);
  valid_weights o : o ∈ c.(owners) → 0 < o.(weight);
  valid_order : StronglySorted N.lt (map owner c.(owners));
  valid_total : total_weight c.(owners) ≤ U8_MAX;
  valid_quorum : ∃ q, q `sublist_of` c.(owners) ∧ (length q ≤ MAX_CONFIGURABLE_ACCOUNT_SIGNATURES)%nat ∧
    c.(threshold) ≤ total_weight q
}.

Lemma sum_app l l' : sum (l ++ l') = sum l + sum l'.
Proof. induction l as [|x l IH]; cbn; [done|]. fold (sum (l ++ l')) (sum l). lia. Qed.
Lemma sum_perm l l' : l ≡ₚ l' → sum l = sum l'.
Proof. induction 1; cbn in *; unfold sum in *; lia. Qed.
Lemma sum_below l l' : (∀ x y, x ∈ l → y ∈ l' → x ≤ y) → (length l ≤ length l')%nat → sum l ≤ sum l'.
Proof.
  revert l'. induction l as [|x l IH]; intros [|y l'] Hxy Hl; cbn in *; [lia..|].
  fold (sum l) (sum l'). assert (x ≤ y) by (apply Hxy; left).
  assert (sum l ≤ sum l'); [|lia]. apply IH; [|lia]. intros a b Ha Hb. apply Hxy; by right.
Qed.

(** [top] holds the largest numbers of [all]. *)
Definition top (all t : list N) : Prop := ∃ rest, t ++ rest ≡ₚ all ∧ ∀ x y, x ∈ rest → y ∈ t → x ≤ y.
Lemma top_sum all t s : top all t → s ⊆+ all → (length s ≤ length t)%nat → sum s ≤ sum t.
Proof.
  intros (rest & Hall & Hle) Hs Hl. rewrite <- Hall in Hs.
  apply submseteq_app_r in Hs as (s1 & s2 & Es & H1 & H2). apply submseteq_Permutation in H1 as [t' Ht].
  rewrite (sum_perm _ _ Es), (sum_perm _ _ Ht), !sum_app. rewrite Es, Ht, !length_app in Hl. apply N.add_le_mono_l, sum_below; [|lia].
  intros x y Hx Hy. apply Hle; [by eapply elem_of_submseteq|]. rewrite Ht. apply elem_of_app. by right.
Qed.

#[local] Instance N_le_total : Total N.le.
Proof. intros x y. lia. Qed.
Lemma keep_largest_ok all t w :
  top all t → StronglySorted N.le t → t ≠ [] →
  top (w :: all) (keep_largest t w) ∧ StronglySorted N.le (keep_largest t w) ∧ length (keep_largest t w) = length t.
Proof.
  intros (rest & Hall & Hle) Hs Hne. destruct t as [|x t]; [done|]. unfold keep_largest.
  apply StronglySorted_inv in Hs as Hs'. destruct Hs' as [_ Hx]. rewrite Forall_forall in Hx.
  destruct (N.ltb_spec x w) as [Hw|Hw].
  - pose proof (merge_sort_Permutation N.le (w :: t)) as Hp.
    split_and!; [|apply StronglySorted_merge_sort; apply _|by rewrite Hp].
    exists (x :: rest). split; [rewrite Hp, <- Hall; solve_Permutation|].
    intros a b Ha. rewrite Hp, elem_of_cons. intros [->|Hb].
    + apply elem_of_cons in Ha as [->|Ha]; [lia|]. pose proof (Hle a x Ha (list_elem_of_here _ _)). lia.
    + apply elem_of_cons in Ha as [->|Ha]; [by apply Hx|]. apply Hle; [done|by right].
  - split_and!; [|done..]. exists (w :: rest). split; [rewrite <- Hall; solve_Permutation|].
    intros a b [->|Ha]%elem_of_cons Hb; [|by apply Hle].
    apply elem_of_cons in Hb as [->|Hb]; [done|]. specialize (Hx b Hb). cbn in Hx. lia.
Qed.
Lemma keep_largest_all all t l :
  top all t → StronglySorted N.le t → t ≠ [] →
  top (l ++ all) (foldl keep_largest t l) ∧ length (foldl keep_largest t l) = length t.
Proof.
  revert all t. induction l as [|w l IH]; intros all t Ht Hs Hne; [done|]. cbn [foldl].
  destruct (keep_largest_ok all t w Ht Hs Hne) as (Ht' & Hs' & Hl').
  destruct (IH (w :: all) (keep_largest t w) Ht' Hs') as [(rest & Hp & Hle) Hl].
  { intros E. rewrite E in Hl'. by destruct t. }
  split; [|by rewrite Hl]. exists rest. split; [|done]. rewrite Hp. cbn. solve_Permutation.
Qed.

Lemma sublist_map_inv {A B} (f : A → B) l k : k `sublist_of` map f l → ∃ l', l' `sublist_of` l ∧ map f l' = k.
Proof.
  revert k. induction l as [|x l IH]; intros k Hk; cbn in Hk.
  - apply sublist_nil_r in Hk as ->. by exists [].
  - apply sublist_cons_r in Hk as [Hk|(k' & -> & Hk)]; apply IH in Hk as (l' & Hl' & <-).
    + exists l'. split; [by constructor|done].
    + exists (x :: l'). split; [by constructor|done].
Qed.

Lemma zeros_sorted n : StronglySorted N.le (replicate n 0).
Proof. induction n as [|n IH]; cbn; constructor; [done|]. by apply Forall_replicate. Qed.
Lemma sum_zeros n l : l ⊆+ replicate n 0 → sum l = 0.
Proof.
  intros Hl. assert (∀ x, x ∈ l → x = 0) as Hz.
  { intros x Hx. eapply elem_of_submseteq in Hx; [|exact Hl]. by apply elem_of_replicate in Hx as [-> _]. }
  clear Hl. induction l as [|x l IH]; [done|]. cbn. fold (sum l). rewrite IH by (intros; apply Hz; by right).
  rewrite (Hz x); [done|left].
Qed.

(** The eight largest weights are the most that eight owners reach together. *)
Lemma reachable_spec l n :
  n ≤ reachable_weight l ↔
  ∃ q, q `sublist_of` l ∧ (length q ≤ MAX_CONFIGURABLE_ACCOUNT_SIGNATURES)%nat ∧ n ≤ total_weight q.
Proof.
  pose (z := replicate MAX_CONFIGURABLE_ACCOUNT_SIGNATURES 0).
  destruct (keep_largest_all z z (map weight l)) as [Ht Hl].
  { exists []. split; [by rewrite app_nil_r|]. intros x y Hx. by apply not_elem_of_nil in Hx. }
  { apply zeros_sorted. }
  { done. }
  unfold reachable_weight. fold z. change (foldr N.add 0) with sum.
  set (t := foldl keep_largest z (map weight l)) in *. split.
  - intros Hn. destruct Ht as (rest & Hp & _).
    assert (t ⊆+ map weight l ++ z) as Hs by (rewrite <- Hp; by apply submseteq_inserts_r).
    apply submseteq_app_r in Hs as (s1 & s2 & Et & H1 & H2). apply submseteq_sublist_r in H1 as (k & Hk & H1).
    apply sublist_map_inv in H1 as (q & Hq & <-). exists q. split; [done|].
    apply sum_zeros in H2. rewrite (sum_perm _ _ Et), sum_app, H2, N.add_0_r, (sum_perm _ _ Hk) in Hn. split; [|done].
    apply Permutation_length in Hk. rewrite length_map in Hk. rewrite <- Hk.
    rewrite Et, length_app in Hl. unfold z in Hl. rewrite length_replicate in Hl. lia.
  - intros (q & Hq & Hlq & Hn). etrans; [exact Hn|]. eapply top_sum; [exact Ht| |].
    + apply submseteq_inserts_r, sublist_submseteq. by apply (fmap_sublist weight).
    + unfold z in Hl. rewrite length_map, Hl. by rewrite length_replicate.
Qed.

Lemma check_owners_None v account l :
  check_owners v account l = None ↔
  ∀ o, o ∈ l → o.(owner) ≠ 0 ∧ (v = 0 → account ≠ Some o.(owner)).
Proof.
  induction l as [|o l IH]; cbn; [split; [intros _ o Ho; by apply not_elem_of_nil in Ho|done]|].
  destruct (N.eqb_spec o.(owner) 0) as [E|E].
  { split; [done|]. intros H. destruct (H o) as [[] _]; [left|done]. }
  destruct (N.eqb_spec v 0) as [->|Hv]; [case_bool_decide as Ha|]; cbn.
  - split; [done|]. intros H. destruct (H o) as [_ []]; [left|done..].
  - rewrite IH. split; [intros H o' [->|Ho']%elem_of_cons; [done|by apply H]|]. intros H o' Ho'. apply H. by right.
  - rewrite IH. split; [intros H o' [->|Ho']%elem_of_cons; [done|by apply H]|]. intros H o' Ho'. apply H. by right.
Qed.
Lemma out_of_order_false l : out_of_order l = false ↔ StronglySorted N.lt l.
Proof.
  transitivity (Sorted N.lt l).
  2:{ split; [apply Sorted_StronglySorted, _|apply StronglySorted_Sorted]. }
  induction l as [|x [|y l] IH]; [split; [constructor|done]|split; [repeat constructor|done]|].
  cbn [out_of_order]. rewrite orb_false_iff, IH, N.leb_gt. split.
  - intros [Hxy Hs]. constructor; [done|]. by constructor.
  - intros Hs. apply Sorted_inv in Hs as [Hs Hx%HdRel_inv]. done.
Qed.
Lemma add_weights_spec n l t : n ≤ U8_MAX → add_weights n l = Some t ↔ t = n + total_weight l ∧ t ≤ U8_MAX.
Proof.
  unfold total_weight. revert n. induction l as [|o l IH]; intros n Hn; cbn.
  { split; [intros [= <-]; lia|]. intros [-> _]. f_equal. lia. }
  fold (sum (map weight l)). destruct (checked_add _ n _) as [n'|] eqn:E; cbn.
  - apply checked_add_Some in E as [-> E]. rewrite IH by done. rewrite N.add_assoc. done.
  - split; [done|]. intros [-> Ht]. unfold checked_add in E.
    destruct (N.leb_spec (n + o.(weight)) U8_MAX); [done|]. unfold sum in *. lia.
Qed.
Lemma zero_weight_false l : existsb (λ o, o.(weight) =? 0) l = false ↔ ∀ o, o ∈ l → 0 < o.(weight).
Proof.
  rewrite <- not_true_iff_false, existsb_exists. setoid_rewrite N.eqb_eq. split.
  - intros H o Ho. destruct (N.eq_dec o.(weight) 0) as [E|]; [|lia]. destruct H. exists o. split; [by apply list_elem_of_In|done].
  - intros H (o & Ho & E). apply list_elem_of_In in Ho. specialize (H o Ho). lia.
Qed.

(** Validation accepts the valid configurations, and returns their total weight. *)
Lemma validate_spec c account n :
  validate_inner c account = inr n ↔ valid c account ∧ n = total_weight c.(owners).
Proof.
  unfold validate_inner. split.
  - case_bool_decide as H1; [done|]. destruct (Nat.ltb_spec MAX_CONFIGURABLE_ACCOUNT_OWNERS (length c.(owners))) as [|H2]; [done|].
    destruct (N.eqb_spec c.(threshold) 0) as [|H3]; [done|].
    destruct (check_owners _ _ _) eqn:H4; [done|]. rewrite check_owners_None in H4.
    destruct (existsb _ _) eqn:H5; [done|]. rewrite zero_weight_false in H5.
    destruct (out_of_order _) eqn:H6; [by destruct (repeated _ _)|]. rewrite out_of_order_false in H6.
    destruct (add_weights _ _) as [t|] eqn:H7; [|done]. apply add_weights_spec in H7 as [-> H7]; [|done].
    destruct (N.ltb_spec (reachable_weight c.(owners)) c.(threshold)) as [|H8]; [done|]. apply reachable_spec in H8.
    intros [= <-]. split; [|done]. split; [|lia|by intros o Ho; apply H4|intros o Hv Ho; by apply H4|done..].
    destruct c.(owners); [done|cbn in *; lia].
  - intros [[[H1 H1'] H2 H3 H4 H5 H6 H7 H8] ->]. rewrite bool_decide_eq_false_2 by (intros E; rewrite E in H1; cbn in H1; lia).
    rewrite (proj2 (Nat.ltb_ge _ _) H1'), (proj2 (N.eqb_neq _ _)) by lia.
    rewrite (proj2 (check_owners_None _ _ _)) by naive_solver. rewrite (proj2 (zero_weight_false _)) by done.
    rewrite (proj2 (out_of_order_false _)) by done. rewrite (proj2 (add_weights_spec 0 _ _ ltac:(done))) by done.
    rewrite (proj2 (N.ltb_ge _ _)); [done|]. by apply reachable_spec.
Qed.

(** ** Looking up owners *)

Lemma ascending_lookup l i j o o' :
  StronglySorted N.lt (map owner l) → l !! i = Some o → l !! j = Some o' → (i < j)%nat → o.(owner) < o'.(owner).
Proof.
  intros Hs Hi Hj Hij. rewrite <- (take_drop (S i) l), map_app in Hs. eapply StronglySorted_app_1_elem_of; [exact Hs|..].
  - apply (list_elem_of_fmap_2 owner), (list_elem_of_lookup_2 _ i). by rewrite lookup_take_lt by lia.
  - apply (list_elem_of_fmap_2 owner), (list_elem_of_lookup_2 _ (j - S i)). rewrite lookup_drop. by replace (S i + (j - S i))%nat with j by lia.
Qed.
Lemma ascending_inj l o o' :
  StronglySorted N.lt (map owner l) → o ∈ l → o' ∈ l → o.(owner) = o'.(owner) → o = o'.
Proof.
  intros Hs [i Hi]%list_elem_of_lookup [j Hj]%list_elem_of_lookup E.
  destruct (Nat.lt_total i j) as [Hij|[->|Hij]]; [|congruence|].
  - pose proof (ascending_lookup l i j o o' Hs Hi Hj Hij). lia.
  - pose proof (ascending_lookup l j i o' o Hs Hj Hi Hij). lia.
Qed.
Lemma search_finds fuel l i o base size :
  StronglySorted N.lt (map owner l) → l !! i = Some o → (base ≤ i < base + size)%nat →
  (base + size ≤ length l)%nat → (size ≤ fuel)%nat → search_from fuel l o.(owner) base size = i.
Proof.
  intros Hs Hi. revert base size. induction fuel as [|fuel IH]; intros base size Hb Hl Hf; [lia|]. cbn [search_from].
  destruct (Nat.leb_spec size 1); [lia|].
  pose proof (Nat.div_lt size 2 ltac:(lia) ltac:(lia)) as Hh. pose proof (Nat.div_str_pos size 2 ltac:(lia)) as Hh'.
  pose proof (Nat.Div0.mul_div_le size 2) as Hh2.
  destruct (lookup_lt_is_Some_2 l (base + size / 2)) as [m Hm]; [lia|]. rewrite Hm.
  destruct (N.ltb_spec o.(owner) m.(owner)) as [Hlt|Hge]; apply IH; try lia.
  - assert (¬ (base + size / 2 < i)%nat); [|assert (i ≠ (base + size / 2)%nat) by (intros ->; simplify_eq; lia); lia].
    intros Hlt'. pose proof (ascending_lookup l _ _ _ _ Hs Hm Hi Hlt'). lia.
  - assert (¬ (i < base + size / 2)%nat); [|lia]. intros Hlt'. pose proof (ascending_lookup l _ _ _ _ Hs Hi Hm Hlt'). lia.
Qed.
Lemma owner_weight_spec c a n :
  StronglySorted N.lt (map owner c.(owners)) →
  owner_weight c a = Some n ↔ ∃ o, o ∈ c.(owners) ∧ o.(owner) = a ∧ o.(weight) = n.
Proof.
  intros Hs. unfold owner_weight. split.
  - destruct (_ !! _) as [o|] eqn:E; [|done]. destruct (N.eqb_spec o.(owner) a); [|done]. intros [= <-].
    exists o. split; [by eapply list_elem_of_lookup_2|done].
  - intros (o & [i Hi]%list_elem_of_lookup & <- & <-). pose proof (lookup_lt_Some _ _ _ Hi).
    rewrite (search_finds _ _ i o) by (done || lia). by rewrite Hi, N.eqb_refl.
Qed.

(** ** Approvals *)

(** Owners that reach the threshold, the last of them not in vain. *)
Record quorum (c : ConfigurableAccountConfig.t) (q : list ConfigurableAccountOwner.t) : Prop := mkQuorum {
  quorum_owners : q `sublist_of` c.(owners);
  quorum_count : (1 ≤ length q ≤ MAX_CONFIGURABLE_ACCOUNT_SIGNATURES)%nat;
  quorum_weight : c.(threshold) ≤ total_weight q;
  quorum_minimal : total_weight (removelast q) < c.(threshold)
}.

Lemma total_weight_app l l' : total_weight (l ++ l') = total_weight l + total_weight l'.
Proof. unfold total_weight. by rewrite map_app, sum_app. Qed.
Lemma total_weight_cons o l : total_weight (o :: l) = o.(weight) + total_weight l.
Proof. done. Qed.
Lemma sublist_ascending q l : q `sublist_of` l → StronglySorted N.lt (map owner l) → StronglySorted N.lt (map owner q).
Proof.
  induction 1 as [|o q l Hq IH|o q l Hq IH]; cbn; [done| |]; intros [Hs Ho]%StronglySorted_inv; [|by apply IH].
  constructor; [by apply IH|]. rewrite Forall_forall in *. intros a Ha. apply Ho.
  eapply elem_of_submseteq; [exact Ha|]. apply sublist_submseteq. by apply (fmap_sublist owner).
Qed.
Lemma ascending_sublist q l :
  StronglySorted N.lt (map owner q) → StronglySorted N.lt (map owner l) → (∀ o, o ∈ q → o ∈ l) → q `sublist_of` l.
Proof.
  revert q. induction l as [|x l IH]; intros q Hq Hl Hin.
  { destruct q as [|o q]; [constructor|]. destruct (not_elem_of_nil o). apply Hin. left. }
  destruct q as [|o q]; [apply sublist_nil_l|]. cbn in Hq, Hl.
  pose proof Hq as Hq0. apply StronglySorted_inv in Hq as [Hq' Ho]. apply StronglySorted_inv in Hl as [Hl' Hx]. rewrite Forall_forall in Ho, Hx.
  assert (∀ y, y ∈ q → y ∈ l ∨ y = x) as Hin'.
  { intros y Hy. assert (y ∈ x :: l) as [->|]%elem_of_cons by (apply Hin; by right); auto. }
  assert (o ∈ x :: l) as [->|Hox]%elem_of_cons by (apply Hin; left).
  - constructor. apply IH; [done..|]. intros y Hy. destruct (Hin' y Hy) as [| ->]; [done|].
    specialize (Ho _ (list_elem_of_fmap_2 owner _ _ Hy)). lia.
  - constructor. apply IH; [done..|]. intros y [->|Hy]%elem_of_cons; [done|]. destruct (Hin' y Hy) as [| ->]; [done|].
    specialize (Ho _ (list_elem_of_fmap_2 owner _ _ Hy)). specialize (Hx _ (list_elem_of_fmap_2 owner _ _ Hox)). lia.
Qed.

Section approvals.
Context (C : Crypto) (c : ConfigurableAccountConfig.t) (d : B256) (account : option Address) (Hc : valid c account).
Abbreviation recover := (λ s, Signatures.recover_signer C s d).

(** Recording a signer succeeds for the owners in order, up to the threshold. *)
Lemma record_owner_spec acc a n acc' :
  recovered_weight acc < acc.(acc_threshold) → 0 < n →
  record_owner acc a n = inr acc' ↔
  (signer_count acc < MAX_CONFIGURABLE_ACCOUNT_SIGNATURES)%nat ∧
  (∀ p, prev_owner acc = Some p → p < a) ∧
  acc' = mkAccumulator acc.(acc_threshold) (Some a) (recovered_weight acc + n) (signer_count acc + 1).
Proof.
  intros Hr Hn. unfold record_owner, has_quorum. rewrite (proj2 (N.leb_gt _ _) Hr), andb_false_r.
  rewrite (proj2 (N.eqb_neq _ _)) by lia.
  destruct (Nat.ltb_spec MAX_CONFIGURABLE_ACCOUNT_SIGNATURES (signer_count acc + 1)); [split; [done|lia]|].
  destruct (prev_owner acc) as [p|]; [destruct (N.leb_spec a p)|].
  - split; [done|]. intros (_ & Hp & _). specialize (Hp p eq_refl). lia.
  - split; [intros [= <-]; split_and!; [lia|by intros ? [= <-]|done]|]. by intros (_ & _ & ->).
  - split; [intros [= <-]; split_and!; [lia|done|done]|]. by intros (_ & _ & ->).
Qed.

Abbreviation recorded acc o :=
  (mkAccumulator acc.(acc_threshold) (Some o.(owner)) (recovered_weight acc + o.(weight)) (signer_count acc + 1)).
Lemma approve_cons i acc s l acc' :
  acc.(acc_threshold) = c.(threshold) → recovered_weight acc < c.(threshold) →
  approve C c d i acc (s :: l) = inr acc' ↔
  ∃ o, recover s = Some o.(owner) ∧ o ∈ c.(owners) ∧ (signer_count acc < MAX_CONFIGURABLE_ACCOUNT_SIGNATURES)%nat ∧
    (∀ p, prev_owner acc = Some p → p < o.(owner)) ∧ (l = [] ∨ recovered_weight acc + o.(weight) < c.(threshold)) ∧
    approve C c d (S i) (recorded acc o) l = inr acc'.
Proof.
  intros Ht Hr. pose proof (valid_order _ _ Hc) as Ho. cbn [approve]. split.
  - destruct (Signatures.recover_signer _ _ _) as [a|]; [|done].
    destruct (owner_weight c a) as [n|] eqn:Hn; [|done]. apply owner_weight_spec in Hn as (o & Ho' & <- & <-); [|done].
    destruct (record_owner _ _ _) as [|acc1] eqn:H1; [done|].
    apply record_owner_spec in H1 as (Hk & Hp & ->); [|by rewrite Ht|by eapply valid_weights].
    destruct (has_quorum _ && _) eqn:Hq; [done|]. intros Ha. exists o. split_and!; [done..| |done].
    unfold has_quorum in Hq; cbn [recovered_weight signer_count acc_threshold] in Hq. apply andb_false_iff in Hq as [[Hq|Hq]%andb_false_iff|Hq%bool_decide_eq_false].
    + apply Nat.ltb_ge in Hq. lia.
    + right. apply N.leb_gt in Hq. lia.
    + left. by apply dec_stable.
  - intros (o & -> & Ho' & Hk & Hp & Hl & Ha). rewrite (proj2 (owner_weight_spec c o.(owner) o.(weight) Ho)) by eauto.
    rewrite (proj2 (record_owner_spec acc o.(owner) o.(weight) (recorded acc o) ltac:(by rewrite Ht) ltac:(by eapply valid_weights))) by done.
    unfold has_quorum at 1. cbn [recovered_weight signer_count acc_threshold].
    destruct Hl as [->|Hl]; [by rewrite bool_decide_eq_false_2, andb_false_r by naive_solver|].
    by rewrite (proj2 (N.leb_gt _ _)), andb_false_r by lia.
Qed.

Definition approved (acc : Accumulator) (l : list Signatures.PrimitiveSignature) (q : list ConfigurableAccountOwner.t) : Prop :=
  mapM recover l = Some (map owner q) ∧ (∀ o, o ∈ q → o ∈ c.(owners)) ∧
  StronglySorted N.lt (map owner q) ∧ (∀ p o, prev_owner acc = Some p → o ∈ q → p < o.(owner)) ∧
  (signer_count acc + length q ≤ MAX_CONFIGURABLE_ACCOUNT_SIGNATURES)%nat ∧
  c.(threshold) ≤ recovered_weight acc + total_weight q ∧
  recovered_weight acc + total_weight (removelast q) < c.(threshold).

Lemma finish_spec acc : (0 < signer_count acc)%nat → finish acc = inr () ↔ acc.(acc_threshold) ≤ recovered_weight acc.
Proof.
  intros Hk. unfold finish. rewrite bool_decide_eq_false_2 by lia.
  destruct (N.ltb_spec (recovered_weight acc) acc.(acc_threshold)); split; done || lia.
Qed.

Lemma approve_sound l i acc acc' :
  l ≠ [] → acc.(acc_threshold) = c.(threshold) → recovered_weight acc < c.(threshold) →
  approve C c d i acc l = inr acc' → finish acc' = inr () → ∃ q, approved acc l q.
Proof.
  revert i acc. induction l as [|s l IH]; intros i acc Hne Ht Hr Ha Hf; [done|].
  apply approve_cons in Ha as (o & Hs & Ho & Hk & Hp & Hl & Ha); [|done..]. destruct l as [|s' l].
  - injection Ha as <-. apply finish_spec in Hf; [|cbn; lia]. cbn in Hf. exists [o]. split_and!.
    + cbn. by rewrite Hs.
    + by intros o' ->%list_elem_of_singleton.
    + repeat constructor.
    + intros p o' Hp' ->%list_elem_of_singleton. by apply Hp.
    + cbn. lia.
    + rewrite total_weight_cons. unfold total_weight; cbn. lia.
    + unfold total_weight; cbn. lia.
  - destruct Hl as [|Hl]; [done|]. destruct (IH (S i) (recorded acc o)) as (q & Hm & Hin & Hs' & Hp' & Hk' & Hw & Hw'); [done..|].
    cbn in Hp', Hk', Hw, Hw'. assert (q ≠ []) as Hq by (intros ->; unfold total_weight in *; cbn in *; lia).
    exists (o :: q). split_and!.
    + apply mapM_Some. constructor; [done|]. by apply mapM_Some.
    + intros o' [->|Ho']%elem_of_cons; [done|]. by apply Hin.
    + constructor; [done|]. apply Forall_forall. intros a (o' & -> & Ho')%list_elem_of_fmap. by eapply Hp'.
    + intros p o' Hpo [->|Ho']%elem_of_cons; [by apply Hp|]. etrans; [by apply Hp|]. by eapply Hp'.
    + cbn. lia.
    + rewrite total_weight_cons. lia.
    + destruct q as [|o' q]; [done|]. change (removelast (o :: o' :: q)) with (o :: removelast (o' :: q)). rewrite total_weight_cons. lia.
Qed.
Lemma approve_complete l i acc q :
  l ≠ [] → acc.(acc_threshold) = c.(threshold) → recovered_weight acc < c.(threshold) →
  approved acc l q → ∃ acc', approve C c d i acc l = inr acc' ∧ finish acc' = inr ().
Proof.
  revert i acc q. induction l as [|s l IH]; intros i acc q Hne Ht Hr (Hm & Hin & Hs & Hp & Hk & Hw & Hw'); [done|].
  apply mapM_Some in Hm. destruct q as [|o q]; [by apply Forall2_nil_inv_r in Hm|]. cbn in Hm.
  apply Forall2_cons in Hm as [Hso Hm%mapM_Some]. cbn in Hk. rewrite total_weight_cons in Hw.
  assert (∀ acc', approve C c d (S i) (recorded acc o) l = inr acc' → l = [] ∨ recovered_weight acc + o.(weight) < c.(threshold) →
            approve C c d i acc (s :: l) = inr acc') as Hgo.
  { intros acc' Ha Hl. apply approve_cons; [done..|]. exists o. split_and!; [done|apply Hin; left|lia| |done..].
    intros p Hpp. apply (Hp p o Hpp). left. }
  destruct l as [|s' l].
  - destruct q; [|done]. exists (recorded acc o). split; [apply Hgo; [done|by left]|]. apply finish_spec; [cbn; lia|].
    cbn. unfold total_weight in Hw; cbn in Hw. lia.
  - destruct q as [|o' q]; [by apply mapM_Some, Forall2_nil_inv_r in Hm|].
    change (removelast (o :: o' :: q)) with (o :: removelast (o' :: q)) in Hw'. rewrite total_weight_cons in Hw'.
    apply StronglySorted_inv in Hs as [Hs Ho]. rewrite Forall_forall in Ho.
    destruct (IH (S i) (recorded acc o) (o' :: q)) as (acc' & Ha & Hf); [done|done|cbn; lia| |].
    + split_and!; cbn [recovered_weight signer_count prev_owner]; [done| |done| |lia..].
      * intros x Hx. apply Hin. by right.
      * intros p x [= <-] Hx. exact (Ho _ (list_elem_of_fmap_2 owner (o' :: q) x Hx)).
    + exists acc'. split; [|done]. apply Hgo; [done|]. right. lia.
Qed.
End approvals.

(** A valid configuration has owners who may act for the account: no account is locked
    by its configuration. *)
Lemma valid_has_quorum c account : valid c account → ∃ q, quorum c q.
Proof.
  intros Hc. destruct (valid_quorum _ _ Hc) as (q & Hq & Hl & Hw). pose proof (valid_threshold _ _ Hc) as Ht.
  revert Hq Hl Hw. induction q as [|o q IH] using rev_ind; intros Hq Hl Hw; [unfold total_weight in Hw; cbn in Hw; lia|].
  destruct (N.lt_ge_cases (total_weight q) c.(threshold)) as [Hlt|Hge].
  - exists (q ++ [o]). split; [done| |done|by rewrite removelast_last]. rewrite length_app in *. cbn in *. lia.
  - apply IH; [|rewrite length_app in Hl; lia|done]. etrans; [|exact Hq]. by apply sublist_inserts_r.
Qed.

(** C18: Validation accepts exactly the valid configurations: owners in ascending order, none of
    them zero or, at first, the account itself, all with a weight, and some of them, no more
    than may sign together, reaching the threshold. So the owners of an accepted
    configuration have a quorum, and no configuration locks its account. *)
Theorem valid_config_accepted c account n :
  (validate_inner c account = inr n ↔ valid c account ∧ n = total_weight c.(owners)) ∧
  (valid c account → ∃ q, quorum c q).
Proof. split; [apply validate_spec|apply valid_has_quorum]. Qed.

Lemma try_new_inv account c sigs s :
  try_new account c sigs = inr s →
  s = AccountSig account c sigs ∧ valid c (Some account) ∧ account ≠ 0 ∧
  (1 ≤ length sigs ≤ MAX_CONFIGURABLE_ACCOUNT_SIGNATURES)%nat.
Proof.
  unfold try_new, validate_shape. cbn [AccountConfig.account config signatures]. destruct (N.eqb_spec account 0); [done|].
  destruct (validate_for_account c account) as [|n'] eqn:Hv; [done|]. apply validate_spec in Hv as [Hv _].
  case_bool_decide; [done|]. destruct (Nat.ltb_spec MAX_CONFIGURABLE_ACCOUNT_SIGNATURES (length sigs)); [done|].
  destruct (existsb _ _); [done|]. intros [= <-]. split_and!; [done..| |done]. destruct sigs; [done|cbn; lia].
Qed.

(** C15: Approvals are accepted exactly when their signers are a quorum of the owners, each
    signing once, in ascending order, together reaching the threshold, and none of them
    after it was reached. *)
Theorem approvals_are_quorum C keccak account c sigs s inner :
  try_new account c sigs = inr s →
  verify_approvals C keccak s inner = inr () ↔
  ∃ q, quorum c q ∧
    mapM (λ x, Signatures.recover_signer C x (digest keccak s inner)) sigs = Some (map owner q).
Proof.
  intros (-> & Hc & _ & Hl)%try_new_inv. unfold verify_approvals, new_accumulator. cbn [config signatures].
  pose proof (valid_threshold _ _ Hc) as Ht. rewrite (proj2 (N.eqb_neq _ _)) by lia.
  set (acc := mkAccumulator _ _ _ _). set (d := digest _ _ _). assert (sigs ≠ []) by (intros ->; cbn in *; lia).
  pose proof (valid_order _ _ Hc) as Ho. split.
  - destruct (approve C c d 0 acc sigs) as [|acc'] eqn:Ha; [done|]. intros Hf.
    destruct (approve_sound C c d _ Hc _ _ acc _ ltac:(done) eq_refl ltac:(done) Ha Hf) as (q & Hm & Hin & Hs & _ & Hk & Hw & Hw').
    exists q. split; [|done]. split; [by apply ascending_sublist| |done..].
    apply length_mapM in Hm. rewrite length_map in Hm. cbn in Hk. lia.
  - intros (q & [Hq Hk Hw Hw'] & Hm).
    destruct (approve_complete C c d _ Hc sigs 0 acc q) as (acc' & -> & Hf); [done|done|done| |done].
    split_and!; cbn; [done| |by eapply sublist_ascending|done|lia|lia|lia].
    intros o Ho'. eapply elem_of_submseteq; [exact Ho'|]. by apply sublist_submseteq.
Qed.

(** Three owners, two of whom reach the threshold of three. *)
Definition ex_owner (a n : N) : ConfigurableAccountOwner.t := ConfigurableAccountOwner.mk a n.
Definition ex_config : ConfigurableAccountConfig.t :=
  ConfigurableAccountConfig.mk 5 0 3 [ex_owner 11 1; ex_owner 12 2; ex_owner 13 4].
Definition ex_approval (a : Address) : Signatures.PrimitiveSignature :=
  Signatures.Secp256k1 (EcdsaSignature.mk a 1 false).
Lemma approvals_are_quorum_witness :
  let sigs := [ex_approval 11; ex_approval 12] in
  let s := AccountSig 99 ex_config sigs in
  try_new 99 ex_config sigs = inr s ∧ verify_approvals Signatures.example_crypto (λ _, 7) s 8 = inr ().
Proof.
  intros sigs s. assert (try_new 99 ex_config sigs = inr s) as Hs by (vm_compute; reflexivity). split; [exact Hs|].
  apply (proj2 (approvals_are_quorum Signatures.example_crypto (λ _, 7) 99 ex_config sigs s 8 Hs)).
  exists [ex_owner 11 1; ex_owner 12 2]. split; [|vm_compute; reflexivity].
  split; [repeat constructor|vm_compute; lia|vm_compute; discriminate|vm_compute; reflexivity].
Defined.

(** ** Encodings *)

Record in_range (c : ConfigurableAccountConfig.t) : Prop := mkRange {
  range_salt : c.(salt) < 2 ^ 256;
  range_version : c.(version) < 2 ^ 64;
  range_threshold : c.(threshold) < 256;
  range_owners o : o ∈ c.(owners) → o.(owner) < 2 ^ 160 ∧ o.(weight) < 256
}.

Lemma owner_set_inj l l' :
  length l = length l' →
  (∀ o, o ∈ l ++ l' → o.(owner) < 2 ^ 160 ∧ o.(weight) < 256) →
  flat_map (λ o, address_bytes o.(owner) ++ [o.(weight)]) l = flat_map (λ o, address_bytes o.(owner) ++ [o.(weight)]) l' →
  l = l'.
Proof.
  revert l'. induction l as [|o l IH]; intros [|o' l'] Hl Hr E; [done..|]. cbn in Hl, E.
  rewrite <- !app_assoc in E. apply app_inj_1 in E as [E1 E2]; [|unfold address_bytes; by rewrite !be_bytes_length].
  cbn in E2. injection E2 as E2 E3. apply IH in E3 as ->; [|lia|].
  - destruct (Hr o) as [Ho _]; [left|]. destruct (Hr o') as [Ho' _]; [apply elem_of_app; right; left|].
    apply be_bytes_inj in E1; [|done..]. f_equal. destruct o, o'; cbn in *; congruence.
  - intros x [Hx|Hx]%elem_of_app; apply Hr; [right; apply elem_of_app; by left|apply elem_of_app; right; by right].
Qed.
Lemma owner_part_inj c c' n n' :
  in_range c → in_range c' → n = N.of_nat (length c.(owners)) → n' = N.of_nat (length c'.(owners)) →
  append_owner_set c n = append_owner_set c' n' → c.(threshold) = c'.(threshold) ∧ c.(owners) = c'.(owners).
Proof.
  intros Hc Hc' -> ->. unfold append_owner_set. cbn. intros [= -> Hl E]. split; [done|].
  apply Nat2N.inj in Hl. apply owner_set_inj; [done| |done].
  intros o [Ho|Ho]%elem_of_app; [by apply Hc|by apply Hc'].
Qed.
Lemma encoded_owner_count_inv c n : encoded_owner_count c = inr n → n = N.of_nat (length c.(owners)).
Proof. unfold encoded_owner_count. case_match; [done|]. congruence. Qed.

(** Different configurations have different commitments: what is hashed determines the
    configuration. *)
Lemma commitment_preimage_inj c c' l :
  in_range c → in_range c' → commitment_preimage c = inr l → commitment_preimage c' = inr l → c = c'.
Proof.
  intros Hc Hc'. unfold commitment_preimage.
  destruct (encoded_owner_count c) as [|n] eqn:Hn; [done|]. destruct (encoded_owner_count c') as [|n'] eqn:Hn'; [done|].
  apply encoded_owner_count_inv in Hn, Hn'. intros <-%(inj inr) E%(inj inr). apply app_inv_head in E.
  apply app_inj_1 in E as [E1 E]; [|unfold word_bytes; by rewrite !be_bytes_length].
  apply app_inj_1 in E as [E2 E]; [|by rewrite !be_bytes_length].
  apply owner_part_inj in E as [E3 E4]; [|done..].
  apply be_bytes_inj in E1; [|apply Hc'|apply Hc]. apply be_bytes_inj in E2; [|apply Hc'|apply Hc].
  destruct c, c'; cbn in *; congruence.
Qed.
(** The address of an account is derived from everything but the version. *)
Lemma account_salt_preimage_inj c c' l :
  in_range c → in_range c' → account_salt_preimage c = inr l → account_salt_preimage c' = inr l →
  c.(salt) = c'.(salt) ∧ c.(threshold) = c'.(threshold) ∧ c.(owners) = c'.(owners).
Proof.
  intros Hc Hc'. unfold account_salt_preimage.
  destruct (encoded_owner_count c) as [|n] eqn:Hn; [done|]. destruct (encoded_owner_count c') as [|n'] eqn:Hn'; [done|].
  apply encoded_owner_count_inv in Hn, Hn'. intros <-%(inj inr) E%(inj inr). apply app_inv_head in E.
  apply app_inj_1 in E as [E1 E]; [|unfold word_bytes; by rewrite !be_bytes_length].
  apply owner_part_inj in E as [E3 E4]; [|done..]. apply be_bytes_inj in E1; [|apply Hc'|apply Hc]. done.
Qed.
Lemma commitment_not_salt c c' l : commitment_preimage c = inr l → account_salt_preimage c' ≠ inr l.
Proof.
  unfold commitment_preimage, account_salt_preimage.
  destruct (encoded_owner_count c) as [|n]; [done|]. destruct (encoded_owner_count c') as [|n']; [done|].
  intros <-%(inj inr) E%(inj inr). apply (f_equal (λ l, l !! 27%nat)) in E. vm_compute in E. done.
Qed.

(** The announced lengths are the lengths. *)
Lemma owner_set_length c n : length (append_owner_set c n) = (2 + length c.(owners) * 21)%nat.
Proof.
  unfold append_owner_set. rewrite length_app. f_equal. induction c.(owners) as [|o l IH]; [done|]. cbn [flat_map].
  rewrite length_app, IH, length_app. unfold address_bytes. rewrite be_bytes_length. cbn [length]. lia.
Qed.
Lemma preimage_lengths c l l' :
  commitment_preimage c = inr l → account_salt_preimage c = inr l' →
  length l = commitment_preimage_len c ∧ length l' = account_salt_preimage_len c.
Proof.
  unfold commitment_preimage, account_salt_preimage, commitment_preimage_len, account_salt_preimage_len.
  destruct (encoded_owner_count c); [done|]. intros <-%(inj inr) <-%(inj inr).
  rewrite !length_app, owner_set_length. unfold word_bytes. rewrite !be_bytes_length. lia.
Qed.

(** Hashing a valid configuration does not panic. *)
Lemma valid_hashes keccak c account :
  valid c account → is_Some (commitment_validated keccak c) ∧ is_Some (account_salt_validated keccak c).
Proof.
  intros Hc. unfold commitment_validated, account_salt_validated, commitment_preimage, account_salt_preimage, encoded_owner_count.
  destruct (valid_count _ _ Hc) as [_ H]. by rewrite (proj2 (Nat.ltb_ge _ _) H).
Qed.
End AccountConfig.
