(* ===== verification/Errors.v ===== *)
(** * Errors and events

    The error enums of [crates/contracts/src/precompiles/*.rs] that the modelled
    precompiles raise, the top-level [TempoPrecompileError] of
    [crates/precompiles/src/error.rs], and the logs they emit. *)

From S2P Require Import Prelude AccountConfig.

Module TIP20Error.
Inductive t :=
| InsufficientBalance (available required : U256) (token : Address)
| InsufficientAllowance | SupplyCapExceeded | InvalidSupplyCap | InvalidPayload
| PolicyForbids | InvalidRecipient | ContractPaused | InvalidCurrency
| InvalidQuoteToken | InvalidAmount | NoOptedInSupply | Unauthorized
| ProtectedAddress | InvalidToken | Uninitialized | InvalidTransferPolicyId
| PermitExpired | InvalidSignature | LogoURITooLong | InvalidLogoURI
| RootKeyRetired (account : Address).
End TIP20Error.

Module TIP20FactoryError.
Inductive t :=
| AddressReserved | AddressNotReserved | InvalidQuoteToken
| TokenAlreadyExists (token : Address).
End TIP20FactoryError.

Module RolesAuthError.
Inductive t := Unauthorized.
End RolesAuthError.

Module AddrRegistryError.
Inductive t :=
| MasterIdCollision (master : Address) | InvalidMasterAddress
| ProofOfWorkFailed | VirtualAddressUnregistered.
End AddrRegistryError.

Module TIP403RegistryError.
Inductive t :=
| Unauthorized | PolicyNotFound | PolicyNotSimple | InvalidPolicyType
| IncompatiblePolicyType | VirtualAddressNotAllowed | InvalidReceivePolicyType
| InvalidRecoveryAuthority.
End TIP403RegistryError.

Module FeeManagerError.
Inductive t := InvalidToken | InsufficientFeeTokenBalance | CannotChangeWithinBlock.
End FeeManagerError.

Module TIPFeeAMMError.
Inductive t :=
| IdenticalAddresses | InvalidToken | InsufficientLiquidity | InsufficientReserves
| InvalidAmount | DivisionByZero | InvalidSwapCalculation.
End TIPFeeAMMError.

Module NonceError.
Inductive t :=
| ProtocolNonceNotSupported | InvalidNonceKey | NonceOverflow
| ExpiringNonceReplay | ExpiringNonceSetFull | InvalidExpiringNonceExpiry.
End NonceError.

Module AccountKeychainError.
Inductive t :=
| UnauthorizedCaller | KeyAlreadyExists | KeyNotFound | KeyExpired
| SpendingLimitExceeded | InvalidSpendingLimit | InvalidSignatureType
| ZeroPublicKey | ExpiryInPast | KeyAlreadyRevoked
| SignatureTypeMismatch (expected actual : N)
| CallNotAllowed | InvalidCallScope | InvalidKeyId
| InvalidKeyAuthorizationWitness | KeyAuthorizationWitnessAlreadyBurned
| LegacyAuthorizeKeySelectorChanged (newSelector : N).
End AccountKeychainError.

Module ReceivePolicyGuardError.
Inductive t := InvalidReceipt | InvalidClaimAddress | UnauthorizedClaimer | AddressReserved.
End ReceivePolicyGuardError.

Module StablecoinDEXError.
Inductive t :=
| Unauthorized | PairDoesNotExist | PairAlreadyExists | OrderDoesNotExist
| IdenticalTokens | InvalidToken | TickOutOfBounds (tick : Z) | InvalidTick
| InvalidFlipTick | InsufficientBalance | InsufficientLiquidity | InsufficientOutput
| MaxInputExceeded | BelowMinimumOrderSize (amount : N) | InvalidBaseToken
| OrderNotStale | IndexAlreadySet.
End StablecoinDEXError.

Module TIP20ChannelReserveError.
Inductive t :=
| ChannelAlreadyExists | ChannelNotFound | NotPayer | NotPayeeOrOperator | InvalidPayee
| ZeroDeposit | ExpiringNonceHashNotSet | InvalidSignature | AmountExceedsDeposit
| AmountNotIncreasing | CaptureAmountInvalid | CloseNotReady | DepositOverflow
| RootKeyRetired (account : Address).
End TIP20ChannelReserveError.

Module SignatureVerifierError.
Inductive t := InvalidFormat | InvalidSignature.
End SignatureVerifierError.

Module ValidatorConfigError.
Inductive t :=
| Unauthorized | ValidatorAlreadyExists | ValidatorNotFound | InvalidPublicKey
| NotHostPort (field input backtrace : string) | NotIpPort (field input backtrace : string).
End ValidatorConfigError.

Module ValidatorConfigV2Error.
Inductive t :=
| AlreadyInitialized | IngressAlreadyExists (ingress : string) | EmptyV1ValidatorSet
| InvalidMigrationIndex | InvalidOwner | InvalidPublicKey | InvalidSignature
| InvalidSignatureFormat | InvalidValidatorAddress | MigrationNotComplete | NotInitialized
| NotIp (input backtrace : string) | NotIpPort (input backtrace : string)
| PublicKeyAlreadyExists | Unauthorized | AddressAlreadyHasValidator
| ValidatorAlreadyDeactivated | ValidatorNotFound.
End ValidatorConfigV2Error.

Module ConfigurableAccountError.
Inductive t :=
| InvalidAccount | InvalidConfig | InvalidThreshold | InvalidConfigurableAccountOwner | InvalidWeight
| TooManyOwners | DuplicateOwner | InvalidOwnerOrder | UnauthorizedConfigurableAccountCaller
| PrimitiveRootRequired | UpgradeMustBeOnlyCall | AccountAlreadyConfigurable | AccountHasCode.
End ConfigurableAccountError.

(** [alloy::sol_types::PanicKind], the members the precompiles raise. *)
Inductive PanicKind := UnderOverflow | DivisionByZero | ArrayOutOfBounds | EnumConversionError.

Inductive TempoPrecompileError :=
| StablecoinDEX (e : StablecoinDEXError.t)
| TIP20 (e : TIP20Error.t)
| TIP20Factory (e : TIP20FactoryError.t)
| RolesAuth (e : RolesAuthError.t)
| AddrRegistry (e : AddrRegistryError.t)
| TIP403Registry (e : TIP403RegistryError.t)
| FeeManager (e : FeeManagerError.t)
| TIPFeeAMM (e : TIPFeeAMMError.t)
| Nonce (e : NonceError.t)
| Panic (k : PanicKind)
| StorageDeltaUnderflow (current : U256)
| AccountKeychain (e : AccountKeychainError.t)
| ReceivePolicyGuard (e : ReceivePolicyGuardError.t)
| TIP20ChannelReserve (e : TIP20ChannelReserveError.t)
| SignatureVerifier (e : SignatureVerifierError.t)
| ValidatorConfig (e : ValidatorConfigError.t)
| ValidatorConfigV2 (e : ValidatorConfigV2Error.t)
| ConfigAccount (e : ConfigurableAccountError.t)
| OutOfGas
| StaticCallNotAllowed
| UnknownFunctionSelector (selector : N)
| Fatal (msg : string)
| InvalidConfigCommitmentWrite.

(** [TempoPrecompileError::under_overflow()]. *)
Definition under_overflow : TempoPrecompileError := Panic UnderOverflow.
Definition enum_conversion_error : TempoPrecompileError := Panic EnumConversionError.

Definition is_system_error (e : TempoPrecompileError) : bool :=
  match e with
  | OutOfGas | StaticCallNotAllowed | Fatal _ | Panic _ | StorageDeltaUnderflow _ => true
  | _ => false
  end.

Module TIP20Event.
Inductive t :=
| Transfer (from to : Address) (amount : U256)
| Approval (owner spender : Address) (amount : U256)
| Mint (to : Address) (amount : U256)
| Burn (from : Address) (amount : U256)
| BurnBlocked (from : Address) (amount : U256)
| BurnAt (burner from : Address) (amount : U256)
| TransferWithMemo (from to : Address) (amount : U256) (memo : B256)
| TransferPolicyUpdate (updater : Address) (newPolicyId : N)
| SupplyCapUpdate (updater : Address) (newSupplyCap : U256)
| PauseStateUpdate (updater : Address) (isPaused : bool)
| NextQuoteTokenSet (updater nextQuoteToken : Address)
| QuoteTokenUpdate (updater newQuoteToken : Address)
| RewardDistributed (funder : Address) (amount : U256)
| RewardRecipientSet (holder recipient : Address)
| LogoURIUpdated (updater : Address) (newLogoURI : string)
| RoleMembershipUpdated (role : B256) (account sender : Address) (hasRole : bool)
| RoleAdminUpdated (role newAdminRole : B256) (sender : Address).
End TIP20Event.

Module TIP403RegistryEvent.
Inductive t :=
| PolicyAdminUpdated (policyId : N) (updater admin : Address)
| PolicyCreated (policyId : N) (updater : Address) (policyType : N)
| WhitelistUpdated (policyId : N) (updater account : Address) (allowed : bool)
| BlacklistUpdated (policyId : N) (updater account : Address) (restricted : bool)
| CompoundPolicyCreated (policyId : N) (creator : Address)
    (senderPolicyId recipientPolicyId mintRecipientPolicyId : N)
| ReceivePolicyUpdated (account : Address) (senderPolicyId tokenFilterId : N)
    (recoveryAuthority : Address).
End TIP403RegistryEvent.

(** [IReceivePolicyGuard.ClaimReceiptV1]; [kind] is the [InboundKind] index. *)
Record ClaimReceiptV1 := {
  version : N; token : Address; recoveryAuthority : Address;
  originator : Address; recipient : Address; blockedAt : N; blockedNonce : N;
  blockedReason : N; kind : N; memo : B256
}.

Module ReceivePolicyGuardEvent.
Inductive t :=
| TransferBlocked (receipt : ClaimReceiptV1) (receiver : Address) (amount : U256)
| ReceiptClaimed (receipt : ClaimReceiptV1) (receiver caller to : Address) (amount : U256)
| ReceiptBurned (receipt : ClaimReceiptV1) (receiver caller : Address) (amount : U256).
End ReceivePolicyGuardEvent.

Module AccountKeychainEvent.
Inductive t :=
| KeyAuthorized (account publicKey : Address) (signatureType expiry : N)
| AdminKeyAuthorized (account publicKey : Address)
| KeyRevoked (account publicKey : Address)
| SpendingLimitUpdated (account publicKey token : Address) (newLimit : U256)
| AccessKeySpend (account publicKey token : Address) (amount remainingLimit : U256)
| KeyAuthorizationWitness (account : Address) (witness : B256)
| KeyAuthorizationWitnessBurned (account : Address) (witness : B256).
End AccountKeychainEvent.

Module FeeEvent.
Inductive t :=
| UserTokenSet (user token : Address)
| ValidatorTokenSet (validator token : Address)
| FeesDistributed (validator token : Address) (amount : U256)
| Mint (sender to userToken validatorToken : Address) (amountValidatorToken liquidity : U256)
| Burn (sender userToken validatorToken : Address)
    (amountUserToken amountValidatorToken liquidity : U256) (to : Address)
| RebalanceSwap (userToken validatorToken swapper : Address) (amountIn amountOut : U256).
End FeeEvent.

Module StablecoinDEXEvent.
Inductive t :=
| PairCreated (key : B256) (base quote : Address)
| OrderPlaced (orderId : N) (maker token : Address) (amount : N) (isBid : bool) (tick : Z)
    (isFlipOrder : bool) (flipTick : Z)
| OrderFilled (orderId : N) (maker taker : Address) (amountFilled : N) (partialFill : bool)
| OrderFlipped (orderId : N) (maker token : Address) (amount : N) (isBid : bool)
    (tick flipTick : Z)
| FlipFailed (orderId : N) (maker : Address) (reason : TempoPrecompileError)
| OrderCancelled (orderId : N).
End StablecoinDEXEvent.

(** [ChannelDescriptor] of [contracts/src/precompiles/tip20_channel_reserve.rs]. *)
Module ChannelDescriptor.
Record t := mk {
  payer : Address;
  payee : Address;
  operator : Address;
  token : Address;
  salt : B256;
  authorizedSigner : Address;
  expiringNonceHash : B256
}.
End ChannelDescriptor.

Module TIP20ChannelReserveEvent.
Inductive t :=
| ChannelOpened (channelId : B256) (descriptor : ChannelDescriptor.t) (deposit : N)
| Settled (channelId : B256) (payer payee : Address) (cumulativeAmount deltaPaid newSettled : N)
| TopUp (channelId : B256) (payer payee : Address) (additionalDeposit newDeposit : N)
| CloseRequested (channelId : B256) (payer payee : Address) (closeGraceEnd : U256)
| ChannelClosed (channelId : B256) (payer payee : Address) (settledToPayee refundedToPayer : N)
| CloseRequestCancelled (channelId : B256) (payer payee : Address).
End TIP20ChannelReserveEvent.

Module ValidatorConfigV2Event.
Inductive t :=
| ValidatorAdded (index : N) (validatorAddress : Address) (publicKey : B256)
    (ingress egress : string) (feeRecipient : Address)
| ValidatorDeactivated (index : N) (validatorAddress : Address)
| ValidatorRotated (index deactivatedIndex : N) (validatorAddress : Address)
    (oldPublicKey newPublicKey : B256) (ingress egress : string) (caller : Address)
| FeeRecipientUpdated (index : N) (feeRecipient caller : Address)
| IpAddressesUpdated (index : N) (ingress egress : string) (caller : Address)
| ValidatorOwnershipTransferred (index : N) (oldAddress newAddress caller : Address)
| OwnershipTransferred (oldOwner newOwner : Address)
| ValidatorMigrated (index : N) (validatorAddress : Address) (publicKey : B256)
| NetworkIdentityRotationEpochSet (previousEpoch nextEpoch : N)
| Initialized (height : N)
| SkippedValidatorMigration (index : N) (validatorAddress : Address) (publicKey : B256).
End ValidatorConfigV2Event.

Module ConfigurableAccountEvent.
Inductive t :=
| ConfigurableAccountConfigUpdated (account : Address) (salt : B256) (version threshold : N)
    (owners : list ConfigurableAccountOwner.t)
| AccountUpgraded (account : Address) (commitment salt : B256) (threshold : N)
    (owners : list ConfigurableAccountOwner.t).
End ConfigurableAccountEvent.

Inductive Event :=
| TIP20Ev (e : TIP20Event.t)
| TIP403Ev (e : TIP403RegistryEvent.t)
| GuardEv (e : ReceivePolicyGuardEvent.t)
| KeychainEv (e : AccountKeychainEvent.t)
| FeeEv (e : FeeEvent.t)
| DexEv (e : StablecoinDEXEvent.t)
| ReserveEv (e : TIP20ChannelReserveEvent.t)
| ValidatorsEv (e : ValidatorConfigV2Event.t)
| AccountEv (e : ConfigurableAccountEvent.t)
| MasterRegistered (masterId : N) (masterAddress : Address)
| NonceIncremented (account : Address) (nonceKey : U256) (newNonce : N)
| TokenCreated (token : Address) (name symbol currency : string)
    (quoteToken admin : Address) (salt : B256).
