(* ===== verification/DexState.v ===== *)
(** * Storage of the stablecoin DEX and of the storage credits

    The structs of [crates/precompiles/src/stablecoin_dex/] and
    [storage_credits/mod.rs]. Ticks are [i16] in the source and [Z] here. An order
    is stored in one of three layouts ([order/storage.rs]); the model keeps the
    struct of the layout, and [DexOrder.v] gives the words it occupies. *)

From S2P Require Import Prelude.


(** [Order] of [stablecoin_dex/order/mod.rs]. *)
Module Order.
Record t := mk {
  order_id : N;
  maker : Address;
  book_key : B256;
  is_bid : bool;
  tick : Z;
  amount : N;
  remaining : N;
  prev : N;
  next : N;
  is_flip : bool;
  flip_tick : Z
}.
Definition set_remaining (g : N → N) (s : t) : t :=
  mk s.(order_id) s.(maker) s.(book_key) s.(is_bid) s.(tick) s.(amount)
    (g s.(remaining)) s.(prev) s.(next) s.(is_flip) s.(flip_tick).
Definition set_prev (g : N → N) (s : t) : t :=
  mk s.(order_id) s.(maker) s.(book_key) s.(is_bid) s.(tick) s.(amount)
    s.(remaining) (g s.(prev)) s.(next) s.(is_flip) s.(flip_tick).
Definition set_next (g : N → N) (s : t) : t :=
  mk s.(order_id) s.(maker) s.(book_key) s.(is_bid) s.(tick) s.(amount)
    s.(remaining) s.(prev) (g s.(next)) s.(is_flip) s.(flip_tick).
#[global] Instance default_Order : Default t :=
  mk 0 0 0 false 0%Z 0 0 0 0 false 0%Z.
End Order.

(** [V1Order] of [stablecoin_dex/order/storage.rs]; the reserved bytes are zero and
    the version byte is that of the layout. *)
Module V1Order.
Record t := mk {
  maker : Address;
  metadata : N;
  tick : Z;
  flip_tick : Z;
  amount : N;
  remaining : N;
  prev : N;
  next : N;
  book_key : B256
}.
Definition set_remaining (g : N → N) (s : t) : t :=
  mk s.(maker) s.(metadata) s.(tick) s.(flip_tick) s.(amount) (g s.(remaining))
    s.(prev) s.(next) s.(book_key).
Definition set_prev (g : N → N) (s : t) : t :=
  mk s.(maker) s.(metadata) s.(tick) s.(flip_tick) s.(amount) s.(remaining)
    (g s.(prev)) s.(next) s.(book_key).
Definition set_next (g : N → N) (s : t) : t :=
  mk s.(maker) s.(metadata) s.(tick) s.(flip_tick) s.(amount) s.(remaining) s.(prev)
    (g s.(next)) s.(book_key).
End V1Order.

(** [V2Order] of [stablecoin_dex/order/storage.rs]. *)
Module V2Order.
Record t := mk {
  maker : Address;
  metadata : N;
  tick : Z;
  flip_tick : Z;
  book_index : N;
  amount : N;
  remaining : N;
  prev : N;
  next : N
}.
Definition set_remaining (g : N → N) (s : t) : t :=
  mk s.(maker) s.(metadata) s.(tick) s.(flip_tick) s.(book_index) s.(amount)
    (g s.(remaining)) s.(prev) s.(next).
Definition set_prev (g : N → N) (s : t) : t :=
  mk s.(maker) s.(metadata) s.(tick) s.(flip_tick) s.(book_index) s.(amount)
    s.(remaining) (g s.(prev)) s.(next).
Definition set_next (g : N → N) (s : t) : t :=
  mk s.(maker) s.(metadata) s.(tick) s.(flip_tick) s.(book_index) s.(amount)
    s.(remaining) s.(prev) (g s.(next)).
End V2Order.

(** An order record as stored: [OrderVersion] with the struct of that layout. An
    absent record is a legacy record of zeros. *)
Module OrderRecord.
Inductive t :=
| Legacy (o : Order.t)
| V1 (o : V1Order.t)
| V2 (o : V2Order.t).
#[global] Instance default_OrderRecord : Default t := Legacy dflt.
End OrderRecord.

(** [TickLevel] of [stablecoin_dex/orderbook.rs], with its [TickLevelLinks] inline. *)
Module TickLevel.
Record t := mk {
  head : N;
  tail : N;
  total_liquidity : N
}.
Definition set_head (g : N → N) (s : t) : t :=
  mk (g s.(head)) s.(tail) s.(total_liquidity).
Definition set_tail (g : N → N) (s : t) : t :=
  mk s.(head) (g s.(tail)) s.(total_liquidity).
Definition set_total_liquidity (g : N → N) (s : t) : t :=
  mk s.(head) s.(tail) (g s.(total_liquidity)).
#[global] Instance default_TickLevel : Default t :=
  mk 0 0 0.
End TickLevel.

(** [Orderbook] of [stablecoin_dex/orderbook.rs]. *)
Module Orderbook.
Record t := mk {
  base : Address;
  quote : Address;
  bids : gmap Z TickLevel.t;
  asks : gmap Z TickLevel.t;
  best_bid_tick : Z;
  best_ask_tick : Z;
  book_id : N;
  bid_bitmap : gmap Z U256;
  ask_bitmap : gmap Z U256
}.
Definition set_base (g : Address → Address) (s : t) : t :=
  mk (g s.(base)) s.(quote) s.(bids) s.(asks) s.(best_bid_tick) s.(best_ask_tick)
    s.(book_id) s.(bid_bitmap) s.(ask_bitmap).
Definition set_quote (g : Address → Address) (s : t) : t :=
  mk s.(base) (g s.(quote)) s.(bids) s.(asks) s.(best_bid_tick) s.(best_ask_tick)
    s.(book_id) s.(bid_bitmap) s.(ask_bitmap).
Definition set_bids (g : gmap Z TickLevel.t → gmap Z TickLevel.t) (s : t) : t :=
  mk s.(base) s.(quote) (g s.(bids)) s.(asks) s.(best_bid_tick) s.(best_ask_tick)
    s.(book_id) s.(bid_bitmap) s.(ask_bitmap).
Definition set_asks (g : gmap Z TickLevel.t → gmap Z TickLevel.t) (s : t) : t :=
  mk s.(base) s.(quote) s.(bids) (g s.(asks)) s.(best_bid_tick) s.(best_ask_tick)
    s.(book_id) s.(bid_bitmap) s.(ask_bitmap).
Definition set_best_bid_tick (g : Z → Z) (s : t) : t :=
  mk s.(base) s.(quote) s.(bids) s.(asks) (g s.(best_bid_tick)) s.(best_ask_tick)
    s.(book_id) s.(bid_bitmap) s.(ask_bitmap).
Definition set_best_ask_tick (g : Z → Z) (s : t) : t :=
  mk s.(base) s.(quote) s.(bids) s.(asks) s.(best_bid_tick) (g s.(best_ask_tick))
    s.(book_id) s.(bid_bitmap) s.(ask_bitmap).
Definition set_book_id (g : N → N) (s : t) : t :=
  mk s.(base) s.(quote) s.(bids) s.(asks) s.(best_bid_tick) s.(best_ask_tick)
    (g s.(book_id)) s.(bid_bitmap) s.(ask_bitmap).
Definition set_bid_bitmap (g : gmap Z U256 → gmap Z U256) (s : t) : t :=
  mk s.(base) s.(quote) s.(bids) s.(asks) s.(best_bid_tick) s.(best_ask_tick)
    s.(book_id) (g s.(bid_bitmap)) s.(ask_bitmap).
Definition set_ask_bitmap (g : gmap Z U256 → gmap Z U256) (s : t) : t :=
  mk s.(base) s.(quote) s.(bids) s.(asks) s.(best_bid_tick) s.(best_ask_tick)
    s.(book_id) s.(bid_bitmap) (g s.(ask_bitmap)).
#[global] Instance default_Orderbook : Default t :=
  mk 0 0 ∅ ∅ 0%Z 0%Z 0 ∅ ∅.
End Orderbook.

(** [StablecoinDEX] of [stablecoin_dex/mod.rs]; [balances] is keyed by user and token. *)
Module Dex.
Record State := mk {
  books : gmap B256 Orderbook.t;
  orders : gmap N OrderRecord.t;
  balances : gmap (Address * Address) N;
  next_order_id : N;
  book_keys : list B256;
  dex_storage_credits : gmap Address N
}.
Definition set_books (g : gmap B256 Orderbook.t → gmap B256 Orderbook.t) (s : State) : State :=
  mk (g s.(books)) s.(orders) s.(balances) s.(next_order_id) s.(book_keys)
    s.(dex_storage_credits).
Definition set_orders (g : gmap N OrderRecord.t → gmap N OrderRecord.t) (s : State) : State :=
  mk s.(books) (g s.(orders)) s.(balances) s.(next_order_id) s.(book_keys)
    s.(dex_storage_credits).
Definition set_balances (g : gmap (Address * Address) N → gmap (Address * Address) N) (s : State) : State :=
  mk s.(books) s.(orders) (g s.(balances)) s.(next_order_id) s.(book_keys)
    s.(dex_storage_credits).
Definition set_next_order_id (g : N → N) (s : State) : State :=
  mk s.(books) s.(orders) s.(balances) (g s.(next_order_id)) s.(book_keys)
    s.(dex_storage_credits).
Definition set_book_keys (g : list B256 → list B256) (s : State) : State :=
  mk s.(books) s.(orders) s.(balances) s.(next_order_id) (g s.(book_keys))
    s.(dex_storage_credits).
Definition set_dex_storage_credits (g : gmap Address N → gmap Address N) (s : State) : State :=
  mk s.(books) s.(orders) s.(balances) s.(next_order_id) s.(book_keys)
    (g s.(dex_storage_credits)).
#[global] Instance default_Dex : Default State :=
  mk ∅ ∅ ∅ 0 [] ∅.
End Dex.

(** [CreditMode] of [storage_credits/mod.rs]. *)
Inductive CreditMode := Refund | Preserve | Direct.
#[export] Instance CreditMode_eq_dec : EqDecision CreditMode.
Proof. solve_decision. Defined.

(** [TransientState] of [storage_credits/mod.rs]. *)
Module TransientState.
Record t := mk {
  mode : CreditMode;
  budget : N;
  pending_refunds : N
}.
#[global] Instance default_TransientState : Default t :=
  mk Refund 0 0.
End TransientState.

(** [StorageCredits] of [storage_credits/mod.rs]: the credit balance of an account is
    persistent, its mode, budget and pending refunds are transient storage. *)
Module StorageCreditsStorage.
Record State := mk {
  balances : gmap Address N;
  transient : gmap Address TransientState.t
}.
Definition set_balances (g : gmap Address N → gmap Address N) (s : State) : State :=
  mk (g s.(balances)) s.(transient).
Definition set_transient (g : gmap Address TransientState.t → gmap Address TransientState.t) (s : State) : State :=
  mk s.(balances) (g s.(transient)).
#[global] Instance default_StorageCreditsStorage : Default State :=
  mk ∅ ∅.
End StorageCreditsStorage.
