(* ===== verification/State.v ===== *)
(** * Storage of the precompiles

    One record per [#[contract]] struct, with the fields of the source. A
    [Mapping] is a finite map read through [sread]; a mapping of mappings is a
    map on pairs, except where sums over the inner mapping are needed. Slot
    layout and packing are below this level. [World] collects the storage of all
    contracts, the set of accounts that carry code, the account configuration
    commitments and the event log. *)

From S2P Require Import Prelude Hardfork Address Errors DexState.

(** [RecoveryMode] of [contracts/src/precompiles/receive_policy_guard.rs]'s user,
    [receive_policy_guard/mod.rs]. *)
Inductive RecoveryMode := Originator | Receiver | ThirdParty.

(** [NonceManager] of [nonce/mod.rs]. *)
Module NonceManager.
Record State := mk {
  nonces : gmap (Address * U256) N;
  expiring_nonce_seen : gmap B256 N;
  expiring_nonce_ring : gmap N B256;
  expiring_nonce_ring_ptr : N
}.
Definition set_nonces (g : gmap (Address * U256) N → gmap (Address * U256) N) (s : State) : State :=
  mk (g s.(nonces)) s.(expiring_nonce_seen) s.(expiring_nonce_ring)
    s.(expiring_nonce_ring_ptr).
Definition set_expiring_nonce_seen (g : gmap B256 N → gmap B256 N) (s : State) : State :=
  mk s.(nonces) (g s.(expiring_nonce_seen)) s.(expiring_nonce_ring)
    s.(expiring_nonce_ring_ptr).
Definition set_expiring_nonce_ring (g : gmap N B256 → gmap N B256) (s : State) : State :=
  mk s.(nonces) s.(expiring_nonce_seen) (g s.(expiring_nonce_ring))
    s.(expiring_nonce_ring_ptr).
Definition set_expiring_nonce_ring_ptr (g : N → N) (s : State) : State :=
  mk s.(nonces) s.(expiring_nonce_seen) s.(expiring_nonce_ring)
    (g s.(expiring_nonce_ring_ptr)).
#[global] Instance default_NonceManager : Default State :=
  mk ∅ ∅ ∅ 0.
End NonceManager.

(** [PolicyData] of [tip403_registry/mod.rs]; [policy_type] is the raw [u8]. *)
Module PolicyData.
Record t := mk {
  policy_type : N;
  admin : Address
}.
#[global] Instance default_PolicyData : Default t :=
  mk 0 0.
End PolicyData.

(** [CompoundPolicyData] of [tip403_registry/mod.rs]. *)
Module CompoundPolicyData.
Record t := mk {
  sender_policy_id : N;
  recipient_policy_id : N;
  mint_recipient_policy_id : N
}.
#[global] Instance default_CompoundPolicyData : Default t :=
  mk 0 0 0.
End CompoundPolicyData.

(** [PolicyRecord] of [tip403_registry/mod.rs]. *)
Module PolicyRecord.
Record t := mk {
  base : PolicyData.t;
  compound : CompoundPolicyData.t
}.
#[global] Instance default_PolicyRecord : Default t :=
  mk dflt dflt.
End PolicyRecord.

(** [ReceivePolicyConfig] of [tip403_registry/mod.rs]. *)
Module ReceivePolicyConfig.
Record t := mk {
  has_receive_policy : bool;
  sender_policy_id : N;
  sender_policy_type : N;
  token_filter_id : N;
  token_filter_type : N;
  recovery_mode : RecoveryMode
}.
#[global] Instance default_ReceivePolicyConfig : Default t :=
  mk false 0 0 0 0 Originator.
End ReceivePolicyConfig.

(** [ReceivePolicy] of [tip403_registry/mod.rs]. *)
Module ReceivePolicy.
Record t := mk {
  config : ReceivePolicyConfig.t;
  recovery_address : Address
}.
#[global] Instance default_ReceivePolicy : Default t :=
  mk dflt 0.
End ReceivePolicy.

(** [TokenTransferPolicy] of [tip403_registry/mod.rs]. *)
Module TokenTransferPolicy.
Record t := mk {
  policy_id : N;
  is_set : bool
}.
#[global] Instance default_TokenTransferPolicy : Default t :=
  mk 0 false.
End TokenTransferPolicy.

(** [TIP403Registry] of [tip403_registry/mod.rs]. *)
Module TIP403.
Record State := mk {
  policy_id_counter : N;
  policy_records : gmap N PolicyRecord.t;
  policy_set : gmap (N * Address) bool;
  receive_policies : gmap Address ReceivePolicy.t;
  token_transfer_policies : gmap Address TokenTransferPolicy.t
}.
Definition set_policy_id_counter (g : N → N) (s : State) : State :=
  mk (g s.(policy_id_counter)) s.(policy_records) s.(policy_set)
    s.(receive_policies) s.(token_transfer_policies).
Definition set_policy_records (g : gmap N PolicyRecord.t → gmap N PolicyRecord.t) (s : State) : State :=
  mk s.(policy_id_counter) (g s.(policy_records)) s.(policy_set)
    s.(receive_policies) s.(token_transfer_policies).
Definition set_policy_set (g : gmap (N * Address) bool → gmap (N * Address) bool) (s : State) : State :=
  mk s.(policy_id_counter) s.(policy_records) (g s.(policy_set))
    s.(receive_policies) s.(token_transfer_policies).
Definition set_receive_policies (g : gmap Address ReceivePolicy.t → gmap Address ReceivePolicy.t) (s : State) : State :=
  mk s.(policy_id_counter) s.(policy_records) s.(policy_set)
    (g s.(receive_policies)) s.(token_transfer_policies).
Definition set_token_transfer_policies (g : gmap Address TokenTransferPolicy.t → gmap Address TokenTransferPolicy.t) (s : State) : State :=
  mk s.(policy_id_counter) s.(policy_records) s.(policy_set) s.(receive_policies)
    (g s.(token_transfer_policies)).
#[global] Instance default_TIP403 : Default State :=
  mk 0 ∅ ∅ ∅ ∅.
End TIP403.

(** [AddressRegistry] of [address_registry/mod.rs]: only the master address of a
    [RegistryData] is ever written, its two reserved fields stay zero. *)
Module AddressRegistryStorage.
Record State := mk {
  data : gmap N Address
}.
Definition set_data (g : gmap N Address → gmap N Address) (s : State) : State :=
  mk (g s.(data)).
#[global] Instance default_AddressRegistryStorage : Default State :=
  mk ∅.
End AddressRegistryStorage.

(** [ReceivePolicyGuard] of [receive_policy_guard/mod.rs]. *)
Module Guard.
Record State := mk {
  nonce : N;
  balances : gmap B256 U256
}.
Definition set_nonce (g : N → N) (s : State) : State :=
  mk (g s.(nonce)) s.(balances).
Definition set_balances (g : gmap B256 U256 → gmap B256 U256) (s : State) : State :=
  mk s.(nonce) (g s.(balances)).
#[global] Instance default_Guard : Default State :=
  mk 0 ∅.
End Guard.

(** [AuthorizedKey] of [account_keychain/mod.rs]; [signature_type] is the
    [StoredSignatureType] index. *)
Module AuthorizedKey.
Record t := mk {
  signature_type : N;
  expiry : N;
  enforce_limits : bool;
  is_revoked : bool;
  is_admin : bool
}.
#[global] Instance default_AuthorizedKey : Default t :=
  mk 0 0 false false false.
End AuthorizedKey.

(** [SpendingLimitState] of [account_keychain/mod.rs]. *)
Module SpendingLimitState.
Record t := mk {
  remaining : U256;
  max : N;
  period : N;
  period_end : N
}.
#[global] Instance default_SpendingLimitState : Default t :=
  mk 0 0 0 0.
End SpendingLimitState.

(** [TargetScope] of [account_keychain/mod.rs]; a [SelectorScope] is its
    [recipients]. A [Set] is the list of its values in storage order. *)
Module TargetScope.
Record t := mk {
  selectors : list N;
  selector_scopes : gmap N (list Address)
}.
#[global] Instance default_TargetScope : Default t :=
  mk [] ∅.
End TargetScope.

(** [KeyScope] of [account_keychain/mod.rs]. *)
Module KeyScope.
Record t := mk {
  is_scoped : bool;
  targets : list Address;
  target_scopes : gmap Address TargetScope.t
}.
#[global] Instance default_KeyScope : Default t :=
  mk false [] ∅.
End KeyScope.

(** [AccountKeychain] of [account_keychain/mod.rs]; the last two fields are
    transient storage. *)
Module Keychain.
Record State := mk {
  keys : gmap (Address * Address) AuthorizedKey.t;
  spending_limits : gmap (B256 * Address) SpendingLimitState.t;
  key_scopes : gmap B256 KeyScope.t;
  key_authorization_witnesses : gmap (Address * B256) bool;
  transaction_key : Address;
  tx_origin : Address
}.
Definition set_keys (g : gmap (Address * Address) AuthorizedKey.t → gmap (Address * Address) AuthorizedKey.t) (s : State) : State :=
  mk (g s.(keys)) s.(spending_limits) s.(key_scopes)
    s.(key_authorization_witnesses) s.(transaction_key) s.(tx_origin).
Definition set_spending_limits (g : gmap (B256 * Address) SpendingLimitState.t → gmap (B256 * Address) SpendingLimitState.t) (s : State) : State :=
  mk s.(keys) (g s.(spending_limits)) s.(key_scopes)
    s.(key_authorization_witnesses) s.(transaction_key) s.(tx_origin).
Definition set_key_scopes (g : gmap B256 KeyScope.t → gmap B256 KeyScope.t) (s : State) : State :=
  mk s.(keys) s.(spending_limits) (g s.(key_scopes))
    s.(key_authorization_witnesses) s.(transaction_key) s.(tx_origin).
Definition set_key_authorization_witnesses (g : gmap (Address * B256) bool → gmap (Address * B256) bool) (s : State) : State :=
  mk s.(keys) s.(spending_limits) s.(key_scopes)
    (g s.(key_authorization_witnesses)) s.(transaction_key) s.(tx_origin).
Definition set_transaction_key (g : Address → Address) (s : State) : State :=
  mk s.(keys) s.(spending_limits) s.(key_scopes) s.(key_authorization_witnesses)
    (g s.(transaction_key)) s.(tx_origin).
Definition set_tx_origin (g : Address → Address) (s : State) : State :=
  mk s.(keys) s.(spending_limits) s.(key_scopes) s.(key_authorization_witnesses)
    s.(transaction_key) (g s.(tx_origin)).
#[global] Instance default_Keychain : Default State :=
  mk ∅ ∅ ∅ ∅ 0 0.
End Keychain.

(** [UserRewardInfo] of [tip20/rewards.rs]. *)
Module UserRewardInfo.
Record t := mk {
  reward_recipient : Address;
  reward_per_token : U256;
  reward_balance : U256
}.
#[global] Instance default_UserRewardInfo : Default t :=
  mk 0 0 0.
End UserRewardInfo.

(** [TIP20Token] of [tip20/mod.rs]. *)
Module TIP20Token.
Record State := mk {
  roles : gmap (Address * B256) bool;
  role_admins : gmap B256 B256;
  name : string;
  symbol : string;
  currency : string;
  logo_uri : string;
  quote_token : Address;
  next_quote_token : Address;
  transfer_policy_id : N;
  total_supply : U256;
  balances : gmap Address U256;
  allowances : gmap (Address * Address) U256;
  permit_nonces : gmap Address U256;
  paused : bool;
  supply_cap : U256;
  global_reward_per_token : U256;
  opted_in_supply : N;
  user_reward_info : gmap Address UserRewardInfo.t
}.
Definition set_roles (g : gmap (Address * B256) bool → gmap (Address * B256) bool) (s : State) : State :=
  mk (g s.(roles)) s.(role_admins) s.(name) s.(symbol) s.(currency) s.(logo_uri)
    s.(quote_token) s.(next_quote_token) s.(transfer_policy_id) s.(total_supply)
    s.(balances) s.(allowances) s.(permit_nonces) s.(paused) s.(supply_cap)
    s.(global_reward_per_token) s.(opted_in_supply) s.(user_reward_info).
Definition set_role_admins (g : gmap B256 B256 → gmap B256 B256) (s : State) : State :=
  mk s.(roles) (g s.(role_admins)) s.(name) s.(symbol) s.(currency) s.(logo_uri)
    s.(quote_token) s.(next_quote_token) s.(transfer_policy_id) s.(total_supply)
    s.(balances) s.(allowances) s.(permit_nonces) s.(paused) s.(supply_cap)
    s.(global_reward_per_token) s.(opted_in_supply) s.(user_reward_info).
Definition set_name (g : string → string) (s : State) : State :=
  mk s.(roles) s.(role_admins) (g s.(name)) s.(symbol) s.(currency) s.(logo_uri)
    s.(quote_token) s.(next_quote_token) s.(transfer_policy_id) s.(total_supply)
    s.(balances) s.(allowances) s.(permit_nonces) s.(paused) s.(supply_cap)
    s.(global_reward_per_token) s.(opted_in_supply) s.(user_reward_info).
Definition set_symbol (g : string → string) (s : State) : State :=
  mk s.(roles) s.(role_admins) s.(name) (g s.(symbol)) s.(currency) s.(logo_uri)
    s.(quote_token) s.(next_quote_token) s.(transfer_policy_id) s.(total_supply)
    s.(balances) s.(allowances) s.(permit_nonces) s.(paused) s.(supply_cap)
    s.(global_reward_per_token) s.(opted_in_supply) s.(user_reward_info).
Definition set_currency (g : string → string) (s : State) : State :=
  mk s.(roles) s.(role_admins) s.(name) s.(symbol) (g s.(currency)) s.(logo_uri)
    s.(quote_token) s.(next_quote_token) s.(transfer_policy_id) s.(total_supply)
    s.(balances) s.(allowances) s.(permit_nonces) s.(paused) s.(supply_cap)
    s.(global_reward_per_token) s.(opted_in_supply) s.(user_reward_info).
Definition set_logo_uri (g : string → string) (s : State) : State :=
  mk s.(roles) s.(role_admins) s.(name) s.(symbol) s.(currency) (g s.(logo_uri))
    s.(quote_token) s.(next_quote_token) s.(transfer_policy_id) s.(total_supply)
    s.(balances) s.(allowances) s.(permit_nonces) s.(paused) s.(supply_cap)
    s.(global_reward_per_token) s.(opted_in_supply) s.(user_reward_info).
Definition set_quote_token (g : Address → Address) (s : State) : State :=
  mk s.(roles) s.(role_admins) s.(name) s.(symbol) s.(currency) s.(logo_uri)
    (g s.(quote_token)) s.(next_quote_token) s.(transfer_policy_id)
    s.(total_supply) s.(balances) s.(allowances) s.(permit_nonces) s.(paused)
    s.(supply_cap) s.(global_reward_per_token) s.(opted_in_supply)
    s.(user_reward_info).
Definition set_next_quote_token (g : Address → Address) (s : State) : State :=
  mk s.(roles) s.(role_admins) s.(name) s.(symbol) s.(currency) s.(logo_uri)
    s.(quote_token) (g s.(next_quote_token)) s.(transfer_policy_id)
    s.(total_supply) s.(balances) s.(allowances) s.(permit_nonces) s.(paused)
    s.(supply_cap) s.(global_reward_per_token) s.(opted_in_supply)
    s.(user_reward_info).
Definition set_transfer_policy_id (g : N → N) (s : State) : State :=
  mk s.(roles) s.(role_admins) s.(name) s.(symbol) s.(currency) s.(logo_uri)
    s.(quote_token) s.(next_quote_token) (g s.(transfer_policy_id))
    s.(total_supply) s.(balances) s.(allowances) s.(permit_nonces) s.(paused)
    s.(supply_cap) s.(global_reward_per_token) s.(opted_in_supply)
    s.(user_reward_info).
Definition set_total_supply (g : U256 → U256) (s : State) : State :=
  mk s.(roles) s.(role_admins) s.(name) s.(symbol) s.(currency) s.(logo_uri)
    s.(quote_token) s.(next_quote_token) s.(transfer_policy_id)
    (g s.(total_supply)) s.(balances) s.(allowances) s.(permit_nonces) s.(paused)
    s.(supply_cap) s.(global_reward_per_token) s.(opted_in_supply)
    s.(user_reward_info).
Definition set_balances (g : gmap Address U256 → gmap Address U256) (s : State) : State :=
  mk s.(roles) s.(role_admins) s.(name) s.(symbol) s.(currency) s.(logo_uri)
    s.(quote_token) s.(next_quote_token) s.(transfer_policy_id) s.(total_supply)
    (g s.(balances)) s.(allowances) s.(permit_nonces) s.(paused) s.(supply_cap)
    s.(global_reward_per_token) s.(opted_in_supply) s.(user_reward_info).
Definition set_allowances (g : gmap (Address * Address) U256 → gmap (Address * Address) U256) (s : State) : State :=
  mk s.(roles) s.(role_admins) s.(name) s.(symbol) s.(currency) s.(logo_uri)
    s.(quote_token) s.(next_quote_token) s.(transfer_policy_id) s.(total_supply)
    s.(balances) (g s.(allowances)) s.(permit_nonces) s.(paused) s.(supply_cap)
    s.(global_reward_per_token) s.(opted_in_supply) s.(user_reward_info).
Definition set_permit_nonces (g : gmap Address U256 → gmap Address U256) (s : State) : State :=
  mk s.(roles) s.(role_admins) s.(name) s.(symbol) s.(currency) s.(logo_uri)
    s.(quote_token) s.(next_quote_token) s.(transfer_policy_id) s.(total_supply)
    s.(balances) s.(allowances) (g s.(permit_nonces)) s.(paused) s.(supply_cap)
    s.(global_reward_per_token) s.(opted_in_supply) s.(user_reward_info).
Definition set_paused (g : bool → bool) (s : State) : State :=
  mk s.(roles) s.(role_admins) s.(name) s.(symbol) s.(currency) s.(logo_uri)
    s.(quote_token) s.(next_quote_token) s.(transfer_policy_id) s.(total_supply)
    s.(balances) s.(allowances) s.(permit_nonces) (g s.(paused)) s.(supply_cap)
    s.(global_reward_per_token) s.(opted_in_supply) s.(user_reward_info).
Definition set_supply_cap (g : U256 → U256) (s : State) : State :=
  mk s.(roles) s.(role_admins) s.(name) s.(symbol) s.(currency) s.(logo_uri)
    s.(quote_token) s.(next_quote_token) s.(transfer_policy_id) s.(total_supply)
    s.(balances) s.(allowances) s.(permit_nonces) s.(paused) (g s.(supply_cap))
    s.(global_reward_per_token) s.(opted_in_supply) s.(user_reward_info).
Definition set_global_reward_per_token (g : U256 → U256) (s : State) : State :=
  mk s.(roles) s.(role_admins) s.(name) s.(symbol) s.(currency) s.(logo_uri)
    s.(quote_token) s.(next_quote_token) s.(transfer_policy_id) s.(total_supply)
    s.(balances) s.(allowances) s.(permit_nonces) s.(paused) s.(supply_cap)
    (g s.(global_reward_per_token)) s.(opted_in_supply) s.(user_reward_info).
Definition set_opted_in_supply (g : N → N) (s : State) : State :=
  mk s.(roles) s.(role_admins) s.(name) s.(symbol) s.(currency) s.(logo_uri)
    s.(quote_token) s.(next_quote_token) s.(transfer_policy_id) s.(total_supply)
    s.(balances) s.(allowances) s.(permit_nonces) s.(paused) s.(supply_cap)
    s.(global_reward_per_token) (g s.(opted_in_supply)) s.(user_reward_info).
Definition set_user_reward_info (g : gmap Address UserRewardInfo.t → gmap Address UserRewardInfo.t) (s : State) : State :=
  mk s.(roles) s.(role_admins) s.(name) s.(symbol) s.(currency) s.(logo_uri)
    s.(quote_token) s.(next_quote_token) s.(transfer_policy_id) s.(total_supply)
    s.(balances) s.(allowances) s.(permit_nonces) s.(paused) s.(supply_cap)
    s.(global_reward_per_token) s.(opted_in_supply) (g s.(user_reward_info)).
#[global] Instance default_TIP20Token : Default State :=
  mk ∅ ∅ EmptyString EmptyString EmptyString EmptyString 0 0 0 0 ∅ ∅ ∅ false 0 0 0 ∅.
End TIP20Token.

(** [Pool] of [tip_fee_manager/amm.rs]. *)
Module Pool.
Record t := mk {
  reserve_user_token : N;
  reserve_validator_token : N
}.
#[global] Instance default_Pool : Default t :=
  mk 0 0.
End Pool.

(** [TipFeeManager] of [tip_fee_manager/mod.rs]; the last two fields are
    transient storage. *)
Module TipFeeManager.
Record State := mk {
  validator_tokens : gmap Address Address;
  user_tokens : gmap Address Address;
  collected_fees : gmap (Address * Address) U256;
  pools : gmap B256 Pool.t;
  total_supply : gmap B256 U256;
  liquidity_balances : gmap B256 (gmap Address U256);
  pending_fee_swap_reservation : gmap B256 N;
  two_hop_intermediate : Address
}.
Definition set_validator_tokens (g : gmap Address Address → gmap Address Address) (s : State) : State :=
  mk (g s.(validator_tokens)) s.(user_tokens) s.(collected_fees) s.(pools)
    s.(total_supply) s.(liquidity_balances) s.(pending_fee_swap_reservation)
    s.(two_hop_intermediate).
Definition set_user_tokens (g : gmap Address Address → gmap Address Address) (s : State) : State :=
  mk s.(validator_tokens) (g s.(user_tokens)) s.(collected_fees) s.(pools)
    s.(total_supply) s.(liquidity_balances) s.(pending_fee_swap_reservation)
    s.(two_hop_intermediate).
Definition set_collected_fees (g : gmap (Address * Address) U256 → gmap (Address * Address) U256) (s : State) : State :=
  mk s.(validator_tokens) s.(user_tokens) (g s.(collected_fees)) s.(pools)
    s.(total_supply) s.(liquidity_balances) s.(pending_fee_swap_reservation)
    s.(two_hop_intermediate).
Definition set_pools (g : gmap B256 Pool.t → gmap B256 Pool.t) (s : State) : State :=
  mk s.(validator_tokens) s.(user_tokens) s.(collected_fees) (g s.(pools))
    s.(total_supply) s.(liquidity_balances) s.(pending_fee_swap_reservation)
    s.(two_hop_intermediate).
Definition set_total_supply (g : gmap B256 U256 → gmap B256 U256) (s : State) : State :=
  mk s.(validator_tokens) s.(user_tokens) s.(collected_fees) s.(pools)
    (g s.(total_supply)) s.(liquidity_balances) s.(pending_fee_swap_reservation)
    s.(two_hop_intermediate).
Definition set_liquidity_balances (g : gmap B256 (gmap Address U256) → gmap B256 (gmap Address U256)) (s : State) : State :=
  mk s.(validator_tokens) s.(user_tokens) s.(collected_fees) s.(pools)
    s.(total_supply) (g s.(liquidity_balances)) s.(pending_fee_swap_reservation)
    s.(two_hop_intermediate).
Definition set_pending_fee_swap_reservation (g : gmap B256 N → gmap B256 N) (s : State) : State :=
  mk s.(validator_tokens) s.(user_tokens) s.(collected_fees) s.(pools)
    s.(total_supply) s.(liquidity_balances) (g s.(pending_fee_swap_reservation))
    s.(two_hop_intermediate).
Definition set_two_hop_intermediate (g : Address → Address) (s : State) : State :=
  mk s.(validator_tokens) s.(user_tokens) s.(collected_fees) s.(pools)
    s.(total_supply) s.(liquidity_balances) s.(pending_fee_swap_reservation)
    (g s.(two_hop_intermediate)).
#[global] Instance default_TipFeeManager : Default State :=
  mk ∅ ∅ ∅ ∅ ∅ ∅ ∅ 0.
End TipFeeManager.

(** ** Storage of the channel reserve

    The structs of [crates/precompiles/src/tip20_channel_reserve/mod.rs]. Amounts are
    [U96] in the source and [close_requested_at] is a [u32]. *)

(** [PackedChannelState]. *)
Module PackedChannelState.
Record t := mk {
  settled : N;
  deposit : N;
  close_requested_at : N;
  uses_logical_receive_policy_sender : bool
}.
Definition set_settled (g : N → N) (s : t) : t :=
mk (g s.(settled)) s.(deposit) s.(close_requested_at) s.(uses_logical_receive_policy_sender).
Definition set_deposit (g : N → N) (s : t) : t :=
mk s.(settled) (g s.(deposit)) s.(close_requested_at) s.(uses_logical_receive_policy_sender).
Definition set_close_requested_at (g : N → N) (s : t) : t :=
mk s.(settled) s.(deposit) (g s.(close_requested_at)) s.(uses_logical_receive_policy_sender).
#[global] Instance default_PackedChannelState : Default t :=
  mk 0 0 0 false.
End PackedChannelState.

(** [TIP20ChannelReserve]; the last two fields are transient storage. *)
Module ChannelReserve.
Record State := mk {
  channel_states : gmap B256 PackedChannelState.t;
  channel_storage_credits : gmap Address N;
  opened_this_tx : gmap B256 bool;
  channel_open_context_hash : B256
}.
Definition set_channel_states (g : gmap B256 PackedChannelState.t → gmap B256 PackedChannelState.t) (s : State) : State :=
mk (g s.(channel_states)) s.(channel_storage_credits) s.(opened_this_tx)
    s.(channel_open_context_hash).
Definition set_channel_storage_credits (g : gmap Address N → gmap Address N) (s : State) : State :=
mk s.(channel_states) (g s.(channel_storage_credits)) s.(opened_this_tx)
    s.(channel_open_context_hash).
Definition set_opened_this_tx (g : gmap B256 bool → gmap B256 bool) (s : State) : State :=
mk s.(channel_states) s.(channel_storage_credits) (g s.(opened_this_tx))
    s.(channel_open_context_hash).
Definition set_channel_open_context_hash (g : B256 → B256) (s : State) : State :=
mk s.(channel_states) s.(channel_storage_credits) s.(opened_this_tx) (g
    s.(channel_open_context_hash)).
#[global] Instance default_ChannelReserve : Default State :=
  mk ∅ ∅ ∅ 0.
End ChannelReserve.

(** ** Storage of the validator configurations

    The structs of [crates/precompiles/src/validator_config/mod.rs] and
    [validator_config_v2/mod.rs]. A [Vec] in storage is a list. *)

(** [Validator] of the first version. *)
Module V1Validator.
Record t := mk {
  public_key : B256;
  active : bool;
  index : N;
  validator_address : Address;
  inbound_address : string;
  outbound_address : string
}.
Definition set_active (g : bool → bool) (s : t) : t :=
mk s.(public_key) (g s.(active)) s.(index) s.(validator_address) s.(inbound_address)
    s.(outbound_address).
#[global] Instance default_V1Validator : Default t :=
  mk 0 false 0 0 EmptyString EmptyString.
End V1Validator.

(** [ValidatorConfig]. *)
Module ValidatorConfigStorage.
Record State := mk {
  owner : Address;
  validators_array : list Address;
  validators : gmap Address V1Validator.t;
  next_dkg_ceremony : N
}.
Definition set_owner (g : Address → Address) (s : State) : State :=
mk (g s.(owner)) s.(validators_array) s.(validators) s.(next_dkg_ceremony).
Definition set_validators_array (g : list Address → list Address) (s : State) : State :=
mk s.(owner) (g s.(validators_array)) s.(validators) s.(next_dkg_ceremony).
Definition set_validators (g : gmap Address V1Validator.t → gmap Address V1Validator.t) (s : State) : State :=
mk s.(owner) s.(validators_array) (g s.(validators)) s.(next_dkg_ceremony).
Definition set_next_dkg_ceremony (g : N → N) (s : State) : State :=
mk s.(owner) s.(validators_array) s.(validators) (g s.(next_dkg_ceremony)).
#[global] Instance default_ValidatorConfigStorage : Default State :=
  mk 0 [] ∅ 0.
End ValidatorConfigStorage.

(** [Config] of the second version. *)
Module Config.
Record t := mk {
  owner : Address;
  is_init : bool;
  init_at_height : N;
  migration_skipped_count : N;
  v1_validator_count : N
}.
Definition set_owner (g : Address → Address) (s : t) : t :=
mk (g s.(owner)) s.(is_init) s.(init_at_height) s.(migration_skipped_count)
    s.(v1_validator_count).
Definition set_is_init (g : bool → bool) (s : t) : t :=
mk s.(owner) (g s.(is_init)) s.(init_at_height) s.(migration_skipped_count)
    s.(v1_validator_count).
Definition set_init_at_height (g : N → N) (s : t) : t :=
mk s.(owner) s.(is_init) (g s.(init_at_height)) s.(migration_skipped_count)
    s.(v1_validator_count).
Definition set_migration_skipped_count (g : N → N) (s : t) : t :=
mk s.(owner) s.(is_init) s.(init_at_height) (g s.(migration_skipped_count))
    s.(v1_validator_count).
Definition set_v1_validator_count (g : N → N) (s : t) : t :=
mk s.(owner) s.(is_init) s.(init_at_height) s.(migration_skipped_count) (g
    s.(v1_validator_count)).
#[global] Instance default_Config : Default t :=
  mk 0 false 0 0 0.
End Config.

(** [ValidatorRecord]. *)
Module ValidatorRecord.
Record t := mk {
  public_key : B256;
  validator_address : Address;
  ingress : string;
  egress : string;
  fee_recipient : Address;
  index : N;
  active_idx : N;
  added_at_height : N;
  deactivated_at_height : N
}.
Definition set_public_key (g : B256 → B256) (s : t) : t :=
mk (g s.(public_key)) s.(validator_address) s.(ingress) s.(egress) s.(fee_recipient) s.(index)
    s.(active_idx) s.(added_at_height) s.(deactivated_at_height).
Definition set_validator_address (g : Address → Address) (s : t) : t :=
mk s.(public_key) (g s.(validator_address)) s.(ingress) s.(egress) s.(fee_recipient) s.(index)
    s.(active_idx) s.(added_at_height) s.(deactivated_at_height).
Definition set_ingress (g : string → string) (s : t) : t :=
mk s.(public_key) s.(validator_address) (g s.(ingress)) s.(egress) s.(fee_recipient) s.(index)
    s.(active_idx) s.(added_at_height) s.(deactivated_at_height).
Definition set_egress (g : string → string) (s : t) : t :=
mk s.(public_key) s.(validator_address) s.(ingress) (g s.(egress)) s.(fee_recipient) s.(index)
    s.(active_idx) s.(added_at_height) s.(deactivated_at_height).
Definition set_fee_recipient (g : Address → Address) (s : t) : t :=
mk s.(public_key) s.(validator_address) s.(ingress) s.(egress) (g s.(fee_recipient)) s.(index)
    s.(active_idx) s.(added_at_height) s.(deactivated_at_height).
Definition set_index (g : N → N) (s : t) : t :=
mk s.(public_key) s.(validator_address) s.(ingress) s.(egress) s.(fee_recipient) (g s.(index))
    s.(active_idx) s.(added_at_height) s.(deactivated_at_height).
Definition set_active_idx (g : N → N) (s : t) : t :=
mk s.(public_key) s.(validator_address) s.(ingress) s.(egress) s.(fee_recipient) s.(index) (g
    s.(active_idx)) s.(added_at_height) s.(deactivated_at_height).
Definition set_added_at_height (g : N → N) (s : t) : t :=
mk s.(public_key) s.(validator_address) s.(ingress) s.(egress) s.(fee_recipient) s.(index)
    s.(active_idx) (g s.(added_at_height)) s.(deactivated_at_height).
Definition set_deactivated_at_height (g : N → N) (s : t) : t :=
mk s.(public_key) s.(validator_address) s.(ingress) s.(egress) s.(fee_recipient) s.(index)
    s.(active_idx) s.(added_at_height) (g s.(deactivated_at_height)).
#[global] Instance default_ValidatorRecord : Default t :=
  mk 0 0 EmptyString EmptyString 0 0 0 0 0.
End ValidatorRecord.

(** [ValidatorConfigV2]. *)
Module ValidatorConfigV2Storage.
Record State := mk {
  config : Config.t;
  validators : list ValidatorRecord.t;
  address_to_index : gmap Address N;
  pubkey_to_index : gmap B256 N;
  next_network_identity_rotation_epoch : N;
  active_ingress_ips : gmap B256 bool;
  active_indices : list N
}.
Definition set_config (g : Config.t → Config.t) (s : State) : State :=
mk (g s.(config)) s.(validators) s.(address_to_index) s.(pubkey_to_index)
    s.(next_network_identity_rotation_epoch) s.(active_ingress_ips) s.(active_indices).
Definition set_validators (g : list ValidatorRecord.t → list ValidatorRecord.t) (s : State) : State :=
mk s.(config) (g s.(validators)) s.(address_to_index) s.(pubkey_to_index)
    s.(next_network_identity_rotation_epoch) s.(active_ingress_ips) s.(active_indices).
Definition set_address_to_index (g : gmap Address N → gmap Address N) (s : State) : State :=
mk s.(config) s.(validators) (g s.(address_to_index)) s.(pubkey_to_index)
    s.(next_network_identity_rotation_epoch) s.(active_ingress_ips) s.(active_indices).
Definition set_pubkey_to_index (g : gmap B256 N → gmap B256 N) (s : State) : State :=
mk s.(config) s.(validators) s.(address_to_index) (g s.(pubkey_to_index))
    s.(next_network_identity_rotation_epoch) s.(active_ingress_ips) s.(active_indices).
Definition set_next_network_identity_rotation_epoch (g : N → N) (s : State) : State :=
mk s.(config) s.(validators) s.(address_to_index) s.(pubkey_to_index) (g
    s.(next_network_identity_rotation_epoch)) s.(active_ingress_ips) s.(active_indices).
Definition set_active_ingress_ips (g : gmap B256 bool → gmap B256 bool) (s : State) : State :=
mk s.(config) s.(validators) s.(address_to_index) s.(pubkey_to_index)
    s.(next_network_identity_rotation_epoch) (g s.(active_ingress_ips)) s.(active_indices).
Definition set_active_indices (g : list N → list N) (s : State) : State :=
mk s.(config) s.(validators) s.(address_to_index) s.(pubkey_to_index)
    s.(next_network_identity_rotation_epoch) s.(active_ingress_ips) (g s.(active_indices)).
#[global] Instance default_ValidatorConfigV2Storage : Default State :=
  mk dflt [] ∅ ∅ 0 ∅ [].
End ValidatorConfigV2Storage.

(** ** Storage of configurable accounts

    [configurable_account/mod.rs]: the precompile has transient storage only, what the
    transaction is allowed to do. *)

Inductive UpgradeEligibility := NotSoleCall | NotPrimitiveRoot | PrimitiveRoot.

Module ConfigurableAccountStorage.
Record State := mk {
  tx_origin : Address;
  directly_authorized_account : Address;
  upgrade_eligibility : UpgradeEligibility
}.
#[global] Instance default_ConfigurableAccountStorage : Default State := mk 0 0 NotSoleCall.
End ConfigurableAccountStorage.

(** ** The world *)
Record World := mkWorld {
  w_nonce : NonceManager.State;
  w_tip403 : TIP403.State;
  w_registry : AddressRegistryStorage.State;
  w_guard : Guard.State;
  w_keychain : Keychain.State;
  w_tip20s : gmap Address TIP20Token.State;
  w_fee : TipFeeManager.State;
  w_dex : Dex.State;
  w_credits : StorageCreditsStorage.State;
  w_reserve : ChannelReserve.State;
  w_vconfig : ValidatorConfigStorage.State;
  w_vconfig2 : ValidatorConfigV2Storage.State;
  w_account : ConfigurableAccountStorage.State;
  w_code : gset Address;
  w_config_commitment : gmap Address B256;
  w_events : list (Address * Event)
}.
Definition set_w_nonce (g : NonceManager.State → NonceManager.State) (w : World) : World :=
mkWorld (g w.(w_nonce)) w.(w_tip403) w.(w_registry) w.(w_guard) w.(w_keychain) w.(w_tip20s)
    w.(w_fee) w.(w_dex) w.(w_credits) w.(w_reserve) w.(w_vconfig) w.(w_vconfig2) w.(w_account) w.(w_code)
    w.(w_config_commitment) w.(w_events).
Definition set_w_tip403 (g : TIP403.State → TIP403.State) (w : World) : World :=
mkWorld w.(w_nonce) (g w.(w_tip403)) w.(w_registry) w.(w_guard) w.(w_keychain) w.(w_tip20s)
    w.(w_fee) w.(w_dex) w.(w_credits) w.(w_reserve) w.(w_vconfig) w.(w_vconfig2) w.(w_account) w.(w_code)
    w.(w_config_commitment) w.(w_events).
Definition set_w_registry (g : AddressRegistryStorage.State → AddressRegistryStorage.State) (w : World) : World :=
mkWorld w.(w_nonce) w.(w_tip403) (g w.(w_registry)) w.(w_guard) w.(w_keychain) w.(w_tip20s)
    w.(w_fee) w.(w_dex) w.(w_credits) w.(w_reserve) w.(w_vconfig) w.(w_vconfig2) w.(w_account) w.(w_code)
    w.(w_config_commitment) w.(w_events).
Definition set_w_guard (g : Guard.State → Guard.State) (w : World) : World :=
mkWorld w.(w_nonce) w.(w_tip403) w.(w_registry) (g w.(w_guard)) w.(w_keychain) w.(w_tip20s)
    w.(w_fee) w.(w_dex) w.(w_credits) w.(w_reserve) w.(w_vconfig) w.(w_vconfig2) w.(w_account) w.(w_code)
    w.(w_config_commitment) w.(w_events).
Definition set_w_keychain (g : Keychain.State → Keychain.State) (w : World) : World :=
mkWorld w.(w_nonce) w.(w_tip403) w.(w_registry) w.(w_guard) (g w.(w_keychain)) w.(w_tip20s)
    w.(w_fee) w.(w_dex) w.(w_credits) w.(w_reserve) w.(w_vconfig) w.(w_vconfig2) w.(w_account) w.(w_code)
    w.(w_config_commitment) w.(w_events).
Definition set_w_tip20s (g : gmap Address TIP20Token.State → gmap Address TIP20Token.State) (w : World) : World :=
mkWorld w.(w_nonce) w.(w_tip403) w.(w_registry) w.(w_guard) w.(w_keychain) (g w.(w_tip20s))
    w.(w_fee) w.(w_dex) w.(w_credits) w.(w_reserve) w.(w_vconfig) w.(w_vconfig2) w.(w_account) w.(w_code)
    w.(w_config_commitment) w.(w_events).
Definition set_w_fee (g : TipFeeManager.State → TipFeeManager.State) (w : World) : World :=
mkWorld w.(w_nonce) w.(w_tip403) w.(w_registry) w.(w_guard) w.(w_keychain) w.(w_tip20s) (g
    w.(w_fee)) w.(w_dex) w.(w_credits) w.(w_reserve) w.(w_vconfig) w.(w_vconfig2) w.(w_account) w.(w_code)
    w.(w_config_commitment) w.(w_events).
Definition set_w_dex (g : Dex.State → Dex.State) (w : World) : World :=
mkWorld w.(w_nonce) w.(w_tip403) w.(w_registry) w.(w_guard) w.(w_keychain) w.(w_tip20s)
    w.(w_fee) (g w.(w_dex)) w.(w_credits) w.(w_reserve) w.(w_vconfig) w.(w_vconfig2) w.(w_account) w.(w_code)
    w.(w_config_commitment) w.(w_events).
Definition set_w_credits (g : StorageCreditsStorage.State → StorageCreditsStorage.State) (w : World) : World :=
mkWorld w.(w_nonce) w.(w_tip403) w.(w_registry) w.(w_guard) w.(w_keychain) w.(w_tip20s)
    w.(w_fee) w.(w_dex) (g w.(w_credits)) w.(w_reserve) w.(w_vconfig) w.(w_vconfig2) w.(w_account) w.(w_code)
    w.(w_config_commitment) w.(w_events).
Definition set_w_reserve (g : ChannelReserve.State → ChannelReserve.State) (w : World) : World :=
mkWorld w.(w_nonce) w.(w_tip403) w.(w_registry) w.(w_guard) w.(w_keychain) w.(w_tip20s)
    w.(w_fee) w.(w_dex) w.(w_credits) (g w.(w_reserve)) w.(w_vconfig) w.(w_vconfig2) w.(w_account) w.(w_code)
    w.(w_config_commitment) w.(w_events).
Definition set_w_vconfig (g : ValidatorConfigStorage.State → ValidatorConfigStorage.State) (w : World) : World :=
mkWorld w.(w_nonce) w.(w_tip403) w.(w_registry) w.(w_guard) w.(w_keychain) w.(w_tip20s)
    w.(w_fee) w.(w_dex) w.(w_credits) w.(w_reserve) (g w.(w_vconfig)) w.(w_vconfig2) w.(w_account) w.(w_code)
    w.(w_config_commitment) w.(w_events).
Definition set_w_vconfig2 (g : ValidatorConfigV2Storage.State → ValidatorConfigV2Storage.State) (w : World) : World :=
mkWorld w.(w_nonce) w.(w_tip403) w.(w_registry) w.(w_guard) w.(w_keychain) w.(w_tip20s)
    w.(w_fee) w.(w_dex) w.(w_credits) w.(w_reserve) w.(w_vconfig) (g w.(w_vconfig2)) w.(w_account) w.(w_code)
    w.(w_config_commitment) w.(w_events).
Definition set_w_account (g : ConfigurableAccountStorage.State → ConfigurableAccountStorage.State) (w : World) : World :=
mkWorld w.(w_nonce) w.(w_tip403) w.(w_registry) w.(w_guard) w.(w_keychain) w.(w_tip20s)
    w.(w_fee) w.(w_dex) w.(w_credits) w.(w_reserve) w.(w_vconfig) w.(w_vconfig2) (g w.(w_account))
    w.(w_code) w.(w_config_commitment) w.(w_events).
Definition set_w_code (g : gset Address → gset Address) (w : World) : World :=
mkWorld w.(w_nonce) w.(w_tip403) w.(w_registry) w.(w_guard) w.(w_keychain) w.(w_tip20s)
    w.(w_fee) w.(w_dex) w.(w_credits) w.(w_reserve) w.(w_vconfig) w.(w_vconfig2) w.(w_account) (g w.(w_code))
    w.(w_config_commitment) w.(w_events).
Definition set_w_config_commitment (g : gmap Address B256 → gmap Address B256) (w : World) : World :=
mkWorld w.(w_nonce) w.(w_tip403) w.(w_registry) w.(w_guard) w.(w_keychain) w.(w_tip20s)
    w.(w_fee) w.(w_dex) w.(w_credits) w.(w_reserve) w.(w_vconfig) w.(w_vconfig2) w.(w_account) w.(w_code) (g
    w.(w_config_commitment)) w.(w_events).
Definition set_w_events (g : list (Address * Event) → list (Address * Event)) (w : World) : World :=
mkWorld w.(w_nonce) w.(w_tip403) w.(w_registry) w.(w_guard) w.(w_keychain) w.(w_tip20s)
    w.(w_fee) w.(w_dex) w.(w_credits) w.(w_reserve) w.(w_vconfig) w.(w_vconfig2) w.(w_account) w.(w_code)
    w.(w_config_commitment) (g w.(w_events)).
#[global] Instance default_World : Default World :=
  mkWorld dflt dflt dflt dflt dflt ∅ dflt dflt dflt dflt dflt dflt dflt ∅ ∅ [].
