(* ===== verification/Monad.v ===== *)
(** * The execution monad

    A precompile method returns [Result<T>] and acts on the storage of the
    thread-local [StorageCtx]. It is modelled as a function from the block and
    transaction environment and the current world to an outcome and the world
    reached. The world is kept on an error: dropping it is the job of
    [checkpoint] ([storage/thread_local.rs], a no-op before T1C) and of the call
    frame ([call]), exactly as in the source. Gas is not modelled, so no
    operation runs out of it.

    The second half is the reasoning interface: inversion of successful runs,
    and [Stable], the preservation of a preorder on worlds, with the automation
    that proves it for compound programs from its leaves. *)

From S2P Require Import Prelude Hardfork Address Bytes Signature Errors DexState State.

(** The environment of a call. [keccak256] and [ecrecover] are the cryptographic
    primitives of the host, [crypto] those of the signature libraries;
    [eth_precompiles] is revm's precompile table and [create2] the address derivation of
    [alloy]. *)
Record Env := mkEnv {
  spec : TempoHardfork;
  timestamp : U256;
  block_number : N;
  chain_id : N;
  beneficiary : Address;
  is_static : bool;
  keccak256 : list N → B256;
  ecrecover : B256 → N → B256 → B256 → option Address;
  crypto : Crypto;
  eth_precompiles : TempoHardfork → Address → bool;
  create2 : Address → B256 → B256 → Address;
  configurable_account_recovery_factory : option Address
}.

Inductive outcome (A : Type) :=
| Ok (a : A)
| Err (e : TempoPrecompileError).
Arguments Ok {A} a.
Arguments Err {A} e.

Definition M (A : Type) : Type := Env → World → outcome A * World.

#[export] Instance M_ret : MRet M := λ A a e w, (Ok a, w).
#[export] Instance M_bind : MBind M := λ A B k m e w,
  match m e w with
  | (Ok a, w') => k a e w'
  | (Err x, w') => (Err x, w')
  end.

Definition throw {A} (x : TempoPrecompileError) : M A := λ _ w, (Err x, w).
Definition asks {A} (f : Env → A) : M A := λ e w, (Ok (f e), w).
Definition gets {A} (f : World → A) : M A := λ e w, (Ok (f w), w).
Definition modify (g : World → World) : M () := λ e w, (Ok (), g w).
(** [if !b { return Err(x) }]. *)
Definition require (b : bool) (x : TempoPrecompileError) : M () :=
  if b then mret () else throw x.
(** [o.ok_or(x)?]. *)
Definition ok_or {A} (o : option A) (x : TempoPrecompileError) : M A :=
  match o with Some a => mret a | None => throw x end.
(** [m.map_err(f)]. *)
Definition map_err {A} (f : TempoPrecompileError → TempoPrecompileError) (m : M A) : M A :=
  λ e w, match m e w with
         | (Ok a, w') => (Ok a, w')
         | (Err x, w') => (Err (f x), w')
         end.
(** Run [m] and hand its [Result] to the caller, who inspects it. *)
Definition try_ {A} (m : M A) : M (outcome A) :=
  λ e w, let '(r, w') := m e w in (Ok r, w').
(** [let guard = self.storage.checkpoint(); m; guard.commit()]. *)
Definition checkpoint {A} (m : M A) : M A :=
  λ e w, match m e w with
         | (Ok a, w') => (Ok a, w')
         | (Err x, w') => (Err x, if is_t1c (spec e) then w else w')
         end.
(** A call frame: the state changes of a failed call are dropped. *)
Definition call {A} (m : M A) : M A :=
  λ e w, match m e w with
         | (Ok a, w') => (Ok a, w')
         | (Err x, _) => (Err x, w)
         end.

(** [mutate] of [dispatch.rs]: state-changing entry points refuse static calls. *)
Definition mutate {A} (m : M A) : M A :=
  static ← asks is_static;
  if (static : bool) then throw StaticCallNotAllowed else m.

(** [#[schedule(since = f)]] of the [dispatch!] macro. The selector itself is
    below the level of the model. *)
Definition scheduled {A} (f : TempoHardfork) (m : M A) : M A :=
  sp ← asks spec;
  if since sp f then m else throw (UnknownFunctionSelector 0).

(** [for x in l { f(x)?; }] *)
Fixpoint mfor {A} (l : list A) (f : A → M ()) : M () :=
  match l with
  | [] => mret ()
  | x :: l' => f x ;; mfor l' f
  end.

(** ** Contract storage as a lens *)

Record Contract (S : Type) := mkContract {
  cget : World → S;
  cmod : (S → S) → World → World
}.
Arguments cget {S} _ _.
Arguments cmod {S} _ _ _.

Class LawfulContract {S} (C : Contract S) := {
  cget_cmod g w : cget C (cmod C g w) = g (cget C w);
}.

Definition rd {S A} (C : Contract S) (f : S → A) : M A := gets (λ w, f (cget C w)).
Definition wr {S} (C : Contract S) (g : S → S) : M () := modify (cmod C g).

Definition nonceC := mkContract _ w_nonce set_w_nonce.
Definition tip403C := mkContract _ w_tip403 set_w_tip403.
Definition registryC := mkContract _ w_registry set_w_registry.
Definition guardC := mkContract _ w_guard set_w_guard.
Definition keychainC := mkContract _ w_keychain set_w_keychain.
Definition feeC := mkContract _ w_fee set_w_fee.
Definition dexC := mkContract _ w_dex set_w_dex.
Definition creditsC := mkContract _ w_credits set_w_credits.
Definition reserveC := mkContract _ w_reserve set_w_reserve.
Definition vconfigC := mkContract _ w_vconfig set_w_vconfig.
Definition vconfig2C := mkContract _ w_vconfig2 set_w_vconfig2.
Definition accountC := mkContract _ w_account set_w_account.
(** The token contract deployed at [t]. *)
Definition tip20C (t : Address) : Contract TIP20Token.State :=
  mkContract _ (λ w, (w_tip20s w).[t])
    (λ g, set_w_tip20s (λ m, <[t := g (m.[t])]> m)).

#[export] Instance nonceC_lawful : LawfulContract nonceC. Proof. done. Qed.
#[export] Instance tip403C_lawful : LawfulContract tip403C. Proof. done. Qed.
#[export] Instance registryC_lawful : LawfulContract registryC. Proof. done. Qed.
#[export] Instance guardC_lawful : LawfulContract guardC. Proof. done. Qed.
#[export] Instance keychainC_lawful : LawfulContract keychainC. Proof. done. Qed.
#[export] Instance feeC_lawful : LawfulContract feeC. Proof. done. Qed.
#[export] Instance dexC_lawful : LawfulContract dexC. Proof. done. Qed.
#[export] Instance creditsC_lawful : LawfulContract creditsC. Proof. done. Qed.
#[export] Instance reserveC_lawful : LawfulContract reserveC. Proof. done. Qed.
#[export] Instance vconfigC_lawful : LawfulContract vconfigC. Proof. done. Qed.
#[export] Instance vconfig2C_lawful : LawfulContract vconfig2C. Proof. done. Qed.
#[export] Instance accountC_lawful : LawfulContract accountC. Proof. done. Qed.
#[export] Instance tip20C_lawful t : LawfulContract (tip20C t).
Proof. split. intros. simpl. by rewrite sread_insert_eq. Qed.

Definition emit (addr : Address) (ev : Event) : M () :=
  modify (set_w_events (λ l, l ++ [(addr, ev)])).

(** [self.__initialize()]: install the marker bytecode at the contract address. *)
Definition initialize_code (addr : Address) : M () :=
  modify (set_w_code (λ s, {[addr]} ∪ s)).
Definition has_code (addr : Address) : M bool :=
  gets (λ w, bool_decide (addr ∈ w_code w)).

(** [StorageCtx::is_retired_root]. *)
Definition is_retired_root (address : Address) : M bool :=
  s ← asks spec;
  c ← gets (λ w, (w_config_commitment w).[address]);
  mret (is_t14 s && negb (c =? 0)).

(** [self.storage.timestamp().saturating_to::<u64>()]. *)
Definition now_u64 : M N := asks (λ e, saturating_to U64_MAX (timestamp e)).

(** ** Inversion of successful runs *)

Lemma bind_Ok {A B} (m : M A) (k : A → M B) e w b w' :
  (m ≫= k) e w = (Ok b, w') ↔
  ∃ a w1, m e w = (Ok a, w1) ∧ k a e w1 = (Ok b, w').
Proof.
  unfold mbind, M_bind. destruct (m e w) as [[a|x] w1]; naive_solver.
Qed.

Lemma ret_Ok {A} (a b : A) e w w' :
  (mret a : M A) e w = (Ok b, w') ↔ b = a ∧ w' = w.
Proof. unfold mret, M_ret. naive_solver. Qed.

Lemma throw_Ok {A} x (b : A) e w w' : throw x e w = (Ok b, w') ↔ False.
Proof. unfold throw. naive_solver. Qed.

Lemma asks_Ok {A} (f : Env → A) b e w w' :
  asks f e w = (Ok b, w') ↔ b = f e ∧ w' = w.
Proof. unfold asks. naive_solver. Qed.

Lemma gets_Ok {A} (f : World → A) b e w w' :
  gets f e w = (Ok b, w') ↔ b = f w ∧ w' = w.
Proof. unfold gets. naive_solver. Qed.

Lemma modify_Ok g b e w w' : modify g e w = (Ok b, w') ↔ w' = g w.
Proof. unfold modify. destruct b. naive_solver. Qed.

Lemma rd_Ok {S A} (C : Contract S) (f : S → A) b e w w' :
  rd C f e w = (Ok b, w') ↔ b = f (cget C w) ∧ w' = w.
Proof. apply (gets_Ok (λ w, f (cget C w))). Qed.

Lemma wr_Ok {S} (C : Contract S) g b e w w' :
  wr C g e w = (Ok b, w') ↔ w' = cmod C g w.
Proof. apply modify_Ok. Qed.

Lemma require_Ok b x u e w w' :
  require b x e w = (Ok u, w') ↔ b = true ∧ w' = w.
Proof. destruct u. unfold require. destruct b; [rewrite ret_Ok|rewrite throw_Ok]; naive_solver. Qed.

Lemma ok_or_Ok {A} (o : option A) x a e w w' :
  ok_or o x e w = (Ok a, w') ↔ o = Some a ∧ w' = w.
Proof. unfold ok_or. destruct o; [rewrite ret_Ok|rewrite throw_Ok]; naive_solver. Qed.

Lemma map_err_Ok {A} f (m : M A) a e w w' :
  map_err f m e w = (Ok a, w') ↔ m e w = (Ok a, w').
Proof. unfold map_err. destruct (m e w) as [[?|?] ?]; naive_solver. Qed.

Lemma try_Ok {A} (m : M A) r e w w' : try_ m e w = (Ok r, w') → m e w = (r, w').
Proof. unfold try_. destruct (m e w) as [r' w1]. naive_solver. Qed.

Lemma checkpoint_Ok {A} (m : M A) a e w w' :
  checkpoint m e w = (Ok a, w') ↔ m e w = (Ok a, w').
Proof. unfold checkpoint. destruct (m e w) as [[?|?] ?]; naive_solver. Qed.

Lemma call_Ok {A} (m : M A) a e w w' :
  call m e w = (Ok a, w') ↔ m e w = (Ok a, w').
Proof. unfold call. destruct (m e w) as [[?|?] ?]; naive_solver. Qed.

Lemma emit_Ok addr ev u e w w' :
  emit addr ev e w = (Ok u, w') ↔ w' = set_w_events (λ l, l ++ [(addr, ev)]) w.
Proof. apply modify_Ok. Qed.

(** One inversion step on a hypothesis [m e w = (Ok a, w')]. *)
Ltac m_step H :=
  lazymatch type of H with
  | (_ ≫= _) _ _ = (Ok _, _) =>
      let a := fresh "a" in let w1 := fresh "w" in let H1 := fresh "Hrun" in
      apply bind_Ok in H as (a & w1 & H1 & H)
  | mret _ _ _ = (Ok _, _) => apply ret_Ok in H as [? ?]
  | throw _ _ _ = (Ok _, _) => apply throw_Ok in H as []
  | asks _ _ _ = (Ok _, _) => apply asks_Ok in H as [? ?]
  | gets _ _ _ = (Ok _, _) => apply gets_Ok in H as [? ?]
  | rd _ _ _ _ = (Ok _, _) => apply rd_Ok in H as [? ?]
  | wr _ _ _ _ = (Ok _, _) => apply wr_Ok in H
  | modify _ _ _ = (Ok _, _) => apply modify_Ok in H
  | emit _ _ _ _ = (Ok _, _) => apply emit_Ok in H
  | require _ _ _ _ = (Ok _, _) => apply require_Ok in H as [? ?]
  | ok_or _ _ _ _ = (Ok _, _) => apply ok_or_Ok in H as [? ?]
  | map_err _ _ _ _ = (Ok _, _) => apply map_err_Ok in H
  | checkpoint _ _ _ = (Ok _, _) => apply checkpoint_Ok in H
  | call _ _ _ = (Ok _, _) => apply call_Ok in H
  | (if ?b then _ else _) _ _ = (Ok _, _) => destruct b eqn:?
  | (match ?o with _ => _ end) _ _ = (Ok _, _) => destruct o eqn:?
  end.

(** Compute the storage projections and updates, and nothing else. *)
Ltac w_simpl :=
  cbn [fst snd NonceManager.nonces NonceManager.expiring_nonce_seen NonceManager.expiring_nonce_ring
      NonceManager.expiring_nonce_ring_ptr NonceManager.set_nonces
      NonceManager.set_expiring_nonce_seen NonceManager.set_expiring_nonce_ring
      NonceManager.set_expiring_nonce_ring_ptr PolicyData.policy_type PolicyData.admin
      CompoundPolicyData.sender_policy_id CompoundPolicyData.recipient_policy_id
      CompoundPolicyData.mint_recipient_policy_id PolicyRecord.base PolicyRecord.compound
      ReceivePolicyConfig.has_receive_policy ReceivePolicyConfig.sender_policy_id
      ReceivePolicyConfig.sender_policy_type ReceivePolicyConfig.token_filter_id
      ReceivePolicyConfig.token_filter_type ReceivePolicyConfig.recovery_mode
      ReceivePolicy.config ReceivePolicy.recovery_address TokenTransferPolicy.policy_id
      TokenTransferPolicy.is_set TIP403.policy_id_counter TIP403.policy_records
      TIP403.policy_set TIP403.receive_policies TIP403.token_transfer_policies
      TIP403.set_policy_id_counter TIP403.set_policy_records TIP403.set_policy_set
      TIP403.set_receive_policies TIP403.set_token_transfer_policies
      AddressRegistryStorage.data AddressRegistryStorage.set_data Guard.nonce Guard.balances
      Guard.set_nonce Guard.set_balances AuthorizedKey.signature_type AuthorizedKey.expiry
      AuthorizedKey.enforce_limits AuthorizedKey.is_revoked AuthorizedKey.is_admin
      SpendingLimitState.remaining SpendingLimitState.max SpendingLimitState.period
      SpendingLimitState.period_end TargetScope.selectors TargetScope.selector_scopes
      KeyScope.is_scoped KeyScope.targets KeyScope.target_scopes Keychain.keys
      Keychain.spending_limits Keychain.key_scopes Keychain.key_authorization_witnesses
      Keychain.transaction_key Keychain.tx_origin Keychain.set_keys
      Keychain.set_spending_limits Keychain.set_key_scopes
      Keychain.set_key_authorization_witnesses Keychain.set_transaction_key
      Keychain.set_tx_origin UserRewardInfo.reward_recipient UserRewardInfo.reward_per_token
      UserRewardInfo.reward_balance TIP20Token.roles TIP20Token.role_admins TIP20Token.name
      TIP20Token.symbol TIP20Token.currency TIP20Token.logo_uri TIP20Token.quote_token
      TIP20Token.next_quote_token TIP20Token.transfer_policy_id TIP20Token.total_supply
      TIP20Token.balances TIP20Token.allowances TIP20Token.permit_nonces TIP20Token.paused
      TIP20Token.supply_cap TIP20Token.global_reward_per_token TIP20Token.opted_in_supply
      TIP20Token.user_reward_info TIP20Token.set_roles TIP20Token.set_role_admins
      TIP20Token.set_name TIP20Token.set_symbol TIP20Token.set_currency
      TIP20Token.set_logo_uri TIP20Token.set_quote_token TIP20Token.set_next_quote_token
      TIP20Token.set_transfer_policy_id TIP20Token.set_total_supply TIP20Token.set_balances
      TIP20Token.set_allowances TIP20Token.set_permit_nonces TIP20Token.set_paused
      TIP20Token.set_supply_cap TIP20Token.set_global_reward_per_token
      TIP20Token.set_opted_in_supply TIP20Token.set_user_reward_info Pool.reserve_user_token
      Pool.reserve_validator_token TipFeeManager.validator_tokens TipFeeManager.user_tokens
      TipFeeManager.collected_fees TipFeeManager.pools TipFeeManager.total_supply
      TipFeeManager.liquidity_balances TipFeeManager.pending_fee_swap_reservation
      TipFeeManager.two_hop_intermediate TipFeeManager.set_validator_tokens
      TipFeeManager.set_user_tokens TipFeeManager.set_collected_fees TipFeeManager.set_pools
      TipFeeManager.set_total_supply TipFeeManager.set_liquidity_balances
      TipFeeManager.set_pending_fee_swap_reservation TipFeeManager.set_two_hop_intermediate
      Order.order_id Order.maker Order.book_key Order.is_bid Order.tick Order.amount
      Order.remaining Order.prev Order.next Order.is_flip Order.flip_tick
      Order.set_remaining Order.set_prev Order.set_next V1Order.maker V1Order.metadata
      V1Order.tick V1Order.flip_tick V1Order.amount V1Order.remaining V1Order.prev
      V1Order.next V1Order.book_key V1Order.set_remaining V1Order.set_prev
      V1Order.set_next V2Order.maker V2Order.metadata V2Order.tick V2Order.flip_tick
      V2Order.book_index V2Order.amount V2Order.remaining V2Order.prev V2Order.next
      V2Order.set_remaining V2Order.set_prev V2Order.set_next TickLevel.head
      TickLevel.tail TickLevel.total_liquidity TickLevel.set_head TickLevel.set_tail
      TickLevel.set_total_liquidity Orderbook.base Orderbook.quote Orderbook.bids
      Orderbook.asks Orderbook.best_bid_tick Orderbook.best_ask_tick Orderbook.book_id
      Orderbook.bid_bitmap Orderbook.ask_bitmap Orderbook.set_base Orderbook.set_quote
      Orderbook.set_bids Orderbook.set_asks Orderbook.set_best_bid_tick
      Orderbook.set_best_ask_tick Orderbook.set_book_id Orderbook.set_bid_bitmap
      Orderbook.set_ask_bitmap Dex.books Dex.orders Dex.balances Dex.next_order_id
      Dex.book_keys Dex.dex_storage_credits Dex.set_books Dex.set_orders
      Dex.set_balances Dex.set_next_order_id Dex.set_book_keys
      Dex.set_dex_storage_credits TransientState.mode TransientState.budget
      TransientState.pending_refunds StorageCreditsStorage.balances
      StorageCreditsStorage.transient StorageCreditsStorage.set_balances
      StorageCreditsStorage.set_transient
      PackedChannelState.settled PackedChannelState.deposit
      PackedChannelState.close_requested_at
      PackedChannelState.uses_logical_receive_policy_sender PackedChannelState.set_settled
      PackedChannelState.set_deposit PackedChannelState.set_close_requested_at
      ChannelReserve.channel_states ChannelReserve.channel_storage_credits
      ChannelReserve.opened_this_tx ChannelReserve.channel_open_context_hash
      ChannelReserve.set_channel_states ChannelReserve.set_channel_storage_credits
      ChannelReserve.set_opened_this_tx ChannelReserve.set_channel_open_context_hash
      V1Validator.public_key V1Validator.active V1Validator.index
      V1Validator.validator_address V1Validator.inbound_address
      V1Validator.outbound_address V1Validator.set_active ValidatorConfigStorage.owner
      ValidatorConfigStorage.validators_array ValidatorConfigStorage.validators
      ValidatorConfigStorage.next_dkg_ceremony ValidatorConfigStorage.set_owner
      ValidatorConfigStorage.set_validators_array ValidatorConfigStorage.set_validators
      ValidatorConfigStorage.set_next_dkg_ceremony Config.owner Config.is_init
      Config.init_at_height Config.migration_skipped_count Config.v1_validator_count
      Config.set_owner Config.set_is_init Config.set_init_at_height
      Config.set_migration_skipped_count Config.set_v1_validator_count
      ValidatorRecord.public_key ValidatorRecord.validator_address ValidatorRecord.ingress
      ValidatorRecord.egress ValidatorRecord.fee_recipient ValidatorRecord.index
      ValidatorRecord.active_idx ValidatorRecord.added_at_height
      ValidatorRecord.deactivated_at_height ValidatorRecord.set_public_key
      ValidatorRecord.set_validator_address ValidatorRecord.set_ingress
      ValidatorRecord.set_egress ValidatorRecord.set_fee_recipient
      ValidatorRecord.set_index ValidatorRecord.set_active_idx
      ValidatorRecord.set_added_at_height ValidatorRecord.set_deactivated_at_height
      ValidatorConfigV2Storage.config ValidatorConfigV2Storage.validators
      ValidatorConfigV2Storage.address_to_index ValidatorConfigV2Storage.pubkey_to_index
      ValidatorConfigV2Storage.next_network_identity_rotation_epoch
      ValidatorConfigV2Storage.active_ingress_ips ValidatorConfigV2Storage.active_indices
      ValidatorConfigV2Storage.set_config ValidatorConfigV2Storage.set_validators
      ValidatorConfigV2Storage.set_address_to_index
      ValidatorConfigV2Storage.set_pubkey_to_index
      ValidatorConfigV2Storage.set_next_network_identity_rotation_epoch
      ValidatorConfigV2Storage.set_active_ingress_ips
      ValidatorConfigV2Storage.set_active_indices
      w_nonce w_tip403 w_registry w_guard w_keychain w_tip20s w_fee w_dex w_credits w_reserve
      w_vconfig w_vconfig2 w_account w_code
      w_config_commitment w_events set_w_nonce set_w_tip403 set_w_registry set_w_guard
      set_w_keychain set_w_tip20s set_w_fee set_w_dex set_w_credits set_w_reserve set_w_vconfig
      set_w_vconfig2 set_w_account set_w_code set_w_config_commitment set_w_events
      cget cmod nonceC tip403C registryC guardC keychainC feeC dexC creditsC reserveC
      vconfigC vconfig2C accountC tip20C ConfigurableAccountStorage.tx_origin
      ConfigurableAccountStorage.directly_authorized_account
      ConfigurableAccountStorage.upgrade_eligibility] in *.

(** Invert every run in the context down to the operations not in the list
    above; equations on values and worlds are substituted. *)
Ltac m_inv :=
  repeat (match goal with
          | H : _ _ _ = (Ok _, _) |- _ => m_step H
          end; cbv beta zeta in *; subst);
  w_simpl.

(** A call frame ends where its body ends, or where it started. *)
Lemma call_world {A} (m : M A) e w :
  (call m e w).2 = w ∨ ∃ a, m e w = (Ok a, (call m e w).2).
Proof. unfold call. destruct (m e w) as [[a|x] w']; eauto. Qed.

Ltac call_cases H :=
  match goal with
  | |- context [call ?m ?e ?w] => destruct (call_world m e w) as [->|[? H]]
  end.

(** ** Preservation of preorders *)

(** Whatever the outcome, [m] moves the world along [R]. *)
Definition Stable {A} (e : Env) (R : relation World) (m : M A) : Prop :=
  ∀ w r w', m e w = (r, w') → R w w'.

(** The same for successful runs only. *)
Definition StableOk {A} (e : Env) (R : relation World) (m : M A) : Prop :=
  ∀ w a w', m e w = (Ok a, w') → R w w'.

Create HintDb stable discriminated.
#[export] Hint Constants Opaque : stable.

Section Stable.
Context (e : Env) (R : relation World) `{!PreOrder R}.

Lemma stable_ret {A} (a : A) : Stable e R (mret a).
Proof. intros w r w' [=]. by subst. Qed.

Lemma stable_throw {A} x : Stable e R (throw x : M A).
Proof. intros w r w' [=]. by subst. Qed.

Lemma stable_gets {A} (f : World → A) : Stable e R (gets f).
Proof. intros w r w' [=]. by subst. Qed.

Lemma stable_asks {A} (f : Env → A) : Stable e R (asks f).
Proof. intros w r w' [=]. by subst. Qed.

Lemma stable_rd {S A} (C : Contract S) (f : S → A) : Stable e R (rd C f).
Proof. apply (stable_gets (λ w, f (cget C w))). Qed.

Lemma stable_require b x : Stable e R (require b x).
Proof. destruct b; [apply stable_ret|apply stable_throw]. Qed.

Lemma stable_ok_or {A} (o : option A) x : Stable e R (ok_or o x).
Proof. destruct o; [apply stable_ret|apply stable_throw]. Qed.

Lemma stable_bind {A B} (m : M A) (k : A → M B) :
    Stable e R m → (∀ a, Stable e R (k a)) → Stable e R (m ≫= k).
Proof.
    intros Hm Hk w r w'. unfold mbind, M_bind.
    destruct (m e w) as [[a|x] w1] eqn:Hr; intros H.
    - etrans; [by eapply Hm|]. by eapply Hk.
    - simplify_eq. by eapply Hm.
Qed.

(** The environment does not change during a run. *)
Lemma stable_bind_asks {A B} (f : Env → A) (k : A → M B) :
    Stable e R (k (f e)) → Stable e R (asks f ≫= k).
Proof. intros Hk w r w' H. by eapply Hk. Qed.

Lemma stable_map_err {A} f (m : M A) : Stable e R m → Stable e R (map_err f m).
Proof.
    intros Hm w r w'. unfold map_err.
    destruct (m e w) as [[a|x] w1] eqn:Hr; intros [=]; subst; by eapply Hm.
Qed.

Lemma stable_try {A} (m : M A) : Stable e R m → Stable e R (try_ m).
Proof.
    intros Hm w r w'. unfold try_. destruct (m e w) as [o w1] eqn:Hr.
    intros [=]; subst; by eapply Hm.
Qed.

Lemma stable_checkpoint {A} (m : M A) : Stable e R m → Stable e R (checkpoint m).
Proof.
    intros Hm w r w'. unfold checkpoint.
    destruct (m e w) as [[a|x] w1] eqn:Hr; intros [=]; subst; [by eapply Hm|].
    destruct (is_t1c _); [done|]. by eapply Hm.
Qed.

(** A call frame preserves what the successful runs of its body preserve. *)
Lemma stable_call {A} (m : M A) : StableOk e R m → Stable e R (call m).
Proof.
    intros Hm w r w'. unfold call.
    destruct (m e w) as [[a|x] w1] eqn:Hr; intros [=]; subst; [by eapply Hm|done].
Qed.

Lemma stable_mfor {A} (l : list A) f :
    (∀ x, Stable e R (f x)) → Stable e R (mfor l f).
Proof.
    intros Hf. induction l as [|x l IH]; [apply stable_ret|].
    apply stable_bind; [apply Hf|]. intros _. apply IH.
Qed.

Lemma stable_modify g : (∀ w, R w (g w)) → Stable e R (modify g).
Proof. intros Hg w r w' [=]. subst. apply Hg. Qed.

Lemma stable_wr {S} (C : Contract S) g :
    (∀ w, R w (cmod C g w)) → Stable e R (wr C g).
Proof. apply stable_modify. Qed.

Lemma stable_stable_ok {A} (m : M A) : Stable e R m → StableOk e R m.
Proof. intros Hm w a w' H. by eapply Hm. Qed.

Lemma stable_ok_bind {A B} (m : M A) (k : A → M B) :
    StableOk e R m → (∀ a, StableOk e R (k a)) → StableOk e R (m ≫= k).
Proof.
    intros Hm Hk w b w' (a & w1 & H1 & H2)%bind_Ok.
    etrans; [by eapply Hm|]. by eapply Hk.
Qed.

Lemma stable_ok_bind_asks {A B} (f : Env → A) (k : A → M B) :
    StableOk e R (k (f e)) → StableOk e R (asks f ≫= k).
Proof. intros Hk w r w' H. by eapply Hk. Qed.

Lemma stable_ok_map_err {A} f (m : M A) : StableOk e R m → StableOk e R (map_err f m).
Proof. intros Hm w a w' ?%map_err_Ok. by eapply Hm. Qed.

Lemma stable_ok_mfor {A} (l : list A) f :
    (∀ x, StableOk e R (f x)) → StableOk e R (mfor l f).
Proof.
    intros Hf. induction l as [|x l IH]; [apply stable_stable_ok, stable_ret|].
    apply stable_ok_bind; [apply Hf|]. intros _. apply IH.
Qed.
End Stable.

#[export] Hint Resolve stable_ret stable_throw stable_gets stable_asks stable_rd
  stable_require stable_ok_or stable_map_err stable_try stable_checkpoint stable_mfor : stable.

#[export] Hint Extern 1 (PreOrder _) => typeclasses eauto : stable.

Lemma stable_mutate {A} e R `{!PreOrder R} (m : M A) : Stable e R m → Stable e R (mutate m).
Proof.
  intros Hm. apply stable_bind_asks. destruct (is_static e); [by apply stable_throw|done].
Qed.
Lemma stable_scheduled {A} e R `{!PreOrder R} f (m : M A) :
  (since (spec e) f = true → Stable e R m) → Stable e R (scheduled f m).
Proof.
  intros Hm. apply stable_bind_asks. cbv beta.
  destruct (since (spec e) f); [auto|by apply stable_throw].
Qed.

Lemma mutate_Ok {A} (m : M A) a e w w' :
  mutate m e w = (Ok a, w') ↔ is_static e = false ∧ m e w = (Ok a, w').
Proof.
  unfold mutate, asks, mbind, M_bind, throw. destruct (is_static e); naive_solver.
Qed.
Lemma scheduled_Ok {A} f (m : M A) a e w w' :
  scheduled f m e w = (Ok a, w') ↔ since (spec e) f = true ∧ m e w = (Ok a, w').
Proof.
  unfold scheduled, asks, mbind, M_bind, throw. destruct (since (spec e) f); naive_solver.
Qed.

Lemma stable_ok_mutate {A} e R (m : M A) : StableOk e R m → StableOk e R (mutate m).
Proof. intros Hm w a w' H. apply mutate_Ok in H as [_ H]. by apply (Hm w a). Qed.
Lemma stable_ok_scheduled {A} e R f (m : M A) : StableOk e R m → StableOk e R (scheduled f m).
Proof. intros Hm w a w' H. apply scheduled_Ok in H as [_ H]. by apply (Hm w a). Qed.
Lemma stable_ok_checkpoint {A} e R (m : M A) : StableOk e R m → StableOk e R (checkpoint m).
Proof. intros Hm w a w' H. rewrite checkpoint_Ok in H. by apply (Hm w a). Qed.

(** A component of the world is unchanged. *)
Definition keeps {B} (f : World → B) : relation World := λ w w', f w' = f w.
#[export] Instance keeps_preorder {B} (f : World → B) : PreOrder (keeps f).
Proof. split; unfold keeps; [done|]. intros ? ? ? -> ->. done. Qed.

(** An invariant, once true, stays true. *)
Definition maintains (P : World → Prop) : relation World := λ w w', P w → P w'.
#[export] Instance maintains_preorder P : PreOrder (maintains P).
Proof. split; [intros w H; exact H|]. intros ? ? ? H1 H2 H. exact (H2 (H1 H)). Qed.

(** A write to one token leaves the other tokens and its other fields alone. *)
Ltac keeps_token :=
  intros ?; unfold keeps; w_simpl; rewrite ?sread_insert; repeat case_decide; subst;
  first [reflexivity | congruence].

(** Split a compound program into its leaves; leaves are closed by the
    [stable] database or left to the caller. *)
Ltac stable_step :=
  lazymatch goal with
  | |- Stable _ _ (asks _ ≫= _) => apply stable_bind_asks; cbv beta
  | |- Stable _ _ (_ ≫= _) => apply stable_bind; [typeclasses eauto| |intros ?]
  | |- Stable _ _ (if ?b then _ else _) => destruct b eqn:?
  | |- Stable _ _ (match ?o with _ => _ end) => destruct o eqn:?
  | |- Stable _ _ (let '_ := ?p in _) => destruct p eqn:?
  | |- Stable _ _ (map_err _ _) => apply stable_map_err
  | |- Stable _ _ (checkpoint _) => apply stable_checkpoint; [typeclasses eauto|]
  | |- Stable _ _ (try_ _) => apply stable_try
  | |- Stable _ _ (mutate _) => apply stable_mutate; [typeclasses eauto|]
  | |- Stable _ _ (scheduled _ _) => apply stable_scheduled; [typeclasses eauto|intros ?]
  | |- Stable _ _ (mfor _ _) => apply stable_mfor; [typeclasses eauto|intros ?]
  | |- Stable _ (keeps _) (wr _ _) => apply stable_wr; first [done | keeps_token]
  | |- Stable _ (keeps _) (modify _) => apply stable_modify; done
  | |- Stable _ (keeps _) (emit _ _) => apply stable_modify; done
  | |- Stable _ (keeps _) (initialize_code _) => apply stable_modify; done
  | |- Stable _ _ _ => solve [eauto 3 with stable]
  end.
Ltac stable_auto := repeat stable_step.

(** The same for successful runs; read-only leaves come from [Stable]. *)
Ltac stable_ok_step :=
  lazymatch goal with
  | |- StableOk _ _ (asks _ ≫= _) => apply stable_ok_bind_asks; cbv beta
  | |- StableOk _ _ (_ ≫= _) => apply stable_ok_bind; [typeclasses eauto| |intros ?]
  | |- StableOk _ _ (if ?b then _ else _) => destruct b eqn:?
  | |- StableOk _ _ (match ?o with _ => _ end) => destruct o eqn:?
  | |- StableOk _ _ (map_err _ _) => apply stable_ok_map_err
  | |- StableOk _ _ (mutate _) => apply stable_ok_mutate
  | |- StableOk _ _ (scheduled _ _) => apply stable_ok_scheduled
  | |- StableOk _ _ (checkpoint _) => apply stable_ok_checkpoint
  | |- StableOk _ _ (mfor _ _) => apply stable_ok_mfor; [typeclasses eauto|intros ?]
  | |- StableOk _ _ (wr _ _) => apply stable_stable_ok, stable_wr; intros ? ?; assumption
  | |- StableOk _ _ (emit _ _) => apply stable_stable_ok, stable_modify; intros ? ?; assumption
  | |- StableOk _ _ _ => solve [eauto 3 with stable | apply stable_stable_ok; eauto 3 with stable]
  end.
Ltac stable_ok_auto := repeat stable_ok_step.

(** Replace every run in the context whose program is stable for [R] by the
    fact that its worlds are related. *)
Ltac stable_facts R :=
  repeat match goal with
  | H : ?m ?e ?w = (?r, ?w') |- _ =>
      let F := fresh "Hkeep" in
      assert (Stable e R m) as F by (stable_auto; fail);
      specialize (F w r w' H); clear H; cbv beta delta [keeps] in F
  end.

(** Note, for every run in the context that keeps the component [f], that it does. *)
Ltac note_keeps f :=
  repeat match goal with
  | H : ?m ?e ?w = (?r, ?w') |- _ =>
      assert_fails (constr_eq w w');
      let T := eval cbv beta in (f w' = f w) in
      lazymatch goal with _ : T |- _ => fail | _ => idtac end;
      let F := fresh "Hkeep" in
      assert (Stable e (keeps f) m) as F by (stable_auto; fail);
      specialize (F w r w' H); cbv beta delta [keeps] in F
  end.

(** Identify the worlds before and after a read-only run. *)
Ltac same_world :=
  repeat match goal with
  | H : ?m ?e ?w = (?r, ?w') |- _ =>
      is_var w'; assert_fails (constr_eq w w');
      let F := fresh "Hsame" in
      assert (Stable e eq m) as F by (stable_auto; fail);
      specialize (F w r w' H); subst w'
  end.

Lemma stable_has_code e R `{!PreOrder R} a : Stable e R (has_code a).
Proof. by apply stable_gets. Qed.
Lemma stable_is_retired_root e R `{!PreOrder R} a : Stable e R (is_retired_root a).
Proof. unfold is_retired_root. stable_auto. Qed.
Lemma stable_now_u64 e R `{!PreOrder R} : Stable e R now_u64.
Proof. by apply stable_asks. Qed.
#[export] Hint Resolve stable_has_code stable_is_retired_root stable_now_u64 : stable.

(** ** Queries *)

(** [m] changes nothing, and its result depends only on the component [f]. *)
Definition Query {A B} (e : Env) (f : World → B) (m : M A) : Prop :=
  ∀ w1 w2, f w1 = f w2 → ∃ r, m e w1 = (r, w1) ∧ m e w2 = (r, w2).

Create HintDb query discriminated.
#[export] Hint Constants Opaque : query.

Section Query.
Context (e : Env) {B : Type} (f : World → B).

Lemma query_ret {A} (a : A) : Query e f (mret a).
Proof. intros w1 w2 _. by exists (Ok a). Qed.
Lemma query_throw {A} x : Query e f (throw x : M A).
Proof. intros w1 w2 _. by exists (Err x). Qed.
Lemma query_asks {A} (g : Env → A) : Query e f (asks g).
Proof. intros w1 w2 _. by exists (Ok (g e)). Qed.
Lemma query_rd {S A} (C : Contract S) (g : S → A) :
  (∀ w1 w2, f w1 = f w2 → cget C w1 = cget C w2) → Query e f (rd C g).
Proof. intros Hg w1 w2 H. exists (Ok (g (cget C w1))). unfold rd, gets. by rewrite (Hg w1 w2 H). Qed.
Lemma query_require b x : Query e f (require b x).
Proof. destruct b; [apply query_ret|apply query_throw]. Qed.
Lemma query_ok_or {A} (o : option A) x : Query e f (ok_or o x).
Proof. destruct o; [apply query_ret|apply query_throw]. Qed.
Lemma query_bind {A C} (m : M A) (k : A → M C) :
  Query e f m → (∀ a, Query e f (k a)) → Query e f (m ≫= k).
Proof.
  intros Hm Hk w1 w2 H. destruct (Hm w1 w2 H) as ([a|x] & H1 & H2).
  - destruct (Hk a w1 w2 H) as (r & H3 & H4). exists r.
    unfold mbind, M_bind. by rewrite H1, H2.
  - exists (Err x). unfold mbind, M_bind. by rewrite H1, H2.
Qed.

(** A query gives the same answer wherever [f] is the same. *)
Lemma query_transfer {A} (m : M A) w1 w2 r w1' :
  Query e f m → f w1 = f w2 → m e w1 = (r, w1') → w1' = w1 ∧ m e w2 = (r, w2).
Proof.
  intros Hm H Hr. destruct (Hm w1 w2 H) as (r' & H1 & H2).
  rewrite H1 in Hr. injection Hr as <- <-. done.
Qed.
End Query.
#[export] Hint Resolve query_ret query_throw query_asks query_require query_ok_or : query.
#[export] Hint Extern 3 (Query _ _ (rd _ _)) =>
  apply query_rd; w_simpl; intros ? ? ?; simplify_eq; congruence : query.

Ltac query_step :=
  lazymatch goal with
  | |- Query _ _ (_ ≫= _) => apply query_bind; [|intros ?]
  | |- Query _ _ (if ?b then _ else _) => destruct b eqn:?
  | |- Query _ _ (match ?o with _ => _ end) => destruct o eqn:?
  | |- Query _ _ (let '_ := ?p in _) => destruct p eqn:?
  | |- Query _ _ _ => solve [eauto 3 with query]
  end.
Ltac query_auto := repeat query_step.

(** ** A concrete environment

    Used to run the model on examples: an injective stand-in for the hash and a
    signature check that recovers the address stored in [r]. *)
Definition example_hash (bs : list N) : B256 :=
  fold_left (λ acc b, acc * 257 + (b mod 256) + 1) bs 0.

Lemma example_hash_snoc l x : example_hash (l ++ [x]) = example_hash l * 257 + x mod 256 + 1.
Proof. unfold example_hash. by rewrite fold_left_app. Qed.
Lemma example_hash_inj l l' : is_bytes l → is_bytes l' → example_hash l = example_hash l' → l = l'.
Proof.
  revert l'. induction l as [|x l IH] using rev_ind; intros l'; destruct l' as [|x' l' _] using rev_ind;
    rewrite ?example_hash_snoc; intros Hl Hl' E; [done|cbn in E; lia|cbn in E; lia|].
  apply Forall_app in Hl as [Hl [Hx _]%Forall_cons], Hl' as [Hl' [Hx' _]%Forall_cons].
  rewrite !N.mod_small in E by done. f_equal; [apply IH; [done|done|lia]|f_equal; lia].
Qed.

Definition example_env (sp : TempoHardfork) (ts : N) : Env := {|
  spec := sp; timestamp := ts; block_number := 1; chain_id := 4217; beneficiary := 0xBE;
  is_static := false; keccak256 := example_hash;
  ecrecover := λ _ _ r _, Some r; crypto := Signatures.example_crypto;
  eth_precompiles := λ _ a, (1 <=? a) && (a <=? 0x11);
  create2 := λ _ salt _, salt; configurable_account_recovery_factory := Some 0xFA
|}.
(** The same without signatures of permits. *)
Definition unsigned_env (sp : TempoHardfork) (ts : N) : Env := {|
  spec := sp; timestamp := ts; block_number := 1; chain_id := 4217; beneficiary := 0xBE;
  is_static := false; keccak256 := example_hash;
  ecrecover := λ _ _ _ _, None; crypto := Signatures.example_crypto;
  eth_precompiles := λ _ a, (1 <=? a) && (a <=? 0x11);
  create2 := λ _ salt _, salt; configurable_account_recovery_factory := Some 0xFA
|}.

(** ** Total correctness

    [returns m e w Q]: run in [e] from [w], [m] succeeds and its result and final world
    satisfy [Q]. The rules follow the operations of the monad, so a proof that an
    operation succeeds walks through its body. *)

Definition returns {A} (m : M A) (e : Env) (w : World) (Q : A → World → Prop) : Prop :=
  ∃ a w', m e w = (Ok a, w') ∧ Q a w'.

Section rules.
Context {A : Type} (e : Env) (w : World).
Implicit Types (m : M A) (Q : A → World → Prop).

Lemma returns_bind {B} (m : M B) (f : B → M A) Q :
  returns m e w (λ b w', returns (f b) e w' Q) → returns (m ≫= f) e w Q.
Proof. intros (b & w1 & H & a & w2 & Hf & HQ). exists a, w2. split; [|done]. unfold mbind, M_bind. by rewrite H. Qed.
Lemma returns_mono m Q (R : A → World → Prop) :
  returns m e w Q → (∀ a w', m e w = (Ok a, w') → Q a w' → R a w') → returns m e w R.
Proof. intros (a & w' & H & HQ) HR. exists a, w'. eauto. Qed.
Lemma returns_ret a Q : Q a w → returns (mret a) e w Q.
Proof. by exists a, w. Qed.
Lemma returns_asks (f : Env → A) Q : Q (f e) w → returns (asks f) e w Q.
Proof. by exists (f e), w. Qed.
Lemma returns_rd {S} (C : Contract S) (f : S → A) Q : Q (f (cget C w)) w → returns (rd C f) e w Q.
Proof. by exists (f (cget C w)), w. Qed.
Lemma returns_ok_or o (x : A) err Q : o = Some x → Q x w → returns (ok_or o err) e w Q.
Proof. intros -> HQ. by exists x, w. Qed.
Lemma returns_map_err f m Q : returns m e w Q → returns (map_err f m) e w Q.
Proof. intros (a & w' & H & HQ). exists a, w'. unfold map_err. by rewrite H. Qed.
Lemma returns_mutate m Q : is_static e = false → returns m e w Q → returns (mutate m) e w Q.
Proof. intros He (a & w' & H & HQ). exists a, w'. unfold mutate, asks, mbind, M_bind. by rewrite He. Qed.
Lemma returns_scheduled f m Q : since (spec e) f = true → returns m e w Q → returns (scheduled f m) e w Q.
Proof. intros He (a & w' & H & HQ). exists a, w'. unfold scheduled, asks, mbind, M_bind. by rewrite He. Qed.
End rules.

Section effects.
Context (e : Env) (w : World).
Implicit Types Q : () → World → Prop.
Lemma returns_require b err Q : b = true → Q () w → returns (require b err) e w Q.
Proof. intros -> HQ. by exists (), w. Qed.
Lemma returns_wr {S} (C : Contract S) g Q : Q () (cmod C g w) → returns (wr C g) e w Q.
Proof. by exists (), (cmod C g w). Qed.
Lemma returns_emit a ev Q : Q () (emit a ev e w).2 → returns (emit a ev) e w Q.
Proof. by exists (), (emit a ev e w).2. Qed.
Lemma returns_try {A} (m : M A) (Q : outcome A → World → Prop) :
  returns m e w (λ a w', Q (Ok a) w') → returns (try_ m) e w Q.
Proof. intros (a & w' & H & HQ). exists (Ok a), w'. unfold try_. by rewrite H. Qed.
End effects.

(** One step through a body. Conditions of checks are left as goals. *)
Ltac ret_step :=
  lazymatch goal with
  | |- returns (_ ≫= _) _ _ _ => apply returns_bind
  | |- returns (mret _) _ _ _ => apply returns_ret
  | |- returns (asks _) _ _ _ => apply returns_asks
  | |- returns (rd _ _) _ _ _ => apply returns_rd
  | |- returns (wr _ _) _ _ _ => apply returns_wr
  | |- returns (emit _ _) _ _ _ => apply returns_emit
  | |- returns (require _ _) _ _ _ => apply returns_require
  | |- returns (ok_or _ _) _ _ _ => eapply returns_ok_or
  | |- returns (map_err _ _) _ _ _ => apply returns_map_err
  | |- returns (mutate _) _ _ _ => apply returns_mutate
  | |- returns (scheduled _ _) _ _ _ => apply returns_scheduled
  | |- returns (try_ _) _ _ _ => apply returns_try
  end.

(** ** Failures *)

(** [rejects m e w err]: [m] stops with [err] before it changes anything. *)
Definition rejects {A} (m : M A) (e : Env) (w : World) (err : TempoPrecompileError) : Prop := m e w = (Err err, w).

Section failures.
Context (e : Env) (w : World) (err : TempoPrecompileError).
Lemma rejects_here {A B} (m : M A) (f : A → M B) : rejects m e w err → rejects (m ≫= f) e w err.
Proof. intros H. unfold rejects, mbind, M_bind. by rewrite H. Qed.
Lemma rejects_after {A B} (m : M A) (f : A → M B) :
  returns m e w (λ a w', w' = w ∧ rejects (f a) e w err) → rejects (m ≫= f) e w err.
Proof. intros (a & w' & H & -> & Hf). unfold rejects, mbind, M_bind. by rewrite H. Qed.
Lemma rejects_require b : b = false → rejects (require b err) e w err.
Proof. by intros ->. Qed.
Lemma rejects_mutate {A} (m : M A) : is_static e = false → rejects m e w err → rejects (mutate m) e w err.
Proof. intros He H. unfold rejects, mutate, asks, mbind, M_bind. by rewrite He. Qed.
End failures.
