(* ===== verification/StorageCredits.v ===== *)
(** * Storage credits (TIP-1060)

    [storage_credits/mod.rs] and [storage_credits/accounting.rs]: an account earns a
    credit for every storage slot it clears and can spend credits on slots it
    creates, as far as its transaction-local mode and budget allow.

    [sstore_storage_credits] is the hook that runs after every storage write from
    T7 on. The storage of this model has decoded fields instead of slots, so a
    component that accounts for credits calls [sstore_slot] with the word a slot
    held and the word it now holds; the DEX is the only modelled component whose
    behaviour depends on it. Gas is not modelled, and the slots exempt from credits
    belong to other accounts. *)

From S2P Require Import Prelude Hardfork Address Errors DexState State Monad.

Module Credits.

(** ** Modes and the transient word *)

Definition credit_mode_u8 (m : CreditMode) : N :=
  match m with Refund => 0 | Preserve => 1 | Direct => 2 end.
Definition credit_mode_try_from (value : N) : option CreditMode :=
  match value with
  | 0 => Some Refund
  | 1 => Some Preserve
  | 2 => Some Direct
  | _ => None
  end.

(** The little-endian 64-bit limbs of a word. *)
Definition limb (i : N) (x : U256) : N := N.shiftr x (64 * i) mod 2 ^ 64.
Definition from_limbs (l0 l1 l2 l3 : N) : U256 :=
  l0 + N.shiftl l1 64 + N.shiftl l2 128 + N.shiftl l3 192.

Definition transient_try_from (value : U256) : option TransientState.t :=
  mode ← credit_mode_try_from (limb 0 value mod 2 ^ 8);
  Some (TransientState.mk mode (limb 1 value) (limb 3 value)).
Definition transient_into (s : TransientState.t) : U256 :=
  from_limbs (credit_mode_u8 s.(TransientState.mode)) s.(TransientState.budget) 0
    s.(TransientState.pending_refunds).

(** ** Accessors *)

Definition balance_of (account : Address) : M N :=
  rd creditsC (λ s, s.(StorageCreditsStorage.balances).[account]).
Definition credit_state_of (account : Address) : M TransientState.t :=
  rd creditsC (λ s, s.(StorageCreditsStorage.transient).[account]).
Definition write_credit_state_of (account : Address) (state : TransientState.t) : M () :=
  wr creditsC (StorageCreditsStorage.set_transient (insert account state)).
Definition mode_of (account : Address) : M CreditMode :=
  s ← credit_state_of account; mret s.(TransientState.mode).
Definition budget_of (account : Address) : M N :=
  s ← credit_state_of account; mret s.(TransientState.budget).

Definition write_mode_with_budget (msg_sender : Address) (mode : CreditMode) (budget : N) : M () :=
  state ← credit_state_of msg_sender;
  write_credit_state_of msg_sender
    (TransientState.mk mode budget state.(TransientState.pending_refunds)).
Definition set_mode (msg_sender : Address) (mode : CreditMode) : M () :=
  write_mode_with_budget msg_sender mode
    (match mode with Direct => U64_MAX | _ => 0 end).
Definition set_budget (msg_sender : Address) (credit_budget : N) : M () :=
  write_mode_with_budget msg_sender Direct credit_budget.

(** ** The hook *)

(** [SstoreTransitionFlags], the part that does not concern gas. *)
Definition crosses_zero_boundary (present new : U256) : bool :=
  negb (Bool.eqb (present =? 0) (new =? 0)).
Definition is_zero_to_nonzero (present new : U256) : bool := (present =? 0) && negb (new =? 0).
Definition is_nonzero_to_zero (present new : U256) : bool := negb (present =? 0) && (new =? 0).

Definition spend_budget (t : TransientState.t) : TransientState.t :=
  if t.(TransientState.budget) =? U64_MAX then t
  else TransientState.mk t.(TransientState.mode) (t.(TransientState.budget) - 1)
         t.(TransientState.pending_refunds).
Definition defer_refund (t : TransientState.t) : TransientState.t :=
  TransientState.mk t.(TransientState.mode) t.(TransientState.budget)
    (saturating_add U64_MAX t.(TransientState.pending_refunds) 1).

(** The effect of one storage write of [owner] on the credits. *)
Definition sstore_storage_credits (owner : Address) (present new : U256)
    (s : StorageCreditsStorage.State) : StorageCreditsStorage.State :=
  if negb (crosses_zero_boundary present new) then s
  else if owner =? STORAGE_CREDITS_ADDRESS then s
  else
    let credit := s.(StorageCreditsStorage.balances).[owner] in
    if is_nonzero_to_zero present new then
      StorageCreditsStorage.set_balances (insert owner (saturating_add U64_MAX credit 1)) s
    else
      let t := s.(StorageCreditsStorage.transient).[owner] in
      match t.(TransientState.mode) with
      | Direct =>
          if negb (credit =? 0) && negb (t.(TransientState.budget) =? 0) then
            StorageCreditsStorage.set_balances (insert owner (credit - 1))
              (StorageCreditsStorage.set_transient (insert owner (spend_budget t)) s)
          else s
      | Preserve => s
      | Refund => StorageCreditsStorage.set_transient (insert owner (defer_refund t)) s
      end.

(** A write that replaces the word [present] of a slot of [owner] by [new]. *)
Definition sstore_slot (owner : Address) (present new : U256) : M () :=
  sp ← asks spec;
  if is_t7 sp then wr creditsC (sstore_storage_credits owner present new) else mret ().

(** The slots of a record, word by word. *)
Fixpoint sstore_slots (owner : Address) (present new : list U256) : M () :=
  match present, new with
  | p :: present', n :: new' => sstore_slot owner p n ;; sstore_slots owner present' new'
  | _, _ => mret ()
  end.

(** ** Tracking *)

Definition track_minted_credits {A} (account : Address) (f : M A) : M (A * N) :=
  sp ← asks spec;
  if negb (is_t7 sp) then value ← f; mret (value, 0)
  else
    before ← balance_of account;
    value ← f;
    after ← balance_of account;
    require (negb (after <? before)) (Fatal "storage credit operation consumed credits") ;;
    mret (value, after - before).

Definition delta (before after : N) : Z := (Z.of_N after - Z.of_N before)%Z.

(** The result of [f] is only looked at after the mode has been reset. *)
Definition with_budget {A} (credit_owner : Address) (limit : N) (f : M A) : M (A * Z) :=
  sp ← asks spec;
  if negb (is_t7 sp) then value ← f; mret (value, 0%Z)
  else if limit =? 0 then
    before ← balance_of credit_owner;
    value ← f;
    after ← balance_of credit_owner;
    mret (value, delta before after)
  else
    set_budget credit_owner limit ;;
    before ← balance_of credit_owner;
    result ← try_ f;
    after ← balance_of credit_owner;
    current_state ← credit_state_of credit_owner;
    write_credit_state_of credit_owner
      (TransientState.mk Preserve 0 current_state.(TransientState.pending_refunds)) ;;
    match result with
    | Ok value => mret (value, delta before after)
    | Err x => throw x
    end.

(** [preserve_storage_credits] of [dispatch.rs]. *)
Definition preserve_storage_credits (credit_owner : Address) : M () :=
  sp ← asks spec;
  if is_t7 sp then set_mode credit_owner Preserve else mret ().

(** ** Deferred credits

    [StorageCreditDeltas]: a [BTreeMap], here the list of its entries in key order. *)
Definition deltas := list (Address * N).

Fixpoint credit_slots (user : Address) (slots : N) (d : deltas) : deltas :=
  if slots =? 0 then d
  else
    match d with
    | [] => [(user, slots)]
    | (u, total) :: d' =>
        if user =? u then (u, saturating_add U64_MAX total slots) :: d'
        else if user <? u then (user, slots) :: d
        else (u, total) :: credit_slots user slots d'
    end.

Definition flush (d : deltas) (apply : Address → N → M ()) : M () :=
  mfor d (λ '(user, slots), apply user slots).

(** ** Dispatch *)

Inductive op := SetMode (newMode : CreditMode) | SetBudget (credits : N).

Definition dispatch (msg_sender : Address) (o : op) : M () :=
  match o with
  | SetMode m => mutate (set_mode msg_sender m)
  | SetBudget n => mutate (set_budget msg_sender n)
  end.

(** ** The transient word decodes to what was encoded *)

Lemma limb_0 l0 l1 l2 l3 : l0 < 2 ^ 64 → limb 0 (from_limbs l0 l1 l2 l3) = l0.
Proof.
  intros H. unfold limb, from_limbs. rewrite N.mul_0_r, N.shiftr_0_r, !N.shiftl_mul_pow2.
  replace (l0 + l1 * 2 ^ 64 + l2 * 2 ^ 128 + l3 * 2 ^ 192)
    with (l0 + (l1 + l2 * 2 ^ 64 + l3 * 2 ^ 128) * 2 ^ 64) by lia.
  rewrite N.Div0.mod_add. by apply N.mod_small.
Qed.
Lemma limb_1 l0 l1 l2 l3 : l0 < 2 ^ 64 → l1 < 2 ^ 64 → limb 1 (from_limbs l0 l1 l2 l3) = l1.
Proof.
  intros H0 H1. unfold limb, from_limbs. rewrite N.mul_1_r, N.shiftr_div_pow2, !N.shiftl_mul_pow2.
  replace (l0 + l1 * 2 ^ 64 + l2 * 2 ^ 128 + l3 * 2 ^ 192)
    with (l0 + (l1 + (l2 + l3 * 2 ^ 64) * 2 ^ 64) * 2 ^ 64) by lia.
  rewrite N.div_add, (N.div_small l0), N.add_0_l, N.Div0.mod_add by done. by apply N.mod_small.
Qed.
Lemma limb_3 l0 l1 l3 :
  l0 < 2 ^ 64 → l1 < 2 ^ 64 → l3 < 2 ^ 64 → limb 3 (from_limbs l0 l1 0 l3) = l3.
Proof.
  intros H0 H1 H3. unfold limb, from_limbs. rewrite N.shiftr_div_pow2, !N.shiftl_mul_pow2.
  replace (64 * 3) with 192 by done.
  rewrite N.div_add by done. rewrite N.div_small.
  - rewrite N.add_0_l. by apply N.mod_small.
  - assert (l1 * 2 ^ 64 ≤ (2 ^ 64 - 1) * 2 ^ 64) by (apply N.mul_le_mono_r; lia). lia.
Qed.

(** ** Runs with accounting *)

(** The world but for the credits. *)
Definition beside (w : World) : World := set_w_credits (λ _, dflt) w.

Lemma track_run {A} a (m : M A) e w v n w' :
  track_minted_credits a m e w = (Ok (v, n), w') → m e w = (Ok v, w').
Proof. unfold track_minted_credits, balance_of. intros H. m_inv; simplify_eq; done. Qed.
Lemma with_budget_run {A} a n (m : M A) e w v d w' :
  with_budget a n m e w = (Ok (v, d), w') →
  ∃ w1 w2, beside w1 = beside w ∧ m e w1 = (Ok v, w2) ∧ beside w' = beside w2.
Proof.
  unfold with_budget, balance_of, set_budget, write_mode_with_budget, credit_state_of, write_credit_state_of.
  intros H. m_inv; simplify_eq; try by eauto.
  match goal with H : try_ _ _ _ = _ |- _ => apply try_Ok in H end.
  eexists _, _. split; [|split; [eassumption|]]; done.
Qed.

(** ** What the accounting touches *)

Section Frame.
Context (e : Env) (R : relation World) `{!PreOrder R} (HR : ∀ g w, R w (set_w_credits g w)).

Lemma credits_wr g : Stable e R (wr creditsC g).
Proof. apply stable_wr. intros. apply HR. Qed.
#[local] Hint Resolve credits_wr : stable.
Lemma credits_sstore a x y : Stable e R (sstore_slot a x y).
Proof. unfold sstore_slot. stable_auto. Qed.
Lemma credits_track {A} a (m : M A) : Stable e R m → Stable e R (track_minted_credits a m).
Proof. intros Hm. unfold track_minted_credits, balance_of. stable_auto. Qed.
Lemma credits_budget {A} a n (m : M A) : Stable e R m → Stable e R (with_budget a n m).
Proof.
  intros Hm. unfold with_budget, balance_of, set_budget, write_mode_with_budget, credit_state_of,
    write_credit_state_of. stable_auto.
Qed.
Lemma credits_preserve a : Stable e R (preserve_storage_credits a).
Proof.
  unfold preserve_storage_credits, set_mode, write_mode_with_budget, credit_state_of,
    write_credit_state_of. stable_auto.
Qed.
Lemma credits_dispatch a o : Stable e R (dispatch a o).
Proof.
  destruct o; unfold dispatch, set_mode, set_budget, write_mode_with_budget, credit_state_of,
    write_credit_state_of; stable_auto.
Qed.
End Frame.

End Credits.
