(* ===== verification/DexOrder.v ===== *)
(** * Orders of the stablecoin DEX

    [stablecoin_dex/order/mod.rs] (the logical order) and
    [stablecoin_dex/order/storage.rs] (its three physical layouts and the handler
    that reads, writes, migrates and deletes records). *)

From S2P Require Import Prelude Packing Hardfork Address Errors DexState State Monad.
From S2P Require Import StorageCredits.

Module Orders.
Import Order.

Inductive OrderError :=
| InvalidBidFlipTick (tick flip_tick : Z)
| InvalidAskFlipTick (tick flip_tick : Z)
| FillAmountExceedsRemaining (requested available : N).

(** ** The logical order *)

Definition new (order_id : N) (maker : Address) (book_key : B256) (amount : N) (tick : Z)
    (is_bid is_flip : bool) (flip_tick : Z) : t :=
  mk order_id maker book_key is_bid tick amount amount 0 0 is_flip flip_tick.
Definition new_bid (order_id : N) (maker : Address) (book_key : B256) (amount : N) (tick : Z) : t :=
  new order_id maker book_key amount tick true false 0.
Definition new_ask (order_id : N) (maker : Address) (book_key : B256) (amount : N) (tick : Z) : t :=
  new order_id maker book_key amount tick false false 0.

Definition new_flip (order_id : N) (maker : Address) (book_key : B256) (amount : N) (tick : Z)
    (is_bid : bool) (flip_tick : Z) (hardfork : TempoHardfork) : OrderError + t :=
  let t5_active := is_t5 hardfork in
  let invalid :=
    if is_bid then (flip_tick <? tick)%Z || (negb t5_active && (flip_tick =? tick)%Z)
    else (tick <? flip_tick)%Z || (negb t5_active && (flip_tick =? tick)%Z) in
  if invalid then
    inl (if is_bid then InvalidBidFlipTick tick flip_tick else InvalidAskFlipTick tick flip_tick)
  else inr (new order_id maker book_key amount tick is_bid true flip_tick).

Definition is_fully_filled (o : t) : bool := o.(remaining) =? 0.

Definition fill (o : t) (fill_amount : N) : OrderError + t :=
  if o.(remaining) <? fill_amount then inl (FillAmountExceedsRemaining fill_amount o.(remaining))
  else inr (set_remaining (λ r, saturating_sub r fill_amount) o).

Definition create_flipped_order (o : t) (new_order_id : N) : t :=
  mk new_order_id o.(maker) o.(book_key) (negb o.(is_bid)) o.(flip_tick) o.(amount)
    o.(amount) 0 0 true o.(tick).

(** ** Physical layouts *)

Definition ORDER_VERSION_V1 : N := 1.
Definition ORDER_VERSION_V2 : N := 2.

Inductive OrderVersion := VLegacy | VV1 | VV2.
(** The version byte of slot 0. *)
Definition version_try_from (version : N) : option OrderVersion :=
  match version with 0 => Some VLegacy | 1 => Some VV1 | 2 => Some VV2 | _ => None end.

Definition flags_pack (is_bid is_flip : bool) : N :=
  N.lor (if is_bid then 1 else 0) (if is_flip then 2 else 0).
Definition flags_is_bid (metadata : N) : bool := negb (N.land metadata 1 =? 0).
Definition flags_is_flip (metadata : N) : bool := negb (N.land metadata 2 =? 0).

Definition v1_new (o : t) : V1Order.t :=
  V1Order.mk o.(maker) (flags_pack o.(is_bid) o.(is_flip)) o.(tick) o.(flip_tick) o.(amount)
    o.(remaining) o.(prev) o.(next) o.(book_key).
Definition v1_into_order (v : V1Order.t) (order_id : N) : t :=
  mk order_id v.(V1Order.maker) v.(V1Order.book_key) (flags_is_bid v.(V1Order.metadata))
    v.(V1Order.tick) v.(V1Order.amount) v.(V1Order.remaining) v.(V1Order.prev)
    v.(V1Order.next) (flags_is_flip v.(V1Order.metadata)) v.(V1Order.flip_tick).
Definition v2_new (o : t) (book_index : N) : V2Order.t :=
  V2Order.mk o.(maker) (flags_pack o.(is_bid) o.(is_flip)) o.(tick) o.(flip_tick) book_index
    o.(amount) o.(remaining) o.(prev) o.(next).
Definition v2_into_order (v : V2Order.t) (order_id : N) (book_key : B256) : t :=
  mk order_id v.(V2Order.maker) book_key (flags_is_bid v.(V2Order.metadata))
    v.(V2Order.tick) v.(V2Order.amount) v.(V2Order.remaining) v.(V2Order.prev)
    v.(V2Order.next) (flags_is_flip v.(V2Order.metadata)) v.(V2Order.flip_tick).

(** The words of a record, slot by slot, with the field offsets that the layout
    macro assigns; slots a layout does not have are zero. *)
Definition packed (fs : list (U256 * N * N)) : U256 := default 0 (Packing.pack_fields fs 0).

Definition legacy_words (o : t) : list U256 :=
  [ packed [(o.(order_id), 0, 16)];
    packed [(o.(maker), 0, 20)];
    packed [(o.(book_key), 0, 32)];
    packed [(Packing.bool_word o.(is_bid), 0, 1); (Packing.i16_word o.(tick), 1, 2);
            (o.(amount), 3, 16)];
    packed [(o.(remaining), 0, 16); (o.(prev), 16, 16)];
    packed [(o.(next), 0, 16); (Packing.bool_word o.(is_flip), 16, 1);
            (Packing.i16_word o.(flip_tick), 17, 2)] ].
Definition v1_words (v : V1Order.t) : list U256 :=
  [ packed [(v.(V1Order.maker), 0, 20); (v.(V1Order.metadata), 20, 1);
            (Packing.i16_word v.(V1Order.tick), 21, 2);
            (Packing.i16_word v.(V1Order.flip_tick), 23, 2); (0, 25, 6);
            (ORDER_VERSION_V1, 31, 1)];
    packed [(v.(V1Order.amount), 0, 16); (v.(V1Order.remaining), 16, 16)];
    packed [(v.(V1Order.prev), 0, 16); (v.(V1Order.next), 16, 16)];
    packed [(v.(V1Order.book_key), 0, 32)]; 0; 0 ].
Definition v2_words (v : V2Order.t) : list U256 :=
  [ packed [(v.(V2Order.maker), 0, 20); (v.(V2Order.metadata), 20, 1);
            (Packing.i16_word v.(V2Order.tick), 21, 2);
            (Packing.i16_word v.(V2Order.flip_tick), 23, 2); (v.(V2Order.book_index), 25, 4);
            (0, 29, 2); (ORDER_VERSION_V2, 31, 1)];
    packed [(v.(V2Order.amount), 0, 16); (v.(V2Order.remaining), 16, 16)];
    packed [(v.(V2Order.prev), 0, 16); (v.(V2Order.next), 16, 16)]; 0; 0; 0 ].
Definition record_words (r : OrderRecord.t) : list U256 :=
  match r with
  | OrderRecord.Legacy o => legacy_words o
  | OrderRecord.V1 v => v1_words v
  | OrderRecord.V2 v => v2_words v
  end.

(** ** The handler

    A record is read by the layout it was written in. Before T8 the source takes
    every record to be a legacy one; since the other layouts are only written from
    T8 on, this is the same as long as hardforks do not go back. *)

Definition record_version (r : OrderRecord.t) : OrderVersion :=
  match r with OrderRecord.Legacy _ => VLegacy | OrderRecord.V1 _ => VV1 | OrderRecord.V2 _ => VV2 end.

Definition load (id : N) : M OrderRecord.t := rd dexC (λ s, s.(Dex.orders).[id]).

(** Replace the record; every slot runs the storage-credits hook. *)
Definition store (id : N) (r : OrderRecord.t) : M () :=
  old ← load id;
  wr dexC (Dex.set_orders (insert id r)) ;;
  Credits.sstore_slots STABLECOIN_DEX_ADDRESS (record_words old) (record_words r).

Definition record_maker (r : OrderRecord.t) : Address :=
  match r with
  | OrderRecord.Legacy o => o.(maker)
  | OrderRecord.V1 v => v.(V1Order.maker)
  | OrderRecord.V2 v => v.(V2Order.maker)
  end.
Definition record_maker_of (id : N) : M Address := r ← load id; mret (record_maker r).

(** Writes through the field handlers [remaining()], [prev()] and [next()]. *)
Definition record_set_remaining (x : N) (r : OrderRecord.t) : OrderRecord.t :=
  match r with
  | OrderRecord.Legacy o => OrderRecord.Legacy (set_remaining (λ _, x) o)
  | OrderRecord.V1 v => OrderRecord.V1 (V1Order.set_remaining (λ _, x) v)
  | OrderRecord.V2 v => OrderRecord.V2 (V2Order.set_remaining (λ _, x) v)
  end.
Definition record_set_prev (x : N) (r : OrderRecord.t) : OrderRecord.t :=
  match r with
  | OrderRecord.Legacy o => OrderRecord.Legacy (set_prev (λ _, x) o)
  | OrderRecord.V1 v => OrderRecord.V1 (V1Order.set_prev (λ _, x) v)
  | OrderRecord.V2 v => OrderRecord.V2 (V2Order.set_prev (λ _, x) v)
  end.
Definition record_set_next (x : N) (r : OrderRecord.t) : OrderRecord.t :=
  match r with
  | OrderRecord.Legacy o => OrderRecord.Legacy (set_next (λ _, x) o)
  | OrderRecord.V1 v => OrderRecord.V1 (V1Order.set_next (λ _, x) v)
  | OrderRecord.V2 v => OrderRecord.V2 (V2Order.set_next (λ _, x) v)
  end.
Definition write_remaining (id : N) (x : N) : M () :=
  r ← load id; store id (record_set_remaining x r).
Definition write_prev (id : N) (x : N) : M () := r ← load id; store id (record_set_prev x r).
Definition write_next (id : N) (x : N) : M () := r ← load id; store id (record_set_next x r).

(** [StablecoinDEX::book_key_for_index]. *)
Definition book_key_for_index (index : N) : M B256 :=
  keys ← rd dexC Dex.book_keys;
  ok_or (keys !! N.to_nat index) (StablecoinDEX StablecoinDEXError.PairDoesNotExist).

Definition read_with_book_key (id : N) (known_book : option B256) : M t :=
  r ← load id;
  match r with
  | OrderRecord.Legacy o => mret o
  | OrderRecord.V1 v => mret (v1_into_order v id)
  | OrderRecord.V2 v =>
      book_key ← match known_book with
                 | None => book_key_for_index v.(V2Order.book_index)
                 | Some book_key => mret book_key
                 end;
      mret (v2_into_order v id book_key)
  end.
Definition read_in_book (id : N) (book_key : B256) : M t := read_with_book_key id (Some book_key).
Definition read (id : N) : M t := read_with_book_key id None.

(** [BookId::index]: the id is one-based, zero means unset. *)
Definition book_id_index (book_id : N) : option N := checked_sub book_id 1.

(** The record that a write of [o] into the book with id [book_id] stores. *)
Definition record_for (sp : TempoHardfork) (o : t) (book_id : N) : OrderRecord.t :=
  if negb (is_t8 sp) then OrderRecord.Legacy o
  else
    match book_id_index book_id with
    | Some book_index => OrderRecord.V2 (v2_new o book_index)
    | None => OrderRecord.V1 (v1_new o)
    end.
Definition write_in_book (id : N) (o : t) (book_id : N) : M () :=
  sp ← asks spec; store id (record_for sp o book_id).

Definition delete (id : N) : M () := store id dflt.

End Orders.
