(* ===== verification/DexBook.v ===== *)
(** * Order books of the stablecoin DEX

    [stablecoin_dex/orderbook.rs]: prices and rounding, the per-order arithmetic
    shared by swaps and quotes, the walk over resting orders, tick levels and the
    bitmaps that locate the next tick with orders. *)

From S2P Require Import Prelude Packing Hardfork Address Errors DexState State Monad.
From S2P Require Import StorageCredits DexOrder.

Module Book.

(** ** Ticks and prices *)

Definition MIN_TICK : Z := (-2000)%Z.
Definition MAX_TICK : Z := 2000%Z.
Definition TICK_SPACING : Z := 10%Z.
Definition PRICE_SCALE : N := 100000.
Definition MIN_PRICE : N := 98000.
Definition MAX_PRICE : N := 102000.
Definition I16_MIN : Z := (-32768)%Z.
Definition I16_MAX : Z := 32767%Z.

Abbreviation dexE x := (StablecoinDEX x) (only parsing).

Inductive RoundingDirection := Down | Up.

(** [x.div_ceil(y)]. *)
Definition div_ceil (x y : N) : N := (x + y - 1) / y.

Definition tick_to_price (tick : Z) : N := Z.to_N (Z.of_N PRICE_SCALE + tick).
Definition in_price_range (price : N) : bool := (MIN_PRICE <=? price) && (price <=? MAX_PRICE).
(** The cast to [i16] keeps the low 16 bits. *)
Definition price_to_tick (price : N) : M Z :=
  let diff := (Z.of_N price - Z.of_N PRICE_SCALE)%Z in
  require (in_price_range price)
    (dexE (StablecoinDEXError.TickOutOfBounds
             (Packing.i16_from_word (Packing.i16_word diff)))) ;;
  mret diff.
Definition in_tick_range (tick : Z) : bool := (MIN_TICK <=? tick)%Z && (tick <=? MAX_TICK)%Z.
Definition is_spaced (tick : Z) : bool := (Z.rem tick TICK_SPACING =? 0)%Z.
Definition validate_tick_spacing (tick : Z) : M () :=
  require (is_spaced tick) (dexE StablecoinDEXError.InvalidTick).

Definition base_to_quote (base_amount : N) (tick : Z) (rounding : RoundingDirection) : option N :=
  let numerator := base_amount * tick_to_price tick in
  try_into U128_MAX
    (match rounding with
     | Down => numerator / PRICE_SCALE
     | Up => div_ceil numerator PRICE_SCALE
     end).
Definition quote_to_base (quote_amount : N) (tick : Z) (rounding : RoundingDirection) : option N :=
  let numerator := quote_amount * PRICE_SCALE in
  try_into U128_MAX
    (match rounding with
     | Down => numerator / tick_to_price tick
     | Up => div_ceil numerator (tick_to_price tick)
     end).

(** ** Filling one order *)

Record OrderStep := mkStep { fill_amount : N; accumulate : N; next_amount : N }.
Inductive Fill := Partial (amount : N) | Full.

Definition taker_output (fill_amount : N) (tick : Z) (is_bid : bool) : option N :=
  if is_bid then base_to_quote fill_amount tick Down else Some fill_amount.

Definition step_exact_in (amount_in : N) (order : Order.t) (is_bid : bool) : option OrderStep :=
  let remaining := order.(Order.remaining) in
  let tick := order.(Order.tick) in
  '(fill_amount, next_amount) ←
    (if is_bid then Some (N.min amount_in remaining, saturating_sub amount_in remaining)
     else
       base_out ← quote_to_base amount_in tick Down;
       next_amount ← (if remaining <? base_out then
                        quote_needed ← base_to_quote remaining tick Up;
                        checked_sub amount_in quote_needed
                      else Some 0);
       Some (N.min base_out remaining, next_amount));
  accumulate ← taker_output fill_amount tick order.(Order.is_bid);
  Some (mkStep fill_amount accumulate next_amount).

Definition step_exact_out (amount_out : N) (order : Order.t) (is_bid : bool) : option OrderStep :=
  let remaining := order.(Order.remaining) in
  let tick := order.(Order.tick) in
  '(fill_amount, accumulate, demand) ←
    (if is_bid then
       base_needed ← quote_to_base amount_out tick Up;
       let fill_amount := N.min base_needed remaining in
       Some (fill_amount, fill_amount, base_needed)
     else
       let fill_amount := N.min amount_out remaining in
       amount_in ← base_to_quote fill_amount tick Up;
       Some (fill_amount, amount_in, amount_out));
  next_amount ←
    (if remaining <? demand then
       amount_out_received ← taker_output remaining tick order.(Order.is_bid);
       checked_sub amount_out amount_out_received
     else Some 0);
  Some (mkStep fill_amount accumulate next_amount).

(** The loop of [walk_resting_orders]; [S] is what the closure [settle] captures.
    Every turn but the last consumes an order, so a walk of more turns than there
    are orders visits one twice and, in the source, goes on until its gas is used
    up: that is the outcome when [fuel] runs out. *)
Fixpoint walk_loop {S} (fuel : nat) (order : Order.t) (amount : N) (is_bid : bool)
    (step : N → Order.t → bool → option OrderStep)
    (settle : S → Order.t → Fill → M (option Order.t * S)) (total : N) (st : S) : M (N * S) :=
  match fuel with
  | O => throw OutOfGas
  | Datatypes.S fuel' =>
      if amount =? 0 then mret (total, st)
      else
        s ← ok_or (step amount order is_bid) under_overflow;
        if s.(fill_amount) <? order.(Order.remaining) then
          '(_, st) ← settle st order (Partial s.(fill_amount));
          total ← ok_or (checked_add U128_MAX total s.(accumulate)) under_overflow;
          mret (total, st)
        else
          '(next, st) ← settle st order Full;
          total ← ok_or (checked_add U128_MAX total s.(accumulate)) under_overflow;
          match next with
          | Some next => walk_loop fuel' next s.(next_amount) is_bid step settle total st
          | None =>
              require (s.(next_amount) =? 0) (dexE StablecoinDEXError.InsufficientLiquidity) ;;
              mret (total, st)
          end
  end.
Definition walk_resting_orders {S} (order : Order.t) (amount : N) (is_bid : bool)
    (step : N → Order.t → bool → option OrderStep)
    (settle : S → Order.t → Fill → M (option Order.t * S)) (st : S) : M (N * S) :=
  fuel ← rd dexC (λ s, (size s.(Dex.orders) + 2)%nat);
  walk_loop fuel order amount is_bid step settle 0 st.

(** ** Books *)

(** [keccak256(abi.encodePacked(base, quote))]. *)
Definition compute_book_key (base quote : Address) : M B256 :=
  h ← asks keccak256; mret (h (address_bytes base ++ address_bytes quote)).

Definition new_book (base quote : Address) : Orderbook.t :=
  Orderbook.mk base quote ∅ ∅ I16_MIN I16_MAX 0 ∅ ∅.
Definition is_initialized (b : Orderbook.t) : bool := negb (is_zero b.(Orderbook.base)).
Definition matches_tokens (b : Orderbook.t) (base_token quote_token : option Address) : bool :=
  match base_token with Some base => base =? b.(Orderbook.base) | None => true end &&
  match quote_token with Some quote => quote =? b.(Orderbook.quote) | None => true end.

Definition read_book (key : B256) : M Orderbook.t := rd dexC (λ s, s.(Dex.books).[key]).
Definition modify_book (key : B256) (g : Orderbook.t → Orderbook.t) : M () :=
  wr dexC (Dex.set_books (λ m, <[key := g (m.[key])]> m)).

(** The slot shared by the two best ticks and the book id. *)
Definition ticks_word (b : Orderbook.t) : U256 :=
  Orders.packed [(Packing.i16_word b.(Orderbook.best_bid_tick), 0, 2);
    (Packing.i16_word b.(Orderbook.best_ask_tick), 2, 2); (b.(Orderbook.book_id), 4, 4)].
Definition header_words (b : Orderbook.t) : list U256 :=
  [b.(Orderbook.base); b.(Orderbook.quote); ticks_word b].

(** Write the fields of a book that are not mappings. *)
Definition write_book (key : B256) (b : Orderbook.t) : M () :=
  old ← read_book key;
  modify_book key (λ o, Orderbook.mk b.(Orderbook.base) b.(Orderbook.quote) o.(Orderbook.bids)
    o.(Orderbook.asks) b.(Orderbook.best_bid_tick) b.(Orderbook.best_ask_tick)
    b.(Orderbook.book_id) o.(Orderbook.bid_bitmap) o.(Orderbook.ask_bitmap)) ;;
  Credits.sstore_slots STABLECOIN_DEX_ADDRESS (header_words old) (header_words b).
(** Write one of the fields packed in that slot. *)
Definition write_ticks (key : B256) (g : Orderbook.t → Orderbook.t) : M () :=
  old ← read_book key;
  modify_book key g ;;
  Credits.sstore_slot STABLECOIN_DEX_ADDRESS (ticks_word old) (ticks_word (g old)).
Definition set_best_tick (is_bid : bool) (tick : Z) : Orderbook.t → Orderbook.t :=
  if is_bid then Orderbook.set_best_bid_tick (λ _, tick)
  else Orderbook.set_best_ask_tick (λ _, tick).
Definition write_best_tick (key : B256) (is_bid : bool) (tick : Z) : M () :=
  write_ticks key (set_best_tick is_bid tick).

(** ** Tick levels *)

Definition levels (is_bid : bool) (b : Orderbook.t) : gmap Z TickLevel.t :=
  if is_bid then b.(Orderbook.bids) else b.(Orderbook.asks).
Definition set_levels (is_bid : bool) (g : gmap Z TickLevel.t → gmap Z TickLevel.t)
    : Orderbook.t → Orderbook.t :=
  if is_bid then Orderbook.set_bids g else Orderbook.set_asks g.

Definition links_word (l : TickLevel.t) : U256 :=
  Orders.packed [(l.(TickLevel.head), 0, 16); (l.(TickLevel.tail), 16, 16)].

(** From T12 on only the links are kept up to date. *)
Definition level_read (key : B256) (tick : Z) (is_bid : bool) : M TickLevel.t :=
  sp ← asks spec;
  b ← read_book key;
  let l := (levels is_bid b).[tick] in
  mret (if is_t12 sp then TickLevel.set_total_liquidity (λ _, 0) l else l).
Definition level_write (key : B256) (tick : Z) (is_bid : bool) (level : TickLevel.t) : M () :=
  sp ← asks spec;
  b ← read_book key;
  let old := (levels is_bid b).[tick] in
  let new := if is_t12 sp
             then TickLevel.set_total_liquidity (λ _, old.(TickLevel.total_liquidity)) level
             else level in
  modify_book key (set_levels is_bid (insert tick new)) ;;
  Credits.sstore_slots STABLECOIN_DEX_ADDRESS
    [links_word old; old.(TickLevel.total_liquidity)]
    [links_word new; new.(TickLevel.total_liquidity)].
Definition level_delete (key : B256) (tick : Z) (is_bid : bool) : M () :=
  level_write key tick is_bid dflt.

(** ** Bitmaps *)

Definition bitmap (is_bid : bool) (b : Orderbook.t) : gmap Z U256 :=
  if is_bid then b.(Orderbook.bid_bitmap) else b.(Orderbook.ask_bitmap).
Definition set_bitmap (is_bid : bool) (g : gmap Z U256 → gmap Z U256) : Orderbook.t → Orderbook.t :=
  if is_bid then Orderbook.set_bid_bitmap g else Orderbook.set_ask_bitmap g.

Definition word_index (tick : Z) : Z := Z.shiftr tick 8.
Definition bit_index (tick : Z) : N := Z.to_N (Z.land tick 255).

Definition calc_tick_word_idx (tick : Z) : M Z :=
  require (in_tick_range tick) (dexE StablecoinDEXError.InvalidTick) ;;
  mret (word_index tick).

Definition write_bitmap_word (key : B256) (is_bid : bool) (idx : Z) (word : U256) : M () :=
  b ← read_book key;
  modify_book key (set_bitmap is_bid (insert idx word)) ;;
  Credits.sstore_slot STABLECOIN_DEX_ADDRESS (bitmap is_bid b).[idx] word.

Definition set_tick_bit (key : B256) (tick : Z) (is_bid : bool) : M () :=
  idx ← calc_tick_word_idx tick;
  b ← read_book key;
  let mask := Packing.u256_shl 1 (bit_index tick) in
  write_bitmap_word key is_bid idx (N.lor (bitmap is_bid b).[idx] mask).
Definition delete_tick_bit (key : B256) (tick : Z) (is_bid : bool) : M () :=
  idx ← calc_tick_word_idx tick;
  b ← read_book key;
  let mask := Packing.u256_not (Packing.u256_shl 1 (bit_index tick)) in
  write_bitmap_word key is_bid idx (N.land (bitmap is_bid b).[idx] mask).
Definition is_tick_initialized (key : B256) (tick : Z) (is_bid : bool) : M bool :=
  idx ← calc_tick_word_idx tick;
  b ← read_book key;
  let mask := Packing.u256_shl 1 (bit_index tick) in
  mret (negb (N.land (bitmap is_bid b).[idx] mask =? 0)).

(** [word.trailing_zeros()] and [255 - word.leading_zeros()] of a nonzero word. *)
Fixpoint pos_trailing_zeros (p : positive) : N :=
  match p with xO p' => 1 + pos_trailing_zeros p' | _ => 0 end.
Definition trailing_zeros (w : U256) : N :=
  match w with 0 => 256 | Npos p => pos_trailing_zeros p end.
Definition highest_bit (w : U256) : N := N.log2 w.

(** The two searches read one word per turn and move on to the next one; the fuel is
    the number of words left. *)
Fixpoint next_ask_loop (fuel : nat) (bm : gmap Z U256) (next_tick : Z) : Z * bool :=
  let max_word_index := word_index MAX_TICK in
  let idx := word_index next_tick in
  match fuel with
  | O => (next_tick, false)
  | S fuel' =>
      if (max_word_index <? idx)%Z then (next_tick, false)
      else
        let bit := bit_index next_tick in
        let mask := if bit =? 0 then U256_MAX else Packing.u256_shl U256_MAX bit in
        let masked_word := N.land bm.[idx] mask in
        if negb (masked_word =? 0) then
          let found_tick := Z.lor (Z.shiftl idx 8) (Z.of_N (trailing_zeros masked_word)) in
          (found_tick, (found_tick <=? MAX_TICK)%Z)
        else
          let next_word_index := (idx + 1)%Z in
          if (max_word_index <? next_word_index)%Z then (Z.shiftl next_word_index 8, false)
          else next_ask_loop fuel' bm (Z.shiftl next_word_index 8)
  end.
Definition next_initialized_ask_tick (bm : gmap Z U256) (tick : Z) : Z * bool :=
  if (MAX_TICK <=? tick)%Z then (MAX_TICK, false)
  else
    let next_tick := (tick + 1)%Z in
    next_ask_loop (S (Z.to_nat (word_index MAX_TICK - word_index next_tick))) bm next_tick.

Fixpoint next_bid_loop (fuel : nat) (bm : gmap Z U256) (next_tick : Z) : Z * bool :=
  let min_word_index := word_index MIN_TICK in
  let idx := word_index next_tick in
  match fuel with
  | O => (next_tick, false)
  | S fuel' =>
      if (idx <? min_word_index)%Z then (next_tick, false)
      else
        let bit := bit_index next_tick in
        let mask := if bit =? 255 then U256_MAX else N.shiftr U256_MAX (255 - bit) in
        let masked_word := N.land bm.[idx] mask in
        if negb (masked_word =? 0) then
          let found_tick := Z.lor (Z.shiftl idx 8) (Z.of_N (highest_bit masked_word)) in
          (found_tick, (MIN_TICK <=? found_tick)%Z)
        else
          let prev_word_index := (idx - 1)%Z in
          if (prev_word_index <? min_word_index)%Z
          then (Z.lor (Z.shiftl prev_word_index 8) 255, false)
          else next_bid_loop fuel' bm (Z.lor (Z.shiftl prev_word_index 8) 255)
  end.
Definition next_initialized_bid_tick (bm : gmap Z U256) (tick : Z) : Z * bool :=
  if (tick <=? MIN_TICK)%Z then (MIN_TICK, false)
  else
    let next_tick := (tick - 1)%Z in
    next_bid_loop (S (Z.to_nat (word_index next_tick - word_index MIN_TICK))) bm next_tick.

Definition next_initialized_tick (key : B256) (tick : Z) (is_bid : bool) : M (Z * bool) :=
  b ← read_book key;
  mret (if is_bid then next_initialized_bid_tick b.(Orderbook.bid_bitmap) tick
        else next_initialized_ask_tick b.(Orderbook.ask_bitmap) tick).

End Book.
