(* ===== verification/DexMath.v ===== *)
(** * Prices, rounding and the arithmetic of a fill

    Facts on [base_to_quote], [quote_to_base] and the two step functions of
    [stablecoin_dex/orderbook.rs]: conversions round in the intended direction, and
    filling one order takes at least from the taker what the maker is credited, and
    gives the taker at most what leaves the order's escrow. *)

From S2P Require Import Prelude Packing Hardfork Address Errors DexState State Monad.
From S2P Require Import StorageCredits DexOrder DexBook.

Module DexMath.
Import Book.

Definition ceil_quote (base : N) (tick : Z) : N := div_ceil (base * tick_to_price tick) PRICE_SCALE.
Definition floor_quote (base : N) (tick : Z) : N := base * tick_to_price tick / PRICE_SCALE.

Lemma div_ceil_spec x y : 0 < y → x ≤ y * div_ceil x y ∧ y * div_ceil x y < x + y.
Proof.
  intros Hy. unfold div_ceil. pose proof (N.div_mod (x + y - 1) y).
  pose proof (N.mod_lt (x + y - 1) y). nia.
Qed.
Lemma div_spec x y : 0 < y → y * (x / y) ≤ x ∧ x < y * (x / y) + y.
Proof. intros Hy. pose proof (N.div_mod x y). pose proof (N.mod_lt x y). nia. Qed.

Lemma price_scale_pos : 0 < PRICE_SCALE.
Proof. done. Qed.
Lemma price_range t :
  in_tick_range t = true → MIN_PRICE ≤ tick_to_price t ∧ tick_to_price t ≤ MAX_PRICE.
Proof.
  unfold in_tick_range, tick_to_price, MIN_TICK, MAX_TICK, PRICE_SCALE, MIN_PRICE, MAX_PRICE.
  intros [H1%Z.leb_le H2%Z.leb_le]%andb_true_iff. lia.
Qed.

Lemma base_to_quote_up x t q : base_to_quote x t Up = Some q ↔ q = ceil_quote x t ∧ q ≤ U128_MAX.
Proof. unfold base_to_quote, ceil_quote. rewrite try_into_Some. naive_solver. Qed.
Lemma base_to_quote_down x t q : base_to_quote x t Down = Some q ↔ q = floor_quote x t ∧ q ≤ U128_MAX.
Proof. unfold base_to_quote, floor_quote. rewrite try_into_Some. naive_solver. Qed.

(** Splitting an amount: rounding the part that leaves down and the rest up never
    exceeds the whole rounded up. *)
Lemma ceil_split r f t : f ≤ r → ceil_quote (r - f) t + floor_quote f t ≤ ceil_quote r t.
Proof.
  intros Hf. unfold ceil_quote, floor_quote.
  pose proof (div_ceil_spec (r * tick_to_price t) PRICE_SCALE price_scale_pos).
  pose proof (div_ceil_spec ((r - f) * tick_to_price t) PRICE_SCALE price_scale_pos).
  pose proof (div_spec (f * tick_to_price t) PRICE_SCALE price_scale_pos).
  assert (r * tick_to_price t = (r - f) * tick_to_price t + f * tick_to_price t) by nia.
  unfold PRICE_SCALE in *. lia.
Qed.
(** and falls short of it by at most one. *)
Lemma ceil_split_tight r f t : f ≤ r → ceil_quote r t ≤ ceil_quote (r - f) t + floor_quote f t + 1.
Proof.
  intros Hf. unfold ceil_quote, floor_quote.
  pose proof (div_ceil_spec (r * tick_to_price t) PRICE_SCALE price_scale_pos).
  pose proof (div_ceil_spec ((r - f) * tick_to_price t) PRICE_SCALE price_scale_pos).
  pose proof (div_spec (f * tick_to_price t) PRICE_SCALE price_scale_pos).
  assert (r * tick_to_price t = (r - f) * tick_to_price t + f * tick_to_price t) by nia.
  unfold PRICE_SCALE in *. lia.
Qed.
Lemma floor_le_ceil x t : floor_quote x t ≤ ceil_quote x t.
Proof. pose proof (ceil_split x x t). lia. Qed.
Lemma ceil_zero t : ceil_quote 0 t = 0.
Proof. unfold ceil_quote. by rewrite N.mul_0_l. Qed.

(** Buying base with [q]: the quote owed for the base bought is at most [q], and at
    most one less. *)
Lemma quote_to_base_down q t x :
  in_tick_range t = true → quote_to_base q t Down = Some x →
  ceil_quote x t ≤ q ∧ q ≤ ceil_quote x t + 1.
Proof.
  intros Ht. pose proof (price_range t Ht) as [Hp1 Hp2]. unfold quote_to_base.
  rewrite try_into_Some. intros [-> _]. unfold ceil_quote, MIN_PRICE, MAX_PRICE in *.
  pose proof (div_spec (q * PRICE_SCALE) (tick_to_price t)) as H1.
  set (x := q * PRICE_SCALE / tick_to_price t) in *.
  pose proof (div_ceil_spec (x * tick_to_price t) PRICE_SCALE price_scale_pos).
  unfold PRICE_SCALE in *. nia.
Qed.
(** Selling base for exactly [q]: the base sold is worth at least [q] and at most one
    more, and less base is worth less than [q]. *)
Lemma quote_to_base_up q t x :
  in_tick_range t = true → quote_to_base q t Up = Some x →
  q ≤ floor_quote x t ∧ floor_quote x t ≤ q + 1 ∧ ∀ y, y < x → floor_quote y t ≤ q.
Proof.
  intros Ht. pose proof (price_range t Ht) as [Hp1 Hp2]. unfold quote_to_base.
  rewrite try_into_Some. intros [-> _]. unfold floor_quote, MIN_PRICE, MAX_PRICE in *.
  pose proof (div_ceil_spec (q * PRICE_SCALE) (tick_to_price t)) as H1.
  set (x := div_ceil (q * PRICE_SCALE) (tick_to_price t)) in *.
  pose proof (div_spec (x * tick_to_price t) PRICE_SCALE price_scale_pos) as H2.
  unfold PRICE_SCALE in *. split_and!; [nia|nia|]. intros y Hy.
  pose proof (div_spec (y * tick_to_price t) 100000).
  assert (tick_to_price t * (y + 1) ≤ tick_to_price t * x) by (apply N.mul_le_mono_l; lia). nia.
Qed.

(** ** One order *)

(** What remains in escrow for [r] of base, what [f] of base pays the maker and what
    it releases from escrow. *)
Definition escrow_left (o : Order.t) (r : N) : N :=
  if o.(Order.is_bid) then ceil_quote r o.(Order.tick) else r.
Definition maker_credit (o : Order.t) (f : N) : N :=
  if o.(Order.is_bid) then f else ceil_quote f o.(Order.tick).

(** What an exact-in or exact-out step takes from the taker and gives to them. *)
Definition taken_in (amount : N) (s : OrderStep) : N := amount - s.(next_amount).
Definition given_in (s : OrderStep) : N := s.(accumulate).
Definition taken_out (s : OrderStep) : N := s.(accumulate).
Definition given_out (amount : N) (s : OrderStep) : N := amount - s.(next_amount).

(** A step fills at most what the order has, leaves nothing to do after a partial
    fill, pays the maker out of what the taker pays and the taker out of escrow, and
    rounding costs the taker at most one unit on either side and the maker nothing. *)
Record step_ok (o : Order.t) (amount : N) (s : OrderStep) (taken given : N) : Prop := {
  sk_fill : s.(fill_amount) ≤ o.(Order.remaining);
  sk_next : s.(next_amount) ≤ amount;
  sk_partial : s.(fill_amount) < o.(Order.remaining) → s.(next_amount) = 0;
  sk_maker : maker_credit o s.(fill_amount) ≤ taken;
  sk_taker : escrow_left o (o.(Order.remaining) - s.(fill_amount)) + given ≤
             escrow_left o o.(Order.remaining);
  sk_taken_dust : taken ≤ maker_credit o s.(fill_amount) + 1;
  sk_given_dust : escrow_left o o.(Order.remaining) ≤
                  escrow_left o (o.(Order.remaining) - s.(fill_amount)) + given + 2
}.

(** The case analysis that both step functions come down to: [f] is filled, [g] is
    given, and the escrow of [f] rounds to [g] within one. *)
Lemma step_ok_intro o amount f acc n taken given :
  f ≤ o.(Order.remaining) → n ≤ amount → (f < o.(Order.remaining) → n = 0) →
  maker_credit o f ≤ taken → taken ≤ maker_credit o f + 1 →
  (let g := if o.(Order.is_bid) then floor_quote f o.(Order.tick) else f in
   given ≤ g ∧ g ≤ given + 1) →
  step_ok o amount (mkStep f acc n) taken given.
Proof.
  intros Hf Hn Hp Hm1 Hm2 [Hg1 Hg2]. split; cbn; try done; unfold escrow_left.
  all: destruct (Order.is_bid o); [|lia].
  all: pose proof (ceil_split (Order.remaining o) f (Order.tick o) Hf).
  all: pose proof (ceil_split_tight (Order.remaining o) f (Order.tick o) Hf); lia.
Qed.

Lemma step_exact_in_ok amount o s :
  in_tick_range o.(Order.tick) = true → step_exact_in amount o o.(Order.is_bid) = Some s →
  step_ok o amount s (taken_in amount s) (given_in s).
Proof.
  intros Ht H. unfold step_exact_in in H.
  apply bind_Some in H as ([f n] & Hfn & H). apply bind_Some in H as (acc & Hacc & H).
  injection H as <-. unfold taken_in, given_in, taker_output in *. cbn in *.
  destruct (Order.is_bid o) eqn:Hb.
  - injection Hfn as <- <-. unfold saturating_sub. apply base_to_quote_down in Hacc as [-> _].
    apply step_ok_intro; unfold maker_credit; rewrite ?Hb; cbn; lia.
  - apply bind_Some in Hfn as (x & Hx & Hfn). apply bind_Some in Hfn as (n' & Hn & Hfn).
    injection Hfn as <- <-. injection Hacc as <-. apply (quote_to_base_down _ _ _ Ht) in Hx as Hle.
    destruct (N.ltb_spec (Order.remaining o) x) as [Hlt|Hge].
    + apply bind_Some in Hn as (q & Hq & Hn). apply base_to_quote_up in Hq as [-> _]. checked_simpl. subst.
      rewrite (N.min_r x) by lia. apply step_ok_intro; unfold maker_credit; rewrite ?Hb; cbn; lia.
    + injection Hn as <-. rewrite (N.min_l x) by lia.
      apply step_ok_intro; unfold maker_credit; rewrite ?Hb; cbn; lia.
Qed.

Lemma step_exact_out_ok amount o s :
  in_tick_range o.(Order.tick) = true → step_exact_out amount o o.(Order.is_bid) = Some s →
  step_ok o amount s (taken_out s) (given_out amount s).
Proof.
  intros Ht H. unfold step_exact_out in H.
  apply bind_Some in H as ([[f acc] demand] & Hf & H). apply bind_Some in H as (n & Hn & H).
  injection H as <-. unfold taken_out, given_out, taker_output in *. cbn in *.
  destruct (Order.is_bid o) eqn:Hb.
  - apply bind_Some in Hf as (x & Hx & Hf). injection Hf as <- <- <-.
    apply (quote_to_base_up _ _ _ Ht) in Hx as (Hx1 & Hx2 & Hx3).
    destruct (N.ltb_spec (Order.remaining o) x) as [Hlt|Hge].
    + apply bind_Some in Hn as (q & Hq & Hn). apply base_to_quote_down in Hq as [-> _]. checked_simpl. subst.
      rewrite (N.min_r x) by lia. apply step_ok_intro; unfold maker_credit; rewrite ?Hb; cbn; lia.
    + injection Hn as <-. rewrite (N.min_l x) by lia.
      apply step_ok_intro; unfold maker_credit; rewrite ?Hb; cbn; lia.
  - apply bind_Some in Hf as (x & Hx & Hf). injection Hf as <- <- <-.
    apply base_to_quote_up in Hx as [-> _].
    destruct (N.ltb_spec (Order.remaining o) amount) as [Hlt|Hge].
    + cbn in Hn. checked_simpl. subst. rewrite (N.min_r amount) by lia.
      apply step_ok_intro; unfold maker_credit; rewrite ?Hb; cbn; lia.
    + injection Hn as <-. rewrite (N.min_l amount) by lia.
      apply step_ok_intro; unfold maker_credit; rewrite ?Hb; cbn; lia.
Qed.

(** Whatever side the step was computed for, an exact-in payout comes out of the
    order's own escrow, because it is rounded on the order's side. *)
Lemma step_exact_in_covered amount o b s :
  step_exact_in amount o b = Some s →
  s.(fill_amount) ≤ o.(Order.remaining) ∧
  escrow_left o (o.(Order.remaining) - s.(fill_amount)) + given_in s ≤
    escrow_left o o.(Order.remaining).
Proof.
  unfold step_exact_in. intros H.
  apply bind_Some in H as ([f n] & Hfn & H). apply bind_Some in H as (acc & Hacc & H).
  injection H as <-. unfold given_in, taker_output, escrow_left in *. cbn in *.
  assert (f ≤ o.(Order.remaining)) as Hf.
  { destruct b; [injection Hfn as <- _; lia|].
    apply bind_Some in Hfn as (x & _ & Hfn). apply bind_Some in Hfn as (n' & _ & Hfn).
    injection Hfn as <- _. lia. }
  split; [done|]. destruct (Order.is_bid o); [|injection Hacc as <-; lia].
  apply base_to_quote_down in Hacc as [-> _].
  pose proof (ceil_split (Order.remaining o) f (Order.tick o) Hf). lia.
Qed.

Lemma step_exact_out_fill amount o b s :
  step_exact_out amount o b = Some s → s.(fill_amount) ≤ o.(Order.remaining).
Proof.
  unfold step_exact_out. intros H.
  apply bind_Some in H as ([[f acc] demand] & Hf & H). apply bind_Some in H as (n & _ & H).
  injection H as <-. cbn.
  destruct b; apply bind_Some in Hf as (x & _ & Hf); injection Hf as <- _ _; lia.
Qed.

(** C37: rounding is fair and bounded. The side [is_bid] of the route and the side
    of the order are separate, as in the code. On either side, a step fills no more
    than the order has, and an exact-in step pays the taker out of the order's
    escrow. When the two sides agree, as they do for every order queued on a
    well-formed book, and the order's tick is valid, a step of either kind also
    credits the maker no more than the taker pays and gives the taker no more than
    leaves the escrow, and what the DEX keeps by rounding is at most one unit of
    what the taker pays and two units of the escrow released. *)
Theorem step_rounding_fair amount o is_bid :
  in_tick_range o.(Order.tick) = true →
  (∀ s, step_exact_in amount o is_bid = Some s →
     s.(fill_amount) ≤ o.(Order.remaining) ∧
     escrow_left o (o.(Order.remaining) - s.(fill_amount)) + given_in s ≤
       escrow_left o o.(Order.remaining) ∧
     (is_bid = o.(Order.is_bid) → step_ok o amount s (taken_in amount s) (given_in s))) ∧
  (∀ s, step_exact_out amount o is_bid = Some s →
     s.(fill_amount) ≤ o.(Order.remaining) ∧
     (is_bid = o.(Order.is_bid) → step_ok o amount s (taken_out s) (given_out amount s))).
Proof.
  intros Ht. split; intros s Hs.
  - destruct (step_exact_in_covered _ _ _ _ Hs) as [H1 H2]. split_and!; [done|done|].
    intros ->. by apply step_exact_in_ok.
  - split; [by eapply step_exact_out_fill|]. intros ->. by apply step_exact_out_ok.
Qed.

(** A bid for 1000000007 at tick 30, of which 100 quote are taken. *)
Definition example_order : Order.t := Orders.new_bid 1 5 9 1000000007 30.
Lemma step_rounding_fair_witness :
  step_exact_out 100 example_order true = Some (mkStep 100 100 0) ∧
  step_ok example_order 100 (mkStep 100 100 0) 100 100.
Proof.
  split; [by vm_compute|].
  refine (proj2 (proj2 (step_rounding_fair 100 example_order true _) (mkStep 100 100 0) _) _);
    by vm_compute.
Defined.

(** With different sides an exact-out step is not covered: an ask for 100 base met
    on a bid route at the highest price is asked for 101 quote, fills its 100 base and
    counts all 101 as given. *)
Lemma mismatched_sides_uncovered :
  let o := Orders.new_ask 1 5 9 100 2000 in
  ∃ s, step_exact_out 101 o true = Some s ∧ s.(next_amount) = 0 ∧
       escrow_left o o.(Order.remaining) < given_out 101 s.
Proof. eexists. by vm_compute. Qed.

End DexMath.
