(* ===== verification/DexBitmap.v ===== *)
(** * The tick bitmaps

    The word-by-word searches [next_initialized_ask_tick] and
    [next_initialized_bid_tick] of [stablecoin_dex/orderbook.rs] find the nearest
    tick whose bit is set, like a linear scan over the ticks. *)

From S2P Require Import Prelude Packing Hardfork Address Errors DexState State Monad.
From S2P Require Import StorageCredits DexOrder DexBook.

Module DexBitmap.
Import Book.

Definition tick_set (bm : gmap Z U256) (t : Z) : bool :=
  N.testbit bm.[word_index t] (bit_index t).

(** ** Ticks, words and bits *)

Lemma tick_split t : t = (256 * word_index t + Z.of_N (bit_index t))%Z ∧ bit_index t < 256.
Proof.
  unfold word_index, bit_index. change 255%Z with (Z.ones 8).
  rewrite Z.land_ones, Z.shiftr_div_pow2 by lia. pose proof (Z.mod_pos_bound t (2 ^ 8)).
  pose proof (Z.div_mod t (2 ^ 8)). change (2 ^ 8)%Z with 256%Z in *. lia.
Qed.
Lemma tick_join i j :
  j < 256 → word_index (256 * i + Z.of_N j) = i ∧ bit_index (256 * i + Z.of_N j) = j.
Proof. intros Hj. pose proof (tick_split (256 * i + Z.of_N j)). lia. Qed.
Lemma word_bit i j : j < 256 → Z.lor (Z.shiftl i 8) (Z.of_N j) = (256 * i + Z.of_N j)%Z.
Proof.
  intros Hj. rewrite Z.shiftl_mul_pow2 by lia.
  assert (Z.land (i * 2 ^ 8) (Z.of_N j) = 0)%Z as Hz.
  { apply Z.bits_inj'. intros n Hn. rewrite Z.land_spec, Z.bits_0.
    destruct (Z.lt_ge_cases n 8).
    - rewrite Z.mul_pow2_bits_low by lia. done.
    - rewrite (Z.bits_above_log2 (Z.of_N j) n); [by rewrite andb_false_r|lia|].
      destruct (N.eq_0_gt_0_cases j) as [->|]; [cbn; lia|].
      apply Z.log2_lt_pow2; [lia|]. apply Z.lt_le_trans with (2 ^ 8)%Z; [cbn; lia|].
      apply Z.pow_le_mono_r; lia. }
  rewrite <- Z.lxor_lor by done. rewrite <- Z.add_nocarry_lxor by done. cbn. lia.
Qed.

Lemma trailing_zeros_spec w :
  w ≠ 0 → N.testbit w (trailing_zeros w) = true ∧ ∀ j, j < trailing_zeros w → N.testbit w j = false.
Proof.
  destruct w as [|p]; [done|]. intros _. cbn [trailing_zeros].
  induction p as [p IH|p IH|]; cbn [pos_trailing_zeros].
  - split; [done|]. lia.
  - destruct IH as [IH1 IH2]. change (N.pos p~0) with (2 * N.pos p). split.
    + rewrite N.add_1_l. by rewrite N.testbit_even_succ by lia.
    + intros j Hj. destruct (N.eq_0_gt_0_cases j) as [->|]; [by rewrite N.testbit_even_0|].
      replace j with (N.succ (j - 1)) by lia. rewrite N.testbit_even_succ by lia. apply IH2. lia.
  - split; [done|]. lia.
Qed.

(** ** Searching up *)

Definition up_mask (bit : N) : U256 :=
  if bit =? 0 then U256_MAX else Packing.u256_shl U256_MAX bit.
Lemma max_testbit i : N.testbit U256_MAX i = (i <? 256).
Proof. replace U256_MAX with (N.ones 256) by reflexivity. apply Packing.ones_testbit. Qed.
Lemma up_mask_testbit bit j : N.testbit (up_mask bit) j = (bit <=? j) && (j <? 256).
Proof.
  unfold up_mask. destruct (N.eqb_spec bit 0) as [->|Hb].
  - rewrite max_testbit. by destruct j.
  - rewrite Packing.shl_testbit, max_testbit. destruct (N.ltb_spec j 256), (N.leb_spec bit j); try done.
    cbn. bool_lia.
Qed.

(** No bit from [lo] up to (and without) [hi] is set. *)
Definition clear_between (bm : gmap Z U256) (lo hi : Z) : Prop :=
  ∀ t, (lo ≤ t < hi)%Z → tick_set bm t = false.

(** The bits of a masked word are the ticks of the word from [next_tick] on. *)
Lemma masked_up bm t j :
  N.testbit (N.land bm.[word_index t] (up_mask (bit_index t))) j = true ↔
  j < 256 ∧ (t ≤ 256 * word_index t + Z.of_N j)%Z ∧
  tick_set bm (256 * word_index t + Z.of_N j) = true.
Proof.
  rewrite N.land_spec, up_mask_testbit, !andb_true_iff, N.leb_le, N.ltb_lt.
  destruct (tick_split t) as [Ht _]. unfold tick_set. split.
  - intros (H1 & H2 & H3). destruct (tick_join (word_index t) j H3) as [-> ->]. split_and!; [done|lia|done].
  - intros (H1 & H2 & H3). destruct (tick_join (word_index t) j H1) as [E1 E2].
    rewrite E1, E2 in H3. split_and!; [done|lia|done].
Qed.

Lemma next_ask_loop_spec fuel bm t :
  (word_index MAX_TICK - word_index t < Z.of_nat fuel)%Z →
  let r := next_ask_loop fuel bm t in
  if r.2 then (t ≤ r.1 ≤ MAX_TICK)%Z ∧ tick_set bm r.1 = true ∧ clear_between bm t r.1
  else clear_between bm t (MAX_TICK + 1).
Proof.
  revert t. induction fuel as [|fuel IH]; intros t Hf; cbn [next_ask_loop].
  { intros t' Ht'. pose proof (tick_split t). pose proof (tick_split MAX_TICK). lia. }
  destruct (Z.ltb_spec (word_index MAX_TICK) (word_index t)) as [Hw|Hw].
  { intros t' Ht'. pose proof (tick_split t). pose proof (tick_split MAX_TICK). lia. }
  change (if bit_index t =? 0 then U256_MAX else Packing.u256_shl U256_MAX (bit_index t))
    with (up_mask (bit_index t)).
  pose proof (masked_up bm t) as Hm. set (mw := N.land _ _) in *.
  destruct (N.eqb_spec mw 0) as [H0|H0]; cbn [negb].
  - assert (Hc : clear_between bm t (256 * (word_index t + 1))).
    { intros t' Ht'. apply not_true_is_false. intros Hs.
      destruct (tick_split t') as [E Hb], (tick_split t) as [E' Hb'].
      assert (word_index t' = word_index t) as Ei by lia. rewrite Ei in E.
      assert (N.testbit mw (bit_index t') = true) as Hbit.
      { apply Hm. split_and!; [done|lia|]. by rewrite <- E. }
      by rewrite H0, N.bits_0 in Hbit. }
    destruct (Z.ltb_spec (word_index MAX_TICK) (word_index t + 1)) as [Hl|Hl]; cbn [fst snd].
    + intros t' Ht'. apply Hc. pose proof (tick_split MAX_TICK). lia.
    + assert (Z.shiftl (word_index t + 1) 8 = (256 * (word_index t + 1))%Z) as ->
        by (rewrite Z.shiftl_mul_pow2; lia).
      destruct (tick_join (word_index t + 1) 0) as [Ew _]; [done|]. rewrite Z.add_0_r in Ew.
      specialize (IH (256 * (word_index t + 1))%Z). rewrite Ew in IH.
      destruct (next_ask_loop _ _ _) as [r ok]. cbn [fst snd] in *. pose proof (tick_split t).
      specialize (IH ltac:(lia)). destruct ok.
      * destruct IH as (H1 & H2 & H3). split_and!; [lia|lia|done|].
        intros t' Ht'. destruct (Z.lt_ge_cases t' (256 * (word_index t + 1))); [apply Hc|apply H3]; lia.
      * intros t' Ht'. destruct (Z.lt_ge_cases t' (256 * (word_index t + 1))); [apply Hc|apply IH]; lia.
  - destruct (trailing_zeros_spec mw H0) as [Hb1 Hb2]. set (j := trailing_zeros mw) in *.
    apply Hm in Hb1 as (Hj & Hle & Hs). rewrite word_bit by done. cbn [fst snd].
    assert (Hc : clear_between bm t (256 * word_index t + Z.of_N j)).
    { intros t' Ht'. apply not_true_is_false. intros Hs'.
      destruct (tick_split t') as [E Hb], (tick_split t) as [E' Hb'].
      assert (word_index t' = word_index t) as Ei by lia. rewrite Ei in E.
      assert (N.testbit mw (bit_index t') = true) as Hbit.
      { apply Hm. split_and!; [done|lia|]. by rewrite <- E. }
      rewrite Hb2 in Hbit; [done|lia]. }
    destruct (Z.leb_spec (256 * word_index t + Z.of_N j) MAX_TICK); [done|].
    intros t' Ht'. apply Hc. lia.
Qed.

(** ** Searching down *)

Definition down_mask (bit : N) : U256 :=
  if bit =? 255 then U256_MAX else N.shiftr U256_MAX (255 - bit).
Lemma down_mask_testbit bit j : bit < 256 → N.testbit (down_mask bit) j = (j <=? bit).
Proof.
  intros Hb. unfold down_mask. destruct (N.eqb_spec bit 255) as [->|Hne].
  - rewrite max_testbit. destruct (N.leb_spec j 255); bool_lia.
  - rewrite N.shiftr_spec', max_testbit. destruct (N.leb_spec j bit); bool_lia.
Qed.

Lemma masked_down bm t j :
  N.testbit (N.land bm.[word_index t] (down_mask (bit_index t))) j = true ↔
  j < 256 ∧ (256 * word_index t + Z.of_N j ≤ t)%Z ∧
  tick_set bm (256 * word_index t + Z.of_N j) = true.
Proof.
  destruct (tick_split t) as [Ht Hlt].
  rewrite N.land_spec, down_mask_testbit, andb_true_iff, N.leb_le by done. unfold tick_set. split.
  - intros (H1 & H2). assert (Hj : j < 256) by lia.
    destruct (tick_join (word_index t) j Hj) as [-> ->]. split_and!; [done|lia|done].
  - intros (H1 & H2 & H3). destruct (tick_join (word_index t) j H1) as [E1 E2].
    rewrite E1, E2 in H3. split_and!; [done|lia].
Qed.

Lemma highest_bit_spec w :
  w ≠ 0 → N.testbit w (highest_bit w) = true ∧ ∀ j, highest_bit w < j → N.testbit w j = false.
Proof.
  intros Hw. split; [by apply N.bit_log2|]. intros j Hj. by apply N.bits_above_log2.
Qed.

Lemma next_bid_loop_spec fuel bm t :
  (word_index t - word_index MIN_TICK < Z.of_nat fuel)%Z →
  let r := next_bid_loop fuel bm t in
  if r.2 then (MIN_TICK ≤ r.1 ≤ t)%Z ∧ tick_set bm r.1 = true ∧ clear_between bm (r.1 + 1) (t + 1)
  else clear_between bm MIN_TICK (t + 1).
Proof.
  revert t. induction fuel as [|fuel IH]; intros t Hf; cbn [next_bid_loop].
  { intros t' Ht'. pose proof (tick_split t). pose proof (tick_split MIN_TICK). lia. }
  destruct (Z.ltb_spec (word_index t) (word_index MIN_TICK)) as [Hw|Hw].
  { intros t' Ht'. pose proof (tick_split t). pose proof (tick_split MIN_TICK). lia. }
  change (if bit_index t =? 255 then U256_MAX else N.shiftr U256_MAX (255 - bit_index t))
    with (down_mask (bit_index t)).
  pose proof (masked_down bm t) as Hm. set (mw := N.land _ _) in *.
  destruct (N.eqb_spec mw 0) as [H0|H0]; cbn [negb].
  - assert (Hc : clear_between bm (256 * word_index t) (t + 1)).
    { intros t' Ht'. apply not_true_is_false. intros Hs.
      destruct (tick_split t') as [E Hb], (tick_split t) as [E' Hb'].
      assert (word_index t' = word_index t) as Ei by lia. rewrite Ei in E.
      assert (N.testbit mw (bit_index t') = true) as Hbit.
      { apply Hm. split_and!; [done|lia|]. by rewrite <- E. }
      by rewrite H0, N.bits_0 in Hbit. }
    assert (Z.lor (Z.shiftl (word_index t - 1) 8) 255 = 256 * (word_index t - 1) + Z.of_N 255)%Z as ->
      by (by apply (word_bit (word_index t - 1) 255)).
    destruct (Z.ltb_spec (word_index t - 1) (word_index MIN_TICK)) as [Hl|Hl]; cbn [fst snd].
    + intros t' Ht'. apply Hc. pose proof (tick_split MIN_TICK). lia.
    + destruct (tick_join (word_index t - 1) 255) as [Ew _]; [done|].
      specialize (IH (256 * (word_index t - 1) + Z.of_N 255)%Z). rewrite Ew in IH.
      destruct (next_bid_loop _ _ _) as [r ok]. cbn [fst snd] in *. pose proof (tick_split t).
      specialize (IH ltac:(lia)). destruct ok.
      * destruct IH as (H1 & H2 & H3). split_and!; [lia|lia|done|].
        intros t' Ht'. destruct (Z.lt_ge_cases t' (256 * word_index t)); [apply H3|apply Hc]; lia.
      * intros t' Ht'. destruct (Z.lt_ge_cases t' (256 * word_index t)); [apply IH|apply Hc]; lia.
  - destruct (highest_bit_spec mw H0) as [Hb1 Hb2]. set (j := highest_bit mw) in *.
    apply Hm in Hb1 as (Hj & Hle & Hs). rewrite word_bit by done. cbn [fst snd].
    assert (Hc : clear_between bm (256 * word_index t + Z.of_N j + 1) (t + 1)).
    { intros t' Ht'. apply not_true_is_false. intros Hs'.
      destruct (tick_split t') as [E Hb], (tick_split t) as [E' Hb'].
      assert (word_index t' = word_index t) as Ei by lia. rewrite Ei in E.
      assert (N.testbit mw (bit_index t') = true) as Hbit.
      { apply Hm. split_and!; [done|lia|]. by rewrite <- E. }
      rewrite Hb2 in Hbit; [done|lia]. }
    destruct (Z.leb_spec MIN_TICK (256 * word_index t + Z.of_N j)); [done|].
    intros t' Ht'. apply Hc. lia.
Qed.

(** ** The two searches *)

Lemma next_ask_spec bm tick :
  let r := next_initialized_ask_tick bm tick in
  if r.2 then (tick < r.1 ≤ MAX_TICK)%Z ∧ tick_set bm r.1 = true ∧ clear_between bm (tick + 1) r.1
  else clear_between bm (tick + 1) (MAX_TICK + 1).
Proof.
  unfold next_initialized_ask_tick. destruct (Z.leb_spec MAX_TICK tick) as [H|H].
  { intros t Ht. lia. }
  pose proof (next_ask_loop_spec (S (Z.to_nat (word_index MAX_TICK - word_index (tick + 1)))) bm (tick + 1)) as Hl.
  cbv zeta in *. specialize (Hl ltac:(lia)). destruct (next_ask_loop _ _ _) as [r [|]]; [|done].
  cbn [fst snd] in *. destruct Hl as (? & ? & ?). split_and!; [lia|lia|done|done].
Qed.
Lemma next_bid_spec bm tick :
  let r := next_initialized_bid_tick bm tick in
  if r.2 then (MIN_TICK ≤ r.1 < tick)%Z ∧ tick_set bm r.1 = true ∧ clear_between bm (r.1 + 1) tick
  else clear_between bm MIN_TICK tick.
Proof.
  unfold next_initialized_bid_tick. destruct (Z.leb_spec tick MIN_TICK) as [H|H].
  { intros t Ht. lia. }
  pose proof (next_bid_loop_spec (S (Z.to_nat (word_index (tick - 1) - word_index MIN_TICK))) bm (tick - 1)) as Hl.
  cbv zeta in *. specialize (Hl ltac:(lia)). rewrite Z.sub_add in Hl.
  destruct (next_bid_loop _ _ _) as [r [|]]; [|done].
  cbn [fst snd] in *. destruct Hl as (? & ? & ?). split_and!; [lia|lia|done|done].
Qed.

(** ** Reference searches: scan the ticks one by one *)

Definition scan (bm : gmap Z U256) (ticks : list Z) : option Z :=
  head (filter (λ t, tick_set bm t = true) ticks).
Definition scan_up (bm : gmap Z U256) (tick : Z) : option Z :=
  scan bm (seqZ (tick + 1) (MAX_TICK - tick)).
Definition scan_down (bm : gmap Z U256) (tick : Z) : option Z :=
  scan bm (reverse (seqZ MIN_TICK (tick - MIN_TICK))).
Definition found (r : Z * bool) : option Z := if r.2 then Some r.1 else None.

Lemma scan_None bm l : (∀ t, t ∈ l → tick_set bm t = false) → scan bm l = None.
Proof.
  intros H. unfold scan. replace (filter _ l) with (@nil Z); [done|]. symmetry.
  induction l as [|t l IH]; [done|].
  rewrite filter_cons_False; [|rewrite H; [done|by left]]. apply IH. intros t' Ht'. apply H. by right.
Qed.
Lemma scan_app bm l t l' :
  (∀ t, t ∈ l → tick_set bm t = false) → tick_set bm t = true → scan bm (l ++ t :: l') = Some t.
Proof.
  intros H Ht. unfold scan. rewrite filter_app.
  replace (filter _ l) with (@nil Z); [by rewrite filter_cons_True|]. symmetry.
  induction l as [|x l IH]; [done|].
  rewrite filter_cons_False; [|rewrite H; [done|by left]]. apply IH. intros t' Ht'. apply H. by right.
Qed.

(** C38: the bitmap searches are exact. Looking for the next initialized tick word by
    word gives what a scan over every tick gives: for asks the lowest tick above
    [tick] whose bit is set, for bids the highest one below it, and nothing if there is
    none up to the last valid tick. *)
Theorem next_initialized_tick_scan bm tick :
  found (next_initialized_ask_tick bm tick) = scan_up bm tick ∧
  found (next_initialized_bid_tick bm tick) = scan_down bm tick.
Proof.
  split.
  - pose proof (next_ask_spec bm tick) as H. cbv zeta in H. unfold scan_up, found.
    destruct (next_initialized_ask_tick bm tick) as [r [|]]; cbn [fst snd] in *.
    + destruct H as (Hr & Hs & Hc). replace (MAX_TICK - tick)%Z with ((r - tick - 1) + (1 + (MAX_TICK - r)))%Z by lia.
      rewrite seqZ_app by lia. rewrite (seqZ_cons _ (1 + (MAX_TICK - r))) by lia.
      replace (tick + 1 + (r - tick - 1))%Z with r by lia. symmetry. apply scan_app; [|done].
      intros t Ht%elem_of_seqZ. apply Hc. lia.
    + symmetry. apply scan_None. intros t Ht%elem_of_seqZ. apply H. lia.
  - pose proof (next_bid_spec bm tick) as H. cbv zeta in H. unfold scan_down, found.
    destruct (next_initialized_bid_tick bm tick) as [r [|]]; cbn [fst snd] in *.
    + destruct H as (Hr & Hs & Hc). replace (tick - MIN_TICK)%Z with ((r - MIN_TICK) + (1 + (tick - r - 1)))%Z by lia.
      rewrite seqZ_app by lia. rewrite (seqZ_cons _ (1 + (tick - r - 1))) by lia. rewrite reverse_app, reverse_cons, <- app_assoc.
      replace (MIN_TICK + (r - MIN_TICK))%Z with r by lia. symmetry. apply scan_app; [|done].
      intros t Ht%elem_of_reverse%elem_of_seqZ. apply Hc. lia.
    + symmetry. apply scan_None. intros t Ht%elem_of_reverse%elem_of_seqZ. apply H. lia.
Qed.

End DexBitmap.
