(* ===== verification/Nonce.v ===== *)
(** * 2D nonces and expiring nonces

    [crates/precompiles/src/nonce/mod.rs]: the user nonces of an account under a
    non-zero nonce key, and the ring buffer that protects expiring-nonce
    transactions from replay. *)

From S2P Require Import Prelude Hardfork Address Errors State Monad.

Module NonceOps.
Import NonceManager.

Definition get_nonce (account : Address) (nonceKey : U256) : M N :=
  if nonceKey =? 0 then throw (Nonce NonceError.ProtocolNonceNotSupported)
  else rd nonceC (λ s, s.(nonces).[(account, nonceKey)]).

Definition increment_nonce (account : Address) (nonce_key : U256) : M N :=
  if nonce_key =? 0 then throw (Nonce NonceError.InvalidNonceKey)
  else
    current ← rd nonceC (λ s, s.(nonces).[(account, nonce_key)]);
    new_nonce ← ok_or (checked_add U64_MAX current 1) (Nonce NonceError.NonceOverflow);
    wr nonceC (set_nonces (insert (account, nonce_key) new_nonce)) ;;
    emit NONCE_PRECOMPILE_ADDRESS (NonceIncremented account nonce_key new_nonce) ;;
    mret new_nonce.

Definition is_expiring_nonce_seen (hash : B256) (now : N) : M bool :=
  expiry ← rd nonceC (λ s, s.(expiring_nonce_seen).[hash]);
  mret (negb (expiry =? 0) && (now <? expiry)).

Definition check_and_mark_expiring_nonce
    (expiring_nonce_hash : B256) (valid_before : N) : M () :=
  now ← now_u64;
  sp ← asks spec;
  let max_expiry_secs := expiring_nonce_max_expiry_secs sp in
  let capacity := expiring_nonce_set_capacity sp in
  if (valid_before <=? now) || (saturating_add U64_MAX now max_expiry_secs <? valid_before)
  then throw (Nonce NonceError.InvalidExpiringNonceExpiry)
  else
    seen_expiry ← rd nonceC (λ s, s.(expiring_nonce_seen).[expiring_nonce_hash]);
    if negb (seen_expiry =? 0) && (now <? seen_expiry)
    then throw (Nonce NonceError.ExpiringNonceReplay)
    else
      ptr ← rd nonceC expiring_nonce_ring_ptr;
      let idx := ptr in
      old_hash ← rd nonceC (λ s, s.(expiring_nonce_ring).[idx]);
      (if negb (old_hash =? 0) then
         old_expiry ← rd nonceC (λ s, s.(expiring_nonce_seen).[old_hash]);
         if negb (old_expiry =? 0) && (now <? old_expiry)
         then throw (Nonce NonceError.ExpiringNonceSetFull)
         else wr nonceC (set_expiring_nonce_seen (insert old_hash 0))
       else mret ()) ;;
      wr nonceC (set_expiring_nonce_ring (insert idx expiring_nonce_hash)) ;;
      wr nonceC (set_expiring_nonce_seen (insert expiring_nonce_hash valid_before)) ;;
      let next := if capacity <=? ptr + 1 then 0 else ptr + 1 in
      wr nonceC (set_expiring_nonce_ring_ptr (λ _, next)).

(** The state-changing entry points, and their execution in call frames of their
    own, each in the environment of its block. *)
Inductive op :=
| Increment (account : Address) (nonce_key : U256)
| Mark (hash : B256) (valid_before : N).

Definition exec (o : op) : M () :=
  match o with
  | Increment a k => call (increment_nonce a k ;; mret ())
  | Mark h v => call (check_and_mark_expiring_nonce h v)
  end.

Fixpoint run (tr : list (Env * op)) (w : World) : World :=
  match tr with
  | [] => w
  | (e, o) :: tr' => run tr' (exec o e w).2
  end.

Definition now (e : Env) : N := saturating_to U64_MAX (timestamp e).

(** ** What one successful mark does *)

Lemma mark_Ok h v e w u w' :
  check_and_mark_expiring_nonce h v e w = (Ok u, w') →
  let s := w_nonce w in
  let s' := w_nonce w' in
  let ptr := s.(expiring_nonce_ring_ptr) in
  let old := s.(expiring_nonce_ring).[ptr] in
  now e < v ∧
  s.(expiring_nonce_seen).[h] ≤ now e ∧
  (old = 0 ∨ s.(expiring_nonce_seen).[old] ≤ now e) ∧
  s'.(expiring_nonce_ring) = <[ptr := h]> s.(expiring_nonce_ring) ∧
  s'.(expiring_nonce_seen) =
    <[h := v]> (if old =? 0 then s.(expiring_nonce_seen)
                else <[old := 0]> s.(expiring_nonce_seen)) ∧
  s'.(expiring_nonce_ring_ptr) =
    (if expiring_nonce_set_capacity (spec e) <=? ptr + 1 then 0 else ptr + 1).
Proof.
  unfold check_and_mark_expiring_nonce, now_u64. intros H. m_inv; bool_simpl.
  all: fold (now e) in *.
  all: repeat match goal with
       | H : (_ && _) = false |- _ => apply andb_false_iff in H as [?|?]; bool_simpl
       end.
  all: rewrite ?N.eqb_refl; repeat split; try lia.
  all: try (destruct (N.eqb_spec (expiring_nonce_ring (w_nonce w)).[
         expiring_nonce_ring_ptr (w_nonce w)] 0)); done || lia || (right; lia) || by left.
Qed.

(** ** The invariant of the ring *)

(** The pointer stays inside the ring, and every live hash sits in the ring, so
    at most [capacity] entries are ever kept. *)
Record ring_wf (cap : N) (s : State) : Prop := {
  ring_ptr_lt : s.(expiring_nonce_ring_ptr) < cap;
  ring_live : ∀ h, h ≠ 0 → s.(expiring_nonce_seen).[h] ≠ 0 →
    ∃ i, i < cap ∧ s.(expiring_nonce_ring).[i] = h
}.

Lemma mark_ring_wf cap h v e w u w' :
  expiring_nonce_set_capacity (spec e) ≤ cap →
  check_and_mark_expiring_nonce h v e w = (Ok u, w') →
  ring_wf cap (w_nonce w) →
  ring_wf cap (w_nonce w').
Proof.
  intros Hcap (Hv & Hh & Hold & Hr & Hs & Hp)%mark_Ok [Hptr Hlive]. split.
  { rewrite Hp. destruct (N.leb_spec (expiring_nonce_set_capacity (spec e))
      (expiring_nonce_ring_ptr (w_nonce w) + 1)); lia. }
  intros h' Hnz. rewrite Hs, Hr, sread_insert. case_decide as Heq; subst.
  { intros _. eexists. split; [done|]. apply sread_insert_eq. }
  intros Hseen.
  assert ((expiring_nonce_seen (w_nonce w)).[h'] ≠ 0 ∧
          h' ≠ (expiring_nonce_ring (w_nonce w)).[expiring_nonce_ring_ptr (w_nonce w)])
    as [Hseen' Hne].
  { destruct (N.eqb_spec (expiring_nonce_ring (w_nonce w)).[
      expiring_nonce_ring_ptr (w_nonce w)] 0) as [E|E]; [by rewrite E|].
    rewrite sread_insert in Hseen. by case_decide. }
  destruct (Hlive h') as (i & Hi & Hri); [done..|].
  exists i. split; [done|]. rewrite sread_insert_ne; [done|]. congruence.
Qed.

(** ** Replay protection *)

(** An entry that has not expired at any time up to [T] survives every step
    taken up to [T]. *)
Lemma exec_keeps_entry h v T o e w :
  now e ≤ T → T < v →
  (w_nonce w).(expiring_nonce_seen).[h] = v →
  (w_nonce (exec o e w).2).(expiring_nonce_seen).[h] = v.
Proof.
  intros HT Hv Hs. destruct o as [a k|h' v']; simpl; call_cases Hr; try done.
  - generalize dependent (call (increment_nonce a k ;; mret ()) e w).2. intros w' Hr.
    unfold increment_nonce in Hr. m_inv. done.
  - apply mark_Ok in Hr as (_ & Hh & Hold & _ & -> & _).
    rewrite sread_insert_ne by (intros ->; lia).
    destruct (N.eqb_spec (expiring_nonce_ring (w_nonce w)).[
      expiring_nonce_ring_ptr (w_nonce w)] 0); [done|].
    rewrite sread_insert_ne; [done|]. intros E. rewrite E in Hold. lia.
Qed.

Lemma run_keeps_entry h v T tr w :
  Forall (λ p, now p.1 ≤ T) tr → T < v →
  (w_nonce w).(expiring_nonce_seen).[h] = v →
  (w_nonce (run tr w)).(expiring_nonce_seen).[h] = v.
Proof.
  intros Htr Hv. revert w. induction Htr as [|[e o] tr He _ IH]; intros w Hs; [done|].
  simpl in *. apply IH. by apply (exec_keeps_entry h v T).
Qed.

Lemma mark_seen h v v2 e w :
  (w_nonce w).(expiring_nonce_seen).[h] = v → now e < v →
  check_and_mark_expiring_nonce h v2 e w =
    (Err (Nonce (if (v2 <=? now e) ||
                    (saturating_add U64_MAX (now e)
                       (expiring_nonce_max_expiry_secs (spec e)) <? v2)
                 then NonceError.InvalidExpiringNonceExpiry
                 else NonceError.ExpiringNonceReplay)), w).
Proof.
  intros Hs Hv. unfold check_and_mark_expiring_nonce, now_u64, mbind, M_bind, asks, rd, gets.
  fold (now e). simpl. destruct (_ || _); [done|]. cbn. rewrite Hs.
  destruct (N.eqb_spec v 0) as [->|?]; [lia|].
  destruct (N.ltb_spec (now e) v); [done|lia].
Qed.

(** ** Properties *)

(** C19: once an expiring-nonce transaction hash [h] has been accepted with
    expiry [v], every later attempt to mark [h] at a time before [v] fails with
    an expiring-nonce error and changes nothing, whatever sequence of nonce
    operations (successful or not) ran in between, under whatever forks. *)
Theorem expiring_nonce_no_replay h v v2 e1 w1 w2 tr e2 :
  check_and_mark_expiring_nonce h v e1 w1 = (Ok tt, w2) →
  Forall (λ p, now p.1 ≤ now e2) tr →
  now e2 < v →
  ∃ x, call (check_and_mark_expiring_nonce h v2) e2 (run tr w2)
       = (Err (Nonce x), run tr w2) ∧
       (x = NonceError.ExpiringNonceReplay ∨ x = NonceError.InvalidExpiringNonceExpiry).
Proof.
  intros H1 Htr Hv. apply mark_Ok in H1 as (_ & _ & _ & _ & Hs & _).
  assert ((w_nonce (run tr w2)).(expiring_nonce_seen).[h] = v) as Hseen.
  { apply (run_keeps_entry h v (now e2)); [done..|]. rewrite Hs. apply sread_insert_eq. }
  unfold call. rewrite (mark_seen h v) by done. eexists. split; [done|].
  destruct (_ || _); auto.
Qed.

Lemma expiring_nonce_no_replay_witness :
  let w2 := (check_and_mark_expiring_nonce 7 20 (example_env T2 0) dflt).2 in
  let tr := [(example_env T2 5, Mark 8 30); (example_env T3 15, Mark 7 40)] in
  ∃ x, call (check_and_mark_expiring_nonce 7 25) (example_env T11 15) (run tr w2)
       = (Err (Nonce x), run tr w2) ∧
       (x = NonceError.ExpiringNonceReplay ∨ x = NonceError.InvalidExpiringNonceExpiry).
Proof.
  intros w2 tr.
  apply (expiring_nonce_no_replay 7 20 25 (example_env T2 0) dflt w2 tr).
  - reflexivity.
  - repeat constructor; vm_compute; discriminate.
  - reflexivity.
Defined.

(** The ring invariant holds along every run: with [cap] at least the
    capacity of every fork that occurs, the pointer stays below [cap] and every
    hash with a live entry is stored in one of the first [cap] slots, so replay
    protection keeps at most [cap] hashes, across fork activations too. *)
Theorem expiring_nonce_ring_wf cap tr w :
  Forall (λ p, expiring_nonce_set_capacity (spec p.1) ≤ cap) tr →
  ring_wf cap (w_nonce w) →
  ring_wf cap (w_nonce (run tr w)).
Proof.
  intros Htr. revert w. induction Htr as [|[e o] tr He _ IH]; intros w Hw; [done|].
  simpl in *. apply IH. destruct o as [a k|h v]; simpl; call_cases Hr; try done.
  - generalize dependent (call (increment_nonce a k ;; mret ()) e w).2. intros w' Hr.
    unfold increment_nonce in Hr. m_inv. by destruct Hw.
  - by eapply mark_ring_wf.
Qed.

Lemma expiring_nonce_ring_wf_witness :
  ring_wf 300000
    (w_nonce (run [(example_env T2 5, Mark 8 30); (example_env T2 6, Increment 1 1)] dflt)).
Proof.
  apply (expiring_nonce_ring_wf 300000).
  - repeat constructor; vm_compute; discriminate.
  - split; [reflexivity|]. intros h _ Hs. destruct Hs. apply sread_empty.
Defined.

(** A 2D nonce counts up by exactly one, is never reused and never wraps:
    an increment succeeds exactly when the key is a user key and the stored
    nonce is below [u64::MAX]; it returns and stores the successor and leaves
    every other nonce alone. *)
Theorem increment_nonce_spec account key e w r w' :
  increment_nonce account key e w = (r, w') →
  let n := (w_nonce w).(nonces).[(account, key)] in
  match r with
  | Ok n' => key ≠ 0 ∧ n < U64_MAX ∧ n' = n + 1 ∧
      ∀ p, (w_nonce w').(nonces).[p] =
           if decide (p = (account, key)) then n + 1 else (w_nonce w).(nonces).[p]
  | Err x => w' = w ∧
      (key = 0 ∧ x = Nonce NonceError.InvalidNonceKey ∨
       key ≠ 0 ∧ U64_MAX ≤ n ∧ x = Nonce NonceError.NonceOverflow)
  end.
Proof.
  unfold increment_nonce. destruct (N.eqb_spec key 0) as [->|Hk].
  { intros [= <- <-]. auto. }
  unfold mbind, M_bind, rd, gets, ok_or, checked_add. simpl.
  destruct (N.leb_spec ((w_nonce w).(nonces).[(account, key)] + 1) U64_MAX) as [Hle|Hgt];
    simpl; intros [= <- <-].
  - repeat split; [done|lia|]. intros p. simpl. rewrite sread_insert.
    repeat case_decide; congruence.
  - split; [done|]. right. split; [done|]. split; [lia|done].
Qed.

Lemma increment_nonce_spec_witness :
  let w' := (increment_nonce 5 1 (example_env T2 0) dflt).2 in
  (w_nonce w').(nonces).[(5, 1)] = 1 ∧ (w_nonce w').(nonces).[(5, 2)] = 0.
Proof.
  intros w'.
  destruct (increment_nonce_spec 5 1 (example_env T2 0) dflt (Ok 1) w')
    as (_ & _ & _ & H); [reflexivity|].
  split; [apply (H (5, 1))|apply (H (5, 2))].
Defined.

End NonceOps.
