(* ===== verification/AddressRegistry.v ===== *)
(** * The virtual-address registry

    [crates/precompiles/src/address_registry/mod.rs] (TIP-1022 and the TIP-1035
    implicit approval list). *)

From S2P Require Import Prelude Hardfork Address Bytes Signature Errors State Monad.

Module Registry.
Import AddressRegistryStorage.

Definition IMPLICIT_APPROVAL_LIST : list Address :=
  [TIP_FEE_MANAGER_ADDRESS; STABLECOIN_DEX_ADDRESS; TIP20_CHANNEL_RESERVE_ADDRESS].

Definition is_implicitly_approved (addr : Address) (hardfork : TempoHardfork) : bool :=
  if negb (is_t5 hardfork) then false
  else existsb (N.eqb addr) IMPLICIT_APPROVAL_LIST.

(** Bytes [i..j] of a 32-byte hash. *)
Definition hash_slice (h : B256) (i j : N) : N :=
  (h / 2 ^ (8 * (32 - j))) mod 2 ^ (8 * (j - i)).

#[global] Arguments hash_slice : simpl never.

(** [RegistryData::master_address]. *)
Definition master_address (master : Address) : option Address :=
  if master =? ZERO_ADDRESS then None else Some master.

Definition register_virtual_master (msg_sender : Address) (salt : B256) : M N :=
  if negb (is_valid_master msg_sender)
  then throw (AddrRegistry AddrRegistryError.InvalidMasterAddress)
  else
    keccak ← asks keccak256;
    let registration_hash := keccak (address_bytes msg_sender ++ word_bytes salt) in
    if negb (hash_slice registration_hash 0 4 =? 0)
    then throw (AddrRegistry AddrRegistryError.ProofOfWorkFailed)
    else
      let master_id := hash_slice registration_hash 4 8 in
      existing ← rd registryC (λ s, master_address s.(data).[master_id]);
      match existing with
      | Some master => throw (AddrRegistry (AddrRegistryError.MasterIdCollision master))
      | None =>
          wr registryC (set_data (insert master_id msg_sender)) ;;
          emit ADDRESS_REGISTRY_ADDRESS (MasterRegistered master_id msg_sender) ;;
          mret master_id
      end.

Definition get_master (master_id : N) : M (option Address) :=
  rd registryC (λ s, master_address s.(data).[master_id]).

Definition resolve_recipient (to : Address) : M Address :=
  sp ← asks spec;
  if negb (is_t3 sp) then mret to
  else match decode_virtual to with
       | None => mret to
       | Some (master_id, _) =>
           m ← get_master master_id;
           ok_or m (AddrRegistry AddrRegistryError.VirtualAddressUnregistered)
       end.

Definition resolve_virtual_address (addr : Address) : M Address :=
  match decode_virtual addr with
  | None => mret ZERO_ADDRESS
  | Some (master_id, _) =>
      m ← get_master master_id;
      mret (default ZERO_ADDRESS m)
  end.

(** ** Invariant *)

(** Every registered master is eligible to be one. *)
Definition registry_wf (w : World) : Prop :=
  ∀ id m, master_address (w_registry w).(data).[id] = Some m → is_valid_master m = true.

(** Registrations are permanent. *)
Definition registry_grows : relation World := λ w w',
  ∀ id m, master_address (w_registry w).(data).[id] = Some m →
          master_address (w_registry w').(data).[id] = Some m.
#[export] Instance registry_grows_preorder : PreOrder registry_grows.
Proof. split; [by intros w id m|]. intros w1 w2 w3 H12 H23 id m Hm. eauto. Qed.

Lemma stable_resolve_recipient e R `{!PreOrder R} to : Stable e R (resolve_recipient to).
Proof. unfold resolve_recipient, get_master. stable_auto. Qed.
Lemma stable_resolve_virtual_address e R `{!PreOrder R} a :
  Stable e R (resolve_virtual_address a).
Proof. unfold resolve_virtual_address, get_master. stable_auto. Qed.

Lemma register_Ok msg_sender salt e w id w' :
  register_virtual_master msg_sender salt e w = (Ok id, w') →
  is_valid_master msg_sender = true ∧
  master_address (w_registry w).(data).[id] = None ∧
  (w_registry w').(data) = <[id := msg_sender]> (w_registry w).(data).
Proof. unfold register_virtual_master. intros H. m_inv. by bool_simpl. Qed.

Lemma register_grows msg_sender salt e :
  StableOk e registry_grows (register_virtual_master msg_sender salt).
Proof.
  intros w id w' (_ & Hnone & Hd)%register_Ok id' m Hm.
  rewrite Hd, sread_insert_ne; [done|]. intros ->. congruence.
Qed.

Lemma register_wf msg_sender salt e :
  StableOk e (maintains registry_wf) (register_virtual_master msg_sender salt).
Proof.
  intros w id w' (Hv & _ & Hd)%register_Ok Hwf id' m. rewrite Hd, sread_insert.
  case_decide; [|apply Hwf]. unfold master_address.
  destruct (msg_sender =? ZERO_ADDRESS); [done|]. by intros [= <-].
Qed.

(** The outcome of resolution, as a function of the registry. *)
Lemma resolve_recipient_run to e w :
  resolve_recipient to e w =
    (if is_t3 (spec e) then
       match decode_virtual to with
       | None => Ok to
       | Some (id, _) =>
           match master_address (w_registry w).(data).[id] with
           | Some m => Ok m
           | None => Err (AddrRegistry AddrRegistryError.VirtualAddressUnregistered)
           end
       end
     else Ok to, w).
Proof.
  unfold resolve_recipient, get_master, rd, gets, asks, mbind, M_bind.
  destruct (is_t3 (spec e)); [|done]. simpl.
  destruct (decode_virtual to) as [[id u]|]; [|done].
  simpl. by destruct (master_address _).
Qed.

Lemma decode_virtual_None a : is_virtual a = false → decode_virtual a = None.
Proof. unfold decode_virtual. by intros ->. Qed.

Lemma decode_virtual_Some a : is_virtual a = true → ∃ m u, decode_virtual a = Some (m, u).
Proof. unfold decode_virtual. intros ->. simpl. eauto. Qed.

(** ** Properties *)

(** The registrations a chain executes, each in a call frame of its own. *)
Fixpoint run_registrations (l : list (Env * (Address * B256))) (w : World) : World :=
  match l with
  | [] => w
  | (e, (sender, salt)) :: l' =>
      run_registrations l' (call (register_virtual_master sender salt) e w).2
  end.

Lemma run_registrations_wf l w :
  registry_wf w → registry_wf (run_registrations l w) ∧ registry_grows w (run_registrations l w).
Proof.
  revert w. induction l as [|[e [s salt]] l IH]; intros w Hw; [done|]. simpl.
  assert (registry_wf (call (register_virtual_master s salt) e w).2 ∧
          registry_grows w (call (register_virtual_master s salt) e w).2) as [Hwf Hg].
  { call_cases Hr; [done|]. split.
    - revert Hw. by eapply (register_wf s salt e).
    - by eapply (register_grows s salt e). }
  destruct (IH _ Hwf) as [? ?]. split; [done|]. by etrans.
Qed.

(** C35: from a well-formed registry (the empty one included) and after any
    sequence of registrations, a recipient that resolves is resolved for good:
    every later resolution gives the same account, the account is a final one
    (resolving it again is the identity), and, for a virtual address, it is a
    valid master: non-zero, not itself virtual and not a token. *)
Theorem resolution_permanent to r e e' w l :
  registry_wf w →
  is_t3 (spec e) = true → is_t3 (spec e') = true →
  resolve_recipient to e w = (Ok r, w) →
  let w' := run_registrations l w in
  resolve_recipient to e' w' = (Ok r, w') ∧
  resolve_recipient r e' w' = (Ok r, w') ∧
  is_virtual r = false ∧
  (is_virtual to = true → is_valid_master r = true).
Proof.
  intros Hwf Ht Ht' Hr w'. destruct (run_registrations_wf l w Hwf) as [Hwf' Hg].
  rewrite resolve_recipient_run, Ht in Hr. rewrite !resolve_recipient_run, Ht'.
  destruct (is_virtual to) eqn:Hv.
  - destruct (decode_virtual_Some to Hv) as (id & u & Hd). rewrite Hd in *.
    destruct (master_address (w_registry w).(data).[id]) as [m|] eqn:Hm; [|done].
    injection Hr as <-. fold w' in Hg. rewrite (Hg _ _ Hm).
    pose proof (Hwf _ _ Hm) as Hval.
    apply is_valid_master_spec in Hval as Hval'. destruct Hval' as (_ & Hnv & _).
    by rewrite decode_virtual_None.
  - rewrite (decode_virtual_None to Hv) in *. injection Hr as <-.
    by rewrite (decode_virtual_None to Hv).
Qed.

(** A hash under which account 5 registers with salt 0, as master id 9. *)
Definition example_registry_env : Env :=
  {| spec := T3; timestamp := 0; block_number := 1; chain_id := 4217; beneficiary := 0; is_static := false;
     keccak256 := λ bs, N.shiftl (List.last bs 0 + 9) (8 * 24);
     ecrecover := λ _ _ _ _, None; crypto := Signatures.example_crypto; eth_precompiles := λ _ _, false;
     create2 := λ _ _ _, 0; configurable_account_recovery_factory := None |}.

Lemma resolution_permanent_witness :
  let e := example_registry_env in
  let w := (register_virtual_master 5 0 e dflt).2 in
  let w' := run_registrations [(e, (6, 0)); (e, (6, 1))] w in
  resolve_recipient (new_virtual 9 77) e w' = (Ok 5, w') ∧
  is_valid_master 5 = true.
Proof.
  intros e w w'.
  destruct (resolution_permanent (new_virtual 9 77) 5 e e w [(e, (6, 0)); (e, (6, 1))])
    as (H1 & _ & _ & H2).
  - intros id m. assert ((w_registry w).(data) = <[9 := 5]> ∅) as -> by (vm_compute; reflexivity).
    rewrite sread_insert. case_decide.
    + intros [= <-]. reflexivity.
    + rewrite sread_empty. discriminate.
  - reflexivity.
  - reflexivity.
  - reflexivity.
  - split; [exact H1|]. apply H2. reflexivity.
Defined.

End Registry.
