(* ===== verification/Tip20Base.v ===== *)
(** * Token handles

    The parts of [tip20_factory/mod.rs] and [tip20/mod.rs] that other precompiles
    use before a token is operated on: the deployment test, the checked
    construction of a handle, and the legacy transfer-policy slot. *)

From S2P Require Import Prelude Hardfork Address Errors State Monad.

Definition RESERVED_SIZE : N := 1024.

(** An amount of the token [t'], seen as an amount of [t]. *)
Definition at_token (t' t : Address) (n : N) : N := if decide (t' = t) then n else 0.

(** [TIP20Factory::is_tip20]. *)
Definition is_tip20 (token : Address) : M bool :=
  if negb (is_tip20_prefix token) then mret false else has_code token.

(** [TIP20Token::from_address]: the handle is the address itself. *)
Definition from_address (address : Address) : M () :=
  require (is_tip20_prefix address) (TIP20 TIP20Error.InvalidToken).

Definition legacy_transfer_policy_id (token : Address) : M N :=
  rd (tip20C token) TIP20Token.transfer_policy_id.

Definition delete_legacy_transfer_policy_id (token : Address) : M () :=
  wr (tip20C token) (TIP20Token.set_transfer_policy_id (λ _, 0)).

Lemma stable_is_tip20 e R `{!PreOrder R} t : Stable e R (is_tip20 t).
Proof. unfold is_tip20. stable_auto. Qed.
Lemma stable_from_address e R `{!PreOrder R} t : Stable e R (from_address t).
Proof. unfold from_address. stable_auto. Qed.
Lemma stable_legacy_transfer_policy_id e R `{!PreOrder R} t :
  Stable e R (legacy_transfer_policy_id t).
Proof. unfold legacy_transfer_policy_id. stable_auto. Qed.
#[export] Hint Resolve stable_is_tip20 stable_from_address
  stable_legacy_transfer_policy_id : stable.
