(* ===== verification/Keychain.v ===== *)
(** * The account keychain

    [crates/precompiles/src/account_keychain/mod.rs]: access keys with expiry,
    spending limits (one-off and periodic), call scopes, key-authorization
    witnesses, and the hooks TIP-20 operations call before moving funds. *)

From S2P Require Import Prelude StorageSet Hardfork Address Errors State Monad Tip20Base.

Module KeychainOps.
Import Keychain.

Abbreviation ekc x := (AccountKeychain x) (only parsing).
Definition emitkc (ev : AccountKeychainEvent.t) : M () :=
  emit ACCOUNT_KEYCHAIN_ADDRESS (KeychainEv ev).

(** ** Call data *)

Inductive SignatureType := Secp256k1 | P256 | WebAuthn | ConfigurableAccount | SigInvalid.

Record TokenLimit := mkTokenLimit { tl_token : Address; tl_amount : U256; tl_period : N }.
Record SelectorRule := mkSelectorRule { sr_selector : N; sr_recipients : list Address }.
Record CallScope := mkCallScope { cs_target : Address; cs_selectorRules : list SelectorRule }.
Record KeyRestrictions := mkKeyRestrictions {
  kr_expiry : N;
  kr_enforceLimits : bool;
  kr_limits : list TokenLimit;
  kr_allowAnyCalls : bool;
  kr_allowedCalls : list CallScope
}.
Inductive TxKind := Call (target : Address) | Create.

(** [StoredSignatureType::try_from]. *)
Definition stored_signature_type (t : SignatureType) : option N :=
  match t with
  | Secp256k1 => Some 0 | P256 => Some 1 | WebAuthn => Some 2 | ConfigurableAccount => Some 3
  | SigInvalid => None
  end.

Definition ZERO_PERIODIC_REMAINING_SENTINEL : U256 := U256_MAX.

(** The selectors of [transfer], [approve] and [transferWithMemo]. *)
Definition TIP20_TRANSFER_SELECTOR : N := 0xa9059cbb.
Definition TIP20_APPROVE_SELECTOR : N := 0x095ea7b3.
Definition TIP20_TRANSFER_WITH_MEMO_SELECTOR : N := 0x95777d59.
Definition is_constrained_tip20_selector (selector : N) : bool :=
  (selector =? TIP20_TRANSFER_SELECTOR) || (selector =? TIP20_APPROVE_SELECTOR)
  || (selector =? TIP20_TRANSFER_WITH_MEMO_SELECTOR).

(** [has_duplicates_metered] of [lib.rs]: sort, then look for equal neighbours. *)
Fixpoint adjacent_equal (l : list N) : bool :=
  match l with
  | x :: (y :: _) as l' => (x =? y) || adjacent_equal l'
  | _ => false
  end.
Fixpoint insert_sorted (x : N) (l : list N) : list N :=
  match l with
  | [] => [x]
  | y :: l' => if x <=? y then x :: l else y :: insert_sorted x l'
  end.
Definition sort_unstable (l : list N) : list N := foldr insert_sorted [] l.
Definition has_duplicates (l : list N) : bool := adjacent_equal (sort_unstable l).

(** ** Spending-limit arithmetic *)

Definition compute_next_period_end (l : SpendingLimitState.t) (current_timestamp : N) : N :=
  let period := l.(SpendingLimitState.period) in
  let period_end := l.(SpendingLimitState.period_end) in
  let elapsed := saturating_sub current_timestamp period_end in
  let periods_elapsed := saturating_add U64_MAX (elapsed / period) 1 in
  let advance := N.min U64_MAX (period * periods_elapsed) in
  saturating_add U64_MAX period_end advance.

Definition spending_limit_key_of (keccak : list N → B256) (account key_id : Address) : B256 :=
  keccak (address_bytes account ++ address_bytes key_id).
Definition spending_limit_key (account key_id : Address) : M B256 :=
  asks (λ e, spending_limit_key_of (keccak256 e) account key_id).

Definition t3_spending_limit_cap (limit : U256) : M N :=
  require (limit <=? U128_MAX) (ekc AccountKeychainError.InvalidSpendingLimit) ;;
  mret limit.

Definition set_limit (limit_key : B256) (token : Address) (l : SpendingLimitState.t) : M () :=
  wr keychainC (set_spending_limits (insert (limit_key, token) l)).
Definition set_limit_remaining (limit_key : B256) (token : Address) (r : U256) : M () :=
  wr keychainC (set_spending_limits (λ m,
    let l := m.[(limit_key, token)] in
    <[(limit_key, token) := SpendingLimitState.mk r l.(SpendingLimitState.max)
        l.(SpendingLimitState.period) l.(SpendingLimitState.period_end)]> m)).
Definition write_key (account key_id : Address) (k : AuthorizedKey.t) : M () :=
  wr keychainC (set_keys (insert (account, key_id) k)).

(** ** Key lookup and authority *)

Definition load_active_key (account key_id : Address) (current_timestamp : N)
    : M AuthorizedKey.t :=
  key ← rd keychainC (λ s, s.(keys).[(account, key_id)]);
  require (negb key.(AuthorizedKey.is_revoked)) (ekc AccountKeychainError.KeyAlreadyRevoked) ;;
  require (negb (key.(AuthorizedKey.expiry) =? 0)) (ekc AccountKeychainError.KeyNotFound) ;;
  require (negb (key.(AuthorizedKey.expiry) <=? current_timestamp))
    (ekc AccountKeychainError.KeyExpired) ;;
  mret key.

(** [load_active_key] with user-level errors turned into [None]. *)
Definition try_active_key (account key_id : Address) (current_timestamp : N)
    : M (option AuthorizedKey.t) :=
  r ← try_ (load_active_key account key_id current_timestamp);
  match r with
  | Ok key => mret (Some key)
  | Err err => if is_system_error err then throw err else mret None
  end.

Definition is_admin_key (account key_id : Address) : M bool :=
  retired ← is_retired_root account;
  if (key_id =? account) && negb retired then mret true
  else
    current_timestamp ← now_u64;
    key ← try_active_key account key_id current_timestamp;
    mret (match key with Some k => k.(AuthorizedKey.is_admin) | None => false end).

Definition ensure_admin_caller (msg_sender : Address) : M () :=
  transaction_key ← rd keychainC transaction_key;
  sp ← asks spec;
  (if negb (is_zero transaction_key) then
     if negb (is_t6 sp) then throw (ekc AccountKeychainError.UnauthorizedCaller)
     else admin ← is_admin_key msg_sender transaction_key;
          require admin (ekc AccountKeychainError.UnauthorizedCaller)
   else mret ()) ;;
  if is_t2 sp then
    tx_origin ← rd keychainC tx_origin;
    require (negb (is_zero tx_origin || negb (tx_origin =? msg_sender)))
      (ekc AccountKeychainError.UnauthorizedCaller)
  else mret ().

Definition validate_keychain_authorization (account key_id : Address)
    (current_timestamp : N) (expected_sig_type : option N) : M AuthorizedKey.t :=
  key ← load_active_key account key_id current_timestamp;
  match expected_sig_type with
  | Some sig_type =>
      require (key.(AuthorizedKey.signature_type) =? sig_type)
        (ekc (AccountKeychainError.SignatureTypeMismatch
               key.(AuthorizedKey.signature_type) sig_type)) ;;
      mret key
  | None => mret key
  end.

Definition ensure_signature_type_active (t : N) : M () :=
  sp ← asks spec;
  require (negb ((t =? 3) && negb (is_t14 sp))) (ekc AccountKeychainError.InvalidSignatureType).

Definition ensure_key_authorization_witness_not_burned (account : Address) (witness : B256) : M () :=
  burned ← rd keychainC (λ s, s.(key_authorization_witnesses).[(account, witness)]);
  require (negb burned) (ekc AccountKeychainError.KeyAuthorizationWitnessAlreadyBurned).

(** ** Call scopes *)

Definition upd_scope (account_key : B256) (g : KeyScope.t → KeyScope.t) : M () :=
  wr keychainC (set_key_scopes (λ m, <[account_key := g m.[account_key]]> m)).
Definition set_is_scoped (b : bool) (s : KeyScope.t) : KeyScope.t :=
  KeyScope.mk b s.(KeyScope.targets) s.(KeyScope.target_scopes).
Definition set_targets (g : list Address → list Address) (s : KeyScope.t) : KeyScope.t :=
  KeyScope.mk s.(KeyScope.is_scoped) (g s.(KeyScope.targets)) s.(KeyScope.target_scopes).
Definition upd_target (target : Address) (g : TargetScope.t → TargetScope.t)
    (s : KeyScope.t) : KeyScope.t :=
  KeyScope.mk s.(KeyScope.is_scoped) s.(KeyScope.targets)
    (<[target := g s.(KeyScope.target_scopes).[target]]> s.(KeyScope.target_scopes)).

(** [SetHandler::insert]; the position counter is 32 bits wide, and [max] is the
    capacity of the array for elements of this type. *)
Definition set_insert_m (max : N) (l : list N) (v : N) : M (list N) :=
  require (list_contains l v || (N.of_nat (length l) + 1 <=? U32_MAX)) under_overflow ;;
  require (list_contains l v || (N.of_nat (length l) <? max)) (Fatal "Vec is at max capacity") ;;
  mret (list_insert_value l v).

(** [clear_target_selectors]: the recipients of every listed selector, then the
    selector set itself. *)
Definition clear_selectors (t : TargetScope.t) : TargetScope.t :=
  TargetScope.mk []
    (fold_left (λ m sel, <[sel := []]> m) t.(TargetScope.selectors)
       t.(TargetScope.selector_scopes)).
Definition clear_target_selectors (account_key : B256) (target : Address) : M () :=
  upd_scope account_key (upd_target target clear_selectors).

Definition clear_all_target_scopes (account_key : B256) : M () :=
  targets ← rd keychainC (λ s, s.(key_scopes).[account_key].(KeyScope.targets));
  mfor targets (clear_target_selectors account_key) ;;
  upd_scope account_key (set_targets (λ _, [])).

Definition remove_target_scope (account_key : B256) (target : Address) : M () :=
  targets ← rd keychainC (λ s, s.(key_scopes).[account_key].(KeyScope.targets));
  if list_contains targets target then
    upd_scope account_key (set_targets (λ l, list_remove_value l target)) ;;
    clear_target_selectors account_key target
  else mret ().

(** [validate_selector_rules]; [is_tip20] is the cached closure of the source,
    whose answer does not change during the call. *)
Fixpoint validate_rules (is_tip20 : M bool) (sort_selectors : bool)
    (seen : list N) (rules : list SelectorRule) : M () :=
  match rules with
  | [] => mret ()
  | rule :: rules' =>
      require (negb (negb sort_selectors && list_contains seen rule.(sr_selector)))
        (ekc AccountKeychainError.InvalidCallScope) ;;
      (if bool_decide (rule.(sr_recipients) = []) then mret ()
       else
         require (is_constrained_tip20_selector rule.(sr_selector))
           (ekc AccountKeychainError.InvalidCallScope) ;;
         tip20 ← is_tip20;
         require tip20 (ekc AccountKeychainError.InvalidCallScope) ;;
         require (negb (existsb is_zero rule.(sr_recipients)
                        || has_duplicates rule.(sr_recipients)))
           (ekc AccountKeychainError.InvalidCallScope)) ;;
      validate_rules is_tip20 sort_selectors (rule.(sr_selector) :: seen) rules'
  end.

Definition validate_selector_rules (target : Address) (rules : list SelectorRule) : M () :=
  sp ← asks spec;
  let sort_selectors := is_t11 sp in
  let tip20 := if negb (is_t4 sp) then is_tip20 target
               else mret (is_tip20_prefix target) in
  require (negb (sort_selectors && has_duplicates (map sr_selector rules)))
    (ekc AccountKeychainError.InvalidCallScope) ;;
  validate_rules tip20 sort_selectors [] rules.

Definition validate_call_scope (scope : CallScope) : M () :=
  require (negb (is_zero scope.(cs_target))) (ekc AccountKeychainError.InvalidCallScope) ;;
  if bool_decide (scope.(cs_selectorRules) = []) then mret ()
  else validate_selector_rules scope.(cs_target) scope.(cs_selectorRules).

Fixpoint validate_scopes_seen (seen : list N) (scopes : list CallScope) : M () :=
  match scopes with
  | [] => mret ()
  | scope :: scopes' =>
      require (negb (list_contains seen scope.(cs_target)))
        (ekc AccountKeychainError.InvalidCallScope) ;;
      sp ← asks spec;
      (if is_t4 sp then validate_call_scope scope else mret ()) ;;
      validate_scopes_seen (scope.(cs_target) :: seen) scopes'
  end.

Definition validate_call_scopes (scopes : list CallScope) : M () :=
  sp ← asks spec;
  if is_t11 sp then
    require (negb (has_duplicates (map cs_target scopes)))
      (ekc AccountKeychainError.InvalidCallScope) ;;
    mfor scopes validate_call_scope
  else validate_scopes_seen [] scopes.

Definition upsert_rule (account_key : B256) (target : Address) (rule : SelectorRule) : M () :=
  let selector := rule.(sr_selector) in
  selectors ← rd keychainC (λ s,
    s.(key_scopes).[account_key].(KeyScope.target_scopes).[target].(TargetScope.selectors));
  selectors' ← set_insert_m (max_index 4 1) selectors selector;
  upd_scope account_key (upd_target target (λ t,
    TargetScope.mk selectors' t.(TargetScope.selector_scopes))) ;;
  sp ← asks spec;
  if bool_decide (rule.(sr_recipients) = []) && is_t4 sp then mret ()
  else upd_scope account_key (upd_target target (λ t,
         TargetScope.mk t.(TargetScope.selectors)
           (<[selector := rule.(sr_recipients)]> t.(TargetScope.selector_scopes)))).

Definition upsert_target_scope (account_key : B256) (scope : CallScope) : M () :=
  let target := scope.(cs_target) in
  sp ← asks spec;
  (if negb (is_t4 sp) then validate_call_scope scope else mret ()) ;;
  targets ← rd keychainC (λ s, s.(key_scopes).[account_key].(KeyScope.targets));
  targets' ← set_insert_m (max_index 20 1) targets target;
  upd_scope account_key (set_targets (λ _, targets')) ;;
  clear_target_selectors account_key target ;;
  mfor scope.(cs_selectorRules) (upsert_rule account_key target).

Definition replace_allowed_calls (account_key : B256)
    (allowed_calls : option (list CallScope)) : M () :=
  clear_all_target_scopes account_key ;;
  match allowed_calls with
  | None => upd_scope account_key (set_is_scoped false)
  | Some scopes =>
      upd_scope account_key (set_is_scoped true) ;;
      if bool_decide (scopes = []) then mret ()
      else
        validate_call_scopes scopes ;;
        mfor scopes (upsert_target_scope account_key)
  end.

(** The address word of a recipient-constrained call, if it is one. *)
Definition word_recipient (input : list N) : option Address :=
  let recipient_word := take 32 (drop 4 input) in
  if existsb (λ b, negb (b =? 0)) (take 12 recipient_word) then None
  else Some (fold_left (λ acc b, acc * 256 + b) (drop 12 recipient_word) 0).

Definition validate_call_scope_for_transaction (account key_id : Address)
    (to : TxKind) (input : list N) : M () :=
  sp ← asks spec;
  if is_zero key_id || negb (is_t3 sp) then mret ()
  else match to with
  | Create => throw (ekc AccountKeychainError.CallNotAllowed)
  | Call target =>
      key_hash ← spending_limit_key account key_id;
      scope ← rd keychainC (λ s, s.(key_scopes).[key_hash]);
      if negb scope.(KeyScope.is_scoped) then mret ()
      else
        require (list_contains scope.(KeyScope.targets) target)
          (ekc AccountKeychainError.CallNotAllowed) ;;
        let tscope := scope.(KeyScope.target_scopes).[target] in
        if bool_decide (tscope.(TargetScope.selectors) = []) then mret ()
        else
          require (negb (Nat.ltb (length input) 4)) (ekc AccountKeychainError.CallNotAllowed) ;;
          let selector := fold_left (λ acc b, acc * 256 + b) (take 4 input) 0 in
          require (list_contains tscope.(TargetScope.selectors) selector)
            (ekc AccountKeychainError.CallNotAllowed) ;;
          let recipients := tscope.(TargetScope.selector_scopes).[selector] in
          if bool_decide (recipients = []) then mret ()
          else
            require (negb (Nat.ltb (length input) 36)) (ekc AccountKeychainError.CallNotAllowed) ;;
            recipient ← ok_or (word_recipient input) (ekc AccountKeychainError.CallNotAllowed);
            require (list_contains recipients recipient)
              (ekc AccountKeychainError.CallNotAllowed)
  end.

(** ** Authorizing keys *)

Definition apply_limit (limit_key : B256) (now : N) (limit : TokenLimit) : M () :=
  sp ← asks spec;
  if is_t3 sp then
    let period_end := if limit.(tl_period) =? 0 then 0
                      else saturating_add U64_MAX now limit.(tl_period) in
    max ← t3_spending_limit_cap limit.(tl_amount);
    set_limit limit_key limit.(tl_token)
      (SpendingLimitState.mk limit.(tl_amount) max limit.(tl_period) period_end)
  else set_limit_remaining limit_key limit.(tl_token) limit.(tl_amount).

Definition apply_key_authorization_restrictions (account key_id : Address)
    (limits : list TokenLimit) (allowed_calls : option (list CallScope)) : M () :=
  limit_key ← spending_limit_key account key_id;
  sp ← asks spec;
  now ← now_u64;
  mfor limits (apply_limit limit_key now) ;;
  if negb (is_t3 sp) then mret () else replace_allowed_calls limit_key allowed_calls.

(** The TIP-1011 fields of [authorize_key_internal], per hardfork. *)
Definition check_restrictions (config : KeyRestrictions) : M (option (list CallScope)) :=
  sp ← asks spec;
  if is_t3 sp then
    require (negb (config.(kr_enforceLimits)
                   && negb (bool_decide (NoDup (map tl_token config.(kr_limits))))))
      (ekc AccountKeychainError.InvalidSpendingLimit) ;;
    if config.(kr_allowAnyCalls) then
      require (negb (is_t5 sp && negb (bool_decide (config.(kr_allowedCalls) = []))))
        (ekc AccountKeychainError.InvalidCallScope) ;;
      mret None
    else mret (Some config.(kr_allowedCalls))
  else
    require (negb (existsb (λ l, negb (l.(tl_period) =? 0)) config.(kr_limits)))
      (ekc AccountKeychainError.InvalidSpendingLimit) ;;
    require (config.(kr_allowAnyCalls) && bool_decide (config.(kr_allowedCalls) = []))
      (ekc AccountKeychainError.InvalidCallScope) ;;
    mret None.

Definition authorize_key_internal (msg_sender key_id : Address)
    (signature_type : SignatureType) (config : KeyRestrictions)
    (witness : option B256) (is_admin : bool) : M () :=
  ensure_admin_caller msg_sender ;;
  sp ← asks spec;
  require (negb (is_zero key_id)) (ekc AccountKeychainError.ZeroPublicKey) ;;
  let is_delegate_grant :=
    match signature_type with ConfigurableAccount => is_t14 sp | _ => false end in
  require (negb ((is_admin || is_delegate_grant) && (key_id =? msg_sender)))
    (ekc AccountKeychainError.InvalidKeyId) ;;
  (if is_delegate_grant then
     eth ← asks eth_precompiles;
     code ← has_code key_id;
     require (negb (negb (is_valid_native_account eth key_id sp) || code))
       (ekc AccountKeychainError.InvalidKeyId)
   else mret ()) ;;
  current_timestamp ← now_u64;
  require (negb (is_t0 sp && (config.(kr_expiry) <=? current_timestamp)))
    (ekc AccountKeychainError.ExpiryInPast) ;;
  existing_key ← rd keychainC (λ s, s.(keys).[(msg_sender, key_id)]);
  require (negb (0 <? existing_key.(AuthorizedKey.expiry)))
    (ekc AccountKeychainError.KeyAlreadyExists) ;;
  require (negb existing_key.(AuthorizedKey.is_revoked))
    (ekc AccountKeychainError.KeyAlreadyRevoked) ;;
  stored ← ok_or (stored_signature_type signature_type)
    (ekc AccountKeychainError.InvalidSignatureType);
  ensure_signature_type_active stored ;;
  allowed_call_configs ← check_restrictions config;
  match witness with
  | Some wit => ensure_key_authorization_witness_not_burned msg_sender wit
  | None => mret ()
  end ;;
  write_key msg_sender key_id
    (AuthorizedKey.mk stored config.(kr_expiry) config.(kr_enforceLimits) false is_admin) ;;
  (if negb is_admin then
     let limits := if config.(kr_enforceLimits) then config.(kr_limits) else [] in
     apply_key_authorization_restrictions msg_sender key_id limits allowed_call_configs
   else mret ()) ;;
  match witness with
  | Some wit => emitkc (AccountKeychainEvent.KeyAuthorizationWitness msg_sender wit)
  | None => mret ()
  end ;;
  emitkc (AccountKeychainEvent.KeyAuthorized msg_sender key_id stored config.(kr_expiry)).

Definition authorize_key (msg_sender key_id : Address) (signature_type : SignatureType)
    (config : KeyRestrictions) (witness : option B256) : M () :=
  authorize_key_internal msg_sender key_id signature_type config witness false.

Definition authorize_admin_key (msg_sender key_id : Address)
    (signature_type : SignatureType) (witness : option B256) : M () :=
  authorize_key_internal msg_sender key_id signature_type
    (mkKeyRestrictions U64_MAX false [] true []) witness true ;;
  emitkc (AccountKeychainEvent.AdminKeyAuthorized msg_sender key_id).

Definition burn_key_authorization_witness_value (account : Address) (witness : B256) : M () :=
  ensure_key_authorization_witness_not_burned account witness ;;
  wr keychainC (set_key_authorization_witnesses (insert (account, witness) true)) ;;
  emitkc (AccountKeychainEvent.KeyAuthorizationWitnessBurned account witness).

Definition burn_key_authorization_witness (msg_sender : Address) (witness : B256) : M () :=
  ensure_admin_caller msg_sender ;;
  burn_key_authorization_witness_value msg_sender witness.

Definition revoke_key (msg_sender keyId : Address) : M () :=
  ensure_admin_caller msg_sender ;;
  key ← rd keychainC (λ s, s.(keys).[(msg_sender, keyId)]);
  require (negb (key.(AuthorizedKey.expiry) =? 0)) (ekc AccountKeychainError.KeyNotFound) ;;
  write_key msg_sender keyId (AuthorizedKey.mk 0 0 false true false) ;;
  emitkc (AccountKeychainEvent.KeyRevoked msg_sender keyId).

Definition update_spending_limit (msg_sender keyId token : Address) (newLimit : U256) : M () :=
  ensure_admin_caller msg_sender ;;
  current_timestamp ← now_u64;
  key ← load_active_key msg_sender keyId current_timestamp;
  require (negb key.(AuthorizedKey.is_admin)) (ekc AccountKeychainError.InvalidKeyId) ;;
  (if negb key.(AuthorizedKey.enforce_limits) then
     write_key msg_sender keyId
       (AuthorizedKey.mk key.(AuthorizedKey.signature_type) key.(AuthorizedKey.expiry) true
          key.(AuthorizedKey.is_revoked) key.(AuthorizedKey.is_admin))
   else mret ()) ;;
  limit_key ← spending_limit_key msg_sender keyId;
  sp ← asks spec;
  (if is_t3 sp then
     limit_state ← rd keychainC (λ s, s.(spending_limits).[(limit_key, token)]);
     max ← t3_spending_limit_cap newLimit;
     set_limit limit_key token
       (SpendingLimitState.mk newLimit max limit_state.(SpendingLimitState.period)
          limit_state.(SpendingLimitState.period_end))
   else set_limit_remaining limit_key token newLimit) ;;
  emitkc (AccountKeychainEvent.SpendingLimitUpdated msg_sender keyId token newLimit).

Definition set_allowed_calls (msg_sender keyId : Address) (scopes : list CallScope) : M () :=
  sp ← asks spec;
  require (is_t3 sp) (ekc AccountKeychainError.InvalidCallScope) ;;
  ensure_admin_caller msg_sender ;;
  current_timestamp ← now_u64;
  key ← load_active_key msg_sender keyId current_timestamp;
  require (negb key.(AuthorizedKey.is_admin)) (ekc AccountKeychainError.InvalidKeyId) ;;
  key_hash ← spending_limit_key msg_sender keyId;
  require (negb (bool_decide (scopes = []))) (ekc AccountKeychainError.InvalidCallScope) ;;
  validate_call_scopes scopes ;;
  mfor scopes (upsert_target_scope key_hash) ;;
  upd_scope key_hash (set_is_scoped true).

Definition remove_allowed_calls (msg_sender keyId target : Address) : M () :=
  ensure_admin_caller msg_sender ;;
  current_timestamp ← now_u64;
  key ← load_active_key msg_sender keyId current_timestamp;
  require (negb key.(AuthorizedKey.is_admin)) (ekc AccountKeychainError.InvalidKeyId) ;;
  key_hash ← spending_limit_key msg_sender keyId;
  current_mode ← rd keychainC (λ s, s.(key_scopes).[key_hash].(KeyScope.is_scoped));
  if negb current_mode then mret () else remove_target_scope key_hash target.

(** ** Views *)

(** [KeyInfo]: signature type, key id, expiry, enforce limits, revoked. *)
Definition get_key (account keyId : Address) : M (N * Address * N * bool * bool) :=
  key ← rd keychainC (λ s, s.(keys).[(account, keyId)]);
  if (key.(AuthorizedKey.expiry) =? 0) || key.(AuthorizedKey.is_revoked)
  then mret (0, ZERO_ADDRESS, 0, false, key.(AuthorizedKey.is_revoked))
  else mret (key.(AuthorizedKey.signature_type), keyId, key.(AuthorizedKey.expiry),
             key.(AuthorizedKey.enforce_limits), key.(AuthorizedKey.is_revoked)).

Definition effective_limit_state_with_key (account key_id token : Address)
    (current_timestamp : N) (key : AuthorizedKey.t) : M (U256 * N) :=
  sp ← asks spec;
  if key.(AuthorizedKey.is_revoked) || (key.(AuthorizedKey.expiry) =? 0) then mret (0, 0)
  else if (key.(AuthorizedKey.expiry) <=? current_timestamp) && is_t3 sp then mret (0, 0)
  else
    limit_key ← spending_limit_key account key_id;
    l ← rd keychainC (λ s, s.(spending_limits).[(limit_key, token)]);
    let remaining := l.(SpendingLimitState.remaining) in
    if negb (is_t3 sp) then mret (remaining, 0)
    else if l.(SpendingLimitState.period) =? 0 then mret (remaining, 0)
    else
      let remaining := if is_t7 sp && (remaining =? ZERO_PERIODIC_REMAINING_SENTINEL)
                       then 0 else remaining in
      if current_timestamp <? l.(SpendingLimitState.period_end)
      then mret (remaining, l.(SpendingLimitState.period_end))
      else mret (l.(SpendingLimitState.max), compute_next_period_end l current_timestamp).

Definition effective_limit_state (account key_id token : Address)
    (current_timestamp : N) : M (U256 * N) :=
  sp ← asks spec;
  if is_zero key_id && is_t3 sp then mret (0, 0)
  else
    key ← rd keychainC (λ s, s.(keys).[(account, key_id)]);
    effective_limit_state_with_key account key_id token current_timestamp key.

Definition effective_remaining_limit (account key_id token : Address)
    (current_timestamp : N) : M U256 :=
  r ← effective_limit_state account key_id token current_timestamp; mret r.1.

Definition effective_remaining_limit_with_key (account key_id token : Address)
    (current_timestamp : N) (key : AuthorizedKey.t) : M U256 :=
  sp ← asks spec;
  if is_zero key_id && is_t3 sp then mret 0
  else r ← effective_limit_state_with_key account key_id token current_timestamp key;
       mret r.1.

Definition get_remaining_limit_with_period (account keyId token : Address) : M (U256 * N) :=
  now ← now_u64;
  effective_limit_state account keyId token now.

Definition get_remaining_limit (account keyId token : Address) : M U256 :=
  sp ← asks spec;
  if negb (is_t2 sp) then
    limit_key ← spending_limit_key account keyId;
    rd keychainC (λ s, s.(spending_limits).[(limit_key, token)].(SpendingLimitState.remaining))
  else r ← get_remaining_limit_with_period account keyId token; mret r.1.

(** The persisted scope tree as call data. *)
Definition scope_tree (s : KeyScope.t) : list CallScope :=
  map (λ target,
    let t := s.(KeyScope.target_scopes).[target] in
    mkCallScope target
      (map (λ sel, mkSelectorRule sel t.(TargetScope.selector_scopes).[sel])
           t.(TargetScope.selectors)))
    s.(KeyScope.targets).

Definition get_allowed_calls (account keyId : Address) : M (bool * list CallScope) :=
  if is_zero keyId then mret (false, [])
  else
    current_timestamp ← now_u64;
    key ← rd keychainC (λ s, s.(keys).[(account, keyId)]);
    if (key.(AuthorizedKey.expiry) =? 0) || key.(AuthorizedKey.is_revoked)
       || (key.(AuthorizedKey.expiry) <=? current_timestamp)
    then mret (true, [])
    else
      key_hash ← spending_limit_key account keyId;
      scope ← rd keychainC (λ s, s.(key_scopes).[key_hash]);
      if negb scope.(KeyScope.is_scoped) then mret (false, [])
      else mret (true, scope_tree scope).

Definition is_key_authorization_witness_burned (account : Address) (witness : B256) : M bool :=
  rd keychainC (λ s, s.(key_authorization_witnesses).[(account, witness)]).
Definition get_transaction_key : M Address := rd keychainC transaction_key.
Definition set_transaction_key (key_id : Address) : M () :=
  wr keychainC (Keychain.set_transaction_key (λ _, key_id)).
Definition set_tx_origin (origin : Address) : M () :=
  wr keychainC (Keychain.set_tx_origin (λ _, origin)).

(** ** Spending *)

(** The periodic part of [verify_and_update_spending]: decode the sentinel and
    roll the period over; the spendable amount and the row to be written. *)
Definition roll_period (t7 : bool) (current_timestamp : N) (l : SpendingLimitState.t)
    : U256 * SpendingLimitState.t :=
  let remaining := l.(SpendingLimitState.remaining) in
  if negb (l.(SpendingLimitState.period) =? 0) then
    let remaining := if t7 && (remaining =? ZERO_PERIODIC_REMAINING_SENTINEL)
                     then 0 else remaining in
    if l.(SpendingLimitState.period_end) <=? current_timestamp then
      (l.(SpendingLimitState.max),
       SpendingLimitState.mk l.(SpendingLimitState.max) l.(SpendingLimitState.max)
         l.(SpendingLimitState.period) (compute_next_period_end l current_timestamp))
    else (remaining, l)
  else (remaining, l).

Definition verify_and_update_spending (account key_id token : Address) (amount : U256) : M () :=
  if is_zero key_id then mret ()
  else
    current_timestamp ← now_u64;
    key ← load_active_key account key_id current_timestamp;
    if negb key.(AuthorizedKey.enforce_limits) then mret ()
    else
      limit_key ← spending_limit_key account key_id;
      sp ← asks spec;
      if negb (is_t3 sp) then
        remaining ← rd keychainC (λ s,
          s.(spending_limits).[(limit_key, token)].(SpendingLimitState.remaining));
        require (negb (remaining <? amount)) (ekc AccountKeychainError.SpendingLimitExceeded) ;;
        set_limit_remaining limit_key token (remaining - amount)
      else
        limit_state ← rd keychainC (λ s, s.(spending_limits).[(limit_key, token)]);
        let '(remaining, l) := roll_period (is_t7 sp) current_timestamp limit_state in
        require (negb (remaining <? amount)) (ekc AccountKeychainError.SpendingLimitExceeded) ;;
        let new_remaining := remaining - amount in
        (if negb (limit_state.(SpendingLimitState.period) =? 0) then
           let stored := if is_t7 sp && (new_remaining =? 0)
                         then ZERO_PERIODIC_REMAINING_SENTINEL else new_remaining in
           set_limit limit_key token
             (SpendingLimitState.mk stored l.(SpendingLimitState.max)
                l.(SpendingLimitState.period) l.(SpendingLimitState.period_end))
         else set_limit_remaining limit_key token new_remaining) ;;
        emitkc (AccountKeychainEvent.AccessKeySpend account key_id token amount new_remaining).

Definition refund_spending_limit (account token : Address) (amount : U256) : M () :=
  transaction_key ← rd keychainC transaction_key;
  tx_origin ← rd keychainC tx_origin;
  if is_zero transaction_key || negb (account =? tx_origin) then mret ()
  else
    current_timestamp ← now_u64;
    key ← try_active_key account transaction_key current_timestamp;
    match key with
    | None => mret ()
    | Some key =>
        if negb key.(AuthorizedKey.enforce_limits) then mret ()
        else
          limit_key ← spending_limit_key account transaction_key;
          sp ← asks spec;
          l ← rd keychainC (λ s, s.(spending_limits).[(limit_key, token)]);
          if negb (is_t3 sp) then
            set_limit_remaining limit_key token
              (saturating_add U256_MAX l.(SpendingLimitState.remaining) amount)
          else
            let refunded :=
              if is_t7 sp && negb (l.(SpendingLimitState.period) =? 0)
                 && (l.(SpendingLimitState.remaining) =? ZERO_PERIODIC_REMAINING_SENTINEL)
              then amount
              else saturating_add U256_MAX l.(SpendingLimitState.remaining) amount in
            let remaining := if l.(SpendingLimitState.max) =? 0 then refunded
                             else N.min refunded l.(SpendingLimitState.max) in
            set_limit limit_key token
              (SpendingLimitState.mk remaining l.(SpendingLimitState.max)
                 l.(SpendingLimitState.period) l.(SpendingLimitState.period_end))
    end.

Definition authorize_transfer (account token : Address) (amount : U256) : M () :=
  transaction_key ← rd keychainC transaction_key;
  tx_origin ← rd keychainC tx_origin;
  if is_zero transaction_key || negb (account =? tx_origin) then mret ()
  else verify_and_update_spending account transaction_key token amount.

Definition authorize_approve (account token : Address) (old_approval new_approval : U256) : M () :=
  transaction_key ← rd keychainC transaction_key;
  tx_origin ← rd keychainC tx_origin;
  if is_zero transaction_key || negb (account =? tx_origin) then mret ()
  else
    let approval_increase := saturating_sub new_approval old_approval in
    if approval_increase =? 0 then mret ()
    else verify_and_update_spending account transaction_key token approval_increase.

End KeychainOps.
