(* ===== verification/KeychainSpec.v ===== *)
(** * What the keychain promises

    Revocation is final, the spending limit reported for a key is exactly what it
    can still spend, and the call scope of a key is the one that was configured. *)

From S2P Require Import Prelude StorageSet Hardfork Address Errors State Monad Tip20Base Keychain.

Module KeychainSpec.
Import Keychain KeychainOps.

(** ** Read-only helpers *)

Lemma stable_load_active_key e R `{!PreOrder R} a k t : Stable e R (load_active_key a k t).
Proof. unfold load_active_key. stable_auto. Qed.
#[export] Hint Resolve stable_load_active_key : stable.
Lemma stable_try_active_key e R `{!PreOrder R} a k t : Stable e R (try_active_key a k t).
Proof. unfold try_active_key. stable_auto. Qed.
#[export] Hint Resolve stable_try_active_key : stable.
Lemma stable_is_admin_key e R `{!PreOrder R} a k : Stable e R (is_admin_key a k).
Proof. unfold is_admin_key. stable_auto. Qed.
#[export] Hint Resolve stable_is_admin_key : stable.
Lemma stable_ensure_admin_caller e R `{!PreOrder R} a : Stable e R (ensure_admin_caller a).
Proof. unfold ensure_admin_caller. stable_auto. Qed.
Lemma stable_spending_limit_key e R `{!PreOrder R} a k : Stable e R (spending_limit_key a k).
Proof. unfold spending_limit_key. stable_auto. Qed.
Lemma stable_t3_cap e R `{!PreOrder R} l : Stable e R (t3_spending_limit_cap l).
Proof. unfold t3_spending_limit_cap. stable_auto. Qed.
Lemma stable_sig_active e R `{!PreOrder R} t : Stable e R (ensure_signature_type_active t).
Proof. unfold ensure_signature_type_active. stable_auto. Qed.
Lemma stable_check_restrictions e R `{!PreOrder R} c : Stable e R (check_restrictions c).
Proof. unfold check_restrictions. stable_auto. Qed.
Lemma stable_witness_not_burned e R `{!PreOrder R} a wit :
  Stable e R (ensure_key_authorization_witness_not_burned a wit).
Proof. unfold ensure_key_authorization_witness_not_burned. stable_auto. Qed.
Lemma stable_set_insert_m e R `{!PreOrder R} max l v : Stable e R (set_insert_m max l v).
Proof. unfold set_insert_m. stable_auto. Qed.
#[export] Hint Resolve stable_ensure_admin_caller stable_spending_limit_key stable_t3_cap
  stable_sig_active stable_check_restrictions stable_witness_not_burned stable_set_insert_m : stable.

Lemma stable_validate_rules e R `{!PreOrder R} m b seen rules :
  Stable e R m → Stable e R (validate_rules m b seen rules).
Proof.
  intros Hm. revert seen. induction rules as [|r l IH]; intros seen; simpl; [stable_auto|].
  repeat (stable_step || apply IH || apply Hm).
Qed.
Lemma stable_validate_selector_rules e R `{!PreOrder R} t rules :
  Stable e R (validate_selector_rules t rules).
Proof.
  unfold validate_selector_rules. stable_step. cbv zeta. stable_step; [stable_auto|].
  apply stable_validate_rules; [done|]. stable_auto.
Qed.
#[export] Hint Resolve stable_validate_selector_rules : stable.
Lemma stable_validate_call_scope e R `{!PreOrder R} s : Stable e R (validate_call_scope s).
Proof. unfold validate_call_scope. stable_auto. Qed.
#[export] Hint Resolve stable_validate_call_scope : stable.
Lemma stable_validate_scopes_seen e R `{!PreOrder R} seen scopes :
  Stable e R (validate_scopes_seen seen scopes).
Proof.
  revert seen. induction scopes as [|s l IH]; intros seen; simpl; [stable_auto|].
  repeat (stable_step || apply IH).
Qed.
#[export] Hint Resolve stable_validate_scopes_seen : stable.
Lemma stable_validate_call_scopes e R `{!PreOrder R} scopes :
  Stable e R (validate_call_scopes scopes).
Proof. unfold validate_call_scopes. stable_auto. Qed.
#[export] Hint Resolve stable_validate_call_scopes : stable.

(** ** Entry points *)

(** Everything that can change the keychain: the dispatched calls, the spending
    hooks of TIP-20 operations and the handler's transaction set-up. *)
Inductive op :=
| AuthorizeKey (key_id : Address) (t : SignatureType) (c : KeyRestrictions) (wit : option B256)
| AuthorizeAdminKey (key_id : Address) (t : SignatureType) (wit : option B256)
| BurnWitness (wit : B256)
| RevokeKey (key_id : Address)
| UpdateSpendingLimit (key_id token : Address) (limit : U256)
| SetAllowedCalls (key_id : Address) (scopes : list CallScope)
| RemoveAllowedCalls (key_id target : Address)
| AuthorizeTransfer (token : Address) (amount : U256)
| AuthorizeApprove (token : Address) (old new : U256)
| RefundSpendingLimit (token : Address) (amount : U256)
| SetTransactionKey (key_id : Address)
| SetTxOrigin (origin : Address).

Definition exec (account : Address) (o : op) : M () :=
  match o with
  | AuthorizeKey k t c wit => authorize_key account k t c wit
  | AuthorizeAdminKey k t wit => authorize_admin_key account k t wit
  | BurnWitness wit => burn_key_authorization_witness account wit
  | RevokeKey k => revoke_key account k
  | UpdateSpendingLimit k t l => update_spending_limit account k t l
  | SetAllowedCalls k s => set_allowed_calls account k s
  | RemoveAllowedCalls k t => remove_allowed_calls account k t
  | AuthorizeTransfer t a => authorize_transfer account t a
  | AuthorizeApprove t o n => authorize_approve account t o n
  | RefundSpendingLimit t a => refund_spending_limit account t a
  | SetTransactionKey k => set_transaction_key k
  | SetTxOrigin o => set_tx_origin o
  end.

Definition history := list (Env * Address * op).

Fixpoint run (h : history) (w : World) : World :=
  match h with
  | [] => w
  | (e, account, o) :: h' => run h' (call (exec account o) e w).2
  end.

(** ** Revocation *)

Definition revoked (w : World) (account key_id : Address) : Prop :=
  (w_keychain w).(keys).[(account, key_id)].(AuthorizedKey.is_revoked) = true.

Definition keys_grow (m m' : gmap (Address * Address) AuthorizedKey.t) : Prop :=
  ∀ p, m.[p].(AuthorizedKey.is_revoked) = true → m'.[p].(AuthorizedKey.is_revoked) = true.
#[export] Instance keys_grow_preorder : PreOrder keys_grow.
Proof. split; [by intros m p|]. intros m1 m2 m3 H1 H2 p H. auto. Qed.

Definition revocations_grow : relation World :=
  λ w w', keys_grow (w_keychain w).(keys) (w_keychain w').(keys).
#[export] Instance revocations_grow_preorder : PreOrder revocations_grow.
Proof. split; [by intros w p|]. intros w1 w2 w3 H1 H2. unfold revocations_grow in *. by etrans. Qed.

Lemma keeps_keys_revocations {A} e (m : M A) :
  Stable e (keeps (λ w, (w_keychain w).(keys))) m → Stable e revocations_grow m.
Proof.
  intros Hm w r w' H. pose proof (Hm w r w' H) as E.
  unfold keeps in E. unfold revocations_grow. by rewrite E.
Qed.

(** Rewrite along the equations between keychain components. *)
Ltac chain_rewrite :=
  repeat match goal with
  | H : ?f (w_keychain ?w) = _ |- _ => is_var w; rewrite H in *; clear H
  end.

Abbreviation keeps_keys := (keeps (λ w, (w_keychain w).(keys))).

Lemma keys_set_limit e k t l : Stable e keeps_keys (set_limit k t l).
Proof. unfold set_limit. stable_auto. Qed.
Lemma keys_set_limit_remaining e k t l : Stable e keeps_keys (set_limit_remaining k t l).
Proof. unfold set_limit_remaining. stable_auto. Qed.
Lemma keys_upd_scope e k g : Stable e keeps_keys (upd_scope k g).
Proof. unfold upd_scope. stable_auto. Qed.
Lemma keys_emitkc e ev : Stable e keeps_keys (emitkc ev).
Proof. unfold emitkc. stable_auto. Qed.
#[export] Hint Resolve keys_set_limit keys_set_limit_remaining keys_upd_scope keys_emitkc : stable.
Lemma keys_upsert_target_scope e k s : Stable e keeps_keys (upsert_target_scope k s).
Proof. unfold upsert_target_scope, clear_target_selectors, upsert_rule. stable_auto. Qed.
#[export] Hint Resolve keys_upsert_target_scope : stable.
Lemma keys_replace_allowed_calls e k s : Stable e keeps_keys (replace_allowed_calls k s).
Proof.
  unfold replace_allowed_calls, clear_all_target_scopes, clear_target_selectors. stable_auto.
Qed.
#[export] Hint Resolve keys_replace_allowed_calls : stable.
Lemma keys_apply_restrictions e a k l c :
  Stable e keeps_keys (apply_key_authorization_restrictions a k l c).
Proof. unfold apply_key_authorization_restrictions, apply_limit. stable_auto. Qed.
Lemma keys_verify_and_update_spending e a k t n :
  Stable e keeps_keys (verify_and_update_spending a k t n).
Proof. unfold verify_and_update_spending. stable_auto. Qed.
#[export] Hint Resolve keys_apply_restrictions keys_verify_and_update_spending : stable.
Lemma keys_refund_spending_limit e a t n : Stable e keeps_keys (refund_spending_limit a t n).
Proof. unfold refund_spending_limit. stable_auto. Qed.
Lemma keys_authorize_transfer e a t n : Stable e keeps_keys (authorize_transfer a t n).
Proof. unfold authorize_transfer. stable_auto. Qed.
Lemma keys_authorize_approve e a t o n : Stable e keeps_keys (authorize_approve a t o n).
Proof. unfold authorize_approve. stable_auto. Qed.
#[export] Hint Resolve keys_refund_spending_limit keys_authorize_transfer keys_authorize_approve : stable.

Lemma authorize_key_internal_keys a k t c wit adm e w u w' :
  authorize_key_internal a k t c wit adm e w = (Ok u, w') →
  (w_keychain w).(keys).[(a, k)].(AuthorizedKey.is_revoked) = false ∧
  (w_keychain w).(keys).[(a, k)].(AuthorizedKey.expiry) = 0 ∧
  ∃ key, (key.(AuthorizedKey.is_revoked) = false ∧
          key.(AuthorizedKey.expiry) = c.(kr_expiry)) ∧
    (w_keychain w').(keys) = <[(a, k) := key]> (w_keychain w).(keys).
Proof.
  unfold authorize_key_internal, write_key. intros H. m_inv; bool_simpl.
  all: stable_facts (keeps (λ w, (w_keychain w).(keys))); w_simpl; chain_rewrite.
  all: split; [assumption|split; [lia|]]; eexists; (split; [|reflexivity]); split; reflexivity.
Qed.

Lemma insert_grows p key m :
  m.[p].(AuthorizedKey.is_revoked) = false ∨ key.(AuthorizedKey.is_revoked) = true →
  keys_grow m (<[p := key]> m).
Proof.
  intros Hk p'. rewrite sread_insert. case_decide; [|done]. subst. destruct Hk; congruence.
Qed.

Lemma load_active_key_Ok a k t e w key w' :
  load_active_key a k t e w = (Ok key, w') →
  w' = w ∧ key = (w_keychain w).(keys).[(a, k)] ∧
  key.(AuthorizedKey.is_revoked) = false ∧ key.(AuthorizedKey.expiry) ≠ 0 ∧
  t < key.(AuthorizedKey.expiry).
Proof. unfold load_active_key. intros H. m_inv. by bool_simpl. Qed.

Lemma update_spending_limit_grows e a k t l :
  StableOk e revocations_grow (update_spending_limit a k t l).
Proof.
  intros w u w' H. unfold revocations_grow. unfold update_spending_limit, write_key in H. m_inv.
  all: match goal with H : load_active_key _ _ _ _ _ = _ |- _ =>
         apply load_active_key_Ok in H as (-> & -> & Hr & _) end.
  all: stable_facts (keeps (λ w, (w_keychain w).(keys))); w_simpl; chain_rewrite.
  all: first [done | by apply insert_grows; left].
Qed.

Lemma revoke_key_grows e a k : StableOk e revocations_grow (revoke_key a k).
Proof.
  intros w u w' H. unfold revocations_grow. unfold revoke_key, write_key in H. m_inv.
  stable_facts (keeps (λ w, (w_keychain w).(keys))); w_simpl; chain_rewrite.
  by apply insert_grows; right.
Qed.

Lemma exec_revocations e a o : StableOk e revocations_grow (exec a o).
Proof.
  destruct o; simpl.
  - unfold authorize_key.
    intros w u w' (Hr & _ & key & Hk & Hw)%authorize_key_internal_keys.
    unfold revocations_grow. rewrite Hw. by apply insert_grows; left.
  - intros w u w' H. unfold authorize_admin_key in H. m_inv.
    apply authorize_key_internal_keys in Hrun as (Hr & _ & key & Hk & Hw).
    unfold revocations_grow. stable_facts (keeps (λ w, (w_keychain w).(keys))). chain_rewrite.
    by apply insert_grows; left.
  - apply stable_stable_ok, keeps_keys_revocations.
    unfold burn_key_authorization_witness, burn_key_authorization_witness_value. stable_auto.
  - apply revoke_key_grows.
  - apply update_spending_limit_grows.
  - apply stable_stable_ok, keeps_keys_revocations. unfold set_allowed_calls. stable_auto.
  - apply stable_stable_ok, keeps_keys_revocations.
    unfold remove_allowed_calls, remove_target_scope, clear_target_selectors. stable_auto.
  - apply stable_stable_ok, keeps_keys_revocations. stable_auto.
  - apply stable_stable_ok, keeps_keys_revocations. stable_auto.
  - apply stable_stable_ok, keeps_keys_revocations. stable_auto.
  - apply stable_stable_ok, keeps_keys_revocations. unfold set_transaction_key. stable_auto.
  - apply stable_stable_ok, keeps_keys_revocations. unfold set_tx_origin. stable_auto.
Qed.

Lemma run_revocations h w : revocations_grow w (run h w).
Proof.
  revert w. induction h as [|[[e a] o] h IH]; intros w; simpl; [done|].
  etrans; [|apply IH]. call_cases Hr; [done|]. by eapply exec_revocations.
Qed.

(** ** Spending limits *)

Abbreviation active key t := (key.(AuthorizedKey.is_revoked) = false ∧
  key.(AuthorizedKey.expiry) ≠ 0 ∧ t < key.(AuthorizedKey.expiry)).

Definition key_of (w : World) (a k : Address) : AuthorizedKey.t := (w_keychain w).(keys).[(a, k)].
Definition row_of (e : Env) (w : World) (a k token : Address) : SpendingLimitState.t :=
  (w_keychain w).(spending_limits).[(spending_limit_key_of (keccak256 e) a k, token)].

(** What a limit row allows at [now], and when the window in force ends. *)
Definition row_view (t7 : bool) (l : SpendingLimitState.t) (now : N) : U256 * N :=
  if l.(SpendingLimitState.period) =? 0 then (l.(SpendingLimitState.remaining), 0)
  else if now <? l.(SpendingLimitState.period_end) then
    (if t7 && (l.(SpendingLimitState.remaining) =? ZERO_PERIODIC_REMAINING_SENTINEL)
     then 0 else l.(SpendingLimitState.remaining), l.(SpendingLimitState.period_end))
  else (l.(SpendingLimitState.max), compute_next_period_end l now).

(** The row after spending [amount]. *)
Definition row_spend (t7 : bool) (l : SpendingLimitState.t) (now amount : N)
    : SpendingLimitState.t :=
  let '(v, pend) := row_view t7 l now in
  let r := v - amount in
  if l.(SpendingLimitState.period) =? 0
  then SpendingLimitState.mk r l.(SpendingLimitState.max) 0 l.(SpendingLimitState.period_end)
  else SpendingLimitState.mk
         (if t7 && (r =? 0) then ZERO_PERIODIC_REMAINING_SENTINEL else r)
         l.(SpendingLimitState.max) l.(SpendingLimitState.period) pend.

Lemma load_active_key_run a k t e w :
  active (key_of w a k) t → load_active_key a k t e w = (Ok (key_of w a k), w).
Proof.
  intros (Hr & He & Ht). unfold load_active_key, mbind, M_bind, rd, gets, require. w_simpl.
  fold (key_of w a k). rewrite Hr. cbn [negb].
  destruct (N.eqb_spec (AuthorizedKey.expiry (key_of w a k)) 0); [done|].
  destruct (N.leb_spec (AuthorizedKey.expiry (key_of w a k)) t); [lia|]. done.
Qed.

Lemma effective_limit_state_run a k token t e w :
  k ≠ 0 → is_t3 (spec e) = true → active (key_of w a k) t →
  effective_limit_state a k token t e w =
    (Ok (row_view (is_t7 (spec e)) (row_of e w a k token) t), w).
Proof.
  intros Hk Ht3 (Hr & He & Ht).
  unfold effective_limit_state, effective_limit_state_with_key, spending_limit_key,
    mbind, M_bind, rd, gets, asks, mret, M_ret. w_simpl.
  unfold is_zero. destruct (N.eqb_spec k 0); [done|]. cbn [andb]. w_simpl.
  fold (key_of w a k). rewrite Hr, Ht3. cbn [orb negb].
  destruct (N.eqb_spec (AuthorizedKey.expiry (key_of w a k)) 0); [done|].
  destruct (N.leb_spec (AuthorizedKey.expiry (key_of w a k)) t); [lia|]. cbn [andb].
  w_simpl. fold (row_of e w a k token). unfold row_view.
  destruct (_ =? 0); [done|]. by destruct (_ <? _).
Qed.

Lemma effective_limit_state_inactive a k token t e w :
  k ≠ 0 → is_t3 (spec e) = true → ¬ active (key_of w a k) t →
  effective_limit_state a k token t e w = (Ok (0, 0), w).
Proof.
  intros Hk Ht3 Hno.
  unfold effective_limit_state, effective_limit_state_with_key, mbind, M_bind, rd, gets, asks,
    mret, M_ret. w_simpl.
  unfold is_zero. destruct (N.eqb_spec k 0); [done|]. cbn [andb]. w_simpl.
  fold (key_of w a k). rewrite Ht3, andb_true_r.
  destruct (AuthorizedKey.is_revoked (key_of w a k)) eqn:Hr; [done|]. cbn [orb].
  destruct (N.eqb_spec (AuthorizedKey.expiry (key_of w a k)) 0); [done|].
  destruct (N.leb_spec (AuthorizedKey.expiry (key_of w a k)) t); [done|]. by destruct Hno.
Qed.

Lemma roll_period_view t7 t l :
  (roll_period t7 t l).1 = (row_view t7 l t).1 ∧
  (roll_period t7 t l).2.(SpendingLimitState.max) = l.(SpendingLimitState.max) ∧
  (roll_period t7 t l).2.(SpendingLimitState.period) = l.(SpendingLimitState.period) ∧
  (l.(SpendingLimitState.period) ≠ 0 →
   (roll_period t7 t l).2.(SpendingLimitState.period_end) = (row_view t7 l t).2).
Proof.
  unfold roll_period, row_view. destruct (N.eqb_spec (SpendingLimitState.period l) 0); simpl; [done|].
  rewrite N.leb_antisym. by destruct (t <? _).
Qed.

(** Spending checks the row and replaces it by [row_spend]. *)
Lemma verify_and_update_spending_run a k token amount e w :
  let t := saturating_to U64_MAX (timestamp e) in
  let l := row_of e w a k token in
  k ≠ 0 → is_t3 (spec e) = true → active (key_of w a k) t →
  (key_of w a k).(AuthorizedKey.enforce_limits) = true →
  ∃ w',
    verify_and_update_spending a k token amount e w =
      (if amount <=? (row_view (is_t7 (spec e)) l t).1 then Ok tt
       else Err (ekc AccountKeychainError.SpendingLimitExceeded), w') ∧
    (w_keychain w').(keys) = (w_keychain w).(keys) ∧
    ((row_view (is_t7 (spec e)) l t).1 < amount → w' = w) ∧
    (∀ e', keccak256 e' = keccak256 e →
      row_of e' w' a k token =
        if amount <=? (row_view (is_t7 (spec e)) l t).1
        then row_spend (is_t7 (spec e)) l t amount else l).
Proof.
  intros t l Hk Ht3 Hact Henf.
  unfold verify_and_update_spending, now_u64, spending_limit_key.
  unfold is_zero. destruct (N.eqb_spec k 0); [done|].
  unfold mbind at 1, M_bind at 1, asks at 1. fold t.
  unfold mbind at 1, M_bind at 1. rewrite (load_active_key_run a k t e w Hact).
  rewrite Henf. cbn [negb]. unfold mbind, M_bind, asks, rd, gets. rewrite Ht3. cbn [negb]. w_simpl.
  change (spending_limits (w_keychain w)).[(spending_limit_key_of (keccak256 e) a k, token)] with l.
  destruct (roll_period_view (is_t7 (spec e)) t l) as (Hv & Hm & Hp & Hpe).
  destruct (roll_period (is_t7 (spec e)) t l) as [v l'] eqn:Hroll. cbn [fst snd] in *. subst v.
  unfold require, throw, mret, M_ret. rewrite <- N.leb_antisym.
  destruct (N.leb_spec amount (row_view (is_t7 (spec e)) l t).1) as [Hle|Hgt].
  2: { exists w. split; [done|]. split; [done|]. split; [done|]. intros e' He'. unfold row_of. by rewrite He'. }
  rewrite Hm, Hp.
  destruct (N.eqb_spec (SpendingLimitState.period l) 0) as [Ep|Ep]; cbn [negb];
    eexists; (split; [reflexivity|]); (split; [reflexivity|]); (split; [lia|]); intros e' He'.
  - unfold row_of. rewrite He'. w_simpl. rewrite sread_insert_eq. unfold row_spend, row_view.
    rewrite Ep. cbn [N.eqb fst snd]. f_equal. exact Ep.
  - unfold row_of. rewrite He'. w_simpl. rewrite sread_insert_eq. unfold row_spend.
    rewrite (Hpe Ep). destruct (row_view (is_t7 (spec e)) l t) as [v pend]. cbn [fst snd].
    by destruct (N.eqb_spec (SpendingLimitState.period l) 0).
Qed.

(** The widths of the row's fields. *)
Definition row_typed (l : SpendingLimitState.t) : Prop :=
  l.(SpendingLimitState.remaining) ≤ U256_MAX ∧ l.(SpendingLimitState.max) ≤ U128_MAX.

Lemma U128_lt_U256 : U128_MAX < U256_MAX.
Proof. done. Qed.

Lemma row_view_le t7 l t :
  row_typed l → (row_view t7 l t).1 ≤ U256_MAX ∧
  (l.(SpendingLimitState.period) ≠ 0 → t7 = true →
   (row_view t7 l t).1 ≠ ZERO_PERIODIC_REMAINING_SENTINEL).
Proof.
  intros [Hr Hm]. pose proof U128_lt_U256. unfold row_view, ZERO_PERIODIC_REMAINING_SENTINEL.
  destruct (N.eqb_spec (SpendingLimitState.period l) 0); [done|].
  destruct (t <? _); cbn [fst]; [|split; [lia|]; intros; lia].
  destruct t7; cbn [andb]; [|done].
  destruct (N.eqb_spec (SpendingLimitState.remaining l) U256_MAX); split; try done; lia.
Qed.

Lemma row_view_end t7 l t : l.(SpendingLimitState.period) ≠ 0 → (row_view t7 l t).2 ≠ 0.
Proof.
  intros Hp. unfold row_view. destruct (N.eqb_spec (SpendingLimitState.period l) 0); [done|].
  destruct (N.ltb_spec t (SpendingLimitState.period_end l)); cbn [snd]; [lia|].
  unfold compute_next_period_end, saturating_add, saturating_sub, U64_MAX. nia.
Qed.

(** Before the end of time, the window in force ends in the future. *)
Lemma row_view_end_gt t7 l t :
  t < U64_MAX → l.(SpendingLimitState.period) = 0 ∨ t < (row_view t7 l t).2.
Proof.
  intros Ht. unfold row_view.
  destruct (N.eqb_spec (SpendingLimitState.period l) 0) as [|Hp]; [by left|]. right.
  destruct (N.ltb_spec t (SpendingLimitState.period_end l)) as [|Hge]; cbn [snd]; [done|].
  unfold compute_next_period_end, saturating_add, saturating_sub.
  set (p := SpendingLimitState.period l) in *. set (pe := SpendingLimitState.period_end l) in *.
  assert ((t - pe) / p ≤ t) by (pose proof (N.Div0.div_le_upper_bound (t - pe) p t); nia).
  pose proof (N.mul_succ_div_gt (t - pe) p Hp) as Hgt.
  rewrite (N.min_r U64_MAX ((t - pe) / p + 1)) by lia. rewrite N.add_1_r in *. lia.
Qed.

(** Inside the window in force, the view after a spend is what is left. *)
Lemma row_view_spend t7 l t t' amount :
  row_typed l → amount ≤ (row_view t7 l t).1 →
  l.(SpendingLimitState.period) = 0 ∨ t' < (row_view t7 l t).2 →
  row_view t7 (row_spend t7 l t amount) t' = ((row_view t7 l t).1 - amount, (row_view t7 l t).2).
Proof.
  intros Hty Ha Hw. destruct (row_view_le t7 l t Hty) as [Hle Hne]. unfold row_spend.
  destruct (row_view t7 l t) as [v pend] eqn:Hv. cbn [fst snd] in *.
  destruct (N.eqb_spec (SpendingLimitState.period l) 0) as [Ep|Ep].
  - unfold row_view in Hv. rewrite Ep in Hv. cbn in Hv. injection Hv as <- <-. done.
  - destruct Hw as [?|Hw]; [done|]. unfold row_view. cbn.
    destruct (N.eqb_spec (SpendingLimitState.period l) 0); [done|].
    destruct (N.ltb_spec t' pend); [|lia]. f_equal. destruct t7; cbn [andb]; [|done].
    specialize (Hne Ep eq_refl).
    destruct (N.eqb_spec (v - amount) 0) as [E|E]; [by rewrite N.eqb_refl, E|].
    destruct (N.eqb_spec (v - amount) ZERO_PERIODIC_REMAINING_SENTINEL); [|done].
    unfold ZERO_PERIODIC_REMAINING_SENTINEL in *. lia.
Qed.

(** A window that is not spent from does not move before it ends. *)
Lemma row_view_stay t7 l t t' :
  t ≤ t' → l.(SpendingLimitState.period) = 0 ∨ t' < (row_view t7 l t).2 →
  row_view t7 l t' = row_view t7 l t.
Proof.
  intros Ht Hw. unfold row_view in *.
  destruct (N.eqb_spec (SpendingLimitState.period l) 0) as [|Hp]; [done|].
  destruct Hw as [?|Hw]; [done|].
  destruct (N.ltb_spec t (SpendingLimitState.period_end l)) as [Hlt|Hge]; cbn [snd] in Hw.
  { destruct (N.ltb_spec t' (SpendingLimitState.period_end l)); [done|lia]. }
  destruct (N.ltb_spec t' (SpendingLimitState.period_end l)); [lia|]. f_equal.
  unfold compute_next_period_end, saturating_add, saturating_sub in *.
  set (p := SpendingLimitState.period l) in *. set (pe := SpendingLimitState.period_end l) in *.
  assert ((t' - pe) / p = (t - pe) / p) as ->; [|done].
  assert (t' - pe < p * ((t - pe) / p + 1)) as Hlt.
  { pose proof (N.le_min_r U64_MAX ((t - pe) / p + 1)) as Hq.
    apply (N.mul_le_mono_l _ _ p) in Hq. lia. }
  apply N.Div0.div_lt_upper_bound in Hlt.
  assert ((t - pe) / p ≤ (t' - pe) / p) by (apply N.Div0.div_le_mono; lia). lia.
Qed.

(** ** Properties *)

(** C27: revocation is final. Once [revoke_key] has succeeded, then after any
    history of keychain calls, spending hooks and transaction set-ups the key is
    refused by every check that loads it, and no call can authorize it again,
    with whatever signature type, restrictions or witness. *)
Theorem revoked_key_stays_dead a k e w w' h e2 t sig :
  revoke_key a k e w = (Ok tt, w') →
  let w2 := run h w' in
  load_active_key a k t e2 w2 = (Err (ekc AccountKeychainError.KeyAlreadyRevoked), w2) ∧
  validate_keychain_authorization a k t sig e2 w2 =
    (Err (ekc AccountKeychainError.KeyAlreadyRevoked), w2) ∧
  ∀ st c wit admin u w3, authorize_key_internal a k st c wit admin e2 w2 ≠ (Ok u, w3).
Proof.
  intros H w2.
  assert (revoked w' a k) as Hr.
  { unfold revoke_key, write_key in H. m_inv.
    stable_facts (keeps (λ w, (w_keychain w).(keys))). unfold revoked. w_simpl. chain_rewrite.
    by rewrite sread_insert_eq. }
  pose proof (run_revocations h w' _ Hr) as Hr2. fold w2 in Hr2.
  assert (load_active_key a k t e2 w2 =
          (Err (ekc AccountKeychainError.KeyAlreadyRevoked), w2)) as Hl.
  { unfold load_active_key, mbind, M_bind, rd, gets, require. w_simpl. by rewrite Hr2. }
  split; [done|]. split.
  - unfold validate_keychain_authorization, mbind, M_bind. by rewrite Hl.
  - intros st c wit admin u w3 (Hc & _)%authorize_key_internal_keys. congruence.
Qed.

(** Account 1 authorizes key 2 with a periodic limit of 100 on token 9. *)
Definition example_config : KeyRestrictions :=
  mkKeyRestrictions 1000 true [mkTokenLimit 9 100 60] true [].
Definition example_world (e : Env) : World :=
  run [(e, 1, SetTxOrigin 1); (e, 1, AuthorizeKey 2 Secp256k1 example_config None)] dflt.

Lemma revoked_key_stays_dead_witness :
  let e := example_env T7 10 in
  let w' := (revoke_key 1 2 e (example_world e)).2 in
  let w2 := run [(e, 1, AuthorizeKey 2 P256 example_config None); (e, 1, SetTransactionKey 2)] w' in
  load_active_key 1 2 20 e w2 = (Err (ekc AccountKeychainError.KeyAlreadyRevoked), w2).
Proof.
  intros e w' w2.
  refine (proj1 (revoked_key_stays_dead 1 2 e (example_world e) w'
    [(e, 1, AuthorizeKey 2 P256 example_config None); (e, 1, SetTransactionKey 2)] e 20 None _)).
  vm_compute. reflexivity.
Defined.

(** C34: the limit the keychain reports is the limit it enforces. For an active
    key with enforced limits (T3 on), the remaining amount returned by the view
    is exactly the largest amount that can be spent now: any smaller or equal
    amount is accepted and the view then reports the difference, any larger one
    is refused and nothing changes. This covers one-off limits, periodic limits
    across roll-overs, and the T7 encoding of an exhausted periodic limit. *)
Theorem spending_limit_exact a k token amount e w :
  let t := saturating_to U64_MAX (timestamp e) in
  k ≠ 0 → is_t3 (spec e) = true → active (key_of w a k) t →
  (key_of w a k).(AuthorizedKey.enforce_limits) = true →
  row_typed (row_of e w a k token) →
  t < U64_MAX →
  ∃ v pend, effective_limit_state a k token t e w = (Ok (v, pend), w) ∧
    if amount <=? v then
      ∃ w', verify_and_update_spending a k token amount e w = (Ok tt, w') ∧
            effective_limit_state a k token t e w' = (Ok (v - amount, pend), w')
    else verify_and_update_spending a k token amount e w =
           (Err (ekc AccountKeychainError.SpendingLimitExceeded), w).
Proof.
  intros t Hk Ht3 Hact Henf Hty Hw.
  destruct (verify_and_update_spending_run a k token amount e w Hk Ht3 Hact Henf)
    as (w' & Hrun & Hkeys & Hsame & Hrow). fold t in Hrun, Hsame, Hrow.
  assert (active (key_of w' a k) t) as Hact' by (unfold key_of; by rewrite Hkeys).
  exists (row_view (is_t7 (spec e)) (row_of e w a k token) t).1,
         (row_view (is_t7 (spec e)) (row_of e w a k token) t).2.
  split; [rewrite effective_limit_state_run, <- surjective_pairing by done; done|].
  specialize (Hrow e eq_refl).
  destruct (N.leb_spec amount (row_view (is_t7 (spec e)) (row_of e w a k token) t).1) as [Hle|Hgt].
  - exists w'. split; [done|]. rewrite effective_limit_state_run, Hrow by done.
    do 2 f_equal. apply row_view_spend; [done..|]. by apply row_view_end_gt.
  - by rewrite Hrun, (Hsame Hgt).
Qed.

Lemma spending_limit_exact_witness :
  let e := example_env T7 10 in
  ∃ v pend, effective_limit_state 1 2 9 10 e (example_world e) = (Ok (v, pend), example_world e) ∧
    if 40 <=? v then
      ∃ w', verify_and_update_spending 1 2 9 40 e (example_world e) = (Ok tt, w') ∧
            effective_limit_state 1 2 9 10 e w' = (Ok (v - 40, pend), w')
    else verify_and_update_spending 1 2 9 40 e (example_world e) =
           (Err (ekc AccountKeychainError.SpendingLimitExceeded), example_world e).
Proof.
  intros e. apply (spending_limit_exact 1 2 9 40 e (example_world e)).
  - discriminate.
  - vm_compute. reflexivity.
  - vm_compute. split_and!; [done|discriminate|done].
  - vm_compute. reflexivity.
  - split; vm_compute; discriminate.
  - vm_compute. reflexivity.
Defined.

(** ** One key along a history *)

(** [P] holds of every step of a history, at the world in which it runs. *)
Fixpoint along (P : Env → World → Address → op → Prop) (h : history) (w : World) : Prop :=
  match h with
  | [] => True
  | (e, account, o) :: h' => P e w account o ∧ along P h' (call (exec account o) e w).2
  end.

(** An authorized key stays as it is, but for [update_spending_limit] switching
    its limits on, until it is revoked. *)
Definition key_kept (key key' : AuthorizedKey.t) : Prop :=
  key'.(AuthorizedKey.is_revoked) = true ∨
  key'.(AuthorizedKey.is_revoked) = false ∧
  key'.(AuthorizedKey.expiry) = key.(AuthorizedKey.expiry) ∧
  (key.(AuthorizedKey.enforce_limits) = true → key'.(AuthorizedKey.enforce_limits) = true).

Definition live (key : AuthorizedKey.t) : Prop :=
  key.(AuthorizedKey.is_revoked) = false ∧ key.(AuthorizedKey.expiry) ≠ 0.

Lemma key_kept_same w w' a k :
  live (key_of w a k) → (w_keychain w').(keys) = (w_keychain w).(keys) →
  key_kept (key_of w a k) (key_of w' a k).
Proof. intros [Hr _] E. unfold key_of. rewrite E. by right. Qed.

Lemma key_kept_insert w w' a k p key :
  live (key_of w a k) → (w_keychain w').(keys) = <[p := key]> (w_keychain w).(keys) →
  (p = (a, k) → key_kept (key_of w a k) key) → key_kept (key_of w a k) (key_of w' a k).
Proof.
  intros [Hr _] E Hp. unfold key_of at 2. rewrite E, sread_insert.
  case_decide as Hd; [by apply Hp|]. by right.
Qed.

Lemma authorize_key_kept a' k' t c wit adm a k e w u w' :
  authorize_key_internal a' k' t c wit adm e w = (Ok u, w') → live (key_of w a k) →
  (a', k') ≠ (a, k) ∧ key_kept (key_of w a k) (key_of w' a k).
Proof.
  intros (_ & Hx & key & _ & Hw)%authorize_key_internal_keys Hl.
  assert ((a', k') ≠ (a, k)) by (intros [= -> ->]; by destruct Hl).
  split; [done|]. by eapply key_kept_insert.
Qed.

Lemma update_spending_limit_kept a' k' t l a k e w u w' :
  update_spending_limit a' k' t l e w = (Ok u, w') → live (key_of w a k) →
  key_kept (key_of w a k) (key_of w' a k).
Proof.
  intros H Hl. unfold update_spending_limit, write_key in H. m_inv.
  all: match goal with H : load_active_key _ _ _ _ _ = _ |- _ =>
         apply load_active_key_Ok in H as (-> & -> & Hr & _) end.
  all: stable_facts (keeps (λ w, (w_keychain w).(keys))); w_simpl; chain_rewrite.
  all: first
    [ by apply key_kept_same
    | eapply key_kept_insert; [done|eassumption|]; intros [= <- <-]; right; cbn; by split_and! ].
Qed.

Lemma revoke_key_kept a' k' a k e w u w' :
  revoke_key a' k' e w = (Ok u, w') → live (key_of w a k) →
  key_kept (key_of w a k) (key_of w' a k).
Proof.
  intros H Hl. unfold revoke_key, write_key in H. m_inv.
  stable_facts (keeps (λ w, (w_keychain w).(keys))); w_simpl; chain_rewrite.
  eapply key_kept_insert; [done|eassumption|]. by left.
Qed.

Lemma keys_stable_kept {A} e (m : M A) a k w r w' :
  Stable e keeps_keys m → m e w = (r, w') → live (key_of w a k) →
  key_kept (key_of w a k) (key_of w' a k).
Proof. intros Hm H Hl. apply key_kept_same; [done|]. exact (Hm w r w' H). Qed.

Lemma exec_key_kept account o a k e w u w' :
  exec account o e w = (Ok u, w') → live (key_of w a k) →
  key_kept (key_of w a k) (key_of w' a k).
Proof.
  intros H Hl. destruct o; simpl in H.
  - by eapply authorize_key_kept.
  - unfold authorize_admin_key in H. m_inv.
    assert ((w_keychain w').(keys) = (w_keychain w0).(keys)) as E by exact (keys_emitkc e _ _ _ _ H).
    eapply authorize_key_kept in Hrun as [_ Hk]; [|done]. unfold key_of in *. by rewrite E.
  - eapply keys_stable_kept; [|exact H|done].
    unfold burn_key_authorization_witness, burn_key_authorization_witness_value. stable_auto.
  - by eapply revoke_key_kept.
  - by eapply update_spending_limit_kept.
  - eapply keys_stable_kept; [|exact H|done]. unfold set_allowed_calls. stable_auto.
  - eapply keys_stable_kept; [|exact H|done].
    unfold remove_allowed_calls, remove_target_scope, clear_target_selectors. stable_auto.
  - eapply keys_stable_kept; [|exact H|done]. stable_auto.
  - eapply keys_stable_kept; [|exact H|done]. stable_auto.
  - eapply keys_stable_kept; [|exact H|done]. stable_auto.
  - eapply keys_stable_kept; [|exact H|done]. unfold set_transaction_key. stable_auto.
  - eapply keys_stable_kept; [|exact H|done]. unfold set_tx_origin. stable_auto.
Qed.

(** The rows of the spending-limit table that a step may write: whether it names
    the row of [token] under key [k]. *)
Definition touches (w : World) (o : op) (k token : Address) : Prop :=
  match o with
  | AuthorizeKey k' _ _ _ => k' = k
  | UpdateSpendingLimit k' t _ => k' = k ∧ t = token
  | AuthorizeTransfer t _ | AuthorizeApprove t _ _ | RefundSpendingLimit t _ =>
      (w_keychain w).(transaction_key) = k ∧ t = token
  | _ => False
  end.

Definition row_at (p : B256 * Address) (w : World) : SpendingLimitState.t :=
  (w_keychain w).(spending_limits).[p].

Lemma row_set_limit e p lk t l : (lk, t) ≠ p → Stable e (keeps (row_at p)) (set_limit lk t l).
Proof.
  intros Hne w r w' [= _ <-]. unfold keeps, row_at. w_simpl. by rewrite sread_insert_ne.
Qed.
Lemma row_set_limit_remaining e p lk t l :
  (lk, t) ≠ p → Stable e (keeps (row_at p)) (set_limit_remaining lk t l).
Proof.
  intros Hne w r w' [= _ <-]. unfold keeps, row_at. w_simpl. by rewrite sread_insert_ne.
Qed.

Lemma row_write_key e p a k key : Stable e (keeps (row_at p)) (write_key a k key).
Proof. unfold write_key, row_at. stable_auto. Qed.
Lemma row_emitkc e p ev : Stable e (keeps (row_at p)) (emitkc ev).
Proof. unfold emitkc, row_at. stable_auto. Qed.
Lemma row_upd_scope e p k g : Stable e (keeps (row_at p)) (upd_scope k g).
Proof. unfold upd_scope, row_at. stable_auto. Qed.
#[export] Hint Resolve row_set_limit row_set_limit_remaining row_write_key row_emitkc row_upd_scope
  : stable.
Lemma row_upsert_target_scope e p k s : Stable e (keeps (row_at p)) (upsert_target_scope k s).
Proof. unfold upsert_target_scope, clear_target_selectors, upsert_rule. stable_auto. Qed.
#[export] Hint Resolve row_upsert_target_scope : stable.
Lemma row_replace_allowed_calls e p k s : Stable e (keeps (row_at p)) (replace_allowed_calls k s).
Proof.
  unfold replace_allowed_calls, clear_all_target_scopes, clear_target_selectors. stable_auto.
Qed.
#[export] Hint Resolve row_replace_allowed_calls : stable.
Lemma row_apply_limit e p lk now l :
  (∀ t, (lk, t) ≠ p) → Stable e (keeps (row_at p)) (apply_limit lk now l).
Proof. intros Hp. unfold apply_limit. stable_auto. Qed.
#[export] Hint Resolve row_apply_limit : stable.

Lemma row_verify_and_update_spending e p a k t n w u w' :
  (spending_limit_key_of (keccak256 e) a k, t) ≠ p →
  verify_and_update_spending a k t n e w = (Ok u, w') → row_at p w' = row_at p w.
Proof.
  intros Hp H. unfold verify_and_update_spending, spending_limit_key in H. m_inv; same_world.
  all: stable_facts (keeps (row_at p)); unfold keeps in *; congruence.
Qed.

Lemma row_authorize_key e p a k t c wit adm w u w' :
  (adm = false → ∀ t, (spending_limit_key_of (keccak256 e) a k, t) ≠ p) →
  authorize_key_internal a k t c wit adm e w = (Ok u, w') → row_at p w' = row_at p w.
Proof.
  intros Hp H. unfold authorize_key_internal, apply_key_authorization_restrictions,
    spending_limit_key in H.
  destruct adm; cbn [negb] in H; [clear Hp|specialize (Hp eq_refl)]; m_inv; same_world.
  all: stable_facts (keeps (row_at p)); congruence.
Qed.

Lemma row_update_spending_limit e p a k t l w u w' :
  (spending_limit_key_of (keccak256 e) a k, t) ≠ p →
  update_spending_limit a k t l e w = (Ok u, w') → row_at p w' = row_at p w.
Proof.
  intros Hp H. unfold update_spending_limit, spending_limit_key in H. m_inv; same_world.
  all: stable_facts (keeps (row_at p)); congruence.
Qed.

Lemma row_refund_spending_limit e p a t n w u w' :
  (spending_limit_key_of (keccak256 e) a (w_keychain w).(transaction_key), t) ≠ p →
  refund_spending_limit a t n e w = (Ok u, w') → row_at p w' = row_at p w.
Proof.
  intros Hp H. unfold refund_spending_limit, spending_limit_key in H. m_inv; same_world; try done.
  all: stable_facts (keeps (row_at p)); congruence.
Qed.

Lemma exec_row account o x token e w u w' :
  exec account o e w = (Ok u, w') →
  (∀ k, touches w o k token → spending_limit_key_of (keccak256 e) account k ≠ x) →
  row_at (x, token) w' = row_at (x, token) w.
Proof.
  intros H Hx. destruct o; simpl in H, Hx.
  - unfold authorize_key in H. apply (row_authorize_key e (x, token)) in H; [done|].
    intros _ t' [= E _]. by apply (Hx _ eq_refl).
  - unfold authorize_admin_key in H. m_inv.
    apply row_authorize_key with (p := (x, token)) in Hrun; [|done].
    stable_facts (keeps (row_at (x, token))). congruence.
  - unfold burn_key_authorization_witness, burn_key_authorization_witness_value in H.
    m_inv; same_world. stable_facts (keeps (row_at (x, token))). exact Hkeep.
  - unfold revoke_key in H. m_inv; same_world. stable_facts (keeps (row_at (x, token))). congruence.
  - apply (row_update_spending_limit e (x, token)) in H; [done|]. intros [= E ->]. by eapply Hx.
  - unfold set_allowed_calls in H. m_inv; same_world. stable_facts (keeps (row_at (x, token))). congruence.
  - unfold remove_allowed_calls, remove_target_scope, clear_target_selectors in H. m_inv; same_world; try done.
    stable_facts (keeps (row_at (x, token))). congruence.
  - unfold authorize_transfer in H. m_inv; [done|].
    apply (row_verify_and_update_spending e (x, token)) in H; [done|]. intros [= E ->]. by eapply Hx.
  - unfold authorize_approve in H. m_inv; [done|done|].
    apply (row_verify_and_update_spending e (x, token)) in H; [done|]. intros [= E ->]. by eapply Hx.
  - apply (row_refund_spending_limit e (x, token)) in H; [done|]. intros [= E ->]. by eapply Hx.
  - unfold set_transaction_key in H. by m_inv.
  - unfold set_tx_origin in H. by m_inv.
Qed.

Definition env_time (e : Env) : N := saturating_to U64_MAX (timestamp e).

(** The row after a refund. *)
Definition row_refund (t7 : bool) (l : SpendingLimitState.t) (amount : N) : SpendingLimitState.t :=
  let refunded :=
    if t7 && negb (l.(SpendingLimitState.period) =? 0)
       && (l.(SpendingLimitState.remaining) =? ZERO_PERIODIC_REMAINING_SENTINEL)
    then amount else saturating_add U256_MAX l.(SpendingLimitState.remaining) amount in
  SpendingLimitState.mk
    (if l.(SpendingLimitState.max) =? 0 then refunded else N.min refunded l.(SpendingLimitState.max))
    l.(SpendingLimitState.max) l.(SpendingLimitState.period) l.(SpendingLimitState.period_end).

Lemma refund_spending_limit_row a k token n e w u w' :
  is_t3 (spec e) = true → (w_keychain w).(transaction_key) = k →
  refund_spending_limit a token n e w = (Ok u, w') →
  row_of e w' a k token = row_of e w a k token ∨
  row_of e w' a k token = row_refund (is_t7 (spec e)) (row_of e w a k token) n.
Proof.
  intros Ht <- H. unfold refund_spending_limit, spending_limit_key, set_limit in H.
  m_inv; same_world; try (by left).
  all: try match goal with X : negb (is_t3 _) = true |- _ => rewrite Ht in X; discriminate X end.
  right. unfold row_of. w_simpl. by rewrite sread_insert_eq.
Qed.

Lemma row_view_refund t7 l t n :
  (row_view t7 (row_refund t7 l n) t).1 ≤ (row_view t7 l t).1 + n ∧
  (row_view t7 (row_refund t7 l n) t).2 = (row_view t7 l t).2.
Proof.
  unfold row_view, row_refund, saturating_add. destruct l as [rem max p pe].
  cbn [SpendingLimitState.remaining SpendingLimitState.max SpendingLimitState.period
       SpendingLimitState.period_end].
  destruct (N.eqb_spec p 0) as [->|Hp].
  { cbn [negb]. rewrite andb_false_r. cbn [andb]. destruct (max =? 0); split; cbn [fst snd]; lia. }
  destruct (t <? pe); cbn [fst snd]; [|split; [lia|done]]. split; [|done].
  cbn [negb]. rewrite andb_true_r. destruct t7; cbn [andb]; [|destruct (max =? 0); lia].
  destruct (N.eqb_spec rem ZERO_PERIODIC_REMAINING_SENTINEL), (N.eqb_spec max 0);
    match goal with |- (if ?b then _ else _) ≤ _ => destruct b end; lia.
Qed.

(** [row_view_spend] without assuming the widths of the row. *)
Lemma row_view_spend_le t7 l t t' amount :
  amount ≤ (row_view t7 l t).1 →
  l.(SpendingLimitState.period) = 0 ∨ t' < (row_view t7 l t).2 →
  (row_view t7 (row_spend t7 l t amount) t').1 ≤ (row_view t7 l t).1 - amount ∧
  (row_view t7 (row_spend t7 l t amount) t').2 = (row_view t7 l t).2.
Proof.
  intros Ha Hw. unfold row_spend. destruct (row_view t7 l t) as [v pend] eqn:Hv. cbn [fst snd] in *.
  destruct (N.eqb_spec (SpendingLimitState.period l) 0) as [Ep|Ep].
  { unfold row_view in Hv. rewrite Ep in Hv. cbn in Hv. injection Hv as <- <-.
    split; [apply N.le_refl|done]. }
  destruct Hw as [?|Hw]; [done|]. unfold row_view. cbn.
  destruct (N.eqb_spec (SpendingLimitState.period l) 0); [done|].
  destruct (N.ltb_spec t' pend); [|lia]. cbn. split; [|done]. destruct t7; cbn [andb]; [|lia].
  destruct (N.eqb_spec (v - amount) 0) as [E|E]; [rewrite N.eqb_refl; lia|].
  destruct (_ =? _); lia.
Qed.

Lemma verify_and_update_spending_active a k token n e w u w' :
  verify_and_update_spending a k token n e w = (Ok u, w') → k ≠ 0 →
  active (key_of w a k) (env_time e).
Proof.
  unfold verify_and_update_spending, is_zero. intros H Hk.
  rewrite (proj2 (N.eqb_neq k 0) Hk) in H.
  apply bind_Ok in H as (t & w1 & Ht & H). unfold now_u64 in Ht. apply asks_Ok in Ht as [-> ->].
  apply bind_Ok in H as (key & w1 & (-> & -> & Hact)%load_active_key_Ok & _). exact Hact.
Qed.

(** ** Spending inside a window *)

(** Whether a step of [account] runs in a transaction of [a] signed with key [k]. *)
Definition acts_for (w : World) (a k account : Address) : bool :=
  ((w_keychain w).(transaction_key) =? k) && ((w_keychain w).(tx_origin) =? a) && (account =? a).

(** What a successful step spends from, and returns to, the limit of [k] on [token]. *)
Definition charge (a k token : Address) (w : World) (account : Address) (o : op) : N :=
  if acts_for w a k account then
    match o with
    | AuthorizeTransfer t amount => if t =? token then amount else 0
    | AuthorizeApprove t old new => if t =? token then saturating_sub new old else 0
    | _ => 0
    end
  else 0.
Definition credit (a k token : Address) (w : World) (account : Address) (o : op) : N :=
  if acts_for w a k account then
    match o with
    | RefundSpendingLimit t amount => if t =? token then amount else 0
    | _ => 0
    end
  else 0.

(** The totals spent and refunded along a history; failed steps count for nothing. *)
Fixpoint totals (a k token : Address) (h : history) (w : World) : N * N :=
  match h with
  | [] => (0, 0)
  | (e, account, o) :: h' =>
      let '(s, r) := totals a k token h' (call (exec account o) e w).2 in
      match (call (exec account o) e w).1 with
      | Ok _ => (charge a k token w account o + s, credit a k token w account o + r)
      | Err _ => (s, r)
      end
  end.

#[export] Instance touches_dec w o k token : Decision (touches w o k token).
Proof. destruct o; simpl; apply _. Defined.

Section Window.
Context (a k token : Address) (e0 : Env) (v pend : N).
Context (Hk : k ≠ 0) (Ht3 : is_t3 (spec e0) = true).

(** A moment of the window that the view at [e0] reported: the same rules and
    hash, not before [e0] and before the end of the period in force. *)
Definition in_window (e : Env) : Prop :=
  spec e = spec e0 ∧ keccak256 e = keccak256 e0 ∧
  env_time e0 ≤ env_time e ∧ (pend = 0 ∨ env_time e < pend).

(** A step that leaves the limit itself alone: the account does not set a new
    one, and no other key's table shares the key's slot. *)
Definition limit_untouched (e : Env) (w : World) (account : Address) (o : op) : Prop :=
  (∀ l, ¬ (account = a ∧ o = UpdateSpendingLimit k token l)) ∧
  (∀ k', touches w o k' token →
     spending_limit_key_of (keccak256 e) account k' = spending_limit_key_of (keccak256 e) a k →
     account = a ∧ k' = k).

Definition window (w : World) (s r : N) : Prop :=
  s ≤ v + r ∧
  ((key_of w a k).(AuthorizedKey.is_revoked) = true ∨
   live (key_of w a k) ∧ (key_of w a k).(AuthorizedKey.enforce_limits) = true ∧
   ∃ v', row_view (is_t7 (spec e0)) (row_of e0 w a k token) (env_time e0) = (v', pend) ∧
         s + v' ≤ v + r).

Lemma window_mono w s r r' : window w s r → r ≤ r' → window w s r'.
Proof.
  intros [H1 H2] Hr. split; [lia|]. destruct H2 as [?|(? & ? & v' & ? & ?)]; [by left|].
  right. split_and!; [done..|]. exists v'. split; [done|lia].
Qed.

(** The row is looked at in the period reported at [e0]. *)
Lemma window_view w s r e :
  window w s r → in_window e → (key_of w a k).(AuthorizedKey.is_revoked) = false →
  live (key_of w a k) ∧ (key_of w a k).(AuthorizedKey.enforce_limits) = true ∧
  row_of e w a k token = row_of e0 w a k token ∧
  ((row_of e0 w a k token).(SpendingLimitState.period) = 0 ∨ env_time e < pend) ∧
  row_view (is_t7 (spec e0)) (row_of e0 w a k token) (env_time e) =
    row_view (is_t7 (spec e0)) (row_of e0 w a k token) (env_time e0) ∧
  ∃ v', row_view (is_t7 (spec e0)) (row_of e0 w a k token) (env_time e0) = (v', pend) ∧
        s + v' ≤ v + r.
Proof.
  intros [_ [Hr|(Hl & Henf & v' & Hv & Hle)]] (Hsp & Hkc & Hge & Hpe) Hnr; [congruence|].
  assert ((row_of e0 w a k token).(SpendingLimitState.period) = 0 ∨ env_time e < pend) as Hwin.
  { destruct Hpe as [->|?]; [|by right]. left. apply dec_stable. intros Hp.
    apply (row_view_end (is_t7 (spec e0)) _ (env_time e0)) in Hp. by rewrite Hv in Hp. }
  split_and!; [done|done|unfold row_of; by rewrite Hkc|done| |eauto].
  apply row_view_stay; [done|]. by rewrite Hv.
Qed.

(** Spending from the row. *)
Lemma window_spend w s r e n u w' :
  window w s r → in_window e → verify_and_update_spending a k token n e w = (Ok u, w') →
  window w' (s + n) r.
Proof.
  intros Hw He H. destruct (verify_and_update_spending_active _ _ _ _ _ _ _ _ H Hk) as (Hr & Hx & Ht).
  destruct (window_view w s r e Hw He Hr) as (Hl & Henf & Erow & Hwin & Estay & v' & Hv & Hle).
  pose proof He as (Hsp & Hkc & Hge & _).
  destruct (verify_and_update_spending_run a k token n e w) as (w1 & Hrun & Hkeys & _ & Hrow);
    [done|by rewrite Hsp|done|done|].
  fold (env_time e) in Hrun, Hrow. rewrite Hrun in H. rewrite Hsp, Erow, Estay, Hv in H, Hrow.
  cbn [fst] in H, Hrow. destruct (N.leb_spec n v') as [Hn|]; [|done]. injection H as _ <-.
  specialize (Hrow e0 (eq_sym Hkc)).
  destruct (row_view_spend_le (is_t7 (spec e0)) (row_of e0 w a k token) (env_time e) (env_time e0) n)
    as [H1 H2]; [by rewrite Estay, Hv| |].
  { rewrite Estay, Hv. destruct Hwin; [by left|]. right. cbn [snd]. lia. }
  rewrite Estay, Hv, <- Hrow in H1, H2. cbn [fst snd] in H1, H2.
  assert (key_of w1 a k = key_of w a k) as Ekey by (unfold key_of; by rewrite Hkeys).
  split; [lia|]. right. rewrite Ekey. split_and!; [done..|].
  eexists. split; [rewrite <- H2; apply surjective_pairing|]. lia.
Qed.

Lemma window_refund w s r e n u w' :
  window w s r → in_window e → (w_keychain w).(transaction_key) = k →
  refund_spending_limit a token n e w = (Ok u, w') → window w' s (r + n).
Proof.
  intros Hw He Htk H.
  assert (key_of w' a k = key_of w a k) as Ekey.
  { unfold key_of. by rewrite (keys_refund_spending_limit e _ _ _ _ _ _ H). }
  destruct (key_of w a k).(AuthorizedKey.is_revoked) eqn:Hr.
  { destruct Hw as [H1 _]. split; [lia|]. left. by rewrite Ekey. }
  destruct (window_view w s r e Hw He Hr) as (Hl & Henf & _ & _ & _ & v' & Hv & Hle).
  destruct He as (Hsp & Hkc & _).
  assert (∀ w, row_of e w a k token = row_of e0 w a k token) as E
    by (intros; unfold row_of; by rewrite Hkc).
  apply (refund_spending_limit_row a k) in H; [|by rewrite Hsp|done]. rewrite !E, Hsp in H.
  destruct Hw as [H1 _]. split; [lia|]. right. rewrite Ekey. split_and!; [done..|].
  destruct H as [->| ->]; [exists v'; split; [done|lia]|].
  destruct (row_view_refund (is_t7 (spec e0)) (row_of e0 w a k token) (env_time e0) n) as [H2 H3].
  rewrite Hv in H2, H3. cbn [fst snd] in H2, H3.
  eexists. split; [rewrite <- H3 at 1; apply surjective_pairing|]. lia.
Qed.

(** A step that does not touch the row. *)
Lemma window_frame w s r e account o u w' :
  window w s r → in_window e → exec account o e w = (Ok u, w') →
  limit_untouched e w account o → ¬ (account = a ∧ touches w o k token) → window w' s r.
Proof.
  intros [H1 H2] (Hsp & Hkc & _) H [_ Hcol] Hno. split; [done|].
  destruct H2 as [Hr|(Hl & Henf & v' & Hv & Hle)]; [left; by eapply exec_revocations|].
  destruct (exec_key_kept _ _ _ _ _ _ _ _ H Hl) as [?|(Hr' & Hx' & He')]; [by left|]. right.
  split; [split; [done|]; rewrite Hx'; apply Hl|]. split; [auto|]. exists v'. split; [|done].
  rewrite <- Hv. f_equal. unfold row_of. rewrite <- Hkc. apply (exec_row _ _ _ _ _ _ _ _ H).
  intros k' Hto Heq. destruct (Hcol _ Hto Heq) as [-> ->]. by apply Hno.
Qed.

(** The spending hooks act on the key of the transaction, and only on it. *)
Lemma skip_or_run w e (m : Address → M ()) u w' :
  (transaction_key ← rd keychainC transaction_key;
   tx_origin ← rd keychainC tx_origin;
   if is_zero transaction_key || negb (a =? tx_origin) then mret () else m transaction_key) e w
  = (Ok u, w') →
  (w_keychain w).(transaction_key) = k →
  let acts := ((w_keychain w).(transaction_key) =? k) && ((w_keychain w).(tx_origin) =? a)
              && (a =? a) in
  acts = false ∧ w' = w ∨ acts = true ∧ m k e w = (Ok u, w').
Proof.
  intros H Htk acts. subst acts. rewrite Htk, !N.eqb_refl, andb_true_r. cbn [andb].
  apply bind_Ok in H as (x & w1 & Hx & H). unfold rd in Hx. apply gets_Ok in Hx as [-> ->].
  apply bind_Ok in H as (x & w1 & Hx & H). unfold rd in Hx. apply gets_Ok in Hx as [-> ->].
  revert H. w_simpl. rewrite Htk. unfold is_zero. rewrite (proj2 (N.eqb_neq k 0) Hk). cbn [orb].
  rewrite (N.eqb_sym a). destruct (_ =? a); cbn [negb]; intros H; [by right|left]. by m_inv.
Qed.

Lemma window_step w s r e account o u w' :
  window w s r → in_window e → limit_untouched e w account o → exec account o e w = (Ok u, w') →
  window w' (s + charge a k token w account o) (r + credit a k token w account o).
Proof.
  intros Hw He Hun H. unfold charge, credit, acts_for.
  destruct (decide (account = a ∧ touches w o k token)) as [[-> Hto]|Hno].
  2: { assert (window w' s r) as Hw' by (by eapply window_frame).
       eapply window_mono in Hw'; [|apply N.le_add_r].
       destruct (_ && _) eqn:Hact; [|by rewrite N.add_0_r]. bool_simpl.
       destruct o; try (by rewrite N.add_0_r); (destruct (_ =? token) eqn:Et;
         [bool_simpl; subst; exfalso; apply Hno; split; [done|split; done]|by rewrite N.add_0_r]). }
  destruct o; simpl in Hto, H; try done.
  - subst. unfold authorize_key in H. destruct Hw as [H1 [Hr|(Hl & _)]].
    + apply authorize_key_internal_keys in H as (E & _). unfold key_of in Hr. congruence.
    + by eapply authorize_key_kept in H as [].
  - destruct Hto as [-> ->]. by destruct (proj1 Hun limit).
  - destruct Hto as [Htk ->]. apply (skip_or_run w e) in H as [[Hno ->]|[Hyes H]]; [..|done].
    + rewrite Hno. by rewrite !N.add_0_r.
    + rewrite Hyes, N.eqb_refl, N.add_0_r. by eapply window_spend.
  - destruct Hto as [Htk ->]. apply (skip_or_run w e) in H as [[Hno ->]|[Hyes H]]; [..|done].
    + rewrite Hno. by rewrite !N.add_0_r.
    + rewrite Hyes, N.eqb_refl, N.add_0_r. cbv zeta in H.
      destruct (N.eqb_spec (saturating_sub new old) 0) as [->|_]; [|by eapply window_spend].
      rewrite N.add_0_r. by injection H as _ <-.
  - destruct Hto as [Htk ->]. pose proof H as Hr.
    apply (skip_or_run w e) in H as [[Hno ->]|[Hyes _]]; [..|done].
    + rewrite Hno. by rewrite !N.add_0_r.
    + rewrite Hyes, N.eqb_refl, N.add_0_r. by eapply window_refund.
Qed.

Lemma window_run h w s r :
  window w s r → along (λ e w account o, in_window e ∧ limit_untouched e w account o) h w →
  window (run h w) (s + (totals a k token h w).1) (r + (totals a k token h w).2).
Proof.
  revert w s r. induction h as [|[[e account] o] h IH]; intros w s r Hw Hh; simpl in *.
  { by rewrite !N.add_0_r. }
  destruct Hh as [[He Hun] Hh]. unfold call in *.
  destruct (exec account o e w) as [[u|x] w1] eqn:Hrun; cbn [fst snd] in *.
  - eapply window_step in Hrun; [|done..]. specialize (IH _ _ _ Hrun Hh).
    destruct (totals a k token h w1) as [s1 r1]. cbn [fst snd] in *. by rewrite !N.add_assoc.
  - specialize (IH _ _ _ Hw Hh). by destruct (totals a k token h w).
Qed.

End Window.

(** C21: spending is bounded per window. Let [v] be what the keychain reports for
    a key with enforced limits at some moment and [pend] the end of the period in
    force (0 for a one-off limit). Take any history of keychain calls, spending
    hooks and transaction set-ups, of every account and key, before [pend] (of
    any length for a one-off limit), under the same hardfork (T3 on), in which
    the account does not set a new limit for this key and token and no other
    key's limits hash to the same slot. The amounts the key's transfers and
    approvals were allowed to spend add up to at most [v] plus what was refunded
    to it, and at the end they and what the view still reports do so together. *)
Theorem spending_window_bounded a k token e0 w h v pend e1 v1 pend1 :
  k ≠ 0 → is_t3 (spec e0) = true →
  live (key_of w a k) → (key_of w a k).(AuthorizedKey.enforce_limits) = true →
  env_time e0 < (key_of w a k).(AuthorizedKey.expiry) →
  (effective_limit_state a k token (env_time e0) e0 w).1 = Ok (v, pend) →
  along (λ e w account o, in_window e0 pend e ∧ limit_untouched a k token e w account o) h w →
  in_window e0 pend e1 →
  (effective_limit_state a k token (env_time e1) e1 (run h w)).1 = Ok (v1, pend1) →
  let '(spent, refunded) := totals a k token h w in
  spent ≤ v + refunded ∧ spent + v1 ≤ v + refunded.
Proof.
  intros Hk Ht3 Hl Henf Hexp Hview Hh He1 Hview1.
  rewrite effective_limit_state_run in Hview by (done || (split_and!; [apply Hl..|done])).
  injection Hview as Hview.
  assert (window a k token e0 v pend w 0 0) as Hw.
  { split; [lia|]. right. split_and!; [done..|]. exists v. split; [done|lia]. }
  apply (window_run a k token e0 v pend Hk Ht3 h) in Hw; [|done].
  destruct (totals a k token h w) as [s r]. cbn [fst snd] in Hw. rewrite !N.add_0_l in Hw.
  pose proof Hw as [Hs Hcases]. split; [done|].
  destruct (decide (active (key_of (run h w) a k) (env_time e1))) as [Hact|Hno].
  - rewrite effective_limit_state_run in Hview1 by (done || (by rewrite (proj1 He1))).
    destruct (window_view _ _ _ _ _ _ _ _ _ _ Hw He1 (proj1 Hact))
      as (_ & _ & Erow & _ & Estay & v' & Hv & Hle).
    rewrite (proj1 He1), Erow, Estay, Hv in Hview1. injection Hview1 as <- <-. done.
  - rewrite effective_limit_state_inactive in Hview1 by (done || (by rewrite (proj1 He1))).
    injection Hview1 as <- <-. lia.
Qed.

Lemma spending_window_bounded_witness :
  let e := example_env T7 10 in
  let h := [(example_env T7 20, 1, SetTransactionKey 2);
            (example_env T7 20, 1, AuthorizeTransfer 9 70);
            (example_env T7 30, 1, AuthorizeApprove 9 5 55);
            (example_env T7 30, 1, RefundSpendingLimit 9 25);
            (example_env T7 40, 7, AuthorizeTransfer 9 1000);
            (example_env T7 69, 1, AuthorizeTransfer 9 30)] in
  let '(spent, refunded) := totals 1 2 9 h (example_world e) in
  spent ≤ 100 + refunded ∧ spent + 25 ≤ 100 + refunded.
Proof.
  intros e h. apply (spending_window_bounded 1 2 9 e (example_world e) h 100 70 e 25 70).
  - discriminate.
  - vm_compute. reflexivity.
  - vm_compute. split; [done|discriminate].
  - vm_compute. reflexivity.
  - vm_compute. reflexivity.
  - vm_compute. reflexivity.
  - repeat (split; [split;
      [split_and!; [reflexivity|reflexivity|vm_compute; discriminate|right; reflexivity]
      |split; [intros l [_ Ho]; discriminate Ho|];
       intros k' Hto Heq; cbn [touches] in Hto; first [contradiction Hto|destruct Hto as [<- _]];
       vm_compute in Heq; first [discriminate Heq|split; [reflexivity|vm_compute; reflexivity]]]|]).
    exact I.
  - split_and!; [reflexivity|reflexivity|vm_compute; discriminate|right; reflexivity].
  - vm_compute. reflexivity.
Defined.

End KeychainSpec.
