(* ===== verification/KeychainScopes.v ===== *)
(** * Call scopes of access keys

    The scope tree a key authorization persists, read back by the view and
    consulted for every scoped transaction, is the list of scopes that was
    configured. *)

From stdpp Require Import sorting.
From S2P Require Import Prelude StorageSet Hardfork Address Errors State Monad Tip20Base Keychain.
From S2P Require Import KeychainSpec.

Module KeychainScopes.
Import Keychain KeychainOps KeychainSpec.

(** ** Duplicate detection *)

Lemma insert_sorted_perm x l : insert_sorted x l ≡ₚ x :: l.
Proof.
  induction l as [|y l IH]; simpl; [done|]. destruct (x <=? y); [done|].
  rewrite IH. apply Permutation_swap.
Qed.

Lemma sort_unstable_perm l : sort_unstable l ≡ₚ l.
Proof.
  unfold sort_unstable. induction l as [|x l IH]; simpl; [done|]. by rewrite insert_sorted_perm, IH.
Qed.

Lemma insert_sorted_sorted x l :
  StronglySorted N.le l → StronglySorted N.le (insert_sorted x l).
Proof.
  induction 1 as [|y l Hl IH Hy]; simpl; [by repeat constructor|].
  destruct (N.leb_spec x y) as [Hle|Hgt].
  - constructor; [by constructor|]. constructor; [done|].
    eapply Forall_impl; [exact Hy|]. simpl. lia.
  - constructor; [done|]. rewrite insert_sorted_perm. constructor; [lia|done].
Qed.

Lemma sort_unstable_sorted l : StronglySorted N.le (sort_unstable l).
Proof.
  unfold sort_unstable. induction l as [|x l IH]; simpl; [constructor|].
  by apply insert_sorted_sorted.
Qed.

Lemma adjacent_equal_NoDup l :
  StronglySorted N.le l → adjacent_equal l = false ↔ NoDup l.
Proof.
  intros Hs. induction Hs as [|x l Hl IH Hx]; [split; [constructor|done]|].
  destruct l as [|y l]; [split; [|done]; intros _; apply NoDup_singleton|].
  change (adjacent_equal (x :: y :: l)) with ((x =? y) || adjacent_equal (y :: l)).
  rewrite orb_false_iff, IH, (NoDup_cons x), N.eqb_neq.
  split; intros [Hne Hnd]; (split; [|done]).
  - intros [->|Hin]%elem_of_cons; [done|].
    apply Forall_cons in Hx as [Hxy _]. inversion_clear Hl as [|? ? _ Hy].
    rewrite Forall_forall in Hy. pose proof (Hy x Hin). lia.
  - intros ->. apply Hne. by left.
Qed.

(** Sorting and comparing neighbours finds exactly the lists with duplicates. *)
Lemma has_duplicates_spec l : has_duplicates l = false ↔ NoDup l.
Proof.
  unfold has_duplicates. rewrite (adjacent_equal_NoDup _ (sort_unstable_sorted l)).
  by rewrite sort_unstable_perm.
Qed.

(** ** Validation *)

Lemma validate_rules_Ok m b seen rules e w u w' :
  validate_rules m b seen rules e w = (Ok u, w') →
  b = false → NoDup (map sr_selector rules) ∧ ∀ x, x ∈ seen → x ∉ map sr_selector rules.
Proof.
  intros H ->. revert seen w H. induction rules as [|r rules IH]; intros seen w H; simpl in *.
  { split; [constructor|set_solver]. }
  apply bind_Ok in H as ([] & w1 & H1 & H). apply require_Ok in H1 as [H1 ->].
  apply bind_Ok in H as ([] & w2 & _ & H). apply IH in H as [Hnd Hs].
  bool_simpl. cbn [negb andb] in H1. apply bool_decide_eq_false in H1. split.
  - constructor; [|done]. apply Hs. by left.
  - intros x Hx. rewrite not_elem_of_cons. split; [by intros ->|]. apply Hs. by right.
Qed.

Lemma validate_call_scope_Ok sc e w u w' :
  validate_call_scope sc e w = (Ok u, w') → NoDup (map sr_selector sc.(cs_selectorRules)).
Proof.
  unfold validate_call_scope. intros H. m_inv.
  - bool_simpl. rewrite Heqb. constructor.
  - unfold validate_selector_rules in H. m_inv. bool_simpl.
    destruct (is_t11 (spec e)) eqn:Ht.
    + cbn [andb] in H0. by apply has_duplicates_spec.
    + by apply validate_rules_Ok in H as [? _].
Qed.

Lemma validate_scopes_seen_Ok seen scopes e w u w' :
  validate_scopes_seen seen scopes e w = (Ok u, w') →
  NoDup (map cs_target scopes) ∧ (∀ x, x ∈ seen → x ∉ map cs_target scopes) ∧
  (is_t4 (spec e) = true → ∀ sc, sc ∈ scopes → NoDup (map sr_selector sc.(cs_selectorRules))).
Proof.
  revert seen w. induction scopes as [|sc scopes IH]; intros seen w H; simpl in *.
  { split_and!; [constructor|set_solver|set_solver]. }
  apply bind_Ok in H as ([] & w1 & H1 & H). apply require_Ok in H1 as [H1 ->].
  apply bind_Ok in H as (sp & w2 & H2 & H). apply asks_Ok in H2 as [-> ->].
  apply bind_Ok in H as ([] & w3 & H3 & H). apply IH in H as (Hnd & Hs & Hr).
  bool_simpl. apply bool_decide_eq_false in H1. split_and!.
  - constructor; [|done]. apply Hs. by left.
  - intros x Hx. rewrite not_elem_of_cons. split; [by intros ->|]. apply Hs. by right.
  - intros Ht sc' [->|Hin]%elem_of_cons; [|by apply Hr].
    rewrite Ht in H3. by eapply validate_call_scope_Ok.
Qed.

Lemma mfor_validate_Ok scopes e w u w' :
  mfor scopes validate_call_scope e w = (Ok u, w') →
  ∀ sc, sc ∈ scopes → NoDup (map sr_selector sc.(cs_selectorRules)).
Proof.
  revert w. induction scopes as [|sc scopes IH]; intros w H; simpl in H; [set_solver|].
  apply bind_Ok in H as ([] & w1 & H1 & H). intros sc' [->|Hin]%elem_of_cons.
  - by eapply validate_call_scope_Ok.
  - by eapply IH.
Qed.

Lemma validate_call_scopes_Ok scopes e w u w' :
  validate_call_scopes scopes e w = (Ok u, w') →
  NoDup (map cs_target scopes) ∧
  (is_t4 (spec e) = true → ∀ sc, sc ∈ scopes → NoDup (map sr_selector sc.(cs_selectorRules))).
Proof.
  unfold validate_call_scopes. intros H. m_inv.
  - bool_simpl. split; [by apply has_duplicates_spec|]. intros _. by eapply mfor_validate_Ok.
  - by apply validate_scopes_seen_Ok in H as (? & _ & ?).
Qed.

(** ** The effect of the tree operations *)

Definition scope_at (w : World) (h : B256) : KeyScope.t := (w_keychain w).(key_scopes).[h].

Definition entry (ks : KeyScope.t) (t : Address) : TargetScope.t :=
  ks.(KeyScope.target_scopes).[t].

Definition clean_target (ts : TargetScope.t) : Prop :=
  ∀ sel, sel ∉ ts.(TargetScope.selectors) → ts.(TargetScope.selector_scopes).[sel] = [].

(** Targets are distinct; no selector survives its target and no recipient list
    its selector. *)
Record clean (ks : KeyScope.t) : Prop := {
  clean_nodup : NoDup ks.(KeyScope.targets);
  clean_out : ∀ t, t ∉ ks.(KeyScope.targets) → (entry ks t).(TargetScope.selectors) = [];
  clean_in : ∀ t, clean_target (entry ks t)
}.

Definition others_kept (h : B256) (w w' : World) : Prop :=
  ∀ h', h' ≠ h → scope_at w' h' = scope_at w h'.

(** Only the entry of [t] in the scope of [h] changes. *)
Record entry_becomes (w : World) (h : B256) (t : Address) (ts : TargetScope.t)
    (w' : World) : Prop := {
  eb_targets : (scope_at w' h).(KeyScope.targets) = (scope_at w h).(KeyScope.targets);
  eb_scoped : (scope_at w' h).(KeyScope.is_scoped) = (scope_at w h).(KeyScope.is_scoped);
  eb_entry : entry (scope_at w' h) t = ts;
  eb_entries : ∀ t', t' ≠ t → entry (scope_at w' h) t' = entry (scope_at w h) t';
  eb_others : others_kept h w w'
}.

Lemma entry_becomes_refl w h t : entry_becomes w h t (entry (scope_at w h) t) w.
Proof. by constructor. Qed.
Lemma entry_becomes_trans w h t ts w1 ts' w' :
  entry_becomes w h t ts w1 → entry_becomes w1 h t ts' w' → entry_becomes w h t ts' w'.
Proof.
  intros [A1 A2 A3 A4 A5] [B1 B2 B3 B4 B5]. split; try congruence.
  - intros t' Hne. by rewrite B4, A4.
  - intros h' Hne. by rewrite B5, A5.
Qed.

Lemma upd_scope_Ok h g e w u w' :
  upd_scope h g e w = (Ok u, w') → scope_at w' h = g (scope_at w h) ∧ others_kept h w w'.
Proof.
  unfold upd_scope. intros H. m_inv. unfold others_kept, scope_at. w_simpl.
  split; [apply sread_insert_eq|]. intros h' Hne. by rewrite sread_insert_ne.
Qed.

Lemma upd_entry_Ok h t g e w u w' :
  upd_scope h (upd_target t g) e w = (Ok u, w') →
  entry_becomes w h t (g (entry (scope_at w h) t)) w'.
Proof.
  intros [E Ho]%upd_scope_Ok. split; [by rewrite E..| | |done]; rewrite E; unfold entry, upd_target.
  - apply sread_insert_eq.
  - intros t' Hne. simpl. by apply sread_insert_ne.
Qed.

Lemma clear_selectors_sel ts sel :
  clean_target ts → (clear_selectors ts).(TargetScope.selector_scopes).[sel] = [].
Proof.
  intros Hc. simpl. rewrite (fold_clear (λ x, x)), map_id.
  case_bool_decide; [done|]. by apply Hc.
Qed.
Lemma clear_selectors_clean ts : clean_target ts → clean_target (clear_selectors ts).
Proof. intros Hc sel _. by apply clear_selectors_sel. Qed.

Lemma set_insert_m_Ok max l v e w l' w' :
  set_insert_m max l v e w = (Ok l', w') → l' = list_insert_value l v ∧ w' = w.
Proof. unfold set_insert_m. intros H. by m_inv. Qed.

Lemma list_insert_new (l : list N) v : v ∉ l → list_insert_value l v = l ++ [v].
Proof. intros Hv. unfold list_insert_value, list_contains. by rewrite bool_decide_false. Qed.

(** [ts'] is [ts] with the rules [rules] appended. *)
Record adds_rules (ts : TargetScope.t) (rules : list SelectorRule) (ts' : TargetScope.t)
    : Prop := {
  ar_selectors : ts'.(TargetScope.selectors) = ts.(TargetScope.selectors) ++ map sr_selector rules;
  ar_new : ∀ r, r ∈ rules →
    ts'.(TargetScope.selector_scopes).[r.(sr_selector)] = r.(sr_recipients);
  ar_old : ∀ sel, sel ∉ map sr_selector rules →
    ts'.(TargetScope.selector_scopes).[sel] = ts.(TargetScope.selector_scopes).[sel]
}.

Lemma adds_rules_clean ts rules ts' : clean_target ts → adds_rules ts rules ts' → clean_target ts'.
Proof.
  intros Hc [A1 A2 A3] sel Hsel. rewrite A1, not_elem_of_app in Hsel.
  destruct Hsel. rewrite A3 by done. by apply Hc.
Qed.

Lemma adds_rules_cons ts r ts1 rules ts' :
  adds_rules ts [r] ts1 → adds_rules ts1 rules ts' → r.(sr_selector) ∉ map sr_selector rules →
  adds_rules ts (r :: rules) ts'.
Proof.
  intros [A1 A2 A3] [B1 B2 B3] Hr. split.
  - rewrite B1, A1, <- app_assoc. done.
  - intros r' [->|Hr']%elem_of_cons; [|by apply B2]. rewrite B3 by done. apply A2. by left.
  - intros sel Hsel. apply not_elem_of_cons in Hsel as [Hne Hsel].
    rewrite B3 by done. apply A3. by apply not_elem_of_cons; split; [|apply not_elem_of_nil].
Qed.

(** Adding a rule for a new selector. *)
Lemma upsert_rule_Ok h t r e w u w' :
  upsert_rule h t r e w = (Ok u, w') →
  clean_target (entry (scope_at w h) t) →
  r.(sr_selector) ∉ (entry (scope_at w h) t).(TargetScope.selectors) →
  ∃ ts', entry_becomes w h t ts' w' ∧ adds_rules (entry (scope_at w h) t) [r] ts'.
Proof.
  intros H Hc Hnew. unfold upsert_rule in H. m_inv.
  all: apply set_insert_m_Ok in Hrun0 as [-> ->]; apply upd_entry_Ok in Hrun1.
  all: rewrite list_insert_new in Hrun1 by done.
  - apply andb_true_iff in Heqb as [Hr _]. apply bool_decide_eq_true in Hr.
    eexists. split; [exact Hrun1|]. split; [done| |done]. simpl.
    intros r' ->%list_elem_of_singleton. rewrite Hr. by apply Hc.
  - apply upd_entry_Ok in H. eexists. split; [eapply entry_becomes_trans; eassumption|].
    rewrite (eb_entry _ _ _ _ _ Hrun1). split; [done| |]; simpl.
    + intros r' ->%list_elem_of_singleton. apply sread_insert_eq.
    + intros sel Hsel. apply sread_insert_ne. set_solver.
Qed.

(** Adding the rules of a scope, one after the other. *)
Lemma upsert_rules_Ok h t rules e w u w' :
  mfor rules (upsert_rule h t) e w = (Ok u, w') →
  clean_target (entry (scope_at w h) t) →
  NoDup ((entry (scope_at w h) t).(TargetScope.selectors) ++ map sr_selector rules) →
  ∃ ts', entry_becomes w h t ts' w' ∧ adds_rules (entry (scope_at w h) t) rules ts'.
Proof.
  revert w. induction rules as [|r rules IH]; intros w H Hc Hnd; simpl in H.
  { m_inv. eexists. split; [apply entry_becomes_refl|]. split; [by rewrite app_nil_r|set_solver|done]. }
  apply bind_Ok in H as ([] & w1 & H1 & H).
  assert (Hnd' := Hnd). apply NoDup_app in Hnd' as (_ & Hx & Hr). simpl in Hr.
  apply NoDup_cons in Hr as [Hr _].
  apply upsert_rule_Ok in H1 as (ts1 & Hb1 & Ha1); [|done|].
  2: { intros Hin. apply (Hx _ Hin). simpl. by left. }
  assert (E1 := eb_entry _ _ _ _ _ Hb1). apply IH in H as (ts' & Hb & Ha).
  - exists ts'. split; [by eapply entry_becomes_trans|]. rewrite E1 in Ha. by eapply adds_rules_cons.
  - rewrite E1. by eapply adds_rules_clean.
  - rewrite E1, (ar_selectors _ _ _ Ha1), <- app_assoc. done.
Qed.

(** ** The tree as a list of scopes *)

(** Configure a scope: in place when its target is listed, at the end otherwise. *)
Definition tree_upsert (l : list CallScope) (sc : CallScope) : list CallScope :=
  if list_contains (map cs_target l) sc.(cs_target)
  then map (λ s, if s.(cs_target) =? sc.(cs_target) then sc else s) l
  else l ++ [sc].

Definition rules_of (ts : TargetScope.t) : list SelectorRule :=
  map (λ sel, mkSelectorRule sel ts.(TargetScope.selector_scopes).[sel])
    ts.(TargetScope.selectors).
Definition scope_of (ks : KeyScope.t) (t : Address) : CallScope :=
  mkCallScope t (rules_of (entry ks t)).

Lemma scope_tree_scope_of ks : scope_tree ks = map (scope_of ks) ks.(KeyScope.targets).
Proof. done. Qed.

Lemma scope_tree_targets ks : map cs_target (scope_tree ks) = ks.(KeyScope.targets).
Proof. rewrite scope_tree_scope_of, map_map. apply map_id. Qed.

Lemma rules_of_added ts rules ts' :
  adds_rules ts rules ts' → ts.(TargetScope.selectors) = [] → rules_of ts' = rules.
Proof.
  intros [A1 A2 _] E. unfold rules_of. rewrite A1, E. simpl. clear A1.
  induction rules as [|[sel rec] rules IH]; simpl; [done|]. f_equal.
  - f_equal. apply (A2 (mkSelectorRule sel rec)). by left.
  - apply IH. intros r Hr. apply A2. by right.
Qed.

(** One target of the tree is set to the scope [sc]. *)
Lemma scope_tree_upsert ks ks' sc :
  ks'.(KeyScope.targets) = list_insert_value ks.(KeyScope.targets) sc.(cs_target) →
  scope_of ks' sc.(cs_target) = sc →
  (∀ t, t ≠ sc.(cs_target) → entry ks' t = entry ks t) →
  scope_tree ks' = tree_upsert (scope_tree ks) sc.
Proof.
  intros Ht Hsc Hne. unfold tree_upsert. rewrite scope_tree_targets, !scope_tree_scope_of, Ht.
  unfold list_insert_value. destruct (list_contains _ _) eqn:Hc.
  - rewrite map_map. apply map_ext. intros t. simpl.
    destruct (N.eqb_spec t sc.(cs_target)) as [->|E]; [done|]. unfold scope_of. by rewrite Hne.
  - rewrite map_app. simpl. rewrite Hsc. f_equal. apply map_ext_in. intros t Hin.
    unfold scope_of. rewrite Hne; [done|]. intros ->.
    apply bool_decide_eq_false in Hc. apply Hc. by apply list_elem_of_In.
Qed.

Lemma list_insert_nodup (l : list N) v : NoDup l → NoDup (list_insert_value l v).
Proof.
  intros Hl. unfold list_insert_value, list_contains. case_bool_decide; [done|].
  apply NoDup_app. split_and!; [done|set_solver|apply NoDup_singleton].
Qed.
Lemma list_insert_elem (l : list N) v x : x ∈ list_insert_value l v ↔ x ∈ l ∨ x = v.
Proof. unfold list_insert_value, list_contains. case_bool_decide; set_solver. Qed.

(** What a tree operation does to the scope of [h], as a relation on the
    configured scopes. *)
Record tree_step (h : B256) (f : list CallScope → list CallScope) (w w' : World) : Prop := {
  ts_tree : scope_tree (scope_at w' h) = f (scope_tree (scope_at w h));
  ts_clean : clean (scope_at w' h);
  ts_scoped : (scope_at w' h).(KeyScope.is_scoped) = (scope_at w h).(KeyScope.is_scoped);
  ts_others : others_kept h w w'
}.

Lemma validate_world {A} (m : M A) e w r w' : Stable e eq m → m e w = (r, w') → w' = w.
Proof. intros Hm H. symmetry. by eapply Hm. Qed.

Lemma upsert_target_scope_Ok h sc e w u w' :
  upsert_target_scope h sc e w = (Ok u, w') →
  clean (scope_at w h) →
  (is_t4 (spec e) = true → NoDup (map sr_selector sc.(cs_selectorRules))) →
  tree_step h (λ l, tree_upsert l sc) w w'.
Proof.
  intros H [Cn Co Ci] Hnd. unfold upsert_target_scope in H.
  apply bind_Ok in H as (sp & wa & Ha & H). apply asks_Ok in Ha as [-> ->].
  apply bind_Ok in H as ([] & wb & Hb & H).
  assert (wb = w ∧ NoDup (map sr_selector sc.(cs_selectorRules))) as [-> Hnd'].
  { destruct (is_t4 (spec e)); cbn [negb] in Hb; [by m_inv; auto|].
    split; [|eapply validate_call_scope_Ok; exact Hb]. eapply (validate_world _ e); [|exact Hb].
    apply stable_validate_call_scope. apply _. }
  clear Hb Hnd. m_inv. apply set_insert_m_Ok in Hrun0 as [-> ->].
  apply upd_scope_Ok in Hrun1 as [E1 O1]. unfold clear_target_selectors in Hrun2.
  apply upd_entry_Ok in Hrun2.
  assert (clean_target (entry (scope_at w h) (cs_target sc))) as Hc by done.
  assert (∀ t, entry (scope_at w2 h) t = entry (scope_at w h) t) as En by (intros; by rewrite E1).
  rewrite En in Hrun2. destruct Hrun2 as [T2 S2 Ee2 En2 O2].
  apply upsert_rules_Ok in H as (ts' & [T3 S3 Ee3 En3 O3] & Har); rewrite ?Ee2 in *;
    [|by apply clear_selectors_clean|done].
  assert (∀ t, t ≠ cs_target sc → entry (scope_at w' h) t = entry (scope_at w h) t) as Hne.
  { intros t Ht. by rewrite En3, En2, En. }
  rewrite T2, E1 in T3. split.
  - apply scope_tree_upsert; [done| |done]. unfold scope_of. rewrite Ee3.
    rewrite (rules_of_added _ _ _ Har) by done. by destruct sc.
  - split; rewrite ?T3; simpl; [by apply list_insert_nodup| |].
    + intros t Ht. rewrite list_insert_elem in Ht. rewrite Hne by tauto. apply Co. tauto.
    + intros t. destruct (decide (t = cs_target sc)) as [->|Ht]; [|by rewrite Hne].
      rewrite Ee3. eapply adds_rules_clean; [|done]. by apply clear_selectors_clean.
  - by rewrite S3, S2, E1.
  - intros h' Hh. by rewrite O3, O2, O1.
Qed.

Lemma upsert_scopes_Ok h scopes e w u w' :
  mfor scopes (upsert_target_scope h) e w = (Ok u, w') →
  clean (scope_at w h) →
  (is_t4 (spec e) = true → ∀ sc, sc ∈ scopes → NoDup (map sr_selector sc.(cs_selectorRules))) →
  tree_step h (λ l, fold_left tree_upsert scopes l) w w'.
Proof.
  revert w. induction scopes as [|sc scopes IH]; intros w H Hc Hnd; simpl in H; [by m_inv|].
  apply bind_Ok in H as ([] & w1 & H1 & H).
  apply upsert_target_scope_Ok in H1 as [A1 A2 A3 A4]; [|done|by intros ? ; apply Hnd; [|left]].
  apply IH in H as [B1 B2 B3 B4]; [|done|by intros; apply Hnd; [|right]].
  split; [by rewrite B1, A1|done|congruence|]. intros h' Hh. by rewrite B4, A4.
Qed.

Lemma fold_tree_upsert scopes l :
  NoDup (map cs_target l ++ map cs_target scopes) →
  fold_left tree_upsert scopes l = l ++ scopes.
Proof.
  revert l. induction scopes as [|sc scopes IH]; intros l Hnd; simpl; [by rewrite app_nil_r|].
  assert (tree_upsert l sc = l ++ [sc]) as ->.
  { unfold tree_upsert, list_contains. rewrite bool_decide_false; [done|].
    apply NoDup_app in Hnd as (_ & Hx & _). intros Hin. apply (Hx _ Hin). by left. }
  rewrite IH; [by rewrite <- app_assoc|]. rewrite map_app, <- app_assoc. done.
Qed.

(** Clearing every target. *)
Lemma clear_targets_Ok h l e w u w' :
  mfor l (clear_target_selectors h) e w = (Ok u, w') →
  (∀ t, clean_target (entry (scope_at w h) t)) →
  (scope_at w' h).(KeyScope.targets) = (scope_at w h).(KeyScope.targets) ∧
  (∀ t, clean_target (entry (scope_at w' h) t)) ∧
  (∀ t, t ∈ l ∨ (entry (scope_at w h) t).(TargetScope.selectors) = [] →
     (entry (scope_at w' h) t).(TargetScope.selectors) = []) ∧
  (scope_at w' h).(KeyScope.is_scoped) = (scope_at w h).(KeyScope.is_scoped) ∧
  others_kept h w w'.
Proof.
  unfold clear_target_selectors.
  revert w. induction l as [|t l IH]; intros w H Hc; simpl in H.
  { m_inv. split_and!; [done|done| |done|done]. intros t [Ht|?]; [by apply elem_of_nil in Ht|done]. }
  apply bind_Ok in H as ([] & w1 & [A1 A2 A3 A4 A5]%upd_entry_Ok & H).
  apply IH in H as (B1 & B2 & B3 & B4 & B5).
  2: { intros t'. destruct (decide (t' = t)) as [->|]; [|by rewrite A4].
       rewrite A3. by apply clear_selectors_clean. }
  split_and!; [congruence|done| |congruence|intros h' Hh; by rewrite B5, A5].
  intros t' Ht'. apply B3. destruct (decide (t' = t)) as [->|Hne]; [right; by rewrite A3|].
  rewrite A4 by done. rewrite elem_of_cons in Ht'. tauto.
Qed.

Lemma clear_all_Ok h e w u w' :
  clear_all_target_scopes h e w = (Ok u, w') → clean (scope_at w h) →
  tree_step h (λ _, []) w w'.
Proof.
  unfold clear_all_target_scopes. intros H [Cn Co Ci]. m_inv.
  apply clear_targets_Ok in Hrun0 as (A1 & A2 & A3 & A4 & A5); [|done].
  apply upd_scope_Ok in H as [E O]. split.
  - by rewrite E.
  - rewrite E. split; [constructor| |done]. intros t _. apply A3.
    destruct (decide (t ∈ (scope_at w h).(KeyScope.targets))); [by left|right; by apply Co].
  - by rewrite E.
  - intros h' Hh. by rewrite O, A5.
Qed.

Lemma set_is_scoped_Ok h b e w u w' :
  upd_scope h (set_is_scoped b) e w = (Ok u, w') →
  clean (scope_at w h) →
  scope_tree (scope_at w' h) = scope_tree (scope_at w h) ∧ clean (scope_at w' h) ∧
  (scope_at w' h).(KeyScope.is_scoped) = b ∧ others_kept h w w'.
Proof. intros [E O]%upd_scope_Ok [Cn Co Ci]. rewrite E. split_and!; [done|by constructor|done|done]. Qed.

(** Replacing the scopes of a key leaves exactly the configured list. *)
Lemma replace_allowed_calls_Ok h allowed e w u w' :
  replace_allowed_calls h allowed e w = (Ok u, w') → clean (scope_at w h) →
  scope_tree (scope_at w' h) = default [] allowed ∧ clean (scope_at w' h) ∧
  (scope_at w' h).(KeyScope.is_scoped) = bool_decide (is_Some allowed) ∧ others_kept h w w'.
Proof.
  unfold replace_allowed_calls. intros H Hc.
  apply bind_Ok in H as ([] & w1 & [A1 A2 A3 A4]%clear_all_Ok & H); [|done].
  destruct allowed as [scopes|]; cbn [default].
  2: { apply set_is_scoped_Ok in H as (B1 & B2 & B3 & B4); [|done].
       split_and!; [congruence|done|done|]. intros h' Hh. by rewrite B4, A4. }
  apply bind_Ok in H as ([] & w2 & (B1 & B2 & B3 & B4)%set_is_scoped_Ok & H); [|done].
  case_bool_decide as Hs.
  { m_inv. split_and!; [by rewrite B1, A1|done|done|]. intros h' Hh. by rewrite B4, A4. }
  apply bind_Ok in H as ([] & w3 & Hv & H).
  assert (w3 = w2) as -> by (eapply (validate_world _ e); [eauto with stable|exact Hv]).
  apply validate_call_scopes_Ok in Hv as [Hnd Hr].
  apply upsert_scopes_Ok in H as [C1 C2 C3 C4]; [|done|done].
  split_and!; [|done|by rewrite C3, B3|intros h' Hh; by rewrite C4, B4, A4].
  rewrite C1, B1, A1, fold_tree_upsert; [done|done].
Qed.

(** ** Hygiene *)

Definition all_clean (w : World) : Prop := ∀ h, clean (scope_at w h).

Lemma all_clean_others h w w' :
  others_kept h w w' → clean (scope_at w' h) → all_clean w → all_clean w'.
Proof. intros Ho Hc Hw h'. destruct (decide (h' = h)) as [->|Hne]; [done|]. by rewrite Ho. Qed.

Abbreviation hygiene := (maintains all_clean).

Lemma hygiene_replace e h allowed : StableOk e hygiene (replace_allowed_calls h allowed).
Proof.
  intros w u w' H Hw. apply replace_allowed_calls_Ok in H as (_ & Hc & _ & Ho); [|done].
  by eapply all_clean_others.
Qed.
Lemma hygiene_remove_target e h t : StableOk e hygiene (remove_target_scope h t).
Proof.
  intros w u w' H Hw. unfold remove_target_scope, clear_target_selectors in H. m_inv; [|done].
  bool_simpl. apply upd_scope_Ok in Hrun0 as [E O]. apply upd_entry_Ok in H as [A1 A2 A3 A4 A5].
  destruct (Hw h) as [Cn Co Ci]. fold (scope_at w h) in Heqb.
  apply bool_decide_eq_true in Heqb. pose proof (list_remove_perm _ _ Heqb) as Hp.
  rewrite E in *. cbn [KeyScope.targets set_targets] in A1.
  apply (all_clean_others h w); [|split|done].
  - intros h' Hh. by rewrite A5, O.
  - rewrite A1. rewrite <- Hp in Cn. by apply NoDup_cons in Cn as [_ ?].
  - intros t' Ht'. destruct (decide (t' = t)) as [->|Hne]; [by rewrite A3|].
    rewrite A4 by done. apply Co. rewrite <- Hp, not_elem_of_cons. rewrite A1 in Ht'. by split.
  - intros t'. destruct (decide (t' = t)) as [->|Hne]; [|rewrite A4 by done; by apply Ci].
    rewrite A3. by apply clear_selectors_clean, Ci.
Qed.
Lemma hygiene_set_allowed_calls e a k scopes : StableOk e hygiene (set_allowed_calls a k scopes).
Proof.
  intros w u w' H Hw. unfold set_allowed_calls in H. m_inv. same_world.
  apply validate_call_scopes_Ok in Hrun7 as [_ Hr].
  apply upsert_scopes_Ok in Hrun8 as [_ Hc _ Ho]; [|done|done].
  apply set_is_scoped_Ok in H as (_ & Hc' & _ & Ho'); [|done].
  eapply all_clean_others; [|exact Hc'|exact Hw]. intros h' Hh. by rewrite Ho', Ho.
Qed.

Lemma keeps_scopes_hygiene {A} e (m : M A) :
  Stable e (keeps (λ w, (w_keychain w).(key_scopes))) m → StableOk e hygiene m.
Proof.
  intros Hm w r w' H Hw h. pose proof (Hm w _ w' H) as E. unfold keeps in E.
  unfold scope_at. rewrite E. apply Hw.
Qed.
#[export] Hint Resolve hygiene_replace hygiene_remove_target hygiene_set_allowed_calls : stable.

Abbreviation keeps_scopes := (keeps (λ w, (w_keychain w).(key_scopes))).
Lemma scopes_set_limit e k t l : Stable e keeps_scopes (set_limit k t l).
Proof. unfold set_limit. stable_auto. Qed.
Lemma scopes_set_limit_remaining e k t l : Stable e keeps_scopes (set_limit_remaining k t l).
Proof. unfold set_limit_remaining. stable_auto. Qed.
Lemma scopes_write_key e a k key : Stable e keeps_scopes (write_key a k key).
Proof. unfold write_key. stable_auto. Qed.
Lemma scopes_emitkc e ev : Stable e keeps_scopes (emitkc ev).
Proof. unfold emitkc. stable_auto. Qed.
#[export] Hint Resolve scopes_set_limit scopes_set_limit_remaining scopes_write_key scopes_emitkc
  : stable.
Lemma scopes_apply_limit e k now l : Stable e keeps_scopes (apply_limit k now l).
Proof. unfold apply_limit. stable_auto. Qed.
Lemma scopes_verify_and_update_spending e a k t n :
  Stable e keeps_scopes (verify_and_update_spending a k t n).
Proof. unfold verify_and_update_spending. stable_auto. Qed.
#[export] Hint Resolve scopes_apply_limit scopes_verify_and_update_spending : stable.

Lemma hygiene_write_key e a k key : StableOk e hygiene (write_key a k key).
Proof. apply keeps_scopes_hygiene. stable_auto. Qed.
Lemma hygiene_emitkc e ev : StableOk e hygiene (emitkc ev).
Proof. apply keeps_scopes_hygiene. stable_auto. Qed.
Lemma hygiene_apply_limit e k now l : StableOk e hygiene (apply_limit k now l).
Proof. apply keeps_scopes_hygiene. stable_auto. Qed.
#[export] Hint Resolve hygiene_write_key hygiene_emitkc hygiene_apply_limit : stable.

Lemma hygiene_authorize_key_internal e a k t c wit adm :
  StableOk e hygiene (authorize_key_internal a k t c wit adm).
Proof. unfold authorize_key_internal, apply_key_authorization_restrictions. stable_ok_auto. Qed.
#[export] Hint Resolve hygiene_authorize_key_internal : stable.

Lemma exec_hygiene e a o : StableOk e hygiene (exec a o).
Proof.
  destruct o; simpl.
  - unfold authorize_key. stable_ok_auto.
  - unfold authorize_admin_key. stable_ok_auto.
  - apply keeps_scopes_hygiene.
    unfold burn_key_authorization_witness, burn_key_authorization_witness_value. stable_auto.
  - apply keeps_scopes_hygiene. unfold revoke_key. stable_auto.
  - apply keeps_scopes_hygiene. unfold update_spending_limit. stable_auto.
  - stable_ok_auto.
  - unfold remove_allowed_calls. stable_ok_auto.
  - apply keeps_scopes_hygiene. unfold authorize_transfer. stable_auto.
  - apply keeps_scopes_hygiene. unfold authorize_approve. stable_auto.
  - apply keeps_scopes_hygiene. unfold refund_spending_limit. stable_auto.
  - apply keeps_scopes_hygiene. unfold set_transaction_key. stable_auto.
  - apply keeps_scopes_hygiene. unfold set_tx_origin. stable_auto.
Qed.

Lemma run_hygiene h w : all_clean w → all_clean (run h w).
Proof.
  revert w. induction h as [|[[e a] o] h IH]; intros w Hw; simpl; [done|].
  apply IH. call_cases Hr; [done|]. by eapply exec_hygiene.
Qed.

Lemma empty_clean w : (w_keychain w).(key_scopes) = ∅ → all_clean w.
Proof. intros E h. unfold scope_at. rewrite E, sread_empty. split; [constructor|done|done]. Qed.

(** ** Enforcement *)

(** Does a list of configured scopes allow calling [target] with [input]? *)
Definition rule_allows (input : list N) (r : SelectorRule) : bool :=
  (r.(sr_selector) =? fold_left (λ acc b, acc * 256 + b) (take 4 input) 0) &&
  (bool_decide (r.(sr_recipients) = [])
   || (36 <=? length input)%nat &&
      match word_recipient input with
      | Some recipient => list_contains r.(sr_recipients) recipient
      | None => false
      end).
Definition scope_allows (target : Address) (input : list N) (sc : CallScope) : bool :=
  (sc.(cs_target) =? target) &&
  (bool_decide (sc.(cs_selectorRules) = [])
   || (4 <=? length input)%nat && existsb (rule_allows input) sc.(cs_selectorRules)).

(** Searching a mapped list by key. *)
Lemma existsb_key {A} (key : A → N) (f : N → A) (P : A → bool) l n :
  (∀ x, key (f x) = x) →
  existsb (λ a, (key a =? n) && P a) (map f l) = list_contains l n && P (f n).
Proof.
  intros Hk. unfold list_contains. induction l as [|x l IH]; simpl; [done|].
  rewrite IH, Hk. destruct (N.eqb_spec x n) as [->|Hne]; simpl.
  - rewrite (bool_decide_true (n ∈ n :: l)) by left. by destruct (P (f n)), (bool_decide (n ∈ l)).
  - f_equal. apply bool_decide_ext. rewrite elem_of_cons. naive_solver.
Qed.

(** The stored tree allows what its list of scopes allows. *)
Lemma tree_allows ks target input :
  existsb (scope_allows target input) (scope_tree ks) =
  list_contains ks.(KeyScope.targets) target &&
  (bool_decide ((entry ks target).(TargetScope.selectors) = [])
   || (4 <=? length input)%nat &&
      let sel := fold_left (λ acc b, acc * 256 + b) (take 4 input) 0 in
      let recipients := (entry ks target).(TargetScope.selector_scopes).[sel] in
      list_contains (entry ks target).(TargetScope.selectors) sel &&
      (bool_decide (recipients = [])
       || (36 <=? length input)%nat &&
          match word_recipient input with
          | Some recipient => list_contains recipients recipient
          | None => false
          end)).
Proof.
  rewrite scope_tree_scope_of. unfold scope_allows.
  rewrite (existsb_key cs_target (scope_of ks) (λ sc,
    bool_decide (sc.(cs_selectorRules) = [])
    || (4 <=? length input)%nat && existsb (rule_allows input) sc.(cs_selectorRules))) by done.
  f_equal. cbn [cs_selectorRules scope_of]. unfold rules_of, rule_allows. cbv zeta. f_equal.
  - by destruct (TargetScope.selectors _).
  - f_equal. rewrite (existsb_key sr_selector) with
      (P := λ r, bool_decide (r.(sr_recipients) = [])
        || (36 <=? length input)%nat &&
           match word_recipient input with
           | Some recipient => list_contains r.(sr_recipients) recipient
           | None => false
           end); done.
Qed.

(** The check of a scoped transaction, as a function of the stored tree. *)
Lemma validate_transaction_run a k to input e w :
  is_t3 (spec e) = true → k ≠ 0 →
  let ks := scope_at w (spending_limit_key_of (keccak256 e) a k) in
  validate_call_scope_for_transaction a k to input e w =
    (match to with
     | Create => Err (AccountKeychain AccountKeychainError.CallNotAllowed)
     | Call target =>
         if negb ks.(KeyScope.is_scoped) || existsb (scope_allows target input) (scope_tree ks)
         then Ok () else Err (AccountKeychain AccountKeychainError.CallNotAllowed)
     end, w).
Proof.
  intros Ht Hk ks. unfold validate_call_scope_for_transaction.
  unfold mbind, M_bind at 1, asks. rewrite Ht. unfold is_zero.
  rewrite (proj2 (N.eqb_neq k 0)) by done. cbn [orb negb]. destruct to as [target|]; [|done].
  unfold spending_limit_key, rd, asks, gets, M_bind, require. cbn [cget keychainC].
  fold (scope_at w (spending_limit_key_of (keccak256 e) a k)). fold ks.
  destruct ks.(KeyScope.is_scoped); [cbn [negb orb]|done].
  rewrite tree_allows. fold (entry ks target).
  destruct (list_contains _ target); [cbn [andb]|done].
  case_bool_decide; [done|]. cbn [orb]. unfold ok_or, mret, M_ret, throw. cbv zeta.
  rewrite !Nat.ltb_antisym, !negb_involutive.
  destruct (4 <=? length input)%nat; [cbn [andb]|done].
  destruct (list_contains (TargetScope.selectors _) _); [cbn [andb]|done].
  case_bool_decide; [done|]. cbn [orb]. destruct (36 <=? length input)%nat; [cbn [andb]|done].
  destruct (word_recipient input) as [r|]; [|done]. by destruct (list_contains _ r).
Qed.

Lemma check_restrictions_Ok c e w o w' :
  check_restrictions c e w = (Ok o, w') → is_t3 (spec e) = true →
  o = if c.(kr_allowAnyCalls) then None else Some c.(kr_allowedCalls).
Proof. unfold check_restrictions. intros H Ht. m_inv; congruence. Qed.

Lemma keeps_scopes_clean w w' h :
  (w_keychain w').(key_scopes) = (w_keychain w).(key_scopes) → all_clean w →
  clean (scope_at w' h).
Proof. intros E Hw. unfold scope_at. rewrite E. apply Hw. Qed.

(** What a successful authorization leaves in the key's scope. *)
Lemma authorize_key_scopes a k t c wit e w u w' :
  authorize_key a k t c wit e w = (Ok u, w') → is_t3 (spec e) = true → all_clean w →
  let ks := scope_at w' (spending_limit_key_of (keccak256 e) a k) in
  k ≠ 0 ∧ ks.(KeyScope.is_scoped) = negb c.(kr_allowAnyCalls) ∧
  scope_tree ks = if c.(kr_allowAnyCalls) then [] else c.(kr_allowedCalls).
Proof.
  intros H Ht Hw ks. unfold authorize_key, authorize_key_internal in H.
  unfold apply_key_authorization_restrictions, spending_limit_key in H. m_inv.
  all: try discriminate.
  all: try match goal with X : negb (is_t3 _) = true |- _ => rewrite Ht in X; discriminate X end.
  all: match goal with Hc : check_restrictions _ _ _ = _ |- _ =>
         pose proof (check_restrictions_Ok _ _ _ _ _ Hc Ht) as -> end.
  all: match goal with Hr : replace_allowed_calls _ _ _ _ = _ |- _ =>
         apply replace_allowed_calls_Ok in Hr as (A1 & _ & A3 & _) end.
  all: stable_facts (keeps (λ w, (w_keychain w).(key_scopes))); bool_simpl.
  all: subst ks; try (apply (keeps_scopes_clean w); [congruence|done]).
  all: unfold scope_at in *; chain_rewrite; rewrite A1, A3.
  all: split; [by apply N.eqb_neq|]; by destruct (kr_allowAnyCalls c).
Qed.

(** A successful authorization leaves a live key with the configured expiry. *)
Lemma authorize_key_live a k t c wit e w u w' :
  authorize_key a k t c wit e w = (Ok u, w') → is_t3 (spec e) = true →
  live (key_of w' a k) ∧ (key_of w' a k).(AuthorizedKey.expiry) = c.(kr_expiry).
Proof.
  intros H Ht. unfold authorize_key in H.
  assert (c.(kr_expiry) ≠ 0) as Hx.
  { unfold authorize_key_internal in H.
    assert (is_t0 (spec e) = true) as H0
      by (revert Ht; by destruct (spec e)).
    m_inv.
    all: match goal with X : negb (is_t0 _ && _) = true |- _ =>
           rewrite H0 in X; cbn [andb] in X; apply negb_true_iff, N.leb_gt in X; lia end. }
  apply authorize_key_internal_keys in H as (_ & _ & key & (Hr & He) & Hkeys).
  unfold key_of, live. by rewrite Hkeys, sread_insert_eq, Hr, He.
Qed.

(** ** Scopes along a history *)

(** The key whose scopes a step may write. *)
Definition rescopes (o : op) : option Address :=
  match o with
  | AuthorizeKey k _ _ _ | SetAllowedCalls k _ | RemoveAllowedCalls k _ => Some k
  | _ => None
  end.

Abbreviation keeps_scope x := (keeps (λ w, scope_at w x)).

Lemma scope_upd_scope e x h g : h ≠ x → Stable e (keeps_scope x) (upd_scope h g).
Proof.
  intros Hne w r w' [= _ <-]. unfold keeps, scope_at. w_simpl. by rewrite sread_insert_ne.
Qed.
#[export] Hint Resolve scope_upd_scope : stable.
Lemma scope_upsert_target_scope e x h s : h ≠ x → Stable e (keeps_scope x) (upsert_target_scope h s).
Proof. intros. unfold upsert_target_scope, clear_target_selectors, upsert_rule. stable_auto. Qed.
#[export] Hint Resolve scope_upsert_target_scope : stable.
Lemma scope_replace_allowed_calls e x h s :
  h ≠ x → Stable e (keeps_scope x) (replace_allowed_calls h s).
Proof.
  intros. unfold replace_allowed_calls, clear_all_target_scopes, clear_target_selectors. stable_auto.
Qed.
Lemma scope_remove_target_scope e x h t : h ≠ x → Stable e (keeps_scope x) (remove_target_scope h t).
Proof. intros. unfold remove_target_scope, clear_target_selectors. stable_auto. Qed.
#[export] Hint Resolve scope_replace_allowed_calls scope_remove_target_scope : stable.

Lemma keeps_scopes_at {A} e x (m : M A) : Stable e keeps_scopes m → Stable e (keeps_scope x) m.
Proof. intros Hm w r w' H. pose proof (Hm _ _ _ H) as E. unfold keeps, scope_at in *. by rewrite E. Qed.

Lemma scope_authorize_key e x a k t c wit adm w u w' :
  (adm = false → spending_limit_key_of (keccak256 e) a k ≠ x) →
  authorize_key_internal a k t c wit adm e w = (Ok u, w') → scope_at w' x = scope_at w x.
Proof.
  intros Hx H. unfold authorize_key_internal, apply_key_authorization_restrictions,
    spending_limit_key in H.
  assert (∀ a k key, Stable e (keeps_scope x) (write_key a k key)) by (intros; apply keeps_scopes_at; stable_auto).
  assert (∀ ev, Stable e (keeps_scope x) (emitkc ev)) by (intros; apply keeps_scopes_at; stable_auto).
  assert (∀ lk now l, Stable e (keeps_scope x) (apply_limit lk now l)) by (intros; apply keeps_scopes_at; stable_auto).
  destruct adm; cbn [negb] in H; [clear Hx|specialize (Hx eq_refl)]; m_inv; same_world.
  all: stable_facts (keeps_scope x); congruence.
Qed.

Lemma exec_scope account o x e w u w' :
  exec account o e w = (Ok u, w') →
  (∀ k, rescopes o = Some k → spending_limit_key_of (keccak256 e) account k ≠ x) →
  scope_at w' x = scope_at w x.
Proof.
  intros H Hx. destruct o; simpl in H, Hx.
  - unfold authorize_key in H. apply (scope_authorize_key e x) in H; [done|]. intros _. by apply Hx.
  - unfold authorize_admin_key in H. m_inv.
    apply (scope_authorize_key e x) in Hrun; [|done]. rewrite <- Hrun.
    by apply (keeps_scopes_at e x) in H; [|stable_auto].
  - eapply (keeps_scopes_at e x); [|exact H].
    unfold burn_key_authorization_witness, burn_key_authorization_witness_value. stable_auto.
  - eapply (keeps_scopes_at e x); [|exact H]. unfold revoke_key. stable_auto.
  - eapply (keeps_scopes_at e x); [|exact H]. unfold update_spending_limit. stable_auto.
  - specialize (Hx _ eq_refl). unfold set_allowed_calls, spending_limit_key in H. m_inv. same_world.
    stable_facts (keeps_scope x). congruence.
  - specialize (Hx _ eq_refl). unfold remove_allowed_calls, spending_limit_key in H.
    m_inv; same_world; [done|]. stable_facts (keeps_scope x). congruence.
  - eapply (keeps_scopes_at e x); [|exact H]. unfold authorize_transfer. stable_auto.
  - eapply (keeps_scopes_at e x); [|exact H]. unfold authorize_approve. stable_auto.
  - eapply (keeps_scopes_at e x); [|exact H]. unfold refund_spending_limit. stable_auto.
  - eapply (keeps_scopes_at e x); [|exact H]. unfold set_transaction_key. stable_auto.
  - eapply (keeps_scopes_at e x); [|exact H]. unfold set_tx_origin. stable_auto.
Qed.

(** A step that leaves the scopes of [(a, k)] alone: the account does not set or
    remove allowed calls of the key, and no other key's scopes share its slot. An
    attempt to authorize the key again is allowed: it fails. *)
Definition scopes_untouched (keccak : list N → B256) (a k : Address) (s : Env * Address * op) : Prop :=
  let '(e, account, o) := s in
  keccak256 e = keccak ∧
  ∀ k', rescopes o = Some k' →
    spending_limit_key_of keccak account k' = spending_limit_key_of keccak a k →
    account = a ∧ ∃ t c wit, o = AuthorizeKey k t c wit.

Lemma exec_scope_kept keccak account o a k e w u w' :
  exec account o e w = (Ok u, w') → scopes_untouched keccak a k (e, account, o) →
  (key_of w a k).(AuthorizedKey.is_revoked) = true ∨ live (key_of w a k) →
  scope_at w' (spending_limit_key_of keccak a k) = scope_at w (spending_limit_key_of keccak a k).
Proof.
  intros H [<- Ho] Hkey. apply (exec_scope _ _ _ _ _ _ _ H). intros k' Hk' Heq.
  destruct (Ho k' Hk' Heq) as (-> & t & c & wit & ->). simpl in H. unfold authorize_key in H.
  destruct Hkey as [Hr|Hl]; [|by apply (authorize_key_kept _ _ _ _ _ _ a k) in H as []].
  apply authorize_key_internal_keys in H as (E & _). unfold key_of in Hr. congruence.
Qed.

(** Until the key is revoked it keeps its expiry, and its scopes stay. *)
Lemma run_scope_kept keccak a k h w :
  live (key_of w a k) ∨ (key_of w a k).(AuthorizedKey.is_revoked) = true →
  Forall (scopes_untouched keccak a k) h →
  scope_at (run h w) (spending_limit_key_of keccak a k) =
    scope_at w (spending_limit_key_of keccak a k) ∧
  ((key_of (run h w) a k).(AuthorizedKey.is_revoked) = false →
   (key_of (run h w) a k).(AuthorizedKey.expiry) = (key_of w a k).(AuthorizedKey.expiry)).
Proof.
  revert w. induction h as [|[[e account] o] h IH]; intros w Hkey Hh; simpl; [done|].
  apply Forall_cons in Hh as [Hs Hh]. call_cases Hr; [by apply IH|].
  set (w1 := (call (exec account o) e w).2) in *.
  pose proof (exec_scope_kept _ _ _ _ _ _ _ _ _ Hr Hs ltac:(tauto)) as Es.
  destruct Hkey as [Hl|Hrev].
  - destruct (exec_key_kept _ _ _ _ _ _ _ _ Hr Hl) as [Hrev|(Hnr & Hx & _)].
    + destruct (IH w1 (or_intror Hrev) Hh) as [E _]. split; [by rewrite E|].
      pose proof (run_revocations h w1 (a, k) Hrev). unfold key_of. congruence.
    + destruct (IH w1) as [E Hexp]; [left; split; [done|rewrite Hx; apply Hl]|done|].
      rewrite E, <- Hx. by split.
  - assert (revoked w1 a k) as Hrev1 by (by eapply exec_revocations).
    destruct (IH w1 (or_intror Hrev1) Hh) as [E _]. split; [by rewrite E|].
    pose proof (run_revocations h w1 (a, k) Hrev1). unfold key_of. congruence.
Qed.

(** C20: a key is held to the call scopes it was authorized with. Take any
    history of keychain operations on an empty scope tree, a successful
    authorization of a key (T3 on), and any further history in which the account
    does not set or remove allowed calls of that key (and no other key's scopes
    hash to the same slot). Then transactions of the key may call a target exactly
    when the authorization allowed any call or listed a scope for the target with
    a matching selector and, for the constrained TIP-20 selectors, a matching
    first argument; contract creation is refused. Until the key is revoked or
    expires, the scopes reported for it are the configured ones. *)
Theorem call_scope_enforced h w0 a k t c wit e w1 h' to input e2 :
  let w := run h' w1 in
  (w_keychain w0).(key_scopes) = ∅ →
  authorize_key a k t c wit e (run h w0) = (Ok (), w1) →
  is_t3 (spec e) = true →
  Forall (scopes_untouched (keccak256 e) a k) h' →
  is_t3 (spec e2) = true → keccak256 e2 = keccak256 e →
  validate_call_scope_for_transaction a k to input e2 w =
    (match to with
     | Create => Err (AccountKeychain AccountKeychainError.CallNotAllowed)
     | Call target =>
         if c.(kr_allowAnyCalls) || existsb (scope_allows target input) c.(kr_allowedCalls)
         then Ok () else Err (AccountKeychain AccountKeychainError.CallNotAllowed)
     end, w) ∧
  (¬ revoked w a k → env_time e2 < c.(kr_expiry) →
   get_allowed_calls a k e2 w =
     (Ok (if c.(kr_allowAnyCalls) then (false, []) else (true, c.(kr_allowedCalls))), w)).
Proof.
  intros w H0 H Ht Hh' Ht2 Hh. pose proof (run_hygiene h w0 (empty_clean w0 H0)) as Hw.
  destruct (authorize_key_scopes _ _ _ _ _ _ _ _ _ H Ht Hw) as (Hk & Hs & Htree).
  destruct (authorize_key_live _ _ _ _ _ _ _ _ _ H Ht) as [Hl Hx].
  destruct (run_scope_kept (keccak256 e) a k h' w1 (or_introl Hl) Hh') as [E Hexp].
  fold w in E, Hexp. rewrite Hx in Hexp. rewrite <- Hh in E, Hs, Htree. split.
  - rewrite validate_transaction_run by done. rewrite E, Hs, Htree.
    destruct to as [target|]; [|done]. by destruct (kr_allowAnyCalls c).
  - intros Hnr%not_true_is_false Hlt.
    change ((key_of w a k).(AuthorizedKey.is_revoked) = false) in Hnr. specialize (Hexp Hnr).
    unfold get_allowed_calls, now_u64, spending_limit_key, is_zero.
    rewrite (proj2 (N.eqb_neq k 0)) by done.
    unfold mbind, M_bind, asks, rd, gets. w_simpl. fold (key_of w a k). rewrite Hnr, Hexp.
    destruct (N.eqb_spec (kr_expiry c) 0); [lia|]. cbn [orb].
    unfold env_time in Hlt. rewrite (proj2 (N.leb_gt _ _) Hlt).
    fold (scope_at w (spending_limit_key_of (keccak256 e2) a k)). rewrite E, Hs, Htree.
    by destruct (kr_allowAnyCalls c).
Qed.

Lemma call_scope_enforced_witness :
  let e := example_env T7 10 in
  let c := mkKeyRestrictions 1000 false [] false
    [mkCallScope 0x20c0000000000000000000000000000000000001
       [mkSelectorRule TIP20_TRANSFER_SELECTOR [7; 8]]; mkCallScope 5 []] in
  let w0 := (set_tx_origin 1 e dflt).2 in
  let w1 := run [(e, 1, AuthorizeKey 3 P256 c None); (e, 1, RemoveAllowedCalls 3 5)] w0 in
  let w2 := (authorize_key 1 2 Secp256k1 c None e w1).2 in
  let w := run [(e, 1, SetAllowedCalls 3 [mkCallScope 6 []]); (e, 1, SetTransactionKey 2);
                (e, 1, UpdateSpendingLimit 2 9 50); (e, 1, AuthorizeTransfer 9 10)] w2 in
  validate_call_scope_for_transaction 1 2 (Call 5) [] e w = (Ok (), w) ∧
  (¬ revoked w 1 2 → 10 < 1000 →
   get_allowed_calls 1 2 e w = (Ok (true, c.(kr_allowedCalls)), w)).
Proof.
  intros e c w0 w1 w2 w.
  apply (call_scope_enforced [(e, 1, AuthorizeKey 3 P256 c None); (e, 1, RemoveAllowedCalls 3 5)]
    w0 1 2 Secp256k1 c None e w2
    [(e, 1, SetAllowedCalls 3 [mkCallScope 6 []]); (e, 1, SetTransactionKey 2);
     (e, 1, UpdateSpendingLimit 2 9 50); (e, 1, AuthorizeTransfer 9 10)] (Call 5) [] e).
  - reflexivity.
  - vm_compute. reflexivity.
  - reflexivity.
  - repeat (constructor; [split; [reflexivity|]; intros k' [= <-]; intros Heq; vm_compute in Heq;
      discriminate Heq|]). constructor.
  - reflexivity.
  - reflexivity.
Defined.

End KeychainScopes.
