(* ===== verification/Verifier.v ===== *)
(** * The signature verifier

    [signature_verifier/mod.rs]: recovery of the signer of a primitive signature, and
    the questions whether a keychain signature was made by an active key, or by the
    root or an admin key, of an account. The gas charged for a verification is not
    modelled. The theorem says what the answers mean. *)

From S2P Require Import Prelude Hardfork Address Bytes Signature Errors State Monad Tip20Base Keychain.

Module Verifier.
Import KeychainOps Signatures.

Abbreviation sve := (λ x, SignatureVerifier x).

Definition recover (hash : B256) (signature : bytes) : M Address :=
  C ← asks crypto;
  match from_bytes C signature with
  | inl _ => throw (sve SignatureVerifierError.InvalidFormat)
  | inr sig => ok_or (recover_signer C sig hash) (sve SignatureVerifierError.InvalidSignature)
  end.

Record RecoveredKeychainKey := Recovered {
  account : Address;
  recovered_key_id : Address;
  recovered_type : SignatureType
}.

Definition recover_keychain_key (hash : B256) (signature : bytes) : M RecoveredKeychainKey :=
  C ← asks crypto;
  match tempo_from_bytes C signature with
  | inl _ => throw (sve SignatureVerifierError.InvalidFormat)
  | inr sig =>
      keychain_sig ← ok_or (as_keychain sig) (sve SignatureVerifierError.InvalidFormat);
      require (negb (is_legacy keychain_sig)) (sve SignatureVerifierError.InvalidFormat) ;;
      keccak ← asks keccak256;
      let inner := keychain_sig.(Signatures.signature) in
      key_id ← recover (signing_hash keccak hash keychain_sig.(user_address)) (to_bytes C inner);
      mret (Recovered keychain_sig.(user_address) key_id (signature_type inner))
  end.

(** The active access key, or [None] when the keychain rejects it. *)
Definition active_key (account key_id : Address) (t : SignatureType) : M (option AuthorizedKey.t) :=
  timestamp ← now_u64;
  sp ← asks spec;
  let expected_type := if is_t14 sp then Some (signature_type_u8 t) else None in
  r ← try_ (validate_keychain_authorization account key_id timestamp expected_type);
  match r with
  | Ok key => mret (Some key)
  | Err err => if is_system_error err then throw err else mret None
  end.

Definition verify_keychain (acc : Address) (hash : B256) (signature : bytes) : M bool :=
  recovered ← recover_keychain_key hash signature;
  retired ← (if negb (recovered.(account) =? acc) then mret true
             else is_retired_root recovered.(recovered_key_id));
  if (retired : bool) then mret false
  else
    key ← active_key acc recovered.(recovered_key_id) recovered.(recovered_type);
    mret (bool_decide (is_Some key)).

Definition verify_keychain_admin (acc : Address) (hash : B256) (signature : bytes) : M bool :=
  recovered ← recover_keychain_key hash signature;
  retired ← (if negb (recovered.(account) =? acc) then mret true
             else is_retired_root recovered.(recovered_key_id));
  if (retired : bool) then mret false
  else if recovered.(recovered_key_id) =? acc then mret true
  else
    key ← active_key acc recovered.(recovered_key_id) recovered.(recovered_type);
    mret (match key with Some k => k.(AuthorizedKey.is_admin) | None => false end).

(** ** What the answers mean *)

(** [sig] is a current keychain signature for [acc] on [hash] by the key [kid], of type
    [t], that no account configuration has retired. *)
Definition signed_by (e : Env) (w : World) (acc : Address) (hash : B256) (sig : bytes)
    (kid : Address) (t : SignatureType) : Prop :=
  ∃ k, tempo_from_bytes (crypto e) sig = inr (Keychain k) ∧ k.(version) = V2 ∧
    k.(user_address) = acc ∧ signature_type k.(signature) = t ∧
    key_id (crypto e) (keccak256 e) k hash = Some kid ∧
    (is_t14 (spec e) = true → (w_config_commitment w).[kid] = 0).

(** [kid] is authorized by [acc], neither revoked nor expired, and of type [t] from T14. *)
Definition usable (e : Env) (w : World) (acc kid : Address) (t : SignatureType) : bool :=
  let key := (w_keychain w).(Keychain.keys).[(acc, kid)] in
  negb key.(AuthorizedKey.is_revoked) &&
  (saturating_to U64_MAX (timestamp e) <? key.(AuthorizedKey.expiry)) &&
  (negb (is_t14 (spec e)) || (key.(AuthorizedKey.signature_type) =? signature_type_u8 t)).

Lemma recover_written e w C sig h :
  crypto e = C → LawfulCrypto C → primitive_wf sig →
  recover h (to_bytes C sig) e w =
  (match recover_signer C sig h with
   | Some a => Ok a
   | None => Err (sve SignatureVerifierError.InvalidSignature)
   end, w).
Proof.
  intros <- HC Hw. unfold recover. unfold mbind at 1, M_bind at 1, asks. rewrite primitive_roundtrip by done.
  by destruct (recover_signer _ sig h).
Qed.

Definition recovered (e : Env) (hash : B256) (sig : bytes) : outcome RecoveredKeychainKey :=
  match tempo_from_bytes (crypto e) sig with
  | inr (Keychain k) =>
      if is_legacy k then Err (sve SignatureVerifierError.InvalidFormat)
      else match key_id (crypto e) (keccak256 e) k hash with
           | Some kid => Ok (Recovered k.(user_address) kid (signature_type k.(signature)))
           | None => Err (sve SignatureVerifierError.InvalidSignature)
           end
  | _ => Err (sve SignatureVerifierError.InvalidFormat)
  end.

Lemma recover_keychain_run e w hash sig :
  LawfulCrypto (crypto e) → is_bytes sig →
  recover_keychain_key hash sig e w =
  (recovered e hash sig, w).
Proof.
  intros HC Hb. unfold recover_keychain_key, recovered. unfold mbind at 1, M_bind at 1, asks at 1.
  destruct (tempo_from_bytes (crypto e) sig) as [x|[p|[a p v]]] eqn:E; [done|done|].
  destruct (tempo_parsed _ _ _ Hb E) as [[_ Hw] _]. cbn [signature] in Hw.
  unfold mbind, M_bind, asks, ok_or, require, as_keychain, mret, M_ret, throw. destruct v; [done|].
  change (is_legacy (KeychainSig a p V2)) with false. cbn [negb version signature user_address].
  rewrite (recover_written e w (crypto e)) by done. rewrite key_id_recovered. unfold effective_sig_hash. cbn [version signature user_address].
  by destruct (recover_signer _ _ _).
Qed.

Lemma active_key_run e w acc kid t :
  active_key acc kid t e w =
  (Ok (let key := (w_keychain w).(Keychain.keys).[(acc, kid)] in
       if usable e w acc kid t then Some key else None), w).
Proof.
  unfold active_key, validate_keychain_authorization, load_active_key, now_u64, rd, usable.
  unfold try_, mbind, M_bind, asks, gets, require, mret, M_ret, throw. cbn [cget keychainC].
  set (key := (w_keychain w).(Keychain.keys).[(acc, kid)]). destruct (key.(AuthorizedKey.is_revoked)); [done|]. cbn [negb].
  set (now := saturating_to U64_MAX (timestamp e)).
  destruct (N.eqb_spec key.(AuthorizedKey.expiry) 0) as [->|E0].
  { by rewrite (proj2 (N.ltb_ge now 0)) by lia. }
  rewrite N.ltb_antisym. destruct (key.(AuthorizedKey.expiry) <=? now); [done|]. cbn [negb].
  destruct (is_t14 (spec e)); [|done]. by destruct (_ =? _).
Qed.

Lemma is_retired_root_run e w a :
  is_retired_root a e w = (Ok (is_t14 (spec e) && negb ((w_config_commitment w).[a] =? 0)), w).
Proof. done. Qed.

Definition accepted (e : Env) (w : World) (acc : Address) (r : RecoveredKeychainKey) : bool :=
  (r.(account) =? acc) && negb (is_t14 (spec e) && negb ((w_config_commitment w).[r.(recovered_key_id)] =? 0)).

Lemma verify_keychain_run e w acc hash sig :
  LawfulCrypto (crypto e) → is_bytes sig →
  verify_keychain acc hash sig e w =
  (match recovered e hash sig with
   | Ok r => Ok (if accepted e w acc r then usable e w acc r.(recovered_key_id) r.(recovered_type) else false)
   | Err x => Err x
   end, w).
Proof.
  intros HC Hb. unfold verify_keychain. unfold mbind, M_bind. rewrite (recover_keychain_run e w hash sig HC Hb).
  destruct (recovered e hash sig) as [r|x]; [|done]. unfold accepted.
  destruct (r.(account) =? acc); [|done]. cbn [negb andb]. rewrite is_retired_root_run.
  destruct (is_t14 (spec e) && _); [done|]. rewrite active_key_run. by destruct (usable _ _ _ _ _).
Qed.
Lemma verify_keychain_admin_run e w acc hash sig :
  LawfulCrypto (crypto e) → is_bytes sig →
  verify_keychain_admin acc hash sig e w =
  (match recovered e hash sig with
   | Ok r =>
       Ok (if accepted e w acc r then
             if r.(recovered_key_id) =? acc then true
             else usable e w acc r.(recovered_key_id) r.(recovered_type) &&
                  (w_keychain w).(Keychain.keys).[(acc, r.(recovered_key_id))].(AuthorizedKey.is_admin)
           else false)
   | Err x => Err x
   end, w).
Proof.
  intros HC Hb. unfold verify_keychain_admin. unfold mbind, M_bind. rewrite (recover_keychain_run e w hash sig HC Hb).
  destruct (recovered e hash sig) as [r|x]; [|done]. unfold accepted.
  destruct (r.(account) =? acc); [|done]. cbn [negb andb]. rewrite is_retired_root_run.
  destruct (is_t14 (spec e) && _); [done|]. cbn [negb]. destruct (r.(recovered_key_id) =? acc); [done|].
  rewrite active_key_run. by destruct (usable _ _ _ _ _).
Qed.

Definition signer (e : Env) (w : World) (acc : Address) (hash : B256) (sig : bytes) : option (Address * SignatureType) :=
  match recovered e hash sig with
  | Ok r => if accepted e w acc r then Some (r.(recovered_key_id), r.(recovered_type)) else None
  | Err _ => None
  end.
Lemma signer_signed_by e w acc hash sig kid t :
  signed_by e w acc hash sig kid t ↔ signer e w acc hash sig = Some (kid, t).
Proof.
  unfold signed_by, signer, recovered. split.
  - intros (k & -> & Hv & <- & <- & Hk & Hc). unfold is_legacy, accepted. rewrite Hv, Hk. rewrite bool_decide_eq_false_2 by done.
    cbn [account recovered_key_id recovered_type]. rewrite N.eqb_refl. destruct (is_t14 (spec e)); [|done]. by rewrite Hc.
  - destruct (tempo_from_bytes (crypto e) sig) as [x|[p|k]]; [done|done|]. unfold is_legacy.
    destruct (k.(version)) eqn:Hv; [done|]. rewrite bool_decide_eq_false_2 by done.
    destruct (key_id _ _ k hash) as [kid'|] eqn:Hk; [|done]. unfold accepted.
    cbn [account recovered_key_id recovered_type]. destruct (N.eqb_spec k.(user_address) acc) as [Ha|]; [|done].
    destruct (is_t14 (spec e)) eqn:H14; cbn [andb negb].
    + destruct (N.eqb_spec (w_config_commitment w).[kid'] 0); [|done]. intros [= <- <-]. exists k. split_and!; done.
    + intros [= <- <-]. exists k. split_and!; done.
Qed.

(** C22: the verifier accepts exactly the active keys. For every byte string, the question
    whether it is a keychain signature of an account is answered with yes if and only if
    it decodes to a current keychain signature for that account, its inner signature
    recovers to a key under the hash bound to the account, and that key is authorized in
    the account's keychain, neither revoked nor expired (nor, from T14, retired or of
    another type); the admin question, if and only if the key is the root key or such an
    authorized key with the admin flag. Neither changes the state. *)
Theorem verify_keychain_correct e w acc hash sig :
  LawfulCrypto (crypto e) → is_bytes sig →
  (verify_keychain acc hash sig e w = (Ok true, w) ↔
     ∃ kid t, signed_by e w acc hash sig kid t ∧ usable e w acc kid t = true) ∧
  (verify_keychain_admin acc hash sig e w = (Ok true, w) ↔
     ∃ kid t, signed_by e w acc hash sig kid t ∧
       (kid = acc ∨ usable e w acc kid t = true ∧
        (w_keychain w).(Keychain.keys).[(acc, kid)].(AuthorizedKey.is_admin) = true)) ∧
  (verify_keychain acc hash sig e w).2 = w ∧ (verify_keychain_admin acc hash sig e w).2 = w.
Proof.
  intros HC Hb. rewrite !verify_keychain_run, !verify_keychain_admin_run by done. cbn [snd].
  pose proof (signer_signed_by e w acc hash sig) as HS. unfold signer in *. destruct (recovered e hash sig) as [r|x].
  2: { split_and!; try done; split; try done; by intros (? & ? & ?%HS & _). }
  destruct (accepted e w acc r).
  2: { split_and!; try done; split; try done; by intros (? & ? & ?%HS & _). }
  split_and!; try done; split.
  - intros [= HU]. eexists _, _. split; [by apply HS|done].
  - by intros (kid & t & [= <- <-]%HS & ->).
  - intros [= HU]. eexists _, _. split; [by apply HS|].
    destruct (N.eqb_spec r.(recovered_key_id) acc); [by left|]. right. by apply andb_true_iff.
  - intros (kid & t & [= <- <-]%HS & HU). do 2 f_equal.
    destruct (N.eqb_spec r.(recovered_key_id) acc); [done|]. destruct HU as [?|HU]; [done|]. by apply andb_true_iff.
Qed.
Lemma verify_keychain_correct_witness :
  let e := example_env T6 100 in
  let sig := tempo_to_bytes example_crypto (Keychain (KeychainSig 7 (Secp256k1 (EcdsaSignature.mk 9 2 true)) V2)) in
  let w := set_w_keychain (Keychain.set_keys (insert (7, 9) (AuthorizedKey.mk 0 200 false false true))) dflt in
  verify_keychain 7 1 sig e w = (Ok true, w) ∧ verify_keychain_admin 7 1 sig e w = (Ok true, w).
Proof.
  intros e sig w.
  destruct (verify_keychain_correct e w 7 1 sig) as (H1 & H2 & _).
  { apply example_crypto_lawful. }
  { apply (bool_decide_unpack _). by vm_compute. }
  assert (signed_by e w 7 1 sig 9 TSecp256k1) as HS.
  { eexists. split; [by vm_compute|]. by repeat split; vm_compute. }
  split; [apply H1|apply H2]; exists 9, TSecp256k1; (split; [done|]); [by vm_compute|right; by vm_compute].
Defined.

End Verifier.
