(* ===== verification/ValidatorConfig.v ===== *)
(** * The validator configuration

    [validator_config/mod.rs]: the first version of the validator registry. The owner
    adds validators and switches them on and off, a validator updates its own entry and
    may move it to another address. The endpoints of a validator must parse as
    [<ip>:<port>] ([ip_validation.rs]). *)

From S2P Require Import Prelude Hardfork Address Bytes IpAddr Errors State Monad.

(** [IpWithPortParseError] and [IpParseError] have one variant each. *)
Definition ensure_address_is_ip_port (input : string) : bool := bool_decide (is_Some (Net.parse_socket input)).
Definition ensure_address_is_ip (input : string) : bool := bool_decide (is_Some (Net.parse_ip input)).
Definition ip_port_error : string := "input was not of the form `<ip>:<port>`".
Definition ip_port_error_debug : string := "Parse(AddrParseError(Socket))".
Definition ip_error : string := "input was not a valid IP address".

(** Vectors in storage: [push] refuses beyond the largest index whose slot can be
    computed, [slots] slots or, for elements of at most 16 bytes, [bytes] bytes each. *)
Definition vec_push {A} (max : N) (l : list A) (x : A) : M (list A) :=
  require (negb (max <=? N.of_nat (length l))) (Fatal "Vec is at max capacity") ;;
  mret (l ++ [x]).

Module ValidatorConfig.
Import V1Validator ValidatorConfigStorage.

Abbreviation self := VALIDATOR_CONFIG_ADDRESS.
Abbreviation ev1 := (λ x, ValidatorConfig x).
Definition VALIDATORS_MAX : N := U32_MAX.

Definition initialize (new_owner : Address) : M () :=
  initialize_code self ;;
  wr vconfigC (set_owner (λ _, new_owner)).

Definition check_owner (caller : Address) : M () :=
  owner ← rd vconfigC owner;
  require (owner =? caller) (ev1 ValidatorConfigError.Unauthorized).

Definition change_owner (sender new_owner : Address) : M () :=
  check_owner sender ;;
  wr vconfigC (set_owner (λ _, new_owner)).

Definition validator_count : M N := rd vconfigC (λ s, N.of_nat (length s.(validators_array))).
Definition validator_at (i : N) : M (option Address) := rd vconfigC (λ s, s.(validators_array) !! N.to_nat i).
Definition get_validators_array (i : N) : M Address :=
  a ← validator_at i; ok_or a (Panic ArrayOutOfBounds).
Definition get_validator (validator : Address) : M V1Validator.t := rd vconfigC (λ s, s.(validators).[validator]).
Definition write_validator (a : Address) (v : V1Validator.t) : M () :=
  wr vconfigC (set_validators (insert a v)).
Definition validator_exists (validator : Address) : M bool :=
  v ← get_validator validator; mret (negb (v.(public_key) =? 0)).

(** Registered validators, in order; the address is the one of the array. *)
Definition get_validators : M (list V1Validator.t) :=
  rd vconfigC (λ s, (λ a, let v := s.(validators).[a] in
    V1Validator.mk v.(public_key) v.(active) v.(index) a v.(inbound_address) v.(outbound_address))
    <$> s.(validators_array)).

(** Before T2 the errors carry the [Debug] text of the parse error. *)
Definition validate_endpoints (inboundAddress outboundAddress : string) : M () :=
  sp ← asks spec;
  let text := if is_t2 sp then ip_port_error else ip_port_error_debug in
  require (ensure_address_is_ip_port inboundAddress)
    (ev1 (ValidatorConfigError.NotHostPort "inboundAddress" inboundAddress text)) ;;
  require (ensure_address_is_ip_port outboundAddress)
    (ev1 (ValidatorConfigError.NotIpPort "outboundAddress" outboundAddress text)).

Definition add_validator (sender newValidatorAddress : Address) (publicKey : B256) (is_active : bool)
    (inboundAddress outboundAddress : string) : M () :=
  require (negb (publicKey =? 0)) (ev1 ValidatorConfigError.InvalidPublicKey) ;;
  check_owner sender ;;
  exists_ ← validator_exists newValidatorAddress;
  require (negb exists_) (ev1 ValidatorConfigError.ValidatorAlreadyExists) ;;
  validate_endpoints inboundAddress outboundAddress ;;
  count ← validator_count;
  write_validator newValidatorAddress
    (V1Validator.mk publicKey is_active count newValidatorAddress inboundAddress outboundAddress) ;;
  array ← rd vconfigC validators_array;
  array' ← vec_push VALIDATORS_MAX array newValidatorAddress;
  wr vconfigC (set_validators_array (λ _, array')).

(** The entry of the array is overwritten without a bounds check; an index out of range
    would write a slot behind the end. *)
Definition update_validator (sender newValidatorAddress : Address) (publicKey : B256)
    (inboundAddress outboundAddress : string) : M () :=
  require (negb (publicKey =? 0)) (ev1 ValidatorConfigError.InvalidPublicKey) ;;
  exists_ ← validator_exists sender;
  require exists_ (ev1 ValidatorConfigError.ValidatorNotFound) ;;
  old_validator ← get_validator sender;
  (if negb (newValidatorAddress =? sender) then
     exists_ ← validator_exists newValidatorAddress;
     require (negb exists_) (ev1 ValidatorConfigError.ValidatorAlreadyExists) ;;
     wr vconfigC (set_validators_array (λ l, <[N.to_nat old_validator.(index) := newValidatorAddress]> l)) ;;
     wr vconfigC (set_validators (delete sender))
   else mret ()) ;;
  validate_endpoints inboundAddress outboundAddress ;;
  write_validator newValidatorAddress
    (V1Validator.mk publicKey old_validator.(active) old_validator.(index) newValidatorAddress
       inboundAddress outboundAddress).

Definition change_validator_status (sender validator : Address) (is_active : bool) : M () :=
  check_owner sender ;;
  exists_ ← validator_exists validator;
  require exists_ (ev1 ValidatorConfigError.ValidatorNotFound) ;;
  v ← get_validator validator;
  write_validator validator (V1Validator.set_active (λ _, is_active) v).

Definition change_validator_status_by_index (sender : Address) (i : N) (is_active : bool) : M () :=
  check_owner sender ;;
  a ← validator_at i;
  validator_address ← ok_or a (ev1 ValidatorConfigError.ValidatorNotFound);
  v ← get_validator validator_address;
  write_validator validator_address (V1Validator.set_active (λ _, is_active) v).

Definition get_next_full_dkg_ceremony : M N := rd vconfigC next_dkg_ceremony.
Definition set_next_full_dkg_ceremony (sender : Address) (epoch : N) : M () :=
  check_owner sender ;;
  wr vconfigC (set_next_dkg_ceremony (λ _, epoch)).

(** ** Dispatch *)

Inductive op :=
| AddValidator (newValidatorAddress : Address) (publicKey : B256) (is_active : bool)
    (inboundAddress outboundAddress : string)
| UpdateValidator (newValidatorAddress : Address) (publicKey : B256) (inboundAddress outboundAddress : string)
| ChangeValidatorStatus (validator : Address) (is_active : bool)
| ChangeValidatorStatusByIndex (i : N) (is_active : bool)
| ChangeOwner (newOwner : Address)
| SetNextFullDkgCeremony (epoch : N).

Definition dispatch (sender : Address) (o : op) : M () :=
  match o with
  | AddValidator a k act i out => mutate (add_validator sender a k act i out)
  | UpdateValidator a k i out => mutate (update_validator sender a k i out)
  | ChangeValidatorStatus a act => mutate (change_validator_status sender a act)
  | ChangeValidatorStatusByIndex i act => scheduled T1 (mutate (change_validator_status_by_index sender i act))
  | ChangeOwner a => mutate (change_owner sender a)
  | SetNextFullDkgCeremony n => mutate (set_next_full_dkg_ceremony sender n)
  end.

End ValidatorConfig.
