(* ===== verification/ValidatorConfigV2.v ===== *)
(** * The validator configuration, second version

    [validator_config_v2/mod.rs]: an append-only registry of validators. Records carry
    the heights at which they became active and inactive; a rotation keeps the slot of a
    validator and appends a deactivated snapshot of its old identity. Lookup tables by
    address, public key and ingress endpoint, and a compact list of the active records
    with back pointers, go along with the records. The registry is filled from the first
    version, last validator first.

    Positions in [address_to_index], [pubkey_to_index] and [active_indices] count from
    one. The vectors are read and written without bounds checks as in the source, which
    reads the default record and writes unused slots out of range; [ValidatorSpec.v]
    shows that every access is in range. *)

From S2P Require Import Prelude Hardfork Address Bytes IpAddr Signature Errors State Monad ValidatorConfig.

Module ValidatorConfigV2.
Import ValidatorRecord ValidatorConfigV2Storage.

Abbreviation self := VALIDATOR_CONFIG_V2_ADDRESS.
Abbreviation ev2 := (λ x, ValidatorConfigV2 x).
Abbreviation emitV ev := (emit self (ValidatorsEv ev)).

(** A record takes six slots, an index eight bytes. *)
Definition RECORDS_MAX : N := U32_MAX / 6.
Definition INDICES_MAX : N := U32_MAX / 8.

Definition VALIDATOR_NS_ADD : bytes := string_bytes "TEMPO_VALIDATOR_CONFIG_V2_ADD_VALIDATOR".
Definition VALIDATOR_NS_ROTATE : bytes := string_bytes "TEMPO_VALIDATOR_CONFIG_V2_ROTATE_VALIDATOR".
Inductive SignatureKind := Add (fee_recipient : Address) | Rotate.

(** [u64] arithmetic as in release builds. *)
Definition wrapping_sub (a b : N) : N := (a + 2 ^ 64 - b) mod 2 ^ 64.

(** ** The configuration *)

Definition require_init (c : Config.t) : M () := require c.(Config.is_init) (ev2 ValidatorConfigV2Error.NotInitialized).
Definition require_not_init (c : Config.t) : M () :=
  require (negb c.(Config.is_init)) (ev2 ValidatorConfigV2Error.AlreadyInitialized).
Definition is_owner (c : Config.t) (addr : Address) : bool := c.(Config.owner) =? addr.
Definition require_owner (c : Config.t) (caller : Address) : M () :=
  require (is_owner c caller) (ev2 ValidatorConfigV2Error.Unauthorized).
Definition require_owner_or_validator (c : Config.t) (caller validator : Address) : M () :=
  require (negb (negb (caller =? validator) && negb (is_owner c caller))) (ev2 ValidatorConfigV2Error.Unauthorized).

Definition read_config : M Config.t := rd vconfig2C config.
Definition write_config (c : Config.t) : M () := wr vconfig2C (set_config (λ _, c)).

Definition initialize (owner : Address) : M () :=
  initialize_code self ;;
  height ← asks block_number;
  write_config (Config.mk owner true height 0 0).

(** ** Records *)

Definition validator_count : M N := rd vconfig2C (λ s, N.of_nat (length s.(validators))).
Definition read_record (i : N) : M ValidatorRecord.t := rd vconfig2C (λ s, nth (N.to_nat i) s.(validators) dflt).
Definition write_record (i : N) (v : ValidatorRecord.t) : M () :=
  wr vconfig2C (set_validators (λ l, <[N.to_nat i := v]> l)).
Definition update_record (i : N) (g : ValidatorRecord.t → ValidatorRecord.t) : M () :=
  v ← read_record i; write_record i (g v).
Definition push_record (v : ValidatorRecord.t) : M () :=
  l ← rd vconfig2C validators;
  l' ← vec_push RECORDS_MAX l v;
  wr vconfig2C (set_validators (λ _, l')).
Definition is_active (v : ValidatorRecord.t) : bool := v.(deactivated_at_height) =? 0.

Definition address_index (a : Address) : M N := rd vconfig2C (λ s, s.(address_to_index).[a]).
Definition pubkey_index (k : B256) : M N := rd vconfig2C (λ s, s.(pubkey_to_index).[k]).
Definition write_address_index (a : Address) (i : N) : M () := wr vconfig2C (set_address_to_index (insert a i)).
Definition write_pubkey_index (k : B256) (i : N) : M () := wr vconfig2C (set_pubkey_to_index (insert k i)).
Definition ingress_used (k : B256) : M bool := rd vconfig2C (λ s, s.(active_ingress_ips).[k]).
Definition mark_ingress (k : B256) : M () := wr vconfig2C (set_active_ingress_ips (insert k true)).
Definition free_ingress (k : B256) : M () := wr vconfig2C (set_active_ingress_ips (delete k)).

Definition get_active_validator (idx : N) : M ValidatorRecord.t :=
  count ← validator_count;
  require (negb (count <=? idx)) (ev2 ValidatorConfigV2Error.ValidatorNotFound) ;;
  v ← read_record idx;
  require (is_active v) (ev2 ValidatorConfigV2Error.ValidatorAlreadyDeactivated) ;;
  mret v.

(** The records as the views return them have no [active_idx]. *)
Definition view_of (v : ValidatorRecord.t) : ValidatorRecord.t := ValidatorRecord.set_active_idx (λ _, 0) v.
Definition read_validator_at (i : N) : M ValidatorRecord.t := v ← read_record i; mret (view_of v).
Definition validator_by_index (i : N) : M ValidatorRecord.t :=
  count ← validator_count;
  require (negb (count <=? i)) (ev2 ValidatorConfigV2Error.ValidatorNotFound) ;;
  read_validator_at i.
Definition validator_by_address (a : Address) : M ValidatorRecord.t :=
  idx1 ← address_index a;
  require (negb (idx1 =? 0)) (ev2 ValidatorConfigV2Error.ValidatorNotFound) ;;
  read_validator_at (idx1 - 1).
Definition validator_by_public_key (k : B256) : M ValidatorRecord.t :=
  idx1 ← pubkey_index k;
  require (negb (idx1 =? 0)) (ev2 ValidatorConfigV2Error.ValidatorNotFound) ;;
  read_validator_at (idx1 - 1).
Fixpoint read_validators (indices : list N) : M (list ValidatorRecord.t) :=
  match indices with
  | [] => mret []
  | global_idx1 :: indices' =>
      v ← read_validator_at (wrapping_sub global_idx1 1);
      out ← read_validators indices';
      mret (v :: out)
  end.
Definition get_active_validators : M (list ValidatorRecord.t) :=
  indices ← rd vconfig2C active_indices;
  read_validators indices.

(** ** Endpoints *)

Definition validate_endpoints (ingress egress : string) : M () :=
  require (ensure_address_is_ip_port ingress) (ev2 (ValidatorConfigV2Error.NotIpPort ingress ip_port_error)) ;;
  require (ensure_address_is_ip egress) (ev2 (ValidatorConfigV2Error.NotIp egress ip_error)).

(** Octets, scope id and port, most significant byte first. *)
Definition ingress_preimage (a : Net.SocketAddr) : bytes :=
  match a with
  | Net.SocketV4 octets port => octets ++ be_bytes 2 port
  | Net.SocketV6 segments port scope_id => (segments ≫= be_bytes 2) ++ be_bytes 4 scope_id ++ be_bytes 2 port
  end.
Definition ingress_key (ingress : string) : M B256 :=
  a ← ok_or (Net.parse_socket ingress) (ev2 (ValidatorConfigV2Error.NotIpPort ingress ip_port_error));
  asks (λ e, keccak256 e (ingress_preimage a)).

Definition require_unique_ingress (ingress : string) : M B256 :=
  ingress_hash ← ingress_key ingress;
  used ← ingress_used ingress_hash;
  require (negb used) (ev2 (ValidatorConfigV2Error.IngressAlreadyExists ingress)) ;;
  mret ingress_hash.

Definition update_ingress_ip_tracking (old_ingress new_ingress : string) : M () :=
  old_ingress_hash ← ingress_key old_ingress;
  new_ingress_hash ← ingress_key new_ingress;
  if negb (old_ingress_hash =? new_ingress_hash) then
    used ← ingress_used new_ingress_hash;
    require (negb used) (ev2 (ValidatorConfigV2Error.IngressAlreadyExists new_ingress)) ;;
    free_ingress old_ingress_hash ;;
    mark_ingress new_ingress_hash
  else mret ().

Definition append_validator (addr : Address) (pubkey : B256) (ingress egress : string) (fee_recipient : Address)
    (added_at_height deactivated_at_height : N) : M N :=
  count ← validator_count;
  active_idx ←
    (if deactivated_at_height =? 0 then
       l ← rd vconfig2C active_indices;
       l' ← vec_push INDICES_MAX l (count + 1);
       wr vconfig2C (set_active_indices (λ _, l')) ;;
       mret (N.of_nat (length l'))
     else mret 0);
  push_record (ValidatorRecord.mk pubkey addr ingress egress fee_recipient count active_idx added_at_height
                 deactivated_at_height) ;;
  write_pubkey_index pubkey (count + 1) ;;
  write_address_index addr (count + 1) ;;
  mret count.

(** Whether [addr] belongs to an active validator. *)
Definition address_taken (addr : Address) : M bool :=
  idx1 ← address_index addr;
  if idx1 =? 0 then mret false else v ← read_record (idx1 - 1); mret (is_active v).
Definition require_new_address (addr : Address) : M () :=
  require (negb (is_zero addr)) (ev2 ValidatorConfigV2Error.InvalidValidatorAddress) ;;
  taken ← address_taken addr;
  require (negb taken) (ev2 ValidatorConfigV2Error.AddressAlreadyHasValidator).

Definition require_new_pubkey (pubkey : B256) : M () :=
  require (negb (pubkey =? 0)) (ev2 ValidatorConfigV2Error.InvalidPublicKey) ;;
  i ← pubkey_index pubkey;
  require (i =? 0) (ev2 ValidatorConfigV2Error.PublicKeyAlreadyExists).

(** [u8::try_from(text.len()).expect(..)]: a length beyond 255 panics. *)
Definition length_byte (text msg : string) : M bytes :=
  let len := N.of_nat (length (string_bytes text)) in
  require (len <=? 255) (Fatal msg) ;; mret [len].

Definition verify_validator_signature (kind : SignatureKind) (pubkey : B256) (signature : bytes)
    (validator_address : Address) (ingress egress : string) : M () :=
  C ← asks crypto;
  require (ed25519_signature_ok C signature) (ev2 ValidatorConfigV2Error.InvalidSignatureFormat) ;;
  chain ← asks chain_id;
  ingress_length ← length_byte ingress "validator ingress length must fit in uint8";
  egress_length ← length_byte egress "validator egress length must fit in uint8";
  let '(extra, namespace) :=
    match kind with
    | Add fee_recipient => (address_bytes fee_recipient, VALIDATOR_NS_ADD)
    | Rotate => ([], VALIDATOR_NS_ROTATE)
    end in
  message ← asks (λ e, keccak256 e
    (be_bytes 8 chain ++ address_bytes self ++ address_bytes validator_address ++ ingress_length ++
     string_bytes ingress ++ egress_length ++ string_bytes egress ++ extra));
  require (ed25519_key_ok C pubkey) (ev2 ValidatorConfigV2Error.InvalidPublicKey) ;;
  require (ed25519_verify C pubkey namespace (word_bytes message) signature) (ev2 ValidatorConfigV2Error.InvalidSignature).

(** ** Operations of the owner *)

Definition add_validator (sender validatorAddress : Address) (publicKey : B256) (ingress egress : string)
    (feeRecipient : Address) (signature : bytes) : M N :=
  c ← read_config;
  require_init c ;;
  require_owner c sender ;;
  require_new_pubkey publicKey ;;
  require_new_address validatorAddress ;;
  validate_endpoints ingress egress ;;
  ingress_hash ← require_unique_ingress ingress;
  verify_validator_signature (Add feeRecipient) publicKey signature validatorAddress ingress egress ;;
  block_height ← asks block_number;
  mark_ingress ingress_hash ;;
  i ← append_validator validatorAddress publicKey ingress egress feeRecipient block_height 0;
  emitV (ValidatorConfigV2Event.ValidatorAdded i validatorAddress publicKey ingress egress feeRecipient) ;;
  mret i.

Definition deactivate_validator (sender : Address) (idx : N) : M () :=
  v ← get_active_validator idx;
  c ← read_config;
  require_owner_or_validator c sender v.(validator_address) ;;
  key ← ingress_key v.(ingress);
  free_ingress key ;;
  block_height ← asks block_number;
  update_record idx (ValidatorRecord.set_deactivated_at_height (λ _, block_height)) ;;
  indices ← rd vconfig2C active_indices;
  let active_index := wrapping_sub v.(active_idx) 1 in
  let last_pos := wrapping_sub (N.of_nat (length indices)) 1 in
  (if negb (active_index =? last_pos) then
     let moved_val := nth (N.to_nat last_pos) indices 0 in
     wr vconfig2C (set_active_indices (λ l, <[N.to_nat active_index := moved_val]> l)) ;;
     update_record (wrapping_sub moved_val 1) (ValidatorRecord.set_active_idx (λ _, active_index + 1))
   else mret ()) ;;
  wr vconfig2C (set_active_indices (λ l, take (length l - 1) l)) ;;
  update_record idx (ValidatorRecord.set_active_idx (λ _, 0)) ;;
  emitV (ValidatorConfigV2Event.ValidatorDeactivated idx v.(validator_address)).

Definition transfer_ownership (sender newOwner : Address) : M () :=
  require (negb (is_zero newOwner)) (ev2 ValidatorConfigV2Error.InvalidOwner) ;;
  c ← read_config;
  require_init c ;;
  require_owner c sender ;;
  write_config (Config.set_owner (λ _, newOwner) c) ;;
  emitV (ValidatorConfigV2Event.OwnershipTransferred c.(Config.owner) newOwner).

Definition set_network_identity_rotation_epoch (sender : Address) (epoch : N) : M () :=
  c ← read_config;
  require_init c ;;
  require_owner c sender ;;
  previous_epoch ← rd vconfig2C next_network_identity_rotation_epoch;
  wr vconfig2C (set_next_network_identity_rotation_epoch (λ _, epoch)) ;;
  emitV (ValidatorConfigV2Event.NetworkIdentityRotationEpochSet previous_epoch epoch).

(** ** Operations of the owner or the validator *)

Definition rotate_validator (sender : Address) (idx : N) (publicKey : B256) (new_ingress new_egress : string)
    (signature : bytes) : M () :=
  v ← get_active_validator idx;
  c ← read_config;
  require_init c ;;
  require_owner_or_validator c sender v.(validator_address) ;;
  require_new_pubkey publicKey ;;
  validate_endpoints new_ingress new_egress ;;
  require_unique_ingress new_ingress ;;
  verify_validator_signature Rotate publicKey signature v.(validator_address) new_ingress new_egress ;;
  block_height ← asks block_number;
  update_ingress_ip_tracking v.(ingress) new_ingress ;;
  appended_idx ← validator_count;
  push_record (ValidatorRecord.mk v.(public_key) v.(validator_address) v.(ingress) v.(egress) v.(fee_recipient)
                 appended_idx 0 v.(added_at_height) block_height) ;;
  write_pubkey_index v.(public_key) (appended_idx + 1) ;;
  updated ← read_record idx;
  write_record idx (ValidatorRecord.mk publicKey updated.(validator_address) new_ingress new_egress
                      updated.(fee_recipient) updated.(index) updated.(active_idx) block_height
                      updated.(deactivated_at_height)) ;;
  write_pubkey_index publicKey (idx + 1) ;;
  emitV (ValidatorConfigV2Event.ValidatorRotated idx appended_idx v.(validator_address) v.(public_key)
           publicKey new_ingress new_egress sender).

Definition set_fee_recipient (sender : Address) (idx : N) (feeRecipient : Address) : M () :=
  v ← get_active_validator idx;
  c ← read_config;
  require_init c ;;
  require_owner_or_validator c sender v.(validator_address) ;;
  write_record idx (ValidatorRecord.set_fee_recipient (λ _, feeRecipient) v) ;;
  emitV (ValidatorConfigV2Event.FeeRecipientUpdated idx feeRecipient sender).

Definition set_ip_addresses (sender : Address) (idx : N) (new_ingress new_egress : string) : M () :=
  v ← get_active_validator idx;
  c ← read_config;
  require_init c ;;
  require_owner_or_validator c sender v.(validator_address) ;;
  validate_endpoints new_ingress new_egress ;;
  update_ingress_ip_tracking v.(ingress) new_ingress ;;
  write_record idx (ValidatorRecord.set_egress (λ _, new_egress) (ValidatorRecord.set_ingress (λ _, new_ingress) v)) ;;
  emitV (ValidatorConfigV2Event.IpAddressesUpdated idx new_ingress new_egress sender).

Definition transfer_validator_ownership (sender : Address) (idx : N) (newAddress : Address) : M () :=
  v ← get_active_validator idx;
  c ← read_config;
  require_init c ;;
  require_owner_or_validator c sender v.(validator_address) ;;
  require_new_address newAddress ;;
  write_record idx (ValidatorRecord.set_validator_address (λ _, newAddress) v) ;;
  wr vconfig2C (set_address_to_index (delete v.(validator_address))) ;;
  write_address_index newAddress (idx + 1) ;;
  emitV (ValidatorConfigV2Event.ValidatorOwnershipTransferred idx v.(validator_address) newAddress sender).

(** ** Migration *)

(** [v1_count as u8] keeps the low byte. *)
Definition require_migration_owner (caller : Address) : M Config.t :=
  c ← read_config;
  require_not_init c ;;
  c ← (if is_zero c.(Config.owner) then
         v1_owner ← rd vconfigC ValidatorConfigStorage.owner;
         v1_count ← ValidatorConfig.validator_count;
         require (negb (v1_count =? 0)) (ev2 ValidatorConfigV2Error.EmptyV1ValidatorSet) ;;
         let count := v1_count mod 2 ^ 8 in
         write_config (Config.mk v1_owner false 0 0 count) ;;
         mret (Config.set_v1_validator_count (λ _, count) (Config.set_owner (λ _, v1_owner) c))
       else mret c);
  require_owner c caller ;;
  mret c.

Definition skip_migration (idx : N) (v1_val : V1Validator.t) (skipped : N) : M () :=
  emitV (ValidatorConfigV2Event.SkippedValidatorMigration idx v1_val.(V1Validator.validator_address)
           v1_val.(V1Validator.public_key)) ;;
  c ← read_config;
  write_config (Config.set_migration_skipped_count (λ _, saturating_add U8_MAX skipped 1) c).

Definition migrate_validator (sender : Address) (idx : N) : M () :=
  c ← require_migration_owner sender;
  block_height ← asks block_number;
  let v1_count := c.(Config.v1_validator_count) in
  migrated ← validator_count;
  let skipped := c.(Config.migration_skipped_count) in
  let total_processed := migrated + skipped in
  require (negb ((v1_count <=? total_processed) || negb (idx =? v1_count - total_processed - 1)))
    (ev2 ValidatorConfigV2Error.InvalidMigrationIndex) ;;
  a ← ValidatorConfig.get_validators_array idx;
  v1_val ← ValidatorConfig.get_validator a;
  let skip := skip_migration idx v1_val skipped in
  C ← asks crypto;
  if negb (ed25519_key_ok C v1_val.(V1Validator.public_key)) then skip
  else
    match Net.parse_socket v1_val.(V1Validator.outbound_address) with
    | None => skip
    | Some sa =>
        let egress := Net.to_string (Net.ip sa) in
        k ← pubkey_index v1_val.(V1Validator.public_key);
        if negb (k =? 0) then skip
        else
          taken ← address_taken v1_val.(V1Validator.validator_address);
          require (negb taken) (ev2 ValidatorConfigV2Error.AddressAlreadyHasValidator) ;;
          let now_active := v1_val.(V1Validator.active) in
          ingress_hash ← ingress_key v1_val.(V1Validator.inbound_address);
          used ← ingress_used ingress_hash;
          if now_active && used then skip
          else
            migrated_idx ← append_validator v1_val.(V1Validator.validator_address) v1_val.(V1Validator.public_key)
              v1_val.(V1Validator.inbound_address) egress ZERO_ADDRESS block_height
              (if now_active then 0 else block_height);
            (if now_active then mark_ingress ingress_hash else mret ()) ;;
            emitV (ValidatorConfigV2Event.ValidatorMigrated migrated_idx v1_val.(V1Validator.validator_address)
                     v1_val.(V1Validator.public_key))
    end.

Definition initialize_if_migrated (sender : Address) : M () :=
  c ← require_migration_owner sender;
  count ← validator_count;
  require (negb ((c.(Config.v1_validator_count) =? 0) ||
                 (count + c.(Config.migration_skipped_count) <? c.(Config.v1_validator_count))))
    (ev2 ValidatorConfigV2Error.MigrationNotComplete) ;;
  v1_next_dkg ← ValidatorConfig.get_next_full_dkg_ceremony;
  wr vconfig2C (set_next_network_identity_rotation_epoch (λ _, v1_next_dkg)) ;;
  height ← asks block_number;
  write_config (Config.set_is_init (λ _, true) (Config.set_init_at_height (λ _, height) c)) ;;
  emitV (ValidatorConfigV2Event.Initialized height).

(** ** Dispatch *)

Inductive op :=
| AddValidator (validatorAddress : Address) (publicKey : B256) (ingress egress : string) (feeRecipient : Address)
    (signature : bytes)
| DeactivateValidator (idx : N)
| RotateValidator (idx : N) (publicKey : B256) (ingress egress : string) (signature : bytes)
| SetFeeRecipient (idx : N) (feeRecipient : Address)
| SetIpAddresses (idx : N) (ingress egress : string)
| TransferValidatorOwnership (idx : N) (newAddress : Address)
| TransferOwnership (newOwner : Address)
| SetNetworkIdentityRotationEpoch (epoch : N)
| MigrateValidator (idx : N)
| InitializeIfMigrated.

Definition run_op (sender : Address) (o : op) : M () :=
  match o with
  | AddValidator a k i eg fee sig => add_validator sender a k i eg fee sig ;; mret ()
  | DeactivateValidator idx => deactivate_validator sender idx
  | RotateValidator idx k i eg sig => rotate_validator sender idx k i eg sig
  | SetFeeRecipient idx a => set_fee_recipient sender idx a
  | SetIpAddresses idx i eg => set_ip_addresses sender idx i eg
  | TransferValidatorOwnership idx a => transfer_validator_ownership sender idx a
  | TransferOwnership a => transfer_ownership sender a
  | SetNetworkIdentityRotationEpoch n => set_network_identity_rotation_epoch sender n
  | MigrateValidator idx => migrate_validator sender idx
  | InitializeIfMigrated => initialize_if_migrated sender
  end.

(** Before T2 the contract accepts every call and does nothing. *)
Definition dispatch (sender : Address) (o : op) : M () :=
  sp ← asks spec;
  if negb (is_t2 sp) then mret () else mutate (run_op sender o).

End ValidatorConfigV2.
