(* ===== verification/ValidatorFrame.v ===== *)
(** * The validator configurations in the system

    Every way the validator registries change: calls of both versions, and their
    creation at genesis. None of them touches anything but the registries, the code of
    the two contracts and the log. *)

From S2P Require Import Prelude StorageSet Hardfork Address Bytes IpAddr Signature Errors State Monad.
From S2P Require Import ValidatorConfig ValidatorConfigV2.

Module Validators.

Inductive op :=
| Genesis (owner : Address)
| GenesisV2 (owner : Address)
| Call (o : ValidatorConfig.op)
| CallV2 (o : ValidatorConfigV2.op).

Definition exec (sender : Address) (o : op) : M () :=
  match o with
  | Genesis owner => ValidatorConfig.initialize owner
  | GenesisV2 owner => ValidatorConfigV2.initialize owner
  | Call o => ValidatorConfig.dispatch sender o
  | CallV2 o => ValidatorConfigV2.dispatch sender o
  end.

End Validators.

Record validators_allow (R : relation World) : Prop := {
  validators_allow_v1 g w : R w (set_w_vconfig g w);
  validators_allow_v2 g w : R w (set_w_vconfig2 g w);
  validators_allow_code g w : R w (set_w_code g w);
  validators_allow_events g w : R w (set_w_events g w)
}.
#[export] Hint Extern 2 (validators_allow (keeps _)) =>
  split; intros; unfold keeps; reflexivity : stable.

Section frame.
Context (e : Env) (R : relation World) `{!PreOrder R} (HR : validators_allow R).
Abbreviation st m := (Stable e R m).

Lemma stable_wr_v1 g : st (wr vconfigC g).
Proof. apply stable_wr. intros. apply HR. Qed.
Lemma stable_wr_v2 g : st (wr vconfig2C g).
Proof. apply stable_wr. intros. apply HR. Qed.
Lemma stable_emit_validators a ev : st (emit a ev).
Proof. apply stable_modify. intros. apply HR. Qed.
Lemma stable_init_code a : st (initialize_code a).
Proof. apply stable_modify. intros. apply HR. Qed.
#[local] Hint Resolve stable_wr_v1 stable_wr_v2 stable_emit_validators stable_init_code : stable.
Lemma stable_vec_push {A} max (l : list A) x : st (vec_push max l x).
Proof. unfold vec_push. stable_auto. Qed.
#[local] Hint Resolve stable_vec_push : stable.

Lemma stable_v1 a o : st (ValidatorConfig.dispatch a o).
Proof.
  destruct o; unfold ValidatorConfig.dispatch; unfold ValidatorConfig.add_validator, ValidatorConfig.update_validator,
    ValidatorConfig.change_validator_status, ValidatorConfig.change_validator_status_by_index,
    ValidatorConfig.change_owner, ValidatorConfig.set_next_full_dkg_ceremony, ValidatorConfig.check_owner,
    ValidatorConfig.validator_exists, ValidatorConfig.get_validator, ValidatorConfig.validate_endpoints,
    ValidatorConfig.validator_count, ValidatorConfig.validator_at, ValidatorConfig.write_validator.
  all: stable_auto.
Qed.

Import ValidatorConfigV2.
Lemma stable_read_record i : st (read_record i).
Proof. unfold read_record. stable_auto. Qed.
Lemma stable_update_record i g : st (update_record i g).
Proof. unfold update_record, read_record, write_record. stable_auto. Qed.
Lemma stable_push_record v : st (push_record v).
Proof. unfold push_record. stable_auto. Qed.
Lemma stable_get_active idx : st (get_active_validator idx).
Proof. unfold get_active_validator, validator_count, read_record. stable_auto. Qed.
Lemma stable_ingress_key i : st (ingress_key i).
Proof. unfold ingress_key. stable_auto. Qed.
#[local] Hint Resolve stable_read_record stable_update_record stable_push_record stable_get_active stable_ingress_key : stable.
Lemma stable_append_validator a k i eg f x y : st (append_validator a k i eg f x y).
Proof. unfold append_validator, validator_count, write_pubkey_index, write_address_index. stable_auto. Qed.
Lemma stable_update_ingress a b : st (update_ingress_ip_tracking a b).
Proof. unfold update_ingress_ip_tracking, ingress_used, free_ingress, mark_ingress. stable_auto. Qed.
Lemma stable_verify_signature k p s a i eg : st (verify_validator_signature k p s a i eg).
Proof. unfold verify_validator_signature, length_byte. stable_auto. Qed.
Lemma stable_migration_owner a : st (require_migration_owner a).
Proof.
  unfold require_migration_owner, read_config, require_not_init, ValidatorConfig.validator_count, write_config, require_owner.
  stable_auto.
Qed.
Lemma stable_require_new a k : st (require_new_address a) ∧ st (require_new_pubkey k).
Proof. unfold require_new_address, address_taken, address_index, require_new_pubkey, pubkey_index. split; stable_auto. Qed.
#[local] Hint Resolve stable_append_validator stable_update_ingress stable_verify_signature stable_migration_owner : stable.

Lemma stable_v2 a o : st (ValidatorConfigV2.dispatch a o).
Proof.
  pose proof (λ a, proj1 (stable_require_new a 0)). pose proof (λ k, proj2 (stable_require_new 0 k)).
  unfold ValidatorConfigV2.dispatch. repeat stable_step.
  destruct o; unfold run_op; unfold add_validator, deactivate_validator, rotate_validator, set_fee_recipient,
    set_ip_addresses, transfer_validator_ownership, transfer_ownership, set_network_identity_rotation_epoch,
    migrate_validator, initialize_if_migrated, skip_migration, read_config, write_config, require_init, require_owner,
    require_owner_or_validator, validate_endpoints, require_unique_ingress, ingress_used, mark_ingress, free_ingress,
    write_record, write_pubkey_index, write_address_index, validator_count, pubkey_index, address_taken, address_index,
    ValidatorConfig.get_validators_array, ValidatorConfig.validator_at, ValidatorConfig.get_validator,
    ValidatorConfig.get_next_full_dkg_ceremony.
  all: stable_auto.
Qed.

Lemma stable_validators a o : st (Validators.exec a o).
Proof.
  destruct o; unfold Validators.exec; [unfold ValidatorConfig.initialize; stable_auto| |apply stable_v1|apply stable_v2].
  unfold ValidatorConfigV2.initialize, write_config. stable_auto.
Qed.
End frame.
#[export] Hint Resolve stable_validators : stable.
