(* ===== verification/Tip403.v ===== *)
(** * The TIP-403 policy registry

    [crates/precompiles/src/tip403_registry/mod.rs]: transfer policies (TIP-403),
    compound policies (TIP-1015), receive policies (TIP-1028) and token policy
    bindings (TIP-1092). *)

From S2P Require Import Prelude Hardfork Address Errors State Monad Tip20Base.

Module Policies.
Import TIP403.

Definition REJECT_ALL_POLICY_ID : N := 0.
Definition ALLOW_ALL_POLICY_ID : N := 1.
Definition RECOVERY_ORIGINATOR : Address := ZERO_ADDRESS.

Definition ALWAYS_AUTHORIZED : list (TempoHardfork * list Address) :=
  [(T6, [RECEIVE_POLICY_GUARD_ADDRESS])].

Inductive PolicyType := WHITELIST | BLACKLIST | COMPOUND | Invalid.
Inductive BlockedReason := NONE | TOKEN_FILTER | RECEIVE_POLICY.
Inductive AuthRole := Transfer | Sender | Recipient | MintRecipient.

(** [*self as u8]; the ABI's [__Invalid] is 255. *)
Definition policy_type_u8 (t : PolicyType) : N :=
  match t with WHITELIST => 0 | BLACKLIST => 1 | COMPOUND => 2 | Invalid => 255 end.
(** [PolicyType::try_from(u8)]. *)
Definition policy_type_try_from (n : N) : option PolicyType :=
  match n with 0 => Some WHITELIST | 1 => Some BLACKLIST | 2 => Some COMPOUND | _ => None end.

Definition is_whitelist (t : PolicyType) : bool :=
  match t with WHITELIST => true | _ => false end.
Definition is_blacklist (t : PolicyType) : bool :=
  match t with BLACKLIST => true | _ => false end.
Definition ty_is_compound (t : PolicyType) : bool :=
  match t with COMPOUND => true | _ => false end.

Abbreviation e403 x := (TIP403Registry x) (only parsing).

(** [PolicyData::policy_type()]. *)
Definition decode_policy_type (d : PolicyData.t) : M PolicyType :=
  sp ← asks spec;
  let is_t2 := is_t2 sp in
  let err := if is_t2 then e403 TIP403RegistryError.InvalidPolicyType else under_overflow in
  match policy_type_try_from d.(PolicyData.policy_type) with
  | Some ty => if is_t2 || negb (ty_is_compound ty) then mret ty else throw err
  | None => throw err
  end.

Definition is_simple (d : PolicyData.t) : bool :=
  (d.(PolicyData.policy_type) =? policy_type_u8 WHITELIST)
  || (d.(PolicyData.policy_type) =? policy_type_u8 BLACKLIST).
Definition is_compound (d : PolicyData.t) : bool :=
  d.(PolicyData.policy_type) =? policy_type_u8 COMPOUND.
Definition is_default (d : PolicyData.t) : bool :=
  (d.(PolicyData.policy_type) =? 0) && is_zero d.(PolicyData.admin).

Definition sender_policy_data (c : ReceivePolicyConfig.t) : PolicyData.t :=
  PolicyData.mk c.(ReceivePolicyConfig.sender_policy_type) ZERO_ADDRESS.
Definition token_filter_data (c : ReceivePolicyConfig.t) : PolicyData.t :=
  PolicyData.mk c.(ReceivePolicyConfig.token_filter_type) ZERO_ADDRESS.

(** The counter skips the built-in ids. *)
Definition next_id (s : State) : N := N.max s.(policy_id_counter) 2.
Definition read_policy_id_counter : M N := rd tip403C next_id.

Definition builtin_authorization (policy_id : N) : option bool :=
  if policy_id =? ALLOW_ALL_POLICY_ID then Some true
  else if policy_id =? REJECT_ALL_POLICY_ID then Some false
  else None.

Definition policy_exists (policyId : N) : M bool :=
  match builtin_authorization policyId with
  | Some _ => mret true
  | None =>
      counter ← read_policy_id_counter;
      mret (policyId <? counter)
  end.

Definition registered_token_transfer_policy_id (token : Address) : M (option N) :=
  binding ← rd tip403C (λ s, s.(token_transfer_policies).[token]);
  mret (if binding.(TokenTransferPolicy.is_set)
        then Some binding.(TokenTransferPolicy.policy_id) else None).

Definition token_transfer_policy_id (token : Address) : M (bool * N) :=
  deployed ← is_tip20 token;
  require deployed (TIP20 TIP20Error.InvalidToken) ;;
  registered ← registered_token_transfer_policy_id token;
  match registered with
  | Some policy_id => mret (true, policy_id)
  | None =>
      from_address token ;;
      policy_id ← legacy_transfer_policy_id token;
      mret (false, policy_id)
  end.

Definition set_token_transfer_policy (token : Address) (policy_id : N) : M () :=
  wr tip403C (set_token_transfer_policies
    (insert token (TokenTransferPolicy.mk policy_id true))).

Fixpoint migrate_loop (tokens : list Address) (migrated : N) : M N :=
  match tokens with
  | [] => mret migrated
  | token :: tokens' =>
      deployed ← is_tip20 token;
      if negb (deployed : bool) then migrate_loop tokens' migrated
      else
        registered ← registered_token_transfer_policy_id token;
        match registered with
        | Some _ => migrate_loop tokens' migrated
        | None =>
            from_address token ;;
            policy_id ← legacy_transfer_policy_id token;
            set_token_transfer_policy token policy_id ;;
            delete_legacy_transfer_policy_id token ;;
            migrate_loop tokens' (migrated + 1)
        end
  end.
Definition migrate_transfer_policy_ids (tokens : list Address) : M N :=
  migrate_loop tokens 0.

Definition get_policy_data (policy_id : N) : M PolicyData.t :=
  data ← rd tip403C (λ s, s.(policy_records).[policy_id].(PolicyRecord.base));
  sp ← asks spec;
  counter ← read_policy_id_counter;
  if is_t2 sp && is_default data && (counter <=? policy_id)
  then throw (e403 TIP403RegistryError.PolicyNotFound)
  else mret data.

Definition policy_data (policyId : N) : M (PolicyType * Address) :=
  sp ← asks spec;
  if is_t2 sp && bool_decide (is_Some (builtin_authorization policyId)) then
    ty ← ok_or (policy_type_try_from policyId) (e403 TIP403RegistryError.InvalidPolicyType);
    mret (ty, ZERO_ADDRESS)
  else
    (if is_t2 sp then mret ()
     else exists_ ← policy_exists policyId;
          require exists_ (e403 TIP403RegistryError.PolicyNotFound)) ;;
    data ← get_policy_data policyId;
    ty ← decode_policy_type data;
    mret (ty, data.(PolicyData.admin)).

Definition compound_policy_data (policyId : N) : M CompoundPolicyData.t :=
  data ← get_policy_data policyId;
  if negb (is_compound data) then
    exists_ ← policy_exists policyId;
    throw (e403 (if exists_ : bool then TIP403RegistryError.IncompatiblePolicyType
                 else TIP403RegistryError.PolicyNotFound))
  else rd tip403C (λ s, s.(policy_records).[policyId].(PolicyRecord.compound)).

(** ** Authorization *)

Definition is_authorized_simple_inner (policy_id : N) (user : Address)
    (data : PolicyData.t) : M bool :=
  is_in_set ← rd tip403C (λ s, s.(policy_set).[(policy_id, user)]);
  ty ← decode_policy_type data;
  match ty with
  | WHITELIST => mret is_in_set
  | BLACKLIST => mret (negb is_in_set)
  | COMPOUND | Invalid => throw (e403 TIP403RegistryError.IncompatiblePolicyType)
  end.

Definition is_authorized_simple (policy_id : N) (user : Address)
    (cache : option PolicyData.t) : M bool :=
  match builtin_authorization policy_id with
  | Some auth => mret auth
  | None =>
      data ← match cache with
             | Some data => mret data
             | None => get_policy_data policy_id
             end;
      is_authorized_simple_inner policy_id user data
  end.

Definition always_authorized (hardfork : TempoHardfork) (user : Address) : bool :=
  existsb (λ p, since hardfork p.1 && existsb (N.eqb user) p.2) ALWAYS_AUTHORIZED.

Definition is_authorized_as (policy_id : N) (user : Address) (role : AuthRole) : M bool :=
  hardfork ← asks spec;
  if always_authorized hardfork user then mret true
  else match builtin_authorization policy_id with
  | Some auth => mret auth
  | None =>
      data ← get_policy_data policy_id;
      if is_compound data then
        compound ← rd tip403C (λ s, s.(policy_records).[policy_id].(PolicyRecord.compound));
        match role with
        | Sender =>
            is_authorized_simple compound.(CompoundPolicyData.sender_policy_id) user None
        | Recipient =>
            is_authorized_simple compound.(CompoundPolicyData.recipient_policy_id) user None
        | MintRecipient =>
            is_authorized_simple compound.(CompoundPolicyData.mint_recipient_policy_id) user None
        | Transfer =>
            sender_auth ←
              is_authorized_simple compound.(CompoundPolicyData.sender_policy_id) user None;
            if is_t2 hardfork && negb sender_auth then mret false
            else
              recipient_auth ←
                is_authorized_simple compound.(CompoundPolicyData.recipient_policy_id) user None;
              mret (sender_auth && recipient_auth)
        end
      else is_authorized_simple_inner policy_id user data
  end.

(** [AuthRole::sender()], [recipient()], [mint_recipient()]. *)
Definition transfer_or (t2_variant : AuthRole) : M AuthRole :=
  sp ← asks spec; mret (if is_t2 sp then t2_variant else Transfer).

Definition is_policy_lookup_error (sp : TempoHardfork) (x : TempoPrecompileError) : bool :=
  match x with
  | TIP403Registry TIP403RegistryError.InvalidPolicyType
  | TIP403Registry TIP403RegistryError.PolicyNotFound => is_t2 sp
  | Panic UnderOverflow => negb (is_t2 sp)
  | _ => false
  end.

(** ** Receive policies *)

Definition receive_policy_recovery (account : Address) (mode : RecoveryMode) : M Address :=
  match mode with
  | Originator => mret RECOVERY_ORIGINATOR
  | Receiver => mret account
  | ThirdParty => rd tip403C (λ s, s.(receive_policies).[account].(ReceivePolicy.recovery_address))
  end.

Definition receive_policy (account : Address)
    : M (bool * N * PolicyType * N * PolicyType * Address) :=
  config ← rd tip403C (λ s, s.(receive_policies).[account].(ReceivePolicy.config));
  sty ← ok_or (policy_type_try_from config.(ReceivePolicyConfig.sender_policy_type))
    (e403 TIP403RegistryError.InvalidReceivePolicyType);
  tty ← ok_or (policy_type_try_from config.(ReceivePolicyConfig.token_filter_type))
    (e403 TIP403RegistryError.InvalidReceivePolicyType);
  recovery ← receive_policy_recovery account config.(ReceivePolicyConfig.recovery_mode);
  mret (config.(ReceivePolicyConfig.has_receive_policy),
        config.(ReceivePolicyConfig.sender_policy_id), sty,
        config.(ReceivePolicyConfig.token_filter_id), tty, recovery).

Definition check_receive_policy (token sender receiver : Address)
    : M (option (BlockedReason * Address)) :=
  config ← rd tip403C (λ s, s.(receive_policies).[receiver].(ReceivePolicy.config));
  if negb config.(ReceivePolicyConfig.has_receive_policy) then mret None
  else
    token_ok ← is_authorized_simple config.(ReceivePolicyConfig.token_filter_id) token
                 (Some (token_filter_data config));
    if negb token_ok then
      recovery ← receive_policy_recovery receiver config.(ReceivePolicyConfig.recovery_mode);
      mret (Some (TOKEN_FILTER, recovery))
    else
      sender_ok ← is_authorized_simple config.(ReceivePolicyConfig.sender_policy_id) sender
                    (Some (sender_policy_data config));
      if negb sender_ok then
        recovery ← receive_policy_recovery receiver config.(ReceivePolicyConfig.recovery_mode);
        mret (Some (RECEIVE_POLICY, recovery))
      else mret None.

Definition validate_receive_policy (token sender receiver : Address)
    : M (option BlockedReason) :=
  r ← check_receive_policy token sender receiver;
  mret (fst <$> r).

(** ** State changes *)

(** [PolicyType::ensure_is_simple]. *)
Definition ensure_is_simple (t : PolicyType) : M N :=
  match t with
  | WHITELIST | BLACKLIST => mret (policy_type_u8 t)
  | COMPOUND | Invalid =>
      sp ← asks spec;
      if is_t2 sp then throw (e403 TIP403RegistryError.IncompatiblePolicyType)
      else mret (policy_type_u8 Invalid)
  end.

Definition set_policy_data (policy_id : N) (data : PolicyData.t) : M () :=
  wr tip403C (set_policy_records (λ m,
    <[policy_id := PolicyRecord.mk data m.[policy_id].(PolicyRecord.compound)]> m)).

Definition write_policy_set (policy_id : N) (account : Address) (value : bool) : M () :=
  wr tip403C (set_policy_set (insert (policy_id, account) value)).

Definition emit403 (ev : TIP403RegistryEvent.t) : M () :=
  emit TIP403_REGISTRY_ADDRESS (TIP403Ev ev).

(** Claim the next policy id. *)
Definition allocate_policy_id : M N :=
  new_policy_id ← read_policy_id_counter;
  next ← ok_or (checked_add U64_MAX new_policy_id 1) under_overflow;
  wr tip403C (set_policy_id_counter (λ _, next)) ;;
  mret new_policy_id.

Definition create_policy (msg_sender admin : Address) (policyType : PolicyType) : M N :=
  policy_type ← ensure_is_simple policyType;
  new_policy_id ← allocate_policy_id;
  set_policy_data new_policy_id (PolicyData.mk policy_type admin) ;;
  emit403 (TIP403RegistryEvent.PolicyCreated new_policy_id msg_sender policy_type) ;;
  emit403 (TIP403RegistryEvent.PolicyAdminUpdated new_policy_id msg_sender admin) ;;
  mret new_policy_id.

(** The initial member loop of [create_policy_with_accounts]. *)
Definition add_initial_account (msg_sender : Address) (policyType : PolicyType)
    (new_policy_id : N) (account : Address) : M () :=
  write_policy_set new_policy_id account true ;;
  match policyType with
  | WHITELIST =>
      emit403 (TIP403RegistryEvent.WhitelistUpdated new_policy_id msg_sender account true)
  | BLACKLIST =>
      emit403 (TIP403RegistryEvent.BlacklistUpdated new_policy_id msg_sender account true)
  | COMPOUND | Invalid => throw (e403 TIP403RegistryError.IncompatiblePolicyType)
  end.

Definition create_policy_with_accounts (msg_sender admin : Address)
    (policyType : PolicyType) (accounts : list Address) : M N :=
  policy_type ← ensure_is_simple policyType;
  sp ← asks spec;
  require (negb (is_t3 sp && existsb is_virtual accounts))
    (e403 TIP403RegistryError.VirtualAddressNotAllowed) ;;
  new_policy_id ← allocate_policy_id;
  set_policy_data new_policy_id (PolicyData.mk policy_type admin) ;;
  mfor accounts (add_initial_account msg_sender policyType new_policy_id) ;;
  emit403 (TIP403RegistryEvent.PolicyCreated new_policy_id msg_sender policy_type) ;;
  emit403 (TIP403RegistryEvent.PolicyAdminUpdated new_policy_id msg_sender admin) ;;
  mret new_policy_id.

Definition set_policy_admin (msg_sender : Address) (policyId : N) (admin : Address) : M () :=
  data ← get_policy_data policyId;
  require (data.(PolicyData.admin) =? msg_sender) (e403 TIP403RegistryError.Unauthorized) ;;
  set_policy_data policyId (PolicyData.mk data.(PolicyData.policy_type) admin) ;;
  emit403 (TIP403RegistryEvent.PolicyAdminUpdated policyId msg_sender admin).

Definition modify_policy_whitelist (msg_sender : Address) (policyId : N)
    (account : Address) (allowed : bool) : M () :=
  sp ← asks spec;
  require (negb (is_t3 sp && is_virtual account))
    (e403 TIP403RegistryError.VirtualAddressNotAllowed) ;;
  data ← get_policy_data policyId;
  require (data.(PolicyData.admin) =? msg_sender) (e403 TIP403RegistryError.Unauthorized) ;;
  ty ← decode_policy_type data;
  require (is_whitelist ty) (e403 TIP403RegistryError.IncompatiblePolicyType) ;;
  write_policy_set policyId account allowed ;;
  emit403 (TIP403RegistryEvent.WhitelistUpdated policyId msg_sender account allowed).

Definition modify_policy_blacklist (msg_sender : Address) (policyId : N)
    (account : Address) (restricted : bool) : M () :=
  sp ← asks spec;
  require (negb (is_t3 sp && is_virtual account))
    (e403 TIP403RegistryError.VirtualAddressNotAllowed) ;;
  data ← get_policy_data policyId;
  require (data.(PolicyData.admin) =? msg_sender) (e403 TIP403RegistryError.Unauthorized) ;;
  ty ← decode_policy_type data;
  require (is_blacklist ty) (e403 TIP403RegistryError.IncompatiblePolicyType) ;;
  write_policy_set policyId account restricted ;;
  emit403 (TIP403RegistryEvent.BlacklistUpdated policyId msg_sender account restricted).

Definition validate_simple_policy (policy_id : N) : M () :=
  match builtin_authorization policy_id with
  | Some _ => mret ()
  | None =>
      counter ← read_policy_id_counter;
      require (policy_id <? counter) (e403 TIP403RegistryError.PolicyNotFound) ;;
      data ← get_policy_data policy_id;
      require (is_simple data) (e403 TIP403RegistryError.PolicyNotSimple)
  end.

Definition create_compound_policy (msg_sender : Address)
    (senderPolicyId recipientPolicyId mintRecipientPolicyId : N) : M N :=
  validate_simple_policy senderPolicyId ;;
  validate_simple_policy recipientPolicyId ;;
  validate_simple_policy mintRecipientPolicyId ;;
  new_policy_id ← allocate_policy_id;
  wr tip403C (set_policy_records (insert new_policy_id
    (PolicyRecord.mk (PolicyData.mk (policy_type_u8 COMPOUND) ZERO_ADDRESS)
      (CompoundPolicyData.mk senderPolicyId recipientPolicyId mintRecipientPolicyId)))) ;;
  emit403 (TIP403RegistryEvent.CompoundPolicyCreated new_policy_id msg_sender
    senderPolicyId recipientPolicyId mintRecipientPolicyId) ;;
  mret new_policy_id.

Definition validate_receive_policy_id (policy_id : N) : M N :=
  match builtin_authorization policy_id with
  | Some _ => mret policy_id
  | None =>
      counter ← read_policy_id_counter;
      require (policy_id <? counter) (e403 TIP403RegistryError.PolicyNotFound) ;;
      data ← get_policy_data policy_id;
      require (is_simple data) (e403 TIP403RegistryError.InvalidReceivePolicyType) ;;
      mret data.(PolicyData.policy_type)
  end.

(** [RecoveryMode::encode]. *)
Definition encode_recovery (authority msg_sender : Address) : RecoveryMode * Address :=
  if authority =? RECOVERY_ORIGINATOR then (Originator, ZERO_ADDRESS)
  else if authority =? msg_sender then (Receiver, ZERO_ADDRESS)
  else (ThirdParty, authority).

Definition set_receive_policy (msg_sender : Address)
    (senderPolicyId tokenFilterId : N) (recoveryAuthority : Address) : M () :=
  require (negb (is_virtual msg_sender)) (e403 TIP403RegistryError.VirtualAddressNotAllowed) ;;
  let '(recovery_mode, recovery_write) := encode_recovery recoveryAuthority msg_sender in
  sp ← asks spec;
  require (negb (is_precompile recoveryAuthority sp || is_virtual recoveryAuthority))
    (e403 TIP403RegistryError.InvalidRecoveryAuthority) ;;
  sender_policy_type ← validate_receive_policy_id senderPolicyId;
  token_filter_type ← validate_receive_policy_id tokenFilterId;
  let config := ReceivePolicyConfig.mk true senderPolicyId sender_policy_type
                  tokenFilterId token_filter_type recovery_mode in
  wr tip403C (set_receive_policies (insert msg_sender
    (ReceivePolicy.mk config recovery_write))) ;;
  emit403 (TIP403RegistryEvent.ReceivePolicyUpdated msg_sender senderPolicyId
    tokenFilterId recoveryAuthority).

(** ** Dispatch of the state-changing selectors *)

Inductive op :=
| CreatePolicy (admin : Address) (ty : PolicyType)
| CreatePolicyWithAccounts (admin : Address) (ty : PolicyType) (accounts : list Address)
| SetPolicyAdmin (id : N) (admin : Address)
| ModifyPolicyWhitelist (id : N) (account : Address) (allowed : bool)
| ModifyPolicyBlacklist (id : N) (account : Address) (restricted : bool)
| CreateCompoundPolicy (s r m : N)
| SetReceivePolicy (s t : N) (recovery : Address)
| MigrateTransferPolicyIds (tokens : list Address).

Definition dispatch (msg_sender : Address) (o : op) : M () :=
  match o with
  | CreatePolicy a t => mutate (create_policy msg_sender a t ;; mret ())
  | CreatePolicyWithAccounts a t l =>
      mutate (create_policy_with_accounts msg_sender a t l ;; mret ())
  | SetPolicyAdmin i a => mutate (set_policy_admin msg_sender i a)
  | ModifyPolicyWhitelist i a b => mutate (modify_policy_whitelist msg_sender i a b)
  | ModifyPolicyBlacklist i a b => mutate (modify_policy_blacklist msg_sender i a b)
  | CreateCompoundPolicy s r m =>
      scheduled T2 (mutate (create_compound_policy msg_sender s r m ;; mret ()))
  | SetReceivePolicy s t r => scheduled T6 (mutate (set_receive_policy msg_sender s t r))
  | MigrateTransferPolicyIds l =>
      scheduled T9 (mutate (migrate_transfer_policy_ids l ;; mret ()))
  end.

End Policies.
