(* ===== verification/Tip403Spec.v ===== *)
(** * What the policy registry promises

    An abstract step relation for the registry, the invariant of its storage, the
    meaning of a policy as a predicate on accounts, and the theorems that the
    executable definitions of [Tip403.v] implement them. *)

From S2P Require Import Prelude Hardfork Address Errors State Monad Tip20Base Tip403.

Module PolicySpec.
Import TIP403 Policies.

Abbreviation base_of s id := (s.(policy_records).[id].(PolicyRecord.base)).
Abbreviation compound_of s id := (s.(policy_records).[id].(PolicyRecord.compound)).
Abbreviation type_of s id := ((base_of s id).(PolicyData.policy_type)).
Abbreviation admin_of s id := ((base_of s id).(PolicyData.admin)).

(** A reference that is always safe to evaluate as a simple policy. *)
Definition simple_ref (s : State) (id : N) : Prop :=
  id < 2 ∨ (id < next_id s ∧ is_simple (base_of s id) = true).

(** A cached policy type that agrees with the policy it was taken from. *)
Definition cached_ref (s : State) (id ty : N) : Prop :=
  (id < 2 ∧ ty = id) ∨
  (2 ≤ id ∧ id < next_id s ∧ type_of s id = ty ∧ is_simple (base_of s id) = true).

Definition compound_ok (s : State) (c : CompoundPolicyData.t) : Prop :=
  simple_ref s c.(CompoundPolicyData.sender_policy_id) ∧
  simple_ref s c.(CompoundPolicyData.recipient_policy_id) ∧
  simple_ref s c.(CompoundPolicyData.mint_recipient_policy_id).

Definition config_ok (s : State) (c : ReceivePolicyConfig.t) : Prop :=
  c.(ReceivePolicyConfig.has_receive_policy) = true →
  cached_ref s c.(ReceivePolicyConfig.sender_policy_id)
               c.(ReceivePolicyConfig.sender_policy_type) ∧
  cached_ref s c.(ReceivePolicyConfig.token_filter_id)
               c.(ReceivePolicyConfig.token_filter_type).

Record wf (s : State) : Prop := {
  wf_fresh_record : ∀ id, next_id s ≤ id → s.(policy_records).[id] = dflt;
  wf_fresh_set : ∀ id a, next_id s ≤ id → s.(policy_set).[(id, a)] = false;
  wf_compound : ∀ id, is_compound (base_of s id) = true → compound_ok s (compound_of s id);
  wf_receive : ∀ a, config_ok s s.(receive_policies).[a].(ReceivePolicy.config)
}.

(** ** The abstract step relation *)

Inductive step (sender : Address) (s : State) : State → Prop :=
| step_create rec (accounts : list Address) s' :
    (is_compound rec.(PolicyRecord.base) = true → compound_ok s rec.(PolicyRecord.compound)) →
    s'.(policy_id_counter) = next_id s + 1 →
    s'.(policy_records) = <[next_id s := rec]> s.(policy_records) →
    (∀ id a, s'.(policy_set).[(id, a)] =
       if decide (id = next_id s ∧ a ∈ accounts) then true else s.(policy_set).[(id, a)]) →
    s'.(receive_policies) = s.(receive_policies) →
    step sender s s'
| step_admin id admin :
    admin_of s id = sender →
    step sender s (set_policy_records (insert id
      (PolicyRecord.mk (PolicyData.mk (type_of s id) admin) (compound_of s id))) s)
| step_member id a b :
    admin_of s id = sender → is_simple (base_of s id) = true →
    step sender s (set_policy_set (insert (id, a) b) s)
| step_receive config recovery :
    config_ok s config →
    step sender s (set_receive_policies (insert sender (ReceivePolicy.mk config recovery)) s)
| step_bind s' :
    s'.(policy_id_counter) = s.(policy_id_counter) →
    s'.(policy_records) = s.(policy_records) →
    s'.(policy_set) = s.(policy_set) →
    s'.(receive_policies) = s.(receive_policies) →
    step sender s s'.

(** ** The operations refine the step relation *)

Lemma get_policy_data_Ok id e w d w' :
  get_policy_data id e w = (Ok d, w') → d = base_of (w_tip403 w) id ∧ w' = w.
Proof. unfold get_policy_data, read_policy_id_counter. intros H. by m_inv. Qed.

Lemma decode_policy_type_Ok d e w ty w' :
  decode_policy_type d e w = (Ok ty, w') →
  policy_type_try_from d.(PolicyData.policy_type) = Some ty ∧ w' = w.
Proof. unfold decode_policy_type. intros H. m_inv. by simplify_eq. Qed.

Lemma policy_type_simple d ty :
  policy_type_try_from d.(PolicyData.policy_type) = Some ty →
  ty = WHITELIST ∨ ty = BLACKLIST → is_simple d = true.
Proof.
  unfold is_simple, policy_type_try_from. intros H [-> | ->];
    destruct (PolicyData.policy_type d) as [|[[]|[]|]]; by simplify_eq.
Qed.

Lemma builtin_lt id : builtin_authorization id = None ↔ 2 ≤ id.
Proof.
  unfold builtin_authorization, ALLOW_ALL_POLICY_ID, REJECT_ALL_POLICY_ID.
  destruct (N.eqb_spec id 1), (N.eqb_spec id 0); split; intros; try done; lia.
Qed.

Lemma builtin_Some_lt id b : builtin_authorization id = Some b → id < 2.
Proof.
  intros H. destruct (N.lt_ge_cases id 2) as [|Hge]; [done|].
  apply builtin_lt in Hge. congruence.
Qed.

Lemma validate_simple_policy_Ok id e w u w' :
  validate_simple_policy id e w = (Ok u, w') → simple_ref (w_tip403 w) id ∧ w' = w.
Proof.
  unfold validate_simple_policy, read_policy_id_counter. intros H. m_inv.
  - split; [|done]. left. by eapply builtin_Some_lt.
  - match goal with H : get_policy_data _ _ _ = _ |- _ =>
      apply get_policy_data_Ok in H as [-> ->] end.
    bool_simpl. split; [|done]. by right.
Qed.

Lemma validate_receive_policy_id_Ok id e w ty w' :
  validate_receive_policy_id id e w = (Ok ty, w') →
  cached_ref (w_tip403 w) id ty ∧ w' = w.
Proof.
  unfold validate_receive_policy_id, read_policy_id_counter. intros H. m_inv.
  - split; [|done]. left. split; [by eapply builtin_Some_lt|done].
  - match goal with H : get_policy_data _ _ _ = _ |- _ =>
      apply get_policy_data_Ok in H as [-> ->] end.
    bool_simpl. split; [|done]. right. split; [by apply builtin_lt|done].
Qed.

Lemma ensure_is_simple_Ok ty e w n w' :
  ensure_is_simple ty e w = (Ok n, w') → n ≠ policy_type_u8 COMPOUND ∧ w' = w.
Proof. unfold ensure_is_simple. intros H. m_inv; simpl; done. Qed.

(** The member loop only sets the listed entries of the new policy. *)
Lemma add_accounts_Ok sender ty id accounts e w u w' :
  mfor accounts (add_initial_account sender ty id) e w = (Ok u, w') →
  let s := w_tip403 w in let s' := w_tip403 w' in
  s'.(policy_id_counter) = s.(policy_id_counter) ∧
  s'.(policy_records) = s.(policy_records) ∧
  s'.(receive_policies) = s.(receive_policies) ∧
  ∀ id' a, s'.(policy_set).[(id', a)] =
    if decide (id' = id ∧ a ∈ accounts) then true else s.(policy_set).[(id', a)].
Proof.
  revert w. induction accounts as [|x l IH]; intros w H; simpl in H.
  - m_inv. split_and!; [done..|]. intros id' acc. rewrite decide_False; [done|set_solver].
  - m_inv. apply IH in H as (Hc & Hr & Hrp & Hs).
    assert (w_tip403 w0 = set_policy_set (insert (id, x) true) (w_tip403 w)) as E.
    { unfold add_initial_account, write_policy_set, emit403 in Hrun. by m_inv. }
    rewrite E in *. w_simpl. split_and!; [done..|].
    intros id' acc. rewrite Hs, sread_insert.
    generalize ((policy_set (w_tip403 w)).[(id', acc)]). clear. intros b.
    repeat case_decide; set_solver.
Qed.

Lemma allocate_policy_id_Ok e w id w' :
  allocate_policy_id e w = (Ok id, w') →
  id = next_id (w_tip403 w) ∧
  w_tip403 w' = set_policy_id_counter (λ _, id + 1) (w_tip403 w).
Proof.
  unfold allocate_policy_id, read_policy_id_counter. intros H. m_inv. by checked_simpl; subst.
Qed.

Lemma create_policy_step sender admin ty e w id w' :
  create_policy sender admin ty e w = (Ok id, w') →
  step sender (w_tip403 w) (w_tip403 w').
Proof.
  unfold create_policy, set_policy_data, emit403. intros H. m_inv.
  apply ensure_is_simple_Ok in Hrun as [Hty ->].
  apply allocate_policy_id_Ok in Hrun0 as [-> E]. rewrite E. w_simpl.
  eapply (step_create _ _ _ []); w_simpl; try done.
  - unfold is_compound. simpl. intros ?%N.eqb_eq. done.
  - intros ? ?. rewrite decide_False; [done|set_solver].
Qed.

Lemma create_policy_with_accounts_step sender admin ty accounts e w id w' :
  create_policy_with_accounts sender admin ty accounts e w = (Ok id, w') →
  step sender (w_tip403 w) (w_tip403 w').
Proof.
  unfold create_policy_with_accounts, set_policy_data, emit403. intros H. m_inv.
  apply ensure_is_simple_Ok in Hrun as [Hty ->].
  apply allocate_policy_id_Ok in Hrun2 as [-> E].
  apply add_accounts_Ok in Hrun4 as (Hc & Hr & Hrp & Hs). w_simpl. rewrite E in *. w_simpl.
  eapply (step_create _ _ _ accounts); w_simpl; try done.
  unfold is_compound. simpl. intros ?%N.eqb_eq. done.
Qed.

Lemma create_compound_policy_step sender s r m e w id w' :
  create_compound_policy sender s r m e w = (Ok id, w') →
  step sender (w_tip403 w) (w_tip403 w').
Proof.
  unfold create_compound_policy, emit403. intros H. m_inv.
  apply validate_simple_policy_Ok in Hrun as [? ->].
  apply validate_simple_policy_Ok in Hrun0 as [? ->].
  apply validate_simple_policy_Ok in Hrun1 as [? ->].
  apply allocate_policy_id_Ok in Hrun2 as [-> E]. rewrite E. w_simpl.
  eapply (step_create _ _ _ []); w_simpl; try done.
  - intros _. by split_and!.
  - intros ? ?. rewrite decide_False; [done|set_solver].
Qed.

Lemma set_policy_admin_step sender id admin e w u w' :
  set_policy_admin sender id admin e w = (Ok u, w') →
  step sender (w_tip403 w) (w_tip403 w').
Proof.
  unfold set_policy_admin, set_policy_data, emit403. intros H. m_inv.
  apply get_policy_data_Ok in Hrun as [-> ->]. bool_simpl. by apply step_admin.
Qed.

Lemma modify_whitelist_step sender id a b e w u w' :
  modify_policy_whitelist sender id a b e w = (Ok u, w') →
  step sender (w_tip403 w) (w_tip403 w').
Proof.
  unfold modify_policy_whitelist, write_policy_set, emit403. intros H. m_inv.
  apply get_policy_data_Ok in Hrun1 as [-> ->].
  apply decode_policy_type_Ok in Hrun3 as [Hty ->]. bool_simpl.
  apply step_member; [done|]. eapply policy_type_simple; [done|]. by destruct a4; auto.
Qed.

Lemma modify_blacklist_step sender id a b e w u w' :
  modify_policy_blacklist sender id a b e w = (Ok u, w') →
  step sender (w_tip403 w) (w_tip403 w').
Proof.
  unfold modify_policy_blacklist, write_policy_set, emit403. intros H. m_inv.
  apply get_policy_data_Ok in Hrun1 as [-> ->].
  apply decode_policy_type_Ok in Hrun3 as [Hty ->]. bool_simpl.
  apply step_member; [done|]. eapply policy_type_simple; [done|]. by destruct a4; auto.
Qed.

Lemma set_receive_policy_step sender s t r e w u w' :
  set_receive_policy sender s t r e w = (Ok u, w') →
  step sender (w_tip403 w) (w_tip403 w').
Proof.
  unfold set_receive_policy, emit403. intros H. m_inv.
  apply validate_receive_policy_id_Ok in Hrun2 as [? ->].
  apply validate_receive_policy_id_Ok in Hrun3 as [? ->].
  by apply step_receive.
Qed.

(** The policy part of the storage, which token bindings do not touch. *)
Definition core (s : State) :=
  (s.(policy_id_counter), s.(policy_records), s.(policy_set), s.(receive_policies)).

Lemma stable_registered e R `{!PreOrder R} t :
  Stable e R (registered_token_transfer_policy_id t).
Proof. unfold registered_token_transfer_policy_id. stable_auto. Qed.
#[local] Hint Resolve stable_registered : stable.

Lemma migrate_loop_core tokens n e :
  Stable e (keeps (λ w, core (w_tip403 w))) (migrate_loop tokens n).
Proof.
  revert n. induction tokens as [|t l IH]; intros n; simpl; [stable_auto|].
  unfold set_token_transfer_policy, delete_legacy_transfer_policy_id.
  repeat (stable_step || apply IH).
Qed.

Lemma core_step sender s s' : core s' = core s → step sender s s'.
Proof. unfold core. intros [=]. by apply step_bind. Qed.

Lemma dispatch_step sender o e w u w' :
  Policies.dispatch sender o e w = (Ok u, w') → step sender (w_tip403 w) (w_tip403 w').
Proof.
  destruct o; simpl; intros H;
    repeat (apply scheduled_Ok in H as [_ H]); apply mutate_Ok in H as [_ H].
  - m_inv. by eapply create_policy_step.
  - m_inv. by eapply create_policy_with_accounts_step.
  - by eapply set_policy_admin_step.
  - by eapply modify_whitelist_step.
  - by eapply modify_blacklist_step.
  - m_inv. by eapply create_compound_policy_step.
  - by eapply set_receive_policy_step.
  - m_inv. apply core_step. by eapply (migrate_loop_core tokens 0).
Qed.

(** ** The invariant is inductive *)

(** Existing policies keep their type, and ids are never reclaimed. *)
Definition extends (s s' : State) : Prop :=
  next_id s ≤ next_id s' ∧ ∀ id, id < next_id s → type_of s' id = type_of s id.

#[export] Instance extends_preorder : PreOrder extends.
Proof.
  split; [by intros s; split|]. intros s1 s2 s3 [? H12] [? H23]. split; [lia|].
  intros id Hid. rewrite H23 by lia. by apply H12.
Qed.

Lemma simple_type d d' :
  d.(PolicyData.policy_type) = d'.(PolicyData.policy_type) → is_simple d = is_simple d'.
Proof. unfold is_simple. by intros ->. Qed.

Lemma extends_simple_ref s s' id : extends s s' → simple_ref s id → simple_ref s' id.
Proof.
  intros [Hn Ht] [?|[Hid Hs]]; [by left|]. right. split; [lia|].
  rewrite <- Hs. apply simple_type. by apply Ht.
Qed.

Lemma extends_cached_ref s s' id ty : extends s s' → cached_ref s id ty → cached_ref s' id ty.
Proof.
  intros [Hn Ht] [?|(? & Hid & Hty & Hs)]; [by left|]. right. split_and!; [done|lia| |].
  - by rewrite Ht.
  - rewrite <- Hs. apply simple_type. by apply Ht.
Qed.

Lemma extends_compound_ok s s' c : extends s s' → compound_ok s c → compound_ok s' c.
Proof. intros He (? & ? & ?). split_and!; by eapply extends_simple_ref. Qed.

Lemma extends_config_ok s s' c : extends s s' → config_ok s c → config_ok s' c.
Proof. intros He Hc Hh. destruct (Hc Hh). split; by eapply extends_cached_ref. Qed.

(** Only the admin of a policy is a non-zero account entitled to change it, so
    changed policies exist. *)
Lemma admin_exists s id sender :
  wf s → sender ≠ 0 → admin_of s id = sender → id < next_id s.
Proof.
  intros Hwf Hs Ha. destruct (N.lt_ge_cases id (next_id s)) as [|Hge]; [done|].
  rewrite (wf_fresh_record s Hwf id Hge) in Ha. by subst.
Qed.

Lemma next_id_ge s : 2 ≤ next_id s.
Proof. unfold next_id. lia. Qed.

Lemma next_id_create s s' :
  s'.(policy_id_counter) = next_id s + 1 → next_id s' = next_id s + 1.
Proof. unfold next_id. intros ->. lia. Qed.

Lemma step_extends sender s s' : step sender s s' → extends s s'.
Proof.
  destruct 1 as [rec accounts s' Hc Hn Hr Hs Hrp | id admin Ha | id a b Ha Hs
                | config recovery Hc | s' Hn Hr Hs Hrp].
  - apply next_id_create in Hn. split; [lia|]. intros id Hid. rewrite Hr.
    by rewrite sread_insert_ne by lia.
  - split; [done|]. intros id' _. simpl. rewrite sread_insert. by case_decide; subst.
  - by split.
  - by split.
  - unfold extends, next_id. by rewrite Hn, Hr.
Qed.

Lemma step_wf sender s s' : sender ≠ 0 → wf s → step sender s s' → wf s'.
Proof.
  intros Hs0 Hwf Hstep. pose proof (step_extends _ _ _ Hstep) as He.
  pose proof (wf_fresh_record s Hwf) as Hfr. pose proof (wf_fresh_set s Hwf) as Hfs.
  assert (∀ id, is_compound (base_of s id) = true → compound_ok s' (compound_of s id)) as Hco.
  { intros id Hid. eapply extends_compound_ok; [done|]. by apply Hwf. }
  assert (∀ a, config_ok s' s.(receive_policies).[a].(ReceivePolicy.config)) as Hcfg.
  { intros a. eapply extends_config_ok; [done|]. apply Hwf. }
  destruct Hstep as [rec accounts s' Hc Hn Hr Hs Hrp | id admin Ha | id a b Ha Hs
                | config recovery Hc | s' Hn Hr Hs Hrp].
  - apply next_id_create in Hn. split; rewrite ?Hn.
    + intros id Hid. rewrite Hr, sread_insert_ne by lia. apply Hfr. lia.
    + intros id a Hid. rewrite Hs, decide_False by lia. apply Hfs. lia.
    + intros id. rewrite Hr, sread_insert. case_decide; [|apply Hco].
      intros ?. eapply extends_compound_ok; [done|]. auto.
    + by rewrite Hrp.
  - pose proof (admin_exists s id sender Hwf Hs0 Ha) as Hid. split; [|done| |done].
    + intros id' Hid'. simpl. rewrite sread_insert_ne; [by apply Hfr|].
      unfold next_id in *. simpl in *. lia.
    + intros id'. simpl. rewrite sread_insert. case_decide; [|apply Hco].
      subst. simpl. intros Hcm. by apply Hco.
  - pose proof (admin_exists s id sender Hwf Hs0 Ha) as Hid. split; [done| |done..].
    intros id' a' Hid'. simpl. rewrite sread_insert_ne; [by apply Hfs|].
    unfold next_id in *. simpl in *. intros [= -> ->]. lia.
  - split; [done..|]. intros a. simpl. rewrite sread_insert. case_decide; [|apply Hcfg].
    by eapply extends_config_ok.
  - unfold next_id in *. split; unfold next_id; rewrite ?Hn, ?Hr, ?Hs, ?Hrp; done.
Qed.

(** ** The meaning of a policy *)

(** Does simple policy [id] admit [user]? *)
Definition simple_verdict (s : State) (id : N) (user : Address) : bool :=
  match builtin_authorization id with
  | Some b => b
  | None =>
      if type_of s id =? policy_type_u8 WHITELIST
      then s.(policy_set).[(id, user)] else negb s.(policy_set).[(id, user)]
  end.

Definition compound_verdict (s : State) (c : CompoundPolicyData.t) (user : Address)
    (role : AuthRole) : bool :=
  let sender := simple_verdict s c.(CompoundPolicyData.sender_policy_id) user in
  let recipient := simple_verdict s c.(CompoundPolicyData.recipient_policy_id) user in
  match role with
  | Sender => sender
  | Recipient => recipient
  | MintRecipient => simple_verdict s c.(CompoundPolicyData.mint_recipient_policy_id) user
  | Transfer => sender && recipient
  end.

Definition verdict (s : State) (id : N) (user : Address) (role : AuthRole)
    : outcome bool :=
  match builtin_authorization id with
  | Some b => Ok b
  | None =>
      if next_id s <=? id then Err (e403 TIP403RegistryError.PolicyNotFound)
      else match policy_type_try_from (type_of s id) with
           | Some WHITELIST | Some BLACKLIST => Ok (simple_verdict s id user)
           | Some COMPOUND => Ok (compound_verdict s (compound_of s id) user role)
           | Some Invalid | None => Err (e403 TIP403RegistryError.InvalidPolicyType)
           end
  end.

(** The inbound check on the policies themselves, with no cached types. *)
Definition receive_verdict (s : State) (token sender receiver : Address)
    : option (BlockedReason * Address) :=
  let rp := s.(receive_policies).[receiver] in
  let c := rp.(ReceivePolicy.config) in
  let recovery := match c.(ReceivePolicyConfig.recovery_mode) with
                  | Originator => RECOVERY_ORIGINATOR
                  | Receiver => receiver
                  | ThirdParty => rp.(ReceivePolicy.recovery_address)
                  end in
  if negb c.(ReceivePolicyConfig.has_receive_policy) then None
  else if negb (simple_verdict s c.(ReceivePolicyConfig.token_filter_id) token)
  then Some (TOKEN_FILTER, recovery)
  else if negb (simple_verdict s c.(ReceivePolicyConfig.sender_policy_id) sender)
  then Some (RECEIVE_POLICY, recovery)
  else None.

Ltac run_simpl :=
  unfold mbind, M_bind, mret, M_ret, rd, gets, asks, throw, require, ok_or; w_simpl.

Lemma policy_type_cases n :
  (n = 0 ∧ policy_type_try_from n = Some WHITELIST) ∨
  (n = 1 ∧ policy_type_try_from n = Some BLACKLIST) ∨
  (n = 2 ∧ policy_type_try_from n = Some COMPOUND) ∨
  (2 < n ∧ policy_type_try_from n = None).
Proof. destruct n as [|[[]|[]|]]; simpl; auto 10 with lia. Qed.

Lemma get_policy_data_run id e w :
  is_t2 (spec e) = true → wf (w_tip403 w) →
  get_policy_data id e w =
    (if next_id (w_tip403 w) <=? id then Err (e403 TIP403RegistryError.PolicyNotFound)
     else Ok (base_of (w_tip403 w) id), w).
Proof.
  intros Ht Hwf. unfold get_policy_data, read_policy_id_counter. run_simpl. rewrite Ht.
  destruct (N.leb_spec (next_id (w_tip403 w)) id) as [Hge|Hlt].
  - by rewrite (wf_fresh_record _ Hwf id Hge).
  - by rewrite andb_false_r.
Qed.

Lemma decode_policy_type_run d e w :
  is_t2 (spec e) = true →
  decode_policy_type d e w =
    (match policy_type_try_from d.(PolicyData.policy_type) with
     | Some ty => Ok ty
     | None => Err (e403 TIP403RegistryError.InvalidPolicyType)
     end, w).
Proof.
  intros Ht. unfold decode_policy_type. run_simpl. rewrite Ht.
  by destruct (policy_type_try_from _).
Qed.

Lemma simple_inner_run id user d e w :
  is_t2 (spec e) = true → 2 ≤ id → is_simple d = true →
  d.(PolicyData.policy_type) = type_of (w_tip403 w) id →
  is_authorized_simple_inner id user d e w = (Ok (simple_verdict (w_tip403 w) id user), w).
Proof.
  intros Ht Hid Hs Hty. unfold is_authorized_simple_inner. unfold mbind, M_bind. unfold rd, gets.
  rewrite decode_policy_type_run by done. w_simpl. unfold simple_verdict.
  rewrite (proj2 (builtin_lt id) Hid). unfold is_simple in Hs. rewrite Hty in *.
  destruct (policy_type_cases (type_of (w_tip403 w) id))
    as [[-> ->]|[[-> ->]|[[E _]|[E _]]]]; [done..| |].
  all: apply orb_true_iff in Hs as [Hs|Hs]; apply N.eqb_eq in Hs; rewrite Hs in E; done.
Qed.

Lemma simple_run id user e w :
  is_t2 (spec e) = true → wf (w_tip403 w) → simple_ref (w_tip403 w) id →
  is_authorized_simple id user None e w = (Ok (simple_verdict (w_tip403 w) id user), w).
Proof.
  intros Ht Hwf Href. unfold is_authorized_simple.
  destruct (builtin_authorization id) eqn:Hb; [unfold simple_verdict; by rewrite Hb|].
  apply builtin_lt in Hb. destruct Href as [?|[Hid Hs]]; [lia|].
  unfold mbind, M_bind. rewrite get_policy_data_run by done.
  destruct (N.leb_spec (next_id (w_tip403 w)) id); [lia|]. by apply simple_inner_run.
Qed.

Lemma cached_run id user ty e w :
  is_t2 (spec e) = true → cached_ref (w_tip403 w) id ty →
  is_authorized_simple id user (Some (PolicyData.mk ty ZERO_ADDRESS)) e w =
    (Ok (simple_verdict (w_tip403 w) id user), w).
Proof.
  intros Ht Href. unfold is_authorized_simple.
  destruct (builtin_authorization id) eqn:Hb; [unfold simple_verdict; by rewrite Hb|].
  apply builtin_lt in Hb. destruct Href as [[? ?]|(_ & Hid & Hty & Hs)]; [lia|].
  run_simpl. apply simple_inner_run; try done.
  rewrite <- Hs. by apply simple_type.
Qed.

(** Every role of a compound policy is decided by its sub-policies. *)
Lemma verdict_run id user role e w :
  is_t2 (spec e) = true → wf (w_tip403 w) → always_authorized (spec e) user = false →
  is_authorized_as id user role e w = (verdict (w_tip403 w) id user role, w).
Proof.
  intros Ht Hwf Ha. unfold is_authorized_as, verdict. run_simpl. rewrite Ha.
  destruct (builtin_authorization id) eqn:Hb; [done|].
  rewrite get_policy_data_run by done. destruct (next_id _ <=? id); [done|].
  apply builtin_lt in Hb. unfold is_compound.
  destruct (policy_type_cases (type_of (w_tip403 w) id))
    as [[E ->]|[[E ->]|[[E ->]|[E Etf]]]].
  - rewrite E. simpl. apply simple_inner_run; try done. unfold is_simple. by rewrite E.
  - rewrite E. simpl. apply simple_inner_run; try done. unfold is_simple. by rewrite E.
  - rewrite E. simpl. destruct (wf_compound _ Hwf id) as (Hs & Hr & Hm).
    { unfold is_compound. by rewrite E. }
    destruct role; cbn; rewrite ?simple_run by done; try done. rewrite Ht.
    destruct (simple_verdict _ _ user); [|done]. simpl. by rewrite simple_run.
  - destruct (N.eqb_spec (type_of (w_tip403 w) id) (policy_type_u8 COMPOUND)) as [E'|_].
    { rewrite E' in E. done. }
    unfold is_authorized_simple_inner, mbind, M_bind, rd, gets.
    rewrite decode_policy_type_run by done. by rewrite Etf.
Qed.

Lemma recovery_run receiver e w :
  let rp := (w_tip403 w).(receive_policies).[receiver] in
  receive_policy_recovery receiver rp.(ReceivePolicy.config).(ReceivePolicyConfig.recovery_mode) e w =
    (Ok (match rp.(ReceivePolicy.config).(ReceivePolicyConfig.recovery_mode) with
         | Originator => RECOVERY_ORIGINATOR
         | Receiver => receiver
         | ThirdParty => rp.(ReceivePolicy.recovery_address)
         end), w).
Proof. simpl. unfold receive_policy_recovery. by destruct (ReceivePolicyConfig.recovery_mode _). Qed.

Lemma receive_run token sender receiver e w :
  is_t2 (spec e) = true → wf (w_tip403 w) →
  check_receive_policy token sender receiver e w =
    (Ok (receive_verdict (w_tip403 w) token sender receiver), w).
Proof.
  intros Ht Hwf. unfold check_receive_policy, receive_verdict, mbind, M_bind, rd, gets. w_simpl.
  destruct (ReceivePolicyConfig.has_receive_policy _) eqn:Hh; [|done]. cbn [negb].
  destruct (wf_receive _ Hwf receiver Hh) as [Hs Htk].
  unfold token_filter_data, sender_policy_data. rewrite cached_run by done.
  destruct (simple_verdict _ _ token); cbn [negb]; [|by rewrite recovery_run].
  rewrite cached_run by done.
  destruct (simple_verdict _ _ sender); cbn [negb]; [done|by rewrite recovery_run].
Qed.

(** ** Histories

    A history is a list of registry calls, each with its block environment and
    sender, run in call frames of their own. *)
Definition history := list (Env * Address * op).

Fixpoint run (h : history) (w : World) : World :=
  match h with
  | [] => w
  | (e, sender, o) :: h' => run h' (call (Policies.dispatch sender o) e w).2
  end.

(** The zero address sends no calls. *)
Definition senders_ok (h : history) : Prop := Forall (λ p, p.1.2 ≠ 0) h.

Lemma frame_step sender o e w :
  step sender (w_tip403 w) (w_tip403 (call (Policies.dispatch sender o) e w).2).
Proof. call_cases Hr; [by apply core_step|]. by eapply dispatch_step. Qed.

(** A property kept by every step of a non-zero sender holds along histories. *)
Lemma run_ind (P : State → Prop) h w :
  (∀ e sender o s s', (e, sender, o) ∈ h → wf s → step sender s s' → P s → P s') →
  senders_ok h → wf (w_tip403 w) → P (w_tip403 w) →
  wf (w_tip403 (run h w)) ∧ P (w_tip403 (run h w)).
Proof.
  revert w. induction h as [|[[e sender] o] h IH]; intros w HP Hs Hwf Hp; [done|].
  inversion_clear Hs. simpl. pose proof (frame_step sender o e w) as Hstep. apply IH.
  - intros e' sender' o' s s' Hin. apply (HP e' sender' o'). by right.
  - done.
  - by eapply step_wf.
  - eapply (HP e sender o); [by left|done..].
Qed.

Lemma run_wf h w : senders_ok h → wf (w_tip403 w) → wf (w_tip403 (run h w)).
Proof. intros Hs Hwf. by apply (run_ind (λ _, True)). Qed.

Lemma run_extends h w :
  senders_ok h → wf (w_tip403 w) → extends (w_tip403 w) (w_tip403 (run h w)).
Proof.
  intros Hs Hwf. apply (run_ind (extends (w_tip403 w))); [|done..].
  intros e sender o s s' _ _ Hst He. etrans; [done|]. by eapply step_extends.
Qed.

(** ** Who can change a verdict *)

(** [sender] administers [id] or one of its sub-policies. *)
Definition controls (s : State) (sender : Address) (id : N) : Prop :=
  let c := compound_of s id in
  admin_of s id = sender ∨
  (is_compound (base_of s id) = true ∧
   (admin_of s c.(CompoundPolicyData.sender_policy_id) = sender ∨
    admin_of s c.(CompoundPolicyData.recipient_policy_id) = sender ∨
    admin_of s c.(CompoundPolicyData.mint_recipient_policy_id) = sender)).

(** What a step leaves alone on a policy its sender does not administer. *)
Lemma step_other sender s s' id :
  step sender s s' → id < next_id s → admin_of s id ≠ sender →
  s'.(policy_records).[id] = s.(policy_records).[id] ∧
  ∀ a, s'.(policy_set).[(id, a)] = s.(policy_set).[(id, a)].
Proof.
  destruct 1 as [rec accounts s' Hc Hn Hr Hs Hrp | id' admin Ha | id' a b Ha Hs
                | config recovery Hc | s' Hn Hr Hs Hrp]; intros Hid Hne.
  - split; [by rewrite Hr, sread_insert_ne by lia|].
    intros a. by rewrite Hs, decide_False by lia.
  - split; [|done]. simpl. rewrite sread_insert_ne; [done|]. congruence.
  - split; [done|]. intros a'. simpl. rewrite sread_insert_ne; [done|]. congruence.
  - done.
  - by rewrite Hr, Hs.
Qed.

(** The records a verdict depends on. *)
Definition same_policy (id : N) (s s' : State) : Prop :=
  s'.(policy_records).[id] = s.(policy_records).[id] ∧
  ∀ a, s'.(policy_set).[(id, a)] = s.(policy_set).[(id, a)].

Lemma same_policy_verdict id s s' u :
  same_policy id s s' → simple_verdict s' id u = simple_verdict s id u.
Proof. intros [Hr Hs]. unfold simple_verdict. by rewrite Hr, Hs. Qed.

Lemma simple_ref_lt s id : simple_ref s id → id < next_id s.
Proof. pose proof (next_id_ge s). intros [?|[? _]]; lia. Qed.

Lemma step_uncontrolled sender s s' id :
  wf s → step sender s s' → id < next_id s → ¬ controls s sender id →
  same_policy id s s' ∧
  (is_compound (base_of s id) = true →
   let c := compound_of s id in
   same_policy c.(CompoundPolicyData.sender_policy_id) s s' ∧
   same_policy c.(CompoundPolicyData.recipient_policy_id) s s' ∧
   same_policy c.(CompoundPolicyData.mint_recipient_policy_id) s s').
Proof.
  intros Hwf Hst Hid Hnc. unfold controls in Hnc. split.
  - eapply step_other; [done..|]. tauto.
  - intros Hc. destruct (wf_compound s Hwf id Hc) as (H1 & H2 & H3).
    split_and!; (eapply step_other; [done|by apply simple_ref_lt|tauto]).
Qed.

(** The data a verdict on [id] and the control of [id] are computed from. *)
Definition policy_view (s : State) (id : N) :=
  let c := compound_of s id in
  (s.(policy_records).[id],
   (if is_compound (base_of s id) then
      (admin_of s c.(CompoundPolicyData.sender_policy_id),
       admin_of s c.(CompoundPolicyData.recipient_policy_id),
       admin_of s c.(CompoundPolicyData.mint_recipient_policy_id)) else (0, 0, 0))).

Lemma step_view sender s s' id :
  wf s → step sender s s' → id < next_id s → ¬ controls s sender id →
  policy_view s' id = policy_view s id ∧
  ∀ u role, verdict s' id u role = verdict s id u role.
Proof.
  intros Hwf Hst Hid Hnc.
  destruct (step_uncontrolled _ _ _ _ Hwf Hst Hid Hnc) as [[Hr Hs] Hsub].
  pose proof (step_extends _ _ _ Hst) as [Hn _]. unfold policy_view, verdict. rewrite Hr. split.
  - destruct (is_compound (base_of s id)); [|done].
    destruct (Hsub eq_refl) as ([-> _] & [-> _] & [-> _]). done.
  - intros u role. destruct (builtin_authorization id) eqn:Hb; [done|].
    destruct (N.leb_spec (next_id s') id), (N.leb_spec (next_id s) id); try lia.
    unfold is_compound in Hsub.
    destruct (policy_type_cases (type_of s id)) as [[E ->]|[[E ->]|[[E ->]|[E ->]]]]; try done.
    1, 2: f_equal; by apply same_policy_verdict.
    rewrite E in Hsub. destruct (Hsub eq_refl) as (H1 & H2 & H3). f_equal.
    unfold compound_verdict.
    by rewrite (same_policy_verdict _ _ _ u H1), (same_policy_verdict _ _ _ u H2),
      (same_policy_verdict _ _ _ u H3).
Qed.

Lemma controls_view s s' sender id :
  policy_view s' id = policy_view s id → controls s' sender id → controls s sender id.
Proof.
  unfold policy_view, controls. intros [= Hr Ht]. rewrite Hr in *.
  destruct (is_compound (base_of s id)); [|intuition congruence].
  injection Ht as -> -> ->. done.
Qed.

(** ** Properties *)

(** C29: authorization implements the policy semantics. On a well-formed
    registry (T2 on), asking whether [user] is authorized under policy [id] in
    [role] answers for every id, role and account what the policy means: built-in
    ids decide at once, a whitelist admits its members, a blacklist everyone
    else, a compound policy defers to the sub-policy of the role, unknown ids are
    [PolicyNotFound], undecodable types [InvalidPolicyType], and from T6 the
    receive-policy guard is always authorized. *)
Theorem is_authorized_as_correct id user role e w :
  is_t2 (spec e) = true → wf (w_tip403 w) →
  is_authorized_as id user role e w =
    (if is_t6 (spec e) && (user =? RECEIVE_POLICY_GUARD_ADDRESS) then Ok true
     else verdict (w_tip403 w) id user role, w).
Proof.
  intros Ht Hwf.
  assert (always_authorized (spec e) user =
          is_t6 (spec e) && (user =? RECEIVE_POLICY_GUARD_ADDRESS)) as Ha.
  { unfold always_authorized, is_t6. cbn [existsb ALWAYS_AUTHORIZED fst snd].
    by rewrite !orb_false_r. }
  rewrite <- Ha. destruct (always_authorized (spec e) user) eqn:E; [|by apply verdict_run].
  unfold is_authorized_as. run_simpl. by rewrite E.
Qed.

(** C36: the type cached in a receive policy never goes stale. After any history
    of registry calls, the inbound check, which trusts the cached types, returns
    what a check on the policies themselves returns, and never fails. *)
Theorem receive_policy_cache_coherent h w e token sender receiver :
  wf (w_tip403 w) → senders_ok h → is_t2 (spec e) = true →
  check_receive_policy token sender receiver e (run h w) =
    (Ok (receive_verdict (w_tip403 (run h w)) token sender receiver), run h w).
Proof. intros Hwf Hs Ht. apply receive_run; [done|]. by apply run_wf. Qed.

(** Policy ids are never reused and policy types are immutable: along any
    history the id counter only grows and every id below it keeps its type; the
    storage invariant is maintained. *)
Theorem policy_types_immutable h w :
  wf (w_tip403 w) → senders_ok h →
  wf (w_tip403 (run h w)) ∧
  next_id (w_tip403 w) ≤ next_id (w_tip403 (run h w)) ∧
  ∀ id, id < next_id (w_tip403 w) → type_of (w_tip403 (run h w)) id = type_of (w_tip403 w) id.
Proof. intros Hwf Hs. split; [by apply run_wf|]. by apply run_extends. Qed.

(** C28: only its administrators can change what a policy answers. If no sender
    of a history administers policy [id] or one of its sub-policies, every
    verdict of [id] is the same after the history as before it. *)
Theorem verdict_only_admin h w id :
  wf (w_tip403 w) → senders_ok h → id < next_id (w_tip403 w) →
  Forall (λ p, ¬ controls (w_tip403 w) p.1.2 id) h →
  ∀ user role, verdict (w_tip403 (run h w)) id user role = verdict (w_tip403 w) id user role.
Proof.
  intros Hwf Hs Hid Hnc. rewrite Forall_forall in Hnc. set (s0 := w_tip403 w) in *.
  destruct (run_ind (λ s, (id < next_id s ∧ policy_view s id = policy_view s0 id) ∧
    ∀ user role, verdict s id user role = verdict s0 id user role) h w) as [_ [_ H]];
    try done.
  intros e sender o s s' Hin Hwfs Hst [[Hids Hv] Hver].
  destruct (step_view sender s s' id) as [Hv' Hver']; try done.
  { intros Hc. eapply (Hnc (e, sender, o)); [done|]. simpl. by eapply controls_view. }
  pose proof (step_extends _ _ _ Hst) as [Hn _].
  split; [split; [lia|congruence]|]. intros u role. by rewrite Hver'.
Qed.

(** ** A concrete registry *)

Lemma wf_empty : wf dflt.
Proof.
  split; simpl; intros; rewrite ?sread_empty in *; try done.
Qed.

(** Account 7 creates blacklist 2 with member 9, whitelist 3, and compound 4. *)
Definition example_world : World :=
  run [(example_env T6 0, 7, CreatePolicyWithAccounts 7 BLACKLIST [9]);
       (example_env T6 0, 7, CreatePolicy 7 WHITELIST);
       (example_env T6 0, 7, CreateCompoundPolicy 2 3 1)] dflt.

Lemma example_wf : wf (w_tip403 example_world).
Proof. apply run_wf; [repeat constructor; done|apply wf_empty]. Qed.

Lemma is_authorized_as_correct_witness :
  is_authorized_as 4 9 Sender (example_env T6 0) example_world = (Ok false, example_world).
Proof. exact (is_authorized_as_correct 4 9 Sender (example_env T6 0) example_world eq_refl example_wf). Defined.

Definition example_history : history :=
  [(example_env T6 0, 8, SetReceivePolicy 2 1 0);
   (example_env T6 0, 7, ModifyPolicyBlacklist 2 10 true)].

Lemma receive_policy_cache_coherent_witness :
  check_receive_policy PATH_USD_ADDRESS 10 8 (example_env T6 0) (run example_history example_world)
    = (Ok (Some (RECEIVE_POLICY, 0)), run example_history example_world).
Proof.
  rewrite (receive_policy_cache_coherent example_history example_world (example_env T6 0)
    PATH_USD_ADDRESS 10 8 example_wf); [reflexivity| |reflexivity].
  repeat constructor; discriminate.
Defined.

Lemma policy_types_immutable_witness :
  type_of (w_tip403 (run example_history example_world)) 2 = 1.
Proof.
  destruct (policy_types_immutable example_history example_world example_wf) as (_ & _ & H).
  - repeat constructor; discriminate.
  - exact (H 2 eq_refl).
Defined.

Lemma verdict_only_admin_witness :
  verdict (w_tip403 (run [(example_env T6 0, 8, ModifyPolicyBlacklist 2 9 false)] example_world))
    4 9 Transfer = Ok false.
Proof.
  rewrite (verdict_only_admin [(example_env T6 0, 8, ModifyPolicyBlacklist 2 9 false)]
    example_world 4 example_wf); [reflexivity| |reflexivity|].
  - repeat constructor; discriminate.
  - repeat constructor. vm_compute. intuition congruence.
Defined.

End PolicySpec.
