(* ===== verification/Tip20Core.v ===== *)
(** * TIP-20 tokens: accounting core

    The parts of [crates/precompiles/src/tip20/mod.rs], [tip20/roles.rs] and
    [tip20/rewards.rs] on which every token operation is built: recipients, role
    checks, balances and their deltas, the reward hooks, policy and spending
    checks, and the two primitives that move funds, [_transfer] and [_mint].
    [self] is the address of the token contract. *)

From S2P Require Import Prelude StorageSet Hardfork Address Errors State Monad AddressRegistry.
From S2P Require Import Tip20Base Keychain Tip403.

(** [sinc] and [sdec] of [storage/mod.rs]: add to or take from a stored word.
    [sload] and [sstore] are the accessors of the slot. *)
Definition sinc (sload : M U256) (sstore : U256 → M ()) (delta : U256) : M () :=
  v ← sload;
  value ← ok_or (checked_add U256_MAX v delta) under_overflow;
  sstore value.
Definition sdec (sload : M U256) (sstore : U256 → M ()) (delta : U256) : M () :=
  current ← sload;
  value ← ok_or (checked_sub current delta) (StorageDeltaUnderflow current);
  sstore value.

(** [recover_signer] of [storage/mod.rs]. *)
Definition recover_signer (digest : B256) (v : N) (r s : B256) : M (option Address) :=
  if negb (v =? 27) && negb (v =? 28) then mret None
  else
    f ← asks ecrecover;
    mret (match f digest v r s with
          | Some addr => if is_zero addr then None else Some addr
          | None => None
          end).

(** ** Recipients *)

Module Recipient.
Record t := mk { target : Address; virtual_addr : option Address }.

Definition direct (addr : Address) : t := mk addr None.

Definition resolve (addr : Address) : M t :=
  effective ← Registry.resolve_recipient addr;
  mret (if effective =? addr then direct addr else mk effective (Some addr)).

Definition original_address (r : t) : Address := default r.(target) r.(virtual_addr).

Definition validate (r : t) : M () :=
  require (negb (is_zero r.(target) || is_tip20_prefix r.(target)))
    (TIP20 TIP20Error.InvalidRecipient).

Definition build_transfer_event (r : t) (from : Address) (amount : U256) : TIP20Event.t :=
  TIP20Event.Transfer from (original_address r) amount.

Definition build_virtual_transfer_event (r : t) (amount : U256) : option TIP20Event.t :=
  (λ v, TIP20Event.Transfer v r.(target) amount) <$> r.(virtual_addr).
End Recipient.

Module Token.
Import Policies.

Abbreviation e20 x := (TIP20 x) (only parsing).

Definition emit20 (self : Address) (ev : TIP20Event.t) : M () := emit self (TIP20Ev ev).
Definition emit_hop (self : Address) (to : Recipient.t) (amount : U256) : M () :=
  match Recipient.build_virtual_transfer_event to amount with
  | Some hop => emit20 self hop
  | None => mret ()
  end.

(** ** Storage accessors *)

Definition name (self : Address) : M string := rd (tip20C self) TIP20Token.name.
Definition symbol (self : Address) : M string := rd (tip20C self) TIP20Token.symbol.
Definition currency (self : Address) : M string := rd (tip20C self) TIP20Token.currency.
Definition logo_uri (self : Address) : M string := rd (tip20C self) TIP20Token.logo_uri.
Definition total_supply (self : Address) : M U256 := rd (tip20C self) TIP20Token.total_supply.
Definition quote_token (self : Address) : M Address := rd (tip20C self) TIP20Token.quote_token.
Definition next_quote_token (self : Address) : M Address :=
  rd (tip20C self) TIP20Token.next_quote_token.
Definition supply_cap (self : Address) : M U256 := rd (tip20C self) TIP20Token.supply_cap.
Definition paused (self : Address) : M bool := rd (tip20C self) TIP20Token.paused.

Definition transfer_policy_id (self : Address) : M N :=
  sp ← asks spec;
  registered ← (if is_t9 sp then registered_token_transfer_policy_id self else mret None);
  match registered with
  | Some policy_id => mret policy_id
  | None => legacy_transfer_policy_id self
  end.

Definition get_balance (self account : Address) : M U256 :=
  rd (tip20C self) (λ s, s.(TIP20Token.balances).[account]).
Definition set_balance (self account : Address) (amount : U256) : M () :=
  wr (tip20C self) (TIP20Token.set_balances (insert account amount)).
Definition get_allowance (self owner spender : Address) : M U256 :=
  rd (tip20C self) (λ s, s.(TIP20Token.allowances).[(owner, spender)]).
Definition set_allowance (self owner spender : Address) (amount : U256) : M () :=
  wr (tip20C self) (TIP20Token.set_allowances (insert (owner, spender) amount)).
Definition set_total_supply (self : Address) (amount : U256) : M () :=
  wr (tip20C self) (TIP20Token.set_total_supply (λ _, amount)).
Definition balance_of := get_balance.
Definition allowance := get_allowance.

Definition increment_balance (self account : Address) (amount : U256) : M () :=
  map_err (λ err, match err with
                  | Panic UnderOverflow => e20 TIP20Error.SupplyCapExceeded
                  | err => err
                  end)
    (sinc (get_balance self account) (set_balance self account) amount).

Definition decrement_balance (self account : Address) (amount : U256) : M () :=
  map_err (λ err, match err with
                  | StorageDeltaUnderflow current =>
                      e20 (TIP20Error.InsufficientBalance current amount self)
                  | err => err
                  end)
    (sdec (get_balance self account) (set_balance self account) amount).

Definition check_not_paused (self : Address) : M () :=
  p ← paused self; require (negb p) (e20 TIP20Error.ContractPaused).

(** ** Roles *)

Definition DEFAULT_ADMIN_ROLE : B256 := 0.
Definition UNGRANTABLE_ROLE : B256 := U256_MAX.
(** [keccak256] of the role names. *)
Definition PAUSE_ROLE : B256 :=
  0x139c2898040ef16910dc9f44dc697df79363da767d8bc92f2e310312b816e46d.
Definition UNPAUSE_ROLE : B256 :=
  0x265b220c5a8891efdd9e1b1b7fa72f257bd5169f8d87e319cf3dad6ff52b94ae.
Definition ISSUER_ROLE : B256 :=
  0x114e74f6ea3bd819998f78687bfcb11b140da08e9b7d222fa9c1f1ba1f2aa122.
Definition BURN_BLOCKED_ROLE : B256 :=
  0x7408fdc0d31c7bcb349eab611f5d1168acd4303574993f8cdc98b1cd18c41cae.
Definition BURN_AT_ROLE : B256 :=
  0x39f6ee57cf2acaf8eab1056c2dcc3068f1f3d6a61e4777cf2bfdad7b1df90a27.

Definition has_role_internal (self account : Address) (role : B256) : M bool :=
  rd (tip20C self) (λ s, s.(TIP20Token.roles).[(account, role)]).
Definition grant_role_internal (self account : Address) (role : B256) : M () :=
  wr (tip20C self) (TIP20Token.set_roles (insert (account, role) true)).
Definition revoke_role_internal (self account : Address) (role : B256) : M () :=
  wr (tip20C self) (TIP20Token.set_roles (insert (account, role) false)).
Definition get_role_admin_internal (self : Address) (role : B256) : M B256 :=
  rd (tip20C self) (λ s, s.(TIP20Token.role_admins).[role]).
Definition set_role_admin_internal (self : Address) (role admin_role : B256) : M () :=
  wr (tip20C self) (TIP20Token.set_role_admins (insert role admin_role)).
Definition check_role_internal (self account : Address) (role : B256) : M () :=
  ok ← has_role_internal self account role;
  require ok (RolesAuth RolesAuthError.Unauthorized).
Definition check_role := check_role_internal.
Definition has_role := has_role_internal.
Definition get_role_admin := get_role_admin_internal.

Definition initialize_roles (self : Address) : M () :=
  set_role_admin_internal self UNGRANTABLE_ROLE UNGRANTABLE_ROLE.

Definition grant_default_admin (self msg_sender admin : Address) : M () :=
  grant_role_internal self admin DEFAULT_ADMIN_ROLE ;;
  emit20 self (TIP20Event.RoleMembershipUpdated DEFAULT_ADMIN_ROLE admin msg_sender true).

Definition grant_role (self msg_sender : Address) (role : B256) (account : Address) : M () :=
  admin_role ← get_role_admin_internal self role;
  check_role_internal self msg_sender admin_role ;;
  grant_role_internal self account role ;;
  emit20 self (TIP20Event.RoleMembershipUpdated role account msg_sender true).

Definition revoke_role (self msg_sender : Address) (role : B256) (account : Address) : M () :=
  admin_role ← get_role_admin_internal self role;
  check_role_internal self msg_sender admin_role ;;
  revoke_role_internal self account role ;;
  emit20 self (TIP20Event.RoleMembershipUpdated role account msg_sender false).

Definition renounce_role (self msg_sender : Address) (role : B256) : M () :=
  check_role_internal self msg_sender role ;;
  revoke_role_internal self msg_sender role ;;
  emit20 self (TIP20Event.RoleMembershipUpdated role msg_sender msg_sender false).

Definition set_role_admin (self msg_sender : Address) (role admin_role : B256) : M () :=
  current_admin_role ← get_role_admin_internal self role;
  check_role_internal self msg_sender current_admin_role ;;
  set_role_admin_internal self role admin_role ;;
  emit20 self (TIP20Event.RoleAdminUpdated role admin_role msg_sender).

(** ** Reward hooks *)

Definition ACC_PRECISION : U256 := 1000000000000000000.

Definition get_global_reward_per_token (self : Address) : M U256 :=
  rd (tip20C self) TIP20Token.global_reward_per_token.
Definition set_global_reward_per_token (self : Address) (value : U256) : M () :=
  wr (tip20C self) (TIP20Token.set_global_reward_per_token (λ _, value)).
Definition get_opted_in_supply (self : Address) : M N :=
  rd (tip20C self) TIP20Token.opted_in_supply.
Definition set_opted_in_supply (self : Address) (value : N) : M () :=
  wr (tip20C self) (TIP20Token.set_opted_in_supply (λ _, value)).
Definition get_user_reward_info (self account : Address) : M UserRewardInfo.t :=
  rd (tip20C self) (λ s, s.(TIP20Token.user_reward_info).[account]).
Definition set_user_reward_info (self account : Address) (info : UserRewardInfo.t) : M () :=
  wr (tip20C self) (TIP20Token.set_user_reward_info (insert account info)).

(** The opted-in supply is read, moved by [amount] as a [U256] and stored back as
    a [u128]. *)
Definition increase_opted_in_supply (self : Address) (amount : U256) : M () :=
  supply ← get_opted_in_supply self;
  opted_in_supply ← ok_or (checked_add U256_MAX supply amount) under_overflow;
  value ← ok_or (try_into U128_MAX opted_in_supply) under_overflow;
  set_opted_in_supply self value.
Definition decrease_opted_in_supply (self : Address) (amount : U256) : M () :=
  supply ← get_opted_in_supply self;
  opted_in_supply ← ok_or (checked_sub supply amount) under_overflow;
  value ← ok_or (try_into U128_MAX opted_in_supply) under_overflow;
  set_opted_in_supply self value.

(** [balance.checked_mul(delta).and_then(|v| v.checked_div(ACC_PRECISION))]. *)
Definition accrued (balance delta : U256) : option U256 :=
  v ← checked_mul U256_MAX balance delta; checked_div v ACC_PRECISION.

Definition with_balance (info : UserRewardInfo.t) (b : U256) : UserRewardInfo.t :=
  UserRewardInfo.mk info.(UserRewardInfo.reward_recipient)
    info.(UserRewardInfo.reward_per_token) b.
Definition with_per_token (info : UserRewardInfo.t) (r : U256) : UserRewardInfo.t :=
  UserRewardInfo.mk info.(UserRewardInfo.reward_recipient) r
    info.(UserRewardInfo.reward_balance).
Definition with_recipient (info : UserRewardInfo.t) (a : Address) : UserRewardInfo.t :=
  UserRewardInfo.mk a info.(UserRewardInfo.reward_per_token)
    info.(UserRewardInfo.reward_balance).

(** Credit [reward] to the delegate of [holder]: into [info], the holder's record
    still to be written, or directly into the delegate's record. *)
Definition credit_delegate (self holder cached_delegate : Address)
    (info : UserRewardInfo.t) (reward : U256) : M UserRewardInfo.t :=
  if cached_delegate =? holder then
    b ← ok_or (checked_add U256_MAX info.(UserRewardInfo.reward_balance) reward) under_overflow;
    mret (with_balance info b)
  else
    delegate_info ← get_user_reward_info self cached_delegate;
    b ← ok_or (checked_add U256_MAX delegate_info.(UserRewardInfo.reward_balance) reward)
          under_overflow;
    set_user_reward_info self cached_delegate (with_balance delegate_info b) ;;
    mret info.

Definition update_rewards (self holder : Address) : M Address :=
  sp ← asks spec;
  if is_t8 sp then mret ZERO_ADDRESS
  else
    info ← get_user_reward_info self holder;
    let cached_delegate := info.(UserRewardInfo.reward_recipient) in
    global_reward_per_token ← get_global_reward_per_token self;
    reward_per_token_delta ←
      ok_or (checked_sub global_reward_per_token info.(UserRewardInfo.reward_per_token))
        under_overflow;
    (if negb (reward_per_token_delta =? 0) then
       info ← (if negb (is_zero cached_delegate) then
                 holder_balance ← get_balance self holder;
                 reward ← ok_or (accrued holder_balance reward_per_token_delta) under_overflow;
                 credit_delegate self holder cached_delegate info reward
               else mret info);
       set_user_reward_info self holder (with_per_token info global_reward_per_token)
     else mret ()) ;;
    mret cached_delegate.

Definition handle_rewards_on_transfer (self from to : Address) (amount : U256) : M () :=
  from_delegate ← update_rewards self from;
  to_delegate ← update_rewards self to;
  if negb (is_zero from_delegate) then
    if is_zero to_delegate then decrease_opted_in_supply self amount else mret ()
  else if negb (is_zero to_delegate) then increase_opted_in_supply self amount
  else mret ().

Definition handle_rewards_on_mint (self to : Address) (amount : U256) : M () :=
  to_delegate ← update_rewards self to;
  if negb (is_zero to_delegate) then increase_opted_in_supply self amount else mret ().

(** ** Policy and spending checks *)

Definition is_transfer_authorized (self from to : Address) : M bool :=
  policy_id ← transfer_policy_id self;
  sender ← transfer_or Sender;
  sender_auth ← is_authorized_as policy_id from sender;
  sp ← asks spec;
  if is_t2 sp && negb sender_auth then mret false
  else
    recipient ← transfer_or Recipient;
    recipient_auth ← is_authorized_as policy_id to recipient;
    mret (sender_auth && recipient_auth).

Definition ensure_transfer_authorized (self from to : Address) : M () :=
  ok ← is_transfer_authorized self from to;
  require ok (e20 TIP20Error.PolicyForbids).

Definition ensure_receive_policy_authorized (self sender receiver : Address) : M () :=
  blocked ← validate_receive_policy self sender receiver;
  require (bool_decide (blocked = None)) (e20 TIP20Error.PolicyForbids).

Definition ensure_authorized_as (self : Address) (user_auth : list (Address * AuthRole)) : M () :=
  policy_id ← transfer_policy_id self;
  mfor user_auth (λ '(user, role),
    ok ← is_authorized_as policy_id user role;
    require ok (e20 TIP20Error.PolicyForbids)).

Definition check_and_update_spending_limit (self from : Address) (amount : U256) : M () :=
  KeychainOps.authorize_transfer from self amount.

Definition consume_allowance (self owner spender : Address) (amount : U256) : M () :=
  allowed ← get_allowance self owner spender;
  require (negb (allowed <? amount)) (e20 TIP20Error.InsufficientAllowance) ;;
  if negb (allowed =? U256_MAX) then
    new_allowance ← ok_or (checked_sub allowed amount) (e20 TIP20Error.InsufficientAllowance);
    set_allowance self owner spender new_allowance
  else mret ().

(** ** Moving funds *)

Definition _transfer (self from : Address) (to : Recipient.t) (amount : U256) : M () :=
  sp ← asks spec;
  from_balance ←
    (if negb (is_t8 sp) then
       from_balance ← get_balance self from;
       require (negb (from_balance <? amount))
         (e20 (TIP20Error.InsufficientBalance from_balance amount self)) ;;
       mret (Some from_balance)
     else mret None);
  handle_rewards_on_transfer self from to.(Recipient.target) amount ;;
  match from_balance with
  | Some from_balance =>
      new_from_balance ← ok_or (checked_sub from_balance amount) under_overflow;
      set_balance self from new_from_balance
  | None => decrement_balance self from amount
  end ;;
  (if negb (is_zero to.(Recipient.target))
   then increment_balance self to.(Recipient.target) amount else mret ()) ;;
  emit20 self (Recipient.build_transfer_event to from amount).

Definition _mint (self : Address) (to : Recipient.t) (total_supply amount : U256) : M () :=
  new_supply ← ok_or (checked_add U256_MAX total_supply amount) under_overflow;
  cap ← supply_cap self;
  require (negb (cap <? new_supply)) (e20 TIP20Error.SupplyCapExceeded) ;;
  handle_rewards_on_mint self to.(Recipient.target) amount ;;
  set_total_supply self new_supply ;;
  increment_balance self to.(Recipient.target) amount ;;
  emit20 self (Recipient.build_transfer_event to ZERO_ADDRESS amount).

End Token.
