(* ===== verification/Guard.v ===== *)
(** * The receive-policy guard: receipts

    [crates/precompiles/src/receive_policy_guard/mod.rs] and the receipt type of
    [crates/contracts/src/precompiles/receive_policy_guard.rs]: the encoding and
    key of a claim receipt, recovery modes, and the recording of a blocked
    inbound transfer or mint. Releasing and burning guarded funds calls back into
    the token and is in [GuardOps]. *)

From S2P Require Import Prelude Hardfork Address Errors State Monad AddressRegistry Tip403.
From S2P Require Import Tip20Core.

Module GuardBase.
Import Policies.

Abbreviation eguard x := (ReceivePolicyGuard x) (only parsing).

(** [InboundKind], with the member an out-of-range discriminant decodes to. *)
Inductive InboundKind := KIND_TRANSFER | KIND_MINT | KIND_Invalid.
Definition kind_u8 (k : InboundKind) : N :=
  match k with KIND_TRANSFER => 0 | KIND_MINT => 1 | KIND_Invalid => 255 end.

Definition blocked_reason_u8 (r : BlockedReason) : N :=
  match r with NONE => 0 | TOKEN_FILTER => 1 | RECEIVE_POLICY => 2 end.

(** [ClaimReceiptV1::new]. *)
Definition new_receipt (token recovery_auth originator recipient : Address)
    (at_ nonce reason : N) (kind : InboundKind) (memo : B256) : ClaimReceiptV1 :=
  {| version := 1; Errors.token := token; recoveryAuthority := recovery_auth;
     Errors.originator := originator; Errors.recipient := recipient;
     blockedAt := at_; blockedNonce := nonce; blockedReason := reason;
     Errors.kind := kind_u8 kind; Errors.memo := memo |}.

(** The ABI encoding of a receipt: ten static words. *)
Definition receipt_bytes (r : ClaimReceiptV1) : list N :=
  word_bytes r.(version) ++ word_bytes r.(token) ++ word_bytes r.(recoveryAuthority) ++
  word_bytes r.(originator) ++ word_bytes r.(recipient) ++ word_bytes r.(blockedAt) ++
  word_bytes r.(blockedNonce) ++ word_bytes r.(blockedReason) ++ word_bytes r.(kind) ++
  word_bytes r.(memo).

Definition receipt_key (r : ClaimReceiptV1) : M B256 :=
  asks (λ e, keccak256 e (receipt_bytes r)).

(** Allocate the next nonzero receipt nonce. *)
Definition next_receipt_nonce : M N :=
  stored ← rd guardC Guard.nonce;
  let nonce := N.max stored 1 in
  next ← ok_or (checked_add U64_MAX nonce 1) under_overflow;
  wr guardC (Guard.set_nonce (λ _, next)) ;;
  mret nonce.

Definition emit_guard (ev : ReceivePolicyGuardEvent.t) : M () :=
  emit RECEIVE_POLICY_GUARD_ADDRESS (GuardEv ev).

Definition store_blocked (token originator : Address) (to : Recipient.t)
    (recovery_address : Address) (amount : U256) (blocked_reason : BlockedReason)
    (kind : InboundKind) (memo : B256) : M (N * N) :=
  let is_invalid_reason :=
    match blocked_reason with RECEIVE_POLICY | TOKEN_FILTER => false | NONE => true end in
  require (negb (is_invalid_reason || match kind with KIND_Invalid => true | _ => false end))
    (eguard ReceivePolicyGuardError.InvalidReceipt) ;;
  let receiver := to.(Recipient.target) in
  let recipient := Recipient.original_address to in
  blocked_nonce ← next_receipt_nonce;
  blocked_at ← now_u64;
  let receipt := new_receipt token recovery_address originator recipient blocked_at
    blocked_nonce (blocked_reason_u8 blocked_reason) kind memo in
  key ← receipt_key receipt;
  wr guardC (Guard.set_balances (insert key amount)) ;;
  emit_guard (ReceivePolicyGuardEvent.TransferBlocked receipt receiver amount) ;;
  mret (blocked_nonce, blocked_at).

(** [ClaimReceiptV1::try_from]: the ABI decoder is outside the model, its result
    is the argument. *)
Definition try_from (receipt : option ClaimReceiptV1) : M ClaimReceiptV1 :=
  ok_or receipt (eguard ReceivePolicyGuardError.InvalidReceipt).

Definition balance_of (receipt : option ClaimReceiptV1) : M U256 :=
  receipt ← try_from receipt;
  key ← receipt_key receipt;
  rd guardC (λ s, s.(Guard.balances).[key]).

(** ** Recovery modes *)

Definition recovery_from (receipt : ClaimReceiptV1) (receiver : Address) : RecoveryMode :=
  if receipt.(recoveryAuthority) =? RECOVERY_ORIGINATOR then Originator
  else if receipt.(recoveryAuthority) =? receiver then Receiver
  else ThirdParty.

Definition authority (mode : RecoveryMode) (receipt : ClaimReceiptV1) : Address :=
  match mode with
  | Originator => receipt.(originator)
  | Receiver | ThirdParty => receipt.(recoveryAuthority)
  end.

Definition policy_subject (mode : RecoveryMode) (originator receiver : Address) : Address :=
  match mode with Originator => originator | Receiver | ThirdParty => receiver end.

Definition is_reroute (mode : RecoveryMode) (to receiver : Address) : bool :=
  match mode with Originator => true | Receiver | ThirdParty => negb (to =? receiver) end.

Definition spending_account (mode : RecoveryMode) (recovery_authority : Address)
    : option Address :=
  match mode with Originator | Receiver => Some recovery_authority | ThirdParty => None end.

Definition resolve_receipt (bytes : option ClaimReceiptV1)
    : M (ClaimReceiptV1 * Address * RecoveryMode) :=
  receipt ← try_from bytes;
  receiver ← map_err (λ _, eguard ReceivePolicyGuardError.InvalidClaimAddress)
               (Registry.resolve_recipient receipt.(recipient));
  mret (receipt, receiver, recovery_from receipt receiver).

End GuardBase.
