(* ===== verification/Tip20.v ===== *)
(** * TIP-20 tokens: operations

    Every entry point of [crates/precompiles/src/tip20/mod.rs] and
    [tip20/rewards.rs]: administration, mint and burn, approvals and permits,
    transfers with receive-policy diversion, the internal transfers of other
    precompiles, fee payment and refund, rewards, and the ABI dispatch. *)

From S2P Require Import Prelude StorageSet Hardfork Address Errors State Monad AddressRegistry.
From S2P Require Import Tip20Base Keychain Tip403 Tip20Core Guard.

Module TokenOps.
Import Policies Token.

Definition USD_CURRENCY : string := "USD".

Definition validate_usd_currency (token : Address) : M () :=
  from_address token ;;
  c ← currency token;
  require (bool_decide (c = USD_CURRENCY)) (e20 TIP20Error.InvalidCurrency).

(** ** Administration *)

Definition change_transfer_policy_id (self msg_sender : Address) (newPolicyId : N) : M () :=
  check_role self msg_sender DEFAULT_ADMIN_ROLE ;;
  exists_ ← policy_exists newPolicyId;
  require exists_ (e20 TIP20Error.InvalidTransferPolicyId) ;;
  sp ← asks spec;
  (if is_t9 sp then set_token_transfer_policy self newPolicyId
   else wr (tip20C self) (TIP20Token.set_transfer_policy_id (λ _, newPolicyId))) ;;
  emit20 self (TIP20Event.TransferPolicyUpdate msg_sender newPolicyId).

Definition set_supply_cap (self msg_sender : Address) (newSupplyCap : U256) : M () :=
  check_role self msg_sender DEFAULT_ADMIN_ROLE ;;
  supply ← total_supply self;
  require (negb (newSupplyCap <? supply)) (e20 TIP20Error.InvalidSupplyCap) ;;
  require (negb (U128_MAX <? newSupplyCap)) (e20 TIP20Error.SupplyCapExceeded) ;;
  wr (tip20C self) (TIP20Token.set_supply_cap (λ _, newSupplyCap)) ;;
  emit20 self (TIP20Event.SupplyCapUpdate msg_sender newSupplyCap).

(** *** Logo URIs (TIP-1026) *)

Definition MAX_LOGO_URI_BYTES : N := 256.

Definition ascii_between (lo hi : N) (b : N) : bool := (lo <=? b) && (b <=? hi).
Definition is_ascii_alphabetic (b : N) : bool :=
  ascii_between 65 90 b || ascii_between 97 122 b.
Definition is_ascii_alphanumeric (b : N) : bool :=
  is_ascii_alphabetic b || ascii_between 48 57 b.
Definition to_ascii_lowercase (b : N) : N := if ascii_between 65 90 b then b + 32 else b.
Definition eq_ignore_ascii_case (x y : list N) : bool :=
  bool_decide (map to_ascii_lowercase x = map to_ascii_lowercase y).

Definition ALLOWED_LOGO_URI_SCHEMES : list (list N) :=
  map string_bytes ["https"; "http"; "ipfs"; "data"]%string.

(** [uri.split_once(':')], the part before the first colon. *)
Fixpoint scheme_of (uri : list N) : option (list N) :=
  match uri with
  | [] => None
  | b :: rest => if b =? 58 then Some [] else cons b <$> scheme_of rest
  end.

Definition is_allowed_logo_uri (uri : list N) : bool :=
  match scheme_of uri with
  | None | Some [] => false
  | Some (first :: bytes as scheme) =>
      is_ascii_alphabetic first
      && forallb (λ b, is_ascii_alphanumeric b || (b =? 43) || (b =? 45) || (b =? 46)) bytes
      && existsb (eq_ignore_ascii_case scheme) ALLOWED_LOGO_URI_SCHEMES
  end.

Definition validate_logo_uri (uri : string) : M () :=
  let bytes := string_bytes uri in
  require (negb (MAX_LOGO_URI_BYTES <? N.of_nat (length bytes))) (e20 TIP20Error.LogoURITooLong) ;;
  require (negb (negb (bool_decide (bytes = [])) && negb (is_allowed_logo_uri bytes)))
    (e20 TIP20Error.InvalidLogoURI).

Definition write_logo_uri (self updater : Address) (new_logo_uri : string) : M () :=
  validate_logo_uri new_logo_uri ;;
  wr (tip20C self) (TIP20Token.set_logo_uri (λ _, new_logo_uri)) ;;
  emit20 self (TIP20Event.LogoURIUpdated updater new_logo_uri).

Definition set_logo_uri (self msg_sender : Address) (newLogoURI : string) : M () :=
  check_role self msg_sender DEFAULT_ADMIN_ROLE ;;
  write_logo_uri self msg_sender newLogoURI.

(** *** Pausing *)

Definition pause (self msg_sender : Address) : M () :=
  check_role self msg_sender PAUSE_ROLE ;;
  wr (tip20C self) (TIP20Token.set_paused (λ _, true)) ;;
  emit20 self (TIP20Event.PauseStateUpdate msg_sender true).

Definition unpause (self msg_sender : Address) : M () :=
  check_role self msg_sender UNPAUSE_ROLE ;;
  wr (tip20C self) (TIP20Token.set_paused (λ _, false)) ;;
  emit20 self (TIP20Event.PauseStateUpdate msg_sender false).

(** *** Quote tokens *)

Definition set_next_quote_token (self msg_sender newQuoteToken : Address) : M () :=
  check_role self msg_sender DEFAULT_ADMIN_ROLE ;;
  require (negb (self =? PATH_USD_ADDRESS)) (e20 TIP20Error.InvalidQuoteToken) ;;
  deployed ← is_tip20 newQuoteToken;
  require deployed (e20 TIP20Error.InvalidQuoteToken) ;;
  cur ← currency self;
  (if bool_decide (cur = USD_CURRENCY) then
     from_address newQuoteToken ;;
     quote_token_currency ← currency newQuoteToken;
     require (bool_decide (quote_token_currency = USD_CURRENCY)) (e20 TIP20Error.InvalidQuoteToken)
   else mret ()) ;;
  wr (tip20C self) (TIP20Token.set_next_quote_token (λ _, newQuoteToken)) ;;
  emit20 self (TIP20Event.NextQuoteTokenSet msg_sender newQuoteToken).

(** The loop of [complete_quote_token_update]. A walk of more steps than there are
    token accounts repeats an account, so the source's loop would then run until
    its gas is used up: that is the outcome when [fuel] runs out. *)
Fixpoint walk_quote_tokens (fuel : nat) (self current : Address) : M () :=
  match fuel with
  | O => throw OutOfGas
  | S fuel' =>
      if current =? PATH_USD_ADDRESS then mret ()
      else
        require (negb (current =? self)) (e20 TIP20Error.InvalidQuoteToken) ;;
        from_address current ;;
        next ← quote_token current;
        walk_quote_tokens fuel' self next
  end.

Definition complete_quote_token_update (self msg_sender : Address) : M () :=
  check_role self msg_sender DEFAULT_ADMIN_ROLE ;;
  next ← next_quote_token self;
  fuel ← gets (λ w, (size (w_tip20s w) + 2)%nat);
  walk_quote_tokens fuel self next ;;
  wr (tip20C self) (TIP20Token.set_quote_token (λ _, next)) ;;
  emit20 self (TIP20Event.QuoteTokenUpdate msg_sender next).

(** ** Receive policies on inbound funds *)

(** [true] when the funds were blocked: they are then held by the guard against a
    receipt. *)
Definition validate_inbound_or_block (self originator : Address) (to : Recipient.t)
    (amount : U256) (mint_total_supply : option U256) (memo : B256) : M bool :=
  sp ← asks spec;
  if negb (is_t6 sp) then mret false
  else
    require (negb (to.(Recipient.target) =? RECEIVE_POLICY_GUARD_ADDRESS))
      (ReceivePolicyGuard ReceivePolicyGuardError.AddressReserved) ;;
    blocked ← check_receive_policy self originator to.(Recipient.target);
    match blocked with
    | None => mret false
    | Some (reason, recovery) =>
        let guard := Recipient.direct RECEIVE_POLICY_GUARD_ADDRESS in
        kind ← match mint_total_supply with
               | Some supply =>
                   _mint self guard supply amount ;;
                   emit20 self (TIP20Event.Mint guard.(Recipient.target) amount) ;;
                   mret GuardBase.KIND_MINT
               | None =>
                   _transfer self originator guard amount ;;
                   mret GuardBase.KIND_TRANSFER
               end;
        GuardBase.store_blocked self originator to recovery amount reason kind memo ;;
        mret true
    end.

Definition validate_transfer (self : Address) (spender : option Address)
    (from to : Address) (amount : U256) (memo : B256) : M (option Recipient.t) :=
  to ← Recipient.resolve to;
  check_not_paused self ;;
  Recipient.validate to ;;
  ensure_transfer_authorized self from to.(Recipient.target) ;;
  match spender with
  | Some spender => consume_allowance self from spender amount
  | None => check_and_update_spending_limit self from amount
  end ;;
  blocked ← validate_inbound_or_block self from to amount None memo;
  mret (if blocked : bool then None else Some to).

Definition validate_mint (self msg_sender to : Address) (amount : U256) (memo : B256)
    (recipient_role : AuthRole) : M (option (U256 * Recipient.t)) :=
  to ← Recipient.resolve to;
  check_role self msg_sender ISSUER_ROLE ;;
  supply ← total_supply self;
  sp ← asks spec;
  (if is_t3 sp then check_not_paused self ;; Recipient.validate to else mret ()) ;;
  policy_id ← transfer_policy_id self;
  ok ← is_authorized_as policy_id to.(Recipient.target) recipient_role;
  require ok (e20 TIP20Error.PolicyForbids) ;;
  blocked ← validate_inbound_or_block self msg_sender to amount (Some supply) memo;
  mret (if blocked : bool then None else Some (supply, to)).

(** ** Mint *)

Definition mint_with_role (self msg_sender to : Address) (amount : U256)
    (recipient_role : AuthRole) : M () :=
  v ← validate_mint self msg_sender to amount 0 recipient_role;
  match v with
  | None => mret ()
  | Some (supply, recipient) =>
      _mint self recipient supply amount ;;
      emit20 self (TIP20Event.Mint to amount) ;;
      emit_hop self recipient amount
  end.

Definition mint (self msg_sender to : Address) (amount : U256) : M () :=
  role ← transfer_or MintRecipient;
  mint_with_role self msg_sender to amount role.

Definition mint_with_memo (self msg_sender to : Address) (amount : U256) (memo : B256) : M () :=
  role ← transfer_or MintRecipient;
  v ← validate_mint self msg_sender to amount memo role;
  match v with
  | None => mret ()
  | Some (supply, recipient) =>
      _mint self recipient supply amount ;;
      emit20 self (TIP20Event.TransferWithMemo ZERO_ADDRESS to amount memo) ;;
      emit20 self (TIP20Event.Mint to amount) ;;
      emit_hop self recipient amount
  end.

(** ** Burn *)

(** [PROTECTED]. *)
Definition PROTECTED : list (TempoHardfork * list Address) :=
  [ (Genesis, [TIP_FEE_MANAGER_ADDRESS; STABLECOIN_DEX_ADDRESS]);
    (T5, [TIP20_CHANNEL_RESERVE_ADDRESS]);
    (T6, [RECEIVE_POLICY_GUARD_ADDRESS]) ].

Definition check_burn_address (self from : Address) : M () :=
  hardfork ← asks spec;
  require (negb (existsb (λ p, since hardfork p.1 && existsb (N.eqb from) p.2) PROTECTED
                 || (is_t5 hardfork && (from =? self))
                 || (is_t12 hardfork && (slice from 0 12 =? ZONE_PORTAL_PREFIX))))
    (e20 TIP20Error.ProtectedAddress).

(** The last step of every burn. *)
Definition reduce_total_supply (self : Address) (amount : U256) : M () :=
  supply ← total_supply self;
  new_supply ← ok_or (checked_sub supply amount)
    (e20 (TIP20Error.InsufficientBalance supply amount self));
  set_total_supply self new_supply.

Definition _burn (self msg_sender : Address) (amount : U256) : M () :=
  sp ← asks spec;
  (if is_t3 sp then check_not_paused self else mret ()) ;;
  check_role self msg_sender ISSUER_ROLE ;;
  _transfer self msg_sender (Recipient.direct ZERO_ADDRESS) amount ;;
  reduce_total_supply self amount.

Definition burn (self msg_sender : Address) (amount : U256) : M () :=
  _burn self msg_sender amount ;;
  emit20 self (TIP20Event.Burn msg_sender amount).

Definition burn_with_memo (self msg_sender : Address) (amount : U256) (memo : B256) : M () :=
  _burn self msg_sender amount ;;
  emit20 self (TIP20Event.TransferWithMemo msg_sender ZERO_ADDRESS amount memo) ;;
  emit20 self (TIP20Event.Burn msg_sender amount).

Definition burn_blocked (self msg_sender owner : Address) (amount : U256)
    (check_protected : bool) : M () :=
  hardfork ← asks spec;
  (if is_t3 hardfork then check_not_paused self else mret ()) ;;
  check_role self msg_sender BURN_BLOCKED_ROLE ;;
  (if check_protected then check_burn_address self owner else mret ()) ;;
  policy_id ← transfer_policy_id self;
  sender ← transfer_or Sender;
  authorized ← is_authorized_as policy_id owner sender;
  require (negb authorized) (e20 TIP20Error.PolicyForbids) ;;
  let burn_from := if check_protected then owner else RECEIVE_POLICY_GUARD_ADDRESS in
  _transfer self burn_from (Recipient.direct ZERO_ADDRESS) amount ;;
  reduce_total_supply self amount ;;
  emit20 self (TIP20Event.BurnBlocked owner amount).

Definition burn_at (self msg_sender from : Address) (amount : U256) : M () :=
  check_not_paused self ;;
  check_role self msg_sender BURN_AT_ROLE ;;
  check_burn_address self from ;;
  check_and_update_spending_limit self from amount ;;
  _transfer self from (Recipient.direct ZERO_ADDRESS) amount ;;
  reduce_total_supply self amount ;;
  emit20 self (TIP20Event.BurnAt msg_sender from amount).

(** ** Approvals and permits *)

Definition approve (self msg_sender spender : Address) (amount : U256) : M bool :=
  old ← get_allowance self msg_sender spender;
  KeychainOps.authorize_approve msg_sender self old amount ;;
  set_allowance self msg_sender spender amount ;;
  emit20 self (TIP20Event.Approval msg_sender spender amount) ;;
  mret true.

(** [keccak256] of the EIP-712 type strings and of the version "1". *)
Definition PERMIT_TYPEHASH : B256 :=
  0x6e71edae12b1b97f4d1f60370fef10105fa2faae0126114a169c64845d6126c9.
Definition EIP712_DOMAIN_TYPEHASH : B256 :=
  0x8b73c3c69bb8fe3d512ecc4cf759cc79239f7b179b0ffacaa9a75d522b39400f.
Definition VERSION_HASH : B256 :=
  0xc89efdaa54c0f20c7adf612882df0950f5a951637e0307cdcb4c672f298b8bc6.

Definition nonces (self owner : Address) : M U256 :=
  rd (tip20C self) (λ s, s.(TIP20Token.permit_nonces).[owner]).

Definition domain_separator (self : Address) : M B256 :=
  n ← name self;
  keccak ← asks keccak256;
  chain ← asks chain_id;
  let name_hash := keccak (string_bytes n) in
  mret (keccak (word_bytes EIP712_DOMAIN_TYPEHASH ++ word_bytes name_hash ++
                word_bytes VERSION_HASH ++ word_bytes chain ++ word_bytes self)).

(** The digest a permit signs. *)
Definition permit_digest (self owner spender : Address) (value nonce deadline : U256) : M B256 :=
  keccak ← asks keccak256;
  let struct_hash := keccak (word_bytes PERMIT_TYPEHASH ++ word_bytes owner ++
    word_bytes spender ++ word_bytes value ++ word_bytes nonce ++ word_bytes deadline) in
  sep ← domain_separator self;
  mret (keccak ([0x19; 0x01] ++ word_bytes sep ++ word_bytes struct_hash)).

Definition permit (self owner spender : Address) (value deadline : U256)
    (v : N) (r s : B256) : M () :=
  now ← asks timestamp;
  require (negb (deadline <? now)) (e20 TIP20Error.PermitExpired) ;;
  nonce ← nonces self owner;
  digest ← permit_digest self owner spender value nonce deadline;
  signer ← recover_signer digest v r s;
  recovered ← ok_or signer (e20 TIP20Error.InvalidSignature);
  require (recovered =? owner) (e20 TIP20Error.InvalidSignature) ;;
  retired ← is_retired_root owner;
  require (negb retired) (e20 (TIP20Error.RootKeyRetired owner)) ;;
  next ← ok_or (checked_add U256_MAX nonce 1) under_overflow;
  wr (tip20C self) (TIP20Token.set_permit_nonces (insert owner next)) ;;
  set_allowance self owner spender value ;;
  emit20 self (TIP20Event.Approval owner spender value).

(** ** Transfers *)

(** The tail shared by the transfers: move the funds unless they were blocked.
    [memo] is the extra event of the memo variants. *)
Definition finish_transfer (self from : Address) (to : option Recipient.t) (amount : U256)
    (memo : option TIP20Event.t) : M () :=
  match to with
  | None => mret ()
  | Some to =>
      _transfer self from to amount ;;
      match memo with Some ev => emit20 self ev | None => mret () end ;;
      emit_hop self to amount
  end.

Definition transfer (self msg_sender to : Address) (amount : U256) : M bool :=
  r ← validate_transfer self None msg_sender to amount 0;
  finish_transfer self msg_sender r amount None ;;
  mret true.

Definition transfer_from (self msg_sender from to : Address) (amount : U256) : M bool :=
  r ← validate_transfer self (Some msg_sender) from to amount 0;
  finish_transfer self from r amount None ;;
  mret true.

Definition transfer_from_with_memo (self msg_sender from to : Address) (amount : U256)
    (memo : B256) : M bool :=
  r ← validate_transfer self (Some msg_sender) from to amount memo;
  finish_transfer self from r amount (Some (TIP20Event.TransferWithMemo from to amount memo)) ;;
  mret true.

Definition transfer_with_memo (self msg_sender to : Address) (amount : U256) (memo : B256)
    : M () :=
  r ← validate_transfer self None msg_sender to amount memo;
  finish_transfer self msg_sender r amount
    (Some (TIP20Event.TransferWithMemo msg_sender to amount memo)).

(** *** Transfers by other precompiles *)

Definition system_transfer_from (self caller from : Address) (amount : U256) : M bool :=
  sp ← asks spec;
  require (negb (is_t5 sp && negb (Registry.is_implicitly_approved caller sp)))
    (e20 TIP20Error.Unauthorized) ;;
  r ← validate_transfer self None from caller amount 0;
  finish_transfer self from r amount None ;;
  mret true.

Definition channel_reserve_transfer (self from : Address) (to : Recipient.t)
    (amount : U256) (receive_policy_sender : Address) : M () :=
  require (negb (negb (from =? TIP20_CHANNEL_RESERVE_ADDRESS)
                 && negb (Recipient.original_address to =? TIP20_CHANNEL_RESERVE_ADDRESS)))
    (e20 TIP20Error.Unauthorized) ;;
  check_not_paused self ;;
  Recipient.validate to ;;
  check_and_update_spending_limit self from amount ;;
  require (negb (to.(Recipient.target) =? RECEIVE_POLICY_GUARD_ADDRESS))
    (ReceivePolicyGuard ReceivePolicyGuardError.AddressReserved) ;;
  ensure_receive_policy_authorized self receive_policy_sender to.(Recipient.target) ;;
  _transfer self from to amount ;;
  emit_hop self to amount.

Definition release_blocked_funds (self originator receiver to : Address) (amount : U256)
    (recovery_mode : RecoveryMode) (recovery_auth : Address) : M () :=
  check_not_paused self ;;
  destination ← Recipient.resolve to;
  Recipient.validate destination ;;
  (if GuardBase.is_reroute recovery_mode to receiver then
     let policy_subject := GuardBase.policy_subject recovery_mode originator receiver in
     ensure_transfer_authorized self policy_subject destination.(Recipient.target) ;;
     blocked ← validate_receive_policy self policy_subject destination.(Recipient.target);
     require (bool_decide (blocked = None)) (e20 TIP20Error.PolicyForbids) ;;
     match GuardBase.spending_account recovery_mode recovery_auth with
     | Some addr => check_and_update_spending_limit self addr amount
     | None => mret ()
     end
   else
     role ← transfer_or Recipient;
     ensure_authorized_as self [(destination.(Recipient.target), role)]) ;;
  _transfer self RECEIVE_POLICY_GUARD_ADDRESS destination amount ;;
  emit_hop self destination amount.

(** *** Fees *)

Definition transfer_fee_pre_tx (self from : Address) (amount : U256) : M () :=
  check_not_paused self ;;
  check_and_update_spending_limit self from amount ;;
  from_reward_recipient ← update_rewards self from;
  (if negb (is_zero from_reward_recipient)
   then decrease_opted_in_supply self amount else mret ()) ;;
  decrement_balance self from amount ;;
  increment_balance self TIP_FEE_MANAGER_ADDRESS amount.

Definition transfer_fee_post_tx (self to : Address) (refund actual_spending : U256) : M () :=
  emit20 self (TIP20Event.Transfer to TIP_FEE_MANAGER_ADDRESS actual_spending) ;;
  if refund =? 0 then mret ()
  else
    sp ← asks spec;
    (if is_t1c sp then KeychainOps.refund_spending_limit to self refund else mret ()) ;;
    to_reward_recipient ← update_rewards self to;
    (if negb (is_zero to_reward_recipient)
     then increase_opted_in_supply self refund else mret ()) ;;
    decrement_balance self TIP_FEE_MANAGER_ADDRESS refund ;;
    increment_balance self to refund.

(** ** Rewards *)

Definition distribute_reward (self msg_sender : Address) (amount : U256) : M () :=
  sp ← asks spec;
  if is_t7 sp then mret ()
  else
    check_not_paused self ;;
    require (negb (amount =? 0)) (e20 TIP20Error.InvalidAmount) ;;
    ensure_transfer_authorized self msg_sender self ;;
    check_and_update_spending_limit self msg_sender amount ;;
    _transfer self msg_sender (Recipient.direct self) amount ;;
    opted_in_supply ← get_opted_in_supply self;
    require (negb (opted_in_supply =? 0)) (e20 TIP20Error.NoOptedInSupply) ;;
    delta_rpt ← ok_or (v ← checked_mul U256_MAX amount ACC_PRECISION;
                       checked_div v opted_in_supply) under_overflow;
    current_rpt ← get_global_reward_per_token self;
    new_rpt ← ok_or (checked_add U256_MAX current_rpt delta_rpt) under_overflow;
    set_global_reward_per_token self new_rpt ;;
    emit20 self (TIP20Event.RewardDistributed msg_sender amount).

Definition set_reward_recipient (self msg_sender recipient : Address) : M () :=
  sp ← asks spec;
  if is_t7 sp then mret ()
  else
    check_not_paused self ;;
    require (negb (is_t3 sp && is_virtual recipient)) (e20 TIP20Error.InvalidRecipient) ;;
    (if negb (is_zero recipient)
     then ensure_transfer_authorized self msg_sender recipient else mret ()) ;;
    from_delegate ← update_rewards self msg_sender;
    holder_balance ← get_balance self msg_sender;
    (if negb (is_zero from_delegate) then
       if is_zero recipient then decrease_opted_in_supply self holder_balance else mret ()
     else if negb (is_zero recipient) then increase_opted_in_supply self holder_balance
     else mret ()) ;;
    info ← get_user_reward_info self msg_sender;
    set_user_reward_info self msg_sender (with_recipient info recipient) ;;
    emit20 self (TIP20Event.RewardRecipientSet msg_sender recipient).

Definition claim_rewards (self msg_sender : Address) : M U256 :=
  check_not_paused self ;;
  ensure_transfer_authorized self self msg_sender ;;
  reward_recipient ← update_rewards self msg_sender;
  info ← get_user_reward_info self msg_sender;
  let amount := info.(UserRewardInfo.reward_balance) in
  contract_balance ← get_balance self self;
  let max_amount := N.min amount contract_balance in
  rest ← ok_or (checked_sub amount max_amount) under_overflow;
  set_user_reward_info self msg_sender (with_balance info rest) ;;
  (if 0 <? max_amount then
     new_contract_balance ← ok_or (checked_sub contract_balance max_amount) under_overflow;
     set_balance self self new_contract_balance ;;
     b ← get_balance self msg_sender;
     recipient_balance ← ok_or (checked_add U256_MAX b max_amount) under_overflow;
     set_balance self msg_sender recipient_balance ;;
     (if negb (is_zero reward_recipient)
      then increase_opted_in_supply self max_amount else mret ()) ;;
     emit20 self (TIP20Event.Transfer self msg_sender max_amount)
   else mret ()) ;;
  mret max_amount.

Definition get_pending_rewards (self account : Address) : M N :=
  info ← get_user_reward_info self account;
  let pending := info.(UserRewardInfo.reward_balance) in
  sp ← asks spec;
  if is_t8 sp then ok_or (try_into U128_MAX pending) under_overflow
  else
    pending ←
      (if info.(UserRewardInfo.reward_recipient) =? account then
         holder_balance ← get_balance self account;
         if 0 <? holder_balance then
           global ← get_global_reward_per_token self;
           delta ← ok_or (checked_sub global info.(UserRewardInfo.reward_per_token)) under_overflow;
           if 0 <? delta then
             a ← ok_or (accrued holder_balance delta) under_overflow;
             ok_or (checked_add U256_MAX pending a) under_overflow
           else mret pending
         else mret pending
       else mret pending);
    ok_or (try_into U128_MAX pending) under_overflow.

(** ** Creation *)

Definition initialize (self msg_sender : Address) (name_ symbol_ currency_ : string)
    (quote admin : Address) : M () :=
  initialize_code self ;;
  wr (tip20C self) (TIP20Token.set_name (λ _, name_)) ;;
  wr (tip20C self) (TIP20Token.set_symbol (λ _, symbol_)) ;;
  wr (tip20C self) (TIP20Token.set_currency (λ _, currency_)) ;;
  wr (tip20C self) (TIP20Token.set_quote_token (λ _, quote)) ;;
  wr (tip20C self) (TIP20Token.set_next_quote_token (λ _, quote)) ;;
  wr (tip20C self) (TIP20Token.set_supply_cap (λ _, U128_MAX)) ;;
  sp ← asks spec;
  (if is_t9 sp then set_token_transfer_policy self ALLOW_ALL_POLICY_ID
   else wr (tip20C self) (TIP20Token.set_transfer_policy_id (λ _, ALLOW_ALL_POLICY_ID))) ;;
  initialize_roles self ;;
  grant_default_admin self msg_sender admin.

(** ** ABI dispatch *)

Inductive op :=
| Transfer_ (to : Address) (amount : U256)
| TransferFrom (from to : Address) (amount : U256)
| TransferWithMemo (to : Address) (amount : U256) (memo : B256)
| TransferFromWithMemo (from to : Address) (amount : U256) (memo : B256)
| Approve (spender : Address) (amount : U256)
| Permit (owner spender : Address) (value deadline : U256) (v : N) (r s : B256)
| Mint (to : Address) (amount : U256)
| MintWithMemo (to : Address) (amount : U256) (memo : B256)
| Burn (amount : U256)
| BurnWithMemo (amount : U256) (memo : B256)
| BurnBlocked (from : Address) (amount : U256)
| BurnAt (from : Address) (amount : U256)
| DistributeReward (amount : U256)
| SetRewardRecipient (recipient : Address)
| ClaimRewards
| ChangeTransferPolicyId (newPolicyId : N)
| SetSupplyCap (newSupplyCap : U256)
| SetLogoURI (newLogoURI : string)
| Pause
| Unpause
| SetNextQuoteToken (newQuoteToken : Address)
| CompleteQuoteTokenUpdate
| GrantRole (role : B256) (account : Address)
| RevokeRole (role : B256) (account : Address)
| RenounceRole (role : B256)
| SetRoleAdmin (role adminRole : B256).

(** The state-changing part of [dispatch.rs], without the ABI encoding of the
    results: the token must be initialized, scheduled selectors exist from their
    hardfork on, and static calls are refused. *)
Definition dispatch_body (self msg_sender : Address) (o : op) : M () :=
  match o with
  | Transfer_ to amount => mutate (transfer self msg_sender to amount ;; mret ())
  | TransferFrom from to amount => mutate (transfer_from self msg_sender from to amount ;; mret ())
  | TransferWithMemo to amount memo => mutate (transfer_with_memo self msg_sender to amount memo)
  | TransferFromWithMemo from to amount memo =>
      mutate (transfer_from_with_memo self msg_sender from to amount memo ;; mret ())
  | Approve spender amount => mutate (approve self msg_sender spender amount ;; mret ())
  | Permit owner spender value deadline v r s =>
      scheduled T2 (mutate (permit self owner spender value deadline v r s))
  | Mint to amount => mutate (mint self msg_sender to amount)
  | MintWithMemo to amount memo => mutate (mint_with_memo self msg_sender to amount memo)
  | Burn amount => mutate (burn self msg_sender amount)
  | BurnWithMemo amount memo => mutate (burn_with_memo self msg_sender amount memo)
  | BurnBlocked from amount => mutate (burn_blocked self msg_sender from amount true)
  | BurnAt from amount => scheduled T12 (mutate (burn_at self msg_sender from amount))
  | DistributeReward amount => mutate (distribute_reward self msg_sender amount)
  | SetRewardRecipient recipient => mutate (set_reward_recipient self msg_sender recipient)
  | ClaimRewards => mutate (claim_rewards self msg_sender ;; mret ())
  | ChangeTransferPolicyId id => mutate (change_transfer_policy_id self msg_sender id)
  | SetSupplyCap cap => mutate (set_supply_cap self msg_sender cap)
  | SetLogoURI uri => scheduled T5 (mutate (set_logo_uri self msg_sender uri))
  | Pause => mutate (pause self msg_sender)
  | Unpause => mutate (unpause self msg_sender)
  | SetNextQuoteToken q => mutate (set_next_quote_token self msg_sender q)
  | CompleteQuoteTokenUpdate => mutate (complete_quote_token_update self msg_sender)
  | GrantRole role account => mutate (grant_role self msg_sender role account)
  | RevokeRole role account => mutate (revoke_role self msg_sender role account)
  | RenounceRole role => mutate (renounce_role self msg_sender role)
  | SetRoleAdmin role adminRole => mutate (set_role_admin self msg_sender role adminRole)
  end.

Definition dispatch (self msg_sender : Address) (o : op) : M () :=
  initialized ← has_code self;
  require initialized (e20 TIP20Error.Uninitialized) ;;
  dispatch_body self msg_sender o.

End TokenOps.
