(* ===== verification/Reserve.v ===== *)
(** * The channel reserve

    [tip20_channel_reserve/mod.rs]: payment channels between a payer and a payee. The
    payer locks a deposit of a token; the payee, or an operator the payer named, settles
    vouchers the payer signed for cumulative amounts; the payee closes the channel, or
    the payer withdraws the rest a grace period after asking for it.

    A channel is identified by the hash of its descriptor, the contract and the chain;
    the descriptor contains a hash of the transaction that opened it, which the handler
    puts into transient storage ([start_transaction]). The slot of a channel counts for
    storage credits, so its writes go through [Credits.sstore_slot]. A Rust [expect] is
    [expect] here: it throws, and [ReserveSpec.v] shows that it never does. *)

From S2P Require Import Prelude Hardfork Address Bytes Signature Errors State Monad.
From S2P Require Import StorageCredits AddressRegistry Tip20Base Keychain Verifier Tip403 Tip20Core Guard Tip20.

Module Reserve.
Import PackedChannelState ChannelReserve ChannelDescriptor.

Abbreviation self := TIP20_CHANNEL_RESERVE_ADDRESS.
Abbreviation ecr := (λ x, TIP20ChannelReserve x).
Abbreviation emitR ev := (emit self (ReserveEv ev)).

Definition CLOSE_GRACE_PERIOD : N := 15 * 60.
Definition U96_MAX : N := 2 ^ 96 - 1.
Definition VOUCHER_TYPE : string := "Voucher(bytes32 channelId,uint96 cumulativeAmount)".
Definition DOMAIN_TYPE : string :=
  "EIP712Domain(string name,string version,uint256 chainId,address verifyingContract)".

Definition expect {A} (o : option A) (msg : string) : M A := ok_or o (Fatal msg).

(** ** Channel states *)

(** [PackedChannelState::exists]. *)
Definition is_open (c : PackedChannelState.t) : bool := negb (c.(deposit) =? 0).
Definition close_requested (c : PackedChannelState.t) : option N :=
  if negb (c.(close_requested_at) =? 0) then Some c.(close_requested_at) else None.
Definition receive_policy_sender (c : PackedChannelState.t) (payer : Address) : Address :=
  if c.(uses_logical_receive_policy_sender) then payer else self.

(** The word of the slot: two [U96]s, a [u32] and a [bool], packed from the low end. *)
Definition channel_word (c : PackedChannelState.t) : U256 :=
  c.(settled) + c.(deposit) * 2 ^ 96 + c.(close_requested_at) * 2 ^ 192 +
  (if c.(uses_logical_receive_policy_sender) then 2 ^ 224 else 0).

Definition read_state (id : B256) : M PackedChannelState.t := rd reserveC (λ s, s.(channel_states).[id]).
Definition write_state (id : B256) (c : PackedChannelState.t) : M () :=
  old ← read_state id;
  wr reserveC (set_channel_states (insert id c)) ;;
  Credits.sstore_slot self (channel_word old) (channel_word c).
Definition delete_state (id : B256) : M () :=
  old ← read_state id;
  wr reserveC (set_channel_states (delete id)) ;;
  Credits.sstore_slot self (channel_word old) 0.

Definition storage_credits (payer : Address) : M N := rd reserveC (λ s, s.(channel_storage_credits).[payer]).
Definition write_storage_credits (payer : Address) (n : N) : M () :=
  old ← storage_credits payer;
  wr reserveC (set_channel_storage_credits (insert payer n)) ;;
  Credits.sstore_slot self old n.

Definition credit_channel_storage_slots (payer : Address) (slots : N) : M () :=
  if slots =? 0 then mret ()
  else
    current ← storage_credits payer;
    let updated := saturating_add U64_MAX current slots in
    if current =? 0 then
      '(_, delta) ← Credits.with_budget self 1 (write_storage_credits payer updated);
      require (delta =? -1)%Z (Fatal "channel storage credit bookkeeping spend mismatch")
    else write_storage_credits payer updated.

Definition delete_channel_state_and_credit_payer (channel_id : B256) (payer : Address) : M () :=
  '(_, credits) ← Credits.track_minted_credits self (delete_state channel_id);
  credit_channel_storage_slots payer credits.

Definition write_channel_state_spending_credit (payer : Address) (channel_id : B256)
    (state : PackedChannelState.t) : M () :=
  sp ← asks spec;
  if negb (is_t7 sp) then write_state channel_id state
  else
    current ← storage_credits payer;
    if current =? 0 then write_state channel_id state
    else
      write_storage_credits payer 0 ;;
      '(_, delta) ← Credits.with_budget self current (write_state channel_id state);
      let spent_credits := if (delta <? 0)%Z then Z.to_N (- delta) else 0 in
      require (spent_credits =? 1) (Fatal "channel storage credit spend mismatch") ;;
      credit_channel_storage_slots payer (saturating_sub current spent_credits).

(** ** Identities and vouchers *)

Definition now_u32 : M N := asks (λ e, saturating_to U32_MAX (timestamp e)).

(** The ABI encoding of static fields is one word each. *)
Definition words (l : list N) : bytes := l ≫= word_bytes.

Definition channel_id_of (keccak : bytes → B256) (chain : N) (d : ChannelDescriptor.t) : B256 :=
  keccak (words [d.(payer); d.(payee); d.(operator); d.(token); d.(salt); d.(authorizedSigner);
                 d.(expiringNonceHash); self; chain]).
Definition channel_id (d : ChannelDescriptor.t) : M B256 :=
  asks (λ e, channel_id_of (keccak256 e) (chain_id e) d).

Definition domain_separator_inner (keccak : bytes → B256) (chain : N) : B256 :=
  keccak (words [keccak (string_bytes DOMAIN_TYPE); keccak (string_bytes "TIP20 Channel Reserve");
                 keccak (string_bytes "1"); chain; self]).
(** The compile-time separators of the two public networks pad the address by hand. *)
Definition const_domain_separator (keccak : bytes → B256) (chain : N) : B256 :=
  keccak (word_bytes (keccak (string_bytes DOMAIN_TYPE)) ++
          word_bytes (keccak (string_bytes "TIP20 Channel Reserve")) ++
          word_bytes (keccak (string_bytes "1")) ++ word_bytes chain ++
          replicate 12 0 ++ address_bytes self).
Definition MAINNET_CHAIN_ID : N := 4217.
Definition MODERATO_CHAIN_ID : N := 42431.
Definition domain_separator (e : Env) : B256 :=
  if (chain_id e =? MAINNET_CHAIN_ID) || (chain_id e =? MODERATO_CHAIN_ID)
  then const_domain_separator (keccak256 e) (chain_id e)
  else domain_separator_inner (keccak256 e) (chain_id e).

Definition get_voucher_digest_inner (e : Env) (channel_id : B256) (cumulative_amount : N) : B256 :=
  let struct_hash :=
    keccak256 e (words [keccak256 e (string_bytes VOUCHER_TYPE); channel_id; cumulative_amount]) in
  keccak256 e ([0x19; 0x01] ++ word_bytes (domain_separator e) ++ word_bytes struct_hash).

Definition expected_signer (d : ChannelDescriptor.t) : Address :=
  if is_zero d.(authorizedSigner) then d.(payer) else d.(authorizedSigner).

Definition validate_voucher (d : ChannelDescriptor.t) (channel_id : B256) (cumulative_amount : N)
    (signature : bytes) : M () :=
  digest ← asks (λ e, get_voucher_digest_inner e channel_id cumulative_amount);
  signer ← map_err (λ _, ecr TIP20ChannelReserveError.InvalidSignature) (Verifier.recover digest signature);
  require (signer =? expected_signer d) (ecr TIP20ChannelReserveError.InvalidSignature) ;;
  retired ← is_retired_root signer;
  require (negb retired) (ecr (TIP20ChannelReserveError.RootKeyRetired signer)).

Definition load_existing_state (channel_id : B256) : M PackedChannelState.t :=
  state ← read_state channel_id;
  require (is_open state) (ecr TIP20ChannelReserveError.ChannelNotFound) ;;
  mret state.

Definition ensure_payee_or_operator (msg_sender : Address) (d : ChannelDescriptor.t) : M () :=
  require (negb (negb (msg_sender =? d.(payee)) && (is_zero d.(operator) || negb (msg_sender =? d.(operator)))))
    (ecr TIP20ChannelReserveError.NotPayeeOrOperator).

(** ** Transactions *)

(** Transient storage is empty when a transaction starts; the handler then seeds the hash
    of the transaction, if it has one. *)
Definition start_transaction (hash : option B256) : M () :=
  wr reserveC (set_opened_this_tx (λ _, ∅)) ;;
  wr reserveC (set_channel_open_context_hash (λ _, default 0 hash)).

Definition enclosing_channel_open_context_hash : M B256 :=
  hash ← rd reserveC channel_open_context_hash;
  require (negb (hash =? 0)) (ecr TIP20ChannelReserveError.ExpiringNonceHashNotSet) ;;
  mret hash.

(** ** Operations *)

Definition open (msg_sender payee operator token : Address) (amount : N) (salt : B256)
    (authorizedSigner : Address) : M B256 :=
  require (negb (is_zero payee || is_tip20_prefix payee ||
                 (is_virtual payee && (is_zero operator || is_virtual operator))))
    (ecr TIP20ChannelReserveError.InvalidPayee) ;;
  from_address token ;;
  require (negb (amount =? 0)) (ecr TIP20ChannelReserveError.ZeroDeposit) ;;
  expiring_nonce_hash ← enclosing_channel_open_context_hash;
  let d := ChannelDescriptor.mk msg_sender payee operator token salt authorizedSigner expiring_nonce_hash in
  id ← channel_id d;
  old ← read_state id;
  opened ← rd reserveC (λ s, s.(opened_this_tx).[id]);
  require (negb (is_open old || opened)) (ecr TIP20ChannelReserveError.ChannelAlreadyExists) ;;
  sp ← asks spec;
  (if is_t12 sp then
     r ← Recipient.resolve payee;
     Token.ensure_transfer_authorized token msg_sender r.(Recipient.target) ;;
     Token.ensure_receive_policy_authorized token msg_sender r.(Recipient.target) ;;
     TokenOps.channel_reserve_transfer token msg_sender (Recipient.direct self) amount msg_sender
   else
     r ← Recipient.resolve payee;
     Token.ensure_authorized_as token [(r.(Recipient.target), Policies.Recipient)] ;;
     TokenOps.system_transfer_from token self msg_sender amount ;; mret ()) ;;
  write_channel_state_spending_credit msg_sender id (PackedChannelState.mk 0 amount 0 (is_t12 sp)) ;;
  wr reserveC (set_opened_this_tx (insert id true)) ;;
  emitR (TIP20ChannelReserveEvent.ChannelOpened id d amount) ;;
  mret id.

Definition settle (msg_sender : Address) (d : ChannelDescriptor.t) (cumulative : N) (signature : bytes) : M () :=
  id ← channel_id d;
  state ← load_existing_state id;
  ensure_payee_or_operator msg_sender d ;;
  require (negb (state.(deposit) <? cumulative)) (ecr TIP20ChannelReserveError.AmountExceedsDeposit) ;;
  require (negb (cumulative <=? state.(settled))) (ecr TIP20ChannelReserveError.AmountNotIncreasing) ;;
  validate_voucher d id cumulative signature ;;
  delta ← expect (checked_sub cumulative state.(settled)) "cumulative amount already checked to be increasing";
  from_address d.(token) ;;
  sp ← asks spec;
  let state' := PackedChannelState.set_settled (λ _, cumulative) state in
  (if is_t12 sp then
     r ← Recipient.resolve d.(payee);
     Token.ensure_transfer_authorized d.(token) d.(payer) r.(Recipient.target) ;;
     TokenOps.channel_reserve_transfer d.(token) self r delta (receive_policy_sender state d.(payer)) ;;
     write_state id state'
   else
     Token.ensure_authorized_as d.(token) [(d.(payer), Policies.Sender)] ;;
     write_state id state' ;;
     TokenOps.transfer d.(token) self d.(payee) delta ;; mret ()) ;;
  emitR (TIP20ChannelReserveEvent.Settled id d.(payer) d.(payee) cumulative delta cumulative).

Definition top_up (msg_sender : Address) (d : ChannelDescriptor.t) (additional : N) : M () :=
  id ← channel_id d;
  state ← load_existing_state id;
  require (msg_sender =? d.(payer)) (ecr TIP20ChannelReserveError.NotPayer) ;;
  let had_close_request := bool_decide (is_Some (close_requested state)) in
  if (additional =? 0) && negb had_close_request then mret ()
  else
    state ←
      (if negb (additional =? 0) then
         next_deposit ← ok_or (checked_add U96_MAX state.(deposit) additional)
                          (ecr TIP20ChannelReserveError.DepositOverflow);
         let state := PackedChannelState.set_deposit (λ _, next_deposit) state in
         from_address d.(token) ;;
         sp ← asks spec;
         (if is_t12 sp then
            r ← Recipient.resolve d.(payee);
            Token.ensure_transfer_authorized d.(token) msg_sender r.(Recipient.target) ;;
            Token.ensure_receive_policy_authorized d.(token) (receive_policy_sender state msg_sender)
              r.(Recipient.target) ;;
            TokenOps.channel_reserve_transfer d.(token) msg_sender (Recipient.direct self) additional msg_sender
          else
            r ← Recipient.resolve d.(payee);
            Token.ensure_authorized_as d.(token) [(r.(Recipient.target), Policies.Recipient)] ;;
            TokenOps.system_transfer_from d.(token) self msg_sender additional ;; mret ()) ;;
         mret state
       else mret state);
    let state := if had_close_request then PackedChannelState.set_close_requested_at (λ _, 0) state else state in
    write_state id state ;;
    (if had_close_request then
       emitR (TIP20ChannelReserveEvent.CloseRequestCancelled id d.(payer) d.(payee))
     else mret ()) ;;
    emitR (TIP20ChannelReserveEvent.TopUp id d.(payer) d.(payee) additional state.(deposit)).

(** The event carries [u64] arithmetic, which wraps in release builds. *)
Definition request_close (msg_sender : Address) (d : ChannelDescriptor.t) : M () :=
  id ← channel_id d;
  state ← load_existing_state id;
  require (msg_sender =? d.(payer)) (ecr TIP20ChannelReserveError.NotPayer) ;;
  if bool_decide (is_Some (close_requested state)) then mret ()
  else
    close_requested_at ← now_u32;
    write_state id (PackedChannelState.set_close_requested_at (λ _, close_requested_at) state) ;;
    now ← now_u64;
    emitR (TIP20ChannelReserveEvent.CloseRequested id d.(payer) d.(payee)
             ((now + CLOSE_GRACE_PERIOD) mod 2 ^ 64)).

Definition close (msg_sender : Address) (d : ChannelDescriptor.t) (cumulative capture : N)
    (signature : bytes) : M () :=
  id ← channel_id d;
  state ← load_existing_state id;
  ensure_payee_or_operator msg_sender d ;;
  let previous_settled := state.(settled) in
  require (negb ((capture <? previous_settled) || (cumulative <? capture)))
    (ecr TIP20ChannelReserveError.CaptureAmountInvalid) ;;
  require (negb (state.(deposit) <? capture)) (ecr TIP20ChannelReserveError.AmountExceedsDeposit) ;;
  (if previous_settled <? capture then validate_voucher d id cumulative signature else mret ()) ;;
  delta ← expect (checked_sub capture previous_settled)
            "capture amount already checked against previous settled amount";
  refund ← expect (checked_sub state.(deposit) capture) "capture amount already checked against deposit";
  sp ← asks spec;
  (if is_t12 sp then
     from_address d.(token) ;;
     (if negb (delta =? 0) then
        r ← Recipient.resolve d.(payee);
        Token.ensure_transfer_authorized d.(token) d.(payer) r.(Recipient.target) ;;
        TokenOps.channel_reserve_transfer d.(token) self r delta (receive_policy_sender state d.(payer))
      else mret ()) ;;
     (if negb (refund =? 0) then
        r ← Recipient.resolve d.(payer);
        TokenOps.channel_reserve_transfer d.(token) self r refund self
      else mret ()) ;;
     delete_channel_state_and_credit_payer id d.(payer)
   else
     delete_channel_state_and_credit_payer id d.(payer) ;;
     from_address d.(token) ;;
     (if negb (delta =? 0) then
        Token.ensure_authorized_as d.(token) [(d.(payer), Policies.Sender)] ;;
        TokenOps.transfer d.(token) self d.(payee) delta ;; mret ()
      else mret ()) ;;
     (if negb (refund =? 0) then TokenOps.transfer d.(token) self d.(payer) refund ;; mret ()
      else mret ())) ;;
  emitR (TIP20ChannelReserveEvent.ChannelClosed id d.(payer) d.(payee) capture refund).

Definition withdraw (msg_sender : Address) (d : ChannelDescriptor.t) : M () :=
  id ← channel_id d;
  state ← load_existing_state id;
  require (msg_sender =? d.(payer)) (ecr TIP20ChannelReserveError.NotPayer) ;;
  now ← now_u64;
  let close_ready :=
    match close_requested state with
    | Some requested_at => requested_at + CLOSE_GRACE_PERIOD <=? now
    | None => false
    end in
  require close_ready (ecr TIP20ChannelReserveError.CloseNotReady) ;;
  refund ← expect (checked_sub state.(deposit) state.(settled)) "settled is always <= deposit";
  sp ← asks spec;
  (if is_t12 sp then
     (if negb (refund =? 0) then
        from_address d.(token) ;;
        r ← Recipient.resolve d.(payer);
        TokenOps.channel_reserve_transfer d.(token) self r refund self
      else mret ()) ;;
     delete_channel_state_and_credit_payer id d.(payer)
   else
     delete_channel_state_and_credit_payer id d.(payer) ;;
     (if negb (refund =? 0) then
        from_address d.(token) ;; TokenOps.transfer d.(token) self d.(payer) refund ;; mret ()
      else mret ())) ;;
  emitR (TIP20ChannelReserveEvent.ChannelClosed id d.(payer) d.(payee) state.(settled) refund).

Definition get_channel_state (id : B256) : M (N * N * N) :=
  c ← read_state id; mret (c.(settled), c.(deposit), c.(close_requested_at)).

(** ** Dispatch *)

Inductive op :=
| Open (payee operator token : Address) (amount : N) (salt : B256) (authorizedSigner : Address)
| Settle (d : ChannelDescriptor.t) (cumulative : N) (signature : bytes)
| TopUp (d : ChannelDescriptor.t) (additional : N)
| Close (d : ChannelDescriptor.t) (cumulative capture : N) (signature : bytes)
| RequestClose (d : ChannelDescriptor.t)
| Withdraw (d : ChannelDescriptor.t).

Definition run_op (sender : Address) (o : op) : M () :=
  match o with
  | Open payee operator token amount salt signer =>
      open sender payee operator token amount salt signer ;; mret ()
  | Settle d cumulative signature => settle sender d cumulative signature
  | TopUp d additional => top_up sender d additional
  | Close d cumulative capture signature => close sender d cumulative capture signature
  | RequestClose d => request_close sender d
  | Withdraw d => withdraw sender d
  end.

(** The reserve is routed to from T5 on. *)
Definition dispatch (sender : Address) (o : op) : M () :=
  scheduled T5 (mutate (Credits.preserve_storage_credits self ;; run_op sender o)).

End Reserve.
