(* ===== verification/Dex.v ===== *)
(** * The stablecoin DEX

    [stablecoin_dex/mod.rs] and [stablecoin_dex/dispatch.rs]: pairs, limit and flip
    orders, fills, swaps over routes of books, cancellations, quotes, internal
    balances and reusable-storage credits of makers. *)

From S2P Require Import Prelude Packing Hardfork Address Errors DexState State Monad.
From S2P Require Import StorageCredits DexOrder DexBook Tip20Base Tip403 Tip20Core Tip20.

Module DexOps.
Import Book.

Definition MIN_ORDER_AMOUNT : N := 100000000.
Abbreviation self := STABLECOIN_DEX_ADDRESS.

Definition emitD (ev : StablecoinDEXEvent.t) : M () := emit self (DexEv ev).

(** ** Order ids *)

Definition next_order_id : M N := rd dexC (λ s, N.max s.(Dex.next_order_id) 1).
Definition write_next_order_id (id : N) : M () :=
  old ← rd dexC Dex.next_order_id;
  wr dexC (Dex.set_next_order_id (λ _, id)) ;;
  Credits.sstore_slot self old id.
(** [u128] addition as the release build does it. *)
Definition wrapping_inc (x : N) : N := (x + 1) mod 2 ^ 128.
Definition increment_next_order_id : M () :=
  id ← next_order_id; write_next_order_id (wrapping_inc id).

(** ** Internal balances *)

Definition balance_of (user token : Address) : M N :=
  rd dexC (λ s, s.(Dex.balances).[(user, token)]).
Definition set_balance (user token : Address) (amount : N) : M () :=
  old ← balance_of user token;
  wr dexC (Dex.set_balances (insert (user, token) amount)) ;;
  Credits.sstore_slot self old amount.
Definition increment_balance (user token : Address) (amount : N) : M () :=
  current ← balance_of user token;
  new ← ok_or (checked_add U128_MAX current amount) under_overflow;
  set_balance user token new.
Definition sub_balance (user token : Address) (amount : N) : M () :=
  current ← balance_of user token;
  new ← ok_or (checked_sub current amount) under_overflow;
  set_balance user token new.

(** ** Storage credits of makers *)

Definition storage_credits (user : Address) : M N :=
  rd dexC (λ s, s.(Dex.dex_storage_credits).[user]).
Definition write_storage_credits (user : Address) (n : N) : M () :=
  old ← storage_credits user;
  wr dexC (Dex.set_dex_storage_credits (insert user n)) ;;
  Credits.sstore_slot self old n.

Definition credit_dex_storage_slots (user : Address) (slots : N) : M () :=
  sp ← asks spec;
  if (slots =? 0) || negb (is_t7 sp) then mret ()
  else
    current ← storage_credits user;
    let updated := saturating_add U64_MAX current slots in
    if negb (current =? 0) then write_storage_credits user updated
    else
      '(_, delta) ← Credits.with_budget self 1 (write_storage_credits user updated);
      require (delta =? -1)%Z (Fatal "DEX storage credit bookkeeping spend mismatch").

Definition delete_order (o : Order.t) : M N :=
  '(_, credits) ← Credits.track_minted_credits self (Orders.delete o.(Order.order_id));
  mret credits.
Definition rewrite_order (o : Order.t) (book_id : N) : M N :=
  '(_, credits) ← Credits.track_minted_credits self (Orders.write_in_book o.(Order.order_id) o book_id);
  mret credits.
Definition unlink_neighbor_and_credit_maker (order_id : N) (update : M ()) : M () :=
  '(_, credits) ← Credits.track_minted_credits self update;
  if credits =? 0 then mret ()
  else
    maker ← Orders.record_maker_of order_id;
    credit_dex_storage_slots maker credits.
Definition delete_order_and_track_deltas (d : Credits.deltas) (o : Order.t) : M Credits.deltas :=
  credits ← delete_order o;
  mret (Credits.credit_slots o.(Order.maker) credits d).

Definition write_order_spending_dex_storage_credits (o : Order.t) (book_id : N) : M () :=
  let user := o.(Order.maker) in
  user_credits ← storage_credits user;
  if user_credits =? 0 then Orders.write_in_book o.(Order.order_id) o book_id
  else
    write_storage_credits user 0 ;;
    '(_, delta) ← Credits.with_budget self user_credits (Orders.write_in_book o.(Order.order_id) o book_id);
    let spent_credits := if (delta <? 0)%Z then Z.to_N (- delta) else 0 in
    credit_dex_storage_slots user (saturating_sub user_credits spent_credits).

(** ** Token transfers *)

Definition transfer (token to : Address) (amount : N) : M () :=
  from_address token ;;
  TokenOps.transfer token self to amount ;; mret ().
Definition transfer_from (token sender : Address) (amount : N) : M () :=
  sp ← asks spec;
  from_address token ;;
  (if is_t5 sp then TokenOps.system_transfer_from token self sender amount
   else TokenOps.transfer_from token self sender self amount) ;; mret ().

Definition decrement_balance_or_transfer_from (sender token : Address) (amount : N)
    (check_pause : bool) : M () :=
  from_address token ;;
  Token.ensure_transfer_authorized token sender self ;;
  user_balance ← balance_of sender token;
  if amount <=? user_balance then
    sp ← asks spec;
    (if check_pause && is_t4 sp then Token.check_not_paused token else mret ()) ;;
    sub_balance sender token amount
  else
    remaining ← ok_or (checked_sub amount user_balance) under_overflow;
    transfer_from token sender remaining ;;
    set_balance sender token 0.

(** ** Pairs *)

Definition books (pair_key : B256) : M Orderbook.t := read_book pair_key.
Definition get_book_keys : M (list B256) := rd dexC Dex.book_keys.
Definition book_key_index (book_key : B256) : M (option N) :=
  b ← read_book book_key;
  require (is_initialized b) (dexE StablecoinDEXError.PairDoesNotExist) ;;
  mret (Orders.book_id_index b.(Orderbook.book_id)).

Definition as_u32 (n : N) : N := n mod 2 ^ 32.
(** [BookId::from_index]. *)
Definition book_id_from_index (index : N) : N := as_u32 (index + 1).

Definition set_book_index (index : N) : M () :=
  book_key ← Orders.book_key_for_index index;
  current ← book_key_index book_key;
  match current with
  | Some current_index =>
      require (index =? current_index) (dexE StablecoinDEXError.IndexAlreadySet)
  | None => write_ticks book_key (Orderbook.set_book_id (λ _, book_id_from_index index))
  end.

Definition push_book_key (key : B256) : M () :=
  keys ← get_book_keys;
  let len := N.of_nat (length keys) in
  wr dexC (Dex.set_book_keys (λ l, l ++ [key])) ;;
  Credits.sstore_slots self [0; len] [key; len + 1].

Definition create_pair (base : Address) : M B256 :=
  ok ← is_tip20 base;
  require ok (dexE StablecoinDEXError.InvalidBaseToken) ;;
  from_address base ;;
  quote ← Token.quote_token base;
  TokenOps.validate_usd_currency base ;;
  TokenOps.validate_usd_currency quote ;;
  book_key ← compute_book_key base quote;
  b ← read_book book_key;
  require (negb (is_initialized b)) (dexE StablecoinDEXError.PairAlreadyExists) ;;
  sp ← asks spec;
  keys ← get_book_keys;
  let index := as_u32 (N.of_nat (length keys)) in
  let book := if is_t8 sp
              then Orderbook.set_book_id (λ _, book_id_from_index index) (new_book base quote)
              else new_book base quote in
  write_book book_key book ;;
  push_book_key book_key ;;
  emitD (StablecoinDEXEvent.PairCreated book_key base quote) ;;
  mret book_key.
Definition validate_or_create_pair (b : Orderbook.t) (token : Address) : M () :=
  if negb (is_initialized b) then create_pair token ;; mret () else mret ().

Definition dex_tick_to_price (tick : Z) : M N :=
  sp ← asks spec;
  (if is_t2 sp then validate_tick_spacing tick else mret ()) ;;
  mret (tick_to_price tick).
Definition dex_price_to_tick (price : N) : M Z :=
  tick ← price_to_tick price;
  sp ← asks spec;
  (if is_t2 sp then validate_tick_spacing tick else mret ()) ;;
  mret tick.

(** ** Placing orders *)

Definition get_order (order_id : N) : M Order.t :=
  o ← Orders.read order_id;
  next ← next_order_id;
  require (negb (is_zero o.(Order.maker)) && (o.(Order.order_id) <? next))
    (dexE StablecoinDEXError.OrderDoesNotExist) ;;
  mret o.

(** Linking at the tail of the level; the first order of a tick also sets its bit
    and may improve the best tick. *)
Definition link_at_tail (b : Orderbook.t) (level : TickLevel.t) (o : Order.t)
    : M (TickLevel.t * Order.t) :=
  let key := o.(Order.book_key) in
  let id := o.(Order.order_id) in
  let is_bid := o.(Order.is_bid) in
  let tick := o.(Order.tick) in
  let prev_tail := level.(TickLevel.tail) in
  if prev_tail =? 0 then
    set_tick_bit key tick is_bid ;;
    (if is_bid then
       if (b.(Orderbook.best_bid_tick) <? tick)%Z then write_best_tick key true tick else mret ()
     else if (tick <? b.(Orderbook.best_ask_tick))%Z then write_best_tick key false tick
     else mret ()) ;;
    mret (TickLevel.mk id id level.(TickLevel.total_liquidity), o)
  else
    sp ← asks spec;
    (if is_t8 sp then Orders.write_next prev_tail id
     else
       prev_order ← Orders.read_in_book prev_tail key;
       Orders.write_in_book prev_tail (Order.set_next (λ _, id) prev_order)
         b.(Orderbook.book_id)) ;;
    mret (TickLevel.mk level.(TickLevel.head) id level.(TickLevel.total_liquidity),
          Order.set_prev (λ _, prev_tail) o).

Definition commit_order_to_book (o : Order.t) (charge_credits : bool) : M () :=
  let key := o.(Order.book_key) in
  b ← read_book key;
  level ← level_read key o.(Order.tick) o.(Order.is_bid);
  '(level, o) ← link_at_tail b level o;
  sp ← asks spec;
  level ← (if negb (is_t12 sp) then
             total ← ok_or (checked_add U128_MAX level.(TickLevel.total_liquidity)
                              o.(Order.remaining)) under_overflow;
             mret (TickLevel.set_total_liquidity (λ _, total) level)
           else mret level);
  level_write key o.(Order.tick) o.(Order.is_bid) level ;;
  if charge_credits && is_t7 sp then
    write_order_spending_dex_storage_credits o b.(Orderbook.book_id)
  else if negb charge_credits && is_t8 sp then
    credits ← rewrite_order o b.(Orderbook.book_id);
    credit_dex_storage_slots o.(Order.maker) credits
  else Orders.write_in_book o.(Order.order_id) o b.(Orderbook.book_id).

(** The escrow of an order: token and amount locked, and the token received. *)
Definition escrow (is_bid : bool) (amount : N) (tick : Z) (base quote : Address)
    : M (Address * N * Address) :=
  if is_bid then
    quote_amount ← ok_or (base_to_quote amount tick Up)
                     (dexE StablecoinDEXError.InsufficientBalance);
    mret (quote, quote_amount, base)
  else mret (base, amount, quote).

(** The checks on the token an order receives when it fills. *)
Definition check_non_escrow (token sender : Address) : M () :=
  from_address token ;;
  Token.ensure_transfer_authorized token self sender ;;
  sp ← asks spec;
  if is_t4 sp then Token.check_not_paused token else mret ().

Definition place (sender token : Address) (amount : N) (is_bid : bool) (tick : Z) : M N :=
  from_address token ;;
  quote_token ← Token.quote_token token;
  book_key ← compute_book_key token quote_token;
  b ← read_book book_key;
  validate_or_create_pair b token ;;
  require (in_tick_range tick) (dexE (StablecoinDEXError.TickOutOfBounds tick)) ;;
  require (is_spaced tick) (dexE StablecoinDEXError.InvalidTick) ;;
  require (negb (amount <? MIN_ORDER_AMOUNT))
    (dexE (StablecoinDEXError.BelowMinimumOrderSize amount)) ;;
  '(escrow_token, escrow_amount, non_escrow_token) ← escrow is_bid amount tick token quote_token;
  check_non_escrow non_escrow_token sender ;;
  decrement_balance_or_transfer_from sender escrow_token escrow_amount true ;;
  order_id ← next_order_id;
  increment_next_order_id ;;
  commit_order_to_book
    (if is_bid then Orders.new_bid order_id sender book_key amount tick
     else Orders.new_ask order_id sender book_key amount tick) true ;;
  emitD (StablecoinDEXEvent.OrderPlaced order_id sender token amount is_bid tick false 0) ;;
  mret order_id.

Definition place_flip (sender token : Address) (amount : N) (is_bid : bool) (tick flip_tick : Z)
    (internal_balance_only : bool) : M N :=
  from_address token ;;
  quote_token ← Token.quote_token token;
  book_key ← compute_book_key token quote_token;
  checkpoint (
    b ← read_book book_key;
    validate_or_create_pair b token ;;
    require (in_tick_range tick) (dexE (StablecoinDEXError.TickOutOfBounds tick)) ;;
    require (is_spaced tick) (dexE StablecoinDEXError.InvalidTick) ;;
    require (in_tick_range flip_tick) (dexE (StablecoinDEXError.TickOutOfBounds flip_tick)) ;;
    require (is_spaced flip_tick) (dexE StablecoinDEXError.InvalidFlipTick) ;;
    sp ← asks spec;
    require (negb (((flip_tick =? tick)%Z && negb (is_t5 sp))
                   || (is_bid && (flip_tick <? tick)%Z) || (negb is_bid && (tick <? flip_tick)%Z)))
      (dexE StablecoinDEXError.InvalidFlipTick) ;;
    require (negb (amount <? MIN_ORDER_AMOUNT))
      (dexE (StablecoinDEXError.BelowMinimumOrderSize amount)) ;;
    '(escrow_token, escrow_amount, non_escrow_token) ←
      escrow is_bid amount tick token quote_token;
    check_non_escrow non_escrow_token sender ;;
    (if internal_balance_only then
       from_address escrow_token ;;
       Token.ensure_transfer_authorized escrow_token sender self ;;
       (if is_t4 sp then Token.check_not_paused escrow_token else mret ()) ;;
       user_balance ← balance_of sender escrow_token;
       require (negb (user_balance <? escrow_amount))
         (dexE StablecoinDEXError.InsufficientBalance) ;;
       sub_balance sender escrow_token escrow_amount
     else decrement_balance_or_transfer_from sender escrow_token escrow_amount true) ;;
    order_id ← next_order_id;
    o ← match Orders.new_flip order_id sender book_key amount tick is_bid flip_tick sp with
        | inr o => mret o
        | inl _ => throw (dexE StablecoinDEXError.InvalidFlipTick)
        end;
    (if is_t1c sp then write_next_order_id (wrapping_inc order_id)
     else increment_next_order_id) ;;
    commit_order_to_book o true ;;
    emitD (StablecoinDEXEvent.OrderPlaced order_id sender token amount is_bid tick true flip_tick) ;;
    mret order_id).

Definition flip_in_place (o : Order.t) (base_token quote_token : Address) : M () :=
  checkpoint (
    let flipped := Orders.create_flipped_order o o.(Order.order_id) in
    let maker := flipped.(Order.maker) in
    '(escrow_token, escrow_amount, non_escrow_token) ←
      escrow flipped.(Order.is_bid) flipped.(Order.amount) flipped.(Order.tick)
        base_token quote_token;
    user_balance ← balance_of maker escrow_token;
    require (negb (user_balance <? escrow_amount)) (dexE StablecoinDEXError.InsufficientBalance) ;;
    from_address escrow_token ;;
    Token.check_not_paused escrow_token ;;
    Token.ensure_transfer_authorized escrow_token maker self ;;
    from_address non_escrow_token ;;
    Token.check_not_paused non_escrow_token ;;
    Token.ensure_transfer_authorized non_escrow_token self maker ;;
    sub_balance maker escrow_token escrow_amount ;;
    commit_order_to_book flipped false ;;
    emitD (StablecoinDEXEvent.OrderFlipped flipped.(Order.order_id) maker base_token
      flipped.(Order.amount) flipped.(Order.is_bid) flipped.(Order.tick)
      flipped.(Order.flip_tick))).

(** ** Filling orders *)

Definition emit_order_filled (order_id : N) (maker taker : Address) (amount_filled : N)
    (partial_fill : bool) : M () :=
  emitD (StablecoinDEXEvent.OrderFilled order_id maker taker amount_filled partial_fill).

(** What the maker of [o] receives for [amount] of base. *)
Definition settle_maker (o : Order.t) (b : Orderbook.t) (amount : N) : M () :=
  if o.(Order.is_bid) then increment_balance o.(Order.maker) b.(Orderbook.base) amount
  else
    quote_amount ← ok_or (base_to_quote amount o.(Order.tick) Up) under_overflow;
    increment_balance o.(Order.maker) b.(Orderbook.quote) quote_amount.

Definition partial_fill_order (o : Order.t) (level : TickLevel.t) (fill_amount : N)
    (taker : Address) : M TickLevel.t :=
  b ← read_book o.(Order.book_key);
  (* a partial fill is less than what remains *)
  Orders.write_remaining o.(Order.order_id) (o.(Order.remaining) - fill_amount) ;;
  settle_maker o b fill_amount ;;
  sp ← asks spec;
  level ← (if negb (is_t12 sp) then
             total ← ok_or (checked_sub level.(TickLevel.total_liquidity) fill_amount)
                       under_overflow;
             let level := TickLevel.set_total_liquidity (λ _, total) level in
             level_write o.(Order.book_key) o.(Order.tick) o.(Order.is_bid) level ;;
             mret level
           else mret level);
  emit_order_filled o.(Order.order_id) o.(Order.maker) taker fill_amount true ;;
  mret level.

(** The last step for a filled order: flip it, or delete its record. *)
Definition retire_order (d : Credits.deltas) (o : Order.t) (b : Orderbook.t) : M Credits.deltas :=
  if o.(Order.is_flip) then
    sp ← asks spec;
    res ← try_ (if is_t5 sp then flip_in_place o b.(Orderbook.base) b.(Orderbook.quote)
                else
                  place_flip o.(Order.maker) b.(Orderbook.base) o.(Order.amount)
                    (negb o.(Order.is_bid)) o.(Order.flip_tick) o.(Order.tick) true ;; mret ());
    match res with
    | Err err =>
        if is_system_error err && is_t1a sp then throw err
        else
          (if is_t5 sp then
             emitD (StablecoinDEXEvent.FlipFailed o.(Order.order_id) o.(Order.maker) err)
           else mret ()) ;;
          delete_order_and_track_deltas d o
    | Ok _ => if is_t5 sp then mret d else delete_order_and_track_deltas d o
    end
  else delete_order_and_track_deltas d o.

(** The tick of a filled order is exhausted: move to the next tick with orders. *)
Definition advance_tick (book_key : B256) (o : Order.t) : M (option (TickLevel.t * Order.t)) :=
  let is_bid := o.(Order.is_bid) in
  level_delete book_key o.(Order.tick) is_bid ;;
  delete_tick_bit book_key o.(Order.tick) is_bid ;;
  '(tick, has_liquidity) ← next_initialized_tick book_key o.(Order.tick) is_bid;
  write_best_tick book_key is_bid
    (if has_liquidity : bool then tick else if is_bid then I16_MIN else I16_MAX) ;;
  if negb has_liquidity then mret None
  else
    new_level ← level_read book_key tick is_bid;
    new_order ← Orders.read_in_book new_level.(TickLevel.head) book_key;
    mret (Some (new_level, new_order)).

(** More orders at the tick: the next one becomes the head. *)
Definition advance_order (d : Credits.deltas) (book_key : B256) (o : Order.t)
    (level : TickLevel.t) (fill_amount : N) : M (TickLevel.t * Order.t * Credits.deltas) :=
  '(_, credits) ← Credits.track_minted_credits self (Orders.write_prev o.(Order.next) 0);
  sp ← asks spec;
  let level := TickLevel.set_head (λ _, o.(Order.next)) level in
  level ← (if negb (is_t12 sp) then
             total ← ok_or (checked_sub level.(TickLevel.total_liquidity) fill_amount)
                       under_overflow;
             mret (TickLevel.set_total_liquidity (λ _, total) level)
           else mret level);
  level_write book_key o.(Order.tick) o.(Order.is_bid) level ;;
  new_order ← Orders.read_in_book o.(Order.next) book_key;
  mret (level, new_order, Credits.credit_slots new_order.(Order.maker) credits d).

Definition fill_order (d : Credits.deltas) (book_key : B256) (o : Order.t) (level : TickLevel.t)
    (taker : Address) : M (option (TickLevel.t * Order.t) * Credits.deltas) :=
  b ← read_book book_key;
  let fill_amount := o.(Order.remaining) in
  settle_maker o b fill_amount ;;
  emit_order_filled o.(Order.order_id) o.(Order.maker) taker fill_amount false ;;
  d ← retire_order d o b;
  if o.(Order.next) =? 0 then
    next ← advance_tick book_key o; mret (next, d)
  else
    '(level, new_order, d) ← advance_order d book_key o level fill_amount;
    mret (Some (level, new_order), d).

(** The closure of the two swaps captures the level and the deferred credits. *)
Definition settle_fill (book_key : B256) (taker : Address) (st : TickLevel.t * Credits.deltas)
    (o : Order.t) (fill : Fill) : M (option Order.t * (TickLevel.t * Credits.deltas)) :=
  let '(level, d) := st in
  match fill with
  | Partial fill_amount =>
      level ← partial_fill_order o level fill_amount taker; mret (None, (level, d))
  | Full =>
      '(next, d) ← fill_order d book_key o level taker;
      match next with
      | Some (new_level, new_order) => mret (Some new_order, (new_level, d))
      | None => mret (None, (level, d))
      end
  end.

Definition get_best_price_level (book_key : B256) (is_bid : bool) : M TickLevel.t :=
  b ← read_book book_key;
  let current_tick := if is_bid then b.(Orderbook.best_bid_tick) else b.(Orderbook.best_ask_tick) in
  require (negb (current_tick =? (if is_bid then I16_MIN else I16_MAX))%Z)
    (dexE StablecoinDEXError.InsufficientLiquidity) ;;
  level_read book_key current_tick is_bid.

Definition fill_orders (step : N → Order.t → bool → option OrderStep) (d : Credits.deltas)
    (book_key : B256) (is_bid : bool) (amount : N) (taker : Address) : M (N * Credits.deltas) :=
  level ← get_best_price_level book_key is_bid;
  o ← Orders.read_in_book level.(TickLevel.head) book_key;
  '(total, (_, d)) ←
    walk_resting_orders o amount is_bid step (settle_fill book_key taker) (level, d);
  mret (total, d).
Definition fill_orders_exact_out := fill_orders step_exact_out.
Definition fill_orders_exact_in := fill_orders step_exact_in.

(** The read-only counterpart of the advance in [fill_order]. *)
Definition next_order_after (book_key : B256) (o : Order.t) (is_bid : bool) : M (option Order.t) :=
  if negb (o.(Order.next) =? 0) then
    n ← Orders.read_in_book o.(Order.next) book_key; mret (Some n)
  else
    '(next_tick, has_liquidity) ← next_initialized_tick book_key o.(Order.tick) is_bid;
    if negb has_liquidity then mret None
    else
      next_level ← level_read book_key next_tick is_bid;
      n ← Orders.read_in_book next_level.(TickLevel.head) book_key;
      mret (Some n).

(** ** Cancelling orders *)

(** The best tick moves on when its last order is cancelled. *)
Definition clear_tick (o : Order.t) : M () :=
  let key := o.(Order.book_key) in
  let is_bid := o.(Order.is_bid) in
  delete_tick_bit key o.(Order.tick) is_bid ;;
  b ← read_book key;
  let best_tick := if is_bid then b.(Orderbook.best_bid_tick) else b.(Orderbook.best_ask_tick) in
  if (best_tick =? o.(Order.tick))%Z then
    '(next_tick, has_liquidity) ← next_initialized_tick key o.(Order.tick) is_bid;
    write_best_tick key is_bid
      (if has_liquidity : bool then next_tick else if is_bid then I16_MIN else I16_MAX)
  else mret ().

Definition refund_escrow (o : Order.t) : M () :=
  b ← read_book o.(Order.book_key);
  if o.(Order.is_bid) then
    quote_amount ← ok_or (base_to_quote o.(Order.remaining) o.(Order.tick) Up) under_overflow;
    increment_balance o.(Order.maker) b.(Orderbook.quote) quote_amount
  else increment_balance o.(Order.maker) b.(Orderbook.base) o.(Order.remaining).

Definition cancel_active_order (o : Order.t) : M () :=
  let key := o.(Order.book_key) in
  let prev := o.(Order.prev) in
  let next := o.(Order.next) in
  level ← level_read key o.(Order.tick) o.(Order.is_bid);
  level ← (if negb (prev =? 0) then
             unlink_neighbor_and_credit_maker prev (Orders.write_next prev next) ;; mret level
           else mret (TickLevel.set_head (λ _, next) level));
  level ← (if negb (next =? 0) then
             unlink_neighbor_and_credit_maker next (Orders.write_prev next prev) ;; mret level
           else mret (TickLevel.set_tail (λ _, prev) level));
  sp ← asks spec;
  '(level, has_level_changed) ←
    (if is_t12 sp then mret (level, (prev =? 0) || (next =? 0))
     else
       total ← ok_or (checked_sub level.(TickLevel.total_liquidity) o.(Order.remaining))
                 under_overflow;
       mret (TickLevel.set_total_liquidity (λ _, total) level, true));
  (if level.(TickLevel.head) =? 0 then clear_tick o else mret ()) ;;
  (if has_level_changed : bool then level_write key o.(Order.tick) o.(Order.is_bid) level
   else mret ()) ;;
  refund_escrow o ;;
  credits ← delete_order o;
  credit_dex_storage_slots o.(Order.maker) credits ;;
  emitD (StablecoinDEXEvent.OrderCancelled o.(Order.order_id)).

Definition cancel (sender : Address) (order_id : N) : M () :=
  o ← Orders.read order_id;
  require (negb (is_zero o.(Order.maker))) (dexE StablecoinDEXError.OrderDoesNotExist) ;;
  require (o.(Order.maker) =? sender) (dexE StablecoinDEXError.Unauthorized) ;;
  require (negb (o.(Order.remaining) =? 0)) (dexE StablecoinDEXError.OrderDoesNotExist) ;;
  cancel_active_order o.

Definition is_authorized_for_token (token address : Address) (role : Policies.AuthRole) : M bool :=
  from_address token ;;
  policy_id ← Token.transfer_policy_id token;
  sp ← asks spec;
  res ← try_ (Policies.is_authorized_as policy_id address role);
  match res with
  | Ok authorized => mret authorized
  | Err e => if Policies.is_policy_lookup_error sp e then mret false else throw e
  end.

Definition is_maker_authorized (o : Order.t) : M bool :=
  b ← read_book o.(Order.book_key);
  let '(token_in, token_out) :=
    if o.(Order.is_bid) then (b.(Orderbook.quote), b.(Orderbook.base))
    else (b.(Orderbook.base), b.(Orderbook.quote)) in
  sender ← Policies.transfer_or Policies.Sender;
  ok ← is_authorized_for_token token_in o.(Order.maker) sender;
  if negb ok then mret false
  else
    sp ← asks spec;
    if is_t4 sp then
      recipient ← Policies.transfer_or Policies.Recipient;
      is_authorized_for_token token_out o.(Order.maker) recipient
    else mret true.

Definition cancel_stale_order (order_id : N) : M () :=
  o ← Orders.read order_id;
  require (negb (is_zero o.(Order.maker))) (dexE StablecoinDEXError.OrderDoesNotExist) ;;
  ok ← is_maker_authorized o;
  if ok : bool then throw (dexE StablecoinDEXError.OrderNotStale) else cancel_active_order o.

Definition withdraw (user token : Address) (amount : N) : M () :=
  current_balance ← balance_of user token;
  require (negb (current_balance <? amount)) (dexE StablecoinDEXError.InsufficientBalance) ;;
  sub_balance user token amount ;;
  transfer token user amount.

(** ** Quotes on one book *)

Definition quote_per_order (book_key : B256) (amount : N) (is_bid : bool)
    (step : N → Order.t → bool → option OrderStep) : M N :=
  level ← get_best_price_level book_key is_bid;
  o ← Orders.read_in_book level.(TickLevel.head) book_key;
  '(total, _) ← walk_resting_orders o amount is_bid step
    (λ (st : ()) o fill,
       match fill with
       | Partial _ => mret (None, st)
       | Full => n ← next_order_after book_key o is_bid; mret (n, st)
       end) ();
  mret total.

(** The legacy quotes go tick by tick. A turn of their loop ends the quote or moves
    to a later tick, so there are at most as many turns as ticks. *)
Definition TICK_COUNT : nat := 4001.

Definition best_quote_tick (book_key : B256) (is_bid : bool) : M Z :=
  b ← read_book book_key;
  let tick := if is_bid then b.(Orderbook.best_bid_tick) else b.(Orderbook.best_ask_tick) in
  require (negb ((tick =? I16_MIN)%Z || (tick =? I16_MAX)%Z))
    (dexE StablecoinDEXError.InsufficientLiquidity) ;;
  mret tick.

Fixpoint quote_exact_out_loop (fuel : nat) (book_key : B256) (is_bid : bool) (current_tick : Z)
    (remaining_out amount_in : N) : M N :=
  match fuel with
  | O => throw OutOfGas
  | S fuel' =>
      if remaining_out =? 0 then mret amount_in
      else
        level ← level_read book_key current_tick is_bid;
        let total := level.(TickLevel.total_liquidity) in
        if total =? 0 then
          '(next_tick, initialized) ← next_initialized_tick book_key current_tick is_bid;
          require initialized (dexE StablecoinDEXError.InsufficientLiquidity) ;;
          quote_exact_out_loop fuel' book_key is_bid next_tick remaining_out amount_in
        else
          '(fill_amount, amount_in_tick) ←
            (if is_bid then
               base_needed ← ok_or (quote_to_base remaining_out current_tick Up) under_overflow;
               let fill_amount := if total <? base_needed then total else base_needed in
               mret (fill_amount, fill_amount)
             else
               let fill_amount := if total <? remaining_out then total else remaining_out in
               quote_needed ← ok_or (base_to_quote fill_amount current_tick Up) under_overflow;
               mret (fill_amount, quote_needed));
          amount_out_tick ←
            (if is_bid then
               q ← ok_or (base_to_quote fill_amount current_tick Down) under_overflow;
               mret (N.min q remaining_out)
             else mret fill_amount);
          let remaining_out := saturating_sub remaining_out amount_out_tick in
          amount_in ← ok_or (checked_add U128_MAX amount_in amount_in_tick) under_overflow;
          if fill_amount =? total then
            '(next_tick, initialized) ← next_initialized_tick book_key current_tick is_bid;
            require (negb (negb initialized && negb (remaining_out =? 0)))
              (dexE StablecoinDEXError.InsufficientLiquidity) ;;
            quote_exact_out_loop fuel' book_key is_bid next_tick remaining_out amount_in
          else mret amount_in
  end.
Definition quote_exact_out_per_tick (book_key : B256) (amount_out : N) (is_bid : bool) : M N :=
  tick ← best_quote_tick book_key is_bid;
  quote_exact_out_loop (S TICK_COUNT) book_key is_bid tick amount_out 0.

Fixpoint quote_exact_in_loop (fuel : nat) (book_key : B256) (is_bid : bool) (current_tick : Z)
    (remaining_in amount_out : N) : M N :=
  match fuel with
  | O => throw OutOfGas
  | S fuel' =>
      if remaining_in =? 0 then mret amount_out
      else
        level ← level_read book_key current_tick is_bid;
        let total := level.(TickLevel.total_liquidity) in
        if total =? 0 then
          '(next_tick, initialized) ← next_initialized_tick book_key current_tick is_bid;
          require initialized (dexE StablecoinDEXError.InsufficientLiquidity) ;;
          quote_exact_in_loop fuel' book_key is_bid next_tick remaining_in amount_out
        else
          '(fill_amount, amount_out_tick, amount_consumed) ←
            (if is_bid then
               let fill := N.min remaining_in total in
               quote_out ← ok_or (base_to_quote fill current_tick Down) under_overflow;
               mret (fill, quote_out, fill)
             else
               base_to_get ← ok_or (quote_to_base remaining_in current_tick Down) under_overflow;
               let fill := N.min base_to_get total in
               quote_consumed ← ok_or (base_to_quote fill current_tick Up) under_overflow;
               mret (fill, fill, quote_consumed));
          remaining_in ← ok_or (checked_sub remaining_in amount_consumed) under_overflow;
          amount_out ← ok_or (checked_add U128_MAX amount_out amount_out_tick) under_overflow;
          if fill_amount =? total then
            '(next_tick, initialized) ← next_initialized_tick book_key current_tick is_bid;
            require (negb (negb initialized && negb (remaining_in =? 0)))
              (dexE StablecoinDEXError.InsufficientLiquidity) ;;
            quote_exact_in_loop fuel' book_key is_bid next_tick remaining_in amount_out
          else mret amount_out
  end.
Definition quote_exact_in_per_tick (book_key : B256) (amount_in : N) (is_bid : bool) : M N :=
  tick ← best_quote_tick book_key is_bid;
  quote_exact_in_loop (S TICK_COUNT) book_key is_bid tick amount_in 0.

Definition quote_exact_out (book_key : B256) (amount_out : N) (is_bid : bool) : M N :=
  sp ← asks spec;
  if is_t12 sp then quote_per_order book_key amount_out is_bid step_exact_out
  else quote_exact_out_per_tick book_key amount_out is_bid.
Definition quote_exact_in (book_key : B256) (amount_in : N) (is_bid : bool) : M N :=
  sp ← asks spec;
  if is_t12 sp then quote_per_order book_key amount_in is_bid step_exact_in
  else quote_exact_in_per_tick book_key amount_in is_bid.

(** ** Routes *)

(** The walk up the quote tokens, with the same bound as
    [TokenOps.walk_quote_tokens]. *)
Fixpoint path_to_root_loop (fuel : nat) (token : Address) : M (list Address) :=
  match fuel with
  | O => throw OutOfGas
  | S fuel' =>
      if token =? PATH_USD_ADDRESS then mret []
      else
        from_address token ;;
        next ← Token.quote_token token;
        rest ← path_to_root_loop fuel' next;
        mret (next :: rest)
  end.
Definition find_path_to_root (token : Address) : M (list Address) :=
  fuel ← gets (λ w, (size (w_tip20s w) + 2)%nat);
  rest ← path_to_root_loop fuel token;
  mret (token :: rest).

Definition route_hop (token_in token_out : Address) : M (B256 * bool) :=
  from_address token_in ;;
  sp ← asks spec;
  (if is_t3 sp then Token.check_not_paused token_in else mret ()) ;;
  in_quote ← Token.quote_token token_in;
  '(base, quote) ←
    (if in_quote =? token_out then mret (token_in, token_out)
     else
       from_address token_out ;;
       out_quote ← Token.quote_token token_out;
       require (out_quote =? token_in) (dexE StablecoinDEXError.PairDoesNotExist) ;;
       mret (token_out, token_in));
  book_key ← compute_book_key base quote;
  b ← read_book book_key;
  require (negb (is_zero b.(Orderbook.base))) (dexE StablecoinDEXError.PairDoesNotExist) ;;
  mret (book_key, token_in =? base).
Fixpoint validate_and_build_route (path : list Address) : M (list (B256 * bool)) :=
  match path with
  | token_in :: ((token_out :: _) as path') =>
      hop ← route_hop token_in token_out;
      rest ← validate_and_build_route path';
      mret (hop :: rest)
  | _ => mret []
  end.

(** The prefix of [l] up to and including the first [x]. *)
Fixpoint take_through (x : Address) (l : list Address) : list Address :=
  match l with
  | [] => []
  | y :: l' => if y =? x then [y] else y :: take_through x l'
  end.
Fixpoint take_until (x : Address) (l : list Address) : list Address :=
  match l with
  | [] => []
  | y :: l' => if y =? x then [] else y :: take_until x l'
  end.

Definition find_trade_path (token_in token_out : Address) : M (list (B256 * bool)) :=
  require (negb (token_in =? token_out)) (dexE StablecoinDEXError.IdenticalTokens) ;;
  require (is_tip20_prefix token_in && is_tip20_prefix token_out)
    (dexE StablecoinDEXError.InvalidToken) ;;
  from_address token_in ;;
  in_quote ← Token.quote_token token_in;
  from_address token_out ;;
  out_quote ← Token.quote_token token_out;
  if (in_quote =? token_out) || (out_quote =? token_in) then
    validate_and_build_route [token_in; token_out]
  else
    path_in ← find_path_to_root token_in;
    path_out ← find_path_to_root token_out;
    lca ← ok_or (head (filter (λ a, a ∈ path_out) path_in))
            (dexE StablecoinDEXError.PairDoesNotExist);
    validate_and_build_route (take_through lca path_in ++ rev (take_until lca path_out)).

(** ** Swaps and their quotes *)

Fixpoint fill_route (fill : Credits.deltas → B256 → bool → N → Address → M (N * Credits.deltas))
    (d : Credits.deltas) (route : list (B256 * bool)) (amount : N) (sender : Address)
    : M (N * Credits.deltas) :=
  match route with
  | [] => mret (amount, d)
  | (book_key, base_for_quote) :: route' =>
      '(amount, d) ← fill d book_key base_for_quote amount sender;
      fill_route fill d route' amount sender
  end.
Fixpoint quote_route (quote : B256 → N → bool → M N) (route : list (B256 * bool)) (amount : N)
    : M N :=
  match route with
  | [] => mret amount
  | (book_key, base_for_quote) :: route' =>
      amount ← quote book_key amount base_for_quote;
      quote_route quote route' amount
  end.

Definition quote_swap_exact_amount_out (token_in token_out : Address) (amount_out : N) : M N :=
  route ← find_trade_path token_in token_out;
  quote_route quote_exact_out (rev route) amount_out.
Definition quote_swap_exact_amount_in (token_in token_out : Address) (amount_in : N) : M N :=
  route ← find_trade_path token_in token_out;
  quote_route quote_exact_in route amount_in.

Definition swap_exact_amount_in (sender token_in token_out : Address)
    (amount_in min_amount_out : N) : M N :=
  route ← find_trade_path token_in token_out;
  decrement_balance_or_transfer_from sender token_in amount_in false ;;
  '(amount, d) ← fill_route fill_orders_exact_in [] route amount_in sender;
  require (negb (amount <? min_amount_out)) (dexE StablecoinDEXError.InsufficientOutput) ;;
  transfer token_out sender amount ;;
  Credits.flush d credit_dex_storage_slots ;;
  mret amount.

Definition swap_exact_amount_out (sender token_in token_out : Address)
    (amount_out max_amount_in : N) : M N :=
  route ← find_trade_path token_in token_out;
  '(amount, d) ← fill_route fill_orders_exact_out [] (rev route) amount_out sender;
  require (negb (max_amount_in <? amount)) (dexE StablecoinDEXError.MaxInputExceeded) ;;
  decrement_balance_or_transfer_from sender token_in amount false ;;
  transfer token_out sender amount_out ;;
  Credits.flush d credit_dex_storage_slots ;;
  mret amount.

(** ** Price levels *)

(** The walk of [get_price_level] over the orders of a tick. *)
Fixpoint sum_remaining (fuel : nat) (book_key : B256) (order_id total : N) : M N :=
  match fuel with
  | O => throw OutOfGas
  | S fuel' =>
      if order_id =? 0 then mret total
      else
        o ← Orders.read_in_book order_id book_key;
        total ← ok_or (checked_add U128_MAX total o.(Order.remaining)) under_overflow;
        sum_remaining fuel' book_key o.(Order.next) total
  end.
Definition get_price_level (base : Address) (tick : Z) (is_bid : bool) : M TickLevel.t :=
  from_address base ;;
  quote ← Token.quote_token base;
  book_key ← compute_book_key base quote;
  level ← level_read book_key tick is_bid;
  sp ← asks spec;
  if is_t12 sp then
    fuel ← rd dexC (λ s, (size s.(Dex.orders) + 2)%nat);
    total ← sum_remaining fuel book_key level.(TickLevel.head) 0;
    mret (TickLevel.set_total_liquidity (λ _, total) level)
  else mret level.

(** ** Dispatch *)

Inductive op :=
| Place (token : Address) (amount : N) (isBid : bool) (tick : Z)
| PlaceFlip (token : Address) (amount : N) (isBid : bool) (tick flipTick : Z)
| CreatePair (base : Address)
| Withdraw (token : Address) (amount : N)
| Cancel (orderId : N)
| CancelStaleOrder (orderId : N)
| SwapExactAmountIn (tokenIn tokenOut : Address) (amountIn minAmountOut : N)
| SwapExactAmountOut (tokenIn tokenOut : Address) (amountOut maxAmountIn : N)
| SetBookIndex (index : N).

Definition dispatch_body (sender : Address) (o : op) : M () :=
  Credits.preserve_storage_credits self ;;
  match o with
  | Place token n b t => place sender token n b t ;; mret ()
  | PlaceFlip token n b t f => place_flip sender token n b t f false ;; mret ()
  | CreatePair base => create_pair base ;; mret ()
  | Withdraw token n => withdraw sender token n
  | Cancel id => cancel sender id
  | CancelStaleOrder id => cancel_stale_order id
  | SwapExactAmountIn i o n m => swap_exact_amount_in sender i o n m ;; mret ()
  | SwapExactAmountOut i o n m => swap_exact_amount_out sender i o n m ;; mret ()
  | SetBookIndex i => set_book_index i
  end.
Definition dispatch (sender : Address) (o : op) : M () :=
  match o with
  | SetBookIndex _ => scheduled T8 (mutate (dispatch_body sender o))
  | _ => mutate (dispatch_body sender o)
  end.

End DexOps.
