(* ===== verification/Tip20Factory.v ===== *)
(** * The TIP-20 factory

    [crates/precompiles/src/tip20_factory/mod.rs]: deterministic token addresses
    and the creation of tokens, at derived and at reserved addresses. *)

From S2P Require Import Prelude Hardfork Address Errors State Monad AddressRegistry Tip20Base.
From S2P Require Import Tip20Core Tip20.

Module Factory.
Import TokenOps.

Abbreviation efac x := (TIP20Factory x) (only parsing).

(** The address derived from sender and salt, and the id it carries. *)
Definition compute_tip20_address (sender : Address) (salt : B256) : M (Address * N) :=
  keccak ← asks keccak256;
  let hash := keccak (word_bytes sender ++ word_bytes salt) in
  let id := Registry.hash_slice hash 0 8 in
  mret (new_tip20 id, id).

Definition get_token_address (sender : Address) (salt : B256) : M Address :=
  '(address, lower_bytes) ← compute_tip20_address sender salt;
  require (negb (lower_bytes <? RESERVED_SIZE)) (efac TIP20FactoryError.AddressReserved) ;;
  mret address.

(** A USD token must be quoted in a USD token. *)
Definition check_quote_currency (currency_ : string) (quoteToken : Address) : M () :=
  if bool_decide (currency_ = USD_CURRENCY) then
    from_address quoteToken ;;
    c ← Token.currency quoteToken;
    require (bool_decide (c = USD_CURRENCY)) (TIP20 TIP20Error.InvalidQuoteToken)
  else mret ().

Definition create_token (sender : Address) (name symbol currency_ : string)
    (quoteToken admin : Address) (salt : B256) : M Address :=
  '(token_address, lower_bytes) ← compute_tip20_address sender salt;
  deployed ← is_tip20 token_address;
  require (negb deployed) (efac (TIP20FactoryError.TokenAlreadyExists token_address)) ;;
  quote_deployed ← is_tip20 quoteToken;
  require quote_deployed (TIP20 TIP20Error.InvalidQuoteToken) ;;
  check_quote_currency currency_ quoteToken ;;
  require (negb (lower_bytes <? RESERVED_SIZE)) (efac TIP20FactoryError.AddressReserved) ;;
  from_address token_address ;;
  initialize token_address sender name symbol currency_ quoteToken admin ;;
  emit TIP20_FACTORY_ADDRESS
    (TokenCreated token_address name symbol currency_ quoteToken admin salt) ;;
  mret token_address.

Definition create_token_with_logo (sender : Address) (name symbol currency_ : string)
    (quoteToken admin : Address) (salt : B256) (logoURI : string) : M Address :=
  (if bool_decide (logoURI = EmptyString) then mret () else validate_logo_uri logoURI) ;;
  token_address ← create_token sender name symbol currency_ quoteToken admin salt;
  (if bool_decide (logoURI = EmptyString) then mret ()
   else from_address token_address ;; write_logo_uri token_address sender logoURI) ;;
  mret token_address.

Definition create_token_reserved_address (address : Address)
    (name symbol currency_ : string) (quote admin : Address) : M Address :=
  require (is_tip20_prefix address) (TIP20 TIP20Error.InvalidToken) ;;
  deployed ← is_tip20 address;
  require (negb deployed) (efac (TIP20FactoryError.TokenAlreadyExists address)) ;;
  (if negb (is_zero quote) then
     quote_ok ← (if address =? PATH_USD_ADDRESS then mret false else is_tip20 quote);
     require quote_ok (TIP20 TIP20Error.InvalidQuoteToken) ;;
     check_quote_currency currency_ quote
   else mret ()) ;;
  require (match tip20_id address with Some id => id <? RESERVED_SIZE | None => false end)
    (efac TIP20FactoryError.AddressNotReserved) ;;
  from_address address ;;
  initialize address admin name symbol currency_ quote admin ;;
  emit TIP20_FACTORY_ADDRESS (TokenCreated address name symbol currency_ quote admin 0) ;;
  mret address.

(** The state-changing ABI entry points. *)
Inductive op :=
| CreateToken (name symbol currency_ : string) (quoteToken admin : Address) (salt : B256)
| CreateTokenWithLogo (name symbol currency_ : string) (quoteToken admin : Address)
    (salt : B256) (logoURI : string).

Definition dispatch (msg_sender : Address) (o : op) : M () :=
  match o with
  | CreateToken n s c q a salt => mutate (create_token msg_sender n s c q a salt ;; mret ())
  | CreateTokenWithLogo n s c q a salt l =>
      scheduled T5 (mutate (create_token_with_logo msg_sender n s c q a salt l ;; mret ()))
  end.

End Factory.
