(* ===== verification/GuardOps.v ===== *)
(** * The receive-policy guard: claims and burns

    [claim] and [burn_blocked_receipt] of
    [crates/precompiles/src/receive_policy_guard/mod.rs], and the ABI dispatch of
    the precompile. *)

From S2P Require Import Prelude Hardfork Address Errors State Monad AddressRegistry Tip20Base.
From S2P Require Import Tip20Core Guard Tip20.

Module GuardOps.
Import GuardBase.

Definition claim (msg_sender to : Address) (receipt : option ClaimReceiptV1) : M () :=
  require (negb (to =? RECEIVE_POLICY_GUARD_ADDRESS))
    (eguard ReceivePolicyGuardError.InvalidClaimAddress) ;;
  '(receipt, receiver, recovery_mode) ← resolve_receipt receipt;
  let recovery_authority := authority recovery_mode receipt in
  require (recovery_authority =? msg_sender) (eguard ReceivePolicyGuardError.UnauthorizedClaimer) ;;
  key ← receipt_key receipt;
  amount ← rd guardC (λ s, s.(Guard.balances).[key]);
  require (negb (amount =? 0)) (eguard ReceivePolicyGuardError.InvalidReceipt) ;;
  wr guardC (Guard.set_balances (insert key 0)) ;;
  from_address receipt.(token) ;;
  TokenOps.release_blocked_funds receipt.(token) receipt.(originator) receiver to amount
    recovery_mode recovery_authority ;;
  emit_guard (ReceivePolicyGuardEvent.ReceiptClaimed receipt receiver msg_sender to amount).

Definition burn_blocked_receipt (msg_sender : Address) (receipt : option ClaimReceiptV1) : M () :=
  '(receipt, receiver, recovery_mode) ← resolve_receipt receipt;
  key ← receipt_key receipt;
  amount ← rd guardC (λ s, s.(Guard.balances).[key]);
  require (negb (amount =? 0)) (eguard ReceivePolicyGuardError.InvalidReceipt) ;;
  let owner := policy_subject recovery_mode receipt.(originator) receiver in
  from_address receipt.(token) ;;
  TokenOps.burn_blocked receipt.(token) msg_sender owner amount false ;;
  wr guardC (Guard.set_balances (insert key 0)) ;;
  emit_guard (ReceivePolicyGuardEvent.ReceiptBurned receipt receiver msg_sender amount).

(** The state-changing ABI entry points. *)
Inductive op :=
| Claim (to : Address) (receipt : option ClaimReceiptV1)
| BurnBlockedReceipt (receipt : option ClaimReceiptV1).

Definition dispatch (msg_sender : Address) (o : op) : M () :=
  match o with
  | Claim to receipt => mutate (claim msg_sender to receipt)
  | BurnBlockedReceipt receipt => mutate (burn_blocked_receipt msg_sender receipt)
  end.

End GuardOps.
