(* ===== verification/FeeAmm.v ===== *)
(** * The fee AMM

    [crates/precompiles/src/tip_fee_manager/amm.rs]: pools of a user token and a
    validator token, fee swaps at the fixed rate 0.9970, rebalancing at 0.9985,
    liquidity shares, and the planning of the route of a fee payment. *)

From S2P Require Import Prelude Hardfork Address Errors State Monad Tip20Base Tip403 Tip20Core.
From S2P Require Import Tip20.

Module FeeAmm.
Import TipFeeManager.

Abbreviation eamm x := (TIPFeeAMM x) (only parsing).

(** [M], [N] and [SCALE] of the source. *)
Definition M_RATE : U256 := 9970.
Definition N_RATE : U256 := 9985.
Definition SCALE : U256 := 10000.
Definition MIN_LIQUIDITY : U256 := 1000.

Definition compute_amount_out (amount_in : U256) : M U256 :=
  ok_or ((λ product, product / SCALE) <$> checked_mul U256_MAX amount_in M_RATE) under_overflow.

Definition apply_swap (pool : Pool.t) (amount_in amount_out : U256) : M Pool.t :=
  require (negb (pool.(Pool.reserve_validator_token) <? amount_out))
    (eamm TIPFeeAMMError.InsufficientLiquidity) ;;
  amount_in ← ok_or (try_into U128_MAX amount_in) under_overflow;
  amount_out ← ok_or (try_into U128_MAX amount_out) under_overflow;
  ru ← ok_or (checked_add U128_MAX pool.(Pool.reserve_user_token) amount_in) under_overflow;
  rv ← ok_or (checked_sub pool.(Pool.reserve_validator_token) amount_out) under_overflow;
  mret (Pool.mk ru rv).

Definition has_enough_reserve_validator_token (pool : Pool.t) (amount : U256) : bool :=
  amount <=? pool.(Pool.reserve_validator_token).

(** [PoolKey::get_id]: the id depends on the order of the pair. *)
Definition pool_id_of (keccak : list N → B256) (user_token validator_token : Address) : B256 :=
  keccak (word_bytes user_token ++ word_bytes validator_token).
Definition pool_id (user_token validator_token : Address) : M B256 :=
  asks (λ e, pool_id_of (keccak256 e) user_token validator_token).

Definition read_pool (id : B256) : M Pool.t := rd feeC (λ s, s.(pools).[id]).
Definition write_pool (id : B256) (pool : Pool.t) : M () := wr feeC (set_pools (insert id pool)).

Definition get_pool (user_token validator_token : Address) : M Pool.t :=
  id ← pool_id user_token validator_token; read_pool id.

Definition reserve_pool_liquidity (id : B256) (amount : N) : M () :=
  wr feeC (set_pending_fee_swap_reservation (insert id amount)).
Definition read_reservation (id : B256) : M N :=
  rd feeC (λ s, s.(pending_fee_swap_reservation).[id]).

Definition get_total_supply (id : B256) : M U256 := rd feeC (λ s, s.(total_supply).[id]).
Definition set_total_supply (id : B256) (n : U256) : M () :=
  wr feeC (TipFeeManager.set_total_supply (insert id n)).
Definition get_liquidity_balances (id : B256) (user : Address) : M U256 :=
  rd feeC (λ s, s.(liquidity_balances).[id].[user]).
Definition set_liquidity_balances (id : B256) (user : Address) (n : U256) : M () :=
  wr feeC (TipFeeManager.set_liquidity_balances
    (λ m, <[id := <[user := n]> m.[id]]> m)).

Definition emit_fee (ev : FeeEvent.t) : M () := emit TIP_FEE_MANAGER_ADDRESS (FeeEv ev).

(** [token.transfer(self.address, ..)] and [token.system_transfer_from(self.address, ..)]. *)
Definition pay_out (token to : Address) (amount : U256) : M () :=
  TokenOps.transfer token TIP_FEE_MANAGER_ADDRESS to amount ;; mret ().
Definition pull_in (token from : Address) (amount : U256) : M () :=
  TokenOps.system_transfer_from token TIP_FEE_MANAGER_ADDRESS from amount ;; mret ().

(** T1C on, withdrawals must leave the reserved liquidity in the pool. *)
Definition check_reservation (id : B256) (available : N) : M () :=
  sp ← asks spec;
  if is_t1c sp then
    reserved ← read_reservation id;
    require (negb (available <? reserved)) (eamm TIPFeeAMMError.InsufficientLiquidity)
  else mret ().

Definition rebalance_swap (msg_sender user_token validator_token : Address)
    (amount_out : U256) (to : Address) : M U256 :=
  require (negb (amount_out =? 0)) (eamm TIPFeeAMMError.InvalidAmount) ;;
  id ← pool_id user_token validator_token;
  pool ← read_pool id;
  amount_in ← ok_or (product ← checked_mul U256_MAX amount_out N_RATE;
                     result ← checked_div product SCALE;
                     checked_add U256_MAX result 1) under_overflow;
  amount_in ← ok_or (try_into U128_MAX amount_in) (eamm TIPFeeAMMError.InvalidAmount);
  amount_out ← ok_or (try_into U128_MAX amount_out) (eamm TIPFeeAMMError.InvalidAmount);
  rv ← ok_or (checked_add U128_MAX pool.(Pool.reserve_validator_token) amount_in)
    (eamm TIPFeeAMMError.InsufficientReserves);
  ru ← ok_or (checked_sub pool.(Pool.reserve_user_token) amount_out)
    (eamm TIPFeeAMMError.InvalidAmount);
  check_reservation id rv ;;
  write_pool id (Pool.mk ru rv) ;;
  from_address validator_token ;;
  pull_in validator_token msg_sender amount_in ;;
  from_address user_token ;;
  pay_out user_token to amount_out ;;
  emit_fee (FeeEvent.RebalanceSwap user_token validator_token msg_sender amount_in amount_out) ;;
  mret amount_in.

(** The shares minted for a deposit, and the supply they are added to. *)
Definition mint_liquidity (id : B256) (pool : Pool.t) (amount_validator_token : U256)
    : M (U256 * U256) :=
  supply ← get_total_supply id;
  if (pool.(Pool.reserve_user_token) =? 0) && (pool.(Pool.reserve_validator_token) =? 0) then
    half_amount ← ok_or (checked_div amount_validator_token 2) under_overflow;
    require (negb (half_amount <=? MIN_LIQUIDITY)) (eamm TIPFeeAMMError.InsufficientLiquidity) ;;
    supply ← ok_or (checked_add U256_MAX supply MIN_LIQUIDITY) under_overflow;
    set_total_supply id supply ;;
    liquidity ← ok_or (checked_sub half_amount MIN_LIQUIDITY)
      (eamm TIPFeeAMMError.InsufficientLiquidity);
    mret (supply, liquidity)
  else
    product ← ok_or (p ← checked_mul U256_MAX N_RATE pool.(Pool.reserve_user_token);
                     checked_div p SCALE) (eamm TIPFeeAMMError.InvalidSwapCalculation);
    denom ← ok_or (checked_add U256_MAX pool.(Pool.reserve_validator_token) product)
      (eamm TIPFeeAMMError.InvalidAmount);
    require (negb (denom =? 0)) (eamm TIPFeeAMMError.DivisionByZero) ;;
    liquidity ← ok_or (n ← checked_mul U256_MAX amount_validator_token supply;
                       checked_div n denom) (eamm TIPFeeAMMError.InvalidSwapCalculation);
    mret (supply, liquidity).

Definition mint (msg_sender user_token validator_token : Address)
    (amount_validator_token : U256) (to : Address) : M U256 :=
  require (negb (user_token =? validator_token)) (eamm TIPFeeAMMError.IdenticalAddresses) ;;
  require (negb (amount_validator_token =? 0)) (eamm TIPFeeAMMError.InvalidAmount) ;;
  TokenOps.validate_usd_currency user_token ;;
  TokenOps.validate_usd_currency validator_token ;;
  from_address user_token ;;
  from_address validator_token ;;
  sp ← asks spec;
  (if is_t8 sp then
     sender ← Policies.transfer_or Policies.Sender;
     recipient ← Policies.transfer_or Policies.Recipient;
     Token.ensure_authorized_as user_token
       [(msg_sender, sender); (TIP_FEE_MANAGER_ADDRESS, recipient); (to, recipient)] ;;
     Token.ensure_authorized_as validator_token [(to, recipient)]
   else mret ()) ;;
  id ← pool_id user_token validator_token;
  pool ← read_pool id;
  '(supply, liquidity) ← mint_liquidity id pool amount_validator_token;
  require (negb (liquidity =? 0)) (eamm TIPFeeAMMError.InsufficientLiquidity) ;;
  pull_in validator_token msg_sender amount_validator_token ;;
  validator_amount ← ok_or (try_into U128_MAX amount_validator_token)
    (eamm TIPFeeAMMError.InvalidAmount);
  rv ← ok_or (checked_add U128_MAX pool.(Pool.reserve_validator_token) validator_amount)
    (eamm TIPFeeAMMError.InvalidAmount);
  write_pool id (Pool.mk pool.(Pool.reserve_user_token) rv) ;;
  new_supply ← ok_or (checked_add U256_MAX supply liquidity) under_overflow;
  set_total_supply id new_supply ;;
  balance ← get_liquidity_balances id to;
  new_balance ← ok_or (checked_add U256_MAX balance liquidity) under_overflow;
  set_liquidity_balances id to new_balance ;;
  emit_fee (FeeEvent.Mint msg_sender to user_token validator_token amount_validator_token
    liquidity) ;;
  mret liquidity.

Definition calculate_burn_amounts (pool : Pool.t) (id : B256) (liquidity : U256)
    : M (U256 * U256) :=
  supply ← get_total_supply id;
  amount_user_token ←
    ok_or (product ← checked_mul U256_MAX liquidity pool.(Pool.reserve_user_token);
           checked_div product supply) under_overflow;
  amount_validator_token ←
    ok_or (product ← checked_mul U256_MAX liquidity pool.(Pool.reserve_validator_token);
           checked_div product supply) under_overflow;
  mret (amount_user_token, amount_validator_token).

Definition burn (msg_sender user_token validator_token : Address)
    (liquidity : U256) (to : Address) : M (U256 * U256) :=
  require (negb (user_token =? validator_token)) (eamm TIPFeeAMMError.IdenticalAddresses) ;;
  require (negb (liquidity =? 0)) (eamm TIPFeeAMMError.InvalidAmount) ;;
  TokenOps.validate_usd_currency user_token ;;
  TokenOps.validate_usd_currency validator_token ;;
  from_address user_token ;;
  from_address validator_token ;;
  sp ← asks spec;
  (if is_t8 sp then
     sender ← Policies.transfer_or Policies.Sender;
     Token.ensure_authorized_as user_token [(msg_sender, sender)] ;;
     Token.ensure_authorized_as validator_token [(msg_sender, sender)]
   else mret ()) ;;
  id ← pool_id user_token validator_token;
  balance ← get_liquidity_balances id msg_sender;
  require (negb (balance <? liquidity)) (eamm TIPFeeAMMError.InsufficientLiquidity) ;;
  pool ← read_pool id;
  '(amount_user_token, amount_validator_token) ← calculate_burn_amounts pool id liquidity;
  validator_amount ← ok_or (try_into U128_MAX amount_validator_token)
    (eamm TIPFeeAMMError.InvalidAmount);
  available_after_burn ← ok_or (checked_sub pool.(Pool.reserve_validator_token) validator_amount)
    (eamm TIPFeeAMMError.InsufficientReserves);
  check_reservation id available_after_burn ;;
  new_balance ← ok_or (checked_sub balance liquidity) under_overflow;
  set_liquidity_balances id msg_sender new_balance ;;
  supply ← get_total_supply id;
  new_supply ← ok_or (checked_sub supply liquidity) under_overflow;
  set_total_supply id new_supply ;;
  user_amount ← ok_or (try_into U128_MAX amount_user_token) (eamm TIPFeeAMMError.InvalidAmount);
  ru ← ok_or (checked_sub pool.(Pool.reserve_user_token) user_amount)
    (eamm TIPFeeAMMError.InsufficientReserves);
  rv ← ok_or (checked_sub pool.(Pool.reserve_validator_token) validator_amount)
    (eamm TIPFeeAMMError.InsufficientReserves);
  write_pool id (Pool.mk ru rv) ;;
  pay_out user_token to amount_user_token ;;
  pay_out validator_token to amount_validator_token ;;
  emit_fee (FeeEvent.Burn msg_sender user_token validator_token amount_user_token
    amount_validator_token liquidity to) ;;
  mret (amount_user_token, amount_validator_token).

(** ** Routes *)

Inductive FeeRoute := SameToken | Direct | TwoHop (intermediate : Address).

(** The pools read while planning, with the validator reserve observed. *)
Definition PoolData : Type := (Address * Address) * N.

Definition plan_fee_route (user_token validator_token : Address) (max_amount : U256)
    : M (option FeeRoute * option Address * list PoolData) :=
  if user_token =? validator_token then mret (Some SameToken, None, [])
  else
    amount_out ← compute_amount_out max_amount;
    direct ← get_pool user_token validator_token;
    let data := [((user_token, validator_token), direct.(Pool.reserve_validator_token))] in
    if has_enough_reserve_validator_token direct amount_out then mret (Some Direct, None, data)
    else
      sp ← asks spec;
      if negb (is_t5 sp) then mret (None, None, data)
      else
        from_address user_token ;;
        mid_token ← Token.quote_token user_token;
        if is_zero mid_token || (mid_token =? validator_token)
        then mret (None, Some mid_token, data)
        else
          leg1 ← get_pool user_token mid_token;
          let data := data ++ [((user_token, mid_token), leg1.(Pool.reserve_validator_token))] in
          if negb (has_enough_reserve_validator_token leg1 amount_out)
          then mret (None, Some mid_token, data)
          else
            amount_out2 ← compute_amount_out amount_out;
            leg2 ← get_pool mid_token validator_token;
            let data :=
              data ++ [((mid_token, validator_token), leg2.(Pool.reserve_validator_token))] in
            if negb (has_enough_reserve_validator_token leg2 amount_out2)
            then mret (None, Some mid_token, data)
            else mret (Some (TwoHop mid_token), Some mid_token, data).

Definition execute_fee_swap (user_token validator_token : Address) (amount_in : U256) : M U256 :=
  amount_out ← compute_amount_out amount_in;
  id ← pool_id user_token validator_token;
  pool ← read_pool id;
  pool ← apply_swap pool amount_in amount_out;
  write_pool id pool ;;
  mret amount_out.

End FeeAmm.
