(* ===== verification/FeeManager.v ===== *)
(** * The fee manager

    [crates/precompiles/src/tip_fee_manager/mod.rs]: fee-token preferences, the
    collection of a transaction's fee before and after it runs, and the payment
    of collected fees to validators. *)

From S2P Require Import Prelude Hardfork Address Errors State Monad Tip20Base Tip403 Tip20Core.
From S2P Require Import Tip20 FeeAmm.

Module FeeManager.
Import TipFeeManager FeeAmm.

Abbreviation efee x := (Errors.FeeManager x) (only parsing).

Definition get_validator_token (beneficiary : Address) : M Address :=
  token ← rd feeC (λ s, s.(validator_tokens).[beneficiary]);
  mret (if is_zero token then DEFAULT_FEE_TOKEN else token).

Definition set_validator_token (sender token beneficiary : Address) : M () :=
  deployed ← is_tip20 token;
  require deployed (efee FeeManagerError.InvalidToken) ;;
  require (negb (sender =? beneficiary)) (efee FeeManagerError.CannotChangeWithinBlock) ;;
  TokenOps.validate_usd_currency token ;;
  wr feeC (set_validator_tokens (insert sender token)) ;;
  emit_fee (FeeEvent.ValidatorTokenSet sender token).

Definition set_user_token (sender token : Address) : M () :=
  deployed ← is_tip20 token;
  require deployed (efee FeeManagerError.InvalidToken) ;;
  TokenOps.validate_usd_currency token ;;
  sp ← asks spec;
  current ← rd feeC (λ s, s.(user_tokens).[sender]);
  if is_t3 sp && (current =? token) then mret ()
  else
    wr feeC (set_user_tokens (insert sender token)) ;;
    emit_fee (FeeEvent.UserTokenSet sender token).

Definition user_tokens (user : Address) : M Address := rd feeC (λ s, s.(user_tokens).[user]).

(** [compute_amount_out(..)?.try_into::<u128>()]. *)
Definition amount_out_u128 (amount : U256) : M N :=
  out ← compute_amount_out amount; ok_or (try_into U128_MAX out) under_overflow.

Definition reserve_fee_liquidity (user_token validator_token : Address)
    (max_amount : U256) (route : FeeRoute) : M () :=
  match route with
  | SameToken => mret ()
  | Direct =>
      sp ← asks spec;
      if is_t1c sp then
        amount_out ← amount_out_u128 max_amount;
        id ← pool_id user_token validator_token;
        reserve_pool_liquidity id amount_out
      else mret ()
  | TwoHop intermediate =>
      out1 ← amount_out_u128 max_amount;
      out2 ← amount_out_u128 out1;
      id1 ← pool_id user_token intermediate;
      reserve_pool_liquidity id1 out1 ;;
      id2 ← pool_id intermediate validator_token;
      reserve_pool_liquidity id2 out2 ;;
      wr feeC (set_two_hop_intermediate (λ _, intermediate))
  end.

Definition collect_fee_pre_tx (fee_payer user_token : Address) (max_amount : U256)
    (beneficiary : Address) (skip_liquidity_check : bool) : M Address :=
  validator_token ← get_validator_token beneficiary;
  from_address user_token ;;
  sp ← asks spec;
  (if is_t8 sp then
     sender ← Policies.transfer_or Policies.Sender;
     Token.ensure_authorized_as user_token [(fee_payer, sender)]
   else Token.ensure_transfer_authorized user_token fee_payer TIP_FEE_MANAGER_ADDRESS) ;;
  TokenOps.transfer_fee_pre_tx user_token fee_payer max_amount ;;
  (if negb skip_liquidity_check then
     plan ← plan_fee_route user_token validator_token max_amount;
     route ← ok_or plan.1.1 (eamm TIPFeeAMMError.InsufficientLiquidity);
     reserve_fee_liquidity user_token validator_token max_amount route
   else mret ()) ;;
  mret user_token.

Definition increment_collected_fees (validator token : Address) (amount : U256) : M () :=
  if amount =? 0 then mret ()
  else sinc (rd feeC (λ s, s.(collected_fees).[(validator, token)]))
         (λ v, wr feeC (set_collected_fees (insert (validator, token) v))) amount.

Definition collect_fee_post_tx (fee_payer : Address) (actual_spending refund_amount : U256)
    (fee_token beneficiary : Address) : M U256 :=
  from_address fee_token ;;
  TokenOps.transfer_fee_post_tx fee_token fee_payer refund_amount actual_spending ;;
  hop_token ← rd feeC two_hop_intermediate;
  validator_token ← get_validator_token beneficiary;
  amount ←
    (if fee_token =? validator_token then mret actual_spending
     else if is_zero hop_token then
       (if negb (actual_spending =? 0)
        then execute_fee_swap fee_token validator_token actual_spending ;; mret ()
        else mret ()) ;;
       compute_amount_out actual_spending
     else
       (if negb (actual_spending =? 0) then
          out1 ← execute_fee_swap fee_token hop_token actual_spending;
          execute_fee_swap hop_token validator_token out1 ;; mret ()
        else mret ()) ;;
       out1 ← compute_amount_out actual_spending;
       compute_amount_out out1);
  increment_collected_fees beneficiary validator_token amount ;;
  mret amount.

Definition distribute_fees (validator token : Address) : M () :=
  amount ← rd feeC (λ s, s.(collected_fees).[(validator, token)]);
  if amount =? 0 then mret ()
  else
    wr feeC (set_collected_fees (insert (validator, token) 0)) ;;
    from_address token ;;
    pay_out token validator amount ;;
    emit_fee (FeeEvent.FeesDistributed validator token amount).

(** The state-changing ABI entry points. *)
Inductive op :=
| SetValidatorToken (token : Address)
| SetUserToken (token : Address)
| DistributeFees (validator token : Address)
| Mint (userToken validatorToken : Address) (amountValidatorToken : U256) (to : Address)
| Burn (userToken validatorToken : Address) (liquidity : U256) (to : Address)
| RebalanceSwap (userToken validatorToken : Address) (amountOut : U256) (to : Address).

Definition dispatch (msg_sender : Address) (o : op) : M () :=
  match o with
  | SetValidatorToken token =>
      mutate (b ← asks beneficiary; set_validator_token msg_sender token b)
  | SetUserToken token => mutate (set_user_token msg_sender token)
  | DistributeFees validator token => mutate (distribute_fees validator token)
  | Mint u v a to => mutate (mint msg_sender u v a to ;; mret ())
  | Burn u v l to => mutate (burn msg_sender u v l to ;; mret ())
  | RebalanceSwap u v a to => mutate (rebalance_swap msg_sender u v a to ;; mret ())
  end.

End FeeManager.
