(* ===== verification/System.v ===== *)
(** * The system of precompiles

    Every way the modelled state can change: the ABI calls routed by
    [extend_tempo_precompiles] of [crates/precompiles/src/lib.rs] to the modelled
    precompiles, the steps the transaction handler takes itself (transient storage,
    nonces, access keys, fee collection), and the creation of tokens at genesis. No
    other code of the repository calls a token operation that moves funds. Properties
    of the whole system are stated over histories of such steps. *)

From S2P Require Import Prelude Hardfork Address Errors State Monad Nonce AddressRegistry.
From S2P Require Import Tip20Base Keychain KeychainSpec Tip403 Tip20Core Tip20 Tip20Factory Guard.
From S2P Require Import GuardOps FeeAmm FeeManager StorageCredits Dex Reserve ValidatorFrame.

Module System.

Inductive step :=
| TokenCall (token : Address) (o : TokenOps.op)
| FactoryCall (o : Factory.op)
| GuardCall (o : GuardOps.op)
| FeeCall (o : FeeManager.op)
| PolicyCall (o : Policies.op)
| DexCall (o : DexOps.op)
| CreditsCall (o : Credits.op)
| RegisterMaster (salt : B256)
| KeychainStep (o : KeychainSpec.op)
| NonceStep (o : NonceOps.op)
| FeePre (token : Address) (max_amount : U256) (skip_liquidity_check : bool)
| FeePost (token : Address) (actual_spending refund : U256)
| ReserveCall (o : Reserve.op)
| StartTransaction (open_context : option B256)
| CreateReserved (token : Address) (name symbol currency : string) (quote admin : Address)
| ValidatorStep (o : Validators.op).

(** [sender] is the caller of an ABI call, the fee payer, or the account pulled
    from. Only addresses with the TIP-20 prefix are routed to the token precompile. *)
Definition exec (sender : Address) (s : step) : M () :=
  match s with
  | TokenCall token o => from_address token ;; TokenOps.dispatch token sender o
  | FactoryCall o => Factory.dispatch sender o
  | GuardCall o => GuardOps.dispatch sender o
  | FeeCall o => FeeManager.dispatch sender o
  | PolicyCall o => Policies.dispatch sender o
  | DexCall o => DexOps.dispatch sender o
  | CreditsCall o => Credits.dispatch sender o
  | RegisterMaster salt => Registry.register_virtual_master sender salt ;; mret ()
  | KeychainStep o => KeychainSpec.exec sender o
  | NonceStep o => NonceOps.exec o
  | FeePre token n skip =>
      b ← asks beneficiary; FeeManager.collect_fee_pre_tx sender token n b skip ;; mret ()
  | FeePost token n r =>
      b ← asks beneficiary; FeeManager.collect_fee_post_tx sender n r token b ;; mret ()
  | ReserveCall o => Reserve.dispatch sender o
  | StartTransaction h => Reserve.start_transaction h
  | CreateReserved token n s c q a =>
      Factory.create_token_reserved_address token n s c q a ;; mret ()
  | ValidatorStep o => Validators.exec sender o
  end.

Definition history := list (Env * Address * step).

(** A failed step leaves the world as it was. *)
Fixpoint run (h : history) (w : World) : World :=
  match h with
  | [] => w
  | (e, a, s) :: h' => run h' (call (exec a s) e w).2
  end.

(** An invariant of successful steps is an invariant of histories. *)
Lemma run_invariant (P : World → Prop) h w :
  (∀ e a s, (e, a, s) ∈ h → StableOk e (maintains P) (exec a s)) → P w → P (run h w).
Proof.
  revert w. induction h as [|[[e a] s] h IH]; intros w Hs Hw; simpl; [done|].
  apply IH; [intros; apply Hs; by right|]. call_cases Hr; [done|].
  eapply (Hs e a s); [by left|exact Hr|done].
Qed.

(** ** An example history

    Account 1 creates pathUSD, makes itself issuer and mints 1000 to account 5,
    which sends 300 to account 6. *)
Definition example_history (e : Env) : history :=
  [ (e, 1, CreateReserved PATH_USD_ADDRESS "pathUSD" "pathUSD" "USD" 0 1);
    (e, 1, TokenCall PATH_USD_ADDRESS (TokenOps.GrantRole Token.ISSUER_ROLE 1));
    (e, 1, TokenCall PATH_USD_ADDRESS (TokenOps.Mint 5 1000));
    (e, 5, TokenCall PATH_USD_ADDRESS (TokenOps.Transfer_ 6 300)) ].

End System.
