(* ===== verification/Tip20Frame.v ===== *)
(** * What token operations leave alone

    Frame facts: which components of the world the building blocks of a token
    operation can change. Policy lookups, role checks and accessors change
    nothing; [blind self f] says that the component [f] does not depend on the
    fields of token [self] that moving funds touches. *)

From S2P Require Import Prelude StorageSet Hardfork Address Errors State Monad AddressRegistry.
From S2P Require Import Tip20Base Keychain KeychainSpec Tip403 Tip20Core Guard Tip20.

Import(hints) KeychainSpec.
Import Policies Token TokenOps.

(** ** Read-only operations *)

Section ReadOnly.
Context (e : Env) (R : relation World) `{!PreOrder R}.

Lemma stable_registered_policy t : Stable e R (registered_token_transfer_policy_id t).
Proof. unfold registered_token_transfer_policy_id. stable_auto. Qed.
Lemma stable_read_counter : Stable e R read_policy_id_counter.
Proof. apply stable_rd, _. Qed.
#[local] Hint Resolve stable_read_counter Registry.stable_resolve_recipient : stable.
Lemma stable_policy_exists id : Stable e R (policy_exists id).
Proof. unfold policy_exists. stable_auto. Qed.
Lemma stable_decode_policy_type d : Stable e R (decode_policy_type d).
Proof. unfold decode_policy_type. stable_auto. Qed.
#[local] Hint Resolve stable_decode_policy_type stable_policy_exists : stable.
Lemma stable_get_policy_data id : Stable e R (get_policy_data id).
Proof. unfold get_policy_data. stable_auto. Qed.
#[local] Hint Resolve stable_get_policy_data : stable.
Lemma stable_simple_inner id u d : Stable e R (is_authorized_simple_inner id u d).
Proof. unfold is_authorized_simple_inner. stable_auto. Qed.
#[local] Hint Resolve stable_simple_inner : stable.
Lemma stable_is_authorized_simple id u c : Stable e R (is_authorized_simple id u c).
Proof. unfold is_authorized_simple. stable_auto. Qed.
#[local] Hint Resolve stable_is_authorized_simple : stable.
Lemma stable_is_authorized_as id u r : Stable e R (is_authorized_as id u r).
Proof. unfold is_authorized_as. stable_auto. Qed.
Lemma stable_transfer_or r : Stable e R (transfer_or r).
Proof. unfold transfer_or. stable_auto. Qed.
Lemma stable_recovery a m : Stable e R (receive_policy_recovery a m).
Proof. unfold receive_policy_recovery. stable_auto. Qed.
#[local] Hint Resolve stable_recovery : stable.
Lemma stable_check_receive_policy t s r : Stable e R (check_receive_policy t s r).
Proof. unfold check_receive_policy. stable_auto. Qed.
#[local] Hint Resolve stable_check_receive_policy : stable.
Lemma stable_validate_receive_policy t s r : Stable e R (validate_receive_policy t s r).
Proof. unfold validate_receive_policy. stable_auto. Qed.

Lemma stable_name t : Stable e R (name t).
Proof. apply stable_rd, _. Qed.
Lemma stable_currency t : Stable e R (currency t).
Proof. apply stable_rd, _. Qed.
Lemma stable_total_supply t : Stable e R (total_supply t).
Proof. apply stable_rd, _. Qed.
Lemma stable_supply_cap t : Stable e R (supply_cap t).
Proof. apply stable_rd, _. Qed.
Lemma stable_quote_token t : Stable e R (quote_token t).
Proof. apply stable_rd, _. Qed.
Lemma stable_next_quote_token t : Stable e R (next_quote_token t).
Proof. apply stable_rd, _. Qed.
Lemma stable_get_balance t a : Stable e R (get_balance t a).
Proof. apply stable_rd, _. Qed.
Lemma stable_get_allowance t a b : Stable e R (get_allowance t a b).
Proof. apply stable_rd, _. Qed.
Lemma stable_get_global t : Stable e R (get_global_reward_per_token t).
Proof. apply stable_rd, _. Qed.
Lemma stable_get_opted_in t : Stable e R (get_opted_in_supply t).
Proof. apply stable_rd, _. Qed.
Lemma stable_get_reward_info t a : Stable e R (get_user_reward_info t a).
Proof. apply stable_rd, _. Qed.
Lemma stable_get_role_admin t r : Stable e R (get_role_admin_internal t r).
Proof. apply stable_rd, _. Qed.
Lemma stable_check_not_paused t : Stable e R (check_not_paused t).
Proof. unfold check_not_paused, paused. stable_auto. Qed.
Lemma stable_check_role t a r : Stable e R (check_role_internal t a r).
Proof. unfold check_role_internal, has_role_internal. stable_auto. Qed.
Lemma stable_nonces t a : Stable e R (nonces t a).
Proof. apply stable_rd, _. Qed.
#[local] Hint Resolve stable_registered_policy stable_is_authorized_as stable_transfer_or
  stable_validate_receive_policy stable_name stable_currency : stable.

Lemma stable_transfer_policy_id t : Stable e R (transfer_policy_id t).
Proof. unfold transfer_policy_id. stable_auto. Qed.
#[local] Hint Resolve stable_transfer_policy_id : stable.
Lemma stable_is_transfer_authorized t a b : Stable e R (is_transfer_authorized t a b).
Proof. unfold is_transfer_authorized. stable_auto. Qed.
#[local] Hint Resolve stable_is_transfer_authorized : stable.
Lemma stable_ensure_transfer_authorized t a b : Stable e R (ensure_transfer_authorized t a b).
Proof. unfold ensure_transfer_authorized. stable_auto. Qed.
Lemma stable_ensure_receive t a b : Stable e R (ensure_receive_policy_authorized t a b).
Proof. unfold ensure_receive_policy_authorized. stable_auto. Qed.
Lemma stable_ensure_authorized_as t l : Stable e R (ensure_authorized_as t l).
Proof. unfold ensure_authorized_as. repeat (stable_step || destruct x). Qed.
Lemma stable_resolve a : Stable e R (Recipient.resolve a).
Proof. unfold Recipient.resolve. stable_auto. Qed.
Lemma stable_validate_recipient r : Stable e R (Recipient.validate r).
Proof. unfold Recipient.validate. stable_auto. Qed.
Lemma stable_check_burn_address t a : Stable e R (check_burn_address t a).
Proof. unfold check_burn_address. stable_auto. Qed.
Lemma stable_permit_digest t o s v n d : Stable e R (permit_digest t o s v n d).
Proof. unfold permit_digest, domain_separator. stable_auto. Qed.
Lemma stable_recover_signer d v r s : Stable e R (recover_signer d v r s).
Proof. unfold recover_signer. stable_auto. Qed.
Lemma stable_validate_logo_uri u : Stable e R (validate_logo_uri u).
Proof. unfold validate_logo_uri. stable_auto. Qed.
Lemma stable_walk fuel t c : Stable e R (walk_quote_tokens fuel t c).
Proof.
  revert c. induction fuel as [|fuel IH]; intros c; simpl; [by apply stable_throw|].
  repeat (stable_step || apply IH || apply stable_quote_token).
Qed.
Lemma stable_resolve_receipt r : Stable e R (GuardBase.resolve_receipt r).
Proof. unfold GuardBase.resolve_receipt, GuardBase.try_from. stable_auto. Qed.
Lemma stable_receipt_key r : Stable e R (GuardBase.receipt_key r).
Proof. unfold GuardBase.receipt_key. stable_auto. Qed.
End ReadOnly.

#[export] Hint Resolve stable_registered_policy stable_policy_exists stable_get_policy_data
  stable_is_authorized_simple stable_is_authorized_as stable_transfer_or
  stable_check_receive_policy stable_validate_receive_policy stable_name stable_currency
  stable_total_supply stable_supply_cap stable_quote_token stable_next_quote_token
  stable_get_balance stable_get_allowance stable_get_global stable_get_opted_in
  stable_get_reward_info stable_get_role_admin stable_check_not_paused stable_check_role
  stable_nonces stable_transfer_policy_id stable_ensure_transfer_authorized
  stable_ensure_receive stable_ensure_authorized_as stable_resolve
  stable_validate_recipient stable_check_burn_address stable_permit_digest
  stable_recover_signer stable_validate_logo_uri stable_walk stable_resolve_receipt
  stable_receipt_key : stable.

(** ** Footprints *)

(** [f] does not depend on the log, on the keychain, on the guard. *)
Definition ev_blind {B} (f : World → B) : Prop := ∀ g w, f (set_w_events g w) = f w.
Definition kc_blind {B} (f : World → B) : Prop := ∀ g w, f (set_w_keychain g w) = f w.
Definition gd_blind {B} (f : World → B) : Prop := ∀ g w, f (set_w_guard g w) = f w.
(** [f] does not depend on the allowances of [self]. *)
Definition al_blind (self : Address) {B} (f : World → B) : Prop :=
  ∀ g w, f (cmod (tip20C self) (TIP20Token.set_allowances g) w) = f w.

(** [f] does not depend on what the reward hooks of [self] write. *)
Record hook_blind (self : Address) {B} (f : World → B) : Prop := {
  blind_rewards g w : f (cmod (tip20C self) (TIP20Token.set_user_reward_info g) w) = f w;
  blind_opted g w : f (cmod (tip20C self) (TIP20Token.set_opted_in_supply g) w) = f w
}.

(** Nor on what moving funds of [self] writes. *)
Record blind (self : Address) {B} (f : World → B) : Prop := {
  blind_hooks : hook_blind self f;
  blind_events : ev_blind f;
  blind_balances g w : f (cmod (tip20C self) (TIP20Token.set_balances g) w) = f w
}.

(** Nor on the supply, allowances, reward rate, spending limits and guard receipts. *)
Record quiet (self : Address) {B} (f : World → B) : Prop := {
  quiet_blind : blind self f;
  quiet_allowances : al_blind self f;
  quiet_keychain : kc_blind f;
  quiet_guard : gd_blind f;
  quiet_supply g w : f (cmod (tip20C self) (TIP20Token.set_total_supply g) w) = f w;
  quiet_global g w : f (cmod (tip20C self) (TIP20Token.set_global_reward_per_token g) w) = f w
}.

Ltac solve_blind_leaf :=
  intros; w_simpl;
  first [reflexivity |
         rewrite ?sread_insert; repeat case_decide; subst; first [reflexivity | congruence]].
Ltac solve_blind :=
  lazymatch goal with
  | |- quiet _ _ => split; [solve_blind|solve_blind|solve_blind|solve_blind|..]; solve_blind_leaf
  | |- blind _ _ => split; [solve_blind|solve_blind|]; solve_blind_leaf
  | |- hook_blind _ _ => split; solve_blind_leaf
  | |- _ => cbv delta [ev_blind kc_blind gd_blind al_blind] beta; solve_blind_leaf
  end.
#[export] Hint Extern 2 (ev_blind _) => solve_blind : stable.
#[export] Hint Extern 2 (kc_blind _) => solve_blind : stable.
#[export] Hint Extern 2 (gd_blind _) => solve_blind : stable.
#[export] Hint Extern 2 (al_blind _ _) => solve_blind : stable.
#[export] Hint Extern 2 (hook_blind _ _) => solve_blind : stable.
#[export] Hint Extern 2 (blind _ _) => solve_blind : stable.
#[export] Hint Extern 2 (quiet _ _) => solve_blind : stable.

(** Close the writes of a program with the frame hypotheses in the context. *)
Ltac frame_auto :=
  repeat first
    [ stable_step
    | (apply stable_wr || apply stable_modify); intros ?;
      first [ by apply blind_balances | by apply blind_rewards | by apply blind_opted
            | by apply quiet_supply | by apply quiet_global
            | match goal with H : ev_blind _ |- _ => apply H end
            | match goal with H : kc_blind _ |- _ => apply H end
            | match goal with H : gd_blind _ |- _ => apply H end
            | match goal with H : al_blind _ _ |- _ => apply H end ] ].

(** ** Effects outside the token's balances *)

Section Effects.
Context (e : Env) {B} (f : World → B).

Lemma frame_emit20 self ev : ev_blind f → Stable e (keeps f) (emit20 self ev).
Proof. intros. unfold emit20, emit. frame_auto. Qed.
Lemma frame_emit_hop self r n : ev_blind f → Stable e (keeps f) (emit_hop self r n).
Proof. intros. unfold emit_hop, emit20, emit. frame_auto. Qed.
Lemma frame_emitkc ev : ev_blind f → Stable e (keeps f) (KeychainOps.emitkc ev).
Proof. intros. unfold KeychainOps.emitkc, emit. frame_auto. Qed.
Lemma frame_emit_guard ev : ev_blind f → Stable e (keeps f) (GuardBase.emit_guard ev).
Proof. intros. unfold GuardBase.emit_guard, emit. frame_auto. Qed.
#[local] Hint Resolve frame_emitkc frame_emit_guard : stable.

Lemma frame_set_limit k t l : kc_blind f → Stable e (keeps f) (KeychainOps.set_limit k t l).
Proof. intros. unfold KeychainOps.set_limit. frame_auto. Qed.
Lemma frame_set_limit_remaining k t l :
  kc_blind f → Stable e (keeps f) (KeychainOps.set_limit_remaining k t l).
Proof. intros. unfold KeychainOps.set_limit_remaining. frame_auto. Qed.
#[local] Hint Resolve frame_set_limit frame_set_limit_remaining : stable.
Lemma frame_verify_and_update a k t n :
  ev_blind f → kc_blind f → Stable e (keeps f) (KeychainOps.verify_and_update_spending a k t n).
Proof. intros. unfold KeychainOps.verify_and_update_spending. frame_auto. Qed.
#[local] Hint Resolve frame_verify_and_update : stable.
Lemma frame_authorize_transfer a t n :
  ev_blind f → kc_blind f → Stable e (keeps f) (KeychainOps.authorize_transfer a t n).
Proof. intros. unfold KeychainOps.authorize_transfer. frame_auto. Qed.
Lemma frame_spending self a n :
  ev_blind f → kc_blind f → Stable e (keeps f) (check_and_update_spending_limit self a n).
Proof. apply frame_authorize_transfer. Qed.
Lemma frame_authorize_approve a t o n :
  ev_blind f → kc_blind f → Stable e (keeps f) (KeychainOps.authorize_approve a t o n).
Proof. intros. unfold KeychainOps.authorize_approve. frame_auto. Qed.
Lemma frame_refund_limit a t n :
  ev_blind f → kc_blind f → Stable e (keeps f) (KeychainOps.refund_spending_limit a t n).
Proof. intros. unfold KeychainOps.refund_spending_limit. frame_auto. Qed.
Lemma frame_store_blocked t o r a n b k m :
  ev_blind f → gd_blind f → Stable e (keeps f) (GuardBase.store_blocked t o r a n b k m).
Proof. intros. unfold GuardBase.store_blocked, GuardBase.next_receipt_nonce. frame_auto. Qed.
Lemma frame_set_allowance self a b n :
  al_blind self f → Stable e (keeps f) (set_allowance self a b n).
Proof. intros. unfold set_allowance. frame_auto. Qed.
#[local] Hint Resolve frame_set_allowance : stable.
Lemma frame_consume_allowance self o s n :
  al_blind self f → Stable e (keeps f) (consume_allowance self o s n).
Proof. intros. unfold consume_allowance. frame_auto. Qed.
End Effects.
#[export] Hint Resolve frame_emit20 frame_emit_hop frame_emitkc frame_emit_guard
  frame_authorize_transfer frame_spending frame_authorize_approve frame_refund_limit
  frame_store_blocked frame_set_allowance frame_consume_allowance : stable.

(** ** Moving funds *)

Section Hooks.
Context (e : Env) (self : Address) {B} (f : World → B) (Hf : hook_blind self f).

Lemma frame_set_reward_info a i : Stable e (keeps f) (set_user_reward_info self a i).
Proof. unfold set_user_reward_info. frame_auto. Qed.
Lemma frame_set_opted_in n : Stable e (keeps f) (set_opted_in_supply self n).
Proof. unfold set_opted_in_supply. frame_auto. Qed.
#[local] Hint Resolve frame_set_reward_info frame_set_opted_in : stable.
Lemma frame_update_rewards h : Stable e (keeps f) (update_rewards self h).
Proof. unfold update_rewards, credit_delegate. frame_auto. Qed.
Lemma frame_increase_opted_in n : Stable e (keeps f) (increase_opted_in_supply self n).
Proof. unfold increase_opted_in_supply. frame_auto. Qed.
Lemma frame_decrease_opted_in n : Stable e (keeps f) (decrease_opted_in_supply self n).
Proof. unfold decrease_opted_in_supply. frame_auto. Qed.
#[local] Hint Resolve frame_update_rewards frame_increase_opted_in frame_decrease_opted_in
  : stable.
Lemma frame_rewards_on_transfer a b n : Stable e (keeps f) (handle_rewards_on_transfer self a b n).
Proof. unfold handle_rewards_on_transfer. frame_auto. Qed.
Lemma frame_rewards_on_mint a n : Stable e (keeps f) (handle_rewards_on_mint self a n).
Proof. unfold handle_rewards_on_mint. frame_auto. Qed.
End Hooks.
#[export] Hint Resolve frame_set_reward_info frame_set_opted_in frame_update_rewards
  frame_increase_opted_in frame_decrease_opted_in frame_rewards_on_transfer
  frame_rewards_on_mint : stable.

Section Moving.
Context (e : Env) (self : Address) {B} (f : World → B) (Hf : blind self f).

Lemma blind_is_hook_blind : hook_blind self f.
Proof. by apply blind_hooks. Qed.
Lemma blind_is_ev_blind : ev_blind f.
Proof. by eapply blind_events. Qed.
#[local] Hint Resolve blind_is_hook_blind blind_is_ev_blind : stable.
Lemma frame_set_balance a n : Stable e (keeps f) (set_balance self a n).
Proof. unfold set_balance. frame_auto. Qed.
#[local] Hint Resolve frame_set_balance : stable.
Lemma frame_increment a n : Stable e (keeps f) (increment_balance self a n).
Proof. unfold increment_balance, sinc. frame_auto. Qed.
Lemma frame_decrement a n : Stable e (keeps f) (decrement_balance self a n).
Proof. unfold decrement_balance, sdec. frame_auto. Qed.
#[local] Hint Resolve frame_increment frame_decrement : stable.
Lemma frame_transfer a r n : Stable e (keeps f) (_transfer self a r n).
Proof. unfold _transfer. frame_auto. Qed.
End Moving.

#[export] Hint Resolve blind_is_hook_blind | 5 : stable.
#[export] Hint Resolve frame_set_balance frame_increment frame_decrement frame_transfer : stable.

Section Quiet.
Context (e : Env) (self : Address) {B} (f : World → B) (Hf : quiet self f).

Lemma quiet_is_blind : blind self f.
Proof. by apply quiet_blind. Qed.
Lemma quiet_is_hook_blind : hook_blind self f.
Proof. by apply blind_hooks, quiet_blind. Qed.
Lemma quiet_is_ev_blind : ev_blind f.
Proof. by eapply blind_events, quiet_blind. Qed.
Lemma quiet_is_kc_blind : kc_blind f.
Proof. by eapply quiet_keychain. Qed.
Lemma quiet_is_gd_blind : gd_blind f.
Proof. by eapply quiet_guard. Qed.
Lemma quiet_is_al_blind : al_blind self f.
Proof. by apply quiet_allowances. Qed.
#[local] Hint Resolve quiet_is_blind quiet_is_hook_blind quiet_is_ev_blind quiet_is_kc_blind
  quiet_is_gd_blind quiet_is_al_blind : stable.
Lemma frame_set_total_supply n : Stable e (keeps f) (set_total_supply self n).
Proof. unfold set_total_supply. frame_auto. Qed.
Lemma frame_set_global n : Stable e (keeps f) (set_global_reward_per_token self n).
Proof. unfold set_global_reward_per_token. frame_auto. Qed.
#[local] Hint Resolve frame_set_total_supply frame_set_global : stable.
Lemma frame_mint_ r s n : Stable e (keeps f) (_mint self r s n).
Proof. unfold _mint. frame_auto. Qed.
#[local] Hint Resolve frame_mint_ : stable.
Lemma frame_inbound o r n s m : Stable e (keeps f) (validate_inbound_or_block self o r n s m).
Proof. unfold validate_inbound_or_block. frame_auto. Qed.
#[local] Hint Resolve frame_inbound : stable.
Lemma frame_validate_transfer s a b n m : Stable e (keeps f) (validate_transfer self s a b n m).
Proof. unfold validate_transfer. frame_auto. Qed.
Lemma frame_validate_mint s b n m r : Stable e (keeps f) (validate_mint self s b n m r).
Proof. unfold validate_mint, check_role. frame_auto. Qed.
Lemma frame_finish_transfer a r n m : Stable e (keeps f) (finish_transfer self a r n m).
Proof. unfold finish_transfer. frame_auto. Qed.
Lemma frame_reduce_total_supply n : Stable e (keeps f) (reduce_total_supply self n).
Proof. unfold reduce_total_supply. frame_auto. Qed.
#[local] Hint Resolve frame_validate_transfer frame_validate_mint frame_finish_transfer
  frame_reduce_total_supply : stable.

Lemma frame_mint_with_role s b n r : Stable e (keeps f) (mint_with_role self s b n r).
Proof. unfold mint_with_role. frame_auto. Qed.
#[local] Hint Resolve frame_mint_with_role : stable.
Lemma frame_mint s b n : Stable e (keeps f) (mint self s b n).
Proof. unfold mint. frame_auto. Qed.
Lemma frame_mint_with_memo s b n m : Stable e (keeps f) (mint_with_memo self s b n m).
Proof. unfold mint_with_memo. frame_auto. Qed.
Lemma frame_burn_ s n : Stable e (keeps f) (_burn self s n).
Proof. unfold _burn, check_role. frame_auto. Qed.
#[local] Hint Resolve frame_burn_ : stable.
Lemma frame_burn s n : Stable e (keeps f) (burn self s n).
Proof. unfold burn. frame_auto. Qed.
Lemma frame_burn_with_memo s n m : Stable e (keeps f) (burn_with_memo self s n m).
Proof. unfold burn_with_memo. frame_auto. Qed.
Lemma frame_burn_blocked s o n b : Stable e (keeps f) (burn_blocked self s o n b).
Proof. unfold burn_blocked, check_role. frame_auto. Qed.
Lemma frame_burn_at s a n : Stable e (keeps f) (burn_at self s a n).
Proof. unfold burn_at, check_role. frame_auto. Qed.
Lemma frame_approve s a n : Stable e (keeps f) (approve self s a n).
Proof. unfold approve. frame_auto. Qed.
Lemma frame_transfer_ s b n : Stable e (keeps f) (transfer self s b n).
Proof. unfold transfer. frame_auto. Qed.
Lemma frame_transfer_from s a b n : Stable e (keeps f) (transfer_from self s a b n).
Proof. unfold transfer_from. frame_auto. Qed.
Lemma frame_transfer_from_with_memo s a b n m :
  Stable e (keeps f) (transfer_from_with_memo self s a b n m).
Proof. unfold transfer_from_with_memo. frame_auto. Qed.
Lemma frame_transfer_with_memo s b n m : Stable e (keeps f) (transfer_with_memo self s b n m).
Proof. unfold transfer_with_memo. frame_auto. Qed.
Lemma frame_system_transfer c a n : Stable e (keeps f) (system_transfer_from self c a n).
Proof. unfold system_transfer_from. frame_auto. Qed.
Lemma frame_channel_transfer a r n s : Stable e (keeps f) (channel_reserve_transfer self a r n s).
Proof. unfold channel_reserve_transfer. frame_auto. Qed.
Lemma frame_release o r t n m a : Stable e (keeps f) (release_blocked_funds self o r t n m a).
Proof. unfold release_blocked_funds. frame_auto. Qed.
Lemma frame_fee_pre a n : Stable e (keeps f) (transfer_fee_pre_tx self a n).
Proof. unfold transfer_fee_pre_tx. frame_auto. Qed.
Lemma frame_fee_post a r n : Stable e (keeps f) (transfer_fee_post_tx self a r n).
Proof. unfold transfer_fee_post_tx. frame_auto. Qed.
Lemma frame_distribute s n : Stable e (keeps f) (distribute_reward self s n).
Proof. unfold distribute_reward. frame_auto. Qed.
Lemma frame_set_recipient s r : Stable e (keeps f) (set_reward_recipient self s r).
Proof. unfold set_reward_recipient. frame_auto. Qed.
Lemma frame_claim_rewards s : Stable e (keeps f) (claim_rewards self s).
Proof. unfold claim_rewards. frame_auto. Qed.
End Quiet.

#[export] Hint Resolve quiet_is_blind quiet_is_hook_blind | 5 : stable.
#[export] Hint Resolve frame_set_total_supply frame_set_global frame_mint_ frame_inbound
  frame_validate_transfer
  frame_validate_mint frame_finish_transfer frame_reduce_total_supply frame_mint_with_role
  frame_mint frame_mint_with_memo frame_burn_ frame_burn frame_burn_with_memo
  frame_burn_blocked frame_burn_at frame_approve frame_transfer_ frame_transfer_from
  frame_transfer_from_with_memo frame_transfer_with_memo frame_system_transfer
  frame_channel_transfer frame_release frame_fee_pre frame_fee_post frame_distribute
  frame_set_recipient frame_claim_rewards : stable.

#[export] Hint Extern 4 (Stable _ (keeps _) (set_global_reward_per_token _ _)) =>
  apply stable_wr; keeps_token : stable.
#[export] Hint Extern 4 (Stable _ (keeps _) (set_total_supply _ _)) =>
  apply stable_wr; keeps_token : stable.
