(* ===== verification/ReserveFrame.v ===== *)
(** * What operations of the channel reserve can do to the rest of the system

    Besides its own storage, the storage credits and the log, an operation of the
    reserve changes the world only through the token transfers it makes: into the
    reserve from the caller, and out of the reserve. *)

From S2P Require Import Prelude StorageSet Hardfork Address Bytes Signature Errors State Monad.
From S2P Require Import StorageCredits AddressRegistry Tip20Base Keychain KeychainSpec Verifier Tip403 Tip20Core Guard Tip20.
From S2P Require Import Reserve Tip20Frame.

Import(hints) KeychainSpec.

(** [R] allows the reserve to change its own storage, the storage credits and the log. *)
Record reserve_allows (R : relation World) : Prop := {
  reserve_allows_own g w : R w (set_w_reserve g w);
  reserve_allows_credits g w : R w (set_w_credits g w);
  reserve_allows_events g w : R w (set_w_events g w)
}.
#[export] Hint Extern 2 (reserve_allows (keeps _)) =>
  split; intros; unfold keeps; reflexivity : stable.

Section Internal.
Context (e : Env) (R : relation World) `{!PreOrder R} (HR : reserve_allows R).
Import Reserve.
Abbreviation st m := (Stable e R m).

Lemma stable_wr_reserve g : st (wr reserveC g).
Proof. apply stable_wr. intros. apply HR. Qed.
Lemma stable_emitR ev : st (emitR ev).
Proof. apply stable_modify. intros. apply HR. Qed.
Lemma stable_reserve_sstore a x y : st (Credits.sstore_slot a x y).
Proof. apply Credits.credits_sstore; [apply _|apply HR]. Qed.
#[local] Hint Resolve stable_wr_reserve stable_emitR stable_reserve_sstore : stable.
Lemma stable_read_state id : st (read_state id).
Proof. unfold read_state. stable_auto. Qed.
Lemma stable_storage_credits p : st (storage_credits p).
Proof. unfold storage_credits. stable_auto. Qed.
#[local] Hint Resolve stable_read_state stable_storage_credits : stable.
Lemma stable_write_state id c : st (write_state id c).
Proof. unfold write_state. stable_auto. Qed.
Lemma stable_delete_state id : st (delete_state id).
Proof. unfold delete_state. stable_auto. Qed.
Lemma stable_write_reserve_credits p n : st (write_storage_credits p n).
Proof. unfold write_storage_credits. stable_auto. Qed.
#[local] Hint Resolve stable_write_state stable_delete_state stable_write_reserve_credits : stable.
Lemma stable_channel_credit_slots p n : st (credit_channel_storage_slots p n).
Proof.
  unfold credit_channel_storage_slots.
  repeat first [stable_step | apply Credits.credits_budget; [apply _|apply HR|]].
Qed.
#[local] Hint Resolve stable_channel_credit_slots : stable.
Lemma stable_delete_channel id p : st (delete_channel_state_and_credit_payer id p).
Proof.
  unfold delete_channel_state_and_credit_payer.
  repeat first [stable_step | apply Credits.credits_track, stable_delete_state; apply _].
Qed.
Lemma stable_spend_channel p id c : st (write_channel_state_spending_credit p id c).
Proof.
  unfold write_channel_state_spending_credit.
  repeat first [stable_step | apply Credits.credits_budget; [apply _|apply HR|]].
Qed.
Lemma stable_reserve_preserve : st (Credits.preserve_storage_credits self).
Proof. apply Credits.credits_preserve; [apply _|apply HR]. Qed.
Lemma stable_start_transaction h : st (start_transaction h).
Proof. unfold start_transaction. stable_auto. Qed.
Lemma stable_recover h s : st (Verifier.recover h s).
Proof. unfold Verifier.recover. stable_auto. Qed.
#[local] Hint Resolve stable_recover : stable.
Lemma stable_validate_voucher d id n s : st (validate_voucher d id n s).
Proof. unfold validate_voucher. stable_auto. Qed.
Lemma stable_load_existing id : st (load_existing_state id).
Proof. unfold load_existing_state. stable_auto. Qed.
Lemma stable_ensure_payee a d : st (ensure_payee_or_operator a d).
Proof. unfold ensure_payee_or_operator. stable_auto. Qed.
Lemma stable_open_context : st enclosing_channel_open_context_hash.
Proof. unfold enclosing_channel_open_context_hash. stable_auto. Qed.
Lemma stable_channel_id d : st (channel_id d).
Proof. unfold channel_id. stable_auto. Qed.
Lemma stable_now_u32 : st now_u32.
Proof. unfold now_u32. stable_auto. Qed.
Lemma stable_expect {A} (o : option A) m : st (expect o m).
Proof. unfold expect. stable_auto. Qed.
End Internal.

#[export] Hint Resolve stable_recover stable_validate_voucher stable_load_existing stable_ensure_payee
  stable_open_context stable_channel_id stable_now_u32 stable_expect stable_read_state : stable.

(** ** Operations that transfer tokens *)

Section External.
Context (e : Env) (R : relation World) `{!PreOrder R} (HR : reserve_allows R) (sender : Address).
Import Reserve.

Record moves_allowed : Prop := {
  moves_in t n s : StableOk e R (TokenOps.channel_reserve_transfer t sender (Recipient.direct self) n s);
  moves_in_legacy t n : StableOk e R (TokenOps.system_transfer_from t self sender n);
  moves_out t r n s : StableOk e R (TokenOps.channel_reserve_transfer t self r n s);
  moves_out_legacy t to n : StableOk e R (TokenOps.transfer t self to n)
}.
Hypothesis HT : moves_allowed.

Ltac reserve_ok :=
  repeat first
    [ stable_ok_step
    | apply (moves_in HT) | apply (moves_in_legacy HT) | apply (moves_out HT) | apply (moves_out_legacy HT)
    | apply stable_stable_ok;
      solve [eauto using stable_write_state, stable_delete_channel, stable_spend_channel, stable_emitR,
               stable_wr_reserve, stable_reserve_preserve with stable] ].

Lemma reserve_dispatch_ok o : StableOk e R (dispatch sender o).
Proof.
  unfold dispatch. do 2 stable_ok_step. stable_ok_step; [by apply stable_stable_ok, stable_reserve_preserve|].
  destruct o; unfold run_op, open, settle, top_up, close, request_close, withdraw.
  all: reserve_ok.
Qed.
End External.
