(* ===== verification/DexFrame.v ===== *)
(** * What DEX operations can do to the rest of the system

    Besides its own storage, the storage credits and the log, an operation of the DEX
    changes the world only through the token transfers it makes. Hence any preorder on
    worlds that allows those changes is preserved by every operation of the DEX. *)

From S2P Require Import Prelude StorageSet Packing Hardfork Address Errors DexState State Monad.
From S2P Require Import StorageCredits DexOrder DexBook AddressRegistry Tip20Base Keychain.
From S2P Require Import KeychainSpec Tip403 Tip20Core Guard Tip20 Dex Tip20Frame.

Import(hints) KeychainSpec.

(** [R] allows the DEX to change its own storage, the storage credits and the log. *)
Record dex_allows (R : relation World) : Prop := {
  allows_dex g w : R w (set_w_dex g w);
  allows_credits g w : R w (set_w_credits g w);
  allows_events g w : R w (set_w_events g w)
}.

#[export] Hint Extern 2 (dex_allows (keeps _)) =>
  split; intros; unfold keeps; reflexivity : stable.

(** Any component that does not depend on those three. *)
Definition dex_blind {B} (f : World → B) : Prop :=
  ∀ g1 g2 g3 w, f (set_w_dex g1 w) = f w ∧ f (set_w_credits g2 w) = f w ∧ f (set_w_events g3 w) = f w.
Lemma dex_blind_allows {B} (f : World → B) : dex_blind f → dex_allows (keeps f).
Proof.
  intros Hf. split; intros g w; unfold keeps.
  - apply (Hf g id id w).
  - apply (Hf id g id w).
  - apply (Hf id id g w).
Qed.

Section Internal.
Context (e : Env) (R : relation World) `{!PreOrder R} (HR : dex_allows R).
Import Book DexOps.
Abbreviation st m := (Stable e R m).

Lemma stable_wr_dex g : st (wr dexC g).
Proof. apply stable_wr. intros. apply HR. Qed.
Lemma stable_emitD ev : st (emitD ev).
Proof. apply stable_modify. intros. apply HR. Qed.
#[local] Hint Resolve stable_wr_dex stable_emitD : stable.

Lemma stable_sstore_slot a x y : st (Credits.sstore_slot a x y).
Proof. apply Credits.credits_sstore; [apply _|apply HR]. Qed.
#[local] Hint Resolve stable_sstore_slot : stable.
Lemma stable_sstore_slots a l l' : st (Credits.sstore_slots a l l').
Proof.
  revert l'. induction l as [|x l IH]; intros [|y l']; simpl; try by apply stable_ret.
  repeat (stable_step || apply IH).
Qed.
#[local] Hint Resolve stable_sstore_slots : stable.
Lemma stable_track {A} a (m : M A) : st m → st (Credits.track_minted_credits a m).
Proof. apply Credits.credits_track, _. Qed.
Lemma stable_with_budget {A} a n (m : M A) : st m → st (Credits.with_budget a n m).
Proof. apply Credits.credits_budget; [apply _|apply HR]. Qed.
Lemma stable_preserve a : st (Credits.preserve_storage_credits a).
Proof. apply Credits.credits_preserve; [apply _|apply HR]. Qed.
#[local] Hint Resolve stable_track stable_with_budget stable_preserve : stable.

(** Orders and books. *)
Lemma stable_store id r : st (Orders.store id r).
Proof. unfold Orders.store, Orders.load. stable_auto. Qed.
#[local] Hint Resolve stable_store : stable.
Lemma stable_order_delete id : st (Orders.delete id).
Proof. unfold Orders.delete. stable_auto. Qed.
Lemma stable_write_in_book id o b : st (Orders.write_in_book id o b).
Proof. unfold Orders.write_in_book. stable_auto. Qed.
Lemma stable_write_remaining id x : st (Orders.write_remaining id x).
Proof. unfold Orders.write_remaining, Orders.load. stable_auto. Qed.
Lemma stable_write_prev id x : st (Orders.write_prev id x).
Proof. unfold Orders.write_prev, Orders.load. stable_auto. Qed.
Lemma stable_write_next id x : st (Orders.write_next id x).
Proof. unfold Orders.write_next, Orders.load. stable_auto. Qed.
Lemma stable_book_key_for_index i : st (Orders.book_key_for_index i).
Proof. unfold Orders.book_key_for_index. stable_auto. Qed.
#[local] Hint Resolve stable_book_key_for_index : stable.
Lemma stable_read_with id k : st (Orders.read_with_book_key id k).
Proof. unfold Orders.read_with_book_key, Orders.load. stable_auto. Qed.
Lemma stable_read_in_book id k : st (Orders.read_in_book id k).
Proof. apply stable_read_with. Qed.
Lemma stable_read_order id : st (Orders.read id).
Proof. apply stable_read_with. Qed.
Lemma stable_maker_of id : st (Orders.record_maker_of id).
Proof. unfold Orders.record_maker_of, Orders.load. stable_auto. Qed.
Lemma stable_read_book k : st (read_book k).
Proof. apply stable_rd, _. Qed.
Lemma stable_modify_book k g : st (modify_book k g).
Proof. apply stable_wr_dex. Qed.
#[local] Hint Resolve stable_order_delete stable_write_in_book stable_write_remaining
  stable_write_prev stable_write_next stable_read_in_book stable_read_order stable_maker_of
  stable_read_book stable_modify_book : stable.
Lemma stable_compute_book_key b q : st (compute_book_key b q).
Proof. unfold compute_book_key. stable_auto. Qed.
Lemma stable_write_ticks k g : st (write_ticks k g).
Proof. unfold write_ticks. stable_auto. Qed.
Lemma stable_write_best_tick k b t : st (write_best_tick k b t).
Proof. apply stable_write_ticks. Qed.
Lemma stable_write_book k b : st (write_book k b).
Proof. unfold write_book. stable_auto. Qed.
Lemma stable_level_read k t b : st (level_read k t b).
Proof. unfold level_read. stable_auto. Qed.
Lemma stable_level_write k t b l : st (level_write k t b l).
Proof. unfold level_write. stable_auto. Qed.
Lemma stable_level_delete k t b : st (level_delete k t b).
Proof. unfold level_delete. apply stable_level_write. Qed.
Lemma stable_set_tick_bit k t b : st (set_tick_bit k t b).
Proof. unfold set_tick_bit, calc_tick_word_idx, write_bitmap_word. stable_auto. Qed.
Lemma stable_delete_tick_bit k t b : st (delete_tick_bit k t b).
Proof. unfold delete_tick_bit, calc_tick_word_idx, write_bitmap_word. stable_auto. Qed.
Lemma stable_next_tick k t b : st (next_initialized_tick k t b).
Proof. unfold next_initialized_tick. stable_auto. Qed.
#[local] Hint Resolve stable_compute_book_key stable_write_ticks stable_write_best_tick
  stable_write_book stable_level_read stable_level_write stable_level_delete stable_set_tick_bit
  stable_delete_tick_bit stable_next_tick : stable.

(** Balances and counters. *)
Lemma stable_balance_of u t : st (balance_of u t).
Proof. apply stable_rd, _. Qed.
Lemma stable_dex_set_balance u t n : st (set_balance u t n).
Proof. unfold set_balance, balance_of. stable_auto. Qed.
#[local] Hint Resolve stable_balance_of stable_dex_set_balance : stable.
Lemma stable_dex_increment u t n : st (increment_balance u t n).
Proof. unfold increment_balance. stable_auto. Qed.
Lemma stable_dex_sub u t n : st (sub_balance u t n).
Proof. unfold sub_balance. stable_auto. Qed.
Lemma stable_next_order_id : st next_order_id.
Proof. apply stable_rd, _. Qed.
Lemma stable_write_next_order_id n : st (write_next_order_id n).
Proof. unfold write_next_order_id. stable_auto. Qed.
#[local] Hint Resolve stable_dex_increment stable_dex_sub stable_next_order_id
  stable_write_next_order_id : stable.
Lemma stable_increment_next : st increment_next_order_id.
Proof. unfold increment_next_order_id. stable_auto. Qed.
Lemma stable_write_storage_credits u n : st (write_storage_credits u n).
Proof. unfold write_storage_credits, storage_credits. stable_auto. Qed.
#[local] Hint Resolve stable_increment_next stable_write_storage_credits : stable.
Lemma stable_credit_slots u n : st (credit_dex_storage_slots u n).
Proof. unfold credit_dex_storage_slots, storage_credits. stable_auto. Qed.
#[local] Hint Resolve stable_credit_slots : stable.
Lemma stable_delete_order o : st (delete_order o).
Proof. unfold delete_order. stable_auto. Qed.
Lemma stable_rewrite_order o b : st (rewrite_order o b).
Proof. unfold rewrite_order. stable_auto. Qed.
Lemma stable_unlink id m : st m → st (unlink_neighbor_and_credit_maker id m).
Proof. intros. unfold unlink_neighbor_and_credit_maker. stable_auto. Qed.
#[local] Hint Resolve stable_delete_order stable_rewrite_order stable_unlink : stable.
Lemma stable_delete_track d o : st (delete_order_and_track_deltas d o).
Proof. unfold delete_order_and_track_deltas. stable_auto. Qed.
Lemma stable_write_spending o b : st (write_order_spending_dex_storage_credits o b).
Proof. unfold write_order_spending_dex_storage_credits, storage_credits. stable_auto. Qed.
#[local] Hint Resolve stable_delete_track stable_write_spending : stable.

(** Pairs, placing and filling. *)
Lemma stable_usd t : st (TokenOps.validate_usd_currency t).
Proof. unfold TokenOps.validate_usd_currency. stable_auto. Qed.
#[local] Hint Resolve stable_usd : stable.
Lemma stable_create_pair t : st (create_pair t).
Proof. unfold create_pair, push_book_key, get_book_keys. stable_auto. Qed.
#[local] Hint Resolve stable_create_pair : stable.
Lemma stable_validate_pair b t : st (validate_or_create_pair b t).
Proof. unfold validate_or_create_pair. stable_auto. Qed.
Lemma stable_link b l o : st (link_at_tail b l o).
Proof. unfold link_at_tail. stable_auto. Qed.
#[local] Hint Resolve stable_validate_pair stable_link : stable.
Lemma stable_commit o c : st (commit_order_to_book o c).
Proof. unfold commit_order_to_book. stable_auto. Qed.
Lemma stable_escrow b n t x y : st (escrow b n t x y).
Proof. unfold escrow. stable_auto. Qed.
Lemma stable_check_non_escrow t a : st (check_non_escrow t a).
Proof. unfold check_non_escrow. stable_auto. Qed.
#[local] Hint Resolve stable_commit stable_escrow stable_check_non_escrow : stable.
Lemma stable_flip_in_place o b q : st (flip_in_place o b q).
Proof. unfold flip_in_place. stable_auto. Qed.
Lemma stable_place_flip_internal a t n b x y : st (place_flip a t n b x y true).
Proof. unfold place_flip. stable_auto. Qed.
#[local] Hint Resolve stable_flip_in_place stable_place_flip_internal : stable.
Lemma stable_settle_maker o b n : st (settle_maker o b n).
Proof. unfold settle_maker. stable_auto. Qed.
Lemma stable_order_filled i m t n p : st (emit_order_filled i m t n p).
Proof. apply stable_emitD. Qed.
#[local] Hint Resolve stable_settle_maker stable_order_filled : stable.
Lemma stable_partial_fill o l n t : st (partial_fill_order o l n t).
Proof. unfold partial_fill_order. stable_auto. Qed.
Lemma stable_retire d o b : st (retire_order d o b).
Proof. unfold retire_order. stable_auto. Qed.
Lemma stable_advance_tick k o : st (advance_tick k o).
Proof. unfold advance_tick. stable_auto. Qed.
Lemma stable_advance_order d k o l n : st (advance_order d k o l n).
Proof. unfold advance_order. stable_auto. Qed.
#[local] Hint Resolve stable_partial_fill stable_retire stable_advance_tick
  stable_advance_order : stable.
Lemma stable_fill_order d k o l t : st (fill_order d k o l t).
Proof. unfold fill_order. stable_auto. Qed.
#[local] Hint Resolve stable_fill_order : stable.
Lemma stable_settle_fill k t s o f : st (settle_fill k t s o f).
Proof. unfold settle_fill. stable_auto. Qed.
#[local] Hint Resolve stable_settle_fill : stable.
Lemma stable_walk_loop {S} fuel o n b step (settle : S → Order.t → Fill → M (option Order.t * S)) tot s :
  (∀ s o f, st (settle s o f)) → st (walk_loop fuel o n b step settle tot s).
Proof.
  intros Hs. revert o n tot s. induction fuel as [|fuel IH]; intros; simpl; [by apply stable_throw|].
  repeat (stable_step || apply Hs || apply IH).
Qed.
Lemma stable_walk_orders {S} o n b step (settle : S → Order.t → Fill → M (option Order.t * S)) s :
  (∀ s o f, st (settle s o f)) → st (walk_resting_orders o n b step settle s).
Proof.
  intros. unfold walk_resting_orders. stable_step; [stable_auto|]. by apply stable_walk_loop.
Qed.
Lemma stable_best_level k b : st (get_best_price_level k b).
Proof. unfold get_best_price_level. stable_auto. Qed.
#[local] Hint Resolve stable_walk_orders stable_best_level : stable.
Lemma stable_fill_orders step d k b n a : st (fill_orders step d k b n a).
Proof. unfold fill_orders. stable_auto. Qed.
Lemma stable_fill_route fill d r n a :
  (∀ d k b n a, st (fill d k b n a)) → st (fill_route fill d r n a).
Proof.
  intros Hf. revert d n. induction r as [|[k b] r IH]; intros; simpl; [by apply stable_ret|].
  repeat (stable_step || apply Hf || apply IH).
Qed.
Lemma stable_clear_tick o : st (clear_tick o).
Proof. unfold clear_tick. stable_auto. Qed.
Lemma stable_refund o : st (refund_escrow o).
Proof. unfold refund_escrow. stable_auto. Qed.
#[local] Hint Resolve stable_clear_tick stable_refund : stable.
Lemma stable_cancel_active o : st (cancel_active_order o).
Proof. unfold cancel_active_order. stable_auto. Qed.
Lemma stable_authorized_for t a r : st (is_authorized_for_token t a r).
Proof. unfold is_authorized_for_token. stable_auto. Qed.
#[local] Hint Resolve stable_cancel_active stable_authorized_for : stable.
Lemma stable_maker_authorized o : st (is_maker_authorized o).
Proof. unfold is_maker_authorized. stable_auto. Qed.

(** Routes. *)
Lemma stable_route_hop a b : st (route_hop a b).
Proof. unfold route_hop. stable_auto. Qed.
#[local] Hint Resolve stable_maker_authorized stable_route_hop : stable.
Lemma stable_build_route p : st (validate_and_build_route p).
Proof.
  induction p as [|a [|b p] IH]; [by apply stable_ret..|].
  cbn [validate_and_build_route] in IH |- *. stable_step; [stable_auto|]. stable_step; [exact IH|]. stable_auto.
Qed.
Lemma stable_root_loop fuel t : st (path_to_root_loop fuel t).
Proof.
  revert t. induction fuel as [|fuel IH]; intros t; simpl; [by apply stable_throw|].
  repeat (stable_step || apply IH).
Qed.
#[local] Hint Resolve stable_build_route stable_root_loop : stable.
Lemma stable_find_path t : st (find_path_to_root t).
Proof. unfold find_path_to_root. stable_auto. Qed.
#[local] Hint Resolve stable_find_path : stable.
Lemma stable_trade_path a b : st (find_trade_path a b).
Proof. unfold find_trade_path. stable_auto. Qed.
Lemma stable_flush d : st (Credits.flush d credit_dex_storage_slots).
Proof. unfold Credits.flush. repeat (stable_step || destruct x). Qed.
Lemma stable_set_book_index i : st (set_book_index i).
Proof. unfold set_book_index, book_key_index. stable_auto. Qed.
End Internal.

(** What the section above gives for a component of the world the DEX does not own. *)
#[export] Hint Resolve stable_usd stable_compute_book_key stable_read_book stable_level_read
  stable_read_in_book stable_read_order stable_balance_of stable_next_order_id stable_next_tick
  stable_best_level stable_route_hop stable_build_route stable_trade_path stable_find_path
  stable_authorized_for stable_maker_authorized : stable.

(** ** Operations that transfer tokens

    If [R] also allows the transfers a call of [sender] can lead to, it allows the
    call. *)
Section External.
Context (e : Env) (R : relation World) `{!PreOrder R} (HR : dex_allows R) (sender : Address).
Import Book DexOps.

Record transfers_allowed : Prop := {
  allowed_out t to n : to = sender → StableOk e R (TokenOps.transfer t self to n);
  allowed_system t n : is_t5 (spec e) = true →
    StableOk e R (TokenOps.system_transfer_from t self sender n);
  allowed_from t n : is_t5 (spec e) = false →
    StableOk e R (TokenOps.transfer_from t self sender self n)
}.
Hypothesis HT : transfers_allowed.
Abbreviation ok m := (StableOk e R m).

Ltac internal :=
  apply stable_stable_ok; eauto using stable_commit, stable_validate_pair, stable_escrow,
    stable_check_non_escrow, stable_emitD, stable_dex_set_balance, stable_dex_sub,
    stable_increment_next, stable_write_next_order_id, stable_fill_route, stable_fill_orders,
    stable_flush, stable_cancel_active, stable_set_book_index, stable_create_pair,
    stable_preserve with stable.

Lemma dex_transfer_ok t to n : to = sender → ok (transfer t to n).
Proof.
  intros ->. unfold transfer. stable_ok_step; [stable_ok_step|].
  stable_ok_step; [by apply (allowed_out HT)|]. stable_ok_step.
Qed.
Lemma dex_transfer_from_ok t n : ok (transfer_from t sender n).
Proof.
  unfold transfer_from. stable_ok_step. stable_ok_step; [stable_ok_step|].
  stable_ok_step; [|stable_ok_step]. destruct (is_t5 (spec e)) eqn:H5; [by apply (allowed_system HT)|by apply (allowed_from HT)].
Qed.
Lemma dex_decrement_ok t n c : ok (decrement_balance_or_transfer_from sender t n c).
Proof.
  unfold decrement_balance_or_transfer_from.
  repeat first [stable_ok_step | apply dex_transfer_from_ok | solve [internal]].
Qed.

Ltac dex_ok :=
  repeat first [ stable_ok_step | apply dex_decrement_ok | by apply dex_transfer_ok
               | solve [internal] | match goal with x : (_ * _)%type |- _ => destruct x end ].

Lemma dex_place_ok t n b x : ok (place sender t n b x).
Proof. unfold place. dex_ok. Qed.
Lemma dex_place_flip_ok t n b x y : ok (place_flip sender t n b x y false).
Proof. unfold place_flip. dex_ok. Qed.
Lemma dex_swap_in_ok i o n m : ok (swap_exact_amount_in sender i o n m).
Proof. unfold swap_exact_amount_in, fill_orders_exact_in. dex_ok. Qed.
Lemma dex_swap_out_ok i o n m : ok (swap_exact_amount_out sender i o n m).
Proof. unfold swap_exact_amount_out, fill_orders_exact_out. dex_ok. Qed.

Lemma dex_dispatch_ok o : ok (dispatch sender o).
Proof.
  pose proof dex_place_ok. pose proof dex_place_flip_ok. pose proof dex_swap_in_ok.
  pose proof dex_swap_out_ok.
  destruct o; unfold dispatch, dispatch_body, withdraw, cancel, cancel_stale_order.
  all: repeat first [solve [auto] | progress dex_ok].
Qed.
End External.
