(* ===== verification/DexView.v ===== *)
(** * Reading the storage of the DEX

    The proofs about order books look at the DEX storage through a few views: the
    logical order behind an id, the level, bit and best tick of a side of a book, and
    the tokens of a book. This file gives, for every storage primitive of the DEX, the
    state it leads to, and what each view sees of it. Storage credits of makers are
    left out ([core]): nothing else of the DEX depends on them. *)

From S2P Require Import Prelude Packing Hardfork Address Errors DexState State Monad.
From S2P Require Import StorageCredits DexOrder DexBook DexMath DexBitmap Tip20Base Tip403 Tip20Core.
From S2P Require Import Tip20 Dex.

Module DexView.
Import Book DexOps DexBitmap.

Definition core (s : Dex.State) : Dex.State := Dex.set_dex_storage_credits (λ _, ∅) s.
Abbreviation dx w := (core (w_dex w)).

(** ** Views *)

Definition decode (keys : list B256) (id : N) (r : OrderRecord.t) : Order.t :=
  match r with
  | OrderRecord.Legacy o => o
  | OrderRecord.V1 v => Orders.v1_into_order v id
  | OrderRecord.V2 v =>
      Orders.v2_into_order v id (default 0 (keys !! N.to_nat v.(V2Order.book_index)))
  end.
Definition ord (s : Dex.State) (id : N) : Order.t :=
  decode s.(Dex.book_keys) id s.(Dex.orders).[id].
Definition book (s : Dex.State) (k : B256) : Orderbook.t := s.(Dex.books).[k].
Definition lvl (s : Dex.State) (k : B256) (b : bool) (t : Z) : TickLevel.t :=
  (levels b (book s k)).[t].
Definition bit (s : Dex.State) (k : B256) (b : bool) (t : Z) : bool :=
  tick_set (bitmap b (book s k)) t.
Definition best (s : Dex.State) (k : B256) (b : bool) : Z :=
  if b then (book s k).(Orderbook.best_bid_tick) else (book s k).(Orderbook.best_ask_tick).
(** Base token, quote token and id. *)
Definition pair (s : Dex.State) (k : B256) : Address * Address * N :=
  ((book s k).(Orderbook.base), (book s k).(Orderbook.quote), (book s k).(Orderbook.book_id)).

(** ** Updates *)

Definition put (id : N) (r : OrderRecord.t) : Dex.State → Dex.State := Dex.set_orders (insert id r).
Definition on_book (k : B256) (g : Orderbook.t → Orderbook.t) : Dex.State → Dex.State :=
  Dex.set_books (λ m, <[k := g (m.[k])]> m).

(** ** The primitives *)

(** [P] holds of every successful run of [m]. The instances say what the operations of
    the DEX do; [dx_inv] inverts runs with them. *)
Class Effect {A} (m : M A) (P : Env → World → A → World → Prop) : Prop :=
  effect : ∀ e w a w', m e w = (Ok a, w') → P e w a w'.
#[global] Hint Mode Effect + + - : typeclass_instances.
#[global] Typeclasses Opaque Credits.sstore_slot Credits.sstore_slots Orders.load Orders.store
  modify_book read_book write_ticks write_best_tick level_write level_delete level_read set_tick_bit
  delete_tick_bit next_initialized_tick Orders.read_in_book Orders.read Orders.record_maker_of
  Orders.write_in_book Orders.write_remaining Orders.write_prev Orders.write_next Orders.delete
  balance_of set_balance increment_balance sub_balance next_order_id write_next_order_id
  increment_next_order_id storage_credits write_storage_credits credit_dex_storage_slots delete_order
  delete_order_and_track_deltas rewrite_order unlink_neighbor_and_credit_maker
  write_order_spending_dex_storage_credits Credits.flush.

(** The common case: a state change, or a value and no change. *)
Abbreviation Moves m F := (Effect m (λ e w _ w', dx w' = F e (dx w))).
Abbreviation Reads m F := (Effect m (λ e w a w', w' = w ∧ a = F e (dx w))).

Ltac effect_in H :=
  lazymatch type of H with
  | ?m _ _ = (Ok _, _) => apply (effect (m := m)) in H; cbv beta in H
  end.
Ltac dx_inv :=
  repeat (match goal with
          | H : _ _ _ = (Ok _, _) |- _ => first [m_step H | effect_in H]
          | H : _ ∧ _ |- _ => destruct H
          | H : (_, _) = (_, _) |- _ => injection H as ? ?
          end; cbv beta zeta in *; subst).

#[export] Instance sstore_slot_dx a x y :
  Effect (Credits.sstore_slot a x y) (λ _ w _ w', w_dex w' = w_dex w).
Proof. intros e w u w' H. unfold Credits.sstore_slot in H. by m_inv. Qed.
#[export] Instance sstore_slots_dx a l l' :
  Effect (Credits.sstore_slots a l l') (λ _ w _ w', w_dex w' = w_dex w).
Proof.
  intros e w u w'. revert l' w. induction l as [|x l IH]; intros [|y l'] w; simpl; intros H; m_inv; try done.
  effect_in Hrun. rewrite <- Hrun. by eapply IH.
Qed.

#[export] Instance load_dx id : Reads (Orders.load id) (λ _ s, s.(Dex.orders).[id]).
Proof. intros e w u w' H. unfold Orders.load in H. by m_inv. Qed.
#[export] Instance store_dx id r : Moves (Orders.store id r) (λ _, put id r).
Proof. intros e w u w' H. unfold Orders.store in H. dx_inv. rewrite H. by w_simpl. Qed.
#[export] Instance modify_book_dx k g : Moves (modify_book k g) (λ _, on_book k g).
Proof. intros e w u w' H. unfold modify_book in H. by m_inv. Qed.
#[export] Instance read_book_dx k : Reads (read_book k) (λ _ s, book s k).
Proof. intros e w u w' H. unfold read_book in H. by m_inv. Qed.
#[export] Instance write_ticks_dx k g : Moves (write_ticks k g) (λ _, on_book k g).
Proof. intros e w u w' H. unfold write_ticks in H. dx_inv. by rewrite H. Qed.
Definition best_at (k : B256) (b : bool) (t : Z) := on_book k (set_best_tick b t).
#[export] Instance write_best_tick_dx k b t : Moves (write_best_tick k b t) (λ _, best_at k b t).
Proof. apply write_ticks_dx. Qed.

(** What a level write stores: from T12 on the old liquidity stays. *)
Definition stored_level (sp : TempoHardfork) (old new : TickLevel.t) : TickLevel.t :=
  if is_t12 sp then TickLevel.set_total_liquidity (λ _, old.(TickLevel.total_liquidity)) new else new.
Definition put_level (k : B256) (b : bool) (t : Z) (l : TickLevel.t) : Dex.State → Dex.State :=
  on_book k (set_levels b (insert t l)).
#[export] Instance level_write_dx k t b l :
  Moves (level_write k t b l)
    (λ e s, put_level k b t (stored_level (spec e) (lvl s k b t) l) s).
Proof. intros e w u w' H. unfold level_write in H. dx_inv. by rewrite H. Qed.
#[export] Instance level_delete_dx k t b :
  Moves (level_delete k t b)
    (λ e s, put_level k b t (stored_level (spec e) (lvl s k b t) dflt) s).
Proof. intros e w u w' H. unfold level_delete in H. by effect_in H. Qed.
(** What a level read returns. *)
Definition read_level (sp : TempoHardfork) (l : TickLevel.t) : TickLevel.t :=
  if is_t12 sp then TickLevel.set_total_liquidity (λ _, 0) l else l.
#[export] Instance level_read_dx k t b :
  Reads (level_read k t b) (λ e s, read_level (spec e) (lvl s k b t)).
Proof. intros e w u w' H. unfold level_read in H. dx_inv. done. Qed.

(** The bitmap with the bit of [t] set to [v]. *)
Definition put_bit (b : bool) (t : Z) (v : bool) (o : Orderbook.t) : Orderbook.t :=
  let w := (bitmap b o).[word_index t] in
  set_bitmap b (insert (word_index t)
    (if v then N.lor w (Packing.u256_shl 1 (bit_index t))
     else N.land w (Packing.u256_not (Packing.u256_shl 1 (bit_index t))))) o.
Definition bits_at (k : B256) (b : bool) (t : Z) (v : bool) := on_book k (put_bit b t v).
#[export] Instance set_tick_bit_dx k t b :
  Effect (set_tick_bit k t b) (λ _ w _ w',
    in_tick_range t = true ∧ dx w' = bits_at k b t true (dx w)).
Proof.
  intros e w u w' H. unfold set_tick_bit, calc_tick_word_idx, write_bitmap_word in H. dx_inv.
  split; [done|]. by rewrite H, Hrun2.
Qed.
#[export] Instance delete_tick_bit_dx k t b :
  Effect (delete_tick_bit k t b) (λ _ w _ w',
    in_tick_range t = true ∧ dx w' = bits_at k b t false (dx w)).
Proof.
  intros e w u w' H. unfold delete_tick_bit, calc_tick_word_idx, write_bitmap_word in H. dx_inv.
  split; [done|]. by rewrite H, Hrun2.
Qed.
#[export] Instance next_tick_dx k t b :
  Reads (next_initialized_tick k t b) (λ _ s,
    if b then next_initialized_bid_tick (bitmap true (book s k)) t
    else next_initialized_ask_tick (bitmap false (book s k)) t).
Proof. intros e w u w' H. unfold next_initialized_tick in H. dx_inv. done. Qed.

(** *** Orders *)

(** The order as read with a known book. *)
Definition ord_in (s : Dex.State) (id : N) (k : B256) : Order.t :=
  match s.(Dex.orders).[id] with
  | OrderRecord.V2 v => Orders.v2_into_order v id k
  | r => decode [] id r
  end.
#[export] Instance read_in_book_dx id k : Reads (Orders.read_in_book id k) (λ _ s, ord_in s id k).
Proof.
  intros e w o w' H. unfold Orders.read_in_book, Orders.read_with_book_key in H. dx_inv.
  all: unfold ord_in; match goal with H : _ = (Dex.orders _).[_] |- _ => by rewrite <- H end.
Qed.
#[export] Instance read_dx id :
  Effect (Orders.read id) (λ _ w o w', w' = w ∧ o = ord (dx w) id).
Proof.
  intros e w o w' H. unfold Orders.read, Orders.read_with_book_key, Orders.book_key_for_index in H.
  dx_inv; unfold ord, decode; (split; [done|]).
  all: match goal with H : _ = (Dex.orders _).[_] |- _ => rewrite <- H end; try done.
  change (Dex.book_keys (dx w)) with (Dex.book_keys (cget dexC w)).
  match goal with H : _ = Some _ |- _ => by rewrite H end.
Qed.
#[export] Instance record_maker_dx id :
  Effect (Orders.record_maker_of id) (λ _ w _ w', w' = w).
Proof. intros e w o w' H. unfold Orders.record_maker_of in H. by dx_inv. Qed.
#[export] Instance write_in_book_dx id o bid :
  Moves (Orders.write_in_book id o bid) (λ e, put id (Orders.record_for (spec e) o bid)).
Proof. intros e w u w' H. unfold Orders.write_in_book in H. by dx_inv. Qed.
#[export] Instance write_remaining_dx id x :
  Moves (Orders.write_remaining id x)
    (λ _ s, put id (Orders.record_set_remaining x s.(Dex.orders).[id]) s).
Proof. intros e w u w' H. unfold Orders.write_remaining in H. by dx_inv. Qed.
#[export] Instance write_prev_dx id x :
  Moves (Orders.write_prev id x) (λ _ s, put id (Orders.record_set_prev x s.(Dex.orders).[id]) s).
Proof. intros e w u w' H. unfold Orders.write_prev in H. by dx_inv. Qed.
#[export] Instance write_next_dx id x :
  Moves (Orders.write_next id x) (λ _ s, put id (Orders.record_set_next x s.(Dex.orders).[id]) s).
Proof. intros e w u w' H. unfold Orders.write_next in H. by dx_inv. Qed.
#[export] Instance order_delete_dx id : Moves (Orders.delete id) (λ _, put id dflt).
Proof. intros e w u w' H. unfold Orders.delete in H. by effect_in H. Qed.

(** *** Balances and ids *)

Definition put_balance (u t : Address) (n : N) : Dex.State → Dex.State :=
  Dex.set_balances (insert (u, t) n).
#[export] Instance balance_of_dx u t : Reads (balance_of u t) (λ _ s, s.(Dex.balances).[(u, t)]).
Proof. intros e w a w' H. unfold balance_of in H. by m_inv. Qed.
#[export] Instance set_balance_dx u t n : Moves (set_balance u t n) (λ _, put_balance u t n).
Proof. intros e w a w' H. unfold set_balance in H. dx_inv. by rewrite H. Qed.
#[export] Instance increment_balance_dx u t n :
  Effect (increment_balance u t n) (λ _ w _ w',
    (dx w).(Dex.balances).[(u, t)] + n ≤ U128_MAX ∧
    dx w' = put_balance u t ((dx w).(Dex.balances).[(u, t)] + n) (dx w)).
Proof. intros e w a w' H. unfold increment_balance in H. dx_inv. checked_simpl. subst. done. Qed.
#[export] Instance sub_balance_dx u t n :
  Effect (sub_balance u t n) (λ _ w _ w',
    n ≤ (dx w).(Dex.balances).[(u, t)] ∧
    dx w' = put_balance u t ((dx w).(Dex.balances).[(u, t)] - n) (dx w)).
Proof. intros e w a w' H. unfold sub_balance in H. dx_inv. checked_simpl. subst. done. Qed.

#[export] Instance next_order_id_dx :
  Reads next_order_id (λ _ s, N.max s.(Dex.next_order_id) 1).
Proof. intros e w a w' H. unfold next_order_id in H. by m_inv. Qed.
#[export] Instance write_next_order_id_dx n :
  Moves (write_next_order_id n) (λ _, Dex.set_next_order_id (λ _, n)).
Proof. intros e w a w' H. unfold write_next_order_id in H. dx_inv. by rewrite H. Qed.
#[export] Instance increment_next_dx :
  Moves increment_next_order_id (λ _ s,
    Dex.set_next_order_id (λ _, wrapping_inc (N.max s.(Dex.next_order_id) 1)) s).
Proof. intros e w a w' H. unfold increment_next_order_id in H. by dx_inv. Qed.

(** *** Storage credits of makers *)

#[export] Instance storage_credits_dx u : Effect (storage_credits u) (λ _ w _ w', w' = w).
Proof. intros e w a w' H. unfold storage_credits in H. by m_inv. Qed.
#[export] Instance write_storage_credits_dx u n :
  Moves (write_storage_credits u n) (λ _ s, s).
Proof. intros e w a w' H. unfold write_storage_credits in H. dx_inv. rewrite H. by w_simpl. Qed.


(** A tracked or budgeted run is a run of its body. *)
Lemma dex_budget_run {A} a n (m : M A) e w v d w' :
  Credits.with_budget a n m e w = (Ok (v, d), w') →
  ∃ w1 w2, w_dex w1 = w_dex w ∧ m e w1 = (Ok v, w2) ∧ w_dex w' = w_dex w2.
Proof.
  intros (w1 & w2 & E1 & H & E2)%Credits.with_budget_run. exists w1, w2.
  split_and!; [exact (f_equal w_dex E1)|done|exact (f_equal w_dex E2)].
Qed.

#[export] Instance credit_slots_dx u n : Moves (credit_dex_storage_slots u n) (λ _ s, s).
Proof.
  intros e w a w' H. unfold credit_dex_storage_slots in H. dx_inv; try done.
  match goal with H : Credits.with_budget _ _ _ _ _ = _ |- _ =>
    apply dex_budget_run in H as (? & ? & ? & ? & ?) end.
  dx_inv. congruence.
Qed.
#[export] Instance delete_order_dx o : Moves (delete_order o) (λ _, put o.(Order.order_id) dflt).
Proof.
  intros e w a w' H. unfold delete_order in H. m_inv. apply Credits.track_run in Hrun. by effect_in Hrun.
Qed.
#[export] Instance delete_track_dx d o :
  Moves (delete_order_and_track_deltas d o) (λ _, put o.(Order.order_id) dflt).
Proof. intros e w a w' H. unfold delete_order_and_track_deltas in H. by dx_inv. Qed.
#[export] Instance rewrite_order_dx o bid :
  Moves (rewrite_order o bid) (λ e, put o.(Order.order_id) (Orders.record_for (spec e) o bid)).
Proof.
  intros e w a w' H. unfold rewrite_order in H. m_inv. apply Credits.track_run in Hrun. by effect_in Hrun.
Qed.
#[export] Instance unlink_dx id m F : Moves m F → Moves (unlink_neighbor_and_credit_maker id m) F.
Proof.
  intros Hm e w a w' H. unfold unlink_neighbor_and_credit_maker in H. m_inv.
  all: apply Credits.track_run in Hrun; apply Hm in Hrun; dx_inv; congruence.
Qed.
#[export] Instance write_spending_dx o bid :
  Moves (write_order_spending_dex_storage_credits o bid)
    (λ e, put o.(Order.order_id) (Orders.record_for (spec e) o bid)).
Proof.
  intros e w a w' H. unfold write_order_spending_dex_storage_credits in H. dx_inv; try done.
  match goal with H : Credits.with_budget _ _ _ _ _ = _ |- _ =>
    apply dex_budget_run in H as (? & ? & ? & ? & ?) end.
  dx_inv. congruence.
Qed.
#[export] Instance flush_dx d : Moves (Credits.flush d credit_dex_storage_slots) (λ _ s, s).
Proof.
  unfold Credits.flush. intros e w a w'. revert w. induction d as [|[u n] d IH]; intros w H; simpl in H; dx_inv.
  - done.
  - specialize (IH _ H). congruence.
Qed.

(** ** What the views see of an update

    A queue of orders sits at a coordinate: a book, a side and a tick. *)

Abbreviation crd := (B256 * bool * Z)%type.
Abbreviation ck c := (c.1.1).
Abbreviation cb c := (c.1.2).
Abbreviation ct c := (c.2).
Definition okey (o : Order.t) : crd := (o.(Order.book_key), o.(Order.is_bid), o.(Order.tick)).
Definition lv (s : Dex.State) (c : crd) : TickLevel.t := lvl s (ck c) (cb c) (ct c).
Definition bt (s : Dex.State) (c : crd) : bool := bit s (ck c) (cb c) (ct c).

Section views.
Context (s : Dex.State).

Lemma book_on_book k g k' :
  book (on_book k g s) k' = if decide (k = k') then g (book s k) else book s k'.
Proof. unfold book, on_book, Dex.set_books. cbn. apply sread_insert. Qed.

Lemma ord_put id r id' :
  ord (put id r s) id' = if decide (id = id') then decode s.(Dex.book_keys) id r else ord s id'.
Proof. unfold ord, put, Dex.set_orders. cbn. rewrite sread_insert. case_decide; by subst. Qed.

Lemma lv_put_level k b t l c :
  lv (put_level k b t l s) c = if decide ((k, b, t) = c) then l else lv s c.
Proof.
  destruct c as [[k' b'] t']. unfold lv, lvl, put_level. cbn [fst snd]. rewrite book_on_book.
  case_decide as Hk; [subst k'|by rewrite decide_False by naive_solver].
  destruct b, b'; cbn; try by rewrite decide_False by naive_solver.
  all: rewrite sread_insert; case_decide; [by rewrite decide_True by naive_solver|].
  all: by rewrite decide_False by naive_solver.
Qed.
Lemma bt_put_level k b t l c : bt (put_level k b t l s) c = bt s c.
Proof.
  unfold bt, bit, put_level. rewrite book_on_book. case_decide; [subst|done]. by destruct b, (cb c).
Qed.
Lemma best_put_level k b t l k' b' : best (put_level k b t l s) k' b' = best s k' b'.
Proof. unfold best, put_level. rewrite book_on_book. case_decide; [subst|done]. by destruct b, b'. Qed.
Lemma pair_put_level k b t l k' : pair (put_level k b t l s) k' = pair s k'.
Proof. unfold pair, put_level. rewrite book_on_book. case_decide; [subst|done]. by destruct b. Qed.

Lemma lv_bits_at k b t v c : lv (bits_at k b t v s) c = lv s c.
Proof.
  unfold lv, lvl, bits_at, put_bit. rewrite book_on_book. case_decide; [subst|done].
  by destruct b, (cb c).
Qed.
Lemma put_bit_testbit (w : N) t t' (v : bool) :
  word_index t = word_index t' →
  N.testbit (if v then N.lor w (Packing.u256_shl 1 (bit_index t))
             else N.land w (Packing.u256_not (Packing.u256_shl 1 (bit_index t)))) (bit_index t') =
  if decide (t = t') then v else N.testbit w (bit_index t').
Proof.
  intros Hw. destruct (tick_split t) as [Ht Hb], (tick_split t') as [Ht' Hb'].
  assert (t = t' ↔ bit_index t = bit_index t') as Heq by lia.
  assert (N.testbit (Packing.u256_shl 1 (bit_index t)) (bit_index t') =
          bool_decide (bit_index t = bit_index t')) as Hone.
  { rewrite Packing.shl_testbit. rewrite (proj2 (N.ltb_lt _ _) Hb'). cbn.
    destruct (N.leb_spec (bit_index t) (bit_index t')) as [Hle|]; cbn.
    - destruct (decide (bit_index t = bit_index t')) as [E|E].
      + rewrite bool_decide_true by done. by rewrite E, N.sub_diag.
      + rewrite bool_decide_false by done. destruct (bit_index t' - bit_index t) eqn:?; [lia|done].
    - rewrite bool_decide_false by lia. done. }
  destruct v.
  - rewrite N.lor_spec, Hone. destruct (decide (t = t')) as [E|E].
    + rewrite bool_decide_true by tauto. apply orb_true_r.
    + rewrite bool_decide_false by tauto. apply orb_false_r.
  - rewrite N.land_spec, Packing.not_testbit, Hone by done.
    destruct (decide (t = t')) as [E|E].
    + rewrite bool_decide_true by tauto. apply andb_false_r.
    + rewrite bool_decide_false by tauto. apply andb_true_r.
Qed.
Lemma bt_bits_at k b t v c :
  bt (bits_at k b t v s) c = if decide ((k, b, t) = c) then v else bt s c.
Proof.
  destruct c as [[k' b'] t']. unfold bt, bit, bits_at. cbn [fst snd]. rewrite book_on_book.
  case_decide as Hk; [subst k'|by rewrite decide_False by naive_solver].
  unfold tick_set, put_bit.
  destruct (decide (b = b')) as [<-|Hb].
  2: { rewrite decide_False by naive_solver. by destruct b, b'. }
  transitivity (N.testbit ((<[word_index t := if v then N.lor (bitmap b (book s k)).[word_index t]
      (Packing.u256_shl 1 (bit_index t)) else N.land (bitmap b (book s k)).[word_index t]
      (Packing.u256_not (Packing.u256_shl 1 (bit_index t)))]> (bitmap b (book s k))).[word_index t'])
      (bit_index t')); [by destruct b|].
  rewrite sread_insert. case_decide as Hw.
  - rewrite put_bit_testbit by done. rewrite Hw. case_decide; case_decide; naive_solver.
  - rewrite decide_False; [done|]. intros [= ->]. done.
Qed.
Lemma best_bits_at k b t v k' b' : best (bits_at k b t v s) k' b' = best s k' b'.
Proof.
  unfold best, bits_at, put_bit. rewrite book_on_book. case_decide; [subst|done]. by destruct b, b'.
Qed.
Lemma pair_bits_at k b t v k' : pair (bits_at k b t v s) k' = pair s k'.
Proof. unfold pair, bits_at, put_bit. rewrite book_on_book. case_decide; [subst|done]. by destruct b. Qed.

Lemma lv_best_at k b t c : lv (best_at k b t s) c = lv s c.
Proof.
  unfold lv, lvl, best_at. rewrite book_on_book. case_decide; [subst|done]. by destruct b, (cb c).
Qed.
Lemma bt_best_at k b t c : bt (best_at k b t s) c = bt s c.
Proof.
  unfold bt, bit, best_at. rewrite book_on_book. case_decide; [subst|done]. by destruct b, (cb c).
Qed.
Lemma best_best_at k b t k' b' :
  best (best_at k b t s) k' b' = if decide ((k, b) = (k', b')) then t else best s k' b'.
Proof.
  unfold best, best_at. rewrite book_on_book. case_decide as Hk; [subst|by rewrite decide_False by naive_solver].
  destruct b, b'; cbn; first [by rewrite decide_True | by rewrite decide_False].
Qed.
Lemma pair_best_at k b t k' : pair (best_at k b t s) k' = pair s k'.
Proof. unfold pair, best_at. rewrite book_on_book. case_decide; [subst|done]. by destruct b. Qed.

End views.

(** The views the updates leave alone by computation. *)
Lemma ord_on_book k g s id : ord (on_book k g s) id = ord s id. Proof. done. Qed.
Lemma ord_put_level k b t l s id : ord (put_level k b t l s) id = ord s id. Proof. done. Qed.
Lemma ord_bits_at k b t v s id : ord (bits_at k b t v s) id = ord s id. Proof. done. Qed.
Lemma ord_best_at k b t s id : ord (best_at k b t s) id = ord s id. Proof. done. Qed.
Lemma ord_put_balance u t n s id : ord (put_balance u t n s) id = ord s id. Proof. done. Qed.
Lemma lv_put id r s c : lv (put id r s) c = lv s c. Proof. done. Qed.
Lemma lv_put_balance u t n s c : lv (put_balance u t n s) c = lv s c. Proof. done. Qed.
Lemma bt_put id r s c : bt (put id r s) c = bt s c. Proof. done. Qed.
Lemma bt_put_balance u t n s c : bt (put_balance u t n s) c = bt s c. Proof. done. Qed.
Lemma best_put id r s k b : best (put id r s) k b = best s k b. Proof. done. Qed.
Lemma best_put_balance u t n s k b : best (put_balance u t n s) k b = best s k b. Proof. done. Qed.
Lemma pair_put id r s k : pair (put id r s) k = pair s k. Proof. done. Qed.
Lemma pair_put_balance u t n s k : pair (put_balance u t n s) k = pair s k. Proof. done. Qed.

(** *** Records *)

Lemma decode_set_remaining ks id x r :
  decode ks id (Orders.record_set_remaining x r) = Order.set_remaining (λ _, x) (decode ks id r).
Proof. by destruct r. Qed.
Lemma decode_set_prev ks id x r :
  decode ks id (Orders.record_set_prev x r) = Order.set_prev (λ _, x) (decode ks id r).
Proof. by destruct r. Qed.
Lemma decode_set_next ks id x r :
  decode ks id (Orders.record_set_next x r) = Order.set_next (λ _, x) (decode ks id r).
Proof. by destruct r. Qed.

(** The id of a book points back to it in the list of book keys. *)
Definition id_of_book (ks : list B256) (k : B256) (bid : N) : Prop :=
  bid = 0 ∨ ks !! N.to_nat (bid - 1) = Some k.
Lemma decode_record_for ks sp o bid :
  id_of_book ks o.(Order.book_key) bid →
  decode ks o.(Order.order_id) (Orders.record_for sp o bid) = o.
Proof.
  intros Hb. unfold Orders.record_for. destruct (is_t8 sp); cbn [negb]; [|done].
  destruct o as [id m k b a r t p n f ft]; cbn in *. unfold Orders.book_id_index, checked_sub.
  destruct (N.leb_spec 1 bid); cbn.
  - destruct Hb as [->|Hb]; [lia|]. unfold Orders.v2_into_order, Orders.v2_new; cbn.
    rewrite Hb. by destruct b, f.
  - by destruct b, f.
Qed.

(** An order read with the key of its own book. *)
Lemma ord_in_ord s id k : (ord s id).(Order.book_key) = k → ord_in s id k = ord s id.
Proof. unfold ord_in, ord. intros <-. by destruct (Dex.orders s).[id]. Qed.

Create HintDb dexview discriminated.
#[export] Hint Rewrite ord_put lv_put_level bt_put_level best_put_level pair_put_level lv_bits_at
  bt_bits_at best_bits_at pair_bits_at lv_best_at bt_best_at best_best_at pair_best_at ord_put_level
  ord_bits_at ord_best_at ord_put_balance lv_put lv_put_balance bt_put bt_put_balance best_put
  best_put_balance pair_put pair_put_balance : dexview.

End DexView.
