(* ===== verification/DexQueue.v ===== *)
(** * Order queues

    The orders resting at one tick form a doubly linked list through the records of
    the orders: the level points to its two ends and the bitmap says whether there
    are any. [queue s c l] says that the storage [s] represents the list [l] at the
    coordinate [c]. The lemmas here relink such lists; they know nothing of the
    operations that do. *)

From S2P Require Import Prelude Packing Hardfork Address Errors DexState State Monad.
From S2P Require Import StorageCredits DexOrder DexBook DexMath DexBitmap Tip20Base Tip403 Tip20Core.
From S2P Require Import Tip20 Dex DexView.

Module DexQueue.
Import Book DexOps DexBitmap DexView.

(** ** Linked segments *)

Record resting (s : Dex.State) (c : crd) (id : N) : Prop := Resting {
  rs_id : (ord s id).(Order.order_id) = id;
  rs_key : okey (ord s id) = c;
  rs_maker : (ord s id).(Order.maker) ≠ 0;
  rs_pos : 0 < (ord s id).(Order.remaining);
  rs_amount : (ord s id).(Order.remaining) ≤ (ord s id).(Order.amount)
}.

(** The list [l] of orders, linked in both directions, entered from [p] and left to
    [n]. *)
Fixpoint seg (s : Dex.State) (c : crd) (p : N) (l : list N) (n : N) : Prop :=
  match l with
  | [] => True
  | id :: l' =>
      resting s c id ∧ (ord s id).(Order.prev) = p ∧
      (ord s id).(Order.next) = default n (head l') ∧ seg s c id l' n
  end.

Lemma resting_ext s s' c id : ord s' id = ord s id → resting s c id → resting s' c id.
Proof. intros E []. split; by rewrite E. Qed.
Lemma resting_relink s s' c id p n :
  ord s' id = Order.set_prev (λ _, p) (Order.set_next (λ _, n) (ord s id)) →
  resting s c id → resting s' c id.
Proof. intros E []. split; by rewrite E. Qed.

Lemma seg_ext s s' c p l n :
  (∀ id, id ∈ l → ord s' id = ord s id) → seg s c p l n → seg s' c p l n.
Proof.
  revert p. induction l as [|id l IH]; intros p E; [done|]. intros (Hr & Hp & Hn & Hs).
  assert (ord s' id = ord s id) as Ei by (apply E; left).
  split_and!; [by eapply resting_ext|by rewrite Ei|by rewrite Ei|].
  apply IH; [|done]. intros. apply E. by right.
Qed.

Lemma seg_app s c p l1 l2 n :
  seg s c p (l1 ++ l2) n ↔
  seg s c p l1 (default n (head l2)) ∧ seg s c (default p (last l1)) l2 n.
Proof.
  revert p. induction l1 as [|id l1 IH]; intros p; [cbn; tauto|].
  cbn [app seg]. rewrite IH, last_cons.
  assert (default n (head (l1 ++ l2)) = default (default n (head l2)) (head l1)) as -> by by destruct l1.
  destruct (last l1); cbn; tauto.
Qed.

Lemma seg_resting s c p l n id : seg s c p l n → id ∈ l → resting s c id.
Proof.
  revert p. induction l as [|x l IH]; intros p; [by intros _ ?%elem_of_nil|].
  intros (Hr & _ & _ & Hs) [->|Hi]%elem_of_cons; [done|by eapply IH].
Qed.

(** The neighbours of an element. *)
Lemma seg_split s c p l1 id l2 n :
  seg s c p (l1 ++ id :: l2) n →
  (ord s id).(Order.prev) = default p (last l1) ∧ (ord s id).(Order.next) = default n (head l2) ∧
  seg s c p l1 id ∧ seg s c id l2 n.
Proof. rewrite seg_app. cbn. tauto. Qed.

(** *** Relinking the ends *)

Lemma seg_set_prev s s' c p p' l n :
  (∀ id, id ∈ l → ord s' id = if decide (head l = Some id) then Order.set_prev (λ _, p') (ord s id)
                              else ord s id) →
  NoDup l → seg s c p l n → seg s' c p' l n.
Proof.
  destruct l as [|id l]; [done|]. intros E [Hni _]%NoDup_cons (Hr & Hp & Hn & Hs).
  assert (ord s' id = Order.set_prev (λ _, p') (ord s id)) as Ei.
  { rewrite E by left. by rewrite decide_True. }
  split_and!.
  - apply (resting_relink s s' c id p' (ord s id).(Order.next)); [|done]. rewrite Ei. by destruct (ord s id).
  - by rewrite Ei.
  - by rewrite Ei.
  - apply (seg_ext s); [|done]. intros x Hx. rewrite E by by right. rewrite decide_False; [done|].
    cbn. intros [= ->]. done.
Qed.

Lemma seg_set_next s s' c p l n n' :
  (∀ id, id ∈ l → ord s' id = if decide (last l = Some id) then Order.set_next (λ _, n') (ord s id)
                              else ord s id) →
  NoDup l → seg s c p l n → seg s' c p l n'.
Proof.
  destruct l as [|x l _] using rev_ind; [done|]. intros E Hnd. rewrite !seg_app. cbn.
  intros (Hl & Hr & Hp & Hn & _).
  apply NoDup_app in Hnd as (_ & Hx & _).
  assert (ord s' x = Order.set_next (λ _, n') (ord s x)) as Ex.
  { rewrite E by set_solver. by rewrite decide_True by by rewrite last_snoc. }
  split; [|split_and!; try done].
  - apply (seg_ext s); [|done]. intros id Hid. rewrite E by set_solver.
    rewrite decide_False; [done|]. rewrite last_snoc. intros [= ->]. apply (Hx id Hid). set_solver.
  - apply (resting_relink s s' c x (ord s x).(Order.prev) n'); [|done]. rewrite Ex. by destruct (ord s x).
  - by rewrite Ex.
  - by rewrite Ex.
Qed.

(** ** Queues *)

Definition initialized (s : Dex.State) (k : B256) : Prop := (pair s k).1.1 ≠ 0.

Record queue (s : Dex.State) (c : crd) (l : list N) : Prop := Queue {
  q_seg : seg s c 0 l 0;
  q_nodup : NoDup l;
  q_pos : ∀ id, id ∈ l → 0 < id;
  q_head : (lv s c).(TickLevel.head) = default 0 (head l);
  q_tail : (lv s c).(TickLevel.tail) = default 0 (last l);
  q_bit : bt s c = true ↔ l ≠ [];
  q_dom : l ≠ [] → in_tick_range (ct c) = true ∧ initialized s (ck c)
}.

Lemma queue_ext s s' c l :
  (∀ id, id ∈ l → ord s' id = ord s id) → lv s' c = lv s c → bt s' c = bt s c →
  pair s' (ck c) = pair s (ck c) → queue s c l → queue s' c l.
Proof.
  intros Eo El Eb Ep []. split; unfold initialized; rewrite ?El, ?Eb, ?Ep; try done. by apply (seg_ext s).
Qed.

Lemma queue_resting s c l id : queue s c l → id ∈ l → resting s c id.
Proof. intros Hq. by apply (seg_resting s c 0 l 0), q_seg. Qed.
Lemma queue_key s c l id : queue s c l → id ∈ l → okey (ord s id) = c.
Proof. intros Hq Hi. by apply (rs_key _ _ _ (queue_resting s c l id Hq Hi)). Qed.
(** An order rests in one queue only. *)
Lemma queue_disjoint s c c' l l' id :
  queue s c l → queue s c' l' → id ∈ l → id ∈ l' → c = c'.
Proof. intros Hq Hq' Hi Hi'. rewrite <- (queue_key s c l id) by done. by apply (queue_key s c' l'). Qed.

(** ** Best ticks *)

Definition no_tick (b : bool) : Z := if b then I16_MIN else I16_MAX.
(** [t] is at least as good as [t'] on side [b]. *)
Definition as_good (b : bool) (t t' : Z) : Prop := if b then (t' ≤ t)%Z else (t ≤ t')%Z.

Definition best_ok (s : Dex.State) (k : B256) (b : bool) : Prop :=
  if decide (best s k b = no_tick b) then ∀ t, bt s (k, b, t) = false
  else bt s (k, b, best s k b) = true ∧ ∀ t, bt s (k, b, t) = true → as_good b (best s k b) t.

Lemma best_ok_ext s s' k b :
  best s' k b = best s k b → (∀ t, bt s' (k, b, t) = bt s (k, b, t)) → best_ok s k b → best_ok s' k b.
Proof. unfold best_ok. intros -> E. case_decide; intros; setoid_rewrite E; done. Qed.

End DexQueue.

(** ** Committing an order

    [commit_order_to_book] appends an order to the queue of its tick: [appended] says
    what that changes and what it leaves alone. *)

Module DexCommit.
Import Book DexOps DexBitmap DexView DexQueue.

(** Case on the tests of the goal. *)
Ltac if_cases :=
  repeat match goal with |- context [if ?b then _ else _] => destruct b eqn:? end.

(** ** What updates keep *)

(** The book of a compact record is known. *)
Definition resolvable (s : Dex.State) (id : N) : Prop :=
  match s.(Dex.orders).[id] with
  | OrderRecord.V2 v => is_Some (s.(Dex.book_keys) !! N.to_nat v.(V2Order.book_index))
  | _ => True
  end.

(** Nothing but orders, levels, bits and best ticks changed. *)
Record fixed (s s' : Dex.State) : Prop := Fixed {
  fx_keys : s'.(Dex.book_keys) = s.(Dex.book_keys);
  fx_next : s'.(Dex.next_order_id) = s.(Dex.next_order_id);
  fx_pair : ∀ k, pair s' k = pair s k
}.
#[export] Instance fixed_po : PreOrder fixed.
Proof.
  split; [by split|]. intros s1 s2 s3 [] []. split; [congruence..|]. intros k. congruence.
Qed.

Lemma resolvable_put s id r id' :
  resolvable (put id r s) id' ↔
  if decide (id = id') then
    match r with
    | OrderRecord.V2 v => is_Some (s.(Dex.book_keys) !! N.to_nat v.(V2Order.book_index))
    | _ => True
    end
  else resolvable s id'.
Proof. unfold resolvable, put, Dex.set_orders. cbn. rewrite sread_insert. by case_decide. Qed.
Lemma resolvable_record_for s sp o bid :
  id_of_book s.(Dex.book_keys) o.(Order.book_key) bid →
  match Orders.record_for sp o bid with
  | OrderRecord.V2 v => is_Some (s.(Dex.book_keys) !! N.to_nat v.(V2Order.book_index))
  | _ => True
  end.
Proof.
  intros Hb. unfold Orders.record_for. destruct (is_t8 sp); [|done]. cbn.
  unfold Orders.book_id_index, checked_sub. destruct (N.leb_spec 1 bid); [|done]. cbn.
  destruct Hb as [->|Hb]; [lia|]. by rewrite Hb.
Qed.

(** ** Appending an order *)

(** The first half of a commit: the old tail points to the new order. *)
Record linked (s s' : Dex.State) (c : crd) (l : list N) (id : N) : Prop := Linked {
  ln_fixed : fixed s s';
  ln_balances : s'.(Dex.balances) = s.(Dex.balances);
  ln_ord : ∀ x, ord s' x = if decide (last l = Some x) then Order.set_next (λ _, id) (ord s x) else ord s x;
  ln_lv : ∀ c', lv s' c' = lv s c';
  ln_bt : ∀ c', bt s' c' = if decide (c' = c) then true else bt s c';
  ln_range : in_tick_range (ct c) = true;
  ln_best : ∀ k b, (k, b) ≠ (ck c, cb c) → best s' k b = best s k b;
  ln_best_ok : best_ok s (ck c) (cb c) → best_ok s' (ck c) (cb c);
  ln_res : ∀ x, resolvable s x → resolvable s' x
}.

Lemma in_range_bounds t : in_tick_range t = true → (I16_MIN < t < I16_MAX)%Z.
Proof. unfold in_tick_range, MIN_TICK, MAX_TICK, I16_MIN, I16_MAX. lia. Qed.

Definition improves (b : bool) (t cur : Z) : bool := if b then (cur <? t)%Z else (t <? cur)%Z.
Lemma best_ok_set s s' k b t :
  (∀ t', bt s' (k, b, t') = if decide (t' = t) then true else bt s (k, b, t')) →
  in_tick_range t = true →
  best s' k b = (if improves b t (best s k b) then t else best s k b) →
  best_ok s k b → best_ok s' k b.
Proof.
  unfold best_ok, as_good, improves, no_tick. intros Hbt Hr%in_range_bounds Hb Hok.
  assert (∀ t', bt s' (k, b, t') = true → t' = t ∨ bt s (k, b, t') = true) as Hset.
  { intros t' Ht. rewrite Hbt in Ht. case_decide; auto. }
  assert (bt s' (k, b, t) = true) as Hnew by (rewrite Hbt; by rewrite decide_True).
  revert Hok. case_decide as Hn; intros Hok.
  - assert (best s' k b = t) as -> by (rewrite Hb, Hn; destruct b; if_cases; lia).
    rewrite decide_False by (destruct b; lia). split; [done|].
    intros t' [->|Ht]%Hset; [destruct b; lia|]. by rewrite Hok in Ht.
  - destruct Hok as [Hs Hbest].
    assert (best s' k b ≠ if b then I16_MIN else I16_MAX) as Hn'.
    { rewrite Hb. destruct b; if_cases; lia. }
    rewrite decide_False by done. rewrite Hb. split.
    + if_cases; try done; rewrite Hbt; by case_decide.
    + intros t' [->|Ht]%Hset; [destruct b; if_cases; lia|]. specialize (Hbest t' Ht).
      destruct b; if_cases; lia.
Qed.

Lemma queue_tail_0 s c l : queue s c l → (lv s c).(TickLevel.tail) = 0 → l = [].
Proof.
  intros Hq Ht. rewrite (q_tail _ _ _ Hq) in Ht. destruct l as [|x l _] using rev_ind; [done|].
  rewrite last_snoc in Ht. cbn in Ht. subst x. pose proof (q_pos _ _ _ Hq 0). set_solver by lia.
Qed.

(** The views of a composite update. *)
Ltac views := cbv beta; autorewrite with dexview.
Ltac by_fixed := split; [done|done|intros ?; by views].

Lemma best_ok_bits s k b t :
  in_tick_range t = true →
  best_ok s k b →
  best_ok ((if improves b t (best s k b) then best_at k b t else λ s, s) (bits_at k b t true s)) k b.
Proof.
  intros Hr. apply (best_ok_set s _ k b t); [|done|].
  - intros t'. transitivity (bt (bits_at k b t true s) (k, b, t')); [if_cases; by views|].
    rewrite bt_bits_at. destruct (decide (t' = t)) as [->|]; [by rewrite decide_True|].
    rewrite decide_False; [done|congruence].
  - if_cases; views; [by rewrite decide_True|done].
Qed.

Lemma linked_first s c l id :
  queue s c l → l = [] → in_tick_range (ct c) = true →
  linked s ((if improves (cb c) (ct c) (best s (ck c) (cb c)) then best_at (ck c) (cb c) (ct c)
             else λ s, s) (bits_at (ck c) (cb c) (ct c) true s)) c l id.
Proof.
  intros Hq -> Hr. destruct c as [[k b] t]. cbn [fst snd].
  split; cbn [fst snd]; try done.
  - if_cases; by_fixed.
  - by if_cases.
  - by if_cases.
  - intros c'. if_cases; by views.
  - intros c'. transitivity (bt (bits_at k b t true s) c'); [if_cases; by views|]. rewrite bt_bits_at.
    do 2 destruct (decide (_ = _)); congruence.
  - intros k' b' Hne. if_cases; views; [by rewrite decide_False|done].
  - by apply best_ok_bits.
  - intros x. by if_cases.
Qed.

Lemma linked_next s c l tl id r :
  queue s c l → last l = Some tl →
  decode s.(Dex.book_keys) tl r = Order.set_next (λ _, id) (ord s tl) →
  (resolvable s tl → resolvable (put tl r s) tl) →
  linked s (put tl r s) c l id.
Proof.
  intros Hq Hl Hd Hres. assert (l ≠ []) as Hne by (intros ->; done).
  destruct (q_dom _ _ _ Hq Hne) as [Hr _]. split; try done.
  - intros x. views. rewrite Hl. destruct (decide (tl = x)) as [->|].
    + by rewrite decide_True.
    + rewrite decide_False; [done|congruence].
  - intros c'. views. case_decide; [subst c'|done]. by apply (q_bit _ _ _ Hq).
  - intros x Hx. destruct (decide (tl = x)) as [->|]; [by apply Hres|].
    rewrite resolvable_put. by rewrite decide_False.
Qed.

(** The record of the new tail written before T8 and from T8 on. *)
Lemma next_record s sp tl id k bid r :
  (ord s tl).(Order.book_key) = k → (ord s tl).(Order.order_id) = tl →
  id_of_book s.(Dex.book_keys) k bid →
  r = (if is_t8 sp then Orders.record_set_next id s.(Dex.orders).[tl]
       else Orders.record_for sp (Order.set_next (λ _, id) (ord_in s tl k)) bid) →
  decode s.(Dex.book_keys) tl r = Order.set_next (λ _, id) (ord s tl) ∧
  (resolvable s tl → resolvable (put tl r s) tl).
Proof.
  intros Hk Hid Hb ->. rewrite ord_in_ord by done. split.
  - if_cases; [apply decode_set_next|].
    transitivity (decode (Dex.book_keys s) (Order.order_id (Order.set_next (λ _, id) (ord s tl)))
      (Orders.record_for sp (Order.set_next (λ _, id) (ord s tl)) bid)).
    { f_equal. by rewrite <- Hid at 1. }
    apply decode_record_for. by rewrite <- Hk in Hb.
  - intros Hr. rewrite resolvable_put. rewrite decide_True by done. if_cases.
    + unfold resolvable in Hr. by destruct (Dex.orders s).[tl].
    + apply resolvable_record_for. by rewrite <- Hk in Hb.
Qed.

Lemma link_spec e w level o r w' l :
  link_at_tail (book (dx w) o.(Order.book_key)) level o e w = (Ok r, w') →
  level.(TickLevel.head) = (lv (dx w) (okey o)).(TickLevel.head) →
  level.(TickLevel.tail) = (lv (dx w) (okey o)).(TickLevel.tail) →
  queue (dx w) (okey o) l →
  id_of_book (dx w).(Dex.book_keys) o.(Order.book_key) (pair (dx w) o.(Order.book_key)).2 →
  linked (dx w) (dx w') (okey o) l o.(Order.order_id) ∧
  r = (TickLevel.mk (default o.(Order.order_id) (head l)) o.(Order.order_id) level.(TickLevel.total_liquidity),
       match last l with Some p => Order.set_prev (λ _, p) o | None => o end).
Proof.
  intros H Hh Ht Hq Hb. unfold link_at_tail in H. destruct (N.eqb_spec (TickLevel.tail level) 0) as [H0|H0].
  - assert (l = []) as Hl by (eapply queue_tail_0; [done|congruence]).
    pose proof (λ Hr, linked_first (dx w) (okey o) l (Order.order_id o) Hq Hl Hr) as HL.
    unfold okey, best, improves in HL. cbn [fst snd] in HL. subst l.
    dx_inv; (split; [|done]); unfold okey.
    all: repeat match goal with H : dx _ = _ |- _ => rewrite H end.
    all: match goal with H : Order.is_bid _ = _ |- _ => rewrite H end; auto.
  - destruct (last l) as [tl|] eqn:Hl.
    2: { rewrite (q_tail _ _ _ Hq), Hl in Ht. done. }
    assert (TickLevel.tail level = tl) as Etl by (by rewrite Ht, (q_tail _ _ _ Hq), Hl).
    assert (head l ≠ None) as Hhd by by destruct l.
    assert (TickLevel.head level = default (Order.order_id o) (head l)) as Ehd.
    { rewrite Hh, (q_head _ _ _ Hq). by destruct l. }
    rewrite Etl, Ehd in H. clear Hh Ht H0 Hhd Etl Ehd.
    assert (resting (dx w) (okey o) tl) as Hrest.
    { apply (queue_resting _ _ l); [done|]. by apply last_Some_elem_of. }
    pose proof (rs_key _ _ _ Hrest) as Hk. pose proof (rs_id _ _ _ Hrest) as Hid.
    assert (Order.book_key (ord (dx w) tl) = Order.book_key o) as Hk' by by injection Hk.
    pose proof (next_record (dx w) (spec e) tl (Order.order_id o) _ _ _ Hk' Hid Hb eq_refl) as [Hd Hres].
    dx_inv; (split; [|done]).
    all: match goal with H : dx _ = _ |- _ => rewrite H end.
    all: match goal with H : is_t8 _ = _ |- _ => rewrite H in * end; by apply linked_next.
Qed.

(** An order without its links. *)
Definition payload (o : Order.t) : Order.t := Order.set_prev (λ _, 0) (Order.set_next (λ _, 0) o).

(** A commit: the order is the new last of its queue, the rest of the exchange is as
    before. *)
Record appended (sp : TempoHardfork) (s s' : Dex.State) (l : list N) (o : Order.t) : Prop := Appended {
  ap_fixed : fixed s s';
  ap_balances : s'.(Dex.balances) = s.(Dex.balances);
  ap_queue : queue s' (okey o) (l ++ [o.(Order.order_id)]);
  ap_new : payload (ord s' o.(Order.order_id)) = o;
  ap_old : ∀ x, x ≠ o.(Order.order_id) → x ∉ l → ord s' x = ord s x;
  ap_payload : ∀ x, x ≠ o.(Order.order_id) → payload (ord s' x) = payload (ord s x);
  ap_lv : ∀ c, c ≠ okey o → lv s' c = lv s c;
  ap_bt : ∀ c, c ≠ okey o → bt s' c = bt s c;
  ap_total : is_t12 sp = false →
    (lv s' (okey o)).(TickLevel.total_liquidity) =
    (lv s (okey o)).(TickLevel.total_liquidity) + o.(Order.remaining);
  ap_best : ∀ k b, (k, b) ≠ (o.(Order.book_key), o.(Order.is_bid)) → best s' k b = best s k b;
  ap_best_ok : best_ok s o.(Order.book_key) o.(Order.is_bid) → best_ok s' o.(Order.book_key) o.(Order.is_bid);
  ap_res : ∀ x, resolvable s x → resolvable s' x;
  ap_res_new : resolvable s' o.(Order.order_id)
}.

(** An order as it is committed: unlinked, live and unfilled. *)
Record fresh (o : Order.t) : Prop := Fresh {
  fr_id : 0 < o.(Order.order_id);
  fr_maker : o.(Order.maker) ≠ 0;
  fr_pos : 0 < o.(Order.remaining);
  fr_amount : o.(Order.remaining) ≤ o.(Order.amount);
  fr_prev : o.(Order.prev) = 0;
  fr_next : o.(Order.next) = 0
}.

Lemma queue_append s s' c l o1 :
  let id := o1.(Order.order_id) in
  queue s c l → id ∉ l → 0 < id → okey o1 = c → o1.(Order.maker) ≠ 0 →
  0 < o1.(Order.remaining) → o1.(Order.remaining) ≤ o1.(Order.amount) →
  o1.(Order.prev) = default 0 (last l) → o1.(Order.next) = 0 →
  (∀ x, ord s' x = if decide (id = x) then o1
                   else if decide (last l = Some x) then Order.set_next (λ _, id) (ord s x) else ord s x) →
  (lv s' c).(TickLevel.head) = default id (head l) → (lv s' c).(TickLevel.tail) = id →
  bt s' c = true → in_tick_range (ct c) = true → initialized s' (ck c) →
  queue s' c (l ++ [id]).
Proof.
  intros id Hq Hni Hpos Hk Hm Hr Ha Hp Hn Hord Hh Ht Hb Hrg Hini.
  split; try (by intros; auto).
  - apply seg_app. cbn. split.
    + apply (seg_set_next s s' c 0 l 0 id); [|by apply (q_nodup _ _ _ Hq)|by apply (q_seg _ _ _ Hq)].
      intros x Hx. rewrite Hord. rewrite decide_False; [done|]. by intros ->.
    + assert (ord s' id = o1) as E by (rewrite Hord; by rewrite decide_True).
      split_and!; rewrite ?E; try done. by split; rewrite E.
  - apply NoDup_app. split_and!; [by apply (q_nodup _ _ _ Hq)| |apply NoDup_singleton].
    intros x Hx ->%list_elem_of_singleton. done.
  - intros x [Hx| ->%list_elem_of_singleton]%elem_of_app; [by apply (q_pos _ _ _ Hq)|done].
  - rewrite Hh. by destruct l.
  - by rewrite Ht, last_snoc.
  - split; [|done]. by destruct l.
Qed.

Lemma appended_intro sp s s1 l o bid lvl' :
  queue s (okey o) l → fresh o → o.(Order.order_id) ∉ l → initialized s o.(Order.book_key) →
  linked s s1 (okey o) l o.(Order.order_id) →
  id_of_book s.(Dex.book_keys) o.(Order.book_key) bid →
  lvl'.(TickLevel.head) = default o.(Order.order_id) (head l) →
  lvl'.(TickLevel.tail) = o.(Order.order_id) →
  (is_t12 sp = false → lvl'.(TickLevel.total_liquidity) =
     (lv s (okey o)).(TickLevel.total_liquidity) + o.(Order.remaining)) →
  let o1 := match last l with Some p => Order.set_prev (λ _, p) o | None => o end in
  appended sp s (put o.(Order.order_id) (Orders.record_for sp o1 bid)
                   (put_level o.(Order.book_key) o.(Order.is_bid) o.(Order.tick) lvl' s1)) l o.
Proof.
  intros Hq Hf Hid Hini HL Hb Hh Ht Htot o1.
  set (id := Order.order_id o) in *.
  assert (okey o1 = okey o ∧ Order.order_id o1 = id ∧ payload o1 = o ∧ Order.prev o1 = default 0 (last l)
          ∧ Order.next o1 = 0) as (Ek & Eid & Ep & Epr & Enx).
  { subst o1. destruct (last l); cbn; rewrite ?(fr_prev _ Hf), ?(fr_next _ Hf); split_and!; try done.
    all: unfold payload; destruct o, Hf; cbn in *; by subst. }
  assert (id_of_book (Dex.book_keys s1) (Order.book_key o1) bid) as Hb1.
  { rewrite (fx_keys _ _ (ln_fixed _ _ _ _ _ HL)). by injection Ek as -> _ _. }
  assert (decode (Dex.book_keys s1) id (Orders.record_for sp o1 bid) = o1) as Hdec.
  { rewrite <- Eid. by apply decode_record_for. }
  set (s' := put id _ _).
  assert (∀ x, ord s' x = if decide (id = x) then o1 else ord s1 x) as Hord.
  { intros x. subst s'. views. case_decide; [|done]. exact Hdec. }
  assert (∀ x, ord s' x = if decide (id = x) then o1 else if decide (last l = Some x)
                 then Order.set_next (λ _, id) (ord s x) else ord s x) as Hord'.
  { intros x. rewrite Hord. case_decide; [done|]. apply (ln_ord _ _ _ _ _ HL). }
  assert (∀ c, lv s' c = if decide (okey o = c) then lvl' else lv s c) as Hlv.
  { intros c. subst s'. views. rewrite (ln_lv _ _ _ _ _ HL).
    destruct (decide (okey o = c)) as [E|E]; [by rewrite decide_True by exact E|].
    by rewrite decide_False by exact E. }
  assert (∀ c, bt s' c = bt s1 c) as Hbt by (intros c; subst s'; by views).
  assert (fixed s s') as Hfix.
  { transitivity s1; [apply (ln_fixed _ _ _ _ _ HL)|]. subst s'. by_fixed. }
  split; try done.
  - apply (ln_balances _ _ _ _ _ HL).
  - fold id. rewrite <- Eid. apply (queue_append s); rewrite ?Eid; try done; try apply Hf.
    + subst o1. by destruct (last l); apply Hf.
    + subst o1. by destruct (last l); apply Hf.
    + subst o1. by destruct (last l); apply Hf.
    + rewrite Hlv. by rewrite decide_True.
    + rewrite Hlv. by rewrite decide_True.
    + rewrite Hbt, (ln_bt _ _ _ _ _ HL). by rewrite decide_True.
    + apply (ln_range _ _ _ _ _ HL).
    + unfold initialized. by rewrite (fx_pair _ _ Hfix).
  - rewrite Hord. by rewrite decide_True.
  - intros x Hne Hnl. rewrite Hord'. rewrite !decide_False; [done| |done].
    intros Hx%last_Some_elem_of. done.
  - intros x Hne. rewrite Hord'. rewrite decide_False by done. by case_decide.
  - intros c Hc. rewrite Hlv. by rewrite decide_False.
  - intros c Hc. rewrite Hbt, (ln_bt _ _ _ _ _ HL). by rewrite decide_False.
  - intros H12. rewrite Hlv. rewrite decide_True by done. auto.
  - intros k b Hne. subst s'. views. by apply (ln_best _ _ _ _ _ HL).
  - intros Hok. apply (best_ok_ext s1); [subst s'; by views|done|]. by apply (ln_best_ok _ _ _ _ _ HL).
  - intros x Hx. subst s'. rewrite resolvable_put. case_decide.
    + by apply (resolvable_record_for s1).
    + by apply (ln_res _ _ _ _ _ HL).
  - subst s'. rewrite resolvable_put. rewrite decide_True by done. by apply (resolvable_record_for s1).
Qed.

Lemma commit_appended e w o charge u w' l :
  commit_order_to_book o charge e w = (Ok u, w') →
  queue (dx w) (okey o) l → fresh o → o.(Order.order_id) ∉ l →
  initialized (dx w) o.(Order.book_key) →
  id_of_book (dx w).(Dex.book_keys) o.(Order.book_key) (pair (dx w) o.(Order.book_key)).2 →
  appended (spec e) (dx w) (dx w') l o.
Proof.
  intros H Hq Hf Hid Hini Hb. unfold commit_order_to_book in H.
  m_step H. effect_in Hrun. destruct Hrun as [-> ->]. m_step H. effect_in Hrun. destruct Hrun as [-> ->].
  m_step H. apply (link_spec e w _ o _ w0 l) in Hrun as [HL ->]; try done.
  2-3: unfold read_level; by destruct (is_t12 _).
  cbv beta zeta iota in H. remember (match last l with Some p => _ | None => o end) as o1 eqn:Eo1.
  assert (Order.tick o1 = Order.tick o ∧ Order.is_bid o1 = Order.is_bid o ∧
          Order.remaining o1 = Order.remaining o ∧ Order.order_id o1 = Order.order_id o) as (E1 & E2 & E3 & E4).
  { rewrite Eo1. by destruct (last l). }
  rewrite E1, E2, E3 in H. clear E1 E2 E3.
  m_step H. m_step Hrun. simplify_eq. m_step H.
  match type of Hrun with _ ?w1 = (Ok ?lev, ?w2) =>
    assert (w2 = w1 ∧ lev.(TickLevel.head) = default o.(Order.order_id) (head l) ∧
            lev.(TickLevel.tail) = o.(Order.order_id) ∧
            (is_t12 (spec e) = false → lev.(TickLevel.total_liquidity) =
              (lv (dx w) (okey o)).(TickLevel.total_liquidity) + o.(Order.remaining))) as (-> & Hh & Ht & Htot)
  end.
  { unfold read_level in Hrun. clear H. m_inv; split_and!; try done; intros E; rewrite E in *; [|done].
    checked_simpl. by subst. }
  m_step H. effect_in Hrun0.
  assert (dx w' = put (Order.order_id o) (Orders.record_for (spec e)
            (match last l with Some p => Order.set_prev (λ _, p) o | None => o end)
            (pair (dx w) (Order.book_key o)).2) (dx w1)) as ->.
  { rewrite <- E4. clear Hrun Hrun0. dx_inv; by repeat match goal with H : dx _ = _ |- _ => rewrite H; clear H end. }
  rewrite Hrun0. apply appended_intro; try done.
  all: unfold stored_level; by destruct (is_t12 (spec e)).
Qed.

End DexCommit.
