(* ===== verification/DexInv.v ===== *)
(** * The order books stay well formed

    [book_wf] is the representation invariant of the exchange: every tick of every
    book is a queue, every live order rests in the queue its fields say, and the
    best ticks are the best ticks with orders. This file shows that committing,
    filling, flipping and cancelling orders keep it, and which queues they change. *)

From stdpp Require Import functions.
From S2P Require Import Prelude Packing Hardfork Address Errors DexState State Monad.
From S2P Require Import StorageCredits DexOrder DexBook DexMath DexBitmap Tip20Base Tip403 Tip20Core.
From S2P Require Import Tip20 Dex DexView DexQueue.

Module DexInv.
Import Book DexOps DexBitmap DexView DexQueue DexCommit.

Abbreviation queues := (crd → list N).
Definition next_id (s : Dex.State) : N := N.max s.(Dex.next_order_id) 1.

Record book_wf (s : Dex.State) (Q : queues) : Prop := BookWf {
  wf_queue : ∀ c, queue s c (Q c);
  wf_live : ∀ id, (ord s id).(Order.maker) ≠ 0 → id ∈ Q (okey (ord s id));
  wf_ids : ∀ c id, id ∈ Q c → id < next_id s;
  wf_best : ∀ k b, initialized s k → best_ok s k b;
  wf_books : ∀ k, id_of_book s.(Dex.book_keys) k (pair s k).2;
  wf_res : ∀ id, (ord s id).(Order.maker) ≠ 0 → resolvable s id
}.

(** The same with the first order [id] of the queue at [c] taken out, but the level
    and the rest [l] of the queue still pointing to it. *)
Record book_wf_but (s : Dex.State) (Q : queues) (c : crd) (id : N) (l : list N) : Prop := BookWfBut {
  wb_queue : ∀ c', c' ≠ c → queue s c' (Q c');
  wb_list : Q c = l;
  wb_seg : seg s c id l 0;
  wb_nodup : NoDup (id :: l);
  wb_pos : ∀ x, x ∈ id :: l → 0 < x;
  wb_tail : (lv s c).(TickLevel.tail) = default id (last l);
  wb_dom : in_tick_range (ct c) = true ∧ initialized s (ck c);
  wb_bit : bt s c = true;
  wb_live : ∀ x, (ord s x).(Order.maker) ≠ 0 → x ∈ Q (okey (ord s x));
  wb_ids : ∀ c' x, x ∈ Q c' → x < next_id s;
  wb_best : ∀ k b, initialized s k → best_ok s k b;
  wb_books : ∀ k, id_of_book s.(Dex.book_keys) k (pair s k).2;
  wb_res : ∀ x, (ord s x).(Order.maker) ≠ 0 → resolvable s x
}.

(** Payloads decide whether an order is live and where it rests. *)
Lemma payload_fields o o' :
  payload o = payload o' → okey o = okey o' ∧ o.(Order.maker) = o'.(Order.maker) ∧
  o.(Order.remaining) = o'.(Order.remaining) ∧ o.(Order.amount) = o'.(Order.amount) ∧
  o.(Order.order_id) = o'.(Order.order_id).
Proof. destruct o, o'; unfold payload, okey; cbn; intros [=]. naive_solver. Qed.

(** ** Appending *)

Lemma fixed_initialized s s' k : fixed s s' → initialized s' k ↔ initialized s k.
Proof. intros [_ _ E]. unfold initialized. by rewrite E. Qed.

(** The other queues of an append. *)
Lemma appended_queue sp s s' l o c l' :
  appended sp s s' l o → c ≠ okey o → o.(Order.order_id) ∉ l' →
  (∀ x, x ∈ l' → x ∉ l) → queue s c l' → queue s' c l'.
Proof.
  intros HA Hc Hid Hl. apply queue_ext.
  - intros x Hx. apply (ap_old _ _ _ _ _ HA); [by intros ->|by apply Hl].
  - by apply (ap_lv _ _ _ _ _ HA).
  - by apply (ap_bt _ _ _ _ _ HA).
  - apply (fx_pair _ _ (ap_fixed _ _ _ _ _ HA)).
Qed.
Lemma appended_live sp s s' l o (Q : queues) x :
  appended sp s s' l o → Q (okey o) = l →
  (∀ x, x ≠ o.(Order.order_id) → (ord s x).(Order.maker) ≠ 0 → x ∈ Q (okey (ord s x))) →
  (ord s' x).(Order.maker) ≠ 0 →
  x ∈ (<[okey o := l ++ [o.(Order.order_id)]]> Q) (okey (ord s' x)).
Proof.
  intros HA HQ Hl Hm. destruct (decide (x = o.(Order.order_id))) as [->|Hne].
  - pose proof (f_equal okey (ap_new _ _ _ _ _ HA)) as E.
    replace (okey (ord s' (Order.order_id o))) with (okey o) by (by rewrite <- E).
    rewrite fn_lookup_insert. set_solver.
  - destruct (payload_fields _ _ (ap_payload _ _ _ _ _ HA x Hne)) as (Ek & Em & _).
    rewrite Ek. rewrite Em in Hm. specialize (Hl x Hne Hm).
    destruct (decide (okey o = okey (ord s x))) as [E|E].
    + rewrite <- E, fn_lookup_insert. rewrite <- E, HQ in Hl. set_solver.
    + by rewrite fn_lookup_insert_ne.
Qed.

Lemma appended_best sp s s' l o :
  appended sp s s' l o → (∀ k b, initialized s k → best_ok s k b) →
  ∀ k b, initialized s' k → best_ok s' k b.
Proof.
  intros HA Hb k b Hk. apply (fixed_initialized s s' k (ap_fixed _ _ _ _ _ HA)) in Hk.
  destruct (decide ((k, b) = (o.(Order.book_key), o.(Order.is_bid)))) as [[= -> ->]|Hne].
  - by apply (ap_best_ok _ _ _ _ _ HA), Hb.
  - apply (best_ok_ext s); [by apply (ap_best _ _ _ _ _ HA)| |by apply Hb].
    intros t. apply (ap_bt _ _ _ _ _ HA). unfold okey. congruence.
Qed.

Lemma wf_disjoint s Q c c' x : book_wf s Q → c ≠ c' → x ∈ Q c → x ∉ Q c'.
Proof. intros HW Hne Hx Hx'. apply Hne. by eapply (queue_disjoint s); [apply HW|apply HW|..]. Qed.

Lemma next_id_fixed s s' : fixed s s' → next_id s' = next_id s.
Proof. intros [_ E _]. unfold next_id. by rewrite E. Qed.
Lemma books_fixed s s' :
  fixed s s' → (∀ k, id_of_book s.(Dex.book_keys) k (pair s k).2) →
  ∀ k, id_of_book s'.(Dex.book_keys) k (pair s' k).2.
Proof. intros [E _ Ep] H k. by rewrite E, Ep. Qed.
Lemma appended_ids sp s s' o (Q : queues) :
  appended sp s s' (Q (okey o)) o → (∀ c x, x ∈ Q c → x < next_id s) →
  o.(Order.order_id) < next_id s →
  ∀ c x, x ∈ (<[okey o := Q (okey o) ++ [o.(Order.order_id)]]> Q) c → x < next_id s'.
Proof.
  intros HA HQ Hid c x. rewrite (next_id_fixed s s') by apply (ap_fixed _ _ _ _ _ HA).
  destruct (decide (okey o = c)) as [<-|Hc].
  - rewrite fn_lookup_insert. intros [Hx| ->%list_elem_of_singleton]%elem_of_app; [by eapply HQ|done].
  - rewrite fn_lookup_insert_ne by done. apply HQ.
Qed.
Lemma appended_res sp s s' l o x :
  appended sp s s' l o →
  (x ≠ o.(Order.order_id) → (ord s x).(Order.maker) ≠ 0 → resolvable s x) →
  (ord s' x).(Order.maker) ≠ 0 → resolvable s' x.
Proof.
  intros HA Hr Hm. destruct (decide (x = o.(Order.order_id))) as [->|Hne].
  - apply (ap_res_new _ _ _ _ _ HA).
  - apply (ap_res _ _ _ _ _ HA), Hr; [done|].
    by destruct (payload_fields _ _ (ap_payload _ _ _ _ _ HA x Hne)) as (_ & <- & _).
Qed.

Lemma wf_append sp s s' o (Q : queues) :
  book_wf s Q → appended sp s s' (Q (okey o)) o →
  o.(Order.order_id) < next_id s → (∀ c, o.(Order.order_id) ∉ Q c) →
  book_wf s' (<[okey o := Q (okey o) ++ [o.(Order.order_id)]]> Q).
Proof.
  intros HW HA Hid Hni. pose proof (ap_fixed _ _ _ _ _ HA) as HF. split.
  - intros c. destruct (decide (okey o = c)) as [<-|Hc].
    + rewrite fn_lookup_insert. apply (ap_queue _ _ _ _ _ HA).
    + rewrite fn_lookup_insert_ne by done.
      apply (appended_queue _ _ _ _ _ c (Q c) HA); [done|done| |by apply HW].
      intros x. by apply (wf_disjoint s Q).
  - intros x. apply (appended_live sp s s'); [done|done|]. intros. by apply HW.
  - eapply appended_ids; [done|by apply HW|done].
  - by apply (appended_best sp s s' _ o HA), HW.
  - apply (books_fixed s); [done|apply HW].
  - intros x. apply (appended_res sp s s' _ o x HA). intros. by apply HW.
Qed.

(** ** Taking out the first order *)

(** Deleting its record. *)
Lemma wf_delete_head s Q c id l :
  book_wf s Q → Q c = id :: l →
  book_wf_but (put id dflt s) (<[c := l]> Q) c id l.
Proof.
  intros HW HQ. pose proof (wf_queue _ _ HW c) as Hq. rewrite HQ in Hq.
  assert (∀ x, ord (put id dflt s) x = if decide (id = x) then dflt else ord s x) as Ho.
  { intros x. by views. }
  pose proof (q_nodup _ _ _ Hq) as [Hni Hnd]%NoDup_cons.
  pose proof (q_seg _ _ _ Hq) as (_ & _ & _ & Hseg).
  split; rewrite ?fn_lookup_insert; try done.
  - intros c' Hc. rewrite fn_lookup_insert_ne by done. apply (queue_ext s); [|by views..|by apply HW].
    intros x Hx. rewrite Ho. rewrite decide_False; [done|]. intros ->.
    apply (wf_disjoint s Q c c' x HW); [done| |done]. rewrite HQ. by left.
  - apply (seg_ext s); [|done]. intros x Hx. rewrite Ho. rewrite decide_False; [done|]. by intros ->.
  - by apply (q_nodup _ _ _ Hq).
  - apply (q_pos _ _ _ Hq).
  - views. rewrite (q_tail _ _ _ Hq). rewrite last_cons. by destruct (last l).
  - by apply (q_dom _ _ _ Hq).
  - views. by apply (q_bit _ _ _ Hq).
  - intros x. rewrite Ho. case_decide as E; [done|]. intros Hm. pose proof (wf_live _ _ HW x Hm) as Hx.
    destruct (decide (c = okey (ord s x))) as [Ec|]; [|by rewrite fn_lookup_insert_ne].
    rewrite <- Ec, fn_lookup_insert. rewrite <- Ec, HQ in Hx. set_solver.
  - intros c' x. destruct (decide (c = c')) as [<-|]; [rewrite fn_lookup_insert|rewrite fn_lookup_insert_ne by done].
    + intros Hx. apply (wf_ids _ _ HW c x). rewrite HQ. by right.
    + apply HW.
  - intros k b Hk. apply (best_ok_ext s); [by views|intros; by views|by apply HW].
  - apply HW.
  - intros x. rewrite Ho. case_decide as E; [done|]. intros Hm. rewrite resolvable_put.
    rewrite decide_False by done. by apply HW.
Qed.

(** Moving it to another queue, its record rewritten. *)
Lemma wf_flip_head sp s s' Q c id l o :
  book_wf s Q → Q c = id :: l → okey o ≠ c → o.(Order.order_id) = id →
  appended sp s s' (Q (okey o)) o →
  book_wf_but s' (<[okey o := Q (okey o) ++ [id]]> (<[c := l]> Q)) c id l.
Proof.
  intros HW HQ Hc Hid HA. pose proof (wf_queue _ _ HW c) as Hq. rewrite HQ in Hq.
  pose proof (ap_fixed _ _ _ _ _ HA) as HF.
  pose proof (q_nodup _ _ _ Hq) as [Hni Hnd]%NoDup_cons.
  pose proof (q_seg _ _ _ Hq) as (_ & _ & _ & Hseg).
  assert (∀ x, x ∈ l → ord s' x = ord s x) as Hl.
  { intros x Hx. apply (ap_old _ _ _ _ _ HA); [by intros ->; rewrite Hid in Hx|].
    apply (wf_disjoint s Q c); [done|done|]. rewrite HQ. by right. }
  assert (∀ c' x, x ∈ (<[c := l]> Q) c' → x ∈ Q c') as Hsub.
  { intros c' x. destruct (decide (c = c')) as [<-|]; [|by rewrite fn_lookup_insert_ne].
    rewrite fn_lookup_insert, HQ. by right. }
  assert ((<[c := l]> Q) (okey o) = Q (okey o)) as HQo by by rewrite fn_lookup_insert_ne.
  rewrite <- HQo, <- Hid. rewrite <- HQo in HA.
  split.
  - intros c' Hc'. destruct (decide (okey o = c')) as [<-|Hc''].
    + rewrite fn_lookup_insert. apply (ap_queue _ _ _ _ _ HA).
    + rewrite !fn_lookup_insert_ne by done.
      apply (appended_queue _ _ _ _ _ c' (Q c') HA); [done| | |by apply HW].
      * rewrite Hid. apply (wf_disjoint s Q c); [done|done|]. rewrite HQ. by left.
      * intros x Hx ?%Hsub. by apply (wf_disjoint s Q c' (okey o) x HW).
  - rewrite fn_lookup_insert_ne by done. apply fn_lookup_insert.
  - rewrite Hid. by apply (seg_ext s).
  - rewrite Hid. by apply (q_nodup _ _ _ Hq).
  - rewrite Hid. apply (q_pos _ _ _ Hq).
  - rewrite (ap_lv _ _ _ _ _ HA), (q_tail _ _ _ Hq), last_cons, Hid by done. by destruct (last l).
  - rewrite (fixed_initialized s s') by done. by apply (q_dom _ _ _ Hq).
  - rewrite (ap_bt _ _ _ _ _ HA) by done. by apply (q_bit _ _ _ Hq).
  - intros x. apply (appended_live sp s s'); [done|done|]. intros y Hy Hm.
    pose proof (wf_live _ _ HW y Hm) as Hx.
    destruct (decide (c = okey (ord s y))) as [Ec|]; [|by rewrite fn_lookup_insert_ne].
    rewrite <- Ec, fn_lookup_insert. rewrite <- Ec, HQ, <- Hid in Hx. set_solver.
  - apply (appended_ids sp s); [done| |].
    + intros c' x Hx%Hsub. by apply (wf_ids _ _ HW c').
    + rewrite Hid. apply (wf_ids _ _ HW c). rewrite HQ. by left.
  - by apply (appended_best sp s s' _ o HA), HW.
  - apply (books_fixed s); [done|apply HW].
  - intros x. apply (appended_res sp s s' _ o x HA). intros. by apply HW.
Qed.

(** ** Moving the best tick *)

(** The tick search of the side, in one form. *)
Definition next_tick (s : Dex.State) (c : crd) : Z * bool :=
  if cb c then next_initialized_bid_tick (bitmap true (book s (ck c))) (ct c)
  else next_initialized_ask_tick (bitmap false (book s (ck c))) (ct c).
Definition best_after (s : Dex.State) (c : crd) : Z :=
  if (next_tick s c).2 then (next_tick s c).1 else no_tick (cb c).

Lemma next_tick_spec s k b t :
  (∀ t', bt s (k, b, t') = true → in_tick_range t' = true ∧ t' ≠ t ∧ as_good b t t') →
  if (next_tick s (k, b, t)).2
  then bt s (k, b, (next_tick s (k, b, t)).1) = true ∧
       ∀ t', bt s (k, b, t') = true → as_good b (next_tick s (k, b, t)).1 t'
  else ∀ t', bt s (k, b, t') = false.
Proof.
  intros Hall. unfold next_tick, as_good in *. cbn [fst snd].
  assert (∀ t', bt s (k, b, t') = tick_set (bitmap b (book s k)) t') as Hbt by done.
  destruct b.
  - pose proof (next_bid_spec (bitmap true (book s k)) t) as Hs. cbv zeta in Hs.
    destruct (next_initialized_bid_tick _ _) as [r [|]]; cbn [fst snd] in *.
    + destruct Hs as (Hr & Hset & Hcl). split; [done|]. intros t' Ht. destruct (Hall _ Ht) as (_ & ? & ?).
      destruct (Z.le_gt_cases t' r); [done|]. rewrite Hbt, Hcl in Ht; [done|lia].
    + intros t'. apply not_true_is_false. intros Ht. destruct (Hall _ Ht) as (Hg & ? & ?).
      unfold in_tick_range in Hg. rewrite Hbt, Hs in Ht; [done|lia].
  - pose proof (next_ask_spec (bitmap false (book s k)) t) as Hs. cbv zeta in Hs.
    destruct (next_initialized_ask_tick _ _) as [r [|]]; cbn [fst snd] in *.
    + destruct Hs as (Hr & Hset & Hcl). split; [done|]. intros t' Ht. destruct (Hall _ Ht) as (_ & ? & ?).
      destruct (Z.le_gt_cases r t'); [done|]. rewrite Hbt, Hcl in Ht; [done|lia].
    + intros t'. apply not_true_is_false. intros Ht. destruct (Hall _ Ht) as (Hg & ? & ?).
      unfold in_tick_range in Hg. rewrite Hbt, Hs in Ht; [done|lia].
Qed.

(** The bit of [t] is cleared and the best tick moved on if it was [t]. *)
Lemma best_ok_clear s s1 s' k b t :
  best_ok s k b → bt s (k, b, t) = true →
  (∀ t', bt s (k, b, t') = true → in_tick_range t' = true) →
  (∀ t', bt s1 (k, b, t') = if decide (t' = t) then false else bt s (k, b, t')) →
  (∀ t', bt s' (k, b, t') = bt s1 (k, b, t')) →
  best s' k b = (if decide (best s k b = t) then best_after s1 (k, b, t) else best s k b) →
  best_ok s' k b.
Proof.
  intros Hok Ht Hrg Hbt Hbt' Hb. unfold best_ok in Hok.
  destruct (decide (best s k b = no_tick b)) as [Hn|Hn]; [by rewrite Hok in Ht|].
  destruct Hok as [Hset Hbest].
  assert (∀ t', bt s1 (k, b, t') = true → t' ≠ t ∧ bt s (k, b, t') = true) as Hs1.
  { intros t' H'. rewrite Hbt in H'. by case_decide. }
  unfold best_ok. rewrite Hb. clear Hb. destruct (decide (best s k b = t)) as [Heq|Heq].
  - unfold best_after. cbn [fst snd].
    pose proof (next_tick_spec s1 k b t) as Hnt. destruct (next_tick s1 (k, b, t)) as [r [|]]; cbn [fst snd] in *.
    + destruct Hnt as [Hr Hg].
      { intros t' [? H']%Hs1. split; [by apply Hrg|]. split; [done|]. rewrite <- Heq. by apply Hbest. }
      assert (r ≠ no_tick b) as Hrn.
      { apply Hs1 in Hr as [_ Hr%Hrg%in_range_bounds]. unfold no_tick. destruct b; lia. }
      rewrite decide_False by done. split; [by rewrite Hbt'|]. intros t'. rewrite Hbt'. apply Hg.
    + rewrite decide_True by done. intros t'. rewrite Hbt'. apply Hnt.
      intros t'' [? H']%Hs1. split; [by apply Hrg|]. split; [done|]. rewrite <- Heq. by apply Hbest.
  - rewrite decide_False by done. split.
    + rewrite Hbt', Hbt. by rewrite decide_False.
    + intros t' H'. rewrite Hbt' in H'. apply Hs1 in H' as [_ H']. by apply Hbest.
Qed.

(** ** Closing the gap *)

(** What a relinking step may change of the exchange: records only in their links,
    levels and bits only at [c], the best tick only on the side of [c]. *)
Record only_at (s s' : Dex.State) (c : crd) : Prop := OnlyAt {
  oa_fixed : fixed s s';
  oa_lv : ∀ c', c' ≠ c → lv s' c' = lv s c';
  oa_bt : ∀ c', c' ≠ c → bt s' c' = bt s c';
  oa_best : ∀ k b, (k, b) ≠ (ck c, cb c) → best s' k b = best s k b;
  oa_best_ok : initialized s (ck c) → best_ok s' (ck c) (cb c);
  oa_res : ∀ x, (ord s' x).(Order.maker) ≠ 0 → resolvable s x → resolvable s' x
}.

Lemma only_at_best s s' c :
  only_at s s' c → (∀ k b, initialized s k → best_ok s k b) → ∀ k b, initialized s' k → best_ok s' k b.
Proof.
  intros HO Hb k b Hk. rewrite (fixed_initialized s s' k (oa_fixed _ _ _ HO)) in Hk.
  destruct (decide ((k, b) = (ck c, cb c))) as [[= -> ->]|Hne]; [by apply (oa_best_ok _ _ _ HO)|].
  apply (best_ok_ext s); [by apply (oa_best _ _ _ HO)| |by apply Hb].
  intros t. apply (oa_bt _ _ _ HO). by intros <-.
Qed.

Lemma wf_close s s' Q c id l :
  book_wf_but s Q c id l → only_at s s' c →
  (∀ x, ord s' x = if decide (head l = Some x) then Order.set_prev (λ _, 0) (ord s x) else ord s x) →
  (lv s' c).(TickLevel.head) = default 0 (head l) → (lv s' c).(TickLevel.tail) = default 0 (last l) →
  (bt s' c = true ↔ l ≠ []) → book_wf s' Q.
Proof.
  intros HB HO Ho Hh Ht Hbit. pose proof (oa_fixed _ _ _ HO) as HF.
  assert (∀ x, okey (ord s' x) = okey (ord s x) ∧ (ord s' x).(Order.maker) = (ord s x).(Order.maker)) as Hkm.
  { intros x. rewrite Ho. by case_decide. }
  split.
  - intros c'. destruct (decide (c' = c)) as [->|Hc].
    + rewrite (wb_list _ _ _ _ _ HB). destruct (proj1 (NoDup_cons _ _) (wb_nodup _ _ _ _ _ HB)) as [_ Hnd]. split; try done.
      * apply (seg_set_prev s s' c id 0 l 0); [|done|apply HB]. intros x _. apply Ho.
      * intros x Hx. apply (wb_pos _ _ _ _ _ HB). by right.
      * intros _. rewrite (fixed_initialized s s') by done. apply (wb_dom _ _ _ _ _ HB).
    + apply (queue_ext s); [|by apply HO..|apply HF|by apply HB].
      intros x Hx. rewrite Ho. rewrite decide_False; [done|]. intros Hx'.
      apply Hc. rewrite <- (queue_key s c' (Q c') x) by (done || by apply HB).
      apply (rs_key s c x). apply (seg_resting s c id l 0 x); [apply HB|].
      destruct l; [done|]. injection Hx' as ->. by left.
  - intros x. destruct (Hkm x) as [-> ->]. apply HB.
  - intros c' x. rewrite (next_id_fixed s s' HF). apply HB.
  - apply (only_at_best s s' c HO), HB.
  - apply (books_fixed s s' HF), HB.
  - intros x Hm. apply (oa_res _ _ _ HO); [done|]. destruct (Hkm x) as [_ E]. rewrite E in Hm. by apply HB.
Qed.

(** The next order of the tick becomes the first. *)
Lemma wf_advance_order s Q c id y l lvl' :
  book_wf_but s Q c id (y :: l) →
  lvl'.(TickLevel.head) = y → lvl'.(TickLevel.tail) = (lv s c).(TickLevel.tail) →
  book_wf (put_level (ck c) (cb c) (ct c) lvl'
    (put y (Orders.record_set_prev 0 s.(Dex.orders).[y]) s)) Q.
Proof.
  intros HB Hh Ht. destruct c as [[k b] t]. cbn [fst snd]. set (s' := put_level _ _ _ _ _).
  assert (∀ x, ord s' x = if decide (head (y :: l) = Some x) then Order.set_prev (λ _, 0) (ord s x) else ord s x) as Ho.
  { intros x. subst s'. views. destruct (decide (y = x)) as [->|].
    - rewrite decide_True by done. by rewrite decode_set_prev.
    - rewrite decide_False by (cbn; congruence). done. }
  apply (wf_close s s' Q (k, b, t) id (y :: l)); try done.
  - split; try done; cbn [fst snd].
    + by subst s'; by_fixed.
    + intros c' Hc. subst s'. views. by rewrite decide_False by congruence.
    + intros c' Hc. subst s'. by views.
    + intros k' b' Hne. subst s'. by views.
    + intros Hk. apply (best_ok_ext s); [subst s'; by views|intros; subst s'; by views|]. by apply HB.
    + intros x _ Hr. subst s'. unfold resolvable, put_level, on_book, put, Dex.set_books, Dex.set_orders. cbn.
      rewrite sread_insert. case_decide as E; [|done]. unfold resolvable in Hr. rewrite <- E in Hr.
      by destruct (Dex.orders s).[y].
  - subst s'. views. by rewrite decide_True.
  - subst s'. views. rewrite decide_True by done. rewrite Ht, (wb_tail _ _ _ _ _ HB), last_cons.
    by destruct (last l).
  - subst s'. views. rewrite (wb_bit _ _ _ _ _ HB). naive_solver.
Qed.

(** The tick is exhausted; it was the best one. *)
Lemma wf_advance_tick s Q c id lvl' :
  book_wf_but s Q c id [] → best s (ck c) (cb c) = ct c →
  lvl'.(TickLevel.head) = 0 → lvl'.(TickLevel.tail) = 0 →
  let s1 := bits_at (ck c) (cb c) (ct c) false (put_level (ck c) (cb c) (ct c) lvl' s) in
  book_wf (best_at (ck c) (cb c) (best_after s1 c) s1) Q.
Proof.
  intros HB Hbest Hh Ht s1. destruct c as [[k b] t]. cbn [fst snd] in *. set (s' := best_at _ _ _ _).
  assert (∀ c', bt s1 c' = if decide (c' = (k, b, t)) then false else bt s c') as Hbt.
  { intros c'. subst s1. views. destruct (decide (c' = (k, b, t))) as [->|]; [by rewrite decide_True|].
    by rewrite decide_False by congruence. }
  assert (∀ c', bt s' c' = bt s1 c') as Hbt' by (intros c'; subst s'; by views).
  assert (∀ c', lv s' c' = if decide (c' = (k, b, t)) then lvl' else lv s c') as Hlv.
  { intros c'. subst s' s1. views. destruct (decide (c' = (k, b, t))) as [->|]; [by rewrite decide_True|].
    by rewrite decide_False by congruence. }
  apply (wf_close s s' Q (k, b, t) id []); try done.
  - split; try done; cbn [fst snd].
    + subst s' s1. by_fixed.
    + intros c' Hc. rewrite Hlv. by rewrite decide_False.
    + intros c' Hc. rewrite Hbt', Hbt. by rewrite decide_False.
    + intros k' b' Hne. subst s' s1. views. by rewrite decide_False by congruence.
    + intros Hk. apply (best_ok_clear s s1 s' k b t); [by apply HB|apply (wb_bit _ _ _ _ _ HB)| | | |].
      * intros t' Ht'. destruct (decide (t' = t)) as [->|Hne]; [apply (wb_dom _ _ _ _ _ HB)|].
        pose proof (wb_queue _ _ _ _ _ HB (k, b, t') ltac:(congruence)) as Hq.
        by apply (q_dom _ _ _ Hq), (q_bit _ _ _ Hq).
      * intros t'. rewrite Hbt. destruct (decide (t' = t)) as [->|]; [by rewrite decide_True|].
        by rewrite decide_False by congruence.
      * intros t'. apply Hbt'.
      * rewrite decide_True by done. subst s'. views. by rewrite decide_True.
  - rewrite Hlv. by rewrite decide_True.
  - rewrite Hlv. by rewrite decide_True.
  - rewrite Hbt', Hbt. rewrite decide_True by done. naive_solver.
Qed.

(** ** Changing an order in place *)

Record same_place (o o' : Order.t) : Prop := SamePlace {
  sp_id : o'.(Order.order_id) = o.(Order.order_id);
  sp_key : okey o' = okey o;
  sp_maker : o'.(Order.maker) = o.(Order.maker);
  sp_prev : o'.(Order.prev) = o.(Order.prev);
  sp_next : o'.(Order.next) = o.(Order.next);
  sp_pos : 0 < o.(Order.remaining) → 0 < o'.(Order.remaining);
  sp_amount : o.(Order.remaining) ≤ o.(Order.amount) → o'.(Order.remaining) ≤ o'.(Order.amount)
}.
#[export] Instance same_place_refl : Reflexive same_place.
Proof. by intros o. Qed.

Lemma seg_same_place s s' c p l n :
  (∀ x, same_place (ord s x) (ord s' x)) → seg s c p l n → seg s' c p l n.
Proof.
  intros HS. revert p. induction l as [|x l IH]; intros p; [done|]. intros (Hr & Hp & Hn & Hs).
  destruct (HS x). split_and!; [|congruence|congruence|by apply IH].
  destruct Hr. split; rewrite ?sp_id0, ?sp_key0, ?sp_maker0; auto.
Qed.

Lemma wf_same_place s s' Q :
  book_wf s Q → fixed s s' → (∀ x, same_place (ord s x) (ord s' x)) →
  (∀ c, (lv s' c).(TickLevel.head) = (lv s c).(TickLevel.head) ∧
        (lv s' c).(TickLevel.tail) = (lv s c).(TickLevel.tail)) →
  (∀ c, bt s' c = bt s c) → (∀ k b, best s' k b = best s k b) →
  (∀ x, resolvable s x → resolvable s' x) → book_wf s' Q.
Proof.
  intros HW HF HS Hlv Hbt Hb Hres. split.
  - intros c. destruct (wf_queue _ _ HW c). destruct (Hlv c) as [Eh Et].
    split; rewrite ?Eh, ?Et, ?Hbt, ?(fixed_initialized s s') by done; try done. by apply (seg_same_place s).
  - intros x. rewrite (sp_maker _ _ (HS x)), (sp_key _ _ (HS x)). apply HW.
  - intros c x. rewrite (next_id_fixed s s' HF). apply HW.
  - intros k b. rewrite (fixed_initialized s s') by done. intros Hk. apply (best_ok_ext s); [done|done|by apply HW].
  - apply (books_fixed s s' HF), HW.
  - intros x. rewrite (sp_maker _ _ (HS x)). intros Hm. by apply Hres, HW.
Qed.

(** ** The book as one list

    The orders of a side in the order in which swaps take them: by price, then by
    time. *)

Definition ticks (b : bool) : list Z :=
  let up := seqZ MIN_TICK (MAX_TICK - MIN_TICK + 1) in if b then reverse up else up.
Definition book_list (Q : queues) (k : B256) (b : bool) : list N :=
  ticks b ≫= λ t, Q (k, b, t).

(** The ticks behind [t]. *)
Definition ticks_after (b : bool) (t : Z) : list Z :=
  if b then reverse (seqZ MIN_TICK (t - MIN_TICK)) else seqZ (t + 1) (MAX_TICK - t).

Lemma seqZ_split lo n t :
  (lo ≤ t < lo + n)%Z → seqZ lo n = seqZ lo (t - lo) ++ t :: seqZ (t + 1) (lo + n - t - 1).
Proof.
  intros H. replace n with ((t - lo) + (1 + (lo + n - t - 1)))%Z at 1 by lia.
  rewrite seqZ_app by lia. rewrite (seqZ_cons _ (1 + (lo + n - t - 1))) by lia. do 3 f_equal; lia.
Qed.

Lemma ticks_split b t :
  in_tick_range t = true →
  ∃ T1, ticks b = T1 ++ t :: ticks_after b t ∧ (∀ t', t' ∈ T1 → ¬ as_good b t t') ∧ t ∉ T1 ∧
    t ∉ ticks_after b t.
Proof.
  unfold in_tick_range, ticks, ticks_after, as_good. intros Ht. assert (MIN_TICK ≤ t ≤ MAX_TICK)%Z as Hr by lia.
  rewrite (seqZ_split MIN_TICK _ t) by lia.
  replace (MIN_TICK + (MAX_TICK - MIN_TICK + 1) - t - 1)%Z with (MAX_TICK - t)%Z by lia. destruct b.
  - rewrite reverse_app, reverse_cons, <- app_assoc. cbn. eexists. split; [done|].
    split_and!; intros *; rewrite ?elem_of_reverse, ?elem_of_seqZ; lia.
  - eexists. split; [done|]. split_and!; intros *; rewrite ?elem_of_seqZ; lia.
Qed.

Lemma book_list_insert_other Q k b c l :
  (ck c, cb c) ≠ (k, b) → book_list (<[c := l]> Q) k b = book_list Q k b.
Proof.
  intros Hne. unfold book_list. apply list_bind_ext; [|done]. intros t.
  apply fn_lookup_insert_ne. by intros ->.
Qed.

Lemma bind_nil {A B} (f : A → list B) (l : list A) : (∀ x, x ∈ l → f x = []) → (l ≫= f) = [].
Proof.
  induction l as [|x l IH]; intros H; [done|]. cbn. rewrite H by left. apply IH. intros. apply H. by right.
Qed.

Lemma bind_ext_in {A B} (f g : A → list B) (l : list A) :
  (∀ x, x ∈ l → f x = g x) → (l ≫= f) = (l ≫= g).
Proof.
  induction l as [|x l IH]; intros H; [done|]. cbn. rewrite (H x) by left. f_equal. apply IH.
  intros. apply H. by right.
Qed.

(** The list starts with the queue of the best tick. *)
Lemma wf_book_list s Q k b :
  book_wf s Q → initialized s k →
  if decide (best s k b = no_tick b) then book_list Q k b = []
  else Q (k, b, best s k b) ≠ [] ∧ ∃ R, ∀ Q' : queues,
    (∀ t, t ≠ best s k b → Q' (k, b, t) = Q (k, b, t)) →
    book_list Q' k b = Q' (k, b, best s k b) ++ R.
Proof.
  intros HW Hk. pose proof (wf_best _ _ HW k b Hk) as Hb. unfold best_ok in Hb.
  assert (∀ t, Q (k, b, t) = [] ↔ bt s (k, b, t) = false) as Hnil.
  { intros t. pose proof (q_bit _ _ _ (wf_queue _ _ HW (k, b, t))). destruct (bt s (k, b, t)), (Q (k, b, t)); naive_solver. }
  case_decide as Hn.
  - apply bind_nil. intros t _. by apply Hnil.
  - destruct Hb as [Hset Hbest]. set (t := best s k b) in *.
    assert (Q (k, b, t) ≠ []) as Hne by (rewrite Hnil; congruence).
    split; [done|]. destruct (q_dom _ _ _ (wf_queue _ _ HW _) Hne) as [Hr _]. cbn [fst snd] in Hr.
    destruct (ticks_split b t Hr) as (T1 & ET & H1 & Ht1 & Ht2).
    exists (ticks_after b t ≫= λ t', Q (k, b, t')). intros Q' HQ'. unfold book_list. rewrite ET, bind_app. cbn.
    rewrite bind_nil; cbn.
    + f_equal. apply bind_ext_in. intros t' Ht'. apply HQ'. congruence.
    + intros t' Ht'. rewrite HQ' by congruence. apply Hnil.
      apply not_true_is_false. intros Hs. by apply (H1 t'), Hbest.
Qed.

End DexInv.
