(* ===== verification/DexFill.v ===== *)
(** * Filling orders

    What filling the first order of a book does, in full or in part: the book stays
    well formed, loses that order from the front of the side, and hands the walk over
    to the next one; the maker is credited and the escrow of the order released. A
    flip order goes to the end of its queue on the other side, paid for by its maker.
    From T5 on (orders flip in place). *)

From stdpp Require Import functions.
From S2P Require Import Prelude Packing Hardfork Address Errors DexState State Monad.
From S2P Require Import StorageCredits DexOrder DexBook DexMath DexBitmap AddressRegistry Tip20Base.
From S2P Require Import Keychain KeychainSpec Tip403 Tip20Core Guard Tip20 Dex Tip20Frame DexFrame.
From S2P Require Import DexView DexQueue DexInv.

Import(hints) KeychainSpec.

Module DexFill.
Import Book DexOps DexMath DexBitmap DexView DexQueue DexCommit DexInv.

(** ** Operations that only read *)

Lemma reads_only {A} (m : M A) : (∀ e, Stable e eq m) → Effect m (λ _ w _ w', w' = w).
Proof. intros Hm e w a w' H. symmetry. apply (Hm e w (Ok a) w' H). Qed.
Ltac by_reading := apply reads_only; intros e; stable_auto.

#[export] Instance from_address_dx t : Effect (from_address t) (λ _ w _ w', w' = w).
Proof. by_reading. Qed.
#[export] Instance quote_token_dx t : Effect (Token.quote_token t) (λ _ w _ w', w' = w).
Proof. by_reading. Qed.
#[export] Instance check_not_paused_dx t : Effect (Token.check_not_paused t) (λ _ w _ w', w' = w).
Proof. by_reading. Qed.
#[export] Instance ensure_authorized_dx t a b :
  Effect (Token.ensure_transfer_authorized t a b) (λ _ w _ w', w' = w).
Proof. by_reading. Qed.
#[export] Instance check_non_escrow_dx t a : Effect (check_non_escrow t a) (λ _ w _ w', w' = w).
Proof. unfold check_non_escrow. by_reading. Qed.
#[export] Instance validate_usd_dx t :
  Effect (TokenOps.validate_usd_currency t) (λ _ w _ w', w' = w).
Proof. by_reading. Qed.
#[export] Instance is_tip20_dx t : Effect (is_tip20 t) (λ _ w _ w', w' = w).
Proof. by_reading. Qed.
#[export] Instance trade_path_dx a b : Effect (find_trade_path a b) (λ _ w _ w', w' = w).
Proof. by_reading. Qed.
#[export] Instance maker_authorized_dx o : Effect (is_maker_authorized o) (λ _ w _ w', w' = w).
Proof. by_reading. Qed.
#[export] Instance emitD_dx ev : Effect (emitD ev) (λ _ w _ w', w_dex w' = w_dex w).
Proof. intros e w u w' H. unfold emitD in H. by m_inv. Qed.
#[export] Instance emit_order_filled_dx i m t n p :
  Effect (emit_order_filled i m t n p) (λ _ w _ w', w_dex w' = w_dex w).
Proof. apply emitD_dx. Qed.
#[global] Typeclasses Opaque from_address Token.quote_token Token.check_not_paused
  Token.ensure_transfer_authorized check_non_escrow TokenOps.validate_usd_currency is_tip20
  find_trade_path is_maker_authorized emitD emit_order_filled.

(** ** Money *)

(** The tokens of the book of an order: what it locks and what its maker receives. *)
Definition escrow_token (s : Dex.State) (o : Order.t) : Address :=
  if o.(Order.is_bid) then (pair s o.(Order.book_key)).1.2 else (pair s o.(Order.book_key)).1.1.
Definition payout_token (s : Dex.State) (o : Order.t) : Address :=
  if o.(Order.is_bid) then (pair s o.(Order.book_key)).1.1 else (pair s o.(Order.book_key)).1.2.

Abbreviation bal s u t := ((Dex.balances s).[(u, t)]).

#[export] Instance settle_maker_dx o b n :
  Effect (settle_maker o b n) (λ _ w _ w',
    let t := if o.(Order.is_bid) then b.(Orderbook.base) else b.(Orderbook.quote) in
    dx w' = put_balance o.(Order.maker) t (bal (dx w) o.(Order.maker) t + maker_credit o n) (dx w)).
Proof.
  intros e w u w' H. unfold settle_maker, maker_credit in *. dx_inv; [done|].
  match goal with H : base_to_quote _ _ Up = Some _ |- _ => apply base_to_quote_up in H as [-> _] end. done.
Qed.
#[export] Instance escrow_dx b n t x y :
  Effect (escrow b n t x y) (λ _ w r w', w' = w ∧
    r = if b then (y, ceil_quote n t, x) else (x, n, y)).
Proof.
  intros e w r w' H. unfold escrow in H. dx_inv; [|done]. split; [done|].
  match goal with H : base_to_quote _ _ Up = Some _ |- _ => apply base_to_quote_up in H as [-> _] end. done.
Qed.
#[global] Typeclasses Opaque settle_maker escrow.

(** ** Balances do not matter for the books *)

Lemma queue_put_balance u t n s c l : queue s c l → queue (put_balance u t n s) c l.
Proof. by apply queue_ext. Qed.
Lemma wf_put_balance u t n s Q : book_wf s Q → book_wf (put_balance u t n s) Q.
Proof.
  intros HW. split; try apply HW. intros c. by apply queue_put_balance, HW.
Qed.

(** ** Flipping *)

Lemma is_t5_t1c sp : is_t5 sp = true → is_t1c sp = true.
Proof. by destruct sp. Qed.

Lemma flip_failed e w o base quote x w' :
  is_t5 (spec e) = true → flip_in_place o base quote e w = (Err x, w') → w' = w.
Proof.
  intros H5. unfold flip_in_place, checkpoint. rewrite (is_t5_t1c _ H5).
  match goal with |- context [match ?r with _ => _ end] => destruct r as [[u|y] w1] end; congruence.
Qed.

Definition flipped (o : Order.t) : Order.t := Orders.create_flipped_order o o.(Order.order_id).

Lemma flip_spec e w o base quote u w' l :
  flip_in_place o base quote e w = (Ok u, w') →
  queue (dx w) (okey (flipped o)) l → fresh (flipped o) → o.(Order.order_id) ∉ l →
  initialized (dx w) o.(Order.book_key) →
  id_of_book (dx w).(Dex.book_keys) o.(Order.book_key) (pair (dx w) o.(Order.book_key)).2 →
  let t := if o.(Order.is_bid) then base else quote in
  let n := escrow_left (flipped o) o.(Order.amount) in
  n ≤ bal (dx w) o.(Order.maker) t ∧
  appended (spec e) (put_balance o.(Order.maker) t (bal (dx w) o.(Order.maker) t - n) (dx w)) (dx w') l
    (flipped o).
Proof.
  intros H Hq Hf Hid Hini Hb t n. unfold flip_in_place in H.
  apply (proj1 (checkpoint_Ok _ _ _ _ _)) in H. fold (flipped o) in H. cbv zeta in H.
  m_step H. effect_in Hrun. destruct Hrun as [-> ->].
  assert ((if Order.is_bid (flipped o) then (quote, ceil_quote (Order.amount (flipped o)) (Order.tick (flipped o)), base)
           else (base, Order.amount (flipped o), quote)) = (t, n, if Order.is_bid o then quote else base)) as Ht.
  { subst t n. unfold escrow_left. cbn. by destruct (Order.is_bid o). }
  rewrite Ht in H. clear Ht.
  repeat (m_step H; first [effect_in Hrun | m_step Hrun]; destruct_and?; subst).
  split; [done|]. m_step H. effect_in H. rewrite H. change (Order.maker o) with (Order.maker (flipped o)).
  rewrite <- H2. apply (commit_appended e _ _ _ _ _ l Hrun); rewrite ?H2; try done.
  by apply queue_put_balance.
Qed.

(** ** Retiring a filled order *)

(** Nothing but the payload of the order [id] and the balances changed. *)
Record touched (s s' : Dex.State) (id : N) : Prop := Touched {
  tc_fixed : fixed s s';
  tc_payload : ∀ x, x ≠ id → payload (ord s' x) = payload (ord s x)
}.
(** The order is gone, or it has flipped and its maker paid the new escrow. *)
Definition gone (s s' : Dex.State) (o : Order.t) : Prop :=
  (ord s' o.(Order.order_id)).(Order.maker) = 0 ∧ s'.(Dex.balances) = s.(Dex.balances).
Definition flipped_over (s s' : Dex.State) (o : Order.t) : Prop :=
  let t := payout_token s o in
  let n := escrow_left (flipped o) o.(Order.amount) in
  o.(Order.is_flip) = true ∧ payload (ord s' o.(Order.order_id)) = flipped o ∧
  n ≤ bal s o.(Order.maker) t ∧
  s'.(Dex.balances) = <[(o.(Order.maker), t) := bal s o.(Order.maker) t - n]> s.(Dex.balances).

Lemma fresh_flipped s c id : resting s c id → 0 < id → fresh (flipped (ord s id)).
Proof.
  intros Hr Hpos. pose proof (rs_id _ _ _ Hr). pose proof (rs_pos _ _ _ Hr). pose proof (rs_amount _ _ _ Hr).
  split; cbn; try lia. apply (rs_maker _ _ _ Hr).
Qed.

(** The queues after the retirement of [id], the first of the queue at [c]. *)
Definition after_retire (Q : queues) (c : crd) (id : N) (l : list N) (Q' : queues) (o : Order.t) : Prop :=
  Q' = <[c := l]> Q ∨
  o.(Order.is_flip) = true ∧
  Q' = <[okey (flipped o) := Q (okey (flipped o)) ++ [id]]> (<[c := l]> Q).

Lemma retire_deleted e w d o d' w' Q c id l :
  delete_order_and_track_deltas d o e w = (Ok d', w') →
  book_wf (dx w) Q → Q c = id :: l → o = ord (dx w) id →
  book_wf_but (dx w') (<[c := l]> Q) c id l ∧ touched (dx w) (dx w') id ∧ gone (dx w) (dx w') o ∧
  lv (dx w') c = lv (dx w) c ∧ best (dx w') (ck c) (cb c) = best (dx w) (ck c) (cb c).
Proof.
  intros H HW HQ ->.
  assert (resting (dx w) c id) as Hr.
  { apply (queue_resting _ _ (Q c)); [by apply HW|]. rewrite HQ. by left. }
  effect_in H. rewrite (rs_id _ _ _ Hr) in H. rewrite H. split_and!; try done.
  - by apply wf_delete_head.
  - split; [done|]. intros x Hx. views. by rewrite decide_False.
  - split; [|done]. rewrite (rs_id _ _ _ Hr). views. by rewrite decide_True.
Qed.

Lemma retire_flipped e w o u w' Q c id l :
  flip_in_place o (book (dx w) (ck c)).(Orderbook.base) (book (dx w) (ck c)).(Orderbook.quote) e w = (Ok u, w') →
  book_wf (dx w) Q → Q c = id :: l → o = ord (dx w) id → o.(Order.is_flip) = true →
  book_wf_but (dx w') (<[okey (flipped o) := Q (okey (flipped o)) ++ [id]]> (<[c := l]> Q)) c id l ∧
  touched (dx w) (dx w') id ∧ flipped_over (dx w) (dx w') o ∧
  lv (dx w') c = lv (dx w) c ∧ best (dx w') (ck c) (cb c) = best (dx w) (ck c) (cb c).
Proof.
  intros H HW HQ Ho Hfl. pose proof (wf_queue _ _ HW c) as Hq. rewrite HQ in Hq.
  assert (resting (dx w) c id) as Hr by (apply (queue_resting _ _ _ _ Hq); by left).
  assert (0 < id) as Hpos by (apply (q_pos _ _ _ Hq); by left).
  pose proof (rs_id _ _ _ Hr) as Hid. pose proof (rs_key _ _ _ Hr) as Hk.
  rewrite <- Ho in Hid, Hk.
  assert (okey (flipped o) ≠ c) as Hne.
  { rewrite <- Hk. unfold okey. cbn. intros [=]. by destruct (Order.is_bid o). }
  assert (Order.book_key o = ck c ∧ Order.is_bid o = cb c) as [Ebk Eb] by by rewrite <- Hk.
  apply (flip_spec e w o _ _ u w' (Q (okey (flipped o)))) in H.
  - cbv zeta in H. rewrite <- Ebk in H. destruct H as [Hn HA]. pose proof (ap_fixed _ _ _ _ _ HA) as HF.
    split_and!.
    + refine (wf_flip_head (spec e) _ _ Q c id l (flipped o) _ HQ Hne Hid HA). by apply wf_put_balance.
    + split; [by destruct HF|]. intros x Hx. apply (ap_payload _ _ _ _ _ HA). cbn. congruence.
    + split_and!; [done|apply (ap_new _ _ _ _ _ HA)|exact Hn|apply (ap_balances _ _ _ _ _ HA)].
    + apply (ap_lv _ _ _ _ _ HA). done.
    + apply (ap_best _ _ _ _ _ HA). cbn. rewrite <- Ebk, <- Eb. intros [=]. by destruct (Order.is_bid o).
  - apply HW.
  - rewrite Ho. by eapply fresh_flipped.
  - rewrite Hid. apply (wf_disjoint (dx w) Q c); [done|done|]. rewrite HQ. by left.
  - rewrite Ebk. by apply (q_dom _ _ _ Hq).
  - apply HW.
Qed.

Lemma retire_spec e w d o d' w' Q c id l :
  is_t5 (spec e) = true →
  retire_order d o (book (dx w) (ck c)) e w = (Ok d', w') →
  book_wf (dx w) Q → Q c = id :: l → o = ord (dx w) id →
  ∃ Q', after_retire Q c id l Q' o ∧ book_wf_but (dx w') Q' c id l ∧ touched (dx w) (dx w') id ∧
    (gone (dx w) (dx w') o ∨ flipped_over (dx w) (dx w') o) ∧
    lv (dx w') c = lv (dx w) c ∧ best (dx w') (ck c) (cb c) = best (dx w) (ck c) (cb c).
Proof.
  intros H5 H HW HQ Ho. unfold retire_order in H.
  assert (resting (dx w) c id ∧ 0 < id) as [Hr Hpos].
  { pose proof (wf_queue _ _ HW c) as Hq. rewrite HQ in Hq. split; [apply (queue_resting _ _ _ _ Hq); by left|].
    apply (q_pos _ _ _ Hq). by left. }
  destruct (Order.is_flip o) eqn:Hfl.
  2: { eapply retire_deleted in H as (H1 & H2 & H3 & H4 & H6); try done.
       exists (<[c := l]> Q). split_and!; try done; by left. }
  m_step H. m_step Hrun. simplify_eq. m_step H. apply try_Ok in Hrun. rewrite H5 in *.
  destruct a as [[]|x].
  - m_step H. subst. eapply retire_flipped in Hrun as (H1 & H2 & H3 & H4 & H6); try done.
    eexists. split_and!; [right; split; [done|reflexivity]|done..|by right|done|done].
  - apply flip_failed in Hrun as ->; [|done]. destruct (is_system_error x && is_t1a (spec e)); [by m_step H|].
    m_step H. effect_in Hrun.
    assert (dx w0 = dx w) as Ew by congruence. rewrite <- Ew in *.
    eapply retire_deleted in H as (H1 & H2 & H3 & H4 & H6); try done.
    exists (<[c := l]> Q). split_and!; try done; by left.
Qed.

(** ** The front of a book *)

(** The order a swap takes next, with the level it rests at. *)
Definition cursor (sp : TempoHardfork) (s : Dex.State) (Q : queues) (k : B256) (b : bool)
    : option (TickLevel.t * Order.t) :=
  match book_list Q k b with
  | [] => None
  | id :: _ => Some (read_level sp (lv s (okey (ord s id))), ord s id)
  end.

Lemma cursor_best sp s Q k b :
  book_wf s Q → initialized s k →
  cursor sp s Q k b =
  if decide (best s k b = no_tick b) then None
  else let l := lv s (k, b, best s k b) in Some (read_level sp l, ord_in s l.(TickLevel.head) k).
Proof.
  intros HW Hk. unfold cursor. pose proof (wf_book_list s Q k b HW Hk) as Hb.
  destruct (decide (best s k b = no_tick b)); [by rewrite Hb|].
  destruct Hb as (Hne & R & HR). rewrite (HR Q) by done.
  pose proof (wf_queue _ _ HW (k, b, best s k b)) as Hq.
  destruct (Q (k, b, best s k b)) as [|id l] eqn:EQ; [done|]. cbn [app].
  assert (resting s (k, b, best s k b) id) as Hr by (apply (queue_resting _ _ _ _ Hq); by left).
  pose proof (rs_key _ _ _ Hr) as Hkey. rewrite Hkey. cbv zeta. rewrite (q_head _ _ _ Hq). cbn.
  rewrite ord_in_ord; [done|]. by injection Hkey.
Qed.

(** ** Moving to the next order *)

(** The records keep their payloads and the balances stay. *)
Record relinked (s s' : Dex.State) : Prop := Relinked {
  rl_fixed : fixed s s';
  rl_payload : ∀ x, payload (ord s' x) = payload (ord s x);
  rl_balances : s'.(Dex.balances) = s.(Dex.balances)
}.

Lemma advance_tick_spec e w k o r w' Q id :
  advance_tick k o e w = (Ok r, w') →
  book_wf_but (dx w) Q (k, o.(Order.is_bid), o.(Order.tick)) id [] →
  best (dx w) k o.(Order.is_bid) = o.(Order.tick) →
  book_wf (dx w') Q ∧ relinked (dx w) (dx w') ∧ r = cursor (spec e) (dx w') Q k o.(Order.is_bid).
Proof.
  intros H HB Hbest. unfold advance_tick in H. set (b := Order.is_bid o) in *. set (t := Order.tick o) in *.
  m_step H. effect_in Hrun. m_step H. effect_in Hrun0. destruct Hrun0 as [_ Hbit].
  m_step H. effect_in Hrun0. destruct Hrun0 as [-> Hnt]. destruct a1 as [tick has]. cbv iota beta in H.
  m_step H. effect_in Hrun0.
  set (lvl' := stored_level _ _ _) in Hrun. rewrite Hrun in Hbit. rewrite Hbit in Hrun0, Hnt.
  set (s1 := bits_at k b t false (put_level k b t lvl' (dx w))) in *.
  assert (dx w2 = best_at k b (best_after s1 (k, b, t)) s1) as Ew2.
  { rewrite Hrun0. f_equal. unfold best_after, next_tick. cbn [fst snd]. by rewrite <- Hnt. }
  assert (book_wf (dx w2) Q) as HW.
  { rewrite Ew2. refine (wf_advance_tick (dx w) Q (k, b, t) id lvl' HB Hbest _ _).
    all: subst lvl'; unfold stored_level; by destruct (is_t12 _). }
  assert (relinked (dx w) (dx w2)) as HRel.
  { rewrite Hrun0. subst s1. split; [by_fixed|intros x; by views|done]. }
  assert (initialized (dx w2) k) as Hini.
  { rewrite (fixed_initialized _ _ _ (rl_fixed _ _ HRel)). apply (wb_dom _ _ _ _ _ HB). }
  assert (best (dx w2) k b = if has then tick else no_tick b) as Eb.
  { rewrite Hrun0. views. by rewrite decide_True. }
  destruct has; cbn [negb] in H.
  - assert (tick ≠ no_tick b) as Hne.
    { unfold no_tick. destruct b.
      - pose proof (next_bid_spec (bitmap true (book s1 k)) t) as Hs. rewrite <- Hnt in Hs. cbn in Hs.
        assert (I16_MIN < MIN_TICK)%Z by done. lia.
      - pose proof (next_ask_spec (bitmap false (book s1 k)) t) as Hs. rewrite <- Hnt in Hs. cbn in Hs.
        assert (MAX_TICK < I16_MAX)%Z by done. lia. }
    pose proof (cursor_best (spec e) (dx w2) Q k b HW Hini) as Hcur.
    rewrite Eb, decide_False in Hcur by done. clear Eb Hne.
    dx_inv. split_and!; [done|done|]. rewrite Hcur. unfold read_level. by destruct (is_t12 _).
  - pose proof (cursor_best (spec e) (dx w2) Q k b HW Hini) as Hcur.
    rewrite Eb, decide_True in Hcur by done. clear Eb. dx_inv. by split_and!.
Qed.

Lemma advance_order_spec e w d k o level n r w' Q id y l :
  advance_order d k o level n e w = (Ok r, w') →
  let c := (k, o.(Order.is_bid), o.(Order.tick)) in
  book_wf_but (dx w) Q c id (y :: l) → o.(Order.next) = y →
  level = read_level (spec e) (lv (dx w) c) → best (dx w) k o.(Order.is_bid) = o.(Order.tick) →
  book_wf (dx w') Q ∧ relinked (dx w) (dx w') ∧
  Some r.1 = cursor (spec e) (dx w') Q k o.(Order.is_bid).
Proof.
  intros H c HB Hy Hlev Hbest. unfold advance_order in H.
  m_step H. destruct a as [u cr]. apply Credits.track_run in Hrun. effect_in Hrun. m_step H. m_step Hrun0. simplify_eq.
  m_step H. set (y := Order.next o) in *.
  assert (w1 = w0 ∧ a.(TickLevel.head) = y ∧ a.(TickLevel.tail) = (lv (dx w) c).(TickLevel.tail) ∧
          (is_t12 (spec e) = true → a.(TickLevel.total_liquidity) = 0)) as (-> & Hh & Ht & Htot).
  { clear H. unfold read_level in Hrun0. destruct (is_t12 (spec e)); m_inv; by split_and!. }
  clear Hrun0. m_step H. effect_in Hrun0.
  set (lvl' := stored_level _ _ _) in Hrun0. rewrite Hrun in Hrun0.
  assert (lvl'.(TickLevel.head) = y ∧ lvl'.(TickLevel.tail) = (lv (dx w) c).(TickLevel.tail) ∧
          read_level (spec e) lvl' = a) as (Hh' & Ht' & Hrl).
  { subst lvl'. unfold stored_level, read_level. destruct (is_t12 (spec e)); [|done]. cbn. split_and!; [done..|].
    destruct a; cbn in *. by rewrite Htot. }
  assert (book_wf (dx w1) Q) as HW.
  { rewrite Hrun0. exact (wf_advance_order (dx w) Q c id y l lvl' HB Hh' Ht'). }
  assert (relinked (dx w) (dx w1)) as HRel.
  { rewrite Hrun0. split; [by_fixed|intros x; views|done]. case_decide as E; [subst x|done].
    rewrite decode_set_prev. by unfold ord. }
  assert (initialized (dx w1) k) as Hini.
  { rewrite (fixed_initialized _ _ _ (rl_fixed _ _ HRel)). apply (wb_dom _ _ _ _ _ HB). }
  pose proof (cursor_best (spec e) (dx w1) Q k (Order.is_bid o) HW Hini) as Hcur.
  assert (best (dx w1) k (Order.is_bid o) = Order.tick o) as Eb by (rewrite Hrun0; by views).
  assert (lv (dx w1) c = lvl') as Elv by (rewrite Hrun0; views; by rewrite decide_True).
  rewrite Eb in Hcur. change (k, Order.is_bid o, Order.tick o) with c in Hcur.
  rewrite Elv, decide_False in Hcur.
  - cbv zeta in Hcur. rewrite Hrl, Hh' in Hcur. clear Eb Elv Hrun0. clearbody y c lvl'. dx_inv. by split_and!.
  - destruct (wb_dom _ _ _ _ _ HB) as [Hr%in_range_bounds _]. subst c. cbn in Hr. unfold no_tick.
    destruct (Order.is_bid o); lia.
Qed.

(** ** A full fill *)

Record filled (s s' : Dex.State) (Q Q' : queues) (k : B256) (b : bool) (o : Order.t) : Prop := Filled {
  fl_wf : book_wf s' Q';
  fl_list : book_list Q k b = o.(Order.order_id) :: book_list Q' k b;
  fl_other : ∀ k' b', k' ≠ k → book_list Q' k' b' = book_list Q k' b';
  fl_touched : touched s s' o.(Order.order_id);
  fl_money :
    let t := payout_token s o in
    let s1 := put_balance o.(Order.maker) t (bal s o.(Order.maker) t + maker_credit o o.(Order.remaining)) s in
    gone s1 s' o ∨ flipped_over s1 s' o
}.

(** What the front of the book looks like. *)
Lemma cursor_front sp s Q k b level o :
  book_wf s Q → initialized s k → cursor sp s Q k b = Some (level, o) →
  ∃ id l, o = ord s id ∧ resting s (k, b, best s k b) id ∧ Q (k, b, best s k b) = id :: l ∧
    level = read_level sp (lv s (k, b, best s k b)) ∧ best s k b ≠ no_tick b ∧
    ∃ R, ∀ Q' : queues, (∀ t, t ≠ best s k b → Q' (k, b, t) = Q (k, b, t)) →
      book_list Q' k b = Q' (k, b, best s k b) ++ R.
Proof.
  intros HW Hk Hc. pose proof (wf_book_list s Q k b HW Hk) as Hb. unfold cursor in Hc.
  destruct (decide (best s k b = no_tick b)) as [|Hne]; [by rewrite Hb in Hc|].
  destruct Hb as (HQ & R & HR). rewrite (HR Q) in Hc by done.
  destruct (Q (k, b, best s k b)) as [|id l] eqn:EQ; [done|]. cbn in Hc. injection Hc as <- <-.
  assert (resting s (k, b, best s k b) id) as Hr.
  { apply (queue_resting _ _ (Q (k, b, best s k b))); [apply HW|]. rewrite EQ. by left. }
  exists id, l. rewrite (rs_key _ _ _ Hr). split_and!; eauto.
Qed.

Lemma after_retire_lists Q c id l Q' o R :
  after_retire Q c id l Q' o → okey o = c → Q c = id :: l →
  (∀ Q1 : queues, (∀ t, t ≠ ct c → Q1 (ck c, cb c, t) = Q (ck c, cb c, t)) →
     book_list Q1 (ck c) (cb c) = Q1 c ++ R) →
  book_list Q (ck c) (cb c) = id :: book_list Q' (ck c) (cb c) ∧
  ∀ k' b', k' ≠ ck c → book_list Q' k' b' = book_list Q k' b'.
Proof.
  intros HA Hk HQ HR. destruct c as [[k b] t]. cbn [fst snd] in *.
  assert (book_list (<[(k, b, t) := l]> Q) k b = l ++ R) as HL.
  { rewrite HR; [by rewrite fn_lookup_insert|]. intros t' Hne. apply fn_lookup_insert_ne. congruence. }
  rewrite (HR Q), HQ by done. destruct HA as [->|[_ ->]].
  - rewrite HL. split; [done|]. intros k' b' Hne. apply book_list_insert_other. cbn. congruence.
  - injection Hk as Ek Eb Et. split.
    + rewrite book_list_insert_other; [by rewrite HL|]. cbn. rewrite Ek, Eb. intros [=]. by destruct b.
    + intros k' b' Hne. rewrite !book_list_insert_other; [done|cbn; congruence..].
Qed.

Lemma relinked_touched s s2 s' id : touched s s2 id → relinked s2 s' → touched s s' id.
Proof.
  intros [HF HP] [HF' HP' _]. split; [by transitivity s2|]. intros x Hx. by rewrite HP', HP.
Qed.
Lemma relinked_money s s2 s' o :
  gone s s2 o ∨ flipped_over s s2 o → relinked s2 s' → gone s s' o ∨ flipped_over s s' o.
Proof.
  intros HG [_ HP HB]. destruct HG as [[Hm Hb]|(Hf & Hp & Hn & Hb)]; [left|right].
  - split; [|congruence]. by destruct (payload_fields _ _ (HP (Order.order_id o))) as (_ & -> & _).
  - split_and!; [done| |done|congruence]. by rewrite HP.
Qed.

Lemma fill_order_spec e w d k b o level taker r d' w' Q :
  is_t5 (spec e) = true →
  fill_order d k o level taker e w = (Ok (r, d'), w') →
  book_wf (dx w) Q → initialized (dx w) k → cursor (spec e) (dx w) Q k b = Some (level, o) →
  ∃ Q', filled (dx w) (dx w') Q Q' k b o ∧ r = cursor (spec e) (dx w') Q' k b.
Proof.
  intros H5 H HW Hk Hcur.
  destruct (cursor_front _ _ _ _ _ _ _ HW Hk Hcur) as (id & l & Ho & Hr & HQ & Hlev & Hnt & R & HR).
  pose proof (rs_id _ _ _ Hr) as Hid. pose proof (rs_key _ _ _ Hr) as Hkey. rewrite <- Ho in Hid, Hkey.
  set (t := best (dx w) k b) in *. injection Hkey as Ek Eb Et.
  unfold fill_order in H. m_step H. effect_in Hrun. destruct Hrun as [-> ->].
  m_step H. effect_in Hrun. m_step H. effect_in Hrun0.
  assert (dx w1 = put_balance (Order.maker o) (payout_token (dx w) o)
    (bal (dx w) (Order.maker o) (payout_token (dx w) o) + maker_credit o (Order.remaining o)) (dx w)) as E1.
  { rewrite Hrun0, Hrun. unfold payout_token. by rewrite Ek. }
  set (s1 := put_balance _ _ _ _) in E1.
  m_step H.
  assert (book_wf (dx w1) Q) as HW1 by (rewrite E1; by apply wf_put_balance).
  assert (o = ord (dx w1) id) as Ho1 by (by rewrite E1).
  assert (book (dx w) k = book (dx w1) k) as Ebk by by rewrite E1.
  rewrite Ebk in Hrun1.
  eapply (retire_spec e w1 d o _ _ Q (k, b, t) id l H5) in Hrun1 as (Q' & HA & HB & HT & HG & Elv & Ebst); try done.
  assert (Order.next o = default 0 (head l)) as Hnext.
  { pose proof (q_seg _ _ _ (wf_queue _ _ HW (k, b, t))) as Hs. rewrite HQ in Hs.
    destruct Hs as (_ & _ & Hn & _). by rewrite Ho. }
  assert (best (dx w2) k (Order.is_bid o) = Order.tick o) as Hbest.
  { rewrite Eb, Et. cbn [fst snd] in Ebst. rewrite Ebst. by rewrite E1. }
  assert (lv (dx w2) (k, b, t) = lv (dx w) (k, b, t)) as Elv' by (rewrite Elv; by rewrite E1).
  assert (book_wf (dx w') Q' ∧ relinked (dx w2) (dx w') ∧ r = cursor (spec e) (dx w') Q' k b) as (HW' & HRel & Hcur').
  { clear Hrun Hrun0. rewrite <- Eb, <- Et in HB. destruct l as [|y l]; cbn in Hnext; rewrite Hnext in H; cbn in H.
    - m_step H. apply ret_Ok in H as [[= <- <-] <-]. rewrite <- Eb. by eapply advance_tick_spec.
    - pose proof (wb_pos _ _ _ _ _ HB y ltac:(set_solver)).
      rewrite (proj2 (N.eqb_neq y 0)) in H by lia. m_step H. destruct a2 as [[lev' o'] d''].
      apply ret_Ok in H as [[= -> ->] ->]. rewrite <- Eb.
      eapply advance_order_spec in Hrun as (? & ? & ?); try done. rewrite Hlev, <- Elv', Eb, Et. done. }
  exists Q'. split; [|done].
  destruct (after_retire_lists Q (k, b, t) id l Q' o R HA) as [HL1 HL2]; try done.
  { unfold okey. congruence. }
  assert (touched (dx w) (dx w2) id) as HT'.
  { destruct HT as [HF HP]. rewrite E1 in HF, HP. split; [by destruct HF|exact HP]. }
  split; rewrite ?Hid; try done.
  - by eapply relinked_touched.
  - rewrite E1 in HG. by eapply relinked_money.
Qed.

(** ** A partial fill *)

Record part_filled (s s' : Dex.State) (Q : queues) (o : Order.t) (n : N) : Prop := PartFilled {
  pf_wf : book_wf s' Q;
  pf_touched : touched s s' o.(Order.order_id);
  pf_order : payload (ord s' o.(Order.order_id)) = payload (Order.set_remaining (λ _, o.(Order.remaining) - n) o);
  pf_money :
    let t := payout_token s o in
    s'.(Dex.balances) =
    <[(o.(Order.maker), t) := bal s o.(Order.maker) t + maker_credit o n]> s.(Dex.balances)
}.

(** A level write that keeps the links. *)
Record same_links (s s' : Dex.State) : Prop := SameLinks {
  sl_fixed : fixed s s';
  sl_orders : s'.(Dex.orders) = s.(Dex.orders);
  sl_balances : s'.(Dex.balances) = s.(Dex.balances);
  sl_lv : ∀ c, (lv s' c).(TickLevel.head) = (lv s c).(TickLevel.head) ∧
               (lv s' c).(TickLevel.tail) = (lv s c).(TickLevel.tail);
  sl_bt : ∀ c, bt s' c = bt s c;
  sl_best : ∀ k b, best s' k b = best s k b
}.
Lemma same_links_refl s : same_links s s.
Proof. by split. Qed.
Lemma same_links_put s c lvl' :
  lvl'.(TickLevel.head) = (lv s c).(TickLevel.head) → lvl'.(TickLevel.tail) = (lv s c).(TickLevel.tail) →
  same_links s (put_level (ck c) (cb c) (ct c) lvl' s).
Proof.
  intros Hh Ht. destruct c as [[k b] t]. cbn [fst snd]. split; try done; try (intros; by views).
  - by_fixed.
  - intros c'. views. case_decide; by subst.
Qed.
Lemma same_links_ord s s' x : same_links s s' → ord s' x = ord s x.
Proof. intros HS. unfold ord. by rewrite (sl_orders _ _ HS), (fx_keys _ _ (sl_fixed _ _ HS)). Qed.

Lemma part_filled_intro s s' Q c o id n :
  book_wf s Q → resting s c id → o = ord s id → n < o.(Order.remaining) →
  same_links (put_balance o.(Order.maker) (payout_token s o)
                (bal s o.(Order.maker) (payout_token s o) + maker_credit o n)
                (put id (Orders.record_set_remaining (o.(Order.remaining) - n) s.(Dex.orders).[id]) s)) s' →
  part_filled s s' Q o n.
Proof.
  intros HW Hr Ho Hn HS. pose proof (rs_id _ _ _ Hr) as Hid. rewrite <- Ho in Hid.
  assert (∀ x, ord s' x = if decide (id = x) then Order.set_remaining (λ _, Order.remaining o - n) (ord s x) else ord s x) as Hord.
  { intros x. rewrite (same_links_ord _ _ x HS). views. case_decide as E; [|done].
    rewrite decode_set_remaining. by rewrite <- E. }
  pose proof (sl_fixed _ _ HS) as HF. assert (fixed s s') as HF' by by destruct HF.
  split.
  - apply (wf_same_place s); try done; [|apply HS..|].
    + intros x. rewrite Hord. case_decide as E; [|done]. subst x. rewrite <- Ho.
      split; cbn; try done; try lia.
    + intros x Hx. unfold resolvable. rewrite (sl_orders _ _ HS), (fx_keys _ _ HF). cbn.
      rewrite sread_insert. unfold resolvable in Hx. case_decide as E; [|done]. rewrite <- E in Hx.
      by destruct (Dex.orders s).[id].
  - split; [done|]. rewrite Hid. intros x Hx. rewrite Hord. by rewrite decide_False.
  - rewrite Hid, Hord. rewrite decide_True by done. by rewrite <- Ho.
  - apply (sl_balances _ _ HS).
Qed.

Lemma partial_fill_spec e w k b o level n taker level' w' Q :
  partial_fill_order o level n taker e w = (Ok level', w') →
  book_wf (dx w) Q → initialized (dx w) k → cursor (spec e) (dx w) Q k b = Some (level, o) →
  n < o.(Order.remaining) → part_filled (dx w) (dx w') Q o n.
Proof.
  intros H HW Hk Hcur Hn.
  destruct (cursor_front _ _ _ _ _ _ _ HW Hk Hcur) as (id & l & Ho & Hr & HQ & Hlev & Hnt & R & HR).
  pose proof (rs_id _ _ _ Hr) as Hid. pose proof (rs_key _ _ _ Hr) as Hkey. rewrite <- Ho in Hid, Hkey.
  set (t := best (dx w) k b) in *. injection Hkey as Ek Eb Et.
  unfold partial_fill_order in H. rewrite Hid, Ek, Eb, Et in H.
  m_step H. effect_in Hrun. destruct Hrun as [-> ->]. m_step H. effect_in Hrun. m_step H. effect_in Hrun0.
  m_step H. apply asks_Ok in Hrun1 as [-> ->]. m_step H. m_step H. apply ret_Ok in H as [_ ->].
  effect_in Hrun2.
  apply (part_filled_intro _ _ _ (k, b, t) o id); try done. rewrite <- Hrun.
  assert (dx w1 = put_balance (Order.maker o) (payout_token (dx w) o)
    (bal (dx w) (Order.maker o) (payout_token (dx w) o) + maker_credit o n) (dx w0)) as <-.
  { rewrite Hrun0, Hrun. unfold payout_token. by rewrite Ek. }
  rewrite Hrun2. assert (lv (dx w1) (k, b, t) = lv (dx w) (k, b, t)) as Elv by (by rewrite Hrun0, Hrun).
  clear Hrun Hrun0 Hrun2 HQ HR Hcur Hr Hnt Et. clearbody t. unfold read_level in Hlev.
  destruct (is_t12 (spec e)) eqn:H12; cbn [negb] in Hrun1.
  - dx_inv. by apply same_links_refl.
  - m_step Hrun1. apply ok_or_Ok in Hrun as [_ ->]. m_step Hrun1. effect_in Hrun. apply ret_Ok in Hrun1 as [_ ->]. rewrite Hrun.
    apply (same_links_put _ (k, b, t)); unfold stored_level; rewrite H12; cbn; by rewrite Elv, Hlev.
Qed.

End DexFill.
