(* ===== verification/DexLedger.v ===== *)
(** * What the exchange owes

    The liabilities of the exchange in a token are the internal balances of its users
    and the escrow of the resting orders. This file computes how the operations on
    orders move them. *)

From stdpp Require Import functions.
From S2P Require Import Prelude Packing Hardfork Address Errors DexState State Monad.
From S2P Require Import StorageCredits DexOrder DexBook DexMath DexBitmap AddressRegistry Tip20Base.
From S2P Require Import Keychain KeychainSpec Tip403 Tip20Core Guard Tip20 Dex Tip20Frame DexFrame.
From S2P Require Import DexView DexQueue DexInv DexFill.

Module DexLedger.
Import Book DexOps DexMath DexBitmap DexView DexQueue DexCommit DexInv DexFill.

(** ** Liabilities *)

Definition owed_map (t : Address) (m : gmap (Address * Address) N) : gmap (Address * Address) N :=
  map_imap (λ k v, if decide (k.2 = t) then Some v else None) m.
Definition owed (s : Dex.State) (t : Address) : N := msum (owed_map t s.(Dex.balances)).

(** The escrow of an order in token [t]. *)
Definition escrow_in (s : Dex.State) (t : Address) (o : Order.t) : N :=
  if decide (o.(Order.maker) = 0) then 0
  else if decide (escrow_token s o = t) then escrow_left o o.(Order.remaining) else 0.
Definition locked_map (s : Dex.State) (t : Address) : gmap N N :=
  map_imap (λ id r, Some (escrow_in s t (decode s.(Dex.book_keys) id r))) s.(Dex.orders).
Definition locked (s : Dex.State) (t : Address) : N := msum (locked_map s t).

Definition liabilities (s : Dex.State) (t : Address) : N := owed s t + locked s t.

Lemma owed_read t m k : (owed_map t m).[k] = if decide (k.2 = t) then m.[k] else 0.
Proof. unfold owed_map. rewrite sread_imap. unfold sread. destruct (m !! k); by case_decide. Qed.
Lemma locked_read s t id : (locked_map s t).[id] = escrow_in s t (ord s id).
Proof. unfold locked_map. rewrite sread_imap. unfold ord, sread. by destruct (Dex.orders s !! id). Qed.


Lemma owed_insert s s' u t' n t :
  s'.(Dex.balances) = <[(u, t') := n]> s.(Dex.balances) →
  owed s' t + at_token t' t (bal s u t') = owed s t + at_token t' t n.
Proof.
  intros E. unfold owed. rewrite E.
  pose proof (msum_change (owed_map t s.(Dex.balances)) (owed_map t (<[(u, t') := n]> s.(Dex.balances))) (u, t')) as Hm.
  rewrite !owed_read, sread_insert_eq in Hm. unfold at_token. cbn [snd] in Hm. apply Hm.
  intros k Hk. rewrite !owed_read. by rewrite sread_insert_ne.
Qed.

Lemma escrow_in_payload s t o o' : payload o = payload o' → escrow_in s t o = escrow_in s t o'.
Proof.
  intros E. destruct o, o'; cbn in E. injection E as <- <- <- <- <- <- <- <- <-. done.
Qed.
Lemma escrow_in_fixed s s' t o : fixed s s' → escrow_in s' t o = escrow_in s t o.
Proof. intros HF. unfold escrow_in, escrow_token. by rewrite (fx_pair _ _ HF). Qed.

Lemma locked_change s s' t id :
  touched s s' id →
  locked s' t + escrow_in s t (ord s id) = locked s t + escrow_in s t (ord s' id).
Proof.
  intros [HF HP]. unfold locked. pose proof (msum_change (locked_map s t) (locked_map s' t) id) as Hm.
  rewrite !locked_read, (escrow_in_fixed s s') in Hm by done. apply Hm.
  intros x Hx. rewrite !locked_read, (escrow_in_fixed s s') by done. by apply escrow_in_payload, HP.
Qed.

Lemma owed_eq s s' t : s'.(Dex.balances) = s.(Dex.balances) → owed s' t = owed s t.
Proof. unfold owed. by intros ->. Qed.
Lemma owed_credit s s' u t' n t :
  s'.(Dex.balances) = <[(u, t') := bal s u t' + n]> s.(Dex.balances) →
  owed s' t = owed s t + at_token t' t n.
Proof. intros E. pose proof (owed_insert s s' u t' _ t E) as H. unfold at_token in *. case_decide; lia. Qed.
Lemma owed_debit s s' u t' n t :
  s'.(Dex.balances) = <[(u, t') := bal s u t' - n]> s.(Dex.balances) → n ≤ bal s u t' →
  owed s' t + at_token t' t n = owed s t.
Proof. intros E Hn. pose proof (owed_insert s s' u t' _ t E) as H. unfold at_token in *. case_decide; lia. Qed.

Lemma escrow_in_live s t o :
  o.(Order.maker) ≠ 0 → escrow_in s t o = at_token (escrow_token s o) t (escrow_left o o.(Order.remaining)).
Proof. intros Hm. unfold escrow_in. by rewrite decide_False. Qed.
Lemma escrow_token_flipped s o : escrow_token s (flipped o) = payout_token s o.
Proof. unfold escrow_token, payout_token, flipped. cbn. by destruct (Order.is_bid o). Qed.

(** A full fill releases the escrow and pays the maker. *)
Lemma filled_liabilities s s' Q Q' k b o c t :
  filled s s' Q Q' k b o → resting s c o.(Order.order_id) → o = ord s o.(Order.order_id) →
  liabilities s' t + at_token (escrow_token s o) t (escrow_left o o.(Order.remaining)) =
  liabilities s t + at_token (payout_token s o) t (maker_credit o o.(Order.remaining)).
Proof.
  intros HF Hr Ho. pose proof (fl_touched _ _ _ _ _ _ _ HF) as HT.
  pose proof (locked_change s s' t _ HT) as HL. rewrite <- Ho in HL.
  assert (Order.maker o ≠ 0) as Hm by (rewrite Ho; apply (rs_maker _ _ _ Hr)).
  rewrite (escrow_in_live s t o Hm) in HL.
  pose proof (fl_money _ _ _ _ _ _ _ HF) as HM. cbv zeta in HM. set (s1 := put_balance _ _ _ _) in HM.
  assert (owed s1 t = owed s t + at_token (payout_token s o) t (maker_credit o (Order.remaining o))) as H1
    by by eapply owed_credit.
  unfold liabilities. destruct HM as [[Hz Hb]|(_ & Hp & Hn & Hb)].
  - assert (escrow_in s t (ord s' (Order.order_id o)) = 0) as E by (unfold escrow_in; by rewrite decide_True).
    rewrite (owed_eq s1 s') by done. lia.
  - pose proof (owed_debit s1 s' _ _ _ t Hb Hn) as H2.
    change (payout_token s1 o) with (payout_token s o) in H2.
    assert (escrow_in s t (ord s' (Order.order_id o)) =
            at_token (payout_token s o) t (escrow_left (flipped o) (Order.amount o))) as E.
    { rewrite (escrow_in_payload s t _ (flipped o)) by (rewrite Hp; done).
      rewrite escrow_in_live by done. by rewrite escrow_token_flipped. }
    lia.
Qed.

(** A partial fill of [n] does so for its share. *)
Lemma part_filled_liabilities s s' Q o n c t :
  part_filled s s' Q o n → resting s c o.(Order.order_id) → o = ord s o.(Order.order_id) →
  liabilities s' t + at_token (escrow_token s o) t (escrow_left o o.(Order.remaining)) =
  liabilities s t + at_token (payout_token s o) t (maker_credit o n) +
  at_token (escrow_token s o) t (escrow_left o (o.(Order.remaining) - n)).
Proof.
  intros HF Hr Ho. pose proof (pf_touched _ _ _ _ _ HF) as HT.
  pose proof (locked_change s s' t _ HT) as HL. rewrite <- Ho in HL.
  assert (Order.maker o ≠ 0) as Hm by (rewrite Ho; apply (rs_maker _ _ _ Hr)).
  rewrite (escrow_in_payload s t _ _ (pf_order _ _ _ _ _ HF)), !(escrow_in_live s t) in HL by done.
  pose proof (owed_credit s s' _ _ _ t (pf_money _ _ _ _ _ HF)) as H1.
  change (escrow_token s (Order.set_remaining (λ _, Order.remaining o - n) o)) with (escrow_token s o) in HL.
  change (escrow_left (Order.set_remaining (λ _, Order.remaining o - n) o)) with (escrow_left o) in HL.
  cbn [Order.set_remaining Order.remaining] in HL. unfold liabilities. lia.
Qed.

End DexLedger.
