(* ===== verification/DexCancel.v ===== *)
(** * Cancelling orders

    A cancelled order is unlinked from the middle of its queue: the other orders keep
    their places, the tick is closed when the order was its last one, and the maker
    gets back exactly the escrow of what was left of the order. *)

From stdpp Require Import functions.
From S2P Require Import Prelude Packing Hardfork Address Errors DexState State Monad.
From S2P Require Import StorageCredits DexOrder DexBook DexMath DexBitmap AddressRegistry Tip20Base.
From S2P Require Import Keychain KeychainSpec Tip403 Tip20Core Guard Tip20 Dex Tip20Frame DexFrame.
From S2P Require Import DexView DexQueue DexInv DexFill DexLedger.

Module DexCancel.
Import Book DexOps DexMath DexBitmap DexView DexQueue DexCommit DexInv DexFill DexLedger.

(** ** Unlinking *)

Definition unlinked (l1 l2 : list N) (id : N) (o : N → Order.t) (x : N) : Order.t :=
  if decide (x = id) then dflt
  else if decide (last l1 = Some x) then Order.set_next (λ _, default 0 (head l2)) (o x)
  else if decide (head l2 = Some x) then Order.set_prev (λ _, default 0 (last l1)) (o x)
  else o x.

Lemma seg_unlink s s' c l1 id l2 :
  (∀ x, ord s' x = unlinked l1 l2 id (ord s) x) → NoDup (l1 ++ id :: l2) →
  seg s c 0 (l1 ++ id :: l2) 0 → seg s' c 0 (l1 ++ l2) 0.
Proof.
  intros Ho Hnd Hs. apply seg_split in Hs as (_ & _ & Hs1 & Hs2). apply seg_app.
  apply NoDup_app in Hnd as (Hnd1 & Hd & [Hni Hnd2]%NoDup_cons).
  assert (∀ x, x ∈ l1 → x ≠ id ∧ x ∉ l2) as Hd1.
  { intros x Hx. specialize (Hd x Hx). apply not_elem_of_cons in Hd. done. }
  split.
  - apply (seg_set_next s s' c 0 l1 id); [|done|done]. intros x Hx. destruct (Hd1 x Hx) as [Hne Hx2].
    rewrite Ho. unfold unlinked. rewrite decide_False by done.
    destruct (decide (last l1 = Some x)) as [|]; [done|]. rewrite decide_False; [done|].
    intros E. apply Hx2. destruct l2; [done|]. injection E as ->. by left.
  - apply (seg_set_prev s s' c id (default 0 (last l1)) l2 0); [|done|done]. intros x Hx.
    rewrite Ho. unfold unlinked. rewrite decide_False by (by intros ->).
    rewrite decide_False; [done|]. intros E. apply (Hd1 x); [|done]. by apply last_Some_elem_of.
Qed.

Lemma wf_remove s s' Q c l1 id l2 :
  book_wf s Q → Q c = l1 ++ id :: l2 → only_at s s' c →
  (∀ x, ord s' x = unlinked l1 l2 id (ord s) x) →
  (lv s' c).(TickLevel.head) = default 0 (head (l1 ++ l2)) →
  (lv s' c).(TickLevel.tail) = default 0 (last (l1 ++ l2)) →
  (bt s' c = true ↔ l1 ++ l2 ≠ []) → book_wf s' (<[c := l1 ++ l2]> Q).
Proof.
  intros HW HQ HO Ho Hh Ht Hbit. pose proof (oa_fixed _ _ _ HO) as HF.
  pose proof (wf_queue _ _ HW c) as Hq. rewrite HQ in Hq. pose proof (q_nodup _ _ _ Hq) as Hnd.
  assert (∀ x, x ≠ id → okey (ord s' x) = okey (ord s x) ∧ (ord s' x).(Order.maker) = (ord s x).(Order.maker)) as Hkm.
  { intros x Hx. rewrite Ho. unfold unlinked. rewrite decide_False by done. by repeat case_decide. }
  assert (∀ x, (ord s' x).(Order.maker) ≠ 0 → x ≠ id) as Hlive.
  { intros x Hm ->. rewrite Ho in Hm. unfold unlinked in Hm. by rewrite decide_True in Hm. }
  assert (∀ c' x, x ∈ (<[c := l1 ++ l2]> Q) c' → x ∈ Q c') as Hsub.
  { intros c' x. destruct (decide (c = c')) as [<-|]; [|by rewrite fn_lookup_insert_ne].
    rewrite fn_lookup_insert, HQ. set_solver. }
  split.
  - intros c'. destruct (decide (c = c')) as [<-|Hc]; [rewrite fn_lookup_insert|rewrite fn_lookup_insert_ne by done].
    + split; try done.
      * by apply (seg_unlink s s' c l1 id l2 Ho), Hq.
      * by apply NoDup_app in Hnd as (? & ? & [? ?]%NoDup_cons); apply NoDup_app; set_solver.
      * intros x Hx. apply (q_pos _ _ _ Hq). set_solver.
      * intros _. rewrite (fixed_initialized s s') by done. apply (q_dom _ _ _ Hq). by destruct l1.
    + apply (queue_ext s); [|by apply HO..|apply HF|by apply HW]. intros x Hx.
      assert (x ∉ l1 ++ id :: l2) as Hni by (rewrite <- HQ; by apply (wf_disjoint s Q c'); [|congruence|]).
      rewrite Ho. unfold unlinked. rewrite decide_False by (intros ->; set_solver).
      rewrite decide_False by (intros ?%last_Some_elem_of; set_solver).
      rewrite decide_False; [done|]. intros E. apply Hni. destruct l2; [done|]. injection E as ->. set_solver.
  - intros x Hm. pose proof (Hlive x Hm) as Hne. destruct (Hkm x Hne) as [-> Em]. rewrite Em in Hm. pose proof (wf_live _ _ HW x Hm) as Hx.
    destruct (decide (c = okey (ord s x))) as [E|]; [|by rewrite fn_lookup_insert_ne].
    rewrite <- E, fn_lookup_insert. rewrite <- E, HQ in Hx.
    apply elem_of_app in Hx as [?|[->|?]%elem_of_cons]; [apply elem_of_app; by left|done|apply elem_of_app; by right].
  - intros c' x Hx%Hsub. rewrite (next_id_fixed s s' HF). by apply (wf_ids _ _ HW c').
  - apply (only_at_best s s' c HO), HW.
  - apply (books_fixed s s' HF), HW.
  - intros x Hm. apply (oa_res _ _ _ HO); [done|]. destruct (Hkm x (Hlive x Hm)) as [_ E]. rewrite E in Hm. by apply HW.
Qed.

(** ** What [cancel_active_order] writes *)

Definition close_tick (c : crd) (s : Dex.State) : Dex.State :=
  let s1 := bits_at (ck c) (cb c) (ct c) false s in
  if (best s1 (ck c) (cb c) =? ct c)%Z then best_at (ck c) (cb c) (best_after s1 c) s1 else s1.

#[export] Instance clear_tick_dx o : Moves (clear_tick o) (λ _, close_tick (okey o)).
Proof.
  intros e w u w' H. unfold clear_tick in H. cbv zeta in H. m_step H. effect_in Hrun. destruct Hrun as [_ E].
  m_step H. effect_in Hrun. destruct Hrun as [-> ->]. unfold close_tick, best, best_after, next_tick.
  unfold okey in *. cbn [fst snd] in *. rewrite <- E. destruct (_ =? _)%Z; [|by apply ret_Ok in H as [_ ->]].
  m_step H. effect_in Hrun. destruct Hrun as [-> ->]. destruct (if Order.is_bid o then _ else _). by effect_in H.
Qed.
#[export] Instance refund_dx o :
  Effect (refund_escrow o) (λ _ w _ w',
    let t := escrow_token (dx w) o in
    dx w' = put_balance o.(Order.maker) t
      (bal (dx w) o.(Order.maker) t + escrow_left o o.(Order.remaining)) (dx w)).
Proof.
  intros e w u w' H. unfold refund_escrow, escrow_token, escrow_left, pair in *. dx_inv; [|done].
  match goal with H : base_to_quote _ _ Up = Some _ |- _ => apply base_to_quote_up in H as [-> _] end. done.
Qed.
#[global] Typeclasses Opaque clear_tick refund_escrow.

(** The neighbours of the order. *)
Definition unlink_prev (p n : N) (s : Dex.State) : Dex.State :=
  if p =? 0 then s else put p (Orders.record_set_next n s.(Dex.orders).[p]) s.
Definition unlink_next (p n : N) (s : Dex.State) : Dex.State :=
  if n =? 0 then s else put n (Orders.record_set_prev p s.(Dex.orders).[n]) s.
(** The level, with the new ends. *)
Definition with_ends (h t : N) (l : TickLevel.t) : Prop :=
  l.(TickLevel.head) = h ∧ l.(TickLevel.tail) = t.

Lemma cancel_run e w o u w' :
  cancel_active_order o e w = (Ok u, w') →
  let c := okey o in let p := o.(Order.prev) in let n := o.(Order.next) in
  let h := if p =? 0 then n else (lv (dx w) c).(TickLevel.head) in
  let t := if n =? 0 then p else (lv (dx w) c).(TickLevel.tail) in
  ∃ s1 s2 l,
    s1 = (if h =? 0 then close_tick c else λ s, s) (unlink_next p n (unlink_prev p n (dx w))) ∧
    (s2 = put_level (ck c) (cb c) (ct c) l s1 ∧ with_ends h t l ∨
     s2 = s1 ∧ p ≠ 0 ∧ n ≠ 0) ∧
    dx w' = put o.(Order.order_id) dflt
      (put_balance o.(Order.maker) (escrow_token s2 o)
        (bal s2 o.(Order.maker) (escrow_token s2 o) + escrow_left o o.(Order.remaining)) s2).
Proof.
  intros H c p n h t. unfold cancel_active_order in H. fold p n in H. cbv zeta in H. clearbody p n.
  m_step H. effect_in Hrun. destruct Hrun as [-> ->]. set (r := read_level _ _) in H.
  assert (with_ends (lv (dx w) c).(TickLevel.head) (lv (dx w) c).(TickLevel.tail) r) as [Eh Et].
  { unfold r, with_ends, read_level. by destruct (is_t12 _). }
  clearbody r. m_step H.
  assert (dx w0 = unlink_prev p n (dx w) ∧ with_ends h (lv (dx w) c).(TickLevel.tail) a) as [E1 Ha].
  { unfold unlink_prev, with_ends. subst h. destruct (p =? 0); cbn in Hrun.
    - by apply ret_Ok in Hrun as [-> ->].
    - m_step Hrun. apply (unlink_dx _ _ _ (write_next_dx p n)) in Hrun0. by apply ret_Ok in Hrun as [-> ->]. }
  clear Hrun Eh Et r. m_step H.
  assert (dx w1 = unlink_next p n (dx w0) ∧ with_ends h t a0) as [E2 Ha0].
  { unfold unlink_next, with_ends in *. subst h t. destruct Ha as [Eh Et]. destruct (n =? 0); cbn in Hrun.
    - by apply ret_Ok in Hrun as [-> ->].
    - m_step Hrun. apply (unlink_dx _ _ _ (write_prev_dx n p)) in Hrun0. by apply ret_Ok in Hrun as [-> ->]. }
  clear Hrun Ha a. m_step H. apply asks_Ok in Hrun as [-> ->]. m_step H. destruct a as [lev ch].
  assert (w2 = w1 ∧ with_ends h t lev ∧ (ch = false → p ≠ 0 ∧ n ≠ 0)) as (-> & [Hlh Hlt] & Hch).
  { destruct (is_t12 (spec e)).
    - apply ret_Ok in Hrun as [[= -> ->] ->]. split_and!; [done|done|]. intros [? ?]%orb_false_iff. by bool_simpl.
    - m_step Hrun. apply ok_or_Ok in Hrun0 as [_ ->]. by apply ret_Ok in Hrun as [[= -> ->] ->]. }
  clear Hrun Ha0 a0. rewrite Hlh in H. m_step H.
  assert (dx w2 = (if h =? 0 then close_tick c else λ s, s) (dx w1)) as E3.
  { destruct (h =? 0); [by effect_in Hrun|by apply ret_Ok in Hrun as [_ ->]]. }
  clear Hrun. exists (dx w2). m_step H. exists (dx w3).
  m_step H. effect_in Hrun0. m_step H. effect_in Hrun1. m_step H. effect_in Hrun2. effect_in H.
  assert (dx w' = put (Order.order_id o) dflt (dx w4)) as E4 by congruence. rewrite E4, Hrun0.
  destruct ch; [effect_in Hrun; eexists|exists lev]; (split; [by rewrite E3, E2, E1|]); (split; [|done]).
  - left. split; [exact Hrun|]. unfold with_ends, stored_level in *. by destruct (is_t12 _).
  - right. apply ret_Ok in Hrun as [_ ->]. auto.
Qed.

Lemma last_in (l : list N) x : last l = Some x → x ∈ l.
Proof. apply last_Some_elem_of. Qed.
Lemma head_in (l : list N) x : head l = Some x → x ∈ l.
Proof. destruct l; [done|]. intros [= ->]. by left. Qed.
Lemma default_0_None (o : option N) : (∀ x, o = Some x → 0 < x) → default 0 o = 0 ↔ o = None.
Proof. destruct o as [x|]; cbn; [|done]. intros H. specialize (H x eq_refl). split; [lia|done]. Qed.

Section unlinking.
Context (s : Dex.State) (c : crd) (l1 l2 : list N) (id : N).
Hypothesis Hnd : NoDup (l1 ++ id :: l2).
Hypothesis Hpos : ∀ x, x ∈ l1 ++ id :: l2 → 0 < x.
Abbreviation p := (default 0 (last l1)).
Abbreviation n := (default 0 (head l2)).
Abbreviation s2 := (unlink_next p n (unlink_prev p n s)).

Lemma prev_zero : p = 0 ↔ last l1 = None.
Proof. apply default_0_None. intros x Hx%last_in. apply Hpos. set_solver. Qed.
Lemma next_zero : n = 0 ↔ head l2 = None.
Proof. apply default_0_None. intros x Hx%head_in. apply Hpos. set_solver. Qed.

Lemma unlink_ord x :
  ord s2 x = if decide (last l1 = Some x) then Order.set_next (λ _, n) (ord s x)
             else if decide (head l2 = Some x) then Order.set_prev (λ _, p) (ord s x) else ord s x.
Proof.
  pose proof prev_zero as Hp. pose proof next_zero as Hn.
  assert (∀ y, last l1 = Some y → head l2 ≠ Some y) as Hd.
  { intros y Hy%last_in Hy'%head_in. apply NoDup_app in Hnd as (_ & Hd & _). apply (Hd y Hy). by right. }
  assert (∀ x, ord (unlink_prev p n s) x =
    if decide (last l1 = Some x) then Order.set_next (λ _, n) (ord s x) else ord s x) as H1.
  { intros y. unfold unlink_prev. destruct (N.eqb_spec p 0) as [E|E].
    - rewrite decide_False; [done|]. apply Hp in E. by rewrite E.
    - views. destruct (last l1) as [z|]; [|by destruct E]. cbn. destruct (decide (z = y)) as [->|].
      + rewrite decide_True by done. by rewrite decode_set_next.
      + by rewrite decide_False by congruence. }
  unfold unlink_next. destruct (N.eqb_spec n 0) as [E|E].
  - rewrite H1. apply Hn in E. rewrite E. by repeat case_decide.
  - views. destruct (head l2) as [z|] eqn:Hz; [|by destruct E]. cbn. destruct (decide (z = x)) as [->|Hne].
    + rewrite decode_set_prev. fold (ord (unlink_prev p x s) x).
      change (decode (Dex.book_keys (unlink_prev p x s)) x (Dex.orders (unlink_prev p x s)).[x])
        with (ord (unlink_prev p x s) x).
      rewrite (H1 x : ord (unlink_prev p x s) x = _).
      destruct (decide (last l1 = Some x)) as [Hx|]; [by destruct (Hd x Hx)|]. by rewrite decide_True.
    + rewrite (H1 x : ord (unlink_prev p z s) x = _).
      destruct (decide (last l1 = Some x)); [done|]. by rewrite decide_False by congruence.
Qed.
Lemma unlink_same :
  fixed s s2 ∧ s2.(Dex.balances) = s.(Dex.balances) ∧ (∀ c, lv s2 c = lv s c) ∧ (∀ c, bt s2 c = bt s c) ∧
  (∀ k b, best s2 k b = best s k b) ∧ ∀ x, resolvable s x → resolvable s2 x.
Proof.
  assert (∀ r y f x, (∀ v, (∃ v', f (OrderRecord.V2 v) = OrderRecord.V2 v' ∧
      v'.(V2Order.book_index) = v.(V2Order.book_index))) →
    (∀ r', match r' with OrderRecord.V2 _ => True | _ =>
       match f r' with OrderRecord.V2 _ => False | _ => True end end) →
    resolvable r x → resolvable (put y (f r.(Dex.orders).[y]) r) x) as Hres.
  { intros r y f x Hf Hf' Hr. rewrite resolvable_put. destruct (decide (y = x)) as [->|]; [|done].
    unfold resolvable in Hr. specialize (Hf' (Dex.orders r).[x]). destruct ((Dex.orders r).[x]) as [o|v|v] eqn:E.
    - by destruct (f _).
    - by destruct (f _).
    - destruct (Hf v) as (v' & -> & ->). done. }
  unfold unlink_next, unlink_prev. destruct (p =? 0), (n =? 0).
  all: split_and!; try done; try by_fixed.
  all: intros x Hr; repeat (apply Hres; [by eexists|by intros []|]); done.
Qed.

(** The ends of the queue without the order. *)
Lemma new_head : queue s c (l1 ++ id :: l2) →
  (if p =? 0 then n else (lv s c).(TickLevel.head)) = default 0 (head (l1 ++ l2)).
Proof.
  intros Hq. rewrite (q_head _ _ _ Hq). destruct (N.eqb_spec p 0) as [E|E].
  - apply prev_zero, last_None in E. by rewrite E.
  - by destruct l1.
Qed.
Lemma new_tail : queue s c (l1 ++ id :: l2) →
  (if n =? 0 then p else (lv s c).(TickLevel.tail)) = default 0 (last (l1 ++ l2)).
Proof.
  intros Hq. rewrite (q_tail _ _ _ Hq). destruct (N.eqb_spec n 0) as [E|E].
  - apply next_zero in E. destruct l2; [|done]. by rewrite app_nil_r.
  - destruct l2 as [|y l2']; [done|]. rewrite !last_app, !last_cons. by destruct (last l2').
Qed.
Lemma ends_zero : default 0 (head (l1 ++ l2)) = 0 ↔ l1 ++ l2 = [].
Proof.
  rewrite default_0_None; [by destruct (l1 ++ l2)|]. intros x Hx%head_in. apply Hpos. set_solver.
Qed.
End unlinking.

(** Closing the tick of the last order. *)
Lemma close_tick_views s c :
  let s' := close_tick c s in
  fixed s s' ∧ s'.(Dex.balances) = s.(Dex.balances) ∧ (∀ x, ord s' x = ord s x) ∧
  (∀ c', lv s' c' = lv s c') ∧ (∀ c', bt s' c' = if decide (c' = c) then false else bt s c') ∧
  (∀ k b, (k, b) ≠ (ck c, cb c) → best s' k b = best s k b) ∧ (∀ x, resolvable s x → resolvable s' x) ∧
  (best_ok s (ck c) (cb c) → bt s c = true →
   (∀ t', bt s (ck c, cb c, t') = true → in_tick_range t' = true) → best_ok s' (ck c) (cb c)).
Proof.
  destruct c as [[k b] t]. unfold close_tick. cbn [fst snd]. set (s1 := bits_at k b t false s). cbv zeta.
  assert (∀ c', bt s1 c' = if decide (c' = (k, b, t)) then false else bt s c') as Hbt.
  { intros c'. subst s1. views. destruct (decide (c' = (k, b, t))) as [->|]; [by rewrite decide_True|].
    by rewrite decide_False by congruence. }
  set (s' := if (best s1 k b =? t)%Z then best_at k b (best_after s1 (k, b, t)) s1 else s1).
  assert (∀ c', bt s' c' = bt s1 c') as Hbt' by (intros c'; subst s'; if_cases; by views).
  split_and!; try (subst s' s1; if_cases; done || by_fixed || (intros ?; by views)).
  - intros c'. by rewrite Hbt', Hbt.
  - intros k' b' Hne. subst s' s1. if_cases; views; try done. by rewrite decide_False by congruence.
  - intros Hok Ht Hrg. apply (best_ok_clear s s1 s' k b t); try done.
    + intros t'. rewrite Hbt. destruct (decide (t' = t)) as [->|]; [by rewrite decide_True|].
      by rewrite decide_False by congruence.
    + assert (best s1 k b = best s k b) as Eb by (subst s1; by views).
      subst s'. rewrite Eb. destruct (Z.eqb_spec (best s k b) t) as [E|E].
      * rewrite decide_True by done. views. by rewrite decide_True.
      * rewrite decide_False by done. done.
Qed.

(** ** The cancellation *)

Record cancelled (s s' : Dex.State) (id : N) : Prop := Cancelled {
  cn_touched : touched s s' id;
  cn_gone : (ord s' id).(Order.maker) = 0;
  cn_money :
    let o := ord s id in let t := escrow_token s o in
    s'.(Dex.balances) =
    <[(o.(Order.maker), t) := bal s o.(Order.maker) t + escrow_left o o.(Order.remaining)]> s.(Dex.balances)
}.

(** The books up to the write of the level. *)
Lemma unlinked_views s Q c l1 l2 id :
  book_wf s Q → Q c = l1 ++ id :: l2 →
  let p := default 0 (last l1) in let n := default 0 (head l2) in let h := default 0 (head (l1 ++ l2)) in
  let s1 := (if h =? 0 then close_tick c else λ s, s) (unlink_next p n (unlink_prev p n s)) in
  only_at s s1 c ∧ s1.(Dex.balances) = s.(Dex.balances) ∧ (∀ c', lv s1 c' = lv s c') ∧
  (∀ x, x ≠ id → ord s1 x = unlinked l1 l2 id (ord s) x) ∧ (bt s1 c = true ↔ l1 ++ l2 ≠ []).
Proof.
  intros HW HQ. cbv zeta. pose proof (wf_queue _ _ HW c) as Hq. rewrite HQ in Hq.
  pose proof (q_nodup _ _ _ Hq) as Hnd. pose proof (q_pos _ _ _ Hq) as Hpos.
  pose proof (ends_zero l1 l2 id Hnd Hpos) as Hz. pose proof (unlink_ord s l1 l2 id Hnd Hpos) as Ho.
  destruct (unlink_same s l1 l2) as (HF & Eb & Elv & Ebt & Ebest & Hres).
  set (s0 := unlink_next _ _ (unlink_prev _ _ s)) in *. clearbody s0.
  assert (bt s c = true) as Hbit by (apply (q_bit _ _ _ Hq); by destruct l1).
  assert (best_ok s0 (ck c) (cb c)) as Hbest.
  { apply (best_ok_ext s); [done|done|]. apply HW. apply (q_dom _ _ _ Hq). by destruct l1. }
  assert (∀ x, x ≠ id → ord s0 x = unlinked l1 l2 id (ord s) x) as Ho'.
  { intros x Hx. rewrite Ho. unfold unlinked. by destruct (decide (x = id)). }
  destruct (N.eqb_spec (default 0 (head (l1 ++ l2))) 0) as [E|E]; cbv zeta.
  - destruct (close_tick_views s0 c) as (HF' & Eb' & Eo' & Elv' & Ebt' & Ebest' & Hres' & Hok').
    split_and!; [split|..].
    + by transitivity s0.
    + intros c' Hc. by rewrite Elv', Elv.
    + intros c' Hc. rewrite Ebt', Ebt. by rewrite decide_False.
    + intros k b Hne. by rewrite Ebest', Ebest.
    + intros _. apply Hok'; [done|by rewrite Ebt|]. intros t'. rewrite Ebt. intros Ht'.
      pose proof (wf_queue _ _ HW (ck c, cb c, t')) as Hq'. by apply (q_dom _ _ _ Hq'), (q_bit _ _ _ Hq').
    + auto.
    + congruence.
    + intros c'. by rewrite Elv', Elv.
    + intros x Hx. rewrite Eo'. auto.
    + rewrite Ebt', decide_True by done. split; [done|]. intros Hne. by apply Hz in E.
  - split_and!; [split; auto|auto..|].
    rewrite Ebt, Hbit. split; [|done]. intros _ En. by apply E, Hz.
Qed.

(** Up to the deletion of the order. *)
Lemma releveled s s1 s2 c l h t :
  only_at s s1 c → (∀ c', lv s1 c' = lv s c') →
  (s2 = put_level (ck c) (cb c) (ct c) l s1 ∧ with_ends h t l ∨ s2 = s1 ∧ with_ends h t (lv s c)) →
  only_at s s2 c ∧ (∀ x, ord s2 x = ord s1 x) ∧ bt s2 c = bt s1 c ∧ with_ends h t (lv s2 c) ∧
  s2.(Dex.balances) = s1.(Dex.balances).
Proof.
  intros [HF Hlv Hbt Hb Hok Hres] Elv [[-> Hl]|[-> Hl]].
  2: { split_and!; try done. by rewrite Elv. }
  destruct c as [[k b] t']. cbn [fst snd] in *. split_and!; [split|..]; cbn [fst snd]; try done.
  - transitivity s1; [done|]. by_fixed.
  - intros c' Hc. views. rewrite decide_False by congruence. auto.
  - intros c' Hc. views. auto.
  - intros k' b' Hne. views. auto.
  - intros Hk. apply (best_ok_ext s1); [by views|intros; by views|auto].
  - by views.
  - views. by rewrite decide_True.
Qed.
Lemma deleted_only_at s s2 c id u t n :
  only_at s s2 c → only_at s (put id dflt (put_balance u t n s2)) c.
Proof.
  intros [HF Hlv Hbt Hb Hok Hres]. split.
  - transitivity s2; [done|]. by_fixed.
  - intros c' Hc. views. auto.
  - intros c' Hc. views. auto.
  - intros k b Hne. views. auto.
  - intros Hk. apply (best_ok_ext s2); [by views|intros; by views|auto].
  - intros x Hm Hr. rewrite resolvable_put. destruct (decide (id = x)) as [->|Hne]; [done|].
    rewrite ord_put, decide_False in Hm by done. by apply Hres.
Qed.

Lemma cancel_spec e w id u w' Q :
  cancel_active_order (ord (dx w) id) e w = (Ok u, w') → book_wf (dx w) Q →
  (ord (dx w) id).(Order.maker) ≠ 0 →
  ∃ c l1 l2, Q c = l1 ++ id :: l2 ∧ book_wf (dx w') (<[c := l1 ++ l2]> Q) ∧ cancelled (dx w) (dx w') id.
Proof.
  intros H HW Hm. set (o := ord (dx w) id) in *. pose proof (wf_live _ _ HW id Hm) as Hin. fold o in Hin.
  apply list_elem_of_split in Hin as (l1 & l2 & HQ). exists (okey o), l1, l2. split; [done|].
  pose proof (wf_queue _ _ HW (okey o)) as Hq. rewrite HQ in Hq.
  pose proof (q_nodup _ _ _ Hq) as Hnd. pose proof (q_pos _ _ _ Hq) as Hpos.
  assert (resting (dx w) (okey o) id) as Hr by (apply (queue_resting _ _ _ _ Hq); set_solver).
  destruct (seg_split _ _ _ _ _ _ _ (q_seg _ _ _ Hq)) as (Ep & En & _). fold o in Ep, En.
  apply cancel_run in H. cbv zeta in H. rewrite Ep, En in H.
  rewrite (new_head (dx w) (okey o) l1 l2 id), (new_tail (dx w) (okey o) l1 l2 id) in H by done.
  destruct (unlinked_views (dx w) Q (okey o) l1 l2 id HW HQ) as (HO & Eb & Elv & Eo & Ebit).
  destruct H as (s1 & s2 & l & E1 & E2 & E3). rewrite <- E1 in *. clear E1.
  destruct (releveled (dx w) s1 s2 (okey o) l (default 0 (head (l1 ++ l2))) (default 0 (last (l1 ++ l2))))
    as (HO2 & Eo2 & Ebt2 & [Hh Ht] & Eb2); [done|done| |].
  { destruct E2 as [?|[-> [Hp Hn]]]; [by left|right]. split; [done|].
       rewrite <- (new_head (dx w) (okey o) l1 l2 id), <- (new_tail (dx w) (okey o) l1 l2 id) by done.
       by rewrite (proj2 (N.eqb_neq _ _) Hp), (proj2 (N.eqb_neq _ _) Hn). }
  rewrite (rs_id _ _ _ Hr : Order.order_id o = id) in E3. rewrite E3. set (s' := put id dflt _).
  assert (∀ x, ord s' x = unlinked l1 l2 id (ord (dx w)) x) as Eo'.
  { intros x. subst s'. views. unfold unlinked at 1. destruct (decide (id = x)) as [->|Hne]; [by rewrite decide_True|].
    rewrite Eo2, Eo by done. done. }
  pose proof (deleted_only_at _ _ _ id (Order.maker o) (escrow_token s2 o)
    (bal s2 (Order.maker o) (escrow_token s2 o) + escrow_left o (Order.remaining o)) HO2) as HO'. fold s' in HO'.
  split.
  - apply (wf_remove (dx w) s' Q (okey o) l1 id l2); subst s'; views; try done. by rewrite Ebt2.
  - split.
    + split; [apply HO'|]. intros x Hx. rewrite Eo'. unfold unlinked. rewrite decide_False by done. by repeat case_decide.
    + rewrite Eo'. unfold unlinked. by rewrite decide_True.
    + cbv zeta. fold o. subst s'. cbn. unfold escrow_token. rewrite (fx_pair _ _ (oa_fixed _ _ _ HO2)), Eb2, Eb. done.
Qed.

(** What the exchange owes does not change: the escrow becomes a balance. *)
Lemma cancelled_liabilities s s' id t :
  cancelled s s' id → (ord s id).(Order.maker) ≠ 0 → (ord s id).(Order.order_id) = id →
  liabilities s' t = liabilities s t.
Proof.
  intros [HT Hg HM] Hm Hid. pose proof (locked_change s s' t id HT) as HL.
  rewrite (escrow_in_live s t _ Hm) in HL. pose proof (owed_credit s s' _ _ _ t HM) as H1.
  assert (escrow_in s t (ord s' id) = 0) as E by (unfold escrow_in; by rewrite decide_True).
  rewrite E in HL. unfold liabilities, at_token in *. lia.
Qed.


End DexCancel.
