(* ===== verification/DexWalk.v ===== *)
(** * Walking a book

    Swaps and quotes walk the resting orders of one side of a book through
    [walk_resting_orders]. [take_orders] is the same computation on a plain list of
    orders; both walks compute it on the list of the book in price-time order. *)

From stdpp Require Import functions.
From S2P Require Import Prelude Packing Hardfork Address Errors DexState State Monad.
From S2P Require Import StorageCredits DexOrder DexBook DexMath DexBitmap AddressRegistry Tip20Base.
From S2P Require Import Keychain KeychainSpec Tip403 Tip20Core Guard Tip20 Dex Tip20Frame DexFrame.
From S2P Require Import DexView DexQueue DexInv DexFill DexLedger.

Module DexWalk.
Import Book DexOps DexMath DexBitmap DexView DexQueue DexCommit DexInv DexFill DexLedger.

Abbreviation stepper := (N → Order.t → bool → option OrderStep).

Definition insufficient_liquidity : TempoPrecompileError := dexE StablecoinDEXError.InsufficientLiquidity.

Fixpoint take_orders (step : stepper) (b : bool) (amount total : N) (os : list Order.t) : outcome N :=
  match os with
  | [] => if amount =? 0 then Ok total else Err insufficient_liquidity
  | o :: os' =>
      if amount =? 0 then Ok total
      else
        match step amount o b with
        | None => Err under_overflow
        | Some s =>
            match checked_add U128_MAX total s.(accumulate) with
            | None => Err under_overflow
            | Some total =>
                if s.(fill_amount) <? o.(Order.remaining) then Ok total
                else take_orders step b s.(next_amount) total os'
            end
        end
  end.
(** An empty book serves nobody, not even for an amount of zero. *)
Definition take_book (step : stepper) (b : bool) (amount : N) (os : list Order.t) : outcome N :=
  match os with [] => Err insufficient_liquidity | _ => take_orders step b amount 0 os end.

Definition resting_orders (s : Dex.State) (Q : queues) (k : B256) (b : bool) : list Order.t :=
  (λ id, payload (ord s id)) <$> book_list Q k b.

(** The two steps do not look at the links. *)
Class LinkFree (step : stepper) : Prop := link_free : ∀ n o b, step n (payload o) b = step n o b.
#[export] Instance step_exact_in_free : LinkFree step_exact_in.
Proof. by intros n o b. Qed.
#[export] Instance step_exact_out_free : LinkFree step_exact_out.
Proof. by intros n o b. Qed.

(** ** The order after an order *)

(** A search from [t] finds the first tick behind it with orders. *)
Lemma orders_after s (Q : queues) k b t :
  (∀ t', bt s (k, b, t') = true ↔ Q (k, b, t') ≠ []) →
  let after t := ticks_after b t ≫= λ t', Q (k, b, t') in
  let '(r, found) := next_tick s (k, b, t) in
  if found then Q (k, b, r) ≠ [] ∧ after t = Q (k, b, r) ++ after r else after t = [].
Proof.
  intros Hq. unfold next_tick, ticks_after. cbn [fst snd].
  assert (∀ t', tick_set (bitmap b (book s k)) t' = false → Q (k, b, t') = []) as Hnil.
  { intros t' H. destruct (Q (k, b, t')) eqn:E; [done|]. assert (bt s (k, b, t') = true) as Hb by (apply Hq; congruence).
    unfold bt, bit in Hb. cbn in Hb. congruence. }
  destruct b.
  - pose proof (next_bid_spec (bitmap true (book s k)) t) as Hs. cbv zeta in Hs.
    destruct (next_initialized_bid_tick _ _) as [r [|]]; cbn [fst snd] in *.
    + destruct Hs as (Hr & Hset & Hcl). split; [by apply Hq|]. rewrite (seqZ_split MIN_TICK _ r) by lia.
      rewrite reverse_app, reverse_cons, <- app_assoc, bind_app. rewrite bind_nil; [done|].
      intros t' Ht'%elem_of_reverse%elem_of_seqZ. apply Hnil, Hcl. lia.
    + apply bind_nil. intros t' Ht'%elem_of_reverse%elem_of_seqZ. apply Hnil, Hs. lia.
  - pose proof (next_ask_spec (bitmap false (book s k)) t) as Hs. cbv zeta in Hs.
    destruct (next_initialized_ask_tick _ _) as [r [|]]; cbn [fst snd] in *.
    + destruct Hs as (Hr & Hset & Hcl). split; [by apply Hq|]. rewrite (seqZ_split (t + 1) _ r) by lia.
      rewrite bind_app. rewrite bind_nil; [cbn; do 3 f_equal; lia|].
      intros t' Ht'%elem_of_seqZ. apply Hnil, Hcl. lia.
    + apply bind_nil. intros t' Ht'%elem_of_seqZ. apply Hnil, Hs. lia.
Qed.

Lemma NoDup_ticks b : NoDup (ticks b).
Proof. unfold ticks. destruct b; [rewrite reverse_Permutation|]; apply NoDup_seqZ. Qed.
Lemma NoDup_book_list s Q k b : book_wf s Q → NoDup (book_list Q k b).
Proof.
  intros HW. apply NoDup_bind; [|intros t _; apply (q_nodup _ _ _ (wf_queue _ _ HW (k, b, t)))|apply NoDup_ticks].
  intros t1 t2 x _ _ H1 H2.
  pose proof (queue_disjoint s (k, b, t1) (k, b, t2) _ _ x (wf_queue _ _ HW _) (wf_queue _ _ HW _) H1 H2). congruence.
Qed.
Lemma elem_of_book_list s Q k b x : book_wf s Q → x ∈ book_list Q k b ↔ ∃ t, x ∈ Q (k, b, t).
Proof.
  intros HW. unfold book_list. rewrite list_elem_of_bind. split.
  - intros (t & ? & ?). eauto.
  - intros (t & Hx). exists t. split; [done|].
    destruct (q_dom _ _ _ (wf_queue _ _ HW (k, b, t))) as [Hr _]; [by intros E; rewrite E in Hx; apply elem_of_nil in Hx|].
    destruct (ticks_split b t Hr) as (T1 & -> & _). set_solver.
Qed.

Lemma split_unique {A} (x : A) l1 l2 m1 m2 :
  l1 ++ x :: l2 = m1 ++ x :: m2 → NoDup (l1 ++ x :: l2) → l2 = m2.
Proof.
  intros E Hnd. pose proof Hnd as Hnd'. rewrite E in Hnd'.
  apply NoDup_app in Hnd as (_ & H1 & _). apply NoDup_app in Hnd' as (_ & H2 & _).
  apply app_eq_inv in E as [(k & -> & Hk)|(k & -> & Hk)]; destruct k as [|y k]; cbn in Hk; injection Hk; try done.
  - intros _ <-. exfalso. apply (H1 x); set_solver.
  - intros _ <-. exfalso. apply (H2 x); set_solver.
Qed.

(** The order linked or found behind an order is the next of the list. *)
Lemma list_after s Q k b id L1 L2 :
  book_wf s Q → book_list Q k b = L1 ++ id :: L2 →
  ∃ t m1 m2, Q (k, b, t) = m1 ++ id :: m2 ∧ L2 = m2 ++ (ticks_after b t ≫= λ t', Q (k, b, t')).
Proof.
  intros HW HL. assert (id ∈ book_list Q k b) as Hx by (rewrite HL; set_solver).
  apply (elem_of_book_list s) in Hx as [t Hx]; [|done].
  destruct (q_dom _ _ _ (wf_queue _ _ HW (k, b, t))) as [Hr _]; [by intros E; rewrite E in Hx; apply elem_of_nil in Hx|].
  apply list_elem_of_split in Hx as (m1 & m2 & HQ). exists t, m1, m2. split; [done|].
  destruct (ticks_split b t Hr) as (T1 & ET & _).
  apply (split_unique id L1 _ ((T1 ≫= λ t', Q (k, b, t')) ++ m1) _).
  - rewrite <- HL. unfold book_list. rewrite ET, bind_app. cbn. rewrite HQ, <- !app_assoc. done.
  - rewrite <- HL. by apply (NoDup_book_list s).
Qed.

(** ** Running the reads *)

Lemma bind_run {A B} (m : M A) (f : A → M B) e w a w1 :
  m e w = (Ok a, w1) → (m ≫= f) e w = f a e w1.
Proof. unfold mbind, M_bind. by intros ->. Qed.
Lemma bind_fail {A B} (m : M A) (f : A → M B) e w x w1 :
  m e w = (Err x, w1) → (m ≫= f) e w = (Err x, w1).
Proof. unfold mbind, M_bind. by intros ->. Qed.
Lemma read_in_book_run id k e w :
  Orders.read_in_book id k e w = (Ok (ord_in (dx w) id k), w).
Proof.
  unfold Orders.read_in_book, Orders.read_with_book_key, Orders.load, ord_in.
  rewrite (bind_run _ _ e w (Dex.orders (w_dex w)).[id] w) by done.
  change (Dex.orders (dx w)) with (Dex.orders (w_dex w)). by destruct (Dex.orders (w_dex w)).[id].
Qed.
Lemma read_book_run k e w : read_book k e w = (Ok (book (dx w) k), w).
Proof. done. Qed.
Lemma level_read_run k t b e w :
  level_read k t b e w = (Ok (read_level (spec e) (lv (dx w) (k, b, t))), w).
Proof. done. Qed.
Lemma next_tick_run k t b e w : next_initialized_tick k t b e w = (Ok (next_tick (dx w) (k, b, t)), w).
Proof. unfold next_tick. by destruct b. Qed.
Lemma read_level_head sp l : (read_level sp l).(TickLevel.head) = l.(TickLevel.head).
Proof. unfold read_level. by destruct (is_t12 sp). Qed.

(** ** The next order of a quote *)

Lemma queue_member_key s Q k b t id : book_wf s Q → id ∈ Q (k, b, t) → (ord s id).(Order.book_key) = k.
Proof. intros HW Hx. pose proof (queue_key s _ _ id (wf_queue _ _ HW _) Hx) as Hk. by injection Hk. Qed.

Lemma next_order_after_run e w Q k b id L1 L2 :
  book_wf (dx w) Q → book_list Q k b = L1 ++ id :: L2 →
  next_order_after k (ord (dx w) id) b e w = (Ok (ord (dx w) <$> head L2), w).
Proof.
  intros HW HL. destruct (list_after _ _ _ _ _ _ _ HW HL) as (t & m1 & m2 & HQ & ->).
  pose proof (wf_queue _ _ HW (k, b, t)) as Hq. rewrite HQ in Hq.
  assert (resting (dx w) (k, b, t) id) as Hr by (apply (queue_resting _ _ _ _ Hq); set_solver).
  destruct (seg_split _ _ _ _ _ _ _ (q_seg _ _ _ Hq)) as (_ & Hn & _).
  assert (Order.tick (ord (dx w) id) = t) as Ht by (pose proof (rs_key _ _ _ Hr) as Hk; by injection Hk).
  unfold next_order_after. rewrite Hn, Ht. destruct m2 as [|y m2]; cbn.
  - rewrite (bind_run _ _ _ _ _ _ (next_tick_run k t b e w)).
    pose proof (orders_after (dx w) Q k b t (λ t', q_bit _ _ _ (wf_queue _ _ HW (k, b, t')))) as Ho.
    cbv zeta in Ho. destruct (next_tick (dx w) (k, b, t)) as [r [|]] eqn:Ent; cbn; [|by rewrite Ho].
    destruct Ho as [Hne ->].
    rewrite (bind_run _ _ _ _ _ _ (level_read_run k r b e w)).
    rewrite (bind_run _ _ _ _ _ _ (read_in_book_run _ k e w)). rewrite read_level_head.
    rewrite (q_head _ _ _ (wf_queue _ _ HW (k, b, r))).
    destruct (Q (k, b, r)) as [|y m] eqn:EQ; [done|]. cbn.
    rewrite ord_in_ord; [done|]. apply (queue_member_key _ Q k b r); [done|]. rewrite EQ. by left.
  - assert (0 < y) by (apply (q_pos _ _ _ Hq); set_solver).
    rewrite (proj2 (N.eqb_neq y 0)) by lia. cbn.
    rewrite (bind_run _ _ _ _ _ _ (read_in_book_run y k e w)).
    rewrite ord_in_ord; [done|]. apply (queue_member_key _ Q k b t); [done|]. rewrite HQ. set_solver.
Qed.

(** ** Quotes *)

Definition lift (r : outcome N) : outcome (N * ()) :=
  match r with Ok n => Ok (n, ()) | Err x => Err x end.
Definition quote_settle (k : B256) (b : bool) (st : ()) (o : Order.t) (fill : Fill) : M (option Order.t * ()) :=
  match fill with
  | Partial _ => mret (None, st)
  | Full => n ← next_order_after k o b; mret (n, st)
  end.

Section quotes.
Context (step : stepper) `{!LinkFree step} (e : Env) (w : World) (Q : queues) (k : B256) (b : bool).
Hypothesis HW : book_wf (dx w) Q.
Abbreviation orders l := ((λ id, payload (ord (dx w) id)) <$> l).

Lemma quote_walk_run fuel amount total L1 id L2 :
  book_list Q k b = L1 ++ id :: L2 → (length L2 < fuel)%nat →
  walk_loop fuel (ord (dx w) id) amount b step (quote_settle k b) total () e w =
  (lift (take_orders step b amount total (orders (id :: L2))), w).
Proof.
  revert fuel amount total L1 id. induction L2 as [|y L2 IH]; intros fuel amount total L1 id HL Hf;
    (destruct fuel as [|fuel]; [cbn in Hf; lia|]); cbn [walk_loop fmap list_fmap take_orders];
    (destruct (N.eqb_spec amount 0) as [->|Hne]; [done|]); rewrite link_free;
    (destruct (step amount (ord (dx w) id) b) as [st|]; [|done]);
    rewrite (bind_run _ _ e w st w) by done;
    pose proof (next_order_after_run e w Q k b id L1 _ HW HL) as Hnext;
    change (Order.remaining (payload (ord (dx w) id))) with (Order.remaining (ord (dx w) id));
    (destruct (fill_amount st <? Order.remaining (ord (dx w) id)) eqn:Hlt;
     [rewrite (bind_run _ _ e w (None, ()) w) by done; cbv iota beta; by destruct (checked_add _ _ _)|]);
    rewrite (bind_run _ _ e w (ord (dx w) <$> _, ()) w)
      by (cbn [quote_settle]; by rewrite (bind_run _ _ _ _ _ _ Hnext));
    cbv iota beta; (destruct (checked_add _ _ _) as [tot|]; [|done]);
    rewrite (bind_run _ _ e w tot w) by done; cbn [head fmap option_fmap option_map].
  - cbn [take_orders]. by destruct (next_amount st =? 0).
  - rewrite (IH fuel (next_amount st) tot (L1 ++ [id]) y); [done| |cbn in Hf; lia]. by rewrite <- app_assoc.
Qed.

(** Every order of the book has a record. *)
Lemma book_list_size : (length (book_list Q k b) ≤ size (Dex.orders (w_dex w)))%nat.
Proof.
  transitivity (size (list_to_set (book_list Q k b) : gset N)).
  { rewrite size_list_to_set; [done|]. by apply (NoDup_book_list (dx w)). }
  rewrite <- size_dom. apply subseteq_size. intros x Hx%elem_of_list_to_set.
  apply (elem_of_book_list (dx w)) in Hx as [t Hx]; [|done].
  pose proof (rs_maker _ _ _ (queue_resting _ _ _ _ (wf_queue _ _ HW _) Hx)) as Hm.
  apply elem_of_dom. apply not_eq_None_Some. intros En. apply Hm. unfold ord.
  change (Dex.orders (dx w)) with (Dex.orders (w_dex w)). unfold sread. rewrite En. done.
Qed.

Lemma best_level_run :
  initialized (dx w) k →
  get_best_price_level k b e w =
  (if decide (best (dx w) k b = no_tick b) then Err insufficient_liquidity
   else Ok (read_level (spec e) (lv (dx w) (k, b, best (dx w) k b))), w).
Proof.
  intros Hk. unfold get_best_price_level. rewrite (bind_run _ _ _ _ _ _ (read_book_run k e w)).
  change (if b then Orderbook.best_bid_tick (book (dx w) k) else Orderbook.best_ask_tick (book (dx w) k))
    with (best (dx w) k b). fold (no_tick b).
  destruct (decide (best (dx w) k b = no_tick b)) as [E|E].
  - rewrite E, Z.eqb_refl. done.
  - rewrite (proj2 (Z.eqb_neq _ _) E). cbn. apply level_read_run.
Qed.

Lemma quote_run amount :
  initialized (dx w) k →
  quote_per_order k amount b step e w = (take_book step b amount (resting_orders (dx w) Q k b), w).
Proof.
  intros Hk. unfold quote_per_order. pose proof (cursor_best (spec e) (dx w) Q k b HW Hk) as Hc.
  pose proof (best_level_run Hk) as Hbl. unfold cursor, resting_orders in *.
  destruct (decide (best (dx w) k b = no_tick b)) as [E|E].
  - rewrite (bind_fail _ _ _ _ _ _ Hbl). by destruct (book_list Q k b).
  - rewrite (bind_run _ _ _ _ _ _ Hbl). rewrite (bind_run _ _ _ _ _ _ (read_in_book_run _ k e w)).
    rewrite read_level_head. destruct (book_list Q k b) as [|id L] eqn:HL; [done|]. cbv zeta in Hc.
    injection Hc as _ Ho. rewrite <- Ho.
    assert (walk_resting_orders (ord (dx w) id) amount b step (quote_settle k b) () e w =
            (lift (take_orders step b amount 0 (orders (id :: L))), w)) as Hwalk.
    { unfold walk_resting_orders. rewrite (bind_run _ _ e w (size (Dex.orders (w_dex w)) + 2)%nat w) by done.
      apply (quote_walk_run _ amount 0 [] id L); [done|]. pose proof book_list_size as Hs. rewrite HL in Hs.
      cbn in Hs. lia. }
    cbn [take_book fmap list_fmap] in *. destruct (take_orders _ _ _ _ _) as [n|x].
    + exact (bind_run _ _ _ _ _ _ Hwalk).
    + exact (bind_fail _ _ _ _ _ _ Hwalk).
Qed.
End quotes.

(** ** Swaps *)

(** What a swap on the book [k] leaves alone. *)
Record swapped (s s' : Dex.State) (Q Q' : queues) (k : B256) : Prop := Swapped {
  sw_wf : book_wf s' Q';
  sw_fixed : fixed s s';
  sw_other : ∀ k' b, k' ≠ k → resting_orders s' Q' k' b = resting_orders s Q k' b
}.
Lemma swapped_refl s Q k : book_wf s Q → swapped s s Q Q k.
Proof. by split. Qed.
Lemma swapped_trans s1 s2 s3 Q1 Q2 Q3 k :
  swapped s1 s2 Q1 Q2 k → swapped s2 s3 Q2 Q3 k → swapped s1 s3 Q1 Q3 k.
Proof.
  intros [_ HF1 HO1] [HW HF2 HO2]. split; [done|by transitivity s2|]. intros k' b Hk. by rewrite HO2, HO1.
Qed.

Definition token_in (s : Dex.State) (k : B256) (b : bool) : Address :=
  if b then (pair s k).1.1 else (pair s k).1.2.
Definition token_out (s : Dex.State) (k : B256) (b : bool) : Address :=
  if b then (pair s k).1.2 else (pair s k).1.1.

(** The amounts a walk takes and gives, depending on which side is exact. *)
Class FairStep (step : stepper) (exact_in : bool) : Prop := fair_step : ∀ amount o s,
  in_tick_range o.(Order.tick) = true → step amount o o.(Order.is_bid) = Some s →
  step_ok o amount s (if exact_in then taken_in amount s else taken_out s)
    (if exact_in then given_in s else given_out amount s).
#[export] Instance step_exact_in_fair : FairStep step_exact_in true.
Proof. intros amount o s. apply step_exact_in_ok. Qed.
#[export] Instance step_exact_out_fair : FairStep step_exact_out false.
Proof. intros amount o s. apply step_exact_out_ok. Qed.

Lemma touched_other s s' Q Q' k o c :
  touched s s' o.(Order.order_id) → book_wf s Q → resting s c o.(Order.order_id) → ck c = k →
  (∀ k' b, k' ≠ k → book_list Q' k' b = book_list Q k' b) →
  ∀ k' b, k' ≠ k → resting_orders s' Q' k' b = resting_orders s Q k' b.
Proof.
  intros [_ HP] HW Hr Hk HO k' b Hne. unfold resting_orders. rewrite HO by done.
  apply list_fmap_ext. intros i x Hx%list_elem_of_lookup_2. apply HP. intros ->.
  apply (elem_of_book_list s) in Hx as [t Hx]; [|done].
  pose proof (queue_key _ _ _ _ (wf_queue _ _ HW _) Hx) as E1. rewrite (rs_key _ _ _ Hr) in E1. by subst c.
Qed.

Lemma filled_swapped s s' Q Q' k b o c :
  filled s s' Q Q' k b o → book_wf s Q → resting s c o.(Order.order_id) → ck c = k →
  swapped s s' Q Q' k.
Proof.
  intros HF HW Hr Hk. split; [apply HF|apply HF|].
  eapply touched_other; [apply HF|done|done|done|apply HF].
Qed.
Lemma part_filled_swapped s s' Q k o n c :
  part_filled s s' Q o n → book_wf s Q → resting s c o.(Order.order_id) → ck c = k →
  swapped s s' Q Q k.
Proof.
  intros HF HW Hr Hk. split; [apply HF|apply HF|]. by eapply touched_other; [apply HF|done|done|done|].
Qed.

(** The orders left after a full fill. *)
Lemma filled_resting s s' Q Q' k b o :
  filled s s' Q Q' k b o → book_wf s Q → o = ord s o.(Order.order_id) →
  resting_orders s Q k b = payload o :: resting_orders s' Q' k b.
Proof.
  intros HF HW Ho. unfold resting_orders. rewrite (fl_list _ _ _ _ _ _ _ HF). cbn. rewrite <- Ho. f_equal.
  apply list_fmap_ext. intros i x Hx%list_elem_of_lookup_2. symmetry. apply (fl_touched _ _ _ _ _ _ _ HF).
  intros ->. pose proof (NoDup_book_list s Q k b HW) as Hnd. rewrite (fl_list _ _ _ _ _ _ _ HF) in Hnd.
  by apply NoDup_cons in Hnd as [? _].
Qed.

Section swaps.
Context (step : stepper) `{!LinkFree step} (exact_in : bool) `{!FairStep step exact_in}.
Context (e : Env) (k : B256) (b : bool) (taker : Address) (H5 : is_t5 (spec e) = true).

Definition walk_in (amount got : N) : N := if exact_in then amount else got.
Definition walk_out (amount got : N) : N := if exact_in then got else amount.

Definition step_in (amount : N) (s : OrderStep) : N := if exact_in then taken_in amount s else taken_out s.
Definition step_out (amount : N) (s : OrderStep) : N := if exact_in then given_in s else given_out amount s.

Lemma step_amounts amount o s got :
  step_ok o amount s (step_in amount s) (step_out amount s) →
  walk_in amount (s.(accumulate) + got) = step_in amount s + walk_in s.(next_amount) got ∧
  walk_out amount (s.(accumulate) + got) = step_out amount s + walk_out s.(next_amount) got.
Proof.
  intros Hs. pose proof (sk_next _ _ _ _ _ Hs).
  unfold walk_in, walk_out, step_in, step_out, taken_in, taken_out, given_in, given_out.
  destruct exact_in; lia.
Qed.
Lemma walk_in_zero : walk_in 0 0 = 0.
Proof. unfold walk_in. by destruct exact_in. Qed.
Lemma walk_out_zero : walk_out 0 0 = 0.
Proof. unfold walk_out. by destruct exact_in. Qed.
Lemma at_token_plus t' t n m : at_token t' t (n + m) = at_token t' t n + at_token t' t m.
Proof. unfold at_token. case_decide; lia. Qed.
Lemma at_token_le t' t n m : n ≤ m → at_token t' t n ≤ at_token t' t m.
Proof. unfold at_token. case_decide; lia. Qed.

(** What the order at the front is worth to the book. *)
Lemma front_tokens s c id : resting s c id → ck c = k → cb c = b →
  let o := ord s id in
  payout_token s o = token_in s k b ∧ escrow_token s o = token_out s k b ∧ o.(Order.is_bid) = b.
Proof.
  intros Hr <- <-. pose proof (rs_key _ _ _ Hr) as <-. cbn. unfold payout_token, escrow_token, token_in, token_out.
  done.
Qed.

Lemma filled_pays s s' Q Q' o c amount st t :
  filled s s' Q Q' k b o → resting s c o.(Order.order_id) → o = ord s o.(Order.order_id) →
  payout_token s o = token_in s k b → escrow_token s o = token_out s k b →
  step_ok o amount st (step_in amount st) (step_out amount st) → o.(Order.remaining) ≤ st.(fill_amount) →
  liabilities s' t + at_token (token_out s k b) t (step_out amount st) ≤
  liabilities s t + at_token (token_in s k b) t (step_in amount st).
Proof.
  intros HF Hr Ho Ep Ee Hs Hge. pose proof (filled_liabilities _ _ _ _ _ _ _ _ t HF Hr Ho) as HL.
  pose proof (sk_fill _ _ _ _ _ Hs) as Hle. pose proof (sk_maker _ _ _ _ _ Hs) as Hm.
  pose proof (sk_taker _ _ _ _ _ Hs) as Ht. rewrite Ep, Ee in HL.
  replace (fill_amount st) with (Order.remaining o) in * by lia.
  pose proof (at_token_le (token_in s k b) t _ _ Hm).
  pose proof (at_token_le (token_out s k b) t (step_out amount st) (escrow_left o (Order.remaining o)) ltac:(lia)). lia.
Qed.
Lemma part_filled_pays s s' Q o c amount st t :
  part_filled s s' Q o st.(fill_amount) → resting s c o.(Order.order_id) → o = ord s o.(Order.order_id) →
  payout_token s o = token_in s k b → escrow_token s o = token_out s k b →
  step_ok o amount st (step_in amount st) (step_out amount st) →
  liabilities s' t + at_token (token_out s k b) t (step_out amount st) ≤
  liabilities s t + at_token (token_in s k b) t (step_in amount st).
Proof.
  intros HF Hr Ho Ep Ee Hs. pose proof (part_filled_liabilities _ _ _ _ _ _ t HF Hr Ho) as HL.
  pose proof (sk_maker _ _ _ _ _ Hs) as Hm. pose proof (sk_taker _ _ _ _ _ Hs) as Ht. rewrite Ep, Ee in HL.
  pose proof (at_token_le (token_in s k b) t _ _ Hm) as H1.
  pose proof (at_token_le (token_out s k b) t _ _ Ht) as H2. rewrite at_token_plus in H2. lia.
Qed.

(** What a walk over a book amounts to. *)
Record walked (s s' : Dex.State) (Q : queues) (amount total tot : N) : Prop := Walked {
  wk_take : take_orders step b amount total (resting_orders s Q k b) = Ok tot;
  wk_le : total ≤ tot;
  wk_swapped : ∃ Q', swapped s s' Q Q' k;
  wk_money : ∀ t, liabilities s' t + at_token (token_out s k b) t (walk_out amount (tot - total)) ≤
                  liabilities s t + at_token (token_in s k b) t (walk_in amount (tot - total))
}.

Lemma walked_nil s Q total : book_wf s Q → walked s s Q 0 total total.
Proof.
  intros HW. split; [by destruct (resting_orders s Q k b)|done|exists Q; by apply swapped_refl|].
  intros t. rewrite N.sub_diag, walk_in_zero, walk_out_zero. unfold at_token. repeat case_decide; lia.
Qed.
Lemma walked_step s s1 s' Q Q' amount total a tot o :
  swapped s s1 Q Q' k → step_ok o amount a (step_in amount a) (step_out amount a) →
  take_orders step b amount total (resting_orders s Q k b) =
    take_orders step b a.(next_amount) (total + a.(accumulate)) (resting_orders s1 Q' k b) →
  (∀ t, liabilities s1 t + at_token (token_out s k b) t (step_out amount a) ≤
        liabilities s t + at_token (token_in s k b) t (step_in amount a)) →
  walked s1 s' Q' a.(next_amount) (total + a.(accumulate)) tot → walked s s' Q amount total tot.
Proof.
  intros HS Hok ET HM [HT Hle [Q2 HS2] HM2]. split; [by rewrite ET|lia|exists Q2; by eapply swapped_trans|].
  intros t. specialize (HM t). specialize (HM2 t).
  destruct (step_amounts amount o a (tot - (total + accumulate a)) Hok) as [E1 E2].
  replace (accumulate a + (tot - (total + accumulate a))) with (tot - total) in E1, E2 by lia.
  rewrite E1, E2, !at_token_plus. pose proof (fx_pair _ _ (sw_fixed _ _ _ _ _ HS) k) as EP.
  unfold token_in, token_out in *. rewrite EP in HM2. lia.
Qed.

Lemma take_orders_cons amount total o os s tot :
  amount ≠ 0 → step amount o b = Some s → checked_add U128_MAX total s.(accumulate) = Some tot →
  take_orders step b amount total (payload o :: os) =
  if s.(fill_amount) <? o.(Order.remaining) then Ok tot else take_orders step b s.(next_amount) tot os.
Proof. intros Hne Hs Ha. cbn [take_orders]. by rewrite (proj2 (N.eqb_neq _ _) Hne), link_free, Hs, Ha. Qed.

Lemma swap_walk fuel w o level d amount total tot st w' Q :
  walk_loop fuel o amount b step (settle_fill k taker) total (level, d) e w = (Ok (tot, st), w') →
  book_wf (dx w) Q → initialized (dx w) k → cursor (spec e) (dx w) Q k b = Some (level, o) →
  walked (dx w) (dx w') Q amount total tot.
Proof.
  revert w o level d amount total Q. induction fuel as [|fuel IH]; intros w o level d amount total Q H HW Hk Hcur.
  { by apply throw_Ok in H. }
  cbn [walk_loop] in H.
  destruct (cursor_front _ _ _ _ _ _ _ HW Hk Hcur) as (id & l & Ho & Hr & HQ & _ & _ & R & HR).
  pose proof (HR Q ltac:(done)) as HL. rewrite HQ in HL. cbn in HL.
  pose proof (rs_id _ _ _ Hr) as Hid. rewrite <- Ho in Hid.
  destruct (front_tokens _ _ _ Hr eq_refl eq_refl) as (Ep & Ee & Eb). rewrite <- Ho in Ep, Ee, Eb. rewrite <- Hid in Hr, Ho.
  destruct (N.eqb_spec amount 0) as [->|Hne].
  { apply ret_Ok in H as [[= -> ->] ->]. by apply walked_nil. }
  m_step H. apply ok_or_Ok in Hrun as [Hst ->].
  assert (step_ok o amount a (step_in amount a) (step_out amount a)) as Hok.
  { apply fair_step; [|by rewrite Eb]. rewrite Ho. change (Order.tick _) with (ct (okey (ord (dx w) (Order.order_id o)))).
    rewrite (rs_key _ _ _ Hr). apply (q_dom _ _ _ (wf_queue _ _ HW _)). by rewrite HQ. }
  destruct (N.ltb_spec (fill_amount a) (Order.remaining o)) as [Hlt|Hge].
  - m_step H. destruct a0 as [nxt st1]. m_step H. apply ok_or_Ok in Hrun0 as [Hadd ->]. apply ret_Ok in H as [[= -> ->] ->].
    cbn [settle_fill] in Hrun. m_step Hrun. apply ret_Ok in Hrun as [_ ->].
    pose proof (partial_fill_spec _ _ _ _ _ _ _ _ _ _ _ Hrun0 HW Hk Hcur Hlt) as HF.
    pose proof Hadd as [-> _]%checked_add_Some.
    destruct (step_amounts amount o a 0 Hok) as [E1 E2].
    rewrite (sk_partial _ _ _ _ _ Hok Hlt) in E1, E2. rewrite walk_in_zero in E1. rewrite walk_out_zero in E2.
    rewrite !N.add_0_r in E1, E2.
    split; [|lia|exists Q; by eapply part_filled_swapped|].
    + unfold resting_orders. rewrite HL. cbn [fmap list_fmap]. rewrite <- Hid, <- Ho.
      rewrite (take_orders_cons _ _ _ _ _ _ Hne Hst Hadd). by rewrite (proj2 (N.ltb_lt _ _) Hlt).
    + intros t. replace (total + accumulate a - total) with (accumulate a) by lia. rewrite E1, E2.
      by eapply part_filled_pays.
  - m_step H. destruct a0 as [nxt st1]. m_step H. apply ok_or_Ok in Hrun0 as [Hadd ->].
    cbn [settle_fill] in Hrun. m_step Hrun. destruct a1 as [r d'].
    destruct (fill_order_spec _ _ _ _ _ _ _ _ _ _ _ _ H5 Hrun0 HW Hk Hcur) as (Q' & HF & Er).
    pose proof (filled_swapped _ _ _ _ _ _ _ _ HF HW Hr eq_refl) as HS.
    pose proof (filled_resting _ _ _ _ _ _ _ HF HW Ho) as EL.
    pose proof (λ t, filled_pays _ _ _ _ _ _ _ _ t HF Hr Ho Ep Ee Hok Hge) as HM.
    pose proof (take_orders_cons _ _ _ (resting_orders (dx w1) Q' k b) _ _ Hne Hst Hadd) as ET.
    rewrite <- EL, (proj2 (N.ltb_ge _ _) Hge) in ET. apply checked_add_Some in Hadd as [-> _].
    destruct r as [[level' o']|]; apply ret_Ok in Hrun as [[= -> ->] ->];
      apply (walked_step _ (dx w1) _ _ Q' _ _ a _ o); try done.
    + eapply IH; [done|apply HF| |done]. eapply fixed_initialized; [apply HS|done].
    + m_step H. apply require_Ok in Hrun as [Hz ->]. apply ret_Ok in H as [[= -> ->] ->].
      apply N.eqb_eq in Hz as ->. apply walked_nil, HF.
Qed.

(** A fill of a book computes [take_book] on its resting orders. *)
Lemma fill_orders_spec d amount tot d' w w' Q :
  fill_orders step d k b amount taker e w = (Ok (tot, d'), w') →
  book_wf (dx w) Q → initialized (dx w) k →
  take_book step b amount (resting_orders (dx w) Q k b) = Ok tot ∧ walked (dx w) (dx w') Q amount 0 tot.
Proof.
  intros H HW Hk. unfold fill_orders in H. pose proof (cursor_best (spec e) (dx w) Q k b HW Hk) as Hc.
  pose proof (best_level_run e w k b Hk) as Hbl.
  destruct (decide (best (dx w) k b = no_tick b)) as [E|E].
  { by rewrite (bind_fail _ _ _ _ _ _ Hbl) in H. }
  rewrite (bind_run _ _ _ _ _ _ Hbl), (bind_run _ _ _ _ _ _ (read_in_book_run _ k e w)), read_level_head in H.
  m_step H. destruct a as [tot1 [lev1 d1]]. apply ret_Ok in H as [[= -> ->] ->].
  unfold walk_resting_orders in Hrun. m_step Hrun. apply rd_Ok in Hrun0 as [-> ->].
  pose proof (swap_walk _ _ _ _ _ _ _ _ _ _ _ Hrun HW Hk Hc) as HK. split; [|done].
  pose proof (wk_take _ _ _ _ _ _ HK) as HT. unfold resting_orders, cursor in *.
  by destruct (book_list Q k b).
Qed.
End swaps.

End DexWalk.
