(* ===== verification/DexRoute.v ===== *)
(** * Routes of books

    The routes that [find_trade_path] builds: they lead from one token to the other
    through books that exist, never through the same book twice. Along such a route,
    quoting the books one after the other and filling them one after the other compute
    the same amounts. *)

From stdpp Require Import functions.
From S2P Require Import Prelude Packing Hardfork Address Errors DexState State Monad.
From S2P Require Import StorageCredits DexOrder DexBook DexMath DexBitmap AddressRegistry Tip20Base.
From S2P Require Import Keychain KeychainSpec Tip403 Tip20Core Guard Tip20 Dex Tip20Frame DexFrame.
From S2P Require Import DexView DexQueue DexInv DexFill DexLedger DexWalk.

Module DexRoute.
Import Book DexOps DexMath DexBitmap DexView DexQueue DexCommit DexInv DexFill DexLedger DexWalk.

(** ** Book keys *)

Definition pair_key (h : list N → B256) (base quote : Address) : B256 :=
  h (address_bytes base ++ address_bytes quote).

(** No two pairs of tokens hash to the same key. *)
Definition collision_free (h : list N → B256) : Prop := ∀ b q b' q',
  is_tip20_prefix b = true → is_tip20_prefix q = true →
  is_tip20_prefix b' = true → is_tip20_prefix q' = true →
  pair_key h b q = pair_key h b' q' → b = b' ∧ q = q'.

(** Every book is stored under the key of its tokens. *)
Definition keyed (h : list N → B256) (s : Dex.State) : Prop := ∀ k, initialized s k →
  let '(base, quote, _) := pair s k in
  is_tip20_prefix base = true ∧ is_tip20_prefix quote = true ∧ k = pair_key h base quote.

Lemma keyed_pair h s base quote :
  collision_free h → keyed h s → is_tip20_prefix base = true → is_tip20_prefix quote = true →
  initialized s (pair_key h base quote) → (pair s (pair_key h base quote)).1 = (base, quote).
Proof.
  intros Hh Hs Hb Hq Hi. specialize (Hs _ Hi). destruct (pair s (pair_key h base quote)) as [[b q] i].
  destruct Hs as (Hb' & Hq' & E). by destruct (Hh _ _ _ _ Hb Hq Hb' Hq' E) as [-> ->].
Qed.
Lemma keyed_fixed h s s' : fixed s s' → keyed h s → keyed h s'.
Proof. intros HF Hs k. unfold initialized. rewrite (fx_pair _ _ HF). apply Hs. Qed.

(** ** Paths of tokens *)

(** The quote tokens from [t] up to the root. *)
Inductive to_root (q : Address → Address) : Address → list Address → Prop :=
| Root : to_root q PATH_USD_ADDRESS []
| Above t l : t ≠ PATH_USD_ADDRESS → to_root q (q t) l → to_root q t (q t :: l).

Lemma to_root_unique q t l l' : to_root q t l → to_root q t l' → l = l'.
Proof.
  intros H. revert l'. induction H as [|t l Ht H IH]; intros l' H'; inversion H'; subst; try done.
  f_equal. auto.
Qed.
Lemma to_root_suffix q t l x : to_root q t l → x ∈ l → ∃ l', to_root q x l' ∧ (length l' < length l)%nat.
Proof.
  intros H. induction H as [|t l Ht H IH]; [by intros ?%elem_of_nil|]. intros [->|Hx]%elem_of_cons.
  - exists l. split; [done|cbn; lia].
  - destruct (IH Hx) as (l' & ? & ?). exists l'. split; [done|cbn; lia].
Qed.
Lemma to_root_nodup q t l : to_root q t l → NoDup (t :: l).
Proof.
  intros H. assert (t ∉ l).
  { intros Hx. destruct (to_root_suffix q t l t H Hx) as (l' & H' & Hlt).
    rewrite (to_root_unique q t l' l H' H) in Hlt. lia. }
  constructor; [done|]. clear H0. induction H as [|t l Ht H IH]; constructor; [|done].
  intros Hx. destruct (to_root_suffix q _ l _ H Hx) as (l' & H' & Hlt).
  rewrite (to_root_unique q _ l' l H' H) in Hlt. lia.
Qed.

Definition quotes (w : World) (t : Address) : Address := (w_tip20s w).[t].(TIP20Token.quote_token).

Lemma quote_token_Ok t e w a w' : Token.quote_token t e w = (Ok a, w') → a = quotes w t ∧ w' = w.
Proof. unfold Token.quote_token. intros H. by m_inv. Qed.
Lemma path_to_root_Ok fuel t e w l w' :
  path_to_root_loop fuel t e w = (Ok l, w') → w' = w ∧ to_root (quotes w) t l.
Proof.
  revert t w l w'. induction fuel as [|fuel IH]; intros t w l w' H; cbn [path_to_root_loop] in H; [by m_step H|].
  destruct (N.eqb_spec t PATH_USD_ADDRESS) as [->|Hne].
  { apply ret_Ok in H as [-> ->]. split; [done|constructor]. }
  m_step H. effect_in Hrun. subst. m_step H. apply quote_token_Ok in Hrun as [-> ->]. m_step H.
  apply IH in Hrun as [-> Hl]. apply ret_Ok in H as [-> ->]. split; [done|by constructor].
Qed.
Lemma find_path_Ok t e w l w' :
  find_path_to_root t e w = (Ok l, w') → w' = w ∧ NoDup l ∧ ∃ l', l = t :: l'.
Proof.
  unfold find_path_to_root. intros H. m_step H. apply gets_Ok in Hrun as [-> ->]. m_step H.
  apply path_to_root_Ok in Hrun as [-> Hl]. apply ret_Ok in H as [-> ->].
  split_and!; [done|by eapply to_root_nodup|by eexists].
Qed.

Lemma take_through_app x l1 l2 : x ∉ l1 → take_through x (l1 ++ x :: l2) = l1 ++ [x].
Proof.
  induction l1 as [|y l1 IH]; cbn; [by rewrite N.eqb_refl|].
  intros [Hne Hx]%not_elem_of_cons. rewrite (proj2 (N.eqb_neq y x)) by congruence. by rewrite IH.
Qed.
Lemma take_until_app x l1 l2 : x ∉ l1 → take_until x (l1 ++ x :: l2) = l1.
Proof.
  induction l1 as [|y l1 IH]; cbn; [by rewrite N.eqb_refl|].
  intros [Hne Hx]%not_elem_of_cons. rewrite (proj2 (N.eqb_neq y x)) by congruence. by rewrite IH.
Qed.
Lemma head_filter_split (P : Address → Prop) `{!∀ x, Decision (P x)} l x :
  head (filter P l) = Some x → ∃ l1 l2, l = l1 ++ x :: l2 ∧ P x ∧ ∀ y, y ∈ l1 → ¬ P y.
Proof.
  induction l as [|y l IH]; [done|]. rewrite filter_cons. case_decide as Hy.
  - intros [= ->]. exists [], l. split_and!; [done|done|]. by intros ? ?%elem_of_nil.
  - intros Hf. destruct (IH Hf) as (l1 & l2 & -> & Hx & Hl). exists (y :: l1), l2. split_and!; [done|done|].
    by intros z [->|Hz]%elem_of_cons; auto.
Qed.

(** The path through the lowest common ancestor. *)
Lemma through_ancestor a b pa pb lca :
  NoDup (a :: pa) → NoDup (b :: pb) →
  head (filter (λ x, x ∈ b :: pb) (a :: pa)) = Some lca →
  let path := take_through lca (a :: pa) ++ rev (take_until lca (b :: pb)) in
  NoDup path ∧ head path = Some a ∧ last path = Some b.
Proof.
  intros Ha Hb (l1 & l2 & E1 & Hx & Hl)%head_filter_split. cbv zeta.
  apply list_elem_of_split in Hx as (m1 & m2 & E2). rewrite E1 in Ha. rewrite E2 in Hb.
  apply NoDup_app in Ha as (Ha1 & Ha2 & _). apply NoDup_app in Hb as (Hb1 & Hb2 & _).
  assert (lca ∉ l1) by (intros H'; apply (Ha2 _ H'); by left).
  assert (lca ∉ m1) by (intros H'; apply (Hb2 _ H'); by left).
  assert (∀ x, x ∈ l1 → x ∉ m1 ++ lca :: m2) as Hl' by (intros y Hy Hin; apply (Hl y Hy); by rewrite E2).
  rewrite E1, take_through_app by done. rewrite E2, take_until_app by done. split_and!.
  - rewrite rev_alt. fold (reverse m1). rewrite <- app_assoc. apply NoDup_app. split_and!; [done| |].
    + intros y Hy Hin. apply (Hl' y Hy). set_solver.
    + cbn. constructor; [by rewrite elem_of_reverse|by rewrite reverse_Permutation].
  - destruct l1; cbn in *; by injection E1 as ->.
  - destruct m1 as [|m m1]; cbn in *; injection E2 as ->; rewrite ?app_nil_r; [by rewrite last_snoc|].
    by rewrite app_assoc, last_snoc.
Qed.

(** ** Routes of books *)

(** [route] leads from token [t] to token [t'] through books that exist. *)
Fixpoint routed (s : Dex.State) (t : Address) (route : list (B256 * bool)) (t' : Address) : Prop :=
  match route with
  | [] => t = t'
  | (k, b) :: route' =>
      initialized s k ∧ token_in s k b = t ∧ routed s (token_out s k b) route' t'
  end.

Lemma route_hop_reads tin tout e w hop w' : route_hop tin tout e w = (Ok hop, w') → w' = w.
Proof. revert e w hop w'. change (Effect (route_hop tin tout) (λ _ w _ w', w' = w)). by_reading. Qed.

Section paths.
Context (e : Env) (w : World).
Abbreviation h := (keccak256 e).
Hypothesis (Hh : collision_free h) (Hk : keyed h (dx w)).

Lemma route_hop_Ok tin tout k b w' :
  tin ≠ tout → is_tip20_prefix tout = true → route_hop tin tout e w = (Ok (k, b), w') →
  w' = w ∧ is_tip20_prefix tin = true ∧ initialized (dx w) k ∧
  token_in (dx w) k b = tin ∧ token_out (dx w) k b = tout ∧
  (k = pair_key h tin tout ∨ k = pair_key h tout tin).
Proof.
  intros Hne Ho H. unfold route_hop, compute_book_key in H.
  m_step H. assert (is_tip20_prefix tin = true) as Hi by (unfold from_address in Hrun; by m_inv).
  effect_in Hrun. subst. m_step H. apply asks_Ok in Hrun as [-> ->].
  m_step H. assert (w0 = w) as ->.
  { destruct (is_t3 (spec e)); [by effect_in Hrun|]. by apply ret_Ok in Hrun as [_ ->]. }
  clear Hrun. m_step H. effect_in Hrun. subst. m_step H.
  assert (w0 = w ∧ (a2 = (tin, tout) ∨ a2 = (tout, tin))) as [-> Ha] by (clear H; dx_inv; auto).
  clear Hrun. destruct a2 as [base quote]. m_step H. m_step Hrun. apply asks_Ok in Hrun0 as [-> ->].
  apply ret_Ok in Hrun as [Ek ->]. fold (pair_key h base quote) in Ek.
  m_step H. effect_in Hrun. destruct Hrun as [-> ->].
  m_step H. apply require_Ok in Hrun as [Hz ->]. apply ret_Ok in H as [[= -> ->] ->].
  assert (initialized (dx w) a2) as Hini.
  { unfold initialized, pair. cbn. unfold is_zero in Hz. bool_simpl. done. }
  rewrite Ek in *. split_and!; [done..| | |destruct Ha as [[= -> ->]|[= -> ->]]; auto].
  all: unfold token_in, token_out; rewrite (keyed_pair h _ base quote Hh Hk) by (destruct Ha; naive_solver).
  all: destruct Ha as [[= -> ->]|[= -> ->]]; cbn; rewrite ?N.eqb_refl, ?(proj2 (N.eqb_neq _ _) Hne); done.
Qed.

(** Hops between distinct tokens go through distinct books. *)
Lemma validate_route_Ok path tout route w' :
  NoDup path → last path = Some tout → is_tip20_prefix tout = true →
  validate_and_build_route path e w = (Ok route, w') →
  w' = w ∧ Forall (λ t, is_tip20_prefix t = true) path ∧ NoDup route.*1 ∧
  (∀ k, k ∈ route.*1 → ∃ x y, x ∈ path ∧ y ∈ path ∧ k = pair_key h x y) ∧
  ∀ tin, head path = Some tin → routed (dx w) tin route tout.
Proof.
  revert route w'. induction path as [|tin path IH]; [done|]. intros route w' Hnd Hl Ht H.
  destruct path as [|tmid path].
  { cbn in H. apply ret_Ok in H as [-> ->]. injection Hl as ->. split_and!; [done|by constructor|constructor| |].
    - by intros k ?%elem_of_nil.
    - by intros tin [= ->]. }
  apply NoDup_cons in Hnd as [Hni Hnd].
  change (validate_and_build_route (tin :: tmid :: path)) with
    (hop ← route_hop tin tmid; rest ← validate_and_build_route (tmid :: path); mret (hop :: rest)) in H.
  m_step H. pose proof (route_hop_reads _ _ _ _ _ _ Hrun) as ->. m_step H. apply ret_Ok in H as [-> ->].
  destruct (IH _ _ Hnd Hl Ht Hrun0) as (-> & Hpre & Hnd' & Hkeys & Hr). destruct a as [k b].
  apply route_hop_Ok in Hrun as (_ & Hi & Hini & Ein & Eout & Ekey); [|set_solver|by apply Forall_cons in Hpre as [? _]].
  assert (∀ x, x ∈ tmid :: path → is_tip20_prefix x = true) as Hpre' by by apply Forall_forall.
  split_and!; [done|by constructor| | |].
  - cbn. constructor; [|done]. intros (x & y & Hx & Hy & E)%Hkeys. assert (tmid ∈ tmid :: path) as Hm by by left.
    destruct Ekey as [->| ->]; apply Hh in E; auto; naive_solver.
  - cbn. intros k' [->|Hin]%elem_of_cons; [exists (if decide (k = pair_key h tin tmid) then tin else tmid), (if decide (k = pair_key h tin tmid) then tmid else tin)|].
    + case_decide; [set_solver|]. destruct Ekey; [done|]. set_solver.
    + destruct (Hkeys k' Hin) as (x & y & ? & ? & ?). exists x, y. set_solver.
  - intros tin' [= <-]. cbn. rewrite Eout. auto.
Qed.

Lemma trade_path_Ok tin tout route w' :
  find_trade_path tin tout e w = (Ok route, w') →
  w' = w ∧ NoDup route.*1 ∧ routed (dx w) tin route tout.
Proof.
  intros H. unfold find_trade_path in H. m_step H. apply require_Ok in Hrun as [Hne ->].
  m_step H. apply require_Ok in Hrun as [Hp ->]. apply andb_true_iff in Hp as [Hpi Hpo].
  apply negb_true_iff, N.eqb_neq in Hne.
  m_step H. effect_in Hrun. subst. m_step H. effect_in Hrun. subst. m_step H. effect_in Hrun. subst. m_step H. effect_in Hrun. subst.
  destruct (_ || _).
  { apply (validate_route_Ok _ tout) in H as (-> & _ & Hnd & _ & Hr); [|repeat constructor; set_solver|done|done].
    split_and!; [done|done|by apply Hr]. }
  m_step H. apply find_path_Ok in Hrun as (-> & Hnd1 & l1 & ->). m_step H. apply find_path_Ok in Hrun as (-> & Hnd2 & l2 & ->).
  m_step H. apply ok_or_Ok in Hrun as [Hlca ->].
  destruct (through_ancestor _ _ _ _ _ Hnd1 Hnd2 Hlca) as (Hnd & Hhd & Hlast).
  apply (validate_route_Ok _ tout) in H as (-> & _ & Hnd' & _ & Hr); [|done..].
  split_and!; [done|done|by apply Hr].
Qed.
End paths.

(** ** Quoting and filling a route *)

Fixpoint take_route (step : stepper) (R : B256 → bool → list Order.t) (route : list (B256 * bool))
    (amount : N) : outcome N :=
  match route with
  | [] => Ok amount
  | (k, b) :: route' =>
      match take_book step b amount (R k b) with
      | Ok amount => take_route step R route' amount
      | Err x => Err x
      end
  end.

Lemma take_route_ext step R R' route amount :
  (∀ k b, k ∈ route.*1 → R k b = R' k b) → take_route step R route amount = take_route step R' route amount.
Proof.
  revert amount. induction route as [|[k b] route IH]; [done|]. intros amount HR. cbn.
  rewrite (HR k b) by by left. destruct (take_book _ _ _ _); [|done]. apply IH. intros k' b' Hk'. apply HR. by right.
Qed.

Definition all_initialized (s : Dex.State) (route : list (B256 * bool)) : Prop :=
  ∀ k, k ∈ route.*1 → initialized s k.
Lemma routed_initialized s t route t' : routed s t route t' → all_initialized s route.
Proof.
  revert t. induction route as [|[k b] route IH]; intros t; [by intros _ k ?%elem_of_nil|].
  intros (Hk & _ & Hr) k' [->|Hin]%elem_of_cons; [done|]. by eapply IH.
Qed.

Lemma quote_route_run step quote e w Q route amount :
  (∀ k amount b, initialized (dx w) k →
     quote k amount b e w = (take_book step b amount (resting_orders (dx w) Q k b), w)) →
  all_initialized (dx w) route →
  quote_route quote route amount e w = (take_route step (resting_orders (dx w) Q) route amount, w).
Proof.
  intros Hq. revert amount. induction route as [|[k b] route IH]; intros amount Hini; [done|].
  cbn [quote_route take_route]. assert (initialized (dx w) k) as Hk by (apply Hini; by left).
  specialize (Hq k amount b Hk). destruct (take_book _ _ _ _) as [a|x].
  - rewrite (bind_run _ _ _ _ _ _ Hq). apply IH. intros k' ?. apply Hini. by right.
  - by rewrite (bind_fail _ _ _ _ _ _ Hq).
Qed.

(** What filling a route amounts to. *)
Record routed_swap (s s' : Dex.State) (Q Q' : queues) (route : list (B256 * bool)) : Prop := RoutedSwap {
  rs_wf : book_wf s' Q';
  rs_fixed : fixed s s';
  rs_other : ∀ k b, k ∉ route.*1 → resting_orders s' Q' k b = resting_orders s Q k b
}.

Section fills.
Context (e : Env) (taker : Address) (H5 : is_t5 (spec e) = true).
Context (step : stepper) `{!LinkFree step} (exact_in : bool) `{!FairStep step exact_in}.

Lemma fill_route_spec route d amount tot d' w w' Q :
  fill_route (fill_orders step) d route amount taker e w = (Ok (tot, d'), w') →
  book_wf (dx w) Q → all_initialized (dx w) route → NoDup route.*1 →
  take_route step (resting_orders (dx w) Q) route amount = Ok tot ∧
  ∃ Q', routed_swap (dx w) (dx w') Q Q' route.
Proof.
  revert d amount w Q. induction route as [|[k b] route IH]; intros d amount w Q H HW Hini Hnd.
  { cbn in H. apply ret_Ok in H as [[= -> ->] ->]. split; [done|]. exists Q. by split. }
  cbn [fill_route] in H. m_step H. destruct a as [amount1 d1]. apply NoDup_cons in Hnd as [Hni Hnd].
  assert (initialized (dx w) k) as Hk by (apply Hini; by left).
  destruct (fill_orders_spec step exact_in e k b taker H5 _ _ _ _ _ _ Q Hrun HW Hk) as [HT HK].
  destruct (wk_swapped _ _ _ _ _ _ _ _ _ _ HK) as [Q1 [HW1 HF1 HO1]].
  assert (all_initialized (dx w0) route) as Hini1.
  { intros k' Hk'. eapply fixed_initialized; [done|]. apply Hini. by right. }
  destruct (IH _ _ _ Q1 H HW1 Hini1 Hnd) as (HT2 & Q2 & [HW2 HF2 HO2]).
  split.
  - cbn [take_route]. rewrite HT, <- HT2. apply take_route_ext. intros k' b' Hin. symmetry. apply HO1. by intros ->.
  - exists Q2. split; [done|by transitivity (dx w0)|]. intros k' b' [Hne Hni']%not_elem_of_cons.
    rewrite HO2, HO1; done.
Qed.
End fills.

(** Along a route the amounts chain up: what one book gives is what the next takes. *)
Lemma routed_fixed s s' t route t' : fixed s s' → routed s t route t' → routed s' t route t'.
Proof.
  intros HF. revert t. induction route as [|[k b] route IH]; [done|]. intros t (Hk & Hi & Hr). cbn.
  unfold initialized, token_in, token_out in *. rewrite (fx_pair _ _ HF). auto.
Qed.

Section ledgers.
Context (e : Env) (taker : Address) (H5 : is_t5 (spec e) = true).

Lemma fill_in_money route d amount tot d' w w' Q tin tout :
  fill_route fill_orders_exact_in d route amount taker e w = (Ok (tot, d'), w') →
  book_wf (dx w) Q → routed (dx w) tin route tout →
  ∀ t, liabilities (dx w') t + at_token tout t tot ≤ liabilities (dx w) t + at_token tin t amount.
Proof.
  revert d amount w Q tin. induction route as [|[k b] route IH]; intros d amount w Q tin H HW Hr t.
  { cbn in H. apply ret_Ok in H as [[= -> ->] ->]. by cbn in Hr; subst. }
  cbn [fill_route] in H. m_step H. destruct a as [amount1 d1]. destruct Hr as (Hk & <- & Hr).
  destruct (fill_orders_spec step_exact_in true e k b taker H5 _ _ _ _ _ _ Q Hrun HW Hk) as [_ HK].
  destruct (wk_swapped _ _ _ _ _ _ _ _ _ _ HK) as [Q1 [HW1 HF1 _]].
  pose proof (IH _ _ _ Q1 _ H HW1 (routed_fixed _ _ _ _ _ HF1 Hr) t) as HI.
  pose proof (wk_money _ _ _ _ _ _ _ _ _ _ HK t) as HM. rewrite N.sub_0_r in HM. cbn in HM. lia.
Qed.

(** The other way round, from the last book to the first. *)
Lemma routed_snoc s t route k b t' :
  routed s t (route ++ [(k, b)]) t' ↔ initialized s k ∧ routed s t route (token_in s k b) ∧ token_out s k b = t'.
Proof. revert t. induction route as [|[k' b'] route IH]; intros t; cbn; [naive_solver|]. rewrite IH. tauto. Qed.

Lemma fill_out_money route d amount tot d' w w' Q tin tout :
  fill_route fill_orders_exact_out d (rev route) amount taker e w = (Ok (tot, d'), w') →
  book_wf (dx w) Q → routed (dx w) tin route tout →
  ∀ t, liabilities (dx w') t + at_token tout t amount ≤ liabilities (dx w) t + at_token tin t tot.
Proof.
  revert d amount w Q tout. induction route as [|[k b] route IH] using rev_ind; intros d amount w Q tout H HW Hr t.
  { cbn in H. apply ret_Ok in H as [[= -> ->] ->]. by cbn in Hr; subst. }
  rewrite rev_app_distr in H. cbn [rev app fill_route] in H. m_step H. destruct a as [amount1 d1].
  apply routed_snoc in Hr as (Hk & Hr & <-).
  destruct (fill_orders_spec step_exact_out false e k b taker H5 _ _ _ _ _ _ Q Hrun HW Hk) as [_ HK].
  destruct (wk_swapped _ _ _ _ _ _ _ _ _ _ HK) as [Q1 [HW1 HF1 _]].
  pose proof (IH _ _ _ Q1 _ H HW1 (routed_fixed _ _ _ _ _ HF1 Hr) t) as HI.
  pose proof (wk_money _ _ _ _ _ _ _ _ _ _ HK t) as HM. rewrite N.sub_0_r in HM. cbn in HM. lia.
Qed.
End ledgers.

End DexRoute.
