(* ===== verification/SystemFrame.v ===== *)
(** * What the other components leave alone

    Frame facts for the entry points of the keychain, the policy registry, the
    address registry, the nonce manager and the fee manager, for any component
    [f] of the world that does not depend on their storage. *)

From S2P Require Import Prelude StorageSet Hardfork Address Errors State Monad Nonce.
From S2P Require Import AddressRegistry Tip20Base Keychain KeychainSpec Tip403 Tip20Core Tip20.
From S2P Require Import Tip20Factory Guard GuardOps FeeAmm FeeManager System Tip20Frame.

Import(hints) KeychainSpec.

Definition nonce_blind {B} (f : World → B) : Prop := ∀ g w, f (set_w_nonce g w) = f w.
Definition registry_blind {B} (f : World → B) : Prop := ∀ g w, f (set_w_registry g w) = f w.
Definition fee_blind {B} (f : World → B) : Prop := ∀ g w, f (set_w_fee g w) = f w.
Definition policy_blind {B} (f : World → B) : Prop :=
  (∀ g w, f (set_w_tip403 g w) = f w) ∧
  ∀ t g w, f (cmod (tip20C t) (TIP20Token.set_transfer_policy_id g) w) = f w.

#[export] Hint Extern 2 (nonce_blind _) => unfold nonce_blind; solve_blind_leaf : stable.
#[export] Hint Extern 2 (registry_blind _) => unfold registry_blind; solve_blind_leaf : stable.
#[export] Hint Extern 2 (fee_blind _) => unfold fee_blind; solve_blind_leaf : stable.
#[export] Hint Extern 2 (policy_blind _) => split; solve_blind_leaf : stable.

(** [frame_auto], also for the writes of these components. *)
Ltac sys_frame_auto :=
  repeat first
    [ progress frame_auto
    | (apply stable_wr || apply stable_modify); intros ?;
      match goal with
      | H : nonce_blind _ |- _ => apply H
      | H : registry_blind _ |- _ => apply H
      | H : fee_blind _ |- _ => apply H
      | H : policy_blind _ |- _ => first [apply H | apply (proj2 H)]
      end ].

Section Frames.
Context (e : Env) {B} (f : World → B).
Hypothesis Hev : ev_blind f.

Lemma frame_emit a ev : Stable e (keeps f) (emit a ev).
Proof. apply stable_modify. intros w. apply Hev. Qed.
#[local] Hint Resolve frame_emit : stable.

(** ** Nonces and the address registry *)

Lemma frame_nonce o : nonce_blind f → Stable e (keeps f) (NonceOps.exec o).
Proof.
  intros Hn. destruct o; unfold NonceOps.exec; apply stable_call; [apply _| |apply _|];
    apply stable_stable_ok.
  - unfold NonceOps.increment_nonce. sys_frame_auto.
  - unfold NonceOps.check_and_mark_expiring_nonce. sys_frame_auto.
Qed.

Lemma frame_registry a s : registry_blind f → Stable e (keeps f) (Registry.register_virtual_master a s).
Proof. intros Hr. unfold Registry.register_virtual_master. sys_frame_auto. Qed.

(** ** The keychain *)

Section Keychain.
Import KeychainOps.
Hypothesis Hkc : kc_blind f.

Lemma frame_write_key a k key : Stable e (keeps f) (write_key a k key).
Proof. unfold write_key. sys_frame_auto. Qed.
Lemma frame_upd_scope k g : Stable e (keeps f) (upd_scope k g).
Proof. unfold upd_scope. sys_frame_auto. Qed.
Lemma frame_set_limit' k t l : Stable e (keeps f) (set_limit k t l).
Proof. by apply frame_set_limit. Qed.
Lemma frame_set_limit_remaining' k t l : Stable e (keeps f) (set_limit_remaining k t l).
Proof. by apply frame_set_limit_remaining. Qed.
#[local] Hint Resolve frame_write_key frame_upd_scope frame_set_limit'
  frame_set_limit_remaining' : stable.
Lemma frame_upsert_target_scope k s : Stable e (keeps f) (upsert_target_scope k s).
Proof. unfold upsert_target_scope, clear_target_selectors, upsert_rule. sys_frame_auto. Qed.
#[local] Hint Resolve frame_upsert_target_scope : stable.
Lemma frame_replace_allowed_calls k s : Stable e (keeps f) (replace_allowed_calls k s).
Proof.
  unfold replace_allowed_calls, clear_all_target_scopes, clear_target_selectors. sys_frame_auto.
Qed.
#[local] Hint Resolve frame_replace_allowed_calls : stable.
Lemma frame_authorize_key_internal a k t c wit adm :
  Stable e (keeps f) (authorize_key_internal a k t c wit adm).
Proof.
  unfold authorize_key_internal, apply_key_authorization_restrictions, apply_limit.
  sys_frame_auto.
Qed.
#[local] Hint Resolve frame_authorize_key_internal : stable.

Lemma frame_keychain a o : Stable e (keeps f) (KeychainSpec.exec a o).
Proof.
  destruct o; unfold KeychainSpec.exec; [..|unfold set_transaction_key|unfold set_tx_origin].
  all: unfold authorize_key, authorize_admin_key, burn_key_authorization_witness,
    burn_key_authorization_witness_value, revoke_key, update_spending_limit, set_allowed_calls,
    remove_allowed_calls, remove_target_scope, clear_target_selectors.
  all: sys_frame_auto.
Qed.
End Keychain.

(** ** The policy registry *)

Section Policies.
Import Policies.
Hypothesis Hpol : policy_blind f.

Lemma frame_ensure_is_simple t : Stable e (keeps f) (ensure_is_simple t).
Proof. unfold ensure_is_simple. stable_auto. Qed.
Lemma frame_decode_policy_type d : Stable e (keeps f) (decode_policy_type d).
Proof. unfold decode_policy_type. stable_auto. Qed.
Lemma frame_validate_simple_policy id : Stable e (keeps f) (validate_simple_policy id).
Proof. unfold validate_simple_policy, read_policy_id_counter. stable_auto. Qed.
Lemma frame_validate_receive_policy_id id : Stable e (keeps f) (validate_receive_policy_id id).
Proof. unfold validate_receive_policy_id, read_policy_id_counter. stable_auto. Qed.
Lemma frame_allocate_policy_id : Stable e (keeps f) allocate_policy_id.
Proof. unfold allocate_policy_id, read_policy_id_counter. sys_frame_auto. Qed.
Lemma frame_set_policy_data id d : Stable e (keeps f) (set_policy_data id d).
Proof. unfold set_policy_data. sys_frame_auto. Qed.
Lemma frame_write_policy_set id a b : Stable e (keeps f) (write_policy_set id a b).
Proof. unfold write_policy_set. sys_frame_auto. Qed.
Lemma frame_emit403 ev : Stable e (keeps f) (emit403 ev).
Proof. unfold emit403. sys_frame_auto. Qed.
Lemma frame_set_token_transfer_policy t id : Stable e (keeps f) (set_token_transfer_policy t id).
Proof. unfold set_token_transfer_policy. sys_frame_auto. Qed.
Lemma frame_delete_legacy t : Stable e (keeps f) (delete_legacy_transfer_policy_id t).
Proof. unfold delete_legacy_transfer_policy_id. sys_frame_auto. Qed.
#[local] Hint Resolve frame_ensure_is_simple frame_decode_policy_type
  frame_validate_simple_policy frame_validate_receive_policy_id frame_allocate_policy_id
  frame_set_policy_data frame_write_policy_set frame_emit403 frame_set_token_transfer_policy
  frame_delete_legacy : stable.
Lemma frame_migrate l n : Stable e (keeps f) (migrate_loop l n).
Proof.
  revert n. induction l as [|x l IH]; intros n; simpl; [stable_auto|].
  repeat (stable_step || apply IH).
Qed.
#[local] Hint Resolve frame_migrate : stable.

Lemma frame_policies a o : Stable e (keeps f) (dispatch a o).
Proof.
  destruct o; unfold dispatch.
  all: unfold create_policy, create_policy_with_accounts, add_initial_account, set_policy_admin,
    modify_policy_whitelist, modify_policy_blacklist, create_compound_policy,
    set_receive_policy, migrate_transfer_policy_ids.
  all: sys_frame_auto.
Qed.
End Policies.

(** ** The fee manager's own storage *)

Section Fees.
Import FeeAmm FeeManager.
Hypothesis Hfee : fee_blind f.

Lemma frame_compute_amount_out n : Stable e (keeps f) (compute_amount_out n).
Proof. unfold compute_amount_out. stable_auto. Qed.
Lemma frame_write_pool id p : Stable e (keeps f) (write_pool id p).
Proof. unfold write_pool. sys_frame_auto. Qed.
Lemma frame_set_shares id a n : Stable e (keeps f) (set_liquidity_balances id a n).
Proof. unfold set_liquidity_balances. sys_frame_auto. Qed.
Lemma frame_set_share_supply id n : Stable e (keeps f) (set_total_supply id n).
Proof. unfold set_total_supply. sys_frame_auto. Qed.
Lemma frame_emit_fee ev : Stable e (keeps f) (emit_fee ev).
Proof. unfold emit_fee. sys_frame_auto. Qed.
Lemma frame_check_reservation id n : Stable e (keeps f) (check_reservation id n).
Proof. unfold check_reservation, read_reservation. stable_auto. Qed.
Lemma frame_burn_amounts p id n : Stable e (keeps f) (calculate_burn_amounts p id n).
Proof. unfold calculate_burn_amounts, get_total_supply. stable_auto. Qed.
Lemma frame_validator_token b : Stable e (keeps f) (get_validator_token b).
Proof. unfold get_validator_token. stable_auto. Qed.
Lemma frame_validate_usd t : Stable e (keeps f) (TokenOps.validate_usd_currency t).
Proof. unfold TokenOps.validate_usd_currency. stable_auto. Qed.
Lemma frame_pool_id u v : Stable e (keeps f) (pool_id u v).
Proof. apply stable_asks, _. Qed.
Lemma frame_read_pool id : Stable e (keeps f) (read_pool id).
Proof. apply stable_rd, _. Qed.
Lemma frame_get_shares id a : Stable e (keeps f) (get_liquidity_balances id a).
Proof. apply stable_rd, _. Qed.
Lemma frame_get_share_supply id : Stable e (keeps f) (get_total_supply id).
Proof. apply stable_rd, _. Qed.
#[local] Hint Resolve frame_compute_amount_out frame_write_pool frame_set_share_supply
  frame_pool_id frame_read_pool frame_get_share_supply : stable.
Lemma frame_mint_liquidity id p n : Stable e (keeps f) (mint_liquidity id p n).
Proof. unfold mint_liquidity. stable_auto. Qed.
Lemma frame_execute_fee_swap u v n : Stable e (keeps f) (execute_fee_swap u v n).
Proof. unfold execute_fee_swap, apply_swap. stable_auto. Qed.
Lemma frame_plan u v n : Stable e (keeps f) (plan_fee_route u v n).
Proof. unfold plan_fee_route, get_pool. stable_auto. Qed.
Lemma frame_reserve u v n r : Stable e (keeps f) (reserve_fee_liquidity u v n r).
Proof. unfold reserve_fee_liquidity, amount_out_u128, reserve_pool_liquidity. sys_frame_auto. Qed.
Lemma frame_increment_fees v x n : Stable e (keeps f) (increment_collected_fees v x n).
Proof. unfold increment_collected_fees, sinc. sys_frame_auto. Qed.
End Fees.

(** ** Token creation *)

Lemma frame_compute_address s salt : Stable e (keeps f) (Factory.compute_tip20_address s salt).
Proof. unfold Factory.compute_tip20_address. stable_auto. Qed.
Lemma frame_check_quote_currency c q : Stable e (keeps f) (Factory.check_quote_currency c q).
Proof. unfold Factory.check_quote_currency. stable_auto. Qed.
End Frames.
#[export] Hint Resolve frame_emit frame_nonce frame_registry frame_keychain frame_policies
  frame_set_token_transfer_policy frame_compute_amount_out frame_write_pool frame_set_shares
  frame_set_share_supply frame_emit_fee frame_check_reservation frame_burn_amounts
  frame_validator_token frame_validate_usd frame_pool_id frame_read_pool frame_get_shares
  frame_get_share_supply frame_mint_liquidity frame_execute_fee_swap frame_plan frame_reserve
  frame_increment_fees frame_compute_address frame_check_quote_currency : stable.
