(* ===== verification/Tip20Ledger.v ===== *)
(** * The token ledger

    The exact effect of the fund-moving primitives on balances and supply, and
    conservation: for every token, the balances add up to the total supply, which
    stays within the supply cap, whatever operation is executed. *)

From S2P Require Import Prelude StorageSet Hardfork Address Errors State Monad AddressRegistry.
From S2P Require Import Tip20Base Keychain KeychainSpec Tip403 Tip20Core Guard Tip20 Tip20Frame.

Import(hints) KeychainSpec.
Import Policies Token TokenOps.

(** The stored state of token [t]. *)
Abbreviation tok w t := ((w_tip20s w).[t]).
Abbreviation bals w t := ((w_tip20s w).[t].(TIP20Token.balances)).
Abbreviation supply w t := ((w_tip20s w).[t].(TIP20Token.total_supply)).
Abbreviation cap w t := ((w_tip20s w).[t].(TIP20Token.supply_cap)).

Definition debit (m : gmap Address U256) (a : Address) (n : U256) := <[a := m.[a] - n]> m.
Definition credit (m : gmap Address U256) (a : Address) (n : U256) := <[a := m.[a] + n]> m.
Definition move (m : gmap Address U256) (a b : Address) (n : U256) := credit (debit m a n) b n.

Lemma msum_debit m a n : n ≤ m.[a] → msum (debit m a n) + n = msum m.
Proof. intros Hn. unfold debit. pose proof (msum_insert m a (m.[a] - n)). lia. Qed.
Lemma msum_credit m a n : msum (credit m a n) = msum m + n.
Proof. unfold credit. pose proof (msum_insert m a (m.[a] + n)). lia. Qed.
Lemma msum_move m a b n : n ≤ m.[a] → msum (move m a b n) = msum m.
Proof. intros Hn. unfold move. rewrite msum_credit. by apply msum_debit. Qed.

(** ** Balances *)

Lemma set_balance_Ok self a n e w u w' :
  set_balance self a n e w = (Ok u, w') → bals w' self = <[a := n]> (bals w self).
Proof.
  unfold set_balance. intros H. m_inv. by rewrite sread_insert_eq.
Qed.

Lemma increment_balance_Ok self a n e w u w' :
  increment_balance self a n e w = (Ok u, w') →
  bals w' self = credit (bals w self) a n ∧ (bals w self).[a] + n ≤ U256_MAX.
Proof.
  unfold increment_balance, sinc, get_balance. intros H. m_inv. checked_simpl. subst.
  apply set_balance_Ok in H. done.
Qed.

Lemma decrement_balance_Ok self a n e w u w' :
  decrement_balance self a n e w = (Ok u, w') →
  bals w' self = debit (bals w self) a n ∧ n ≤ (bals w self).[a].
Proof.
  unfold decrement_balance, sdec, get_balance. intros H. m_inv. checked_simpl. subst.
  apply set_balance_Ok in H. done.
Qed.

(** Moving [n] from [a] to [r]; a transfer to the zero address only debits. *)
Lemma transfer_Ok self a r n e w u w' :
  _transfer self a r n e w = (Ok u, w') →
  n ≤ (bals w self).[a] ∧
  bals w' self = if is_zero r.(Recipient.target) then debit (bals w self) a n
                 else move (bals w self) a r.(Recipient.target) n.
Proof.
  unfold _transfer, get_balance. intros H. m_inv; simplify_eq; checked_simpl; subst; bool_simpl.
  all: try congruence.
  all: try (apply set_balance_Ok in Hrun2).
  all: try (apply decrement_balance_Ok in Hrun2 as [Hrun2 ?]).
  all: try (apply increment_balance_Ok in Hrun3 as [Hrun3 ?]).
  all: stable_facts (keeps (λ w, bals w self)).
  all: split; [congruence|]; rewrite Heqb; unfold move, debit in *; congruence.
Qed.

Lemma set_total_supply_Ok self n e w u w' :
  set_total_supply self n e w = (Ok u, w') →
  supply w' self = n ∧ bals w' self = bals w self ∧ cap w' self = cap w self.
Proof. unfold set_total_supply. intros H. m_inv. by rewrite sread_insert_eq. Qed.

Lemma mint_Ok self r s n e w u w' :
  _mint self r s n e w = (Ok u, w') →
  s + n ≤ cap w self ∧ cap w' self = cap w self ∧ supply w' self = s + n ∧
  bals w' self = credit (bals w self) r.(Recipient.target) n.
Proof.
  unfold _mint, supply_cap. intros H. m_inv. checked_simpl. subst. bool_simpl.
  note_keeps (λ w, cap w self). note_keeps (λ w, supply w self). note_keeps (λ w, bals w self).
  apply set_total_supply_Ok in Hrun3 as (? & ? & ?).
  apply increment_balance_Ok in Hrun4 as [? _]. split_and!; congruence.
Qed.

Lemma reduce_total_supply_Ok self n e w u w' :
  reduce_total_supply self n e w = (Ok u, w') →
  n ≤ supply w self ∧ supply w' self = supply w self - n ∧ bals w' self = bals w self ∧
  cap w' self = cap w self.
Proof.
  unfold reduce_total_supply, total_supply. intros H. m_inv. checked_simpl. subst.
  by apply set_total_supply_Ok in H as (? & ? & ?).
Qed.

(** ** Conservation *)

(** The balances add up to the supply, the supply respects its cap. *)
Definition ledger_ok (t : Address) (w : World) : Prop :=
  msum (bals w t) = supply w t ∧ supply w t ≤ cap w t ∧ cap w t ≤ U128_MAX.

Abbreviation ledger t := (λ w, (bals w t, supply w t, cap w t)).

Lemma ledger_same t w w' : ledger t w' = ledger t w → ledger_ok t w → ledger_ok t w'.
Proof. unfold ledger_ok. intros [= -> -> ->]. done. Qed.

Lemma keeps_ledger {A} e t (m : M A) :
  Stable e (keeps (ledger t)) m → StableOk e (maintains (ledger_ok t)) m.
Proof. intros Hm w a w' H Hw. eapply ledger_same; [|done]. by eapply Hm. Qed.

Section Conservation.
Context (e : Env) (self : Address).
Abbreviation conserves := (StableOk e (maintains (ledger_ok self))).

Lemma transfer_conserves a r n :
  is_zero r.(Recipient.target) = false → conserves (_transfer self a r n).
Proof.
  intros Hz w u w' H (Hs & Hc & Hm). note_keeps (λ w, supply w self). note_keeps (λ w, cap w self).
  apply transfer_Ok in H as [Hn Hb]. rewrite Hz in Hb. unfold ledger_ok.
  rewrite Hb, msum_move by done. split_and!; congruence.
Qed.

Lemma mint_conserves r s n w u w' :
  _mint self r s n e w = (Ok u, w') → s = supply w self → ledger_ok self w → ledger_ok self w'.
Proof.
  intros (H1 & H2 & H3 & H4)%mint_Ok -> (Hs & Hc & Hm). unfold ledger_ok.
  rewrite H2, H3, H4, msum_credit. lia.
Qed.

(** Debiting an account and shrinking the supply by the same amount. *)
Lemma burn_conserves a n w u1 w1 u2 w' :
  _transfer self a (Recipient.direct ZERO_ADDRESS) n e w = (Ok u1, w1) →
  reduce_total_supply self n e w1 = (Ok u2, w') → ledger_ok self w → ledger_ok self w'.
Proof.
  intros H1 (H2 & H3 & H4 & H5)%reduce_total_supply_Ok (Hs & Hc & Hm).
  note_keeps (λ w, supply w self). note_keeps (λ w, cap w self).
  apply transfer_Ok in H1 as [Hn Hb]. cbn in Hb. pose proof (msum_debit _ _ _ Hn).
  unfold ledger_ok. rewrite H3, H4, H5, Hb. split_and!; try congruence; lia.
Qed.

(** Walk back from the final world to the initial one. *)
Ltac ledger_back :=
  repeat match goal with
  | H : ledger_ok ?t ?w |- ledger_ok ?t ?w => exact H
  | H : (bals ?w' ?t, _, _) = _ |- ledger_ok ?t ?w' => apply (ledger_same _ _ _ H)
  | H : _mint _ _ _ _ _ _ = (Ok _, ?w') |- ledger_ok _ ?w' => eapply mint_conserves; [exact H|..]
  | H1 : _transfer _ _ (Recipient.direct ZERO_ADDRESS) _ _ ?w = (Ok _, ?w1),
    H2 : reduce_total_supply _ _ _ ?w1 = (Ok _, ?w') |- ledger_ok _ ?w' =>
      eapply burn_conserves; [exact H1|exact H2|]
  | H : _transfer _ _ _ _ _ _ = (Ok _, ?w') |- ledger_ok _ ?w' =>
      eapply transfer_conserves; [|exact H|]
  end.

Lemma inbound_conserves o r n s m w b w' :
  validate_inbound_or_block self o r n s m e w = (Ok b, w') →
  (∀ sup, s = Some sup → sup = supply w self) →
  (b = false → w' = w) ∧ (ledger_ok self w → ledger_ok self w').
Proof.
  unfold validate_inbound_or_block. intros H Hs. m_inv; same_world; [done| | |done].
  all: split; [done|]; intros Hw; note_keeps (ledger self); ledger_back; auto.
Qed.

Lemma validate_transfer_conserves s a b n m w r w' :
  validate_transfer self s a b n m e w = (Ok r, w') →
  (∀ to, r = Some to → is_zero to.(Recipient.target) = false) ∧
  (ledger_ok self w → ledger_ok self w').
Proof.
  unfold validate_transfer, Recipient.validate. intros H. m_inv; same_world; bool_simpl.
  all: split; [intros to Hto; destruct a5; simplify_eq; done|]; intros Hw.
  all: apply inbound_conserves in Hrun4 as [_ Hin]; [|done]; apply Hin.
  all: note_keeps (ledger self); ledger_back.
Qed.

Lemma validate_mint_conserves a b n m role w r w' :
  validate_mint self a b n m role e w = (Ok r, w') →
  (∀ sup to, r = Some (sup, to) → sup = supply w' self) ∧
  (ledger_ok self w → ledger_ok self w').
Proof.
  unfold validate_mint, total_supply, check_role. intros H. m_inv; same_world.
  all: match goal with Hin : validate_inbound_or_block _ _ _ _ _ _ _ _ = _ |- _ =>
         apply inbound_conserves in Hin as [Hf Hin]; [|by intros ? [= ->]] end.
  all: split; [|done]; intros sup to Hs.
  all: match goal with b : bool |- _ => destruct b end; simplify_eq; by rewrite Hf.
Qed.

Lemma finish_transfer_conserves a r n ev :
  (∀ to, r = Some to → is_zero to.(Recipient.target) = false) →
  conserves (finish_transfer self a r n ev).
Proof.
  intros Hz w u w' H Hw. unfold finish_transfer in H. m_inv; [| |done].
  all: note_keeps (ledger self); ledger_back; by apply Hz.
Qed.

(** A transfer is validation followed by the move. *)
Lemma transfer_chain_conserves s a b n m ev w r w1 u w' :
  validate_transfer self s a b n m e w = (Ok r, w1) →
  finish_transfer self a r n ev e w1 = (Ok u, w') → ledger_ok self w → ledger_ok self w'.
Proof.
  intros [Hz Hv]%validate_transfer_conserves H2 Hw. eapply finish_transfer_conserves; eauto.
Qed.

Lemma transfer_op_conserves a b n : conserves (transfer self a b n).
Proof.
  intros w u w' H Hw. unfold transfer in H. m_inv. by eapply transfer_chain_conserves.
Qed.
Lemma transfer_from_conserves s a b n : conserves (transfer_from self s a b n).
Proof.
  intros w u w' H Hw. unfold transfer_from in H. m_inv. by eapply transfer_chain_conserves.
Qed.
Lemma transfer_from_with_memo_conserves s a b n m :
  conserves (transfer_from_with_memo self s a b n m).
Proof.
  intros w u w' H Hw. unfold transfer_from_with_memo in H. m_inv. by eapply transfer_chain_conserves.
Qed.
Lemma transfer_with_memo_conserves a b n m : conserves (transfer_with_memo self a b n m).
Proof.
  intros w u w' H Hw. unfold transfer_with_memo in H. m_inv. by eapply transfer_chain_conserves.
Qed.
Lemma system_transfer_conserves c a n : conserves (system_transfer_from self c a n).
Proof.
  intros w u w' H Hw. unfold system_transfer_from in H. m_inv. by eapply transfer_chain_conserves.
Qed.
Lemma channel_transfer_conserves a r n s : conserves (channel_reserve_transfer self a r n s).
Proof.
  intros w u w' H Hw. unfold channel_reserve_transfer, Recipient.validate in H.
  m_inv; same_world; bool_simpl. all: note_keeps (ledger self); ledger_back; done.
Qed.
Lemma release_conserves o r b n m a : conserves (release_blocked_funds self o r b n m a).
Proof.
  intros w u w' H Hw. unfold release_blocked_funds, Recipient.validate in H.
  m_inv; same_world; bool_simpl. all: note_keeps (ledger self); ledger_back; done.
Qed.

Lemma mint_with_role_conserves a b n r : conserves (mint_with_role self a b n r).
Proof.
  intros w u w' H Hw. unfold mint_with_role in H. m_inv.
  all: match goal with Hv : validate_mint _ _ _ _ _ _ _ _ = _ |- _ =>
         apply validate_mint_conserves in Hv as [Hs Hv] end.
  2: auto.
  note_keeps (ledger self); ledger_back; [by eapply Hs|auto].
Qed.
Lemma mint_op_conserves a b n : conserves (mint self a b n).
Proof. intros w u w' H Hw. unfold mint in H. m_inv; same_world. by eapply mint_with_role_conserves. Qed.
Lemma mint_with_memo_conserves a b n m : conserves (mint_with_memo self a b n m).
Proof.
  intros w u w' H Hw. unfold mint_with_memo in H. m_inv; same_world.
  all: match goal with Hv : validate_mint _ _ _ _ _ _ _ _ = _ |- _ =>
         apply validate_mint_conserves in Hv as [Hs Hv] end.
  2: auto.
  note_keeps (ledger self); ledger_back; [by eapply Hs|auto].
Qed.

Lemma burn__conserves a n : conserves (_burn self a n).
Proof.
  intros w u w' H Hw. unfold _burn, check_role in H. m_inv; same_world. all: ledger_back.
Qed.
Lemma burn_op_conserves a n : conserves (burn self a n).
Proof.
  intros w u w' H Hw. unfold burn in H. m_inv. note_keeps (ledger self). ledger_back.
  by eapply burn__conserves.
Qed.
Lemma burn_with_memo_conserves a n m : conserves (burn_with_memo self a n m).
Proof.
  intros w u w' H Hw. unfold burn_with_memo in H. m_inv. note_keeps (ledger self). ledger_back.
  by eapply burn__conserves.
Qed.
Lemma burn_blocked_conserves s o n b : conserves (burn_blocked self s o n b).
Proof.
  intros w u w' H Hw. unfold burn_blocked, check_role in H. m_inv; same_world.
  all: note_keeps (ledger self); ledger_back.
Qed.
Lemma burn_at_conserves s a n : conserves (burn_at self s a n).
Proof.
  intros w u w' H Hw. unfold burn_at, check_role in H. m_inv; same_world.
  all: note_keeps (ledger self); ledger_back.
Qed.
(** Debit then credit, as the fee transfers do. *)
Lemma debit_credit_conserves a b n w u1 w1 u2 w' :
  decrement_balance self a n e w = (Ok u1, w1) →
  increment_balance self b n e w1 = (Ok u2, w') → ledger_ok self w → ledger_ok self w'.
Proof.
  intros H1 H2 (Hs & Hc & Hm). note_keeps (λ w, supply w self). note_keeps (λ w, cap w self).
  apply decrement_balance_Ok in H1 as [H1 Hn]. apply increment_balance_Ok in H2 as [H2 _].
  unfold ledger_ok. rewrite H2, H1. fold (move (bals w self) a b n). rewrite msum_move by done.
  split_and!; congruence.
Qed.

Lemma fee_pre_conserves a n : conserves (transfer_fee_pre_tx self a n).
Proof.
  intros w u w' H Hw. unfold transfer_fee_pre_tx in H. m_inv; same_world.
  all: eapply debit_credit_conserves; [eassumption..|]; note_keeps (ledger self); ledger_back.
Qed.
Lemma fee_post_conserves a r n : conserves (transfer_fee_post_tx self a r n).
Proof.
  intros w u w' H Hw. unfold transfer_fee_post_tx in H. m_inv.
  1: note_keeps (ledger self); ledger_back.
  all: eapply debit_credit_conserves; [eassumption..|]; note_keeps (ledger self); ledger_back.
Qed.

Lemma set_balance_twice_conserves a b n x y w u1 w1 u2 w' :
  set_balance self b y e w1 = (Ok u2, w') → set_balance self a x e w = (Ok u1, w1) →
  y = (bals w1 self).[b] + n → x = (bals w self).[a] - n →
  n ≤ (bals w self).[a] → ledger_ok self w → ledger_ok self w'.
Proof.
  intros H2 H1 -> -> Hn (Hs & Hc & Hm). note_keeps (λ w, supply w self). note_keeps (λ w, cap w self).
  apply set_balance_Ok in H1, H2. unfold ledger_ok. rewrite H2, H1.
  fold (debit (bals w self) a n). fold (credit (debit (bals w self) a n) b n).
  fold (move (bals w self) a b n). rewrite msum_move by done. split_and!; congruence.
Qed.

Lemma claim_rewards_conserves a : conserves (claim_rewards self a).
Proof.
  intros w u w' H Hw. unfold claim_rewards, get_balance in H. m_inv; same_world; checked_simpl; subst.
  all: note_keeps (ledger self); ledger_back.
  all: eapply set_balance_twice_conserves;
    [eassumption|eassumption|reflexivity|congruence|congruence|ledger_back].
Qed.

Lemma distribute_conserves a n : self ≠ 0 → conserves (distribute_reward self a n).
Proof.
  intros Hz w u w' H Hw. unfold distribute_reward in H. m_inv; same_world; [done|].
  note_keeps (ledger self); ledger_back. by apply N.eqb_neq.
Qed.
Lemma set_recipient_conserves a r : conserves (set_reward_recipient self a r).
Proof. apply keeps_ledger. unfold set_reward_recipient. stable_auto. Qed.
Lemma approve_conserves a b n : conserves (approve self a b n).
Proof. apply keeps_ledger. unfold approve. stable_auto. Qed.
Lemma permit_conserves o s n d v r s' : conserves (permit self o s n d v r s').
Proof. apply keeps_ledger. unfold permit. stable_auto. Qed.
Lemma set_supply_cap_conserves a n : conserves (set_supply_cap self a n).
Proof.
  intros w u w' H (Hs & Hc & Hm). unfold set_supply_cap, check_role, total_supply in H. m_inv.
  same_world. bool_simpl. note_keeps (ledger self). ledger_back. unfold ledger_ok. w_simpl.
  by rewrite !sread_insert_eq.
Qed.

#[local] Hint Resolve transfer_op_conserves transfer_from_conserves
  transfer_from_with_memo_conserves transfer_with_memo_conserves mint_op_conserves
  mint_with_memo_conserves burn_op_conserves burn_with_memo_conserves burn_blocked_conserves
  burn_at_conserves claim_rewards_conserves distribute_conserves set_recipient_conserves
  approve_conserves permit_conserves set_supply_cap_conserves : stable.

(** The administrative operations other than [set_supply_cap]. *)
Definition is_admin_op (o : op) : bool :=
  match o with
  | ChangeTransferPolicyId _ | SetLogoURI _ | Pause | Unpause | SetNextQuoteToken _
  | CompleteQuoteTokenUpdate | GrantRole _ _ | RevokeRole _ _ | RenounceRole _
  | SetRoleAdmin _ _ => true
  | _ => false
  end.

Lemma admin_ledger t a o : is_admin_op o = true → Stable e (keeps (ledger t)) (dispatch_body self a o).
Proof.
  intros Ho. destruct o; try discriminate; unfold dispatch_body.
  - unfold change_transfer_policy_id, set_token_transfer_policy, check_role. stable_auto.
  - unfold set_logo_uri, write_logo_uri, check_role. stable_auto.
  - unfold pause, check_role. stable_auto.
  - unfold unpause, check_role. stable_auto.
  - unfold set_next_quote_token, check_role. stable_auto.
  - unfold complete_quote_token_update, check_role. stable_auto.
  - unfold grant_role, grant_role_internal. stable_auto.
  - unfold revoke_role, revoke_role_internal. stable_auto.
  - unfold renounce_role, revoke_role_internal. stable_auto.
  - unfold set_role_admin, set_role_admin_internal. stable_auto.
Qed.

Lemma dispatch_body_conserves a o : self ≠ 0 → conserves (dispatch_body self a o).
Proof.
  intros Hz. destruct (is_admin_op o) eqn:Ho; [by apply keeps_ledger, admin_ledger|].
  destruct o; try discriminate; unfold dispatch_body; stable_ok_auto.
Qed.

Lemma dispatch_conserves a o : self ≠ 0 → conserves (dispatch self a o).
Proof.
  intros Hz. unfold dispatch. stable_ok_step; [stable_ok_auto|]. stable_ok_step; [stable_ok_auto|].
  by apply dispatch_body_conserves.
Qed.
End Conservation.

(** ** Other tokens *)

(** An operation on [self] does not touch any other token. *)
Lemma dispatch_other e self a o t :
  t ≠ self → Stable e (keeps (λ w, tok w t)) (dispatch self a o).
Proof.
  intros Hne. unfold dispatch. destruct o; unfold dispatch_body.
  all: unfold change_transfer_policy_id, set_token_transfer_policy, set_supply_cap, set_logo_uri,
    write_logo_uri, pause, unpause, set_next_quote_token, complete_quote_token_update, grant_role,
    revoke_role, renounce_role, grant_role_internal, revoke_role_internal, set_role_admin,
    set_role_admin_internal, permit, check_role.
  all: stable_auto.
Qed.

Lemma keeps_tok_ledger {A} e t (m : M A) :
  Stable e (keeps (λ w, tok w t)) m → StableOk e (maintains (ledger_ok t)) m.
Proof. intros Hm. apply keeps_ledger. intros w r w' H. unfold keeps. by rewrite (Hm w r w' H). Qed.

(** Conservation of every token, from the two cases. *)
Lemma conserves_any {A} e self t (m : M A) :
  StableOk e (maintains (ledger_ok self)) m →
  (t ≠ self → Stable e (keeps (λ w, tok w t)) m) →
  StableOk e (maintains (ledger_ok t)) m.
Proof.
  intros H1 H2. destruct (decide (t = self)) as [->|Hne]; [done|]. by apply keeps_tok_ledger, H2.
Qed.
