(* ===== verification/SupplySpec.v ===== *)
(** * Supply conservation for the whole system

    Whatever happens on the chain, the balances of every token add up to its total
    supply, and the total supply respects its cap. *)

From S2P Require Import Prelude StorageSet Hardfork Address Errors State Monad Nonce.
From S2P Require Import AddressRegistry Tip20Base Keychain KeychainSpec Tip403 Tip20Core Tip20.
From S2P Require Import Tip20Factory Guard GuardOps FeeAmm FeeManager System ValidatorFrame Tip20Frame.
From S2P Require Import StorageCredits Dex DexFrame Reserve ReserveFrame SystemFrame Tip20Ledger.

Module SupplySpec.
Import(hints) KeychainSpec.

Section Steps.
Context (e : Env) (t : Address).
Abbreviation conserves := (StableOk e (maintains (ledger_ok t))).

(** ** Internal transfers *)

Lemma transfer_any self a b n : conserves (TokenOps.transfer self a b n).
Proof. apply (conserves_any _ self); [apply transfer_op_conserves|]. intros. stable_auto. Qed.
Lemma system_transfer_any self c a n : conserves (TokenOps.system_transfer_from self c a n).
Proof. apply (conserves_any _ self); [apply system_transfer_conserves|]. intros. stable_auto. Qed.
Lemma channel_transfer_any self a r n s :
  conserves (TokenOps.channel_reserve_transfer self a r n s).
Proof. apply (conserves_any _ self); [apply channel_transfer_conserves|]. intros. stable_auto. Qed.
Lemma release_any self o r b n m a : conserves (TokenOps.release_blocked_funds self o r b n m a).
Proof. apply (conserves_any _ self); [apply release_conserves|]. intros. stable_auto. Qed.
Lemma burn_blocked_any self s o n b : conserves (TokenOps.burn_blocked self s o n b).
Proof. apply (conserves_any _ self); [apply burn_blocked_conserves|]. intros. stable_auto. Qed.
Lemma fee_pre_any self a n : conserves (TokenOps.transfer_fee_pre_tx self a n).
Proof. apply (conserves_any _ self); [apply fee_pre_conserves|]. intros. stable_auto. Qed.
Lemma fee_post_any self a r n : conserves (TokenOps.transfer_fee_post_tx self a r n).
Proof. apply (conserves_any _ self); [apply fee_post_conserves|]. intros. stable_auto. Qed.
#[local] Hint Resolve transfer_any system_transfer_any channel_transfer_any release_any
  burn_blocked_any fee_pre_any fee_post_any : stable.

(** ** Token calls *)

Lemma prefix_nonzero a : is_tip20_prefix a = true → a ≠ 0.
Proof. intros H ->. by vm_compute in H. Qed.

Lemma token_call_conserves self a o : conserves (from_address self ;; TokenOps.dispatch self a o).
Proof.
  intros w u w' H Hw. unfold from_address in H. m_inv. apply prefix_nonzero in H0.
  eapply (conserves_any e self t); [by apply dispatch_conserves| |exact H|exact Hw].
  intros. by apply dispatch_other.
Qed.

(** ** Creation *)

(** A new token starts with the cap [u128::MAX]. *)
Lemma set_cap_conserves self :
  conserves (wr (tip20C self) (TIP20Token.set_supply_cap (λ _, U128_MAX))).
Proof.
  intros w u w' H (Hs & Hc & Hm). m_inv. unfold ledger_ok. w_simpl. rewrite sread_insert.
  case_decide; [subst|done]. w_simpl. lia.
Qed.
#[local] Hint Resolve set_cap_conserves : stable.

(** Split off the parts that do not touch the ledger. *)
Ltac ledger_ok_auto :=
  repeat first [ apply keeps_ledger; solve [stable_auto; fail] | stable_ok_step
               | solve [eauto 3 with stable] ].

Lemma initialize_conserves self s n y c q a : conserves (TokenOps.initialize self s n y c q a).
Proof.
  unfold TokenOps.initialize, Token.initialize_roles, Token.set_role_admin_internal,
    Token.grant_default_admin, Token.grant_role_internal.
  ledger_ok_auto.
Qed.
#[local] Hint Resolve initialize_conserves : stable.

Lemma create_token_conserves s n y c q a salt : conserves (Factory.create_token s n y c q a salt).
Proof. unfold Factory.create_token. repeat (ledger_ok_auto || destruct a0). Qed.
#[local] Hint Resolve create_token_conserves : stable.

Lemma factory_conserves a o : conserves (Factory.dispatch a o).
Proof.
  destruct o; unfold Factory.dispatch, Factory.create_token_with_logo, TokenOps.write_logo_uri;
    ledger_ok_auto.
Qed.
Lemma create_reserved_conserves x n y c q a :
  conserves (Factory.create_token_reserved_address x n y c q a).
Proof. unfold Factory.create_token_reserved_address. ledger_ok_auto. Qed.
#[local] Hint Resolve factory_conserves create_reserved_conserves : stable.

(** ** The guard *)

Lemma guard_conserves a o : conserves (GuardOps.dispatch a o).
Proof.
  destruct o; unfold GuardOps.dispatch, GuardOps.claim, GuardOps.burn_blocked_receipt.
  all: repeat first [ledger_ok_auto | match goal with x : (_ * _)%type |- _ => destruct x end].
Qed.
#[local] Hint Resolve guard_conserves : stable.

(** ** The fee manager *)

Lemma pay_out_conserves x b n : conserves (FeeAmm.pay_out x b n).
Proof. unfold FeeAmm.pay_out. stable_ok_auto. Qed.
Lemma pull_in_conserves x b n : conserves (FeeAmm.pull_in x b n).
Proof. unfold FeeAmm.pull_in. stable_ok_auto. Qed.
#[local] Hint Resolve pay_out_conserves pull_in_conserves : stable.

Lemma fee_conserves a o : conserves (FeeManager.dispatch a o).
Proof.
  destruct o; unfold FeeManager.dispatch.
  all: unfold FeeManager.set_validator_token, FeeManager.set_user_token,
    FeeManager.distribute_fees, FeeAmm.mint, FeeAmm.burn, FeeAmm.rebalance_swap.
  all: repeat first [ledger_ok_auto | match goal with x : (_ * _)%type |- _ => destruct x end].
Qed.
Lemma collect_pre_conserves p x n b k : conserves (FeeManager.collect_fee_pre_tx p x n b k).
Proof. unfold FeeManager.collect_fee_pre_tx. ledger_ok_auto. Qed.
Lemma collect_post_conserves p n r x b : conserves (FeeManager.collect_fee_post_tx p n r x b).
Proof. unfold FeeManager.collect_fee_post_tx. ledger_ok_auto. Qed.
#[local] Hint Resolve fee_conserves collect_pre_conserves collect_post_conserves : stable.

(** ** The DEX *)

Lemma dex_conserves a o : conserves (DexOps.dispatch a o).
Proof.
  apply dex_dispatch_ok; [apply _| |].
  - split; intros g w H; exact H.
  - split; intros; [apply transfer_any|apply system_transfer_any|].
    apply (conserves_any _ t0); [|intros; stable_auto]. by apply transfer_from_conserves.
Qed.
Lemma credits_conserves a o : conserves (Credits.dispatch a o).
Proof.
  destruct o; unfold Credits.dispatch, Credits.set_mode, Credits.set_budget,
    Credits.write_mode_with_budget, Credits.credit_state_of, Credits.write_credit_state_of;
    ledger_ok_auto.
Qed.
Lemma reserve_conserves a o : conserves (Reserve.dispatch a o).
Proof.
  apply reserve_dispatch_ok; [apply _|split; intros g w H; exact H|].
  split; intros; auto using channel_transfer_any, system_transfer_any, transfer_any.
Qed.
Lemma start_transaction_conserves h : conserves (Reserve.start_transaction h).
Proof. apply stable_stable_ok, stable_start_transaction; [apply _|split; intros g w H; exact H]. Qed.
#[local] Hint Resolve dex_conserves credits_conserves reserve_conserves start_transaction_conserves : stable.

Lemma exec_conserves a s : conserves (System.exec a s).
Proof.
  destruct s; unfold System.exec; [apply token_call_conserves|..]; ledger_ok_auto.
Qed.
End Steps.

(** C2: supply conservation. In every history of steps of the system (calls to the
    token, factory, guard, fee manager, DEX, channel reserve, policy, registry and
    keychain precompiles by any callers, nonce and fee handling of transactions, genesis
    creations, across any sequence of hardforks), the
    balances of every token keep adding up to its total supply, and the total
    supply never exceeds the supply cap, which never exceeds [u128::MAX]. *)
Theorem supply_conserved (h : System.history) (w : World) :
  (∀ t, ledger_ok t w) → ∀ t, ledger_ok t (System.run h w).
Proof.
  intros Hw t. apply System.run_invariant; [|done]. intros. apply exec_conserves.
Qed.

Lemma supply_conserved_witness :
  let w := System.run (System.example_history (example_env T8 100)) dflt in
  ledger_ok PATH_USD_ADDRESS w ∧ supply w PATH_USD_ADDRESS = 1000 ∧
  (bals w PATH_USD_ADDRESS).[6] = 300.
Proof.
  split; [|vm_compute; done].
  apply supply_conserved. intros t. by vm_compute.
Defined.

End SupplySpec.
