(* ===== verification/TransferSpec.v ===== *)
(** * What a transfer does

    The exact effect of the transfer operations: which checks passed, what was
    consumed, and where the funds went, to the recipient or, when the recipient's
    receive policy refuses them, to the guard against a receipt. *)

From S2P Require Import Prelude StorageSet Hardfork Address Errors State Monad.
From S2P Require Import AddressRegistry Tip20Base Keychain KeychainSpec Tip403 Tip20Core Guard.
From S2P Require Import Tip20 Tip20Factory GuardOps FeeAmm FeeManager System Tip20Frame Tip20Ledger.

Module TransferSpec.
Import(hints) KeychainSpec.
Import Policies Token TokenOps GuardBase.

Abbreviation allowed w t o s := ((w_tip20s w).[t].(TIP20Token.allowances).[(o, s)]).

(** ** Receive policies read the policy registry only *)

Section Queries.
Context (e : Env).
Abbreviation query := (Query e w_tip403).

Lemma query_decode d : query (decode_policy_type d).
Proof. unfold decode_policy_type. query_auto. Qed.
#[local] Hint Resolve query_decode : query.
Lemma query_simple_inner id u d : query (is_authorized_simple_inner id u d).
Proof. unfold is_authorized_simple_inner. query_auto. Qed.
#[local] Hint Resolve query_simple_inner : query.
Lemma query_get_policy_data id : query (get_policy_data id).
Proof. unfold get_policy_data, read_policy_id_counter. query_auto. Qed.
#[local] Hint Resolve query_get_policy_data : query.
Lemma query_simple id u c : query (is_authorized_simple id u c).
Proof. unfold is_authorized_simple. query_auto. Qed.
#[local] Hint Resolve query_simple : query.
Lemma query_check_receive t s r : query (check_receive_policy t s r).
Proof. unfold check_receive_policy, receive_policy_recovery. query_auto. Qed.
End Queries.

(** ** The guard's receipts *)

(** The receipt written for funds of [token] blocked in world [w]. *)
Definition blocked_receipt (e : Env) (w : World) (token originator : Address) (to : Recipient.t)
    (recovery : Address) (reason : BlockedReason) (kind : InboundKind) (memo : B256)
    : ClaimReceiptV1 :=
  new_receipt token recovery originator (Recipient.original_address to)
    (saturating_to U64_MAX (timestamp e)) (N.max (w_guard w).(Guard.nonce) 1)
    (blocked_reason_u8 reason) kind memo.

Definition receipt_id (e : Env) (r : ClaimReceiptV1) : B256 := keccak256 e (receipt_bytes r).

Lemma store_blocked_Ok t o r rec n reason kind memo e w u w' :
  store_blocked t o r rec n reason kind memo e w = (Ok u, w') →
  (w_guard w').(Guard.nonce) = N.max (w_guard w).(Guard.nonce) 1 + 1 ∧
  (w_guard w').(Guard.nonce) ≤ U64_MAX ∧
  (w_guard w').(Guard.balances) =
    <[receipt_id e (blocked_receipt e w t o r rec reason kind memo) := n]>
      (w_guard w).(Guard.balances).
Proof.
  unfold store_blocked, next_receipt_nonce, receipt_key, now_u64, emit_guard. intros H.
  m_inv; checked_simpl; subst; done.
Qed.

(** ** The transfer chain *)

(** The funds went where they were sent, and the guard was not involved. *)
Definition delivered (e : Env) (self a : Address) (r : Recipient.t) (n : U256) (w w' : World) :=
  (is_t6 (spec e) = true → check_receive_policy self a r.(Recipient.target) e w = (Ok None, w)) ∧
  bals w' self = move (bals w self) a r.(Recipient.target) n ∧ w_guard w' = w_guard w.

(** The recipient's receive policy refused the funds; the guard holds them against
    a fresh receipt of the same amount. *)
Definition diverted (e : Env) (self a : Address) (r : Recipient.t) (n : U256) (memo : B256)
    (w w' : World) :=
  is_t6 (spec e) = true ∧ r.(Recipient.target) ≠ RECEIVE_POLICY_GUARD_ADDRESS ∧
  ∃ reason recovery,
    check_receive_policy self a r.(Recipient.target) e w = (Ok (Some (reason, recovery)), w) ∧
    bals w' self = move (bals w self) a RECEIVE_POLICY_GUARD_ADDRESS n ∧
    let receipt := blocked_receipt e w self a r recovery reason KIND_TRANSFER memo in
    (w_guard w').(Guard.balances) = <[receipt_id e receipt := n]> (w_guard w).(Guard.balances) ∧
    (w_guard w').(Guard.nonce) = receipt.(blockedNonce) + 1.

(** A transfer of [n] from [a] to the address [to]: every check of the source passed,
    and the funds were delivered or diverted. *)
Definition moved (e : Env) (self a to : Address) (n : U256) (memo : B256) (w w' : World) :=
  ∃ r, Recipient.resolve to e w = (Ok r, w) ∧
    (w_tip20s w).[self].(TIP20Token.paused) = false ∧
    r.(Recipient.target) ≠ 0 ∧ is_tip20_prefix r.(Recipient.target) = false ∧
    is_transfer_authorized self a r.(Recipient.target) e w = (Ok true, w) ∧
    n ≤ (bals w self).[a] ∧
    (delivered e self a r n w w' ∨ diverted e self a r n memo w w').

Lemma query_resolve e a : Query e w_registry (Recipient.resolve a).
Proof.
  unfold Recipient.resolve, Registry.resolve_recipient, Registry.get_master. query_auto.
Qed.

Lemma consume_allowance_Ok self o s n e w u w' :
  consume_allowance self o s n e w = (Ok u, w') →
  n ≤ allowed w self o s ∧
  allowed w' self o s =
    (if allowed w self o s =? U256_MAX then U256_MAX else allowed w self o s - n).
Proof.
  unfold consume_allowance, get_allowance, set_allowance. intros H. m_inv; bool_simpl; checked_simpl.
  all: subst; split; [done|].
  - rewrite !sread_insert_eq. w_simpl. rewrite sread_insert_eq. by case N.eqb_spec.
  - by rewrite Heqb, N.eqb_refl.
Qed.

(** The blocking step, for a transfer. *)
Lemma inbound_Ok self a r n memo e w b w' :
  validate_inbound_or_block self a r n None memo e w = (Ok b, w') →
  if b then n ≤ (bals w self).[a] ∧ diverted e self a r n memo w w'
  else w' = w ∧ (is_t6 (spec e) = true → check_receive_policy self a r.(Recipient.target) e w = (Ok None, w)).
Proof.
  unfold validate_inbound_or_block. intros H. m_inv; same_world; bool_simpl.
  - split; [done|]. intros; congruence.
  - note_keeps (λ w, bals w self). note_keeps w_guard.
    match goal with H : _transfer _ _ _ _ _ _ = _ |- _ => apply transfer_Ok in H as [? Hb] end.
    match goal with H : store_blocked _ _ _ _ _ _ _ _ _ _ = _ |- _ => apply store_blocked_Ok in H as (Hg1 & _ & Hg2) end.
    split; [done|]. split; [done|]. split; [done|]. do 2 eexists. split; [eassumption|].
    unfold blocked_receipt in *. cbn in Hb |- *. split_and!; congruence.
  - by split.
Qed.

(** What [moved] reads of the starting world. *)
Abbreviation seen self := (λ w, (bals w self, w_guard w, w_tip403 w)).

Lemma delivered_from e self a r n w0 w w' :
  seen self w0 = seen self w → delivered e self a r n w0 w' → delivered e self a r n w w'.
Proof.
  intros [= Hb Hg Hp] (H1 & H2 & H3). split_and!; [|congruence..]. intros H6.
  by apply (query_transfer _ _ _ _ _ _ _ (query_check_receive _ _ _ _) Hp (H1 H6)).
Qed.
Lemma diverted_from e self a r n m w0 w w' :
  seen self w0 = seen self w → diverted e self a r n m w0 w' → diverted e self a r n m w w'.
Proof.
  intros [= Hb Hg Hp] (H1 & H2 & reason & rec & H3 & H4 & H5). split; [done|]. split; [done|].
  exists reason, rec. unfold blocked_receipt in *. rewrite <- Hg, <- Hb.
  apply (query_transfer e w_tip403 _ w0 w) in H3 as [_ H3]; [done|apply query_check_receive|done].
Qed.

Lemma inbound_from self a r n m e w0 w b w' :
  seen self w0 = seen self w →
  validate_inbound_or_block self a r n None m e w0 = (Ok b, w') →
  match (if b then None else Some r) with
  | None => n ≤ (bals w self).[a] ∧ diverted e self a r n m w w'
  | Some r' => r' = r ∧ seen self w' = seen self w ∧
      (is_t6 (spec e) = true → check_receive_policy self a r.(Recipient.target) e w = (Ok None, w))
  end.
Proof.
  intros Hs H%inbound_Ok. destruct b.
  - destruct H as [Hn H]. split; [congruence|]. eapply diverted_from; [exact Hs|exact H].
  - destruct H as [-> H]. split_and!; [done|done|]. intros H6. injection Hs as _ _ Hp.
    by apply (query_transfer _ _ _ _ _ _ _ (query_check_receive _ _ _ _) Hp (H H6)).
Qed.

Lemma inbound_keeps_allowances e self t a r n m :
  Stable e (keeps (λ w, (w_tip20s w).[t].(TIP20Token.allowances)))
    (validate_inbound_or_block self a r n None m).
Proof. unfold validate_inbound_or_block. stable_auto. Qed.
#[local] Hint Resolve stable_is_transfer_authorized inbound_keeps_allowances : stable.

Lemma validate_transfer_Ok self s a to n m e w res w' :
  validate_transfer self s a to n m e w = (Ok res, w') →
  match s with
  | Some s => n ≤ allowed w self a s ∧ allowed w' self a s =
      (if allowed w self a s =? U256_MAX then U256_MAX else allowed w self a s - n)
  | None => True
  end ∧
  ∃ r, Recipient.resolve to e w = (Ok r, w) ∧
    (w_tip20s w).[self].(TIP20Token.paused) = false ∧
    r.(Recipient.target) ≠ 0 ∧ is_tip20_prefix r.(Recipient.target) = false ∧
    is_transfer_authorized self a r.(Recipient.target) e w = (Ok true, w) ∧
    match res with
    | None => n ≤ (bals w self).[a] ∧ diverted e self a r n m w w'
    | Some r' => r' = r ∧ seen self w' = seen self w ∧
        (is_t6 (spec e) = true → check_receive_policy self a r.(Recipient.target) e w = (Ok None, w))
    end.
Proof.
  unfold validate_transfer, Recipient.validate, check_not_paused, paused, ensure_transfer_authorized.
  intros H. m_inv; same_world; bool_simpl.
  all: note_keeps (seen self); note_keeps (λ w, (w_tip20s w).[self].(TIP20Token.allowances)).
  - apply consume_allowance_Ok in Hrun3 as [? ?]. split; [split; congruence|].
    exists a0. split_and!; try done; [by apply N.eqb_neq|].
    eapply inbound_from; [|done]. congruence.
  - split; [done|]. exists a0. split_and!; try done; [by apply N.eqb_neq|].
    eapply inbound_from; [|done]. congruence.
Qed.

(** The spender, sender, recipient, amount and memo of a transfer call. *)
Definition transfer_of (sender : Address) (o : TokenOps.op)
    : option (option Address * Address * Address * U256 * B256) :=
  match o with
  | Transfer_ to n => Some (None, sender, to, n, 0)
  | TransferWithMemo to n memo => Some (None, sender, to, n, memo)
  | TransferFrom from to n => Some (Some sender, from, to, n, 0)
  | TransferFromWithMemo from to n memo => Some (Some sender, from, to, n, memo)
  | _ => None
  end.

Lemma finish_transfer_Ok self a r n ev e w u w' :
  finish_transfer self a (Some r) n ev e w = (Ok u, w') → r.(Recipient.target) ≠ 0 →
  n ≤ (bals w self).[a] ∧ bals w' self = move (bals w self) a r.(Recipient.target) n ∧
  w_guard w' = w_guard w ∧
  (w_tip20s w').[self].(TIP20Token.allowances) = (w_tip20s w).[self].(TIP20Token.allowances).
Proof.
  unfold finish_transfer. intros H Hz%N.eqb_neq. m_inv; note_keeps (λ w, bals w self);
    note_keeps w_guard; note_keeps (λ w, (w_tip20s w).[self].(TIP20Token.allowances)).
  all: apply transfer_Ok in Hrun as [? Hb]; unfold is_zero in Hb; rewrite Hz in Hb.
  all: split_and!; congruence.
Qed.

Lemma chain_exact self s a to n m ev e w res w1 u w' :
  validate_transfer self s a to n m e w = (Ok res, w1) →
  finish_transfer self a res n ev e w1 = (Ok u, w') →
  moved e self a to n m w w' ∧
  match s with
  | Some s => n ≤ allowed w self a s ∧ allowed w' self a s =
      (if allowed w self a s =? U256_MAX then U256_MAX else allowed w self a s - n)
  | None => True
  end.
Proof.
  intros (Hs & r & H1 & H2 & H3 & H4 & H5 & Hres)%validate_transfer_Ok Hf.
  destruct res as [r'|].
  - destruct Hres as (-> & Hsame & Hchk). apply finish_transfer_Ok in Hf as (F1 & F2 & F3 & F4); [|done].
    injection Hsame as Hb Hg Hp. rewrite Hb in F1, F2. split; [|destruct s; [|done]; by rewrite F4].
    exists r. split_and!; [done..|]. left. split_and!; [done|congruence..].
  - unfold finish_transfer in Hf. m_inv. split; [|done]. exists r. destruct Hres. split_and!; try done.
    by right.
Qed.

(** C30: a transfer does exactly what it says. If one of the four transfer calls of a
    token succeeds, then the token was not paused, the recipient address resolved
    to a proper account, the transfer policy authorized the pair, the sender had
    the funds, and exactly [n] moved from the sender: either to the resolved
    recipient, whose receive policy accepts it and the guard is untouched, or
    (from T6 on, and only if the receive policy refuses it) to the guard, which then
    holds a fresh receipt worth exactly [n]. A call on behalf of somebody else also
    needed an allowance of at least [n] and reduced it by exactly [n], unless it was
    the infinite one. *)
Theorem transfer_exact self sender o sp a to n memo e w u w' :
  transfer_of sender o = Some (sp, a, to, n, memo) →
  TokenOps.dispatch self sender o e w = (Ok u, w') →
  moved e self a to n memo w w' ∧
  match sp with
  | Some s => n ≤ allowed w self a s ∧ allowed w' self a s =
      (if allowed w self a s =? U256_MAX then U256_MAX else allowed w self a s - n)
  | None => True
  end.
Proof.
  intros Ho H. unfold TokenOps.dispatch, has_code in H. m_inv. destruct o; simplify_eq/=.
  all: apply mutate_Ok in H as [_ H].
  all: unfold transfer, transfer_from, transfer_with_memo, transfer_from_with_memo in H; m_inv.
  all: match goal with H1 : validate_transfer _ _ _ _ _ _ _ _ = _, H2 : finish_transfer _ _ _ _ _ _ _ = _
         |- _ => exact (chain_exact _ _ _ _ _ _ _ _ _ _ _ _ _ H1 H2) end.
Qed.

(** Account 7 spends 250 of the 400 that account 5 approved, paying account 6. *)
Definition allowance_history (e : Env) : System.history :=
  System.example_history e ++
  [ (e, 5, System.TokenCall PATH_USD_ADDRESS (TokenOps.Approve 7 400)) ].

Lemma transfer_exact_witness :
  let e := example_env T8 100 in
  let w := System.run (allowance_history e) dflt in
  let o := TokenOps.TransferFrom 5 6 250 in
  let w' := (TokenOps.dispatch PATH_USD_ADDRESS 7 o e w).2 in
  moved e PATH_USD_ADDRESS 5 6 250 0 w w' ∧ allowed w' PATH_USD_ADDRESS 5 7 = 150 ∧
  (bals w' PATH_USD_ADDRESS).[6] = 550.
Proof.
  intros e w o w'. split; [|by vm_compute].
  refine (proj1 (transfer_exact PATH_USD_ADDRESS 7 o (Some 7) 5 6 250 0 e w () w' eq_refl _)).
  by vm_compute.
Defined.
End TransferSpec.
