(* ===== verification/Authority.v ===== *)
(** * Who can take funds from an account

    A balance only goes down by an act of its holder, by a spender the holder
    approved, by a burner role of the token, or by the protocol's own transfers. *)

From S2P Require Import Prelude StorageSet Hardfork Address Errors State Monad Nonce.
From S2P Require Import AddressRegistry Tip20Base Keychain KeychainSpec Tip403 Tip20Core Tip20.
From S2P Require Import Tip20Factory Guard GuardOps FeeAmm FeeManager System ValidatorFrame Tip20Frame.
From S2P Require Import StorageCredits Dex DexFrame Reserve ReserveFrame SystemFrame Tip20Ledger TransferSpec.

Module Authority.
Import(hints) KeychainSpec.
Import Token TokenOps.

Import TransferSpec.
Abbreviation role w t a r := ((w_tip20s w).[t].(TIP20Token.roles).[(a, r)]).

(** No balance of token [t] goes down, except for accounts in [X]. *)
Definition spares (t : Address) (X : Address → Prop) : relation World := λ w w',
  ∀ x, ¬ X x → (bals w t).[x] ≤ (bals w' t).[x].

#[export] Instance spares_preorder t X : PreOrder (spares t X).
Proof. split; [intros w x _; done|]. intros ? ? ? H1 H2 x Hx. etrans; [by apply H1|by apply H2]. Qed.

Lemma credit_le m a n x : m.[x] ≤ (credit m a n).[x].
Proof. unfold credit. rewrite sread_insert. case_decide; subst; lia. Qed.
Lemma debit_other m a n x : x ≠ a → (debit m a n).[x] = m.[x].
Proof. intros. unfold debit. by rewrite sread_insert_ne. Qed.

Section Spares.
Context (e : Env) (t : Address) (X : Address → Prop).
Abbreviation ok := (StableOk e (spares t X)).

Lemma keeps_spares {A} (m : M A) : Stable e (keeps (λ w, bals w t)) m → ok m.
Proof. intros Hm w a w' H x _. by rewrite (Hm w _ w' H). Qed.

(** For an operation on [self] it is enough to look at [t = self]. *)
Lemma spares_cases {A} self (m : M A) :
  (t ≠ self → Stable e (keeps (λ w, tok w t)) m) → (t = self → ok m) → ok m.
Proof.
  intros Hne Heq. destruct (decide (t = self)) as [->|Ht]; [auto|].
  apply keeps_spares. intros w r w' H. unfold keeps. by rewrite (Hne Ht w r w' H).
Qed.

Lemma transfer_spares self a r n : (t = self → X a) → ok (_transfer self a r n).
Proof.
  intros Ha. apply (spares_cases self); [intros; stable_auto|intros ->].
  intros w u w' [_ H]%transfer_Ok x Hx. assert (x ≠ a) by (intros ->; auto).
  rewrite H. unfold move. destruct (is_zero _); [by rewrite debit_other|].
  etrans; [|apply credit_le]. by rewrite debit_other.
Qed.
Lemma mint_spares self r s n : ok (_mint self r s n).
Proof.
  apply (spares_cases self); [intros; stable_auto|intros ->].
  intros w u w' (_ & _ & _ & H)%mint_Ok x _. rewrite H. apply credit_le.
Qed.
Lemma increment_spares self a n : ok (increment_balance self a n).
Proof.
  apply (spares_cases self); [intros; stable_auto|intros ->].
  intros w u w' [H _]%increment_balance_Ok x _. rewrite H. apply credit_le.
Qed.
Lemma decrement_spares self a n : (t = self → X a) → ok (decrement_balance self a n).
Proof.
  intros Ha. apply (spares_cases self); [intros; stable_auto|intros ->].
  intros w u w' [H _]%decrement_balance_Ok x Hx. rewrite H, debit_other; [done|].
  intros ->; auto.
Qed.
Lemma reduce_spares self n : ok (reduce_total_supply self n).
Proof. apply keeps_spares. unfold reduce_total_supply. stable_auto. Qed.

(** Decompose an operation into those primitives. *)
Ltac spares_auto :=
  repeat first
    [ apply keeps_spares; solve [stable_auto; fail]
    | stable_ok_step
    | apply mint_spares | apply increment_spares | apply reduce_spares
    | apply transfer_spares; solve [auto] | apply decrement_spares; solve [auto]
    | match goal with x : (_ * _)%type |- _ => destruct x end ].

Lemma inbound_spares self o r n s m :
  (t = self → s = None → X o) → ok (validate_inbound_or_block self o r n s m).
Proof. intros Ho. unfold validate_inbound_or_block. destruct s; spares_auto. Qed.
Lemma validate_transfer_spares self s a b n m :
  (t = self → X a) → ok (validate_transfer self s a b n m).
Proof. intros Ha. pose proof inbound_spares. unfold validate_transfer. spares_auto. Qed.
Lemma validate_mint_spares self a b n m r : ok (validate_mint self a b n m r).
Proof. pose proof inbound_spares. unfold validate_mint, check_role. spares_auto. by apply H. Qed.
Lemma finish_transfer_spares self a r n ev :
  (t = self → X a) → ok (finish_transfer self a r n ev).
Proof. intros Ha. unfold finish_transfer. spares_auto. Qed.

(** The accounts an operation of the token, called by [a], names as payers. *)
Definition payer (self a : Address) (o : TokenOps.op) (x : Address) : Prop :=
  x = a ∨
  match o with
  | TransferFrom from _ _ | TransferFromWithMemo from _ _ _
  | BurnBlocked from _ | BurnAt from _ => x = from
  | ClaimRewards => x = self
  | _ => False
  end.

Lemma claim_rewards_spares self a : (t = self → X self) → ok (claim_rewards self a).
Proof.
  intros Hs. apply (spares_cases self); [intros; stable_auto|intros ->].
  intros w u w' H x Hx. unfold claim_rewards, get_balance in H. m_inv; same_world; checked_simpl; subst.
  all: note_keeps (λ w, bals w self).
  all: repeat match goal with
    H : set_balance _ _ _ _ _ = (Ok _, _) |- _ => apply set_balance_Ok in H end.
  all: assert (x ≠ self) by (intros ->; auto).
  all: repeat match goal with H : bals _ _ = _ |- _ => rewrite H end.
  3: done.
  all: rewrite !sread_insert; repeat case_decide; subst; try done; lia.
Qed.

Lemma dispatch_spares self a o :
  (∀ x, t = self → payer self a o x → X x) → ok (TokenOps.dispatch self a o).
Proof.
  intros Hp. assert (Ha : t = self → X a) by (intros; apply Hp; [done|by left]).
  pose proof validate_transfer_spares. pose proof validate_mint_spares.
  pose proof finish_transfer_spares. pose proof claim_rewards_spares.
  unfold TokenOps.dispatch. stable_ok_step; [spares_auto|]. stable_ok_step; [spares_auto|].
  destruct (is_admin_op o) eqn:Ho.
  { apply keeps_spares. intros w r w' Hr. pose proof (admin_ledger e self t a o Ho w r w' Hr) as Hk.
    unfold keeps in *. by injection Hk. }
  assert (Hq : ∀ x, match o with TransferFrom f _ _ | TransferFromWithMemo f _ _ _ | BurnBlocked f _
    | BurnAt f _ => x = f | ClaimRewards => x = self | _ => False end → t = self → X x).
  { intros x Hx Hts. apply Hp; [done|by right]. }
  clear Hp. destruct o; try discriminate; unfold dispatch_body.
  all: unfold transfer, transfer_from, transfer_with_memo, transfer_from_with_memo, approve, permit,
    mint, mint_with_role, mint_with_memo, burn, burn_with_memo, _burn, burn_blocked, burn_at,
    distribute_reward, set_reward_recipient, set_supply_cap, check_role.
  all: spares_auto.
Qed.

(** ** Steps of the system *)

(** The accounts a step taken by [a] can take funds of token [t] from. *)
Definition debtor (a : Address) (s : System.step) (x : Address) : Prop :=
  match s with
  | System.TokenCall self o => t = self ∧ payer self a o x
  | System.GuardCall _ => x = RECEIVE_POLICY_GUARD_ADDRESS
  | System.FeeCall _ => x = a ∨ x = TIP_FEE_MANAGER_ADDRESS
  | System.DexCall _ => x = a ∨ x = STABLECOIN_DEX_ADDRESS
  | System.FeePre token _ _ => t = token ∧ x = a
  | System.FeePost token _ _ => t = token ∧ x = TIP_FEE_MANAGER_ADDRESS
  | System.ReserveCall _ => x = a ∨ x = TIP20_CHANNEL_RESERVE_ADDRESS
  | _ => False
  end.

Lemma exec_spares a s : (∀ x, debtor a s x → X x) → ok (System.exec a s).
Proof.
  intros Hd. pose proof validate_transfer_spares. pose proof finish_transfer_spares.
  destruct s; simpl in Hd; unfold System.exec.
  - stable_ok_step; [spares_auto|]. apply dispatch_spares. auto.
  - unfold Factory.dispatch, Factory.create_token_with_logo, Factory.create_token,
      TokenOps.initialize, initialize_roles, set_role_admin_internal, grant_default_admin,
      grant_role_internal, write_logo_uri. destruct o; spares_auto.
  - assert (X RECEIVE_POLICY_GUARD_ADDRESS) by auto.
    unfold GuardOps.dispatch, GuardOps.claim, GuardOps.burn_blocked_receipt, release_blocked_funds,
      burn_blocked, check_role. destruct o; spares_auto.
  - assert (X a) by auto. assert (X TIP_FEE_MANAGER_ADDRESS) by auto.
    unfold FeeManager.dispatch, FeeManager.set_validator_token, FeeManager.set_user_token,
      FeeManager.distribute_fees, FeeAmm.mint, FeeAmm.burn, FeeAmm.rebalance_swap, FeeAmm.pay_out,
      FeeAmm.pull_in, transfer, system_transfer_from. destruct o; spares_auto.
  - spares_auto.
  - assert (X a) by auto. assert (X STABLECOIN_DEX_ADDRESS) by auto.
    apply dex_dispatch_ok; [apply _|split; intros g w x _; done|].
    split; intros; unfold transfer, system_transfer_from, transfer_from; spares_auto.
  - unfold Credits.dispatch, Credits.set_mode, Credits.set_budget, Credits.write_mode_with_budget,
      Credits.credit_state_of, Credits.write_credit_state_of. destruct o; spares_auto.
  - spares_auto.
  - spares_auto.
  - spares_auto.
  - assert (t = token → X a) by auto.
    unfold FeeManager.collect_fee_pre_tx, transfer_fee_pre_tx. spares_auto.
  - assert (t = token → X TIP_FEE_MANAGER_ADDRESS) by auto.
    unfold FeeManager.collect_fee_post_tx, transfer_fee_post_tx. spares_auto.
  - assert (X a) by auto. assert (X TIP20_CHANNEL_RESERVE_ADDRESS) by auto.
    apply reserve_dispatch_ok; [apply _|split; intros g w x _; done|].
    split; intros; unfold transfer, system_transfer_from, channel_reserve_transfer; spares_auto.
  - apply keeps_spares, stable_start_transaction; [apply _|]. auto with stable.
  - unfold Factory.create_token_reserved_address, TokenOps.initialize, initialize_roles,
      set_role_admin_internal, grant_default_admin, grant_role_internal. spares_auto.
  - spares_auto.
Qed.
End Spares.

#[export] Instance payer_dec self a o x : Decision (payer self a o x).
Proof. destruct o; unfold payer; apply _. Defined.
#[export] Instance debtor_dec t a s x : Decision (debtor t a s x).
Proof. destruct s; unfold debtor; apply _. Defined.

(** ** The authority behind a debit *)

(** What must be true when a step taken by [a] takes [d] of token [t] from [x]. *)
Definition may_debit (w : World) (a : Address) (s : System.step) (t x : Address) (d : U256) : Prop :=
  match s with
  | System.TokenCall self o => t = self ∧
      (x = a ∨
       match o with
       | TransferFrom from _ n | TransferFromWithMemo from _ n _ =>
           x = from ∧ d ≤ n ∧ n ≤ allowed w t from a
       | BurnBlocked from n => x = from ∧ d ≤ n ∧ role w t a BURN_BLOCKED_ROLE = true
       | BurnAt from n => x = from ∧ d ≤ n ∧ role w t a BURN_AT_ROLE = true
       | ClaimRewards => x = t
       | _ => False
       end)
  | System.GuardCall _ => x = RECEIVE_POLICY_GUARD_ADDRESS
  | System.FeeCall _ => x = a ∨ x = TIP_FEE_MANAGER_ADDRESS
  | System.DexCall _ => x = a ∨ x = STABLECOIN_DEX_ADDRESS
  | System.ReserveCall _ => x = a ∨ x = TIP20_CHANNEL_RESERVE_ADDRESS
  | System.FeePre token _ _ => t = token ∧ x = a
  | System.FeePost token _ _ => t = token ∧ x = TIP_FEE_MANAGER_ADDRESS
  | _ => False
  end.

Lemma debit_bound m a n x : m.[x] ≤ (debit m a n).[x] + n.
Proof. unfold debit. rewrite sread_insert. case_decide; subst; lia. Qed.
Lemma move_bound m a b n x : m.[x] ≤ (move m a b n).[x] + n.
Proof. etrans; [apply (debit_bound m a n)|]. pose proof (credit_le (debit m a n) b n x). unfold move. lia. Qed.

Lemma burn_bound self a n e w u1 w1 u2 w' x :
  _transfer self a (Recipient.direct ZERO_ADDRESS) n e w = (Ok u1, w1) →
  reduce_total_supply self n e w1 = (Ok u2, w') → (bals w self).[x] ≤ (bals w' self).[x] + n.
Proof.
  intros [_ H1]%transfer_Ok (_ & _ & H2 & _)%reduce_total_supply_Ok. cbn in H1. rewrite H2, H1.
  apply debit_bound.
Qed.

Lemma spent_exact self s a to n m ev e w res w1 u w' x :
  validate_transfer self (Some s) a to n m e w = (Ok res, w1) →
  finish_transfer self a res n ev e w1 = (Ok u, w') → x = a →
  x = a ∧ (bals w self).[x] - (bals w' self).[x] ≤ n ∧ n ≤ allowed w self a s.
Proof.
  intros H1 H2 ->. destruct (chain_exact _ _ _ _ _ _ _ _ _ _ _ _ _ H1 H2) as [Hm [Hn _]].
  destruct Hm as (r & _ & _ & _ & _ & _ & _ & [(_ & Hb & _)|(_ & _ & ? & ? & _ & Hb & _)]).
  all: rewrite Hb; split_and!; [done| |done].
  all: match goal with |- ?m.[?y] - (move _ _ ?b _).[_] ≤ _ => pose proof (move_bound m y b n y) end; lia.
Qed.

(** The calls that name another account as payer. *)
Lemma third_party_authority t a o e w u w' x :
  TokenOps.dispatch t a o e w = (Ok u, w') → x ≠ a → payer t a o x →
  may_debit w a (System.TokenCall t o) t x ((bals w t).[x] - (bals w' t).[x]).
Proof.
  intros H Hne [->|Hp]; [done|]. split; [done|]. right.
  unfold TokenOps.dispatch, has_code in H. m_inv.
  destruct o; try done; simpl; simpl in H.
  all: try (apply scheduled_Ok in H as [_ H]); apply mutate_Ok in H as [_ H].
  1: unfold transfer_from in H; m_inv; by eapply spent_exact.
  1: unfold transfer_from_with_memo in H; m_inv; by eapply spent_exact.
  all: unfold burn_blocked, burn_at, check_role, check_role_internal, has_role_internal in H;
    m_inv; same_world; (split; [done|]).
  all: note_keeps (λ w, bals w t); split; [|congruence].
  all: match goal with H1 : _transfer _ _ _ _ _ _ = _, H2 : reduce_total_supply _ _ _ _ = _ |- _ =>
         epose proof (burn_bound _ _ _ _ _ _ _ _ _ from H1 H2) as Hb end.
  all: repeat match goal with H : bals _ _ = _ |- _ => rewrite H end.
  all: repeat match goal with H : bals _ _ = _ |- _ => rewrite H in Hb end; lia.
Qed.

(** C4: who can take funds. Whenever a step of the system lowers an account's balance
    of a token, then either the account itself acted (called, paid a fee, or funded
    a protocol operation), or the caller held an allowance for at least the amount
    taken, or held the burner role of the token for the operation used, or the funds
    were those a protocol contract holds for others (the guard, the fee manager, the
    DEX, the channel reserve, the token's own reward pool). *)
Theorem debit_authority e a s w u w' t x :
  System.exec a s e w = (Ok u, w') → (bals w' t).[x] < (bals w t).[x] →
  may_debit w a s t x ((bals w t).[x] - (bals w' t).[x]).
Proof.
  intros H Hlt. destruct (decide (debtor t a s x)) as [Hd|Hn].
  2: { pose proof (exec_spares e t (debtor t a s) a s (λ _ Hx, Hx) w u w' H x Hn). lia. }
  destruct s; try exact Hd. destruct Hd as [-> Hp]. unfold System.exec in H. m_inv; same_world.
  destruct (decide (x = a)) as [->|Hne]; [split; auto|]. by eapply third_party_authority.
Qed.

Lemma debit_authority_witness :
  let e := example_env T8 100 in
  let w := System.run (allowance_history e) dflt in
  let s := System.TokenCall PATH_USD_ADDRESS (TokenOps.TransferFrom 5 6 250) in
  may_debit w 7 s PATH_USD_ADDRESS 5 250 ∧ allowed w PATH_USD_ADDRESS 5 7 = 400.
Proof.
  intros e w s. split; [|by vm_compute].
  pose (w' := (System.exec 7 s e w).2).
  assert (Hd : (bals w PATH_USD_ADDRESS).[5] - (bals w' PATH_USD_ADDRESS).[5] = 250) by (by vm_compute).
  rewrite <- Hd. apply (debit_authority e 7 s w () w'); by vm_compute.
Defined.
End Authority.
