(* ===== verification/Custody.v ===== *)
(** * Contracts that hold tokens for others

    The exchange and the channel reserve are custodians: accounts of the protocol that
    hold tokens on behalf of their users. A custodian never calls anything itself, so it
    has no receive policy and grants no allowances; what it pulls in it receives in full,
    and nobody but itself takes its tokens. *)

From S2P Require Import Prelude StorageSet Hardfork Address Bytes Signature Errors State Monad Nonce.
From S2P Require Import StorageCredits AddressRegistry Tip20Base Keychain KeychainSpec Tip403 Tip20Core Guard Tip20.
From S2P Require Import Dex Reserve Tip20Factory GuardOps FeeAmm FeeManager System ValidatorFrame Tip20Frame ReserveFrame DexFrame.
From S2P Require Import SystemFrame Tip20Ledger TransferSpec Authority.

Module Custody.
Import(hints) KeychainSpec.
Import Token TokenOps TransferSpec Authority.

Class Custodian (self : Address) : Prop := {
  not_guard : self ≠ RECEIVE_POLICY_GUARD_ADDRESS;
  not_fee_manager : self ≠ TIP_FEE_MANAGER_ADDRESS;
  not_token : is_tip20_prefix self = false;
  not_virtual : decode_virtual self = None;
  not_zero : is_zero self = false;
  burn_protected sp : is_t5 sp = true →
    existsb (λ p, since sp p.1 && existsb (N.eqb self) p.2) PROTECTED = true
}.
#[export] Instance dex_custodian : Custodian STABLECOIN_DEX_ADDRESS.
Proof. split; try done. by intros []. Qed.
#[export] Instance reserve_custodian : Custodian TIP20_CHANNEL_RESERVE_ADDRESS.
Proof. split; try done. by intros []. Qed.

(** The steps by which a custodian acts, or its transient storage is set up. *)
Definition own_call (self : Address) (s : System.step) : Prop :=
  match s with
  | System.DexCall _ => self = STABLECOIN_DEX_ADDRESS
  | System.ReserveCall _ | System.StartTransaction _ => self = TIP20_CHANNEL_RESERVE_ADDRESS
  | _ => False
  end.

Definition policies (w : World) := (w_tip403 w).(TIP403.receive_policies).
(** What a token transfer leaves alone. *)
Definition custody (w : World) := (w_dex w, w_reserve w, policies w).

Section custody.
Context (self : Address) `{!Custodian self}.

Definition held_by (w : World) (t : Address) : N := (bals w t).[self].
(** The custodian has no receive policy of its own. *)
Definition open_for (w : World) : Prop :=
  (policies w).[self].(ReceivePolicy.config).(ReceivePolicyConfig.has_receive_policy) = false.
Lemma open_policies w w' : policies w' = policies w → open_for w → open_for w'.
Proof. unfold open_for. by intros ->. Qed.

(** ** Payouts and pulls *)

Section moves.
Context (e : Env) (t a : Address) (n : U256).

Lemma out_custody b : Stable e (keeps custody) (transfer t a b n).
Proof. unfold transfer. stable_auto. Qed.
Lemma out_token b t' : t' ≠ t → Stable e (keeps (λ w, tok w t')) (transfer t a b n).
Proof. intros. unfold transfer. stable_auto. Qed.
Lemma in_custody c : Stable e (keeps custody) (system_transfer_from t c a n).
Proof. unfold system_transfer_from. stable_auto. Qed.
Lemma in_token c t' : t' ≠ t → Stable e (keeps (λ w, tok w t')) (system_transfer_from t c a n).
Proof. intros. unfold system_transfer_from. stable_auto. Qed.
Lemma channel_custody r s : Stable e (keeps custody) (channel_reserve_transfer t a r n s).
Proof. unfold channel_reserve_transfer. stable_auto. Qed.
Lemma channel_token r s t' : t' ≠ t → Stable e (keeps (λ w, tok w t')) (channel_reserve_transfer t a r n s).
Proof. intros. unfold channel_reserve_transfer. stable_auto. Qed.
End moves.

Lemma move_from_le m a b n : m.[a] ≤ (move m a b n).[a] + n.
Proof. unfold move, credit, debit. rewrite !sread_insert. repeat case_decide; subst; lia. Qed.

(** It is enough to look at the token moved. *)
Lemma held_le {A} (m : M A) e t n w r w' :
  (∀ t', t' ≠ t → Stable e (keeps (λ w, tok w t')) m) → m e w = (r, w') →
  held_by w t ≤ held_by w' t + n → ∀ t', held_by w t' ≤ held_by w' t' + at_token t t' n.
Proof.
  intros Ht H Hle t'. unfold at_token, held_by in *. destruct (decide (t = t')) as [<-|Hne]; [done|].
  pose proof (Ht t' ltac:(congruence) _ _ _ H) as Hk. unfold keeps in Hk. rewrite Hk. lia.
Qed.
Lemma held_eq {A} (m : M A) e t n w r w' :
  (∀ t', t' ≠ t → Stable e (keeps (λ w, tok w t')) m) → m e w = (r, w') →
  held_by w' t = held_by w t + n → ∀ t', held_by w' t' = held_by w t' + at_token t t' n.
Proof.
  intros Ht H Heq t'. unfold at_token, held_by in *. destruct (decide (t = t')) as [<-|Hne]; [done|].
  pose proof (Ht t' ltac:(congruence) _ _ _ H) as Hk. unfold keeps in Hk. rewrite Hk. lia.
Qed.

Lemma payout_held t to n e w u w' :
  transfer t self to n e w = (Ok u, w') →
  custody w' = custody w ∧ ∀ t', held_by w t' ≤ held_by w' t' + at_token t t' n.
Proof.
  intros H. split; [by apply (out_custody _ _ _ _ _ _ _ _ H)|].
  eapply held_le; [intros; by apply out_token|exact H|]. unfold held_by.
  unfold transfer in H. m_step H. m_step H. apply ret_Ok in H as [_ ->].
  destruct (chain_exact _ _ _ _ _ _ _ _ _ _ _ _ _ Hrun Hrun0) as [Hm _].
  destruct Hm as (r & _ & _ & _ & _ & _ & _ & [(_ & Hb & _)|(_ & _ & ? & ? & _ & Hb & _)]); rewrite Hb; apply move_from_le.
Qed.
Lemma channel_exact t a r n s e w u w' :
  channel_reserve_transfer t a r n s e w = (Ok u, w') →
  n ≤ (bals w t).[a] ∧
  bals w' t = if is_zero r.(Recipient.target) then debit (bals w t) a n else move (bals w t) a r.(Recipient.target) n.
Proof.
  intros H. unfold channel_reserve_transfer in H. repeat (m_step H). note_keeps (λ w, bals w t).
  assert (bals w5 t = bals w t) as E by congruence. apply transfer_Ok in Hrun5 as [Hle Hb]. rewrite E in *.
  split; [done|]. congruence.
Qed.
Lemma channel_payout_held t r n s e w u w' :
  channel_reserve_transfer t self r n s e w = (Ok u, w') →
  custody w' = custody w ∧ ∀ t', held_by w t' ≤ held_by w' t' + at_token t t' n.
Proof.
  intros H. split; [by apply (channel_custody _ _ _ _ _ _ _ _ _ H)|].
  eapply held_le; [intros; by apply channel_token|exact H|]. unfold held_by.
  apply channel_exact in H as [_ ->]. destruct (is_zero _); [|apply move_from_le].
  unfold debit. rewrite sread_insert_eq. lia.
Qed.
Lemma channel_pull_held t a n s e w u w' :
  a ≠ self → channel_reserve_transfer t a (Recipient.direct self) n s e w = (Ok u, w') →
  custody w' = custody w ∧ ∀ t', held_by w' t' = held_by w t' + at_token t t' n.
Proof.
  intros Ha H. split; [by apply (channel_custody _ _ _ _ _ _ _ _ _ H)|].
  eapply held_eq; [intros; by apply channel_token|exact H|]. unfold held_by.
  apply channel_exact in H as [_ ->]. cbn [Recipient.direct Recipient.target]. rewrite not_zero.
  unfold move, credit, debit. by rewrite sread_insert_eq, sread_insert_ne.
Qed.

Lemma resolve_self e w r w' : Recipient.resolve self e w = (Ok r, w') → r.(Recipient.target) = self.
Proof.
  unfold Recipient.resolve, Registry.resolve_recipient. rewrite not_virtual. intros H. m_inv; by destruct (self =? self).
Qed.
Lemma open_accepts e w t a r w' :
  open_for w → Policies.check_receive_policy t a self e w = (Ok r, w') → r = None.
Proof.
  unfold open_for, policies, Policies.check_receive_policy. intros Ho H. m_step H. apply rd_Ok in Hrun as [-> ->].
  change (cget tip403C w) with (w_tip403 w) in H. rewrite Ho in H. by apply ret_Ok in H as [-> _].
Qed.
Lemma pull_held t a n e w u w' :
  open_for w → a ≠ self → system_transfer_from t self a n e w = (Ok u, w') →
  custody w' = custody w ∧ ∀ t', held_by w' t' = held_by w t' + at_token t t' n.
Proof.
  intros Hopen Ha H. split; [by apply (in_custody _ _ _ _ _ _ _ _ H)|].
  eapply held_eq; [intros; by apply in_token|exact H|]. unfold held_by.
  unfold system_transfer_from in H. m_step H. apply asks_Ok in Hrun as [-> ->].
  m_step H. apply require_Ok in Hrun as [_ ->]. m_step H. m_step H. apply ret_Ok in H as [_ ->].
  destruct (chain_exact _ _ _ _ _ _ _ _ _ _ _ _ _ Hrun Hrun0) as [Hm _].
  destruct Hm as (r & Hr & _ & _ & _ & _ & _ & [(_ & Hb & _)|(_ & _ & ? & ? & Hc & _)]).
  - rewrite (resolve_self _ _ _ _ Hr) in Hb. rewrite Hb. unfold move, credit, debit.
    rewrite sread_insert_eq, sread_insert_ne by done. done.
  - rewrite (resolve_self _ _ _ _ Hr) in Hc. by apply open_accepts in Hc.
Qed.

(** ** What the rest of the system does to a custodian

    Nothing else touches its books, sets its receive policy or gives away an allowance
    over its tokens. *)

Definition own_books (w w' : World) : Prop :=
  (self = STABLECOIN_DEX_ADDRESS → w_dex w' = w_dex w) ∧
  (self = TIP20_CHANNEL_RESERVE_ADDRESS → w_reserve w' = w_reserve w).
Definition shielded (t : Address) : relation World := λ w w',
  own_books w w' ∧ (policies w').[self] = (policies w).[self] ∧
  ∀ x, allowed w t self x = 0 → allowed w' t self x = 0.
#[export] Instance shielded_po t : PreOrder (shielded t).
Proof.
  split; [done|]. intros w1 w2 w3 ([D1 R1] & P1 & A1) ([D2 R2] & P2 & A2). unfold shielded, own_books.
  split_and!; [intros E; rewrite D2, D1 by done; done|intros E; rewrite R2, R1 by done; done|congruence|auto].
Qed.

Section shield.
Context (e : Env) (t : Address).
Abbreviation ok m := (StableOk e (shielded t) m).
Abbreviation shown := (λ w, (w_dex w, w_reserve w, (w_tip403 w).(TIP403.receive_policies), (w_tip20s w).[t].(TIP20Token.allowances))).

Lemma keeps_shielded {A} (m : M A) : Stable e (keeps shown) m → ok m.
Proof. intros Hm w a w' H. specialize (Hm _ _ _ H). unfold keeps in Hm. injection Hm as E0 E1 E2 E3. unfold shielded, own_books, policies. split_and!; congruence. Qed.

Lemma set_allowance_shielded tk o s n : o ≠ self → ok (set_allowance tk o s n).
Proof.
  intros Ho w u w' H. unfold set_allowance in H. m_step H. subst.
  split_and!; [done..|]. intros x. w_simpl. rewrite sread_insert. case_decide as E; [subst|done].
  w_simpl. by rewrite sread_insert_ne by congruence.
Qed.
Lemma consume_shielded tk o s n : ok (consume_allowance tk o s n).
Proof.
  intros w u w' H. unfold consume_allowance, get_allowance, set_allowance in H.
  m_inv; checked_simpl; subst; split_and!; try done.
  intros x. w_simpl. rewrite sread_insert. case_decide as E; [subst|done].
  w_simpl. rewrite sread_insert. case_decide as E'; [|done]. injection E' as -> ->. lia.
Qed.
Ltac shield_auto :=
  repeat first
    [ apply keeps_shielded; solve [stable_auto; fail]
    | stable_ok_step
    | apply consume_shielded | apply set_allowance_shielded; solve [auto]
    | match goal with x : (_ * _)%type |- _ => destruct x end ].
Lemma validate_transfer_shielded tk s a b n m : ok (validate_transfer tk s a b n m).
Proof. unfold validate_transfer, validate_inbound_or_block. shield_auto. Qed.

Hypothesis Hsig : ∀ d v r s, ecrecover e d v r s ≠ Some self.
Lemma permit_shielded tk o s n d v r z : ok (permit tk o s n d v r z).
Proof.
  destruct (decide (o = self)) as [->|Ho]; [|unfold permit; shield_auto].
  intros w u w' H. exfalso. unfold permit, recover_signer in H. m_inv; bool_simpl; subst; try done.
  match goal with H : Some self = match ?o with _ => _ end |- _ => destruct o as [x|] eqn:Ex; [|done] end.
  destruct (is_zero x); [done|]. by eapply Hsig; rewrite Ex.
Qed.

Lemma finish_shielded tk a r n m : ok (finish_transfer tk a r n m).
Proof. unfold finish_transfer. shield_auto. Qed.
Lemma mint_shielded tk r s n : ok (_mint tk r s n).
Proof. unfold _mint, set_total_supply. shield_auto. Qed.
Lemma reduce_shielded tk n : ok (reduce_total_supply tk n).
Proof. unfold reduce_total_supply, set_total_supply. shield_auto. Qed.
Lemma claim_shielded tk a : ok (claim_rewards tk a).
Proof. unfold claim_rewards. shield_auto. Qed.

Lemma admin_shielded tk a o : is_admin_op o = true → ok (dispatch_body tk a o).
Proof.
  intros Ho. destruct o; try discriminate; unfold dispatch_body.
  all: unfold change_transfer_policy_id, set_logo_uri, pause, unpause, set_next_quote_token,
    complete_quote_token_update, grant_role, revoke_role, renounce_role, set_role_admin,
    Policies.set_token_transfer_policy, write_logo_uri, grant_role_internal, revoke_role_internal,
    set_role_admin_internal, check_role.
  all: shield_auto.
Qed.
Lemma dispatch_shielded tk a o : a ≠ self → ok (TokenOps.dispatch tk a o).
Proof.
  intros Ha. pose proof validate_transfer_shielded. pose proof permit_shielded. pose proof finish_shielded.
  pose proof mint_shielded. pose proof reduce_shielded. pose proof claim_shielded.
  unfold TokenOps.dispatch. stable_ok_step; [shield_auto|]. stable_ok_step; [shield_auto|].
  destruct (is_admin_op o) eqn:Ho; [by apply admin_shielded|].
  destruct o; try discriminate; unfold dispatch_body.
  all: unfold transfer, transfer_from, transfer_with_memo, transfer_from_with_memo, approve,
    mint, mint_with_role, mint_with_memo, burn, burn_with_memo, _burn, burn_blocked, burn_at,
    distribute_reward, set_reward_recipient, set_supply_cap, validate_mint, validate_inbound_or_block, check_role.
  all: shield_auto.
Qed.

(** The policy registry. *)
Import Policies.
Lemma migrate_keeps l n : Stable e (keeps shown) (migrate_loop l n).
Proof.
  revert n. induction l as [|x l IH]; intros n; simpl; [stable_auto|].
  unfold set_token_transfer_policy, delete_legacy_transfer_policy_id. repeat (stable_step || apply IH).
Qed.
Lemma policies_shielded a o : a ≠ self → ok (Policies.dispatch a o).
Proof.
  intros Ha. pose proof migrate_keeps. destruct o; unfold Policies.dispatch.
  all: unfold create_policy, create_policy_with_accounts, add_initial_account, set_policy_admin,
    modify_policy_whitelist, modify_policy_blacklist, create_compound_policy, set_receive_policy,
    migrate_transfer_policy_ids, ensure_is_simple, validate_simple_policy, validate_receive_policy_id,
    allocate_policy_id, set_policy_data, write_policy_set, emit403, read_policy_id_counter, decode_policy_type.
  all: shield_auto.
  intros w u w' H'. m_step H'. subst. split_and!; try done.
  unfold policies. w_simpl. by rewrite sread_insert_ne.
Qed.

Lemma start_shielded h : self ≠ TIP20_CHANNEL_RESERVE_ADDRESS → ok (Reserve.start_transaction h).
Proof. intros Hs w u w' H. unfold Reserve.start_transaction in H. m_inv. by split_and!. Qed.

Lemma exec_shielded a s : a ≠ self → ¬ own_call self s → ok (System.exec a s).
Proof.
  intros Ha Ho. pose proof validate_transfer_shielded. pose proof finish_shielded. pose proof mint_shielded.
  pose proof reduce_shielded. destruct s; unfold System.exec.
  - stable_ok_step; [shield_auto|]. by apply dispatch_shielded.
  - unfold Factory.dispatch, Factory.create_token_with_logo, Factory.create_token,
      TokenOps.initialize, initialize_roles, set_role_admin_internal, grant_default_admin,
      grant_role_internal, write_logo_uri, set_token_transfer_policy. destruct o; shield_auto.
  - unfold GuardOps.dispatch, GuardOps.claim, GuardOps.burn_blocked_receipt, release_blocked_funds,
      burn_blocked, check_role. destruct o; shield_auto.
  - unfold FeeManager.dispatch, FeeManager.set_validator_token, FeeManager.set_user_token,
      FeeManager.distribute_fees, FeeAmm.mint, FeeAmm.burn, FeeAmm.rebalance_swap, FeeAmm.pay_out,
      FeeAmm.pull_in, transfer, system_transfer_from. destruct o; shield_auto.
  - by apply policies_shielded.
  - apply dex_dispatch_ok; [apply _|split; intros g w; unfold shielded, own_books; naive_solver|].
    split; intros; unfold transfer, system_transfer_from, transfer_from; shield_auto.
  - apply stable_stable_ok, Credits.credits_dispatch; [apply _|]. by intros g w.
  - shield_auto.
  - shield_auto.
  - shield_auto.
  - unfold FeeManager.collect_fee_pre_tx, transfer_fee_pre_tx. shield_auto.
  - unfold FeeManager.collect_fee_post_tx, transfer_fee_post_tx. shield_auto.
  - apply reserve_dispatch_ok; [apply _|split; intros g w; unfold shielded, own_books; naive_solver|].
    split; intros; unfold transfer, system_transfer_from, channel_reserve_transfer; shield_auto.
  - by apply start_shielded.
  - unfold Factory.create_token_reserved_address, TokenOps.initialize, initialize_roles,
      set_role_admin_internal, grant_default_admin, grant_role_internal, set_token_transfer_policy. shield_auto.
  - shield_auto.
Qed.

(** ** Nobody else takes its tokens *)

Hypothesis H5 : is_t5 (spec e) = true.
Lemma burn_refused tk w u w' : check_burn_address tk self e w = (Ok u, w') → False.
Proof.
  unfold check_burn_address. intros H. m_step H. m_step Hrun. subst. apply require_Ok in H as [H _].
  by rewrite burn_protected in H.
Qed.
Lemma burn_from_self tk a n w u w' :
  (TokenOps.dispatch tk a (BurnBlocked self n) e w = (Ok u, w') → False) ∧
  (TokenOps.dispatch tk a (BurnAt self n) e w = (Ok u, w') → False).
Proof.
  split; intros H; unfold TokenOps.dispatch, has_code in H; m_inv; simpl in H.
  all: try (apply scheduled_Ok in H as [_ H]); apply mutate_Ok in H as [_ H].
  all: unfold burn_blocked, burn_at, check_role in H; m_inv.
  all: by eapply burn_refused.
Qed.

Lemma exec_holds a s w u w' :
  a ≠ self → ¬ own_call self s → (∀ x, allowed w t self x = 0) →
  System.exec a s e w = (Ok u, w') → held_by w t ≤ held_by w' t.
Proof.
  intros Ha Hd Hz H. unfold held_by. destruct (decide (debtor t a s self)) as [Hx|Hn].
  2: by apply (exec_spares e t (debtor t a s) a s (λ _ Hx, Hx) w u w' H self Hn).
  pose proof not_guard. pose proof not_fee_manager.
  destruct s; simpl in Hx, Hd; try naive_solver. destruct Hx as [<- Hp].
  unfold System.exec in H. m_step H. unfold from_address in Hrun. apply require_Ok in Hrun as [Hpre ->].
  pose proof (third_party_authority _ _ _ _ _ _ _ self H (not_eq_sym Ha) Hp) as Hm.
  destruct Hp as [?|Hp]; [done|]. destruct o; try done; try (subst from).
  - destruct Hm as [_ [?|(_ & Hle1 & Hle2)]]; [done|]. rewrite Hz in Hle2. lia.
  - destruct Hm as [_ [?|(_ & Hle1 & Hle2)]]; [done|]. rewrite Hz in Hle2. lia.
  - by apply burn_from_self in H.
  - by apply burn_from_self in H.
  - by rewrite <- Hp, not_token in Hpre.
Qed.

End shield.
End custody.
End Custody.
