(* ===== verification/DexPairs.v ===== *)
(** * Creating pairs

    A new book leaves the books there are, their orders and their money alone, and is
    stored under the key of its tokens. *)

From stdpp Require Import functions.
From S2P Require Import Prelude Packing Hardfork Address Errors DexState State Monad.
From S2P Require Import StorageCredits DexOrder DexBook DexMath DexBitmap AddressRegistry Tip20Base.
From S2P Require Import Keychain KeychainSpec Tip403 Tip20Core Guard Tip20 Dex Tip20Frame DexFrame.
From S2P Require Import DexView DexQueue DexInv DexFill DexLedger DexWalk DexRoute.

Module DexPairs.
Import Book DexOps DexMath DexBitmap DexView DexQueue DexCommit DexInv DexFill DexLedger DexWalk DexRoute.

(** ** The two updates *)

Definition new_pair (k : B256) (base quote : Address) (bid : N) (s : Dex.State) : Dex.State :=
  Dex.set_book_keys (λ l, l ++ [k])
    (on_book k (λ o, Orderbook.mk base quote o.(Orderbook.bids) o.(Orderbook.asks) I16_MIN I16_MAX bid
      o.(Orderbook.bid_bitmap) o.(Orderbook.ask_bitmap)) s).
Definition put_book_id (k : B256) (bid : N) : Dex.State → Dex.State :=
  on_book k (Orderbook.set_book_id (λ _, bid)).

#[export] Instance write_book_dx k b :
  Moves (write_book k b) (λ _, on_book k (λ o, Orderbook.mk b.(Orderbook.base) b.(Orderbook.quote)
    o.(Orderbook.bids) o.(Orderbook.asks) b.(Orderbook.best_bid_tick) b.(Orderbook.best_ask_tick)
    b.(Orderbook.book_id) o.(Orderbook.bid_bitmap) o.(Orderbook.ask_bitmap))).
Proof. intros e w u w' H. unfold write_book in H. dx_inv. by rewrite H. Qed.
#[export] Instance push_book_key_dx k : Moves (push_book_key k) (λ _, Dex.set_book_keys (λ l, l ++ [k])).
Proof. intros e w u w' H. unfold push_book_key, get_book_keys in H. dx_inv. by rewrite H. Qed.
#[export] Instance compute_book_key_dx b q :
  Effect (compute_book_key b q) (λ e w k w', w' = w ∧ k = pair_key (keccak256 e) b q).
Proof. intros e w k w' H. unfold compute_book_key in H. by m_inv. Qed.
#[global] Typeclasses Opaque write_book push_book_key compute_book_key.

Lemma from_address_Ok t e w u w' : from_address t e w = (Ok u, w') → is_tip20_prefix t = true ∧ w' = w.
Proof. unfold from_address. apply require_Ok. Qed.
Lemma validate_usd_Ok t e w u w' :
  TokenOps.validate_usd_currency t e w = (Ok u, w') → is_tip20_prefix t = true ∧ w' = w.
Proof.
  intros H. split; [|by effect_in H]. unfold TokenOps.validate_usd_currency in H. m_step H.
  by apply from_address_Ok in Hrun as [? _].
Qed.

#[export] Instance create_pair_dx base :
  Effect (create_pair base) (λ e w k w',
    let quote := quotes w base in
    is_tip20_prefix base = true ∧ is_tip20_prefix quote = true ∧
    k = pair_key (keccak256 e) base quote ∧ ¬ initialized (dx w) k ∧
    ∃ bid, (bid = 0 ∨ bid = book_id_from_index (as_u32 (N.of_nat (length (dx w).(Dex.book_keys))))) ∧
      dx w' = new_pair k base quote bid (dx w)).
Proof.
  intros e w k w' H. unfold create_pair, get_book_keys in H.
  m_step H. effect_in Hrun. subst. m_step H. apply require_Ok in Hrun as [_ ->].
  m_step H. apply from_address_Ok in Hrun as [Hb ->]. m_step H. apply quote_token_Ok in Hrun as [-> ->].
  m_step H. effect_in Hrun. subst. m_step H. apply validate_usd_Ok in Hrun as [Hq ->].
  m_step H. effect_in Hrun. destruct Hrun as [-> Ek]. m_step H. effect_in Hrun. destruct Hrun as [-> ->].
  m_step H. apply require_Ok in Hrun as [Hini ->]. m_step H. apply asks_Ok in Hrun as [-> ->].
  m_step H. apply rd_Ok in Hrun as [-> ->]. m_step H. effect_in Hrun. m_step H. effect_in Hrun0.
  m_step H. effect_in Hrun1. apply ret_Ok in H as [-> ->].
  assert (dx w2 = dx w1) as E by congruence. rewrite E, Hrun0, Hrun.
  split_and!; try done.
  - unfold initialized, pair, is_initialized, is_zero in *. cbn. bool_simpl. lia.
  - destruct (is_t8 (spec e)); eexists; (split; [|reflexivity]); [by right|by left].
Qed.

#[export] Instance set_book_index_dx i :
  Effect (set_book_index i) (λ _ w _ w',
    dx w' = dx w ∨
    ∃ k, (dx w).(Dex.book_keys) !! N.to_nat i = Some k ∧ initialized (dx w) k ∧ (pair (dx w) k).2 = 0 ∧
      dx w' = put_book_id k (book_id_from_index i) (dx w)).
Proof.
  intros e w u w' H. unfold set_book_index, Orders.book_key_for_index, book_key_index in H.
  m_step H. m_step Hrun. apply rd_Ok in Hrun0 as [-> ->]. apply ok_or_Ok in Hrun as [Hk ->].
  m_step H. m_step Hrun. effect_in Hrun0. destruct Hrun0 as [-> ->]. m_step Hrun. apply require_Ok in Hrun0 as [Hi ->].
  apply ret_Ok in Hrun as [-> ->]. destruct (Orders.book_id_index _) as [j|] eqn:Ej.
  - apply require_Ok in H as [_ ->]. by left.
  - effect_in H. right. exists a. split_and!; [done| | |done].
    + unfold initialized, pair, is_initialized, is_zero in *. cbn. bool_simpl. done.
    + unfold Orders.book_id_index, checked_sub in Ej. unfold pair. cbn.
      destruct (N.leb_spec 1 (Orderbook.book_id (book (dx w) a))); [done|lia].
Qed.

(** ** What they leave alone *)

(** Live orders, their queues and their books are the same. *)
Record grown (s s' : Dex.State) : Prop := Grown {
  gr_balances : s'.(Dex.balances) = s.(Dex.balances);
  gr_next : s'.(Dex.next_order_id) = s.(Dex.next_order_id);
  gr_maker : ∀ x, (ord s' x).(Order.maker) = (ord s x).(Order.maker);
  gr_ord : ∀ x, (ord s x).(Order.maker) ≠ 0 → ord s' x = ord s x;
  gr_lv : ∀ c, lv s' c = lv s c;
  gr_bt : ∀ c, bt s' c = bt s c;
  gr_pair : ∀ k, initialized s k → (pair s' k).1 = (pair s k).1;
  gr_best : ∀ k b, initialized s k → best s' k b = best s k b;
  gr_new : ∀ k b, initialized s' k → ¬ initialized s k → best s' k b = no_tick b;
  gr_books : (∀ k, id_of_book s.(Dex.book_keys) k (pair s k).2) → ∀ k, id_of_book s'.(Dex.book_keys) k (pair s' k).2;
  gr_res : ∀ x, resolvable s x → resolvable s' x
}.

Lemma grown_initialized s s' k : grown s s' → initialized s k → initialized s' k.
Proof. intros HG Hk. unfold initialized. by rewrite (gr_pair _ _ HG). Qed.

Lemma wf_grown s s' Q : grown s s' → book_wf s Q → book_wf s' Q.
Proof.
  intros HG HW. assert (∀ c x, x ∈ Q c → ord s' x = ord s x) as Ho.
  { intros c x Hx. apply (gr_ord _ _ HG). apply (rs_maker s c), (queue_resting _ _ _ _ (wf_queue _ _ HW c) Hx). }
  split.
  - intros c. destruct (wf_queue _ _ HW c) as [Hs Hn Hp Hh Ht Hb Hd].
    split; rewrite ?(gr_lv _ _ HG), ?(gr_bt _ _ HG); try done.
    + apply (seg_ext s); [|done]. apply Ho.
    + intros Hne. destruct (Hd Hne) as [? ?]. split; [done|]. by apply (grown_initialized s s').
  - intros x. rewrite (gr_maker _ _ HG). intros Hm. rewrite (gr_ord _ _ HG) by done. by apply HW.
  - intros c x Hx. unfold next_id. rewrite (gr_next _ _ HG). by apply (wf_ids _ _ HW c).
  - intros k b Hk. destruct (decide (initialized s k)) as [Hi|Hi].
    + apply (best_ok_ext s); [by apply HG|intros; apply HG|by apply HW].
    + unfold best_ok. rewrite (gr_new _ _ HG k b Hk Hi), decide_True by done. intros t. rewrite (gr_bt _ _ HG).
      apply not_true_is_false. intros Hb. pose proof (wf_queue _ _ HW (k, b, t)) as Hq.
      by apply Hi, (q_dom _ _ _ Hq), (q_bit _ _ _ Hq).
  - apply (gr_books _ _ HG), HW.
  - intros x. rewrite (gr_maker _ _ HG). intros Hm. by apply (gr_res _ _ HG), HW.
Qed.

Lemma grown_liabilities s s' Q t : grown s s' → book_wf s Q → liabilities s' t = liabilities s t.
Proof.
  intros HG HW. unfold liabilities, locked. rewrite (owed_eq s s' t (gr_balances _ _ HG)). f_equal.
  apply msum_ext. intros x. rewrite !locked_read. unfold escrow_in. rewrite (gr_maker _ _ HG).
  destruct (decide (_ = 0)) as [|Hm]; [done|]. rewrite (gr_ord _ _ HG) by done. unfold escrow_token.
  rewrite (gr_pair _ _ HG); [done|]. pose proof (wf_live _ _ HW x Hm) as Hx.
  apply (q_dom _ _ _ (wf_queue _ _ HW (okey (ord s x)))). by intros E; rewrite E in Hx; apply elem_of_nil in Hx.
Qed.

Lemma ord_new_pair k base quote bid s x :
  (ord (new_pair k base quote bid s) x).(Order.maker) = (ord s x).(Order.maker) ∧
  (resolvable s x → ord (new_pair k base quote bid s) x = ord s x ∧ resolvable (new_pair k base quote bid s) x).
Proof.
  unfold ord, resolvable, new_pair, Dex.set_book_keys, on_book, Dex.set_books. cbn.
  destruct ((Dex.orders s).[x]) as [o|v|v]; cbn; [done|done|]. split; [done|]. intros [k' Hk'].
  rewrite (lookup_app_l_Some _ _ _ _ Hk'), Hk'. by split.
Qed.

(** Books are counted in 32 bits. *)
Definition room (s : Dex.State) : Prop := N.of_nat (length s.(Dex.book_keys)) < 2 ^ 32 - 1.

Lemma book_id_next s :
  room s → book_id_from_index (as_u32 (N.of_nat (length s.(Dex.book_keys)))) = N.of_nat (length s.(Dex.book_keys)) + 1.
Proof. unfold room, book_id_from_index, as_u32. intros H. rewrite !N.mod_small; [done|lia|]. rewrite N.mod_small; lia. Qed.

Lemma grown_new_pair s Q k base quote bid :
  book_wf s Q → ¬ initialized s k → room s →
  (bid = 0 ∨ bid = book_id_from_index (as_u32 (N.of_nat (length s.(Dex.book_keys))))) →
  grown s (new_pair k base quote bid s).
Proof.
  intros HW Hk Hroom Hbid. rewrite (book_id_next s Hroom) in Hbid. set (s' := new_pair k base quote bid s).
  assert (∀ k', k' ≠ k → book s' k' = book s k') as Eb.
  { intros k' Hne. change (book s' k') with (book (on_book k (λ o, Orderbook.mk base quote o.(Orderbook.bids)
      o.(Orderbook.asks) I16_MIN I16_MAX bid o.(Orderbook.bid_bitmap) o.(Orderbook.ask_bitmap)) s) k').
    by rewrite book_on_book, decide_False by congruence. }
  assert (book s' k = Orderbook.mk base quote (book s k).(Orderbook.bids) (book s k).(Orderbook.asks) I16_MIN I16_MAX
    bid (book s k).(Orderbook.bid_bitmap) (book s k).(Orderbook.ask_bitmap)) as Ek.
  { change (book s' k) with (book (on_book k (λ o, Orderbook.mk base quote o.(Orderbook.bids)
      o.(Orderbook.asks) I16_MIN I16_MAX bid o.(Orderbook.bid_bitmap) o.(Orderbook.ask_bitmap)) s) k).
    by rewrite book_on_book, decide_True. }
  split; try done.
  - intros x. apply ord_new_pair.
  - intros x Hm. by apply ord_new_pair, HW.
  - intros [[k' b] t]. unfold lv, lvl. cbn [fst snd]. destruct (decide (k' = k)) as [->|]; [|by rewrite Eb].
    rewrite Ek. by destruct b.
  - intros [[k' b] t]. unfold bt, bit. cbn [fst snd]. destruct (decide (k' = k)) as [->|]; [|by rewrite Eb].
    rewrite Ek. by destruct b.
  - intros k' Hi. unfold pair. rewrite Eb; [done|]. by intros ->.
  - intros k' b Hi. unfold best. rewrite Eb; [done|]. by intros ->.
  - intros k' b Hi' Hi. unfold best. destruct (decide (k' = k)) as [->|Hne]; [rewrite Ek; by destruct b|].
    destruct Hi. unfold initialized, pair in *. by rewrite Eb in Hi'.
  - intros Hb k'. unfold id_of_book, pair. cbn [Dex.book_keys s' new_pair Dex.set_book_keys on_book Dex.set_books].
    destruct (decide (k' = k)) as [->|Hne].
    + rewrite Ek. cbn. destruct Hbid as [->| ->]; [by left|right].
      rewrite N.add_sub, Nat2N.id. by rewrite lookup_app_r, Nat.sub_diag by lia.
    + rewrite Eb by done. destruct (Hb k') as [?|Hl]; [by left|right]. by apply lookup_app_l_Some.
  - intros x Hr. by apply ord_new_pair.
Qed.

Lemma grown_put_book_id s k i :
  s.(Dex.book_keys) !! N.to_nat i = Some k → room s → grown s (put_book_id k (book_id_from_index i) s).
Proof.
  intros Hl Hroom. pose proof (lookup_lt_Some _ _ _ Hl) as Hlt. unfold room in Hroom.
  assert (book_id_from_index i = i + 1) as -> by (unfold book_id_from_index, as_u32; apply N.mod_small; lia).
  set (s' := put_book_id k (i + 1) s).
  assert (∀ k', book s' k' = if decide (k = k') then Orderbook.set_book_id (λ _, i + 1) (book s k') else book s k') as Eb.
  { intros k'. unfold s', put_book_id. rewrite book_on_book. by case_decide; subst. }
  split; try done.
  - intros [[k' b] t]. unfold lv, lvl. cbn [fst snd]. rewrite Eb. case_decide; [|done]. by destruct b.
  - intros [[k' b] t]. unfold bt, bit. cbn [fst snd]. rewrite Eb. case_decide; [|done]. by destruct b.
  - intros k' Hi. unfold pair. rewrite Eb. by case_decide.
  - intros k' b Hi. unfold best. rewrite Eb. by case_decide.
  - intros k' b Hi' Hi. destruct Hi. unfold initialized, pair in *. rewrite Eb in Hi'. by case_decide.
  - intros Hb k'. unfold id_of_book, pair. rewrite Eb. case_decide as E; [subst k'|apply Hb].
    right. cbn. by rewrite N.add_sub.
Qed.

(** ** Keys of books *)

Lemma keyed_new_pair h s k base quote bid :
  keyed h s → is_tip20_prefix base = true → is_tip20_prefix quote = true → k = pair_key h base quote →
  keyed h (new_pair k base quote bid s).
Proof.
  intros Hs Hb Hq Ek k'. unfold initialized, pair, new_pair.
  change (book (Dex.set_book_keys ?f ?s0)) with (book s0). rewrite book_on_book.
  destruct (decide (k = k')) as [<-|]; [done|apply Hs].
Qed.
Lemma keyed_put_book_id h s k bid : keyed h s → keyed h (put_book_id k bid s).
Proof.
  intros Hs k'. unfold initialized, pair, put_book_id. rewrite book_on_book.
  destruct (decide (k = k')) as [<-|]; [apply (Hs k)|apply Hs].
Qed.

End DexPairs.
