(* ===== verification/DexPlace.v ===== *)
(** * The operations of the exchange

    Each of them keeps the books well formed and the margin of the exchange, from T5
    on and for callers other than the exchange itself. *)

From stdpp Require Import functions.
From S2P Require Import Prelude StorageSet Packing Hardfork Address Errors DexState State Monad Nonce.
From S2P Require Import StorageCredits DexOrder DexBook DexMath DexBitmap AddressRegistry Tip20Base.
From S2P Require Import Keychain KeychainSpec Tip403 Tip20Core Guard Tip20 Dex Tip20Frame DexFrame.
From S2P Require Import Tip20Factory GuardOps FeeAmm FeeManager System SystemFrame Tip20Ledger TransferSpec Authority Custody.
From S2P Require Import DexView DexQueue DexInv DexFill DexLedger DexCancel DexWalk DexRoute DexPairs.

(** ** The tokens the exchange holds

    What the token transfers of the exchange do to its own holdings: a pull adds to
    them exactly what it takes from the internal balance short, a payout takes no more
    than it says. [margin] is what the exchange holds beyond its liabilities. *)

Module DexFunds.
Import(hints) KeychainSpec.
Import Book DexOps DexMath DexBitmap DexView DexQueue DexCommit DexInv DexFill DexLedger DexWalk DexRoute DexPairs.
Import TransferSpec Custody.

Abbreviation self := STABLECOIN_DEX_ADDRESS.
Abbreviation held := (held_by self).
Abbreviation open := (open_for self).
Definition margin (w : World) (t : Address) : Z := (Z.of_N (held w t) - Z.of_N (liabilities (dx w) t))%Z.

(** ** Payouts and pulls *)

Lemma custody_dx w w' : custody w' = custody w → dx w' = dx w ∧ policies w' = policies w.
Proof. unfold custody. intros [= -> _ ->]. done. Qed.

Lemma payout_spec t to n e w u w' :
  transfer t to n e w = (Ok u, w') →
  dx w' = dx w ∧ policies w' = policies w ∧ ∀ t', held w t' ≤ held w' t' + at_token t t' n.
Proof.
  intros H. unfold transfer in H. m_step H. effect_in Hrun. subst. m_step H. apply ret_Ok in H as [_ ->].
  apply payout_held in Hrun as [[Hd Hp]%custody_dx Hh]. done.
Qed.

Lemma pull_spec t a n e w u w' :
  is_t5 (spec e) = true → open w → a ≠ self → transfer_from t a n e w = (Ok u, w') →
  dx w' = dx w ∧ policies w' = policies w ∧ ∀ t', held w' t' = held w t' + at_token t t' n.
Proof.
  intros H5 Hopen Ha H. unfold transfer_from in H. m_step H. apply asks_Ok in Hrun as [-> ->]. rewrite H5 in H.
  m_step H. effect_in Hrun. subst. m_step H. apply ret_Ok in H as [_ ->].
  apply pull_held in Hrun as [[Hd Hp]%custody_dx Hh]; [done|apply _|done|done].
Qed.

(** The rest of the DEX does not touch tokens and policies. *)
Definition outside (w : World) := (w_tip20s w, policies w).
Lemma outside_allows : dex_allows (keeps outside).
Proof. by split. Qed.
Lemma outside_held w w' : outside w' = outside w → policies w' = policies w ∧ ∀ t, held w' t = held w t.
Proof. unfold outside, held_by. intros [= -> ->]. done. Qed.

(** Taking [n] from a user: [x] of it by a transfer, the rest from the internal balance. *)
Lemma debit_user_spec e w a t n chk u w' :
  is_t5 (spec e) = true → open w → a ≠ self →
  decrement_balance_or_transfer_from a t n chk e w = (Ok u, w') →
  is_tip20_prefix t = true ∧ policies w' = policies w ∧
  ∃ x, x ≤ n ∧ n - x ≤ bal (dx w) a t ∧ dx w' = put_balance a t (bal (dx w) a t - (n - x)) (dx w) ∧
    ∀ t', held w' t' = held w t' + at_token t t' x.
Proof.
  intros H5 Hopen Ha H. unfold decrement_balance_or_transfer_from in H.
  m_step H. apply from_address_Ok in Hrun as [Hp ->]. split; [done|].
  m_step H. effect_in Hrun. subst. m_step H. effect_in Hrun. destruct Hrun as [-> ->].
  destruct (N.leb_spec n (bal (dx w) a t)) as [Hle|Hlt].
  - m_step H. apply asks_Ok in Hrun as [-> ->]. m_step H.
    assert (w0 = w) as -> by (destruct (chk && is_t4 (spec e)); [by effect_in Hrun|by apply ret_Ok in Hrun as [_ ->]]).
    clear Hrun. pose proof (stable_dex_sub e _ outside_allows a t n _ _ _ H) as Hout.
    apply outside_held in Hout as [Hpol Hheld]. split; [done|]. exists 0. rewrite N.sub_0_r.
    effect_in H. destruct H as [? E]. split_and!; [lia|done|done|].
    intros t'. rewrite Hheld. unfold at_token. case_decide; lia.
  - m_step H. apply ok_or_Ok in Hrun as [Hs ->]. apply checked_sub_Some in Hs as [-> _].
    m_step H. destruct (pull_spec _ _ _ _ _ _ _ H5 Hopen Ha Hrun) as (Edx & Hpol & Hheld).
    pose proof (stable_dex_set_balance e _ outside_allows a t 0 _ _ _ H) as Hout.
    apply outside_held in Hout as [Hpol' Hheld']. split; [congruence|].
    exists (n - bal (dx w) a t). effect_in H. split_and!; [lia|lia| |].
    + rewrite H, Edx. f_equal. lia.
    + intros t'. by rewrite Hheld', Hheld.
Qed.
End DexFunds.

Module DexPlace.
Import Book DexOps DexMath DexBitmap DexView DexQueue DexCommit DexInv DexFill DexLedger DexCancel DexWalk.
Import DexRoute DexPairs Custody DexFunds.

(** ** The invariant *)

(** After at most [n] operations. *)
Record dex_wf (h : list N → B256) (n : N) (w : World) : Prop := DexWf {
  dw_books : ∃ Q, book_wf (dx w) Q;
  dw_keyed : keyed h (dx w);
  dw_open : open w;
  dw_next : next_id (dx w) ≤ n + 1;
  dw_keys : N.of_nat (length (dx w).(Dex.book_keys)) ≤ n
}.

(** What a successful operation does. *)
Definition sound (h : list N → B256) (n : N) (w w' : World) : Prop :=
  dex_wf h (n + 1) w' ∧ ∀ t, (margin w t ≤ margin w' t)%Z.

(** ** Pairs *)

Lemma grown_refl s : grown s s.
Proof. by split. Qed.

Lemma outside_open w w' : outside w' = outside w → open w → open w'.
Proof. intros [E _]%outside_held. by apply open_policies. Qed.

(** The pair exists afterwards, and nothing else has changed. *)
Lemma ensure_pair_spec e w token k u w' Q :
  k = pair_key (keccak256 e) token (quotes w token) →
  validate_or_create_pair (book (dx w) k) token e w = (Ok u, w') →
  keyed (keccak256 e) (dx w) → book_wf (dx w) Q → room (dx w) →
  grown (dx w) (dx w') ∧ keyed (keccak256 e) (dx w') ∧ initialized (dx w') k ∧ outside w' = outside w ∧
  (length (dx w').(Dex.book_keys) ≤ length (dx w).(Dex.book_keys) + 1)%nat.
Proof.
  intros Ek H Hk HW Hroom. unfold validate_or_create_pair, is_initialized, is_zero in H.
  destruct (N.eqb_spec (Orderbook.base (book (dx w) k)) 0) as [E|E]; cbn in H.
  2: { apply ret_Ok in H as [_ ->]. split_and!; [apply grown_refl|done|done|done|lia]. }
  m_step H. apply ret_Ok in H as [_ ->].
  pose proof (stable_create_pair e _ outside_allows token _ _ _ Hrun) as Hout.
  effect_in Hrun. destruct Hrun as (Hb & Hq & Ea & Hni & bid & Hbid & ->). rewrite <- Ek in Ea. subst a. split_and!.
  - by apply (grown_new_pair _ Q).
  - by apply keyed_new_pair.
  - unfold initialized, pair, new_pair. change (book (Dex.set_book_keys ?f ?s0)) with (book s0).
    rewrite book_on_book, decide_True by done. cbn. intros ->. by vm_compute in Hb.
  - done.
  - cbn. rewrite length_app. cbn. lia.
Qed.

(** ** New orders *)

Definition bump (s : Dex.State) : Dex.State := Dex.set_next_order_id (λ _, wrapping_inc (next_id s)) s.

Lemma next_id_bump s : next_id s < U128_MAX → next_id (bump s) = next_id s + 1.
Proof.
  intros H. unfold next_id at 1. unfold bump, Dex.set_next_order_id, wrapping_inc. cbn.
  unfold U128_MAX in H. rewrite N.mod_small by lia. unfold next_id. lia.
Qed.
Lemma wf_bump s Q : next_id s < U128_MAX → book_wf s Q → book_wf (bump s) Q.
Proof.
  intros Hn HW. destruct HW as [H1 H2 H3 H4 H5 H6]. split; try done.
  - intros c. by apply (queue_ext s).
  - intros c x Hx. rewrite next_id_bump by done. specialize (H3 c x Hx). lia.
Qed.

Lemma commit_new_spec e w o u w' s Q :
  commit_order_to_book o true e w = (Ok u, w') → dx w = bump s → book_wf s Q →
  o.(Order.order_id) = next_id s → next_id s < U128_MAX → initialized s o.(Order.book_key) → fresh o →
  (∃ Q', book_wf (dx w') Q') ∧ fixed (bump s) (dx w') ∧
  ∀ t, liabilities (dx w') t = liabilities s t + at_token (escrow_token s o) t (escrow_left o o.(Order.remaining)).
Proof.
  intros H Ew HW Hid Hn Hini Hf. pose proof (wf_bump s Q Hn HW) as HWb.
  assert (∀ c, o.(Order.order_id) ∉ Q c) as Hni.
  { intros c Hx. pose proof (wf_ids _ _ HW c _ Hx). lia. }
  apply (commit_appended e w o true u w' (Q (okey o))) in H; rewrite ?Ew in *; try done.
  2: apply HWb. 2: apply HWb.
  split_and!.
  - eexists. apply (wf_append _ _ _ _ Q HWb H); [|done]. rewrite next_id_bump by done. lia.
  - apply H.
  - intros t. assert (touched (bump s) (dx w') (Order.order_id o)) as HT.
    { split; [apply H|]. intros x Hx. by apply (ap_payload _ _ _ _ _ H). }
    pose proof (locked_change _ _ t _ HT) as HL.
    assert (escrow_in (bump s) t (ord (bump s) (Order.order_id o)) = 0) as E0.
    { unfold escrow_in. destruct (decide (_ = 0)) as [|Hm]; [done|]. by destruct (Hni _ (wf_live _ _ HWb _ Hm)). }
    rewrite E0, (escrow_in_payload _ t _ o), (escrow_in_live _ t o) in HL.
    + unfold liabilities. rewrite (owed_eq _ _ t (ap_balances _ _ _ _ _ H)).
      change (owed (bump s) t) with (owed s t). change (locked (bump s) t) with (locked s t) in HL.
      change (escrow_token (bump s) o) with (escrow_token s o) in HL. lia.
    + apply Hf.
    + rewrite (ap_new _ _ _ _ _ H). destruct o. destruct Hf as [_ _ _ _ Hp Hx]. cbn in Hp, Hx. by subst.
Qed.

Lemma wf_debit s Q a t n : book_wf s Q → book_wf (put_balance a t n s) Q.
Proof. apply wf_put_balance. Qed.
Lemma liabilities_debit s a t n t' :
  n ≤ bal s a t → liabilities (put_balance a t (bal s a t - n) s) t' + at_token t t' n = liabilities s t'.
Proof.
  intros Hn. pose proof (owed_debit s (put_balance a t (bal s a t - n) s) a t n t' eq_refl Hn) as H.
  unfold liabilities. change (locked (put_balance _ _ _ s) t') with (locked s t'). lia.
Qed.

Definition u32_room (n : N) : Prop := n < 2 ^ 32 - 1.
Lemma dex_wf_room h n w : dex_wf h n w → u32_room n → room (dx w).
Proof. intros HD Hn. unfold room, u32_room in *. pose proof (dw_keys _ _ _ HD). lia. Qed.

Section orders.
Context (e : Env) (n : N) (H5 : is_t5 (spec e) = true) (Hh : collision_free (keccak256 e)) (Hroom : u32_room n).
Abbreviation h := (keccak256 e).

(** The common part of placing orders: the pair is there, the escrow is paid, the
    order is committed. *)
Lemma placed_sound w w1 w2 wc w' k token quote sender x o u Q :
  dex_wf h n w → book_wf (dx w) Q →
  grown (dx w) (dx w1) → keyed h (dx w1) → initialized (dx w1) k → outside w1 = outside w →
  (length (dx w1).(Dex.book_keys) ≤ length (dx w).(Dex.book_keys) + 1)%nat →
  k = pair_key h token quote → is_tip20_prefix token = true → is_tip20_prefix quote = true →
  okey o = (k, o.(Order.is_bid), o.(Order.tick)) → fresh o → o.(Order.order_id) = next_id (dx w2) →
  let t := if o.(Order.is_bid) then quote else token in
  let amount := escrow_left o o.(Order.remaining) in
  policies w2 = policies w1 → x ≤ amount → amount - x ≤ bal (dx w1) sender t →
  dx w2 = put_balance sender t (bal (dx w1) sender t - (amount - x)) (dx w1) →
  (∀ t', held w2 t' = held w1 t' + at_token t t' x) →
  dx wc = bump (dx w2) → outside wc = outside w2 →
  commit_order_to_book o true e wc = (Ok u, w') → sound h n w w'.
Proof.
  intros HD HW HG Hk Hini Hout Hlen Ek Hpb Hpq Eo Hf Hid t amount Hpol Hx Hle Ew2 Hheld Ewc Houtc H.
  pose proof (stable_commit e _ outside_allows o true _ _ _ H) as Hout'.
  apply outside_held in Hout as [Hp1 Hh1], Houtc as [Hpc Hhc], Hout' as [Hp' Hh'].
  assert (book_wf (dx w2) Q) as HW2 by (rewrite Ew2; by apply wf_debit, (wf_grown _ _ _ HG)).
  assert (next_id (dx w2) = next_id (dx w)) as En.
  { rewrite Ew2. change (next_id (put_balance _ _ _ ?s0)) with (next_id s0). unfold next_id. by rewrite (gr_next _ _ HG). }
  assert (next_id (dx w2) ≤ n + 1) as Hn by (rewrite En; apply HD).
  apply (commit_new_spec _ _ _ _ _ (dx w2) Q) in H as (HWF & HF & HL); try done.
  2: { unfold u32_room, U128_MAX in *. lia. }
  2: { injection Eo as ->. rewrite Ew2. exact Hini. }
  assert (escrow_token (dx w2) o = t) as Et.
  { unfold escrow_token. injection Eo as ->. rewrite Ew2. change (pair (put_balance _ _ _ ?s0)) with (pair s0).
    rewrite Ek in Hini |- *. rewrite (keyed_pair h _ token quote Hh Hk Hpb Hpq Hini). done. }
  split; [split|].
  - done.
  - apply (keyed_fixed _ (bump (dx w2))); [done|]. rewrite Ew2. exact Hk.
  - apply (open_policies _ w); [congruence|apply HD].
  - rewrite (next_id_fixed _ _ HF), next_id_bump by (unfold u32_room, U128_MAX in *; lia). lia.
  - rewrite (fx_keys _ _ HF), Ew2. cbn. pose proof (dw_keys _ _ _ HD). cbn in *. lia.
  - intros t'. unfold margin. rewrite Hh', Hhc, Hheld, Hh1, HL, Et, Ew2. fold amount.
    pose proof (liabilities_debit (dx w1) sender t (amount - x) t' Hle) as HLd.
    pose proof (grown_liabilities _ _ _ t' HG HW) as HLg.
    unfold at_token in *. case_decide; lia.
Qed.

Lemma sound_ext w w1 w2 : sound h n w w1 → dx w2 = dx w1 → outside w2 = outside w1 → sound h n w w2.
Proof.
  intros [[H1 H2 H3 H4 H6] HM] E [Ep Eh]%outside_held. split; [split|]; rewrite ?E; try done.
  - by apply (open_policies _ w1).
  - intros t. unfold margin in *. rewrite Eh, E. apply HM.
Qed.
Lemma emit_outside ev w u w' : emitD ev e w = (Ok u, w') → dx w' = dx w ∧ outside w' = outside w.
Proof.
  intros H. pose proof (stable_emitD e _ outside_allows ev _ _ _ H) as Ho. effect_in H.
  split; [congruence|done].
Qed.

Lemma fresh_new id maker k amount tick b f ft :
  0 < id → maker ≠ 0 → (amount <? MIN_ORDER_AMOUNT) = false → fresh (Orders.new id maker k amount tick b f ft).
Proof.
  intros Hid Hm Ha%N.ltb_ge. unfold MIN_ORDER_AMOUNT in Ha. split; cbn; done || lia.
Qed.
Lemma escrow_left_new id maker k amount tick b f ft :
  escrow_left (Orders.new id maker k amount tick b f ft) amount = if b then ceil_quote amount tick else amount.
Proof. done. Qed.

Lemma triple_if {A B C} (b : bool) (x x' : A) (y y' : B) (z z' : C) :
  (if b then (x, y, z) else (x', y', z')) = (if b then x else x', if b then y else y', if b then z else z').
Proof. by destruct b. Qed.

Lemma check_non_escrow_prefix t a w u w' : check_non_escrow t a e w = (Ok u, w') → is_tip20_prefix t = true.
Proof. unfold check_non_escrow. intros H. m_step H. by apply from_address_Ok in Hrun as [? _]. Qed.
Lemma next_id_pos s : 0 < next_id s.
Proof. unfold next_id. lia. Qed.

Lemma place_sound sender token amount b tick id w w' :
  sender ≠ self → sender ≠ 0 → place sender token amount b tick e w = (Ok id, w') →
  dex_wf h n w → sound h n w w'.
Proof.
  intros Hs H0 H HD. destruct (dw_books _ _ _ HD) as [Q HW]. unfold place in H.
  m_step H. apply from_address_Ok in Hrun as [Hpb ->]. m_step H. apply quote_token_Ok in Hrun as [-> ->].
  m_step H. effect_in Hrun. destruct Hrun as [-> Ek]. m_step H. effect_in Hrun. destruct Hrun as [-> ->].
  m_step H. apply (ensure_pair_spec _ _ _ _ _ _ Q) in Hrun as (HG & Hk & Hini & Hout & Hlen); try done;
    [|apply HD|by eapply dex_wf_room].
  m_step H. apply require_Ok in Hrun as [_ ->]. m_step H. apply require_Ok in Hrun as [_ ->].
  m_step H. apply require_Ok in Hrun as [Hmin ->]. apply negb_true_iff in Hmin.
  m_step H. effect_in Hrun. destruct Hrun as [-> ->]. rewrite triple_if in H. cbv beta iota in H.
  m_step H. pose proof (check_non_escrow_prefix _ _ _ _ _ Hrun) as Hp1. effect_in Hrun. subst.
  m_step H. pose proof (outside_open _ _ Hout (dw_open _ _ _ HD)) as Hopen.
  apply debit_user_spec in Hrun as (Hp2 & Hpol & x & Hx & Hle & Ew & Hheld); try done.
  m_step H. effect_in Hrun. destruct Hrun as [-> ->]. m_step H.
  pose proof (stable_increment_next e _ outside_allows _ _ _ Hrun) as Houtc. effect_in Hrun.
  m_step H. m_step H. apply ret_Ok in H as [_ ->]. apply emit_outside in Hrun1 as [E1 E2].
  eapply sound_ext; [|exact E1|exact E2].
  assert (is_tip20_prefix (quotes w token) = true) as Hpq by by destruct b.
  set (k := pair_key h token (quotes w token)) in *.
  set (o := Orders.new (next_id (dx w1)) sender k amount tick b false 0).
  assert ((if b then Orders.new_bid (N.max (Dex.next_order_id (dx w1)) 1) sender k amount tick
           else Orders.new_ask (N.max (Dex.next_order_id (dx w1)) 1) sender k amount tick) = o) as Eo by by destruct b.
  rewrite Eo in Hrun0.
  apply (placed_sound w w0 w1 w2 w3 k token (quotes w token) sender x o a7 Q); try done.
  apply fresh_new; [apply next_id_pos|done|done].
Qed.

Lemma place_flip_sound sender token amount b tick flip_tick id w w' :
  sender ≠ self → sender ≠ 0 → place_flip sender token amount b tick flip_tick false e w = (Ok id, w') →
  dex_wf h n w → sound h n w w'.
Proof.
  intros Hs H0 H HD. destruct (dw_books _ _ _ HD) as [Q HW]. unfold place_flip in H.
  m_step H. apply from_address_Ok in Hrun as [Hpb ->]. m_step H. apply quote_token_Ok in Hrun as [-> ->].
  m_step H. effect_in Hrun. destruct Hrun as [-> Ek]. apply (proj1 (checkpoint_Ok _ _ _ _ _)) in H.
  m_step H. effect_in Hrun. destruct Hrun as [-> ->].
  m_step H. apply (ensure_pair_spec _ _ _ _ _ _ Q) in Hrun as (HG & Hk & Hini & Hout & Hlen); try done;
    [|apply HD|by eapply dex_wf_room].
  do 4 (m_step H; apply require_Ok in Hrun as [_ ->]). m_step H. apply asks_Ok in Hrun as [-> ->].
  m_step H. apply require_Ok in Hrun as [_ ->]. m_step H. apply require_Ok in Hrun as [Hmin ->].
  apply negb_true_iff in Hmin.
  m_step H. effect_in Hrun. destruct Hrun as [-> ->]. rewrite triple_if in H. cbv beta iota in H.
  m_step H. pose proof (check_non_escrow_prefix _ _ _ _ _ Hrun) as Hp1. effect_in Hrun. subst.
  m_step H. pose proof (outside_open _ _ Hout (dw_open _ _ _ HD)) as Hopen.
  apply debit_user_spec in Hrun as (Hp2 & Hpol & x & Hx & Hle & Ew & Hheld); try done.
  m_step H. effect_in Hrun. destruct Hrun as [-> ->]. m_step H.
  set (k := pair_key h token (quotes w token)) in *.
  set (o := Orders.new (next_id (dx w1)) sender k amount tick b true flip_tick).
  assert (a9 = o ∧ w2 = w1) as [-> ->].
  { unfold Orders.new_flip in Hrun. set (bad := if b then _ || _ else _ || _) in Hrun.
    destruct bad; [by apply throw_Ok in Hrun|by apply ret_Ok in Hrun]. }
  clear Hrun. rewrite (is_t5_t1c _ H5) in H. m_step H.
  pose proof (stable_write_next_order_id e _ outside_allows _ _ _ _ Hrun) as Houtc. effect_in Hrun.
  m_step H. m_step H. apply ret_Ok in H as [_ ->]. apply emit_outside in Hrun1 as [E1 E2].
  eapply sound_ext; [|exact E1|exact E2].
  assert (is_tip20_prefix (quotes w token) = true) as Hpq by by destruct b.
  eapply (placed_sound w w0 w1 _ _ k token (quotes w token) sender x o _ Q); try done.
  apply fresh_new; [apply next_id_pos|done|done].
Qed.

(** ** The other operations *)

(** An operation that moves no tokens. *)
Lemma internal_sound w w' :
  dex_wf h n w → outside w' = outside w → (∃ Q, book_wf (dx w') Q) → keyed h (dx w') →
  next_id (dx w') = next_id (dx w) → N.of_nat (length (dx w').(Dex.book_keys)) ≤ N.of_nat (length (dx w).(Dex.book_keys)) + 1 →
  (∀ t, liabilities (dx w') t ≤ liabilities (dx w) t) → sound h n w w'.
Proof.
  intros HD Hout HQ Hk Hn Hl HL. pose proof (outside_held _ _ Hout) as [Hp Hheld]. split; [split|].
  - done.
  - done.
  - apply (open_policies _ w); [done|apply HD].
  - pose proof (dw_next _ _ _ HD). lia.
  - pose proof (dw_keys _ _ _ HD). lia.
  - intros t. unfold margin. rewrite Hheld. specialize (HL t). lia.
Qed.

Lemma create_pair_sound base k w w' :
  create_pair base e w = (Ok k, w') → dex_wf h n w → sound h n w w'.
Proof.
  intros H HD. destruct (dw_books _ _ _ HD) as [Q HW].
  pose proof (stable_create_pair e _ outside_allows base _ _ _ H) as Hout.
  effect_in H. destruct H as (Hb & Hq & Ek & Hni & bid & Hbid & E).
  pose proof (grown_new_pair _ Q k base (quotes w base) bid HW Hni (dex_wf_room _ _ _ HD Hroom) Hbid) as HG.
  rewrite <- E in HG. apply internal_sound; try done.
  - exists Q. by apply (wf_grown (dx w)).
  - rewrite E. apply keyed_new_pair; [apply HD|done..].
  - unfold next_id. by rewrite (gr_next _ _ HG).
  - rewrite E. cbn. rewrite length_app. cbn. lia.
  - intros t. by rewrite (grown_liabilities _ _ Q t HG HW).
Qed.
Lemma set_book_index_sound i u w w' :
  set_book_index i e w = (Ok u, w') → dex_wf h n w → sound h n w w'.
Proof.
  intros H HD. destruct (dw_books _ _ _ HD) as [Q HW].
  pose proof (stable_set_book_index e _ outside_allows i _ _ _ H) as Hout.
  effect_in H. destruct H as [E|(k & Hk & Hini & Hz & E)].
  { apply internal_sound; rewrite ?E; try done; [by exists Q|apply HD|lia]. }
  pose proof (grown_put_book_id _ k i Hk (dex_wf_room _ _ _ HD Hroom)) as HG. rewrite <- E in HG.
  apply internal_sound; try done.
  - exists Q. by apply (wf_grown (dx w)).
  - rewrite E. apply keyed_put_book_id, HD.
  - unfold next_id. by rewrite (gr_next _ _ HG).
  - rewrite E. cbn. lia.
  - intros t. by rewrite (grown_liabilities _ _ Q t HG HW).
Qed.
Lemma cancel_active_sound id u w w' :
  cancel_active_order (ord (dx w) id) e w = (Ok u, w') → (ord (dx w) id).(Order.maker) ≠ 0 →
  dex_wf h n w → sound h n w w'.
Proof.
  intros H Hm HD. destruct (dw_books _ _ _ HD) as [Q HW].
  pose proof (stable_cancel_active e _ outside_allows _ _ _ _ H) as Hout.
  apply (cancel_spec _ _ _ _ _ Q) in H as (c & l1 & l2 & HQ & HW' & HC); [|done|done].
  pose proof (tc_fixed _ _ _ (cn_touched _ _ _ HC)) as HF. apply internal_sound; try done.
  - by eexists.
  - eapply keyed_fixed; [done|apply HD].
  - by apply next_id_fixed.
  - rewrite (fx_keys _ _ HF). lia.
  - intros t. rewrite (cancelled_liabilities _ _ _ t HC Hm); [done|].
    apply (rs_id _ c). apply (queue_resting _ _ _ _ (wf_queue _ _ HW c)). rewrite HQ. set_solver.
Qed.
Lemma cancel_sound sender id u w w' : cancel sender id e w = (Ok u, w') → dex_wf h n w → sound h n w w'.
Proof.
  intros H HD. unfold cancel in H. m_step H. effect_in Hrun. destruct Hrun as [-> ->].
  m_step H. apply require_Ok in Hrun as [Hm ->]. m_step H. apply require_Ok in Hrun as [_ ->].
  m_step H. apply require_Ok in Hrun as [_ ->]. eapply cancel_active_sound; [done| |done].
  unfold is_zero in Hm. by apply negb_true_iff, N.eqb_neq in Hm.
Qed.
Lemma cancel_stale_sound id u w w' : cancel_stale_order id e w = (Ok u, w') → dex_wf h n w → sound h n w w'.
Proof.
  intros H HD. unfold cancel_stale_order in H. m_step H. effect_in Hrun. destruct Hrun as [-> ->].
  m_step H. apply require_Ok in Hrun as [Hm ->]. m_step H. effect_in Hrun. subst. destruct a0; [by apply throw_Ok in H|].
  eapply cancel_active_sound; [done| |done]. unfold is_zero in Hm. by apply negb_true_iff, N.eqb_neq in Hm.
Qed.

Lemma withdraw_sound sender t amount u w w' :
  withdraw sender t amount e w = (Ok u, w') → dex_wf h n w → sound h n w w'.
Proof.
  intros H HD. destruct (dw_books _ _ _ HD) as [Q HW]. unfold withdraw in H.
  m_step H. effect_in Hrun. destruct Hrun as [-> ->]. m_step H. apply require_Ok in Hrun as [_ ->].
  m_step H. pose proof (stable_dex_sub e _ outside_allows _ _ _ _ _ _ Hrun) as Hout.
  apply outside_held in Hout as [Hp Hheld]. effect_in Hrun. destruct Hrun as [Hle E].
  apply payout_spec in H as (E' & Hp' & Hheld'). rewrite E in E'.
  pose proof (liabilities_debit (dx w) sender t amount) as HL.
  split; [split|]; rewrite ?E'.
  - exists Q. by apply wf_put_balance.
  - exact (dw_keyed _ _ _ HD).
  - apply (open_policies _ w); [congruence|apply HD].
  - change (next_id (put_balance _ _ _ ?s0)) with (next_id s0). pose proof (dw_next _ _ _ HD). lia.
  - cbn. pose proof (dw_keys _ _ _ HD) as HK. cbn in HK. lia.
  - intros t'. unfold margin. rewrite E'. specialize (HL t' Hle). specialize (Hheld' t'). rewrite Hheld in Hheld'. lia.
Qed.

(** ** Swaps *)

Lemma rev_reverse {A} (l : list A) : rev l = reverse l.
Proof. apply rev_alt. Qed.
Lemma flush_outside d u w w' : Credits.flush d credit_dex_storage_slots e w = (Ok u, w') →
  dx w' = dx w ∧ outside w' = outside w.
Proof.
  intros H. pose proof (stable_flush e _ outside_allows d _ _ _ H) as Ho. effect_in H. by split.
Qed.
Lemma fill_route_outside step d r a x w v w' :
  fill_route (fill_orders step) d r a x e w = (Ok v, w') → outside w' = outside w.
Proof.
  intros H. assert (Stable e (keeps outside) (fill_route (fill_orders step) d r a x)) as HS.
  { apply stable_fill_route; [apply _|]. intros. apply stable_fill_orders; [apply _|apply outside_allows]. }
  exact (HS _ _ _ H).
Qed.

(** The books after a swap. *)
Lemma swapped_wf w w' s Q Q' route :
  dex_wf h n w → routed_swap s (dx w') Q Q' route → keyed h s → next_id s = next_id (dx w) →
  s.(Dex.book_keys) = (dx w).(Dex.book_keys) → policies w' = policies w → dex_wf h (n + 1) w'.
Proof.
  intros HD [HW HF _] Hk Hn Hl Hp. split.
  - by eexists.
  - by eapply keyed_fixed.
  - apply (open_policies _ w); [done|apply HD].
  - rewrite (next_id_fixed _ _ HF), Hn. pose proof (dw_next _ _ _ HD). lia.
  - rewrite (fx_keys _ _ HF), Hl. pose proof (dw_keys _ _ _ HD). lia.
Qed.

Lemma swap_in_sound sender tin tout amount min tot w w' :
  sender ≠ self → swap_exact_amount_in sender tin tout amount min e w = (Ok tot, w') →
  dex_wf h n w → sound h n w w'.
Proof.
  intros Hs H HD. destruct (dw_books _ _ _ HD) as [Q HW]. unfold swap_exact_amount_in in H.
  m_step H. apply trade_path_Ok in Hrun as (-> & Hnd & Hr); [|done|apply HD].
  m_step H. apply debit_user_spec in Hrun as (_ & Hp1 & x & Hx & Hle & E1 & Hh1); [|done|apply HD|done].
  m_step H. destruct a1 as [tot1 d]. pose proof (fill_route_outside _ _ _ _ _ _ _ _ Hrun) as Ho2.
  apply outside_held in Ho2 as [Hp2 Hh2].
  assert (book_wf (dx w0) Q) as HW1 by (rewrite E1; by apply wf_put_balance).
  assert (routed (dx w0) tin a tout) as Hr1 by (rewrite E1; by apply (routed_fixed (dx w))).
  pose proof (fill_in_money e sender H5 _ _ _ _ _ _ _ Q _ _ Hrun HW1 Hr1) as HM.
  apply (fill_route_spec e sender H5 step_exact_in true _ _ _ _ _ _ _ Q) in Hrun as (_ & Q' & HS);
    [|done|by eapply routed_initialized|done].
  m_step H. apply require_Ok in Hrun as [_ ->]. m_step H. apply payout_spec in Hrun as (E3 & Hp3 & Hh3).
  m_step H. apply ret_Ok in H as [-> ->]. apply flush_outside in Hrun as [E4 Ho4].
  eapply sound_ext; [|exact E4|exact Ho4]. rewrite <- E3 in HS, HM. split.
  - apply (swapped_wf w w2 (dx w0) Q Q' a); rewrite ?E1; try done; [by rewrite <- E1|apply HD|congruence].
  - intros t. unfold margin. specialize (HM t). specialize (Hh3 t). rewrite Hh2, Hh1 in Hh3.
    pose proof (liabilities_debit (dx w) sender tin (amount - x) t Hle) as HL. rewrite <- E1 in HL.
    unfold at_token in *. repeat case_decide; lia.
Qed.

Lemma swap_out_sound sender tin tout amount max tot w w' :
  sender ≠ self → swap_exact_amount_out sender tin tout amount max e w = (Ok tot, w') →
  dex_wf h n w → sound h n w w'.
Proof.
  intros Hs H HD. destruct (dw_books _ _ _ HD) as [Q HW]. unfold swap_exact_amount_out in H.
  m_step H. apply trade_path_Ok in Hrun as (-> & Hnd & Hr); [|done|apply HD].
  m_step H. destruct a0 as [tot1 d]. pose proof (fill_route_outside _ _ _ _ _ _ _ _ Hrun) as Ho1.
  pose proof (outside_open _ _ Ho1 (dw_open _ _ _ HD)) as Hopen. apply outside_held in Ho1 as [Hp1 Hh1].
  pose proof (fill_out_money e sender H5 _ _ _ _ _ _ _ Q _ _ Hrun HW Hr) as HM.
  apply (fill_route_spec e sender H5 step_exact_out false _ _ _ _ _ _ _ Q) in Hrun as (_ & Q' & HS); [|done| |].
  2: { intros k. rewrite rev_reverse, fmap_reverse, elem_of_reverse. by apply (routed_initialized _ _ _ _ Hr). }
  2: by rewrite rev_reverse, fmap_reverse, reverse_Permutation.
  m_step H. apply require_Ok in Hrun as [_ ->].
  m_step H. apply debit_user_spec in Hrun as (_ & Hp2 & x & Hx & Hle & E2 & Hh2); [|done..].
  m_step H. apply payout_spec in Hrun as (E3 & Hp3 & Hh3).
  m_step H. apply ret_Ok in H as [-> ->]. apply flush_outside in Hrun as [E4 Ho4].
  eapply sound_ext; [|exact E4|exact Ho4]. split.
  - apply (swapped_wf w w2 (dx w) Q Q' (rev a)); try done; [|apply HD|congruence].
    rewrite E3, E2. destruct HS as [HW' HF' HO']. split; [by apply wf_put_balance| |done]. by destruct HF'.
  - intros t. unfold margin. specialize (HM t). specialize (Hh3 t). rewrite Hh2, Hh1 in Hh3.
    pose proof (liabilities_debit (dx w0) sender tin (tot1 - x) t Hle) as HL. rewrite <- E2 in HL.
    rewrite E3. unfold at_token in *. repeat case_decide; lia.
Qed.

(** ** Every call *)

Lemma preserve_outside a u w w' : Credits.preserve_storage_credits a e w = (Ok u, w') →
  w_dex w' = w_dex w ∧ outside w' = outside w.
Proof.
  intros H. unfold Credits.preserve_storage_credits, Credits.set_mode, Credits.write_mode_with_budget,
    Credits.credit_state_of, Credits.write_credit_state_of in H. by m_inv.
Qed.
Lemma dispatch_sound sender o u w w' :
  sender ≠ self → sender ≠ 0 → dispatch sender o e w = (Ok u, w') → dex_wf h n w → sound h n w w'.
Proof.
  intros Hs H0 H HD. assert (dispatch_body sender o e w = (Ok u, w')) as HB.
  { unfold dispatch in H. destruct o; try apply scheduled_Ok in H as [_ H]; by apply mutate_Ok in H as [_ H]. }
  clear H. unfold dispatch_body in HB. m_step HB. apply preserve_outside in Hrun as [E1 E2].
  assert (dex_wf h n w0) as HD0.
  { destruct HD. split; rewrite ?E1; try done. by apply (outside_open w). }
  assert (sound h n w0 w' → sound h n w w') as Hback.
  { intros [? HM]. split; [done|]. intros t. specialize (HM t). unfold margin in *.
    pose proof (outside_held _ _ E2) as [_ Eh]. by rewrite Eh, E1 in HM. }
  apply Hback. destruct o; try (m_step HB; apply ret_Ok in HB as [_ ->]).
  - by eapply place_sound.
  - by eapply place_flip_sound.
  - by eapply create_pair_sound.
  - by eapply withdraw_sound.
  - by eapply cancel_sound.
  - by eapply cancel_stale_sound.
  - by eapply swap_in_sound.
  - by eapply swap_out_sound.
  - by eapply set_book_index_sound.
Qed.
End orders.

End DexPlace.

(** ** The exchange is solvent

    In every history of the system, the exchange holds at least what it owes: the
    internal balances of its users and the escrow of their resting orders. *)

Module Solvency.
Import(hints) KeychainSpec.
Import Token TokenOps TransferSpec Authority Custody DexView DexLedger DexRoute DexFunds DexPlace.

Abbreviation self := STABLECOIN_DEX_ADDRESS.

(** ** Histories *)

(** The assumptions on a step: from T5 on, one hash function without collisions on
    token pairs, callers that are neither the exchange nor zero, and no signature by
    the exchange. *)
Definition admissible (h : list N → B256) (x : Env * Address * System.step) : Prop :=
  let '(e, a, s) := x in
  is_t5 (spec e) = true ∧ keccak256 e = h ∧ a ≠ self ∧ a ≠ 0 ∧
  ∀ d v r s, ecrecover e d v r s ≠ Some self.

(** The exchange after at most [n] steps. *)
Record exchange_ok (h : list N → B256) (n : N) (w : World) : Prop := ExchangeOk {
  ex_wf : dex_wf h n w;
  ex_allow : ∀ t x, allowed w t self x = 0;
  ex_margin : ∀ t, (0 ≤ margin w t)%Z
}.

Lemma dex_wf_weaken h n w : dex_wf h n w → dex_wf h (n + 1) w.
Proof. intros []. split; try done; lia. Qed.
Lemma dex_wf_same h n w w' :
  dex_wf h n w → w_dex w' = w_dex w → (policies w').[self] = (policies w).[self] → dex_wf h n w'.
Proof.
  intros [H1 H2 H3 H4 H6] E Ep. split; rewrite ?E; try done. unfold open_for in *. by rewrite Ep.
Qed.

Lemma dex_keeps_allowances e a o t x w u w' :
  is_t5 (spec e) = true → a ≠ self → DexOps.dispatch a o e w = (Ok u, w') →
  allowed w t self x = 0 → allowed w' t self x = 0.
Proof.
  intros H5 Ha H Hz. set (f := λ w, (w_tip20s w).[t].(TIP20Token.allowances)).
  assert (StableOk e (keeps f) (DexOps.dispatch a o)) as HS.
  { apply dex_dispatch_ok; [apply _|by split|]. unfold f.
    split; intros; [..|congruence]; apply stable_stable_ok.
    all: unfold transfer, system_transfer_from, validate_transfer, validate_inbound_or_block, finish_transfer; stable_auto. }
  specialize (HS _ _ _ H). unfold keeps, f in HS. by rewrite HS.
Qed.

Lemma step_ok h n e a s w u w' :
  collision_free h → u32_room n → admissible h (e, a, s) → System.exec a s e w = (Ok u, w') →
  exchange_ok h n w → exchange_ok h (n + 1) w'.
Proof.
  intros Hh Hn (H5 & <- & Ha & H0 & Hsig) H [HD Hz HM].
  assert ((∃ o, s = System.DexCall o) ∨ ∀ o, s ≠ System.DexCall o) as [[o ->]|Hs].
  { destruct s; eauto; right; congruence. }
  - destruct (dispatch_sound e n H5 Hh Hn a o u w w' Ha H0 H HD) as [HD' HM']. split; [done| |].
    + intros t x. by eapply dex_keeps_allowances.
    + intros t. specialize (HM t). specialize (HM' t). lia.
  - assert (¬ own_call self s) as Ho by (intros Hx; destruct s; simpl in Hx; try done; by eapply Hs).
    assert (∀ t, shielded self t w w') as HS by (intros t; by eapply (exec_shielded self e t Hsig)).
    destruct (HS 0) as ([Hd _] & Hp & _). specialize (Hd eq_refl). split.
    + apply dex_wf_weaken, (dex_wf_same _ _ w); done.
    + intros t x. by apply HS.
    + intros t. pose proof (exec_holds self e t H5 a s w u w' Ha Ho (Hz t) H) as Hheld.
      specialize (HM t). unfold margin in *. rewrite Hd. lia.
Qed.

Lemma run_ok h hist n w :
  collision_free h → Forall (admissible h) hist → u32_room (n + N.of_nat (length hist)) →
  exchange_ok h n w → exchange_ok h (n + N.of_nat (length hist)) (System.run hist w).
Proof.
  intros Hh. revert n w. induction hist as [|[[e a] s] hist IH]; intros n w Hall Hn HE; simpl.
  { by rewrite N.add_0_r. }
  apply Forall_cons in Hall as [Hx Hall]. unfold u32_room in *. cbn [length] in Hn.
  replace (n + N.of_nat (S (length hist))) with (n + 1 + N.of_nat (length hist)) in * by lia.
  apply IH; [done|done|]. call_cases Hr.
  - destruct HE as [HD ? ?]. split; [by apply dex_wf_weaken|done|done].
  - eapply step_ok; [done|unfold u32_room; lia|done|done|done].
Qed.

Lemma start_ok h : exchange_ok h 0 dflt.
Proof.
  split; [split|..].
  - exists (λ _, []). split.
    + intros c. split; try done; try constructor; try by intros ? ?%elem_of_nil.
      all: destruct c as [[k []] z]; vm_compute; try done.
    + intros id Hm. by destruct Hm.
    + by intros c x ?%elem_of_nil.
    + intros k b Hk. by destruct Hk.
    + intros k. by left.
    + intros id Hm. by destruct Hm.
  - intros k Hk. by destruct Hk.
  - done.
  - done.
  - done.
  - done.
  - intros t. done.
Qed.
End Solvency.
