(* ===== verification/DexSpec.v ===== *)
(** * Properties of the exchange

    What holds of the exchange in every history of the system from the empty state
    whose steps run under T5 or later: its books are well formed, it is solvent, quotes
    say what swaps do, and cancellations refund the escrow. Quotes before T12 are shown
    to terminate in any state. *)

From stdpp Require Import functions.
From S2P Require Import Prelude StorageSet Packing Hardfork Address Bytes Signature Errors DexState State Monad Nonce.
From S2P Require Import StorageCredits DexOrder DexBook DexMath DexBitmap AddressRegistry Tip20Base.
From S2P Require Import Keychain KeychainSpec Tip403 Tip20Core Guard Tip20 Dex Tip20Frame DexFrame.
From S2P Require Import Tip20Factory GuardOps FeeAmm FeeManager System SystemFrame Tip20Ledger TransferSpec.
From S2P Require Import Authority DexView DexQueue DexInv DexFill DexLedger DexCancel DexWalk.
From S2P Require Import DexRoute DexPairs DexPlace.

Module DexSpec.
Import Book DexOps DexMath DexBitmap DexView DexQueue DexCommit DexInv DexFill DexLedger DexCancel DexWalk.
Import DexRoute DexPairs DexFunds DexPlace Solvency.

(** ** An example hash without collisions *)

Lemma prefix_bound a : is_tip20_prefix a = true → a < 256 ^ N.of_nat 20.
Proof.
  unfold is_tip20_prefix, TIP20_TOKEN_PREFIX. intros H%N.eqb_eq. change (256 ^ N.of_nat 20) with (2 ^ 160). lia.
Qed.
Lemma address_bytes_inj a b :
  is_tip20_prefix a = true → is_tip20_prefix b = true → address_bytes a = address_bytes b → a = b.
Proof. intros Ha Hb E. apply (be_bytes_inj 20); [by apply prefix_bound..|exact E]. Qed.
Lemma pair_bytes_inj b q b' q' :
  address_bytes b ++ address_bytes q = address_bytes b' ++ address_bytes q' →
  address_bytes b = address_bytes b' ∧ address_bytes q = address_bytes q'.
Proof. apply app_inj_1. unfold address_bytes. by rewrite !be_bytes_length. Qed.
Lemma pair_bytes_small b q : Forall (λ x, x < 256) (address_bytes b ++ address_bytes q).
Proof. apply Forall_app. split; apply be_bytes_small. Qed.
Lemma injective_collision_free (h : list N → B256) :
  (∀ l l', Forall (λ x, x < 256) l → Forall (λ x, x < 256) l' → h l = h l' → l = l') → collision_free h.
Proof.
  intros Hh b q b' q' Hb Hq Hb' Hq' E.
  apply (Hh _ _ (pair_bytes_small _ _) (pair_bytes_small _ _)), pair_bytes_inj in E as [E1 E2].
  split; by apply address_bytes_inj.
Qed.
Lemma example_collision_free : collision_free example_hash.
Proof. apply injective_collision_free, example_hash_inj. Qed.

(** From T12 on, with no signatures. *)
Definition example_dex_env : Env := unsigned_env T12 100.

(** ** An example market

    Account 1 issues pathUSD to account 5 and a second token, quoted in it, to account
    6. Account 6 offers the second token at two ticks, once as a flip order, and account
    5 bids for it. *)
Definition example_token : Address :=
  match (Factory.compute_tip20_address 1 77 example_dex_env dflt).1 with Ok (a, _) => a | Err _ => 0 end.
Definition market_history : System.history :=
  let e := example_dex_env in
  [ (e, 1, System.CreateReserved PATH_USD_ADDRESS "pathUSD" "pathUSD" "USD" 0 1);
    (e, 1, System.TokenCall PATH_USD_ADDRESS (TokenOps.GrantRole Token.ISSUER_ROLE 1));
    (e, 1, System.TokenCall PATH_USD_ADDRESS (TokenOps.Mint 5 1000000000000));
    (e, 1, System.FactoryCall (Factory.CreateToken "A" "A" "USD" PATH_USD_ADDRESS 1 77));
    (e, 1, System.TokenCall example_token (TokenOps.GrantRole Token.ISSUER_ROLE 1));
    (e, 1, System.TokenCall example_token (TokenOps.Mint 6 1000000000000));
    (e, 6, System.DexCall (Place example_token 100000003 false 10));
    (e, 6, System.DexCall (PlaceFlip example_token 100000007 false 20 10));
    (e, 6, System.DexCall (Place example_token 100000003 false 10));
    (e, 5, System.DexCall (Place example_token 100000003 true (-20))) ].
Definition market : World := System.run market_history dflt.

(** ** Lawful histories *)

(** Histories from the empty state, of admissible steps (T5 on), that do not exhaust the
    ids of books. *)
Record lawful (h : list N → B256) (hist : System.history) : Prop := Lawful {
  lw_hash : collision_free h;
  lw_steps : Forall (admissible h) hist;
  lw_length : N.of_nat (length hist) < 2 ^ 32 - 1
}.

Lemma lawful_ok h hist :
  lawful h hist → exchange_ok h (N.of_nat (length hist)) (System.run hist dflt).
Proof. intros [Hh Hs Hl]. apply (run_ok h hist 0 dflt); [done|done|done|apply start_ok]. Qed.

Lemma market_lawful : lawful example_hash market_history.
Proof.
  split; [apply example_collision_free| |by vm_compute].
  repeat constructor; done.
Qed.

Lemma quote_in_run e w Q k amount b :
  is_t12 (spec e) = true → book_wf (dx w) Q → initialized (dx w) k →
  quote_exact_in k amount b e w = (take_book step_exact_in b amount (resting_orders (dx w) Q k b), w).
Proof.
  intros H12 HW Hk. unfold quote_exact_in. rewrite (bind_run _ _ e w (spec e) w) by done. rewrite H12.
  by apply quote_run.
Qed.
Lemma quote_out_run e w Q k amount b :
  is_t12 (spec e) = true → book_wf (dx w) Q → initialized (dx w) k →
  quote_exact_out k amount b e w = (take_book step_exact_out b amount (resting_orders (dx w) Q k b), w).
Proof.
  intros H12 HW Hk. unfold quote_exact_out. rewrite (bind_run _ _ e w (spec e) w) by done. rewrite H12.
  by apply quote_run.
Qed.

(** What a successful swap computes. *)
Section swaps.
Context (e : Env) (n : N) (w : World) (Q : queues) (sender tin tout : Address).
Hypothesis (H5 : is_t5 (spec e) = true) (Hh : collision_free (keccak256 e)) (Hs : sender ≠ self).
Hypothesis (HD : dex_wf (keccak256 e) n w) (HW : book_wf (dx w) Q).

Lemma swap_in_route amount min out w' :
  swap_exact_amount_in sender tin tout amount min e w = (Ok out, w') →
  ∃ route, find_trade_path tin tout e w = (Ok route, w) ∧ all_initialized (dx w) route ∧
    take_route step_exact_in (resting_orders (dx w) Q) route amount = Ok out.
Proof.
  intros H. unfold swap_exact_amount_in in H. m_step H. exists a.
  pose proof Hrun as (-> & Hnd & Hr)%trade_path_Ok; [|done|apply HD]. split; [done|].
  pose proof (routed_initialized _ _ _ _ Hr) as Hini. split; [done|].
  m_step H. apply debit_user_spec in Hrun0 as (_ & _ & x & _ & _ & E1 & _); [|done|apply HD|done].
  m_step H. destruct a1 as [tot d]. m_step H. apply require_Ok in Hrun1 as [_ ->].
  m_step H. m_step H. apply ret_Ok in H as [-> _].
  apply (fill_route_spec e sender H5 step_exact_in true _ _ _ _ _ _ _ Q) in Hrun0 as [HT _];
    rewrite ?E1 in *; [done|by apply wf_put_balance|done|done].
Qed.
Lemma swap_out_route amount max paid w' :
  swap_exact_amount_out sender tin tout amount max e w = (Ok paid, w') →
  ∃ route, find_trade_path tin tout e w = (Ok route, w) ∧ all_initialized (dx w) (rev route) ∧
    take_route step_exact_out (resting_orders (dx w) Q) (rev route) amount = Ok paid.
Proof.
  intros H. unfold swap_exact_amount_out in H. m_step H. exists a.
  pose proof Hrun as (-> & Hnd & Hr)%trade_path_Ok; [|done|apply HD]. split; [done|].
  assert (all_initialized (dx w) (rev a)) as Hini.
  { intros k. rewrite rev_reverse, fmap_reverse, elem_of_reverse. by apply (routed_initialized _ _ _ _ Hr). }
  split; [done|]. m_step H. destruct a0 as [tot d]. m_step H. apply require_Ok in Hrun1 as [_ ->].
  m_step H. m_step H. m_step H. apply ret_Ok in H as [-> _].
  apply (fill_route_spec e sender H5 step_exact_out false _ _ _ _ _ _ _ Q) in Hrun0 as [HT _]; try done.
  by rewrite rev_reverse, fmap_reverse, reverse_Permutation.
Qed.
End swaps.

(** What a walk over a list of orders can answer. *)
Lemma take_orders_total step b amount total os :
  (∃ n, take_orders step b amount total os = Ok n) ∨
  take_orders step b amount total os = Err insufficient_liquidity ∨
  take_orders step b amount total os = Err under_overflow.
Proof.
  revert amount total. induction os as [|o os IH]; intros amount total; cbn [take_orders];
    (destruct (amount =? 0); [by eauto|]); [by eauto|].
  destruct (step amount o b) as [s|]; [|by eauto]. destruct (checked_add _ _ _); [|by eauto].
  destruct (_ <? _); eauto.
Qed.
Lemma take_book_total step b amount os :
  (∃ n, take_book step b amount os = Ok n) ∨
  take_book step b amount os = Err insufficient_liquidity ∨ take_book step b amount os = Err under_overflow.
Proof. destruct os; [by eauto|]. apply take_orders_total. Qed.

Lemma returned {A B} (p : A * B) a : p.1 = a → p = (a, p.2).
Proof. by destruct p; intros <-. Qed.

(** ** Quotes tick by tick *)

(** The program ends with an amount or one of the two errors of a quote, and
    changes nothing. *)
Definition answers (e : Env) (w : World) (m : M N) : Prop :=
  ∃ r, m e w = (r, w) ∧
    ((∃ n, r = Ok n) ∨ r = Err insufficient_liquidity ∨ r = Err under_overflow).

Section per_tick.
Context (e : Env) (w : World) (k : B256) (b : bool).

Lemma answers_ret n : answers e w (mret n).
Proof. exists (Ok n). eauto. Qed.
Lemma answers_read {A} (m : M A) (f : A → M N) a :
  m e w = (Ok a, w) → answers e w (f a) → answers e w (m ≫= f).
Proof. intros Hm (r & H & Hr). exists r. by rewrite (bind_run _ _ _ _ _ _ Hm). Qed.
Lemma answers_ok_or {A} (o : option A) (f : A → M N) :
  (∀ a, answers e w (f a)) → answers e w (ok_or o under_overflow ≫= f).
Proof.
  intros Hf. destruct o as [a|]; [by apply (answers_read _ _ a)|].
  exists (Err under_overflow). eauto.
Qed.
Lemma answers_require c (m : M N) :
  (c = true → answers e w m) → answers e w (require c insufficient_liquidity ;; m).
Proof.
  intros Hm. destruct c; [apply (answers_read _ _ tt); [done|by apply Hm]|].
  exists (Err insufficient_liquidity). eauto.
Qed.
Lemma answers_if {A} (c : bool) (m1 m2 : M A) (f : A → M N) :
  (c = true → answers e w (m1 ≫= f)) → (c = false → answers e w (m2 ≫= f)) →
  answers e w ((if c then m1 else m2) ≫= f).
Proof. destruct c; auto. Qed.
Lemma answers_assoc {A B} (m : M A) (g : A → M B) (f : B → M N) :
  answers e w (m ≫= λ a, g a ≫= f) → answers e w ((m ≫= g) ≫= f).
Proof.
  unfold answers, mbind, M_bind. by destruct (m e w) as [[a|x] w1].
Qed.
Lemma answers_pure {A} (a : A) (f : A → M N) : answers e w (f a) → answers e w (mret a ≫= f).
Proof. by apply answers_read. Qed.

Lemma answers_level t (f : TickLevel.t → M N) :
  (∀ l, answers e w (f l)) → answers e w (level_read k t b ≫= f).
Proof.
  intros Hf. unfold level_read. apply answers_assoc, (answers_read _ _ (spec e)); [done|].
  apply answers_assoc, (answers_read _ _ (book (dx w) k)); [done|]. apply answers_pure, Hf.
Qed.

(** How many ticks the search can still go through. *)
Definition ticks_left (t : Z) : Z := if b then (t - MIN_TICK)%Z else (MAX_TICK - t)%Z.

Lemma answers_next t (f : Z * bool → M N) :
  (∀ r, (r.2 = true → (0 ≤ ticks_left r.1 < ticks_left t)%Z) → answers e w (f r)) →
  answers e w (next_initialized_tick k t b ≫= f).
Proof.
  intros Hf. eapply answers_read; [reflexivity|]. apply Hf. unfold ticks_left. destruct b.
  - pose proof (next_bid_spec (Orderbook.bid_bitmap (dx w).(Dex.books).[k]) t) as H. cbv zeta in H.
    intros Hr. cbn in *. rewrite Hr in H. lia.
  - pose proof (next_ask_spec (Orderbook.ask_bitmap (dx w).(Dex.books).[k]) t) as H. cbv zeta in H.
    intros Hr. cbn in *. rewrite Hr in H. lia.
Qed.

(** One turn per tick left, one for the tick the loop is at, and one to see that
    nothing remains. *)
Definition enough (fuel : nat) (t : Z) (remaining : N) : Prop :=
  (Z.to_nat (ticks_left t) + 2 ≤ fuel)%nat ∨ remaining = 0 ∧ (1 ≤ fuel)%nat.

Lemma enough_next fuel t remaining remaining' r :
  enough (S fuel) t remaining → remaining ≠ 0 →
  (r.2 = true → (0 ≤ ticks_left r.1 < ticks_left t)%Z) →
  r.2 = true ∨ remaining' = 0 → enough fuel r.1 remaining'.
Proof.
  intros [Hf|[? _]] Hne Hr Hc; [|done]. destruct Hc as [Hc| ->]; [|right; split; [done|lia]].
  left. specialize (Hr Hc). lia.
Qed.

Lemma next_or_done (ini : bool) x : negb (negb ini && negb (x =? 0)) = true → ini = true ∨ x = 0.
Proof. destruct ini, (N.eqb_spec x 0); auto. Qed.

Ltac answers_step :=
  match goal with
  | |- answers _ _ (mret _) => apply answers_ret
  | |- answers _ _ (mret _ ≫= _) => apply answers_pure
  | |- answers _ _ ((_ ≫= _) ≫= _) => apply answers_assoc
  | |- answers _ _ (ok_or _ under_overflow ≫= _) => apply answers_ok_or; intros ?
  | |- answers _ _ ((if _ then _ else _) ≫= _) => apply answers_if; intros ?
  | |- answers _ _ (if ?c then _ else _) => destruct c eqn:?
  end; cbv beta iota zeta.

Lemma quote_exact_out_loop_answers fuel t remaining acc :
  enough fuel t remaining → answers e w (quote_exact_out_loop fuel k b t remaining acc).
Proof.
  revert t remaining acc. induction fuel as [|fuel IH]; intros t remaining acc Hf.
  { unfold enough in Hf. lia. }
  simpl. destruct (N.eqb_spec remaining 0) as [|Hne]; [apply answers_ret|].
  apply answers_level. intros total. answers_step.
  { apply answers_next. intros [t' ini] Hr. apply answers_require. intros ->.
    apply IH. eapply (enough_next _ _ _ _ (t', true)); [done..|by left]. }
  repeat answers_step.
  all: apply answers_next; intros [t' ini] Hr; apply answers_require; intros Hc.
  all: apply IH. all: eapply (enough_next _ _ _ _ (t', ini)); [done..|by apply next_or_done].
Qed.

Lemma quote_exact_in_loop_answers fuel t remaining acc :
  enough fuel t remaining → answers e w (quote_exact_in_loop fuel k b t remaining acc).
Proof.
  revert t remaining acc. induction fuel as [|fuel IH]; intros t remaining acc Hf.
  { unfold enough in Hf. lia. }
  simpl. destruct (N.eqb_spec remaining 0) as [|Hne]; [apply answers_ret|].
  apply answers_level. intros total. answers_step.
  { apply answers_next. intros [t' ini] Hr. apply answers_require. intros ->.
    apply IH. eapply (enough_next _ _ _ _ (t', true)); [done..|by left]. }
  repeat answers_step.
  all: apply answers_next; intros [t' ini] Hr; apply answers_require; intros Hc.
  all: apply IH. all: eapply (enough_next _ _ _ _ (t', ini)); [done..|by apply next_or_done].
Qed.

(** From a best tick in the valid range, or from none, the bound is enough. *)
Lemma best_tick_answers (f : Z → M N) :
  best (dx w) k b = no_tick b ∨ in_tick_range (best (dx w) k b) = true →
  (∀ t, (Z.to_nat (ticks_left t) + 2 ≤ S TICK_COUNT)%nat → answers e w (f t)) →
  answers e w (best_quote_tick k b ≫= f).
Proof.
  intros Hb Hf. unfold best_quote_tick. apply answers_assoc. eapply answers_read; [reflexivity|].
  change (if b then _ else _) with (best (dx w) k b). cbv beta zeta. apply answers_assoc.
  apply answers_require. intros Hc. apply answers_pure, Hf.
  destruct Hb as [Hb|Hr].
  { rewrite Hb in Hc. unfold no_tick in Hc. by destruct b. }
  unfold in_tick_range, ticks_left, TICK_COUNT, MIN_TICK, MAX_TICK in *. destruct b; lia.
Qed.

End per_tick.

(** ** The properties *)

(** C1: the exchange is solvent. After every lawful history of the whole system, that is
    a history from the empty state all of whose steps run under T5 or later, the
    exchange holds, of every token, at least the internal balances of its users plus
    the escrow of all resting orders, so that every withdrawal and every cancellation is
    backed by tokens. Steps before T5, where a filled flip order is placed anew and
    errors of that are dropped, are not covered. *)
Theorem exchange_solvent h hist t :
  lawful h hist → let w := System.run hist dflt in liabilities (dx w) t ≤ held w t.
Proof.
  intros Hl w. pose proof (ex_margin _ _ _ (lawful_ok h hist Hl) t) as HM. unfold margin in HM. fold w in HM. lia.
Qed.
Lemma exchange_solvent_witness :
  liabilities (dx market) example_token = 300000013 ∧ liabilities (dx market) example_token ≤ held market example_token.
Proof.
  split; [by vm_compute|].
  exact (exchange_solvent example_hash market_history example_token market_lawful).
Defined.

(** C7: the order books are well formed after every lawful history (from the empty state,
    all steps under T5 or later; books that were corrupted before T5 are not covered): at
    every tick of every book the live orders form a doubly linked queue in order of arrival whose ends
    the level stores; the bitmaps mark exactly the ticks with orders; the best ticks of a
    book are its best ticks with orders; every live order is in the queue of its book,
    side and tick and nowhere else, has something left to fill and an id below the
    counter. *)
Theorem books_well_formed h hist :
  lawful h hist → ∃ Q, book_wf (dx (System.run hist dflt)) Q.
Proof. intros Hl. apply (dw_books _ _ _ (ex_wf _ _ _ (lawful_ok h hist Hl))). Qed.
Lemma books_well_formed_witness :
  ∃ Q, book_wf (dx market) Q.
Proof. exact (books_well_formed example_hash market_history market_lawful). Defined.

(** C8: quotes tell the truth. From T12 on, whatever swap succeeds after a lawful
    history, the quote for the same amount asked just before returns exactly the amount
    that the swap returns, for exact-input and exact-output swaps and over routes of any
    length, although the quote only reads and the swap fills, flips and deletes orders. *)
Theorem swap_is_quoted h hist e sender tin tout :
  lawful h hist → is_t12 (spec e) = true → keccak256 e = h → sender ≠ self →
  let w := System.run hist dflt in
  (∀ amount min out w', swap_exact_amount_in sender tin tout amount min e w = (Ok out, w') →
     quote_swap_exact_amount_in tin tout amount e w = (Ok out, w)) ∧
  (∀ amount max paid w', swap_exact_amount_out sender tin tout amount max e w = (Ok paid, w') →
     quote_swap_exact_amount_out tin tout amount e w = (Ok paid, w)).
Proof.
  intros Hl H12 <- Hs w. pose proof (ex_wf _ _ _ (lawful_ok _ hist Hl)) as HD. fold w in HD.
  destruct (dw_books _ _ _ HD) as [Q HW]. assert (is_t5 (spec e) = true) as H5 by by destruct (spec e).
  pose proof (lw_hash _ _ Hl) as Hh. split; intros amount lim out w' H.
  - destruct (swap_in_route e _ w Q _ _ _ H5 Hh Hs HD HW _ _ _ _ H) as (route & Hp & Hini & HT).
    unfold quote_swap_exact_amount_in. rewrite (bind_run _ _ _ _ _ _ Hp), <- HT.
    apply quote_route_run; [|done]. intros. by apply quote_in_run.
  - destruct (swap_out_route e _ w Q _ _ _ H5 Hh HD HW _ _ _ _ H) as (route & Hp & Hini & HT).
    unfold quote_swap_exact_amount_out. rewrite (bind_run _ _ _ _ _ _ Hp), <- HT.
    apply quote_route_run; [|done]. intros. by apply quote_out_run.
Qed.
Lemma swap_is_quoted_witness :
  let e := example_dex_env in
  quote_swap_exact_amount_in PATH_USD_ADDRESS example_token 250000000 e market = (Ok 249970004, market) ∧
  quote_swap_exact_amount_out PATH_USD_ADDRESS example_token 250000000 e market = (Ok 250030002, market).
Proof.
  intros e.
  destruct (swap_is_quoted example_hash market_history e 5 PATH_USD_ADDRESS example_token market_lawful
    eq_refl eq_refl ltac:(done)) as [Hin Hout].
  split; [eapply (Hin _ 0)|eapply (Hout _ (2 ^ 100))]; apply returned; by vm_compute.
Defined.

(** C24: quotes on a book terminate and change nothing, under every hardfork. From T12
    on a quote walks the orders of an initialized book as a lawful history (from the
    empty state, T5 on) left it; before T12 it goes through the book tick by tick, and
    there no assumption on the history is made, only that the best tick of the side is
    a valid one or the mark for an empty side. In both cases the quote answers with an
    amount, InsufficientLiquidity or UnderOverflow; it never exhausts the bound on the
    number of its steps. *)
Theorem quotes_terminate e w k amount b (exact_in : bool) :
  (if is_t12 (spec e)
   then ∃ h hist, lawful h hist ∧ w = System.run hist dflt ∧ initialized (dx w) k
   else best (dx w) k b = no_tick b ∨ in_tick_range (best (dx w) k b) = true) →
  ∃ r, (if exact_in then quote_exact_in else quote_exact_out) k amount b e w = (r, w) ∧
    ((∃ n, r = Ok n) ∨ r = Err insufficient_liquidity ∨ r = Err under_overflow).
Proof.
  intros Hw. destruct (is_t12 (spec e)) eqn:H12.
  - destruct Hw as (h & hist & Hl & -> & Hk).
    destruct (dw_books _ _ _ (ex_wf _ _ _ (lawful_ok h hist Hl))) as [Q HW].
    destruct exact_in; (eexists; split; [|apply take_book_total]); [by apply quote_in_run|by apply quote_out_run].
  - change (answers e w ((if exact_in then quote_exact_in else quote_exact_out) k amount b)).
    destruct exact_in; unfold quote_exact_in, quote_exact_out;
      (apply (answers_read _ _ _ _ (spec e)); [done|]); rewrite H12.
    + apply best_tick_answers; [done|]. intros t Ht. apply quote_exact_in_loop_answers. by left.
    + apply best_tick_answers; [done|]. intros t Ht. apply quote_exact_out_loop_answers. by left.
Qed.
Lemma quotes_terminate_witness :
  let k := pair_key example_hash example_token PATH_USD_ADDRESS in
  (∃ r, quote_exact_in k (2 ^ 100) false example_dex_env market = (r, market) ∧
     ((∃ n, r = Ok n) ∨ r = Err insufficient_liquidity ∨ r = Err under_overflow)) ∧
  (∃ r, quote_exact_out k 1000 false (unsigned_env T0 100) market = (r, market) ∧
     ((∃ n, r = Ok n) ∨ r = Err insufficient_liquidity ∨ r = Err under_overflow)).
Proof.
  intros k. split.
  - apply (quotes_terminate example_dex_env market k (2 ^ 100) false true).
    exists example_hash, market_history. split; [apply market_lawful|]. split; [reflexivity|by vm_compute].
  - apply (quotes_terminate (unsigned_env T0 100) market k 1000 false false).
    right. by vm_compute.
Defined.

(** C25: a cancellation returns the escrow. When the maker of a resting order cancels it
    after a lawful history, the order leaves the book; the maker's internal balance of
    the escrowed token grows by exactly the escrow of what was left to fill, the base
    amount for an ask and its value at the order's tick, rounded up, for a bid; no other
    balance of the exchange and no other order changes, but for links. *)
Theorem cancel_refunds h hist e sender id w' :
  lawful h hist → is_t5 (spec e) = true →
  let w := System.run hist dflt in let s := dx w in let o := ord s id in let t := escrow_token s o in
  cancel sender id e w = (Ok (), w') →
  o.(Order.maker) = sender ∧ 0 < o.(Order.remaining) ∧ (ord (dx w') id).(Order.maker) = 0 ∧
  (dx w').(Dex.balances) =
    <[(sender, t) := bal s sender t + escrow_left o o.(Order.remaining)]> s.(Dex.balances) ∧
  (∀ id', id' ≠ id → payload (ord (dx w') id') = payload (ord s id')) ∧
  (∀ t', liabilities (dx w') t' = liabilities s t').
Proof.
  intros Hl H5 w s o t H. destruct (dw_books _ _ _ (ex_wf _ _ _ (lawful_ok h hist Hl))) as [Q HW]. fold w s in HW.
  unfold cancel in H. m_step H. effect_in Hrun. destruct Hrun as [-> ->]. fold s o in H.
  m_step H. apply require_Ok in Hrun as [Hm%negb_true_iff%N.eqb_neq ->].
  m_step H. apply require_Ok in Hrun as [Es%N.eqb_eq ->].
  m_step H. apply require_Ok in Hrun as [Hr%negb_true_iff%N.eqb_neq ->].
  destruct (cancel_spec e w id () w' Q H HW Hm) as (c & l1 & l2 & HQ & HW' & HC).
  split; [done|]. split; [lia|]. split; [apply HC|]. split; [rewrite <- Es; apply HC|].
  split; [apply HC|]. intros t'. apply (cancelled_liabilities _ _ id); [done|done|].
  apply (rs_id _ c), (queue_resting _ _ _ _ (wf_queue _ _ HW c)). rewrite HQ. set_solver.
Qed.
Lemma cancel_refunds_witness :
  let w' := (cancel 5 4 example_dex_env (System.run market_history dflt)).2 in
  bal (dx w') 5 PATH_USD_ADDRESS = 0 + 99980003 ∧ (ord (dx w') 4).(Order.maker) = 0.
Proof.
  intros w'.
  destruct (cancel_refunds example_hash market_history example_dex_env 5 4 w' market_lawful eq_refl)
    as (_ & _ & Hg & Hb & _).
  { refine (returned (cancel 5 4 example_dex_env (System.run market_history dflt)) (Ok ()) _). by vm_compute. }
  split; [|done]. etransitivity; [exact (f_equal (λ m, m.[(5, PATH_USD_ADDRESS)]) Hb)|]. by vm_compute.
Defined.

End DexSpec.
