(* ===== verification/ReserveRuns.v ===== *)
(** * What the operations of the channel reserve do

    For every operation of the reserve that succeeds: the channel it needed, the checks
    it passed, what becomes of the channels, and what the reserve paid or received. *)

From stdpp Require Import functions.
From S2P Require Import Prelude StorageSet Hardfork Address Bytes Signature Errors State Monad Nonce.
From S2P Require Import StorageCredits AddressRegistry Tip20Base Keychain KeychainSpec Verifier Tip403 Tip20Core Guard Tip20.
From S2P Require Import Dex Reserve Tip20Factory GuardOps FeeAmm FeeManager System Tip20Frame ReserveFrame DexFrame.
From S2P Require Import SystemFrame Tip20Ledger TransferSpec Authority Custody.

Module ReserveRuns.
Import(hints) KeychainSpec.
Import PackedChannelState ChannelDescriptor Reserve Custody TransferSpec.

Abbreviation self := TIP20_CHANNEL_RESERVE_ADDRESS.
Abbreviation held := (held_by self).

(** ** What the operations do to the channels *)

(** The rest of the reserve does not touch channels, tokens and receive policies. *)
Definition outside (w : World) := (w_tip20s w, policies w).
Lemma reserve_outside_allows : reserve_allows (keeps outside).
Proof. by split. Qed.
Lemma reserve_outside_held w w' : outside w' = outside w → policies w' = policies w ∧ ∀ t, held w' t = held w t.
Proof. unfold outside, held_by. intros [= -> ->]. done. Qed.

Definition channels (w : World) := (w_reserve w).(ChannelReserve.channel_states).
(** The transient storage. *)
Definition tx (w : World) := ((w_reserve w).(ChannelReserve.opened_this_tx), (w_reserve w).(ChannelReserve.channel_open_context_hash)).
Definition books (w : World) := (channels w, tx w).

(** An internal step that turns the channels into [cs]. *)
Record rewrites (w w' : World) (cs : gmap B256 PackedChannelState.t) : Prop := Rewrites {
  rw_channels : channels w' = cs;
  rw_tx : tx w' = tx w;
  rw_outside : outside w' = outside w
}.

Lemma sstore_books e a x y : Stable e (keeps books) (Credits.sstore_slot a x y).
Proof. apply Credits.credits_sstore; [apply _|done]. Qed.
Lemma write_state_run e id c u w w' :
  write_state id c e w = (Ok u, w') → rewrites w w' (<[id := c]> (channels w)).
Proof.
  intros H. pose proof (stable_write_state e _ reserve_outside_allows _ _ _ _ _ H) as Ho.
  unfold write_state, read_state in H. m_step H. m_step Hrun. subst. m_step H. m_step Hrun. subst.
  apply sstore_books in H. split; [exact (f_equal fst H)|exact (f_equal snd H)|exact Ho].
Qed.
Lemma delete_state_run e id u w w' :
  delete_state id e w = (Ok u, w') → rewrites w w' (delete id (channels w)).
Proof.
  intros H. pose proof (stable_delete_state e _ reserve_outside_allows _ _ _ _ H) as Ho.
  unfold delete_state, read_state in H. m_step H. m_step Hrun. subst. m_step H. m_step Hrun. subst.
  apply sstore_books in H. split; [exact (f_equal fst H)|exact (f_equal snd H)|exact Ho].
Qed.
Lemma write_credits_books e p n : Stable e (keeps books) (write_storage_credits p n).
Proof. unfold write_storage_credits, storage_credits. pose proof sstore_books. stable_auto. Qed.
Lemma credit_books e p n : Stable e (keeps books) (credit_channel_storage_slots p n).
Proof.
  pose proof write_credits_books. unfold credit_channel_storage_slots, storage_credits.
  repeat first [stable_step | apply Credits.credits_budget; [apply _|done|]].
Qed.
Lemma rewrites_books w w1 w' cs :
  rewrites w w1 cs → books w' = books w1 → outside w' = outside w → rewrites w w' cs.
Proof.
  intros [H1 H2 H3] E Ho. pose proof (f_equal fst E) as E1. pose proof (f_equal snd E) as E2. cbn in E1, E2. split; congruence.
Qed.

Lemma delete_channel_run e id p u w w' :
  delete_channel_state_and_credit_payer id p e w = (Ok u, w') → rewrites w w' (delete id (channels w)).
Proof.
  intros H. pose proof (stable_delete_channel e _ reserve_outside_allows _ _ _ _ _ H) as Ho.
  unfold delete_channel_state_and_credit_payer in H. m_step H. destruct a.
  apply Credits.track_run, delete_state_run in Hrun. apply credit_books in H. by eapply rewrites_books.
Qed.
Lemma spend_run e p id c u w w' :
  write_channel_state_spending_credit p id c e w = (Ok u, w') → rewrites w w' (<[id := c]> (channels w)).
Proof.
  intros H. pose proof (stable_spend_channel e _ reserve_outside_allows _ _ _ _ _ _ H) as Ho.
  unfold write_channel_state_spending_credit, storage_credits in H.
  m_step H. apply asks_Ok in Hrun as [-> ->]. destruct (negb _); [by apply write_state_run in H|].
  m_step H. apply rd_Ok in Hrun as [-> ->]. destruct (_ =? 0); [by apply write_state_run in H|].
  m_step H. apply write_credits_books in Hrun. m_step H. destruct a0 as [? d].
  apply Credits.with_budget_run in Hrun0 as (x & y & E1 & [H1 H2 _]%write_state_run & E2).
  apply (f_equal books) in E1, E2. m_step H. apply require_Ok in Hrun0 as [_ ->].
  apply credit_books in H. unfold keeps in *.
  change (books (Credits.beside x)) with (books x) in E1. change (books (Credits.beside w0)) with (books w0) in E1.
  change (books (Credits.beside y)) with (books y) in E2. change (books (Credits.beside w1)) with (books w1) in E2.
  assert (books x = books w) as Ex by congruence. assert (books w' = books y) as Ey by congruence.
  pose proof (f_equal fst Ex) as X1. pose proof (f_equal snd Ex) as X2. pose proof (f_equal fst Ey) as Y1.
  pose proof (f_equal snd Ey) as Y2. cbn [books fst snd] in *. split; congruence.
Qed.

(** ** What the operations do *)

(** Payments of [n] of token [t] out of the reserve, and into it. *)
Record paid (w w' : World) (t : Address) (n : N) : Prop := Paid {
  pd_reserve : w_reserve w' = w_reserve w;
  pd_policies : policies w' = policies w;
  pd_held : ∀ t', held w t' ≤ held w' t' + at_token t t' n
}.
Record pulled (w w' : World) (t : Address) (n : N) : Prop := Pulled {
  pl_reserve : w_reserve w' = w_reserve w;
  pl_policies : policies w' = policies w;
  pl_held : ∀ t', held w' t' = held w t' + at_token t t' n
}.
Lemma paid_nothing w t : paid w w t 0.
Proof. split; try done. intros t'. lia. Qed.
Lemma payout_paid t to n e w u w' : TokenOps.transfer t self to n e w = (Ok u, w') → paid w w' t n.
Proof. intros [Hc Hh]%payout_held. injection Hc as _ H1 H2. by split. Qed.
Lemma channel_paid t r n s e w u w' :
  TokenOps.channel_reserve_transfer t self r n s e w = (Ok u, w') → paid w w' t n.
Proof. intros [Hc Hh]%channel_payout_held. injection Hc as _ H1 H2. by split. Qed.
Lemma channel_pulled t a n s e w u w' :
  a ≠ self → TokenOps.channel_reserve_transfer t a (Recipient.direct self) n s e w = (Ok u, w') → pulled w w' t n.
Proof. intros Ha [Hc Hh]%channel_pull_held; [|apply _|done]. injection Hc as _ H1 H2. by split. Qed.
Lemma system_pulled t a n e w u w' :
  open_for self w → a ≠ self → TokenOps.system_transfer_from t self a n e w = (Ok u, w') → pulled w w' t n.
Proof. intros Ho Ha [Hc Hh]%pull_held; [|apply _|done|done]. injection Hc as _ H1 H2. by split. Qed.

Lemma load_Ok e id st w w' :
  load_existing_state id e w = (Ok st, w') → w' = w ∧ channels w !! id = Some st ∧ is_open st = true.
Proof.
  intros H. unfold load_existing_state, read_state in H. m_step H. apply rd_Ok in Hrun as [-> ->].
  m_step H. apply require_Ok in Hrun as [Ho ->]. apply ret_Ok in H as [-> ->]. split; [done|].
  unfold channels, sread in *. cbn [cget reserveC] in *. by destruct (_ !! id).
Qed.

(** The channels become [cs], at the price of [n] of token [t]. *)
Record out_effect (w w' : World) (cs : gmap B256 PackedChannelState.t) (t : Address) (n : N) : Prop := OutEffect {
  oe_channels : channels w' = cs;
  oe_tx : tx w' = tx w;
  oe_policies : policies w' = policies w;
  oe_held : ∀ t', held w t' ≤ held w' t' + at_token t t' n
}.
(** The channels become [cs], for [n] of token [t]. *)
Record in_effect (w w' : World) (cs : gmap B256 PackedChannelState.t) (t : Address) (n : N) : Prop := InEffect {
  ie_channels : channels w' = cs;
  ie_tx : tx w' = tx w;
  ie_policies : policies w' = policies w;
  ie_held : ∀ t', held w' t' = held w t' + at_token t t' n
}.

Lemma paid_paid w w1 w' t n m : paid w w1 t n → paid w1 w' t m → paid w w' t (n + m).
Proof.
  intros [R1 P1 H1] [R2 P2 H2]. split; [congruence..|]. intros t'. specialize (H1 t'). specialize (H2 t').
  unfold at_token in *. case_decide; lia.
Qed.
Lemma reserve_same w w' : w_reserve w' = w_reserve w → channels w' = channels w ∧ tx w' = tx w.
Proof. unfold channels, tx. by intros ->. Qed.
Lemma paid_rewrites w w1 w' t n f :
  paid w w1 t n → rewrites w1 w' (f (channels w1)) → out_effect w w' (f (channels w)) t n.
Proof.
  intros [[R1 R2]%reserve_same P1 H1] [H2 H3 [P2 Hh]%reserve_outside_held].
  split; [congruence..|]. intros t'. by rewrite Hh.
Qed.
Lemma rewrites_paid w w1 w' cs t n :
  rewrites w w1 cs → paid w1 w' t n → out_effect w w' cs t n.
Proof.
  intros [H2 H3 [P2 Hh]%reserve_outside_held] [[R1 R2]%reserve_same P1 H1].
  split; [congruence..|]. intros t'. by rewrite <- Hh.
Qed.
Lemma pulled_rewrites w w1 w' t n f :
  pulled w w1 t n → rewrites w1 w' (f (channels w1)) → in_effect w w' (f (channels w)) t n.
Proof.
  intros [[R1 R2]%reserve_same P1 H1] [H2 H3 [P2 Hh]%reserve_outside_held].
  split; [congruence..|]. intros t'. by rewrite Hh.
Qed.
Lemma rewrites_in w w' cs t : rewrites w w' cs → in_effect w w' cs t 0.
Proof.
  intros [H2 H3 [P2 Hh]%reserve_outside_held]. split; [done..|]. intros t'. rewrite Hh. unfold at_token. case_decide; lia.
Qed.
(** The log is not part of any of this. *)
Lemma out_effect_emit w w1 w' cs t n ev u e :
  out_effect w w1 cs t n → emitR ev e w1 = (Ok u, w') → out_effect w w' cs t n.
Proof. intros [] H. m_step H. subst. by split. Qed.
Lemma in_effect_emit w w1 w' cs t n ev u e :
  in_effect w w1 cs t n → emitR ev e w1 = (Ok u, w') → in_effect w w' cs t n.
Proof. intros [] H. m_step H. subst. by split. Qed.

(** [sig] is a voucher for [n] on the channel [id] of [d], by the signer [d] names. *)
Definition voucher (e : Env) (d : ChannelDescriptor.t) (id : B256) (n : N) (sig : bytes) : Prop :=
  ∃ s, Signatures.from_bytes (crypto e) sig = inr s ∧
    Signatures.recover_signer (crypto e) s (get_voucher_digest_inner e id n) = Some (expected_signer d).
Lemma validate_voucher_Ok e d id n sig w u w' :
  validate_voucher d id n sig e w = (Ok u, w') → w' = w ∧ voucher e d id n sig.
Proof.
  intros H. unfold validate_voucher, Verifier.recover in H. m_inv; bool_simpl; subst.
  all: unfold is_retired_root in *; m_inv; subst; try done.
  split; [done|]. by eexists.
Qed.
Lemma payee_or_operator_Ok a d e w u w' :
  ensure_payee_or_operator a d e w = (Ok u, w') → w' = w ∧ (a = d.(payee) ∨ a = d.(operator)).
Proof.
  unfold ensure_payee_or_operator. intros [H ->]%require_Ok. split; [done|].
  destruct (N.eqb_spec a d.(payee)); [by left|]. destruct (N.eqb_spec a d.(operator)); [by right|].
  by rewrite orb_true_r in H.
Qed.
Lemma expect_Ok {A} (o : option A) m a e w w' : expect o m e w = (Ok a, w') → o = Some a ∧ w' = w.
Proof. apply ok_or_Ok. Qed.

Abbreviation id_in e d := (channel_id_of (keccak256 e) (chain_id e) d).

Lemma settle_run e a d cum sig w u w' :
  settle a d cum sig e w = (Ok u, w') →
  ∃ st, channels w !! id_in e d = Some st ∧ is_open st = true ∧ st.(settled) < cum ≤ st.(deposit) ∧
    (a = d.(payee) ∨ a = d.(operator)) ∧ voucher e d (id_in e d) cum sig ∧
    out_effect w w' (<[id_in e d := PackedChannelState.set_settled (λ _, cum) st]> (channels w)) d.(token)
      (cum - st.(settled)).
Proof.
  intros H. unfold settle, channel_id in H. m_step H. apply asks_Ok in Hrun as [-> ->].
  m_step H. apply load_Ok in Hrun as (-> & Hst & Ho). exists a0. split; [done|]. split; [done|].
  m_step H. apply payee_or_operator_Ok in Hrun as [-> Hby].
  m_step H. apply require_Ok in Hrun as [H1%negb_true_iff%N.ltb_ge ->].
  m_step H. apply require_Ok in Hrun as [H2%negb_true_iff%N.leb_gt ->]. split; [done|]. split; [done|].
  m_step H. apply validate_voucher_Ok in Hrun as [-> Hv]. split; [done|].
  m_step H. apply expect_Ok in Hrun as [[-> _]%checked_sub_Some ->].
  m_step H. unfold from_address in Hrun. apply require_Ok in Hrun as [_ ->].
  m_step H. apply asks_Ok in Hrun as [-> ->]. cbv zeta in H. m_step H. eapply out_effect_emit; [|exact H]. clear H.
  destruct (is_t12 (spec e)); repeat (m_step Hrun); same_world.
  - apply channel_paid in Hrun2. apply write_state_run in Hrun. by eapply paid_rewrites.
  - apply write_state_run in Hrun1. apply payout_paid in Hrun2. subst; by eapply rewrites_paid.
Qed.

Lemma channel_pay_if (n : N) t (m : M ()) e w u w' :
  (∀ w1 u1, m e w = (Ok u1, w1) → paid w w1 t n) →
  (if negb (n =? 0) then m else mret ()) e w = (Ok u, w') → paid w w' t n.
Proof.
  intros Hm. destruct (N.eqb_spec n 0) as [->|]; cbn [negb]; [|by apply Hm].
  intros [_ ->]%ret_Ok. apply paid_nothing.
Qed.

(** Closing and withdrawing pay out all that was left and delete the channel. *)
Lemma close_run e a d cum cap sig w u w' :
  close a d cum cap sig e w = (Ok u, w') →
  ∃ st, channels w !! id_in e d = Some st ∧ is_open st = true ∧
    st.(settled) ≤ cap ≤ st.(deposit) ∧ cap ≤ cum ∧
    (st.(settled) < cap → voucher e d (id_in e d) cum sig) ∧
    out_effect w w' (delete (id_in e d) (channels w)) d.(token) (st.(deposit) - st.(settled)).
Proof.
  intros H. unfold close, channel_id in H. m_step H. apply asks_Ok in Hrun as [-> ->].
  m_step H. apply load_Ok in Hrun as (-> & Hst & Ho). exists a0. split; [done|]. split; [done|].
  m_step H. apply payee_or_operator_Ok in Hrun as [-> _]. cbv zeta in H.
  m_step H. apply require_Ok in Hrun as [[H1%N.ltb_ge H2%N.ltb_ge]%negb_true_iff%orb_false_iff ->].
  m_step H. apply require_Ok in Hrun as [H3%negb_true_iff%N.ltb_ge ->]. split; [done|]. split; [done|].
  m_step H. assert (w0 = w ∧ (a0.(settled) < cap → voucher e d (id_in e d) cum sig)) as [-> Hv].
  { destruct (N.ltb_spec a0.(settled) cap); [apply validate_voucher_Ok in Hrun; naive_solver|].
    apply ret_Ok in Hrun as [_ ->]. split; [done|lia]. }
  split; [done|]. clear Hrun.
  m_step H. apply expect_Ok in Hrun as [[-> _]%checked_sub_Some ->].
  m_step H. apply expect_Ok in Hrun as [[-> _]%checked_sub_Some ->].
  m_step H. apply asks_Ok in Hrun as [-> ->]. cbv zeta in H. m_step H. eapply out_effect_emit; [|exact H]. clear H.
  replace (a0.(deposit) - a0.(settled)) with (cap - a0.(settled) + (a0.(deposit) - cap)) by lia.
  destruct (is_t12 (spec e)).
  - m_step Hrun. unfold from_address in Hrun0. apply require_Ok in Hrun0 as [_ ->]. m_step Hrun. m_step Hrun.
    apply delete_channel_run in Hrun. eapply paid_rewrites; [|exact Hrun]. eapply paid_paid.
    + eapply channel_pay_if; [|exact Hrun0]. intros ? ? H. repeat (m_step H). same_world. by eapply channel_paid.
    + eapply channel_pay_if; [|exact Hrun1]. intros ? ? H. repeat (m_step H). same_world. by eapply channel_paid.
  - m_step Hrun. apply delete_channel_run in Hrun0. m_step Hrun. unfold from_address in Hrun1.
    apply require_Ok in Hrun1 as [_ ->]. m_step Hrun. eapply rewrites_paid; [exact Hrun0|]. eapply paid_paid.
    + eapply channel_pay_if; [|exact Hrun1]. intros ? ? H. repeat (m_step H). subst. same_world. by eapply payout_paid.
    + eapply channel_pay_if; [|exact Hrun]. intros ? ? H. repeat (m_step H). subst. by eapply payout_paid.
Qed.
Lemma withdraw_run e a d w u w' :
  withdraw a d e w = (Ok u, w') →
  ∃ st, channels w !! id_in e d = Some st ∧ is_open st = true ∧ a = d.(payer) ∧
    st.(close_requested_at) ≠ 0 ∧ st.(close_requested_at) + CLOSE_GRACE_PERIOD ≤ timestamp e ∧
    st.(settled) ≤ st.(deposit) ∧
    out_effect w w' (delete (id_in e d) (channels w)) d.(token) (st.(deposit) - st.(settled)).
Proof.
  intros H. unfold withdraw, channel_id in H. m_step H. apply asks_Ok in Hrun as [-> ->].
  m_step H. apply load_Ok in Hrun as (-> & Hst & Ho). exists a0. split; [done|]. split; [done|].
  m_step H. apply require_Ok in Hrun as [E%N.eqb_eq ->]. split; [done|].
  m_step H. apply asks_Ok in Hrun as [-> ->]. cbv zeta in H. m_step H. apply require_Ok in Hrun as [Hc ->].
  unfold close_requested in Hc. destruct (N.eqb_spec a0.(close_requested_at) 0) as [|Hne]; [done|]. split; [done|].
  cbn [negb] in Hc. apply N.leb_le in Hc. split; [unfold saturating_to in Hc; lia|].
  m_step H. apply expect_Ok in Hrun as [[-> Hle]%checked_sub_Some ->]. split; [done|].
  m_step H. apply asks_Ok in Hrun as [-> ->]. m_step H. eapply out_effect_emit; [|exact H]. clear H.
  destruct (is_t12 (spec e)); m_step Hrun.
  - apply delete_channel_run in Hrun. eapply paid_rewrites; [|exact Hrun].
    eapply channel_pay_if; [|exact Hrun0]. intros ? ? H. repeat (m_step H). same_world. by eapply channel_paid.
  - apply delete_channel_run in Hrun0. eapply rewrites_paid; [exact Hrun0|].
    eapply channel_pay_if; [|exact Hrun]. intros ? ? H. repeat (m_step H). subst. same_world. by eapply payout_paid.
Qed.

(** What is pulled in arrives in full. *)
Lemma pull_run e a t n (resolve : M Recipient.t) (m1 m2 m3 : Recipient.t → M ()) w u w' :
  open_for self w → a ≠ self → Stable e eq resolve →
  (∀ r, Stable e eq (m1 r)) → (∀ r, Stable e eq (m2 r)) → (∀ r, Stable e eq (m3 r)) →
  (if is_t12 (spec e)
   then r ← resolve; m1 r ;; m2 r ;; TokenOps.channel_reserve_transfer t a (Recipient.direct self) n a
   else r ← resolve; m3 r ;; TokenOps.system_transfer_from t self a n ;; mret ()) e w = (Ok u, w') →
  pulled w w' t n.
Proof.
  intros Ho Ha H0 H1 H2 H3 H. destruct (is_t12 _); m_step H; apply H0 in Hrun as <-.
  - m_step H. apply H1 in Hrun as <-. m_step H. apply H2 in Hrun as <-. by eapply channel_pulled.
  - m_step H. apply H3 in Hrun as <-. m_step H. apply ret_Ok in H as [_ ->]. by eapply system_pulled.
Qed.

Lemma top_up_run e a d n w u w' :
  open_for self w → a ≠ self → top_up a d n e w = (Ok u, w') →
  ∃ st st', channels w !! id_in e d = Some st ∧ is_open st = true ∧ a = d.(payer) ∧
    st'.(settled) = st.(settled) ∧ st'.(deposit) = st.(deposit) + n ∧
    in_effect w w' (<[id_in e d := st']> (channels w)) d.(token) n.
Proof.
  intros Hopen Ha H. unfold top_up, channel_id in H. m_step H. apply asks_Ok in Hrun as [-> ->].
  m_step H. apply load_Ok in Hrun as (-> & Hst & Ho). exists a0.
  m_step H. apply require_Ok in Hrun as [E%N.eqb_eq ->]. cbv zeta in H. destruct (_ && _) eqn:Hz.
  { apply ret_Ok in H as [_ ->]. apply andb_true_iff in Hz as [->%N.eqb_eq _].
    exists a0. rewrite N.add_0_r. split_and!; [done..|]. rewrite insert_id by done.
    split; try done. intros t'. unfold at_token. case_decide; lia. }
  m_step H. m_step H. set (st' := if bool_decide _ then _ else _) in H, Hrun0. exists st'.
  assert (a2.(settled) = a0.(settled) ∧ a2.(deposit) = a0.(deposit) + n ∧ pulled w w0 d.(token) n) as (S1 & S2 & Hp).
  { destruct (N.eqb_spec n 0) as [->|Hn]; cbn [negb] in Hrun.
    { apply ret_Ok in Hrun as [-> ->]. split_and!; [done|lia|]. split; try done.
      intros t'. unfold at_token. case_decide; lia. }
    m_step Hrun. apply ok_or_Ok in Hrun1 as [Hadd ->]. m_step Hrun. unfold from_address in Hrun1.
    apply require_Ok in Hrun1 as [_ ->]. m_step Hrun. apply asks_Ok in Hrun1 as [-> ->].
    m_step Hrun. apply ret_Ok in Hrun as [-> ->]. apply pull_run in Hrun1; [|done|done|intros; stable_auto..].
    apply checked_add_Some in Hadd as [-> _]. done. }
  split_and!; [done..| | |]; [subst st'; by destruct (bool_decide _)..|].
  m_step H. eapply in_effect_emit; [|exact H].
  apply write_state_run in Hrun0. assert (in_effect w w1 (<[id_in e d := st']> (channels w)) d.(token) n) as He.
  { by apply (pulled_rewrites w w0 w1 _ _ (insert (id_in e d) st')). }
  destruct (bool_decide _); [by eapply in_effect_emit|]. apply ret_Ok in Hrun1 as [_ ->]. done.
Qed.

Lemma request_close_run e a d w u w' :
  request_close a d e w = (Ok u, w') →
  ∃ st st', channels w !! id_in e d = Some st ∧ is_open st = true ∧ a = d.(payer) ∧
    st'.(settled) = st.(settled) ∧ st'.(deposit) = st.(deposit) ∧
    in_effect w w' (<[id_in e d := st']> (channels w)) d.(token) 0.
Proof.
  intros H. unfold request_close, channel_id in H. m_step H. apply asks_Ok in Hrun as [-> ->].
  m_step H. apply load_Ok in Hrun as (-> & Hst & Ho). exists a0.
  m_step H. apply require_Ok in Hrun as [E%N.eqb_eq ->]. destruct (bool_decide _).
  { apply ret_Ok in H as [_ ->]. exists a0. split_and!; [done..|]. rewrite insert_id by done.
    split; try done. intros t'. unfold at_token. case_decide; lia. }
  m_step H. unfold now_u32 in Hrun. apply asks_Ok in Hrun as [-> ->]. m_step H. apply write_state_run in Hrun.
  m_step H. apply asks_Ok in Hrun0 as [-> ->]. eexists. split_and!; [done..| | |eapply in_effect_emit; [|exact H]].
  3: by apply rewrites_in. all: done.
Qed.

(** Opening creates the channel of a descriptor with the hash of the transaction. *)
Record opens (e : Env) (a : Address) (d : ChannelDescriptor.t) (n : N) (w w' : World) : Prop := Opens {
  op_payer : d.(payer) = a;
  op_context : d.(expiringNonceHash) = (tx w).2 ∧ d.(expiringNonceHash) ≠ 0;
  op_new : (channels w).[id_in e d].(deposit) = 0 ∧ (tx w).1.[id_in e d] = false;
  op_amount : n ≠ 0;
  op_token : is_tip20_prefix d.(token) = true;
  op_channels : channels w' = <[id_in e d := PackedChannelState.mk 0 n 0 (is_t12 (spec e))]> (channels w);
  op_tx : tx w' = (<[id_in e d := true]> (tx w).1, (tx w).2);
  op_policies : policies w' = policies w;
  op_held : ∀ t', held w' t' = held w t' + at_token d.(token) t' n
}.
Lemma open_run e a p o t n sl sg w id w' :
  open_for self w → a ≠ self → open a p o t n sl sg e w = (Ok id, w') →
  opens e a (ChannelDescriptor.mk a p o t sl sg (tx w).2) n w w' ∧
  id = id_in e (ChannelDescriptor.mk a p o t sl sg (tx w).2).
Proof.
  intros Hopen Ha H. unfold open, channel_id, enclosing_channel_open_context_hash in H.
  m_step H. apply require_Ok in Hrun as [_ ->]. m_step H. unfold from_address in Hrun.
  apply require_Ok in Hrun as [Htok ->]. m_step H. apply require_Ok in Hrun as [Hn%negb_true_iff%N.eqb_neq ->].
  m_step H. m_step Hrun. apply rd_Ok in Hrun0 as [-> ->]. m_step Hrun. apply require_Ok in Hrun0 as [Hh ->].
  apply ret_Ok in Hrun as [-> ->]. change (cget reserveC w).(ChannelReserve.channel_open_context_hash) with (tx w).2 in *.
  set (d := ChannelDescriptor.mk a p o t sl sg (tx w).2) in *. cbv zeta in H.
  m_step H. apply asks_Ok in Hrun as [-> ->]. m_step H. unfold read_state in Hrun. apply rd_Ok in Hrun as [-> ->].
  m_step H. apply rd_Ok in Hrun as [-> ->]. m_step H. apply require_Ok in Hrun as [Hnew ->].
  m_step H. apply asks_Ok in Hrun as [-> ->]. m_step H. apply pull_run in Hrun; [|done|done|intros; stable_auto..].
  m_step H. apply spend_run in Hrun0. 
  pose proof (pulled_rewrites _ _ _ _ _ (insert _ _) Hrun Hrun0) as [E1 E2 E3 E4]. 
  m_step H. m_step Hrun1. subst. m_step H. m_step Hrun1. subst. apply ret_Ok in H as [-> ->]. split; [|done].
  split; try done; [split; [done|by apply N.eqb_neq, negb_true_iff] | | ].
  - apply negb_true_iff, orb_false_iff in Hnew as [H1 H2]. split; [|done].
    by apply N.eqb_eq, negb_false_iff.
  - unfold tx in *. injection E2 as E5 E6. unfold tx. w_simpl. by rewrite E5, E6.
Qed.
End ReserveRuns.
