(* ===== verification/ReserveSpec.v ===== *)
(** * What the channel reserve promises

    The reserve holds at least what its channels have left, it pays a payee no more than
    the payer's signer signed for, it never opens a channel twice, and its arithmetic
    never fails. *)

From stdpp Require Import functions.
From S2P Require Import Prelude StorageSet Hardfork Address Bytes Signature Errors State Monad Nonce.
From S2P Require Import StorageCredits AddressRegistry Tip20Base Keychain KeychainSpec Verifier Tip403 Tip20Core Guard Tip20.
From S2P Require Import Dex Reserve Tip20Factory GuardOps FeeAmm FeeManager System Tip20Frame ReserveFrame DexFrame.
From S2P Require Import SystemFrame Tip20Ledger TransferSpec Authority Custody ReserveRuns.

Module ReserveSpec.
Import(hints) KeychainSpec.
Import PackedChannelState ChannelDescriptor Reserve Custody TransferSpec ReserveRuns.

(** ** Descriptors *)

(** The fields of a descriptor fit their ABI types. *)
Definition desc_ok (d : ChannelDescriptor.t) : Prop :=
  Forall (λ a, a < 2 ^ 160) [d.(payer); d.(payee); d.(operator); d.(token); d.(authorizedSigner)] ∧
  Forall (λ x, x < 2 ^ 256) [d.(salt); d.(expiringNonceHash)].
(** The hash has no collisions on channels. *)
Definition channel_collision_free (h : bytes → B256) (c : N) : Prop :=
  ∀ d d', desc_ok d → desc_ok d' → channel_id_of h c d = channel_id_of h c d' → d = d'.

Lemma words_inj l l' :
  Forall (λ x, x < 2 ^ 256) l → Forall (λ x, x < 2 ^ 256) l' → length l = length l' →
  words l = words l' → l = l'.
Proof.
  revert l'. induction l as [|x l IH]; intros [|x' l']; try done.
  intros [Hx Hl]%Forall_cons [Hx' Hl']%Forall_cons [= Hlen] E. unfold words in E. cbn [mbind list_bind] in E.
  apply app_inj_1 in E as [E1 E2]; [|unfold word_bytes; by rewrite !be_bytes_length].
  apply be_bytes_inj in E1; [|done..]. f_equal; [done|by apply IH].
Qed.
Lemma words_bytes l : is_bytes (words l).
Proof.
  induction l as [|x l IH]; [constructor|]. unfold words. cbn [mbind list_bind]. apply Forall_app.
  split; [apply be_bytes_small|exact IH].
Qed.
(** It is enough that it has none on byte strings. *)
Lemma injective_channels (h : bytes → B256) c :
  (∀ l l', is_bytes l → is_bytes l' → h l = h l' → l = l') → c < 2 ^ 256 → channel_collision_free h c.
Proof.
  intros Hh Hc d d' [Ha Hb] [Ha' Hb'] E. apply Hh in E; [|apply words_bytes..].
  apply words_inj in E; [|..|done].
  - destruct d, d'; cbn in E. congruence.
  - rewrite !Forall_cons in *. repeat (split; [lia|]). split; [done|]. by split.
  - rewrite !Forall_cons in *. repeat (split; [lia|]). split; [done|]. by split.
Qed.

(** ** What the channels are owed *)

Section owed.
Context (D : B256 → ChannelDescriptor.t) (t : Address).

Definition left_of (id : B256) (c : PackedChannelState.t) : N :=
  at_token (D id).(token) t (c.(deposit) - c.(settled)).
Definition owed (cs : gmap B256 PackedChannelState.t) : N := msum (map_imap (λ id c, Some (left_of id c)) cs).

Lemma owed_channel_insert cs id c :
  owed (<[id := c]> cs) + from_option (left_of id) 0 (cs !! id) = owed cs + left_of id c.
Proof.
  pose proof (msum_change (map_imap (λ id c, Some (left_of id c)) cs)
    (map_imap (λ id c, Some (left_of id c)) (<[id := c]> cs)) id) as H. unfold owed.
  rewrite !sread_imap, lookup_insert_eq in H. cbn [default] in H. destruct (cs !! id); apply H.
  all: intros k Hk; by rewrite !sread_imap, lookup_insert_ne.
Qed.
Lemma owed_delete cs id c : cs !! id = Some c → owed (delete id cs) + left_of id c = owed cs.
Proof.
  intros Hc. pose proof (msum_change (map_imap (λ id c, Some (left_of id c)) cs)
    (map_imap (λ id c, Some (left_of id c)) (delete id cs)) id) as H. unfold owed.
  rewrite !sread_imap, lookup_delete_eq, Hc in H. cbn [default] in H. etrans; [apply H|cbn; lia].
  intros k Hk. by rewrite !sread_imap, lookup_delete_ne.
Qed.
End owed.
Lemma owed_rename D D' t cs :
  (∀ id c, cs !! id = Some c → D' id = D id) → owed D' t cs = owed D t cs.
Proof.
  intros HD. unfold owed. apply msum_ext. intros k. rewrite !sread_imap. unfold left_of.
  destruct (cs !! k) as [c|] eqn:E; [|done]. by rewrite (HD _ _ E).
Qed.

(** ** The reserve in a history *)

(** [D] describes the channels [cs], and every channel has a deposit that covers what
    was settled. *)
Record described (h : bytes → B256) (c : N) (D : B256 → ChannelDescriptor.t)
    (cs : gmap B256 PackedChannelState.t) : Prop := Described {
  ds_id id st : cs !! id = Some st → desc_ok (D id) ∧ id = channel_id_of h c (D id);
  ds_token id st : cs !! id = Some st → is_tip20_prefix (D id).(token) = true;
  ds_open id st : cs !! id = Some st → is_open st = true ∧ st.(settled) ≤ st.(deposit)
}.

(** What is left over after serving all channels does not shrink. *)
Definition funded (D : B256 → ChannelDescriptor.t) (w : World) (D' : B256 → ChannelDescriptor.t) (w' : World) : Prop :=
  ∀ t, owed D' t (channels w') + held w t ≤ owed D t (channels w) + held w' t.

Record reserve_ok (h : bytes → B256) (c : N) (D : B256 → ChannelDescriptor.t) (w : World) : Prop := ReserveOk {
  rs_channels : described h c D (channels w);
  rs_policy : open_for self w;
  rs_context : (tx w).2 < 2 ^ 256;
  rs_allow t x : allowed w t self x = 0;
  rs_margin t : owed D t (channels w) ≤ held w t
}.

(** The arguments of a call fit their ABI types. *)
Definition args_ok (s : System.step) : Prop :=
  match s with
  | System.ReserveCall (Open p o t n sl sg) =>
      Forall (λ a, a < 2 ^ 160) [p; o; t; sg] ∧ sl < 2 ^ 256
  | System.ReserveCall (Settle d _ _ | TopUp d _ | Close d _ _ _ | RequestClose d | Withdraw d) => desc_ok d
  | System.StartTransaction (Some x) => x < 2 ^ 256
  | _ => True
  end.
(** The assumptions on a step: from T5 on, on one chain with one hash function, callers
    other than the reserve, and no signature by it. *)
Definition admissible (h : bytes → B256) (c : N) (x : Env * Address * System.step) : Prop :=
  let '(e, a, s) := x in
  is_t5 (spec e) = true ∧ keccak256 e = h ∧ chain_id e = c ∧ a ≠ self ∧ a < 2 ^ 160 ∧ args_ok s ∧
  ∀ d v r s, ecrecover e d v r s ≠ Some self.

Section steps.
Context (h : bytes → B256) (c : N) (D : B256 → ChannelDescriptor.t).
Hypothesis Hh : channel_collision_free h c.

Lemma described_token cs d st :
  described h c D cs → desc_ok d → cs !! channel_id_of h c d = Some st → D (channel_id_of h c d) = d.
Proof. intros [Hd _ _] Hok Hs. destruct (Hd _ _ Hs) as [H1 H2]. symmetry. by apply Hh. Qed.
Lemma described_insert cs id st st' :
  described h c D cs → cs !! id = Some st → is_open st' = true → st'.(settled) ≤ st'.(deposit) →
  described h c D (<[id := st']> cs).
Proof.
  intros [H1 H2 H3] Hs Ho Hle. split; intros k x Hk; apply lookup_insert_Some in Hk as [[<- <-]|[_ Hk]]; eauto.
Qed.
Lemma described_delete cs id : described h c D cs → described h c D (delete id cs).
Proof. intros [H1 H2 H3]. split; intros k x [_ Hk]%lookup_delete_Some; eauto. Qed.

(** Channels that change by what is paid, or by what is pulled in. *)
Lemma out_funded w w' d cs' n :
  (∀ t, owed D t cs' + at_token d t n ≤ owed D t (channels w)) →
  out_effect w w' cs' d n → funded D w D w'.
Proof. intros Hn [E _ _ Hle] t. rewrite E. specialize (Hn t). specialize (Hle t). lia. Qed.
Lemma in_funded w w' d cs' n :
  (∀ t, owed D t cs' ≤ owed D t (channels w) + at_token d t n) →
  in_effect w w' cs' d n → funded D w D w'.
Proof. intros Hn [E _ _ Hle] t. rewrite E. specialize (Hn t). specialize (Hle t). lia. Qed.

Section op.
Context (e : Env) (a : Address) (w w' : World) (u : ()).
Hypothesis (Hk : keccak256 e = h) (Hc : chain_id e = c) (Ha : a ≠ self) (HR : reserve_ok h c D w).

(** A call on the channel of [d] that rewrites it. *)
Lemma rewrite_owed d st st' t :
  desc_ok d → channels w !! id_in e d = Some st →
  owed D t (<[id_in e d := st']> (channels w)) + at_token d.(token) t (st.(deposit) - st.(settled)) =
  owed D t (channels w) + at_token d.(token) t (st'.(deposit) - st'.(settled)).
Proof.
  intros Hd Hs. pose proof (owed_channel_insert D t (channels w) (id_in e d) st') as H. rewrite Hs in H. cbn in H.
  unfold left_of in H. rewrite Hk, Hc in *. by rewrite (described_token _ _ _ (rs_channels _ _ _ _ HR) Hd Hs) in H.
Qed.
Lemma delete_owed d st t :
  desc_ok d → channels w !! id_in e d = Some st →
  owed D t (delete (id_in e d) (channels w)) + at_token d.(token) t (st.(deposit) - st.(settled)) =
  owed D t (channels w).
Proof.
  intros Hd Hs. pose proof (owed_delete D t (channels w) (id_in e d) st Hs) as H.
  unfold left_of in H. rewrite Hk, Hc in *. by rewrite (described_token _ _ _ (rs_channels _ _ _ _ HR) Hd Hs) in H.
Qed.

(** What an operation keeps. *)
Definition op_sound (D' : B256 → ChannelDescriptor.t) : Prop :=
  described h c D' (channels w') ∧ policies w' = policies w ∧ (tx w').2 = (tx w).2 ∧ funded D w D' w'.
Lemma out_sound d n cs' :
  out_effect w w' cs' d n → described h c D cs' →
  (∀ t, owed D t cs' + at_token d t n ≤ owed D t (channels w)) → op_sound D.
Proof.
  intros He Hd Hn. split_and!; [by rewrite (oe_channels _ _ _ _ _ He)|apply He|by rewrite (oe_tx _ _ _ _ _ He)|].
  by eapply out_funded.
Qed.
Lemma in_sound d n cs' :
  in_effect w w' cs' d n → described h c D cs' →
  (∀ t, owed D t cs' ≤ owed D t (channels w) + at_token d t n) → op_sound D.
Proof.
  intros He Hd Hn. split_and!; [by rewrite (ie_channels _ _ _ _ _ He)|apply He|by rewrite (ie_tx _ _ _ _ _ He)|].
  by eapply in_funded.
Qed.

Lemma settle_sound d n sig : desc_ok d → settle a d n sig e w = (Ok u, w') → op_sound D.
Proof.
  intros Hd (st & Hs & Ho & Hn & _ & _ & He)%settle_run. apply (out_sound _ _ _ He).
  - by eapply described_insert; [apply HR|exact Hs|done|cbn; lia].
  - intros t. pose proof (rewrite_owed d st (set_settled (λ _, n) st) t Hd Hs) as H. cbn in H.
    unfold at_token in *. case_decide; lia.
Qed.
Lemma close_sound d n k sig : desc_ok d → close a d n k sig e w = (Ok u, w') → op_sound D.
Proof.
  intros Hd (st & Hs & _ & _ & _ & _ & He)%close_run. apply (out_sound _ _ _ He).
  - apply described_delete, HR.
  - intros t. by rewrite (delete_owed d st t Hd Hs).
Qed.
Lemma channel_withdraw_sound d : desc_ok d → withdraw a d e w = (Ok u, w') → op_sound D.
Proof.
  intros Hd (st & Hs & _ & _ & _ & _ & _ & He)%withdraw_run. apply (out_sound _ _ _ He).
  - apply described_delete, HR.
  - intros t. by rewrite (delete_owed d st t Hd Hs).
Qed.
Lemma top_up_sound d n : desc_ok d → top_up a d n e w = (Ok u, w') → op_sound D.
Proof.
  intros Hd (st & st' & Hs & Ho & _ & E1 & E2 & He)%top_up_run; [|apply HR|done].
  pose proof (ds_open _ _ _ _ (rs_channels _ _ _ _ HR) _ _ Hs) as [_ Hle]. apply (in_sound _ _ _ He).
  - eapply described_insert; [apply HR|exact Hs| |lia].
    unfold is_open in *. apply negb_true_iff, N.eqb_neq. apply negb_true_iff, N.eqb_neq in Ho. lia.
  - intros t. pose proof (rewrite_owed d st st' t Hd Hs) as H. rewrite E1, E2 in H.
    unfold at_token in *. case_decide; lia.
Qed.
Lemma request_close_sound d : desc_ok d → request_close a d e w = (Ok u, w') → op_sound D.
Proof.
  intros Hd (st & st' & Hs & Ho & _ & E1 & E2 & He)%request_close_run.
  pose proof (ds_open _ _ _ _ (rs_channels _ _ _ _ HR) _ _ Hs) as [_ Hle]. apply (in_sound _ _ _ He).
  - eapply described_insert; [apply HR|exact Hs| |lia]. unfold is_open in *. by rewrite E2.
  - intros t. pose proof (rewrite_owed d st st' t Hd Hs) as H. rewrite E1, E2 in H. lia.
Qed.
Lemma open_sound p o t n sl sg id :
  a < 2 ^ 160 → Forall (λ a, a < 2 ^ 160) [p; o; t; sg] → sl < 2 ^ 256 →
  open a p o t n sl sg e w = (Ok id, w') → ∃ D', op_sound D'.
Proof.
  intros Ha' Hargs Hsl H. apply open_run in H as [[_ _ [Hnew _] Hn Htok Ech Etx Epol Eheld] _]; [|apply HR|done].
  set (d := ChannelDescriptor.mk a p o t sl sg (tx w).2) in *. exists (<[id_in e d := d]> D).
  assert (desc_ok d) as Hd.
  { rewrite !Forall_cons in Hargs. split; cbn; rewrite !Forall_cons; [naive_solver|].
    split_and!; [done|apply HR|done]. }
  assert (channels w !! id_in e d = None) as Hnone.
  { destruct (channels w !! id_in e d) as [st|] eqn:E; [|done]. exfalso.
    destruct (ds_open _ _ _ _ (rs_channels _ _ _ _ HR) _ _ E) as [Ho _]. unfold is_open in Ho.
    unfold sread in Hnew. rewrite E in Hnew. cbn in Hnew. by rewrite Hnew in Ho. }
  assert (∀ k st, channels w !! k = Some st → <[id_in e d := d]> D k = D k) as HD.
  { intros k st Hst. rewrite fn_lookup_insert_ne; [done|congruence]. }
  split_and!; [|done|by rewrite Etx|].
  - rewrite Ech. split; intros k st [[<- <-]|[Hne Hst]]%lookup_insert_Some.
    + rewrite fn_lookup_insert. by rewrite Hk, Hc.
    + rewrite (HD _ _ Hst). by eapply HR.
    + by rewrite fn_lookup_insert.
    + rewrite (HD _ _ Hst). by eapply HR.
    + split; [|cbn; lia]. unfold is_open. by apply negb_true_iff, N.eqb_neq.
    + by eapply HR.
  - intros t'. rewrite Ech, Eheld.
    pose proof (owed_channel_insert (<[id_in e d := d]> D) t' (channels w) (id_in e d) (PackedChannelState.mk 0 n 0 (is_t12 (spec e)))) as HO.
    rewrite Hnone, (owed_rename D _ _ (channels w) HD) in HO. unfold left_of in HO. rewrite fn_lookup_insert in HO. cbn in HO.
    change d.(token) with t. unfold at_token in *. case_decide; lia.
Qed.
Lemma run_op_sound o :
  a < 2 ^ 160 → args_ok (System.ReserveCall o) → run_op a o e w = (Ok u, w') → ∃ D', op_sound D'.
Proof.
  intros Ha' Hargs H. destruct o; cbn [run_op args_ok] in *.
  - m_step H. apply ret_Ok in H as [_ <-]. destruct Hargs; by eapply open_sound.
  - exists D. by eapply settle_sound.
  - exists D. by eapply top_up_sound.
  - exists D. by eapply close_sound.
  - exists D. by eapply request_close_sound.
  - exists D. by eapply channel_withdraw_sound.
Qed.
End op.
End steps.

(** The credit mode set at the start of a call is beside the point. *)
Lemma dispatch_run e a o w u w' :
  Reserve.dispatch a o e w = (Ok u, w') →
  ∃ w1, books w1 = books w ∧ outside w1 = outside w ∧ run_op a o e w1 = (Ok u, w').
Proof.
  unfold Reserve.dispatch. intros [_ [_ H]%mutate_Ok]%scheduled_Ok. m_step H. exists w0.
  split_and!; [| |exact H].
  - exact (Credits.credits_preserve e (keeps books) (λ _ _, eq_refl) _ _ _ _ Hrun).
  - exact (Credits.credits_preserve e (keeps outside) (λ _ _, eq_refl) _ _ _ _ Hrun).
Qed.
Lemma reserve_ok_same h c D w w' :
  books w' = books w → outside w' = outside w → reserve_ok h c D w → reserve_ok h c D w'.
Proof.
  intros Hb Ho [H1 H2 H3 H4 H5]. pose proof (f_equal fst Hb) as Hch. pose proof (f_equal snd Hb) as Htx. cbn in Hch, Htx.
  pose proof (reserve_outside_held _ _ Ho) as [Hp Hheld]. split; rewrite ?Hch, ?Htx; try done.
  - by eapply open_policies.
  - intros t x. specialize (H4 t x). unfold outside in Ho. injection Ho as E _. by rewrite E.
  - intros t. by rewrite Hheld.
Qed.
Lemma reserve_keeps_allowances e a o t x w u w' :
  Reserve.dispatch a o e w = (Ok u, w') → allowed w t self x = 0 → allowed w' t self x = 0.
Proof.
  intros H Hz. set (f := λ w, (w_tip20s w).[t].(TIP20Token.allowances)).
  assert (StableOk e (keeps f) (Reserve.dispatch a o)) as HS.
  { apply reserve_dispatch_ok; [apply _|by split|]. unfold f. split; intros; apply stable_stable_ok.
    all: unfold TokenOps.transfer, TokenOps.system_transfer_from, TokenOps.channel_reserve_transfer,
      TokenOps.validate_transfer, TokenOps.validate_inbound_or_block, TokenOps.finish_transfer; stable_auto. }
  specialize (HS _ _ _ H). unfold keeps, f in HS. by rewrite HS.
Qed.

Lemma start_run o e w u w' :
  Reserve.start_transaction o e w = (Ok u, w') →
  channels w' = channels w ∧ tx w' = (∅, default 0 o) ∧ outside w' = outside w.
Proof. intros H. unfold Reserve.start_transaction in H. m_inv. done. Qed.

Lemma reserve_step_ok h c D e a s w u w' :
  channel_collision_free h c → admissible h c (e, a, s) → System.exec a s e w = (Ok u, w') →
  reserve_ok h c D w → ∃ D', reserve_ok h c D' w'.
Proof.
  intros Hh (H5 & Hk & Hc & Ha & Ha' & Hargs & Hsig) H HR.
  assert ((∃ o, s = System.ReserveCall o) ∨ (∃ o, s = System.StartTransaction o) ∨ ¬ own_call self s)
    as [[o ->]|[[o ->]|Ho]].
  { destruct s; eauto; right; right; intros Hx; done. }
  - pose proof (dispatch_run _ _ _ _ _ _ H) as (w1 & Hb & Ho & H1).
    pose proof (reserve_ok_same _ _ _ _ _ Hb Ho HR) as HR1.
    destruct (run_op_sound h c D Hh e a w1 w' u Hk Hc Ha HR1 o Ha' Hargs H1) as (D' & Hd & Hp & Hx & Hf).
    exists D'. split; [done|by eapply open_policies; [done|apply HR1]|rewrite Hx; apply HR1| |].
    + intros t x. eapply reserve_keeps_allowances; [exact H|apply HR].
    + intros t. specialize (Hf t). pose proof (rs_margin _ _ _ _ HR1 t). lia.
  - apply (start_run o e) in H as (E1 & E2 & E3). exists D. pose proof (reserve_outside_held _ _ E3) as [Hp Hheld].
    destruct HR as [R1 R2 R3 R4 R5]. split; rewrite ?E1, ?E2; try done.
    + by eapply open_policies.
    + destruct o; [apply Hargs|done].
    + intros t x. specialize (R4 t x). unfold outside in E3. injection E3 as E _. by rewrite E.
    + intros t. by rewrite Hheld.
  - assert (∀ t, shielded self t w w') as HS by (intros t; by eapply (exec_shielded self e t Hsig)).
    destruct (HS 0) as ([_ Hd] & Hp & _). specialize (Hd eq_refl). apply reserve_same in Hd as [E1 E2].
    destruct HR as [R1 R2 R3 R4 R5]. exists D. split; rewrite ?E1, ?E2; try done.
    + unfold open_for in *. by rewrite Hp.
    + intros t x. by apply HS.
    + intros t. pose proof (exec_holds self e t H5 a s w u w' Ha Ho (R4 t) H). specialize (R5 t). lia.
Qed.

(** Histories from the empty state, of admissible steps. *)
Record lawful (h : bytes → B256) (c : N) (hist : System.history) : Prop := Lawful {
  lw_hash : channel_collision_free h c;
  lw_steps : Forall (admissible h c) hist
}.
Lemma reserve_start_ok h c D : reserve_ok h c D dflt.
Proof. by split. Qed.
Lemma reserve_run_ok h c D hist w :
  lawful h c hist → reserve_ok h c D w → ∃ D', reserve_ok h c D' (System.run hist w).
Proof.
  intros [Hh Hall]. revert D w. induction hist as [|[[e a] s] hist IH]; intros D w HR; simpl; [by eauto|].
  apply Forall_cons in Hall as [Hx Hall]. call_cases Hr; [by eapply IH|].
  eapply reserve_step_ok in Hr as [D' HR']; [|done..]. by eapply IH.
Qed.
Lemma lawful_channels_ok h c hist : lawful h c hist → ∃ D, reserve_ok h c D (System.run hist dflt).
Proof. intros Hl. eapply (reserve_run_ok _ _ (λ _, ChannelDescriptor.mk 0 0 0 0 0 0 0)); [done|apply reserve_start_ok]. Qed.

(** ** Vouchers *)

(** A step that took the channel [id] to [n] settled tokens. *)
Definition signed (h : bytes → B256) (c : N) (id : B256) (n : N) (x : Env * Address * System.step) : Prop :=
  ∃ e a d sig, x = (e, a, System.ReserveCall (Settle d n sig)) ∧ id = channel_id_of h c d ∧
    (a = d.(payee) ∨ a = d.(operator)) ∧ voucher e d id n sig.

(** The channels after a step: as before, with nothing settled, or settled by it. *)
Lemma step_settled h c D e a s w u w' id st' :
  admissible h c (e, a, s) → reserve_ok h c D w → System.exec a s e w = (Ok u, w') →
  channels w' !! id = Some st' →
  (∃ st, channels w !! id = Some st ∧ st'.(settled) = st.(settled)) ∨ st'.(settled) = 0 ∨
  signed h c id st'.(settled) (e, a, s).
Proof.
  intros (H5 & Hk & Hc & Ha & Ha' & Hargs & Hsig) HR H Hst'.
  assert ((∃ o, s = System.ReserveCall o) ∨ (∃ o, s = System.StartTransaction o) ∨ ¬ own_call self s)
    as [[o ->]|[[o ->]|Ho]].
  { destruct s; eauto; right; right; intros Hx; done. }
  - pose proof (dispatch_run _ _ _ _ _ _ H) as (w1 & Hb & Hout & H1).
    pose proof (reserve_ok_same _ _ _ _ _ Hb Hout HR) as HR1. pose proof (f_equal fst Hb) as Ech. cbn in Ech.
    rewrite <- Ech. destruct o; cbn [run_op] in H1.
    + m_step H1. apply ret_Ok in H1 as [_ ->]. apply open_run in Hrun as [Hop _]; [|apply HR1|done].
      rewrite (op_channels _ _ _ _ _ _ Hop) in Hst'. apply lookup_insert_Some in Hst' as [[_ <-]|[_ Hst']]; eauto.
    + apply settle_run in H1 as (st & Hs & _ & _ & Hby & Hv & He). rewrite (oe_channels _ _ _ _ _ He) in Hst'.
      apply lookup_insert_Some in Hst' as [[<- <-]|[_ Hst']]; [|by eauto]. right. right.
      exists e, a, d, signature. cbn. rewrite Hk, Hc in *. done.
    + apply top_up_run in H1 as (st & st2 & Hs & _ & _ & E & _ & He); [|apply HR1|done].
      rewrite (ie_channels _ _ _ _ _ He) in Hst'. apply lookup_insert_Some in Hst' as [[<- <-]|[_ Hst']]; eauto.
    + apply close_run in H1 as (st & _ & _ & _ & _ & _ & He). rewrite (oe_channels _ _ _ _ _ He) in Hst'.
      apply lookup_delete_Some in Hst' as [_ Hst']; eauto.
    + apply request_close_run in H1 as (st & st2 & Hs & _ & _ & E & _ & He).
      rewrite (ie_channels _ _ _ _ _ He) in Hst'. apply lookup_insert_Some in Hst' as [[<- <-]|[_ Hst']]; eauto.
    + apply withdraw_run in H1 as (st & _ & _ & _ & _ & _ & _ & He). rewrite (oe_channels _ _ _ _ _ He) in Hst'.
      apply lookup_delete_Some in Hst' as [_ Hst']; eauto.
  - apply (start_run o e) in H as (E1 & _ & _). rewrite E1 in Hst'. eauto.
  - assert (shielded self 0 w w') as ([_ Hd] & _ & _) by by eapply (exec_shielded self e 0 Hsig).
    specialize (Hd eq_refl). apply reserve_same in Hd as [E1 _]. rewrite E1 in Hst'. eauto.
Qed.
Lemma run_settled h c D hist w id st' :
  lawful h c hist → reserve_ok h c D w → channels (System.run hist w) !! id = Some st' →
  (∃ st, channels w !! id = Some st ∧ st'.(settled) = st.(settled)) ∨ st'.(settled) = 0 ∨
  ∃ x, x ∈ hist ∧ signed h c id st'.(settled) x.
Proof.
  intros [Hh Hall]. revert D w. induction hist as [|[[e a] s] hist IH]; intros D w HR Hst'; simpl in Hst'; [by eauto|].
  apply Forall_cons in Hall as [Hx Hall]. revert Hst'. call_cases Hr; intros Hst'.
  { destruct (IH Hall D w HR Hst') as [?|[?|(x & ? & ?)]]; [by eauto..|].
    right. right. exists x. split; [by right|done]. }
  destruct (reserve_step_ok _ _ _ _ _ _ _ _ _ Hh Hx Hr HR) as [D' HR'].
  destruct (IH Hall D' _ HR' Hst') as [(st & Hs & E)|[?|(y & ? & ?)]]; [|by eauto|].
  2: { right. right. exists y. split; [by right|done]. }
  destruct (step_settled _ _ _ _ _ _ _ _ _ _ _ Hx HR Hr Hs) as [(st0 & ? & ?)|[?|?]].
  - left. exists st0. split; [done|congruence].
  - right. left. congruence.
  - right. right. exists (e, a, s). rewrite E. split; [by left|done].
Qed.

(** ** Openings *)

(** The channel a step would open, and opens if it succeeds. *)
Definition opening (e : Env) (a : Address) (s : System.step) (w : World) : list B256 :=
  match s with
  | System.ReserveCall (Open p o t n sl sg) => [id_in e (ChannelDescriptor.mk a p o t sl sg (tx w).2)]
  | _ => []
  end.
Fixpoint opened (hist : System.history) (w : World) : list B256 :=
  match hist with
  | [] => []
  | (e, a, s) :: hist' =>
      match call (System.exec a s) e w with
      | (Ok _, w') => opening e a s w ++ opened hist' w'
      | (Err _, w') => opened hist' w'
      end
  end.
(** The transactions of a history that may open channels. *)
Definition contexts (hist : System.history) : list B256 :=
  omap (λ x : Env * Address * System.step, match x.2 with System.StartTransaction h => h | _ => None end) hist.

(** What is known of the channels [L] opened so far, in the transactions [C]. *)
Record opened_ok (h : bytes → B256) (c : N) (C L : list B256) (w : World) : Prop := OpenedOk {
  oo_once : NoDup L;
  oo_from id : id ∈ L → ∃ d, desc_ok d ∧ id = channel_id_of h c d ∧ d.(expiringNonceHash) ∈ C ∧
    d.(expiringNonceHash) ≠ 0 ∧ (d.(expiringNonceHash) = (tx w).2 → (tx w).1.[id] = true);
  oo_context : (tx w).2 ≠ 0 → (tx w).2 ∈ C
}.
Lemma opened_ok_same h c C L w w' : tx w' = tx w → opened_ok h c C L w → opened_ok h c C L w'.
Proof. intros E [H1 H2 H3]. by split; rewrite ?E. Qed.

(** No operation but [open] touches the transient storage. *)
Lemma run_op_tx e a o w u w' :
  open_for self w → a ≠ self → (∀ p q t n sl sg, o ≠ Open p q t n sl sg) → run_op a o e w = (Ok u, w') → tx w' = tx w.
Proof.
  intros Ho Ha Hne H. destruct o; cbn [run_op] in H; [by destruct (Hne _ _ _ _ _ _ eq_refl)|..].
  - apply settle_run in H as (st & _ & _ & _ & _ & _ & He). apply He.
  - apply top_up_run in H as (st & st' & _ & _ & _ & _ & _ & He); [|done..]. apply He.
  - apply close_run in H as (st & _ & _ & _ & _ & _ & He). apply He.
  - apply request_close_run in H as (st & st' & _ & _ & _ & _ & _ & He). apply He.
  - apply withdraw_run in H as (st & _ & _ & _ & _ & _ & _ & He). apply He.
Qed.

Section openings.
Context (h : bytes → B256) (c : N) (D : B256 → ChannelDescriptor.t) (C L : list B256) (e : Env) (a : Address).
Hypothesis Hh : channel_collision_free h c.

Lemma open_once w w' p o t n sl sg id :
  reserve_ok h c D w → opened_ok h c C L w → admissible h c (e, a, System.ReserveCall (Open p o t n sl sg)) → open a p o t n sl sg e w = (Ok id, w') →
  opened_ok h c C (L ++ [id_in e (ChannelDescriptor.mk a p o t sl sg (tx w).2)]) w'.
Proof.
  intros HR HO (H5 & Hk & Hc & Ha & Ha' & [Hargs Hsl] & Hsig) H.
  apply open_run in H as [[_ [_ Hctx] [_ Hnew] _ _ _ Etx _ _] _]; [|apply HR|done].
  set (d := ChannelDescriptor.mk a p o t sl sg (tx w).2) in *. rewrite Hk, Hc in *.
  assert (desc_ok d) as Hd.
  { rewrite !Forall_cons in Hargs. split; cbn; rewrite !Forall_cons; [naive_solver|]. split_and!; [done|apply HR|done]. }
  destruct HO as [O1 O2 O3]. split.
  - apply NoDup_app. split_and!; [done| |apply NoDup_singleton]. intros id' Hid Hin%list_elem_of_singleton.
    subst id'. destruct (O2 _ Hid) as (d' & Hd' & E & _ & _ & Hop). apply Hh in E; [|done..]. subst d'.
    by rewrite Hop in Hnew.
  - rewrite Etx. intros id' [Hid| ->%list_elem_of_singleton]%elem_of_app.
    + destruct (O2 _ Hid) as (d' & ? & ? & ? & ? & Hop). exists d'. split_and!; try done. intros E. cbn.
      rewrite sread_insert. case_decide; [done|by apply Hop].
    + exists d. split_and!; try done; [by apply O3|]. intros _. cbn. by rewrite sread_insert_eq.
  - rewrite Etx. apply O3.
Qed.
Lemma start_once w w' o :
  opened_ok h c C L w → (∀ x, o = Some x → x ∉ C) → Reserve.start_transaction o e w = (Ok (), w') →
  opened_ok h c (C ++ option_list o) L w'.
Proof.
  intros HO Hfresh (_ & Etx & _)%(start_run o e). destruct HO as [O1 O2 O3]. split; [done|..]; rewrite Etx; cbn.
  - intros id Hid. destruct (O2 _ Hid) as (d & ? & ? & Hin & Hne & _). exists d. split_and!; try done.
    + apply elem_of_app. by left.
    + intros E. exfalso. destruct o as [x|]; cbn in E; [|done]. apply (Hfresh x); [done|by rewrite <- E].
  - destruct o as [x|]; [|done]. intros _. apply elem_of_app. right. by left.
Qed.

Definition context_of (s : System.step) : option B256 :=
  match s with System.StartTransaction o => o | _ => None end.
Lemma step_once w w' s u :
  reserve_ok h c D w → opened_ok h c C L w → admissible h c (e, a, s) → (∀ x, context_of s = Some x → x ∉ C) → System.exec a s e w = (Ok u, w') →
  opened_ok h c (C ++ option_list (context_of s)) (L ++ opening e a s w) w'.
Proof.
  intros HR HO Hx Hfresh H.
  assert ((∃ o, s = System.ReserveCall o) ∨ (∃ o, s = System.StartTransaction o) ∨ ¬ own_call self s)
    as [[o ->]|[[o ->]|Ho]].
  { destruct s; eauto; right; right; intros Hy; done. }
  - cbn [context_of option_list opening]. rewrite app_nil_r.
    pose proof (dispatch_run _ _ _ _ _ _ H) as (w1 & Hb & Hout & H1).
    pose proof (reserve_ok_same _ _ _ _ _ Hb Hout HR) as HR1. pose proof (f_equal snd Hb) as Etx. cbn in Etx.
    pose proof (opened_ok_same _ _ _ _ _ _ Etx HO) as HO1.
    assert ((∃ p q t n sl sg, o = Open p q t n sl sg) ∨ ∀ p q t n sl sg, o ≠ Open p q t n sl sg)
      as [(p & q & t & n & sl & sg & ->)|Hne].
    { destruct o; [left; by do 6 eexists|right; congruence..]. }
    + cbn [run_op] in H1. m_step H1. apply ret_Ok in H1 as [_ ->]. rewrite <- Etx.
      by eapply open_once.
    + assert (tx w' = tx w) as E.
      { rewrite <- Etx. eapply run_op_tx; [apply HR1| |exact Hne|exact H1]. apply Hx. }
      destruct o; try (cbn; rewrite app_nil_r; by eapply opened_ok_same). exfalso. by eapply Hne.
  - cbn [context_of opening]. rewrite app_nil_r. destruct u. by eapply start_once.
  - destruct Hx as (H5 & Hk & Hc & Ha & Ha' & Hargs & Hsig).
    assert (shielded self 0 w w') as ([_ Hd] & _ & _) by by eapply (exec_shielded self e 0 Hsig).
    specialize (Hd eq_refl). apply reserve_same in Hd as [_ E].
    destruct s; try (by destruct Ho); cbn [context_of option_list opening]; rewrite !app_nil_r; by eapply opened_ok_same.
Qed.
End openings.

Lemma contexts_cons e a s hist : contexts ((e, a, s) :: hist) = option_list (context_of s) ++ contexts hist.
Proof. unfold contexts. cbn. by destruct s as [| | | | | | | | | | | | |[]| |]. Qed.
Lemma run_once h c D C L hist w :
  lawful h c hist → NoDup (C ++ contexts hist) → reserve_ok h c D w → opened_ok h c C L w →
  NoDup (L ++ opened hist w).
Proof.
  intros [Hh Hall]. revert D C L w. induction hist as [|[[e a] s] hist IH]; intros D C L w Hctx HR HO.
  { cbn. rewrite app_nil_r. apply HO. }
  apply Forall_cons in Hall as [Hx Hall]. rewrite contexts_cons in Hctx. cbn [opened].
  rewrite app_assoc in Hctx. unfold call. destruct (System.exec a s e w) as [[u|err] w1] eqn:Hr.
  - destruct (reserve_step_ok _ _ _ _ _ _ _ _ _ Hh Hx Hr HR) as [D' HR']. rewrite app_assoc.
    eapply IH; [done|exact Hctx|exact HR'|]. eapply step_once; try done.
    intros x Hs. rewrite Hs in Hctx. cbn in Hctx. apply NoDup_app in Hctx as [Hctx _].
    apply NoDup_app in Hctx as (_ & Hd & _). intros Hin. by apply (Hd x Hin), list_elem_of_singleton.
  - eapply IH; [done| |done|done].
    apply NoDup_app in Hctx as (H1 & H2 & H3). apply NoDup_app in H1 as (H1 & _ & _). apply NoDup_app.
    split_and!; [done| |done]. intros x Hin. apply H2, elem_of_app. by left.
Qed.

(** ** An example

    Account 5 opens a channel of 1000 pathUSD to account 6, which settles vouchers for
    300 and 450; account 5 tops the channel up and asks to close it. *)
Definition channel_env : Env := unsigned_env T12 100.
Definition channel : ChannelDescriptor.t := ChannelDescriptor.mk 5 6 0 PATH_USD_ADDRESS 11 0 77.
(** The example signature scheme reads the signer from the first word. *)
Definition signed_by (a : Address) : bytes := word_bytes a ++ word_bytes 0 ++ [27].
Definition channel_history : System.history :=
  let e := channel_env in
  [ (e, 1, System.CreateReserved PATH_USD_ADDRESS "pathUSD" "pathUSD" "USD" 0 1);
    (e, 1, System.TokenCall PATH_USD_ADDRESS (TokenOps.GrantRole Token.ISSUER_ROLE 1));
    (e, 1, System.TokenCall PATH_USD_ADDRESS (TokenOps.Mint 5 100000));
    (e, 5, System.StartTransaction (Some 77));
    (e, 5, System.ReserveCall (Open 6 0 PATH_USD_ADDRESS 1000 11 0));
    (e, 6, System.StartTransaction (Some 78));
    (e, 6, System.ReserveCall (Settle channel 300 (signed_by 5)));
    (e, 6, System.ReserveCall (Settle channel 450 (signed_by 5)));
    (e, 5, System.ReserveCall (TopUp channel 50));
    (e, 5, System.ReserveCall (RequestClose channel)) ].
Lemma channel_lawful : lawful example_hash 4217 channel_history.
Proof.
  split; [by apply injective_channels; [apply example_hash_inj|]|].
  repeat constructor; try done.
Qed.

(** ** The properties *)

(** C3: the reserve is solvent. After every lawful history of the whole system, every
    channel in storage is the channel of a descriptor and has not settled more than its
    deposit, and the reserve holds, of every token, at least what the channels of that
    token have left. *)
Theorem reserve_solvent h c hist :
  lawful h c hist → ∃ D, let w := System.run hist dflt in
  described h c D (channels w) ∧ ∀ t, owed D t (channels w) ≤ held w t.
Proof. intros [D HR]%lawful_channels_ok. exists D. split; [apply HR|apply HR]. Qed.
Lemma reserve_solvent_witness :
  let w := System.run channel_history dflt in
  channels w !! channel_id_of example_hash 4217 channel = Some (PackedChannelState.mk 450 1050 100 true) ∧
  held w PATH_USD_ADDRESS = 600 ∧
  ∃ D, described example_hash 4217 D (channels w) ∧ ∀ t, owed D t (channels w) ≤ held w t.
Proof.
  split; [by vm_compute|]. split; [by vm_compute|].
  exact (reserve_solvent example_hash 4217 channel_history channel_lawful).
Defined.

(** C5: a channel settles what was signed. Whatever the reserve recorded as settled on a
    channel after a lawful history is the amount of a voucher that the payer, or the
    signer the payer authorized, signed for this channel, and that its payee or operator
    presented. *)
Theorem settled_is_signed h c hist id st :
  lawful h c hist → channels (System.run hist dflt) !! id = Some st → st.(settled) ≠ 0 →
  ∃ e a d sig, (e, a, System.ReserveCall (Settle d st.(settled) sig)) ∈ hist ∧ id = channel_id_of h c d ∧
    (a = d.(payee) ∨ a = d.(operator)) ∧ voucher e d id st.(settled) sig.
Proof.
  intros Hl Hst Hne. pose proof (reserve_start_ok h c (λ _, ChannelDescriptor.mk 0 0 0 0 0 0 0)) as HR.
  destruct (run_settled _ _ _ _ _ _ _ Hl HR Hst) as [(st0 & H0 & _)|[?|(x & Hx & Hs)]]; [done..|].
  destruct Hs as (e & a & d & sig & -> & Hs). by exists e, a, d, sig.
Qed.
Lemma settled_is_signed_witness :
  ∃ e a d sig, (e, a, System.ReserveCall (Settle d 450 sig)) ∈ channel_history ∧
    channel_id_of example_hash 4217 channel = channel_id_of example_hash 4217 d ∧
    (a = d.(payee) ∨ a = d.(operator)) ∧ voucher e d (channel_id_of example_hash 4217 channel) 450 sig.
Proof.
  refine (settled_is_signed example_hash 4217 channel_history _ (PackedChannelState.mk 450 1050 100 true) channel_lawful _ _);
    [by vm_compute|done].
Defined.

(** C23: no channel is opened twice. If the transactions of a lawful history have distinct
    hashes, all channels ever opened in it have distinct ids, also those closed in
    between, so that no voucher for a closed channel is good for a new one. *)
Theorem channels_open_once h c hist :
  lawful h c hist → NoDup (contexts hist) → NoDup (opened hist dflt).
Proof.
  intros Hl Hc. pose proof (reserve_start_ok h c (λ _, ChannelDescriptor.mk 0 0 0 0 0 0 0)) as HR.
  apply (run_once h c _ [] [] hist dflt Hl Hc HR). split; [constructor|..].
  - by intros id ?%elem_of_nil.
  - done.
Qed.
(** The channel is closed and opened again, in the same and in another transaction. *)
Definition reopen_history : System.history :=
  let e := channel_env in
  take 5 channel_history ++
  [ (e, 6, System.ReserveCall (Close channel 450 450 (signed_by 5)));
    (e, 5, System.ReserveCall (Open 6 0 PATH_USD_ADDRESS 1000 11 0));
    (e, 5, System.StartTransaction (Some 78));
    (e, 5, System.ReserveCall (Open 6 0 PATH_USD_ADDRESS 1000 11 0)) ].
Lemma reopen_lawful : lawful example_hash 4217 reopen_history.
Proof. split; [apply channel_lawful|]. repeat constructor; try done. Qed.
Lemma channels_open_once_witness :
  length (opened reopen_history dflt) = 2%nat ∧ NoDup (opened reopen_history dflt).
Proof.
  split; [by vm_compute|]. apply (channels_open_once example_hash 4217); [apply reopen_lawful|].
  change (contexts reopen_history) with [77; 78]. by apply (bool_decide_unpack _).
Defined.
End ReserveSpec.
