(* ===== verification/ReserveLive.v ===== *)
(** * Payers get their deposits back

    After the grace period nothing but the token itself can stop the payer of a channel
    from withdrawing what is left of the deposit: the reserve has the tokens, its
    arithmetic does not fail, and neither does its accounting for storage credits. *)

From stdpp Require Import functions.
From S2P Require Import Prelude StorageSet Hardfork Address Bytes Signature Errors DexState State Monad Nonce.
From S2P Require Import StorageCredits AddressRegistry Tip20Base Keychain KeychainSpec Verifier Tip403 Tip20Core Guard Tip20.
From S2P Require Import Dex Reserve Tip20Factory GuardOps FeeAmm FeeManager System Tip20Frame ReserveFrame DexFrame.
From S2P Require Import SystemFrame Tip20Ledger SupplySpec TransferSpec Authority Custody ReserveRuns ReserveSpec.

Module ReserveLive.
Import(hints) KeychainSpec.
Import PackedChannelState ChannelDescriptor Reserve Custody TransferSpec ReserveRuns ReserveSpec.

Lemma t12_t8 sp : is_t12 sp = true → is_t8 sp = true.
Proof. by destruct sp. Qed.
Lemma t12_t7 sp : is_t12 sp = true → is_t7 sp = true.
Proof. by destruct sp. Qed.
Lemma t12_t3 sp : is_t12 sp = true → is_t3 sp = true.
Proof. by destruct sp. Qed.

Section live.
Context (e : Env) (H12 : is_t12 (spec e) = true).

(** ** The payout *)

(** An account that can be paid: not virtual, not zero, not a token, and without a
    receive policy. *)
Definition payable (w : World) (a : Address) : Prop :=
  decode_virtual a = None ∧ is_zero a = false ∧ is_tip20_prefix a = false ∧ a ≠ RECEIVE_POLICY_GUARD_ADDRESS ∧
  (policies w).[a].(ReceivePolicy.config).(ReceivePolicyConfig.has_receive_policy) = false.

Abbreviation succeeds m w := (returns m e w (λ _ _, True)).
Lemma transfer_succeeds t a b n w :
  n ≤ (bals w t).[a] → is_zero b = false → a ≠ b → (bals w t).[b] + n ≤ U256_MAX →
  succeeds (Token._transfer t a (Recipient.direct b) n) w.
Proof.
  intros Hn Hb Hne Hmax. pose proof (t12_t8 _ H12) as H8.
  unfold Token._transfer, Token.handle_rewards_on_transfer, Token.update_rewards. cbn [Recipient.direct Recipient.target].
  unfold Token.decrement_balance, sdec, Token.increment_balance, sinc, Token.get_balance, Token.set_balance, Token.emit20.
  repeat (ret_step; rewrite ?H8, ?Hb; cbn [negb is_zero N.eqb ZERO_ADDRESS]).
  - by apply checked_sub_Some.
  - apply checked_add_Some. split; [done|]. w_simpl. rewrite sread_insert_eq. w_simpl. by rewrite sread_insert_ne.
  - done.
Qed.

Lemma channel_payout_succeeds t b n s w :
  (w_tip20s w).[t].(TIP20Token.paused) = false → payable w b → (w_keychain w).(Keychain.tx_origin) ≠ self →
  n ≤ held w t → self ≠ b → (bals w t).[b] + n ≤ U256_MAX →
  succeeds (TokenOps.channel_reserve_transfer t self (Recipient.direct b) n s) w.
Proof.
  intros Hp (Hv & Hz & Hpre & Hg & Hr) Ho Hn Hne Hmax. unfold TokenOps.channel_reserve_transfer.
  unfold Token.check_not_paused, Token.paused, Recipient.validate, Token.check_and_update_spending_limit,
    KeychainOps.authorize_transfer, Token.ensure_receive_policy_authorized, Policies.validate_receive_policy,
    Policies.check_receive_policy, Token.emit_hop. cbn [Recipient.direct Recipient.target].
  repeat ret_step; [done| |by rewrite Hz, Hpre|].
  { change (cget (tip20C t) w) with ((w_tip20s w).[t]). by rewrite Hp. }
  change (cget keychainC w) with (w_keychain w). rewrite (proj2 (N.eqb_neq _ _) (not_eq_sym Ho)), orb_true_r.
  repeat ret_step; [by apply negb_true_iff, N.eqb_neq|].
  change (cget tip403C w) with (w_tip403 w). unfold policies in Hr. rewrite Hr. cbn [negb]. repeat ret_step; [done|].
  eapply returns_mono; [by apply transfer_succeeds|]. intros ? w1 _ _. by exists (), w1.
Qed.

(** ** The storage credits *)

Lemma sstore_clear a x s :
  x ≠ 0 → a ≠ STORAGE_CREDITS_ADDRESS →
  Credits.sstore_storage_credits a x 0 s =
  StorageCreditsStorage.set_balances (insert a (saturating_add U64_MAX s.(StorageCreditsStorage.balances).[a] 1)) s.
Proof.
  intros Hx Ha. unfold Credits.sstore_storage_credits, Credits.crosses_zero_boundary, Credits.is_nonzero_to_zero.
  rewrite (proj2 (N.eqb_neq x 0) Hx), (proj2 (N.eqb_neq a _) Ha). done.
Qed.
(** Writing a slot that was empty spends the one credit of the budget. *)
Lemma sstore_spend a y s :
  y ≠ 0 → a ≠ STORAGE_CREDITS_ADDRESS → s.(StorageCreditsStorage.balances).[a] ≠ 0 →
  s.(StorageCreditsStorage.transient).[a].(TransientState.mode) = Direct →
  s.(StorageCreditsStorage.transient).[a].(TransientState.budget) = 1 →
  (Credits.sstore_storage_credits a 0 y s).(StorageCreditsStorage.balances).[a] =
  s.(StorageCreditsStorage.balances).[a] - 1.
Proof.
  intros Hy Ha Hb Hm Hbud. unfold Credits.sstore_storage_credits, Credits.crosses_zero_boundary, Credits.is_nonzero_to_zero.
  rewrite (proj2 (N.eqb_neq y 0) Hy), (proj2 (N.eqb_neq a _) Ha). cbn [Bool.eqb N.eqb negb andb].
  rewrite Hm, Hbud, (proj2 (N.eqb_neq _ 0) Hb). cbn. by rewrite sread_insert_eq.
Qed.

Lemma credit_slot_succeeds p w :
  (w_credits w).(StorageCreditsStorage.balances).[self] ≠ 0 → succeeds (credit_channel_storage_slots p 1) w.
Proof.
  intros Hb. pose proof (t12_t7 _ H12) as H7.
  unfold credit_channel_storage_slots, write_storage_credits, storage_credits, Credits.with_budget,
    Credits.sstore_slot, Credits.set_budget, Credits.write_mode_with_budget, Credits.credit_state_of, Credits.write_credit_state_of, Credits.balance_of.
  cbn [N.eqb]. repeat ret_step. destruct (N.eqb_spec (cget reserveC w).(ChannelReserve.channel_storage_credits).[p] 0) as [E|E].
  - repeat (ret_step; rewrite ?H7; cbn [negb N.eqb]); [|done].
    w_simpl. change (cget reserveC w) with (w_reserve w) in E. rewrite E.
    rewrite sstore_spend; [|done|done|done|..]; w_simpl; rewrite ?sread_insert_eq; try done.
    apply Z.eqb_eq. unfold Credits.delta. lia.
  - repeat (ret_step; rewrite ?H7). done.
Qed.

Lemma delete_channel_succeeds id p st w :
  channels w !! id = Some st → is_open st = true → (w_credits w).(StorageCreditsStorage.balances).[self] ≤ U64_MAX →
  succeeds (delete_channel_state_and_credit_payer id p) w.
Proof.
  intros Hs Ho Hmax. pose proof (t12_t7 _ H12) as H7.
  assert (channel_word st ≠ 0) as Hw.
  { unfold is_open in Ho. apply negb_true_iff, N.eqb_neq in Ho. unfold channel_word. lia. }
  assert ((ChannelReserve.channel_states (cget reserveC w)).[id] = st) as Hst.
  { unfold channels in Hs. unfold sread. cbn [cget reserveC]. by rewrite Hs. }
  unfold delete_channel_state_and_credit_payer, Credits.track_minted_credits, delete_state, read_state,
    Credits.balance_of, Credits.sstore_slot.
  repeat (ret_step; rewrite ?H7; cbn [negb]); rewrite Hst; w_simpl; rewrite !sstore_clear by done; w_simpl.
  all: rewrite !sread_insert_eq. all: set (n := (w_credits w).(StorageCreditsStorage.balances).[self]) in *.
  { apply negb_true_iff, N.ltb_ge. unfold saturating_add. lia. }
  assert (n = U64_MAX ∨ saturating_add U64_MAX n 1 = n + 1) as [->| ->] by (unfold saturating_add; lia).
  - change (saturating_add U64_MAX U64_MAX 1 - U64_MAX) with 0. by apply returns_ret.
  - replace (n + 1 - n) with 1 by lia. apply credit_slot_succeeds. w_simpl.
    rewrite sstore_clear by done. w_simpl. rewrite sread_insert_eq. unfold saturating_add, U64_MAX. lia.
Qed.

(** ** Withdrawals *)

Section withdrawal.
Context (d : ChannelDescriptor.t) (w : World).
Hypothesis Hpre : is_tip20_prefix d.(token) = true.
Hypothesis Hp : (w_tip20s w).[d.(token)].(TIP20Token.paused) = false.
Hypothesis (Hpay : payable w d.(payer)) (Hne : self ≠ d.(payer)) (Hor : (w_keychain w).(Keychain.tx_origin) ≠ self).

Lemma channel_credits t a r n s : Stable e (keeps w_credits) (TokenOps.channel_reserve_transfer t a r n s).
Proof. unfold TokenOps.channel_reserve_transfer. stable_auto. Qed.
Lemma payer_resolves : returns (Recipient.resolve d.(payer)) e w (λ r w', r = Recipient.direct d.(payer) ∧ w' = w).
Proof.
  destruct Hpay as [Hv _]. unfold Recipient.resolve, Registry.resolve_recipient. do 3 ret_step.
  rewrite (t12_t3 _ H12), Hv. cbn [negb]. do 2 ret_step. by rewrite N.eqb_refl.
Qed.

(** The refund arrives. *)
Lemma refund_returns n :
  n ≤ held w d.(token) → (bals w d.(token)).[d.(payer)] + n ≤ U256_MAX →
  returns (if negb (n =? 0) then
             from_address d.(token) ;; r ← Recipient.resolve d.(payer);
             TokenOps.channel_reserve_transfer d.(token) self r n self
           else mret ()) e w
    (λ _ w', w_reserve w' = w_reserve w ∧ w_credits w' = w_credits w ∧
             (bals w' d.(token)).[d.(payer)] = (bals w d.(token)).[d.(payer)] + n).
Proof.
  intros Hn Hmax. destruct (N.eqb_spec n 0) as [->|_]; cbn [negb].
  { ret_step. split_and!; [done..|lia]. }
  unfold from_address. do 2 ret_step; [done|]. ret_step. eapply returns_mono; [apply payer_resolves|].
  intros r w0 _ [-> ->]. eapply returns_mono; [by apply channel_payout_succeeds|].
  intros u w' H _. pose proof (channel_credits _ _ _ _ _ _ _ _ H) as Hc. pose proof H as [Hr _ _]%channel_paid.
  apply channel_exact in H as [_ Hb]. cbn [Recipient.direct Recipient.target] in Hb.
  destruct Hpay as (_ & Hz & _). rewrite Hz in Hb. split_and!; [done..|]. rewrite Hb.
  unfold move, credit, debit. rewrite sread_insert_eq, sread_insert_ne; done.
Qed.

Lemma withdraw_returns st :
  channels w !! id_in e d = Some st → is_open st = true → st.(settled) ≤ st.(deposit) →
  st.(close_requested_at) ≠ 0 → st.(close_requested_at) + CLOSE_GRACE_PERIOD ≤ timestamp e → timestamp e ≤ U64_MAX →
  st.(deposit) - st.(settled) ≤ held w d.(token) →
  (bals w d.(token)).[d.(payer)] + (st.(deposit) - st.(settled)) ≤ U256_MAX →
  (w_credits w).(StorageCreditsStorage.balances).[self] ≤ U64_MAX →
  returns (withdraw d.(payer) d) e w (λ _ w',
    channels w' = delete (id_in e d) (channels w) ∧
    (bals w' d.(token)).[d.(payer)] = (bals w d.(token)).[d.(payer)] + (st.(deposit) - st.(settled))).
Proof.
  intros Hs Ho Hle Hreq Hgrace Hts Hheld Hmax Hcr.
  assert ((ChannelReserve.channel_states (cget reserveC w)).[id_in e d] = st) as Hst.
  { unfold channels in Hs. unfold sread. cbn [cget reserveC]. by rewrite Hs. }
  unfold withdraw, channel_id, load_existing_state, read_state, now_u64, expect. repeat ret_step; rewrite ?Hst, ?H12.
  - done.
  - apply N.eqb_refl.
  - unfold close_requested. rewrite (proj2 (N.eqb_neq _ 0) Hreq). apply N.leb_le. unfold saturating_to. lia.
  - by apply checked_sub_Some.
  - repeat ret_step. eapply returns_mono; [by apply refund_returns|]. intros u w1 _ (Hr & Hc & Hb).
    apply reserve_same in Hr as [Hch _]. eapply returns_mono; [eapply delete_channel_succeeds; [by rewrite Hch|done|by rewrite Hc]|].
    intros u' w2 Hd%delete_channel_run _. repeat ret_step. destruct Hd as [E1 _ E2]. split.
    + change (channels w2 = delete (id_in e d) (channels w)). congruence.
    + unfold outside in E2. injection E2 as E2 _. change ((bals w2 d.(token)).[d.(payer)] = (bals w d.(token)).[d.(payer)] + (st.(deposit) - st.(settled))).
      by rewrite E2.
Qed.
End withdrawal.
End live.

(** ** The property *)

(** What a channel has left is among what is owed, and fits a balance. *)
Lemma left_backed h c D w d st :
  channel_collision_free h c → reserve_ok h c D w → desc_ok d → channels w !! channel_id_of h c d = Some st →
  st.(deposit) - st.(settled) ≤ held w d.(token) ∧ is_tip20_prefix d.(token) = true.
Proof.
  intros Hh HR Hd Hs. pose proof (described_token _ _ _ Hh _ _ _ (rs_channels _ _ _ _ HR) Hd Hs) as HD.
  pose proof (ds_token _ _ _ _ (rs_channels _ _ _ _ HR) _ _ Hs) as Ht. rewrite HD in Ht. split; [|done].
  etrans; [|apply (rs_margin _ _ _ _ HR)]. unfold owed.
  etrans; [|apply (msum_lookup_le _ (channel_id_of h c d))]. rewrite sread_imap, Hs. cbn. unfold left_of, at_token.
  rewrite HD, decide_True by done. done.
Qed.
Lemma credit_fits t w a n :
  ledger_ok t w → a ≠ self → n ≤ held w t → (bals w t).[a] + n ≤ U256_MAX.
Proof.
  intros (Hsum & Hcap & Hmax) Ha Hn. pose proof (msum_two_le (bals w t) a self Ha) as H. unfold held_by in Hn.
  assert (U128_MAX ≤ U256_MAX) by done. lia.
Qed.
Lemma run_ledger hist t : ledger_ok t (System.run hist dflt).
Proof. apply System.run_invariant; [|done]. intros. apply SupplySpec.exec_conserves. Qed.

(** C13: payers get their deposits back. From T12 on, once the grace period after the
    payer's request is over, the withdrawal of a channel succeeds in every state that a
    lawful history reaches, provided that the token is not paused, that the payer is not
    the reserve and has no receive policy of its own that could block the refund, that
    the transaction does not originate from the reserve, and that the reserve's balance
    of storage credits is a [u64]: the payer receives all of the deposit that was not
    settled, and the channel is gone. *)
Theorem withdrawal_succeeds h c hist e d st :
  let w := System.run hist dflt in
  lawful h c hist → is_t12 (spec e) = true → is_static e = false → keccak256 e = h → chain_id e = c →
  desc_ok d → channels w !! channel_id_of h c d = Some st →
  st.(close_requested_at) ≠ 0 → st.(close_requested_at) + CLOSE_GRACE_PERIOD ≤ timestamp e → timestamp e ≤ U64_MAX →
  (w_tip20s w).[d.(token)].(TIP20Token.paused) = false →
  payable w d.(payer) → d.(payer) ≠ self → (w_keychain w).(Keychain.tx_origin) ≠ self →
  (w_credits w).(StorageCreditsStorage.balances).[self] ≤ U64_MAX →
  returns (System.exec d.(payer) (System.ReserveCall (Withdraw d))) e w (λ _ w',
    channels w' = delete (channel_id_of h c d) (channels w) ∧
    (bals w' d.(token)).[d.(payer)] = (bals w d.(token)).[d.(payer)] + (st.(deposit) - st.(settled))).
Proof.
  intros w Hl H12 Hst <- <- Hd Hs Hreq Hgrace Hts Hp Hpay Hne Hor Hcr. pose proof Hl as [D HR]%lawful_channels_ok. fold w in HR.
  destruct (left_backed _ _ _ _ _ _ (lw_hash _ _ _ Hl) HR Hd Hs) as [Hheld Hpre].
  pose proof (credit_fits _ _ _ _ (run_ledger hist d.(token)) Hne Hheld) as Hmax.
  destruct (ds_open _ _ _ _ (rs_channels _ _ _ _ HR) _ _ Hs) as [Ho Hle].
  unfold System.exec, Reserve.dispatch, Credits.preserve_storage_credits, Credits.set_mode,
    Credits.write_mode_with_budget, Credits.credit_state_of, Credits.write_credit_state_of.
  ret_step; [by destruct (spec e)|]. ret_step; [done|]. do 3 ret_step. rewrite (t12_t7 _ H12). repeat ret_step.
  eapply returns_mono; [eapply (withdraw_returns e H12 d); try done; by apply not_eq_sym|]. intros u w' _ H. exact H.
Qed.
Lemma withdrawal_succeeds_witness :
  let st := PackedChannelState.mk 450 1050 100 true in
  returns (System.exec channel.(payer) (System.ReserveCall (Withdraw channel))) (unsigned_env T12 1000)
    (System.run channel_history dflt) (λ _ w',
      channels w' = delete (channel_id_of example_hash 4217 channel) (channels (System.run channel_history dflt)) ∧
      (bals w' channel.(token)).[channel.(payer)] =
        (bals (System.run channel_history dflt) channel.(token)).[channel.(payer)] + (st.(deposit) - st.(settled))).
Proof.
  intros st.
  refine (withdrawal_succeeds example_hash 4217 channel_history (unsigned_env T12 1000) channel st channel_lawful
    _ _ _ _ _ _ _ _ _ _ _ _ _ _).
  - reflexivity.
  - reflexivity.
  - reflexivity.
  - reflexivity.
  - by repeat constructor.
  - by vm_compute.
  - done.
  - done.
  - done.
  - by vm_compute.
  - split_and!; by vm_compute.
  - done.
  - by vm_compute.
  - by vm_compute.
Defined.
End ReserveLive.
