(* ===== verification/ValidatorInv.v ===== *)
(** * The tables of the validator registry

    The registry keeps, next to its records, a table of public keys, a table of
    addresses, a list of the active records and a set of ingress endpoints. Each is
    stated here as a relation to a column of the records, with the updates the
    operations make. Positions in the tables count from one. *)

From S2P Require Import Prelude Hardfork Address Bytes IpAddr Signature Errors State Monad.
From S2P Require Import ValidatorConfig ValidatorConfigV2.

Module ValidatorInv.

Abbreviation pos i := (N.of_nat i + 1).

(** ** Public keys *)

(** Every record's key, and nothing else, is found at the position of the record. *)
Definition keys_ok (ks : list B256) (m : gmap B256 N) : Prop := ∀ i k, ks !! i = Some k ↔ m.[k] = pos i.

Lemma keys_append ks m k : keys_ok ks m → m.[k] = 0 → keys_ok (ks ++ [k]) (<[k := pos (length ks)]> m).
Proof.
  intros H Hk i k'. rewrite sread_insert. destruct (decide (k = k')) as [->|Hne].
  - split; [|intros E; rewrite lookup_app_r by lia; by replace (i - length ks)%nat with 0%nat by lia].
    intros [Hi|[Hl Hi]]%lookup_app_Some; [apply H in Hi; lia|].
    apply list_lookup_singleton_Some in Hi as [? _]. lia.
  - split.
    + intros [Hi|[Hl Hi]]%lookup_app_Some; [by apply H|]. by apply list_lookup_singleton_Some in Hi as [_ ->].
    + intros Hi. apply lookup_app_l_Some. by apply H.
Qed.
(** A rotation moves the old key to a snapshot at the end. *)
Lemma keys_rotate ks m i k k' :
  keys_ok ks m → ks !! i = Some k → m.[k'] = 0 →
  keys_ok (<[i := k']> (ks ++ [k])) (<[k' := pos i]> (<[k := pos (length ks)]> m)).
Proof.
  intros H Hi Hk'. assert (k ≠ k') as Hne by (intros ->; apply H in Hi; lia).
  assert (i < length ks)%nat as Hlt by by eapply lookup_lt_Some.
  assert (keys_ok (<[i := k']> ks) (<[k' := pos i]> (<[k := 0]> m))) as H'.
  { intros j x. rewrite !sread_insert. destruct (decide (k' = x)) as [<-|Hx'].
    - split; [|intros E; replace j with i by lia; by rewrite list_lookup_insert_eq].
      destruct (decide (j = i)) as [->|Hj]; [done|]. rewrite list_lookup_insert_ne by done. intros Hj'%H. lia.
    - destruct (decide (k = x)) as [<-|Hx].
      + split; [|lia]. destruct (decide (j = i)) as [->|Hj]; [rewrite list_lookup_insert_eq by done; congruence|].
        rewrite list_lookup_insert_ne by done. intros Hj'%H. apply H in Hi. lia.
      + destruct (decide (j = i)) as [->|Hj]; [|rewrite list_lookup_insert_ne by done; apply H].
        rewrite list_lookup_insert_eq by done. split; [congruence|]. intros Hx2%H. congruence. }
  rewrite insert_app_l by done.
  replace (<[k' := pos i]> (<[k := pos (length ks)]> m))
    with (<[k := pos (length (<[i := k']> ks))]> (<[k' := pos i]> (<[k := 0]> m))).
  - apply keys_append; [done|]. by rewrite sread_insert_ne, sread_insert_eq.
  - rewrite length_insert, insert_insert_ne by done. by rewrite insert_insert_eq.
Qed.

(** ** Addresses *)

(** An address in the table belongs to the record at its position, and the address of
    an active record leads to it. *)
Record addresses_ok (xs : list (Address * bool)) (m : gmap Address N) : Prop := AddressesOk {
  ad_found a i : m.[a] = pos i → ∃ b, xs !! i = Some (a, b);
  ad_active i a : xs !! i = Some (a, true) → m.[a] = pos i
}.
(** No active record has the address. *)
Definition vacant (xs : list (Address * bool)) (a : Address) : Prop := ∀ i, xs !! i ≠ Some (a, true).

Lemma addresses_append xs m a b :
  addresses_ok xs m → vacant xs a → addresses_ok (xs ++ [(a, b)]) (<[a := pos (length xs)]> m).
Proof.
  intros [H1 H2] Hv. split; intros *.
  - rewrite sread_insert. case_decide as E; [subst a0|].
    + intros E. replace i with (length xs) by lia. exists b. by rewrite lookup_app_r, Nat.sub_diag.
    + intros (b' & Hb)%H1. exists b'. by apply lookup_app_l_Some.
  - intros [Hi|[Hl Hi]]%lookup_app_Some.
    + rewrite sread_insert_ne; [by apply H2|]. intros ->. by apply (Hv i).
    + apply list_lookup_singleton_Some in Hi as [Hd [= -> ->]]. rewrite sread_insert_eq. lia.
Qed.
Lemma addresses_snapshot xs m a : addresses_ok xs m → addresses_ok (xs ++ [(a, false)]) m.
Proof.
  intros [H1 H2]. split; intros *.
  - intros (b' & Hb)%H1. exists b'. by apply lookup_app_l_Some.
  - intros [Hi|[Hl Hi]]%lookup_app_Some; [by apply H2|]. by apply list_lookup_singleton_Some in Hi as [_ ?].
Qed.
Lemma addresses_deactivate xs m i a b :
  addresses_ok xs m → xs !! i = Some (a, b) → addresses_ok (<[i := (a, false)]> xs) m.
Proof.
  intros [H1 H2] Hi. split; intros *.
  - intros (b' & Hb)%H1. destruct (decide (i0 = i)) as [->|Hne].
    + rewrite Hi in Hb. injection Hb as -> _. exists false. apply list_lookup_insert_eq. by eapply lookup_lt_Some.
    + exists b'. by rewrite list_lookup_insert_ne.
  - intros [(-> & [=] & _)|(_ & Hb)]%list_lookup_insert_Some. by apply H2.
Qed.
Lemma addresses_transfer xs m i a a' :
  addresses_ok xs m → xs !! i = Some (a, true) → vacant xs a' →
  addresses_ok (<[i := (a', true)]> xs) (<[a' := pos i]> (delete a m)).
Proof.
  intros [H1 H2] Hi Hv. assert (i < length xs)%nat by by eapply lookup_lt_Some. split; intros *.
  - rewrite sread_insert. case_decide as E; [subst a0|].
    + intros E. replace i0 with i by lia. exists true. by apply list_lookup_insert_eq.
    + rewrite sread_delete. case_decide as E'; [lia|]. intros (b & Hb)%H1. exists b.
      rewrite list_lookup_insert_ne; [done|]. intros ->. congruence.
  - intros [(-> & [= <-] & _)|(Hne & Hb)]%list_lookup_insert_Some; [apply sread_insert_eq|].
    rewrite sread_insert_ne by (intros ->; by apply (Hv i0)). rewrite sread_delete.
    case_decide as E; [subst a0|by apply H2]. apply H2 in Hb, Hi. lia.
Qed.

(** ** The active records *)

(** The list holds the positions of the active records, which point back into it. *)
Record actives_ok (xs : list (bool * N)) (l : list N) : Prop := ActivesOk {
  ac_listed j n : l !! j = Some n → ∃ i, n = pos i ∧ xs !! i = Some (true, pos j);
  ac_active i x : xs !! i = Some (true, x) → ∃ j, x = pos j ∧ l !! j = Some (pos i);
  ac_inactive i x : xs !! i = Some (false, x) → x = 0
}.

Lemma actives_append xs l :
  actives_ok xs l → actives_ok (xs ++ [(true, pos (length l))]) (l ++ [pos (length xs)]).
Proof.
  intros [H1 H2 H3]. split; intros *.
  - intros [Hj|[Hl Hj]]%lookup_app_Some.
    + destruct (H1 _ _ Hj) as (i & -> & Hi). exists i. split; [done|by apply lookup_app_l_Some].
    + apply list_lookup_singleton_Some in Hj as [Hd <-]. exists (length xs). split; [done|].
      rewrite lookup_app_r, Nat.sub_diag by done. by replace j with (length l) by lia.
  - intros [Hi|[Hl Hi]]%lookup_app_Some.
    + destruct (H2 _ _ Hi) as (j & -> & Hj). exists j. split; [done|by apply lookup_app_l_Some].
    + apply list_lookup_singleton_Some in Hi as [Hd [= <-]]. exists (length l). split; [done|].
      rewrite lookup_app_r, Nat.sub_diag by done. by replace i with (length xs) by lia.
  - intros [Hi|[Hl Hi]]%lookup_app_Some; [by eapply H3|]. by apply list_lookup_singleton_Some in Hi as [_ ?].
Qed.
Lemma actives_snapshot xs l : actives_ok xs l → actives_ok (xs ++ [(false, 0)]) l.
Proof.
  intros [H1 H2 H3]. split; intros *.
  - intros Hj. destruct (H1 _ _ Hj) as (i & -> & Hi). exists i. split; [done|by apply lookup_app_l_Some].
  - intros [Hi|[Hl Hi]]%lookup_app_Some; [by apply H2|]. by apply list_lookup_singleton_Some in Hi as [_ ?].
  - intros [Hi|[Hl Hi]]%lookup_app_Some; [by eapply H3|]. by apply list_lookup_singleton_Some in Hi as [_ [=]].
Qed.

(** Removal of the last entry of the list. *)
Lemma actives_pop xs l i n :
  actives_ok xs (l ++ [n]) → xs !! i = Some (true, pos (length l)) → actives_ok (<[i := (false, 0)]> xs) l.
Proof.
  intros [H1 H2 H3] Hi. split; intros *.
  - intros Hj. destruct (H1 j n0) as (i' & -> & Hi'); [by apply lookup_app_l_Some|]. exists i'. split; [done|].
    rewrite list_lookup_insert_ne; [done|]. intros ->. rewrite Hi in Hi'. injection Hi' as E.
    apply lookup_lt_Some in Hj. lia.
  - intros [(-> & [=] & _)|(Hne & Hx)]%list_lookup_insert_Some. destruct (H2 _ _ Hx) as (j & -> & Hj). exists j. split; [done|].
    apply lookup_app_Some in Hj as [Hj|[Hl Hj]]; [done|]. apply list_lookup_singleton_Some in Hj as [Hd ->].
    destruct (H2 _ _ Hi) as (j' & E' & Hj'). rewrite lookup_app_r in Hj' by lia.
    apply list_lookup_singleton_Some in Hj' as [_ Hn]. lia.
  - intros [(-> & [= <-] & _)|(Hne & Hx)]%list_lookup_insert_Some; [done|by eapply H3].
Qed.
(** Moving the last entry into the place of another. *)
Lemma actives_swap xs l i j m :
  actives_ok xs (l ++ [pos m]) → xs !! i = Some (true, pos j) → (j < length l)%nat →
  actives_ok (<[i := (false, 0)]> (<[m := (true, pos j)]> xs)) (<[j := pos m]> l).
Proof.
  intros [H1 H2 H3] Hi Hj.
  destruct (H1 (length l) (pos m)) as (m' & Em & Hm); [by rewrite lookup_app_r, Nat.sub_diag|].
  replace m' with m in Hm by lia. clear m' Em.
  assert (i ≠ m) as Hne by (intros ->; rewrite Hi in Hm; injection Hm; lia).
  assert (i < length xs)%nat by by eapply lookup_lt_Some. assert (m < length xs)%nat by by eapply lookup_lt_Some.
  destruct (H2 _ _ Hi) as (j0 & E0 & Hj0). replace j0 with j in Hj0 by lia. clear j0 E0. rewrite lookup_app_l in Hj0 by done.
  split; intros *.
  - intros [(<- & <- & _)|(Hnj & Hn)]%list_lookup_insert_Some.
    + exists m. split; [done|]. rewrite list_lookup_insert_ne by done. by apply list_lookup_insert_eq.
    + destruct (H1 j0 n) as (x & -> & Hx); [by apply lookup_app_l_Some|]. exists x. split; [done|].
      apply lookup_lt_Some in Hn. rewrite !list_lookup_insert_ne; [done|..]; intros ->; [rewrite Hm in Hx|rewrite Hi in Hx]; injection Hx; lia.
  - intros [(-> & [=] & _)|(Hni & [(<- & [= <-] & _)|(Hnm & Hx)]%list_lookup_insert_Some)]%list_lookup_insert_Some.
    + exists j. split; [done|]. by apply list_lookup_insert_eq.
    + destruct (H2 _ _ Hx) as (j1 & -> & Hj1). exists j1. split; [done|].
      apply lookup_app_Some in Hj1 as [Hj1|[_ Hj1]]; [|apply list_lookup_singleton_Some in Hj1 as [_ E]; lia].
      rewrite list_lookup_insert_ne; [done|]. intros ->. rewrite Hj0 in Hj1. injection Hj1. lia.
  - intros [(-> & [= <-] & _)|(Hni & [(<- & [=] & _)|(Hnm & Hx)]%list_lookup_insert_Some)]%list_lookup_insert_Some; [done|by eapply H3].
Qed.

(** ** Ingress endpoints *)

(** The set holds the keys of the active records' endpoints, which all differ. *)
Record ingress_ok (xs : list (bool * option B256)) (m : gmap B256 bool) : Prop := IngressOk {
  ig_active i x : xs !! i = Some (true, x) → ∃ k, x = Some k ∧ m.[k] = true;
  ig_used k : m.[k] = true → ∃ i, xs !! i = Some (true, Some k);
  ig_unique i j x : xs !! i = Some (true, x) → xs !! j = Some (true, x) → i = j
}.
Lemma ingress_append xs m k :
  ingress_ok xs m → m.[k] = false → ingress_ok (xs ++ [(true, Some k)]) (<[k := true]> m).
Proof.
  intros [H1 H2 H3] Hk. assert (∀ i, xs !! i ≠ Some (true, Some k)) as Hno.
  { intros i Hi. destruct (H1 _ _ Hi) as (k' & [= <-] & Hk'). by rewrite Hk in Hk'. }
  split; intros *.
  - intros [Hi|[Hl Hi]]%lookup_app_Some.
    + destruct (H1 _ _ Hi) as (k' & -> & Hk'). exists k'. split; [done|]. rewrite sread_insert. by case_decide.
    + apply list_lookup_singleton_Some in Hi as [_ [= <-]]. exists k. by rewrite sread_insert_eq.
  - rewrite sread_insert. case_decide as E; [subst k0|].
    + intros _. exists (length xs). by rewrite lookup_app_r, Nat.sub_diag.
    + intros (i & Hi)%H2. exists i. by apply lookup_app_l_Some.
  - intros [Hi|[Hl Hi]]%lookup_app_Some [Hj|[Hl' Hj]]%lookup_app_Some.
    + by eapply H3.
    + apply list_lookup_singleton_Some in Hj as [_ [= <-]]. by destruct (Hno i).
    + apply list_lookup_singleton_Some in Hi as [_ [= <-]]. by destruct (Hno j).
    + apply list_lookup_singleton_Some in Hi as [? _], Hj as [? _]. lia.
Qed.
Lemma ingress_snapshot xs m x : ingress_ok xs m → ingress_ok (xs ++ [(false, x)]) m.
Proof.
  intros [H1 H2 H3]. assert (∀ i y, (xs ++ [(false, x)]) !! i = Some (true, y) → xs !! i = Some (true, y)) as Hin.
  { intros i y [Hi|[_ Hi]]%lookup_app_Some; [done|]. by apply list_lookup_singleton_Some in Hi as [_ [=]]. }
  split; intros *; [by intros ?%Hin; eauto| |by intros ?%Hin ?%Hin; eauto].
  intros (i & Hi)%H2. exists i. by apply lookup_app_l_Some.
Qed.
Lemma ingress_free xs m i k :
  ingress_ok xs m → xs !! i = Some (true, Some k) → ingress_ok (<[i := (false, Some k)]> xs) (delete k m).
Proof.
  intros [H1 H2 H3] Hi. assert (∀ j y, <[i := (false, Some k)]> xs !! j = Some (true, y) → j ≠ i ∧ xs !! j = Some (true, y)) as Hin.
  { intros j y [(-> & [=] & _)|(? & ?)]%list_lookup_insert_Some. by split. }
  assert (∀ k', (delete k m).[k'] = if decide (k = k') then false else m.[k']) as Hd.
  { intros k'. unfold sread. rewrite lookup_delete. by case_decide. }
  split; intros *.
  - intros [Hne Hj]%Hin. destruct (H1 _ _ Hj) as (k' & -> & Hk'). exists k'. split; [done|]. rewrite Hd.
    case_decide as E; [subst k'|done]. by destruct Hne, (H3 _ _ _ Hj Hi).
  - rewrite Hd. case_decide as E; [done|]. intros (j & Hj)%H2. exists j. rewrite list_lookup_insert_ne; [done|].
    intros ->. congruence.
  - intros [_ Hj]%Hin [_ Hj']%Hin. by eapply H3.
Qed.
Lemma ingress_move xs m i k k' :
  ingress_ok xs m → xs !! i = Some (true, Some k) → m.[k'] = false → k ≠ k' →
  ingress_ok (<[i := (true, Some k')]> xs) (<[k' := true]> (delete k m)).
Proof.
  intros [H1 H2 H3] Hi Hk' Hne. assert (i < length xs)%nat as Hlt by by eapply lookup_lt_Some.
  assert (∀ j, xs !! j ≠ Some (true, Some k')) as Hno.
  { intros j Hj. destruct (H1 _ _ Hj) as (x & [= <-] & Hx). by rewrite Hk' in Hx. }
  assert (∀ x, (delete k m).[x] = if decide (k = x) then false else m.[x]) as Hd.
  { intros x. unfold sread. rewrite lookup_delete. by case_decide. }
  split; intros *.
  - intros [(-> & [= <-] & _)|(Hn & Hj)]%list_lookup_insert_Some; [exists k'; by rewrite sread_insert_eq|].
    destruct (H1 _ _ Hj) as (y & -> & Hy). exists y. split; [done|]. rewrite sread_insert, Hd.
    case_decide; [done|]. case_decide as E; [subst y|done]. by destruct Hn, (H3 _ _ _ Hj Hi).
  - rewrite sread_insert, Hd. case_decide as E; [subst k0; intros _; exists i; by apply list_lookup_insert_eq|].
    case_decide as E'; [done|]. intros (j & Hj)%H2. exists j. rewrite list_lookup_insert_ne; [done|]. intros ->. congruence.
  - intros [(-> & [= <-] & _)|(Hn & Hj)]%list_lookup_insert_Some [(-> & ? & _)|(Hn' & Hj')]%list_lookup_insert_Some; try done.
    + by destruct (Hno j).
    + simplify_eq. by destruct (Hno i0).
    + by eapply H3.
Qed.
End ValidatorInv.
