(* ===== verification/ValidatorSpec.v ===== *)
(** * What the validator registry promises

    The tables of the registry agree with its records, the list of active validators is
    complete, deactivated records never change, and the validators of any past height
    can be read off the records. *)

From S2P Require Import Prelude Hardfork Address Bytes IpAddr Signature Errors State Monad.
From S2P Require Import ValidatorConfig ValidatorConfigV2 ValidatorInv.

Module ValidatorSpec.
Import ValidatorRecord ValidatorConfigV2Storage ValidatorConfigV2 ValidatorInv.

Abbreviation vs w := (w_vconfig2 w).

(** ** The invariant *)

Definition key_of (h : bytes → B256) (i : string) : option B256 := (λ a, h (ingress_preimage a)) <$> Net.parse_socket i.

Definition keys (l : list ValidatorRecord.t) : list B256 := public_key <$> l.
Definition addresses (l : list ValidatorRecord.t) : list (Address * bool) := (λ v, (v.(validator_address), is_active v)) <$> l.
Definition actives (l : list ValidatorRecord.t) : list (bool * N) := (λ v, (is_active v, v.(active_idx))) <$> l.
Definition ingresses (h : bytes → B256) (l : list ValidatorRecord.t) : list (bool * option B256) :=
  (λ v, (is_active v, key_of h v.(ingress))) <$> l.

Record registry_ok (h : bytes → B256) (s : State) : Prop := RegistryOk {
  rg_keys : keys_ok (keys s.(validators)) s.(pubkey_to_index);
  rg_addresses : addresses_ok (addresses s.(validators)) s.(address_to_index);
  rg_actives : actives_ok (actives s.(validators)) s.(active_indices);
  rg_ingresses : ingress_ok (ingresses h s.(validators)) s.(active_ingress_ips);
  rg_index i v : s.(validators) !! i = Some v → v.(index) = N.of_nat i;
  rg_endpoints i v : s.(validators) !! i = Some v →
    is_Some (Net.parse_socket v.(ingress)) ∧ is_Some (Net.parse_ip v.(egress));
  rg_room : N.of_nat (length s.(validators)) ≤ RECORDS_MAX;
  rg_indices_room : N.of_nat (length s.(active_indices)) ≤ INDICES_MAX
}.

(** ** Runs *)

Lemma wrapping_pos i : N.of_nat i < 2 ^ 64 → wrapping_sub (pos i) 1 = N.of_nat i.
Proof.
  intros Hi. unfold wrapping_sub. replace (pos i + 2 ^ 64 - 1) with (N.of_nat i + 1 * 2 ^ 64) by lia.
  by rewrite N.Div0.mod_add, N.mod_small.
Qed.

Lemma nth_in {A} (l : list A) i d : (i < length l)%nat → l !! i = Some (nth i l d).
Proof. intros Hi. destruct (nth_lookup_or_length l i d); [done|lia]. Qed.
Lemma get_active_Ok idx e w v w' :
  get_active_validator idx e w = (Ok v, w') →
  w' = w ∧ (vs w).(validators) !! N.to_nat idx = Some v ∧ is_active v = true.
Proof.
  intros H. unfold get_active_validator, validator_count, read_record in H. m_inv. bool_simpl.
  split_and!; [done| |done]. apply nth_in. lia.
Qed.
Lemma ingress_key_Ok i e w k w' :
  ingress_key i e w = (Ok k, w') → w' = w ∧ key_of (keccak256 e) i = Some k ∧ is_Some (Net.parse_socket i).
Proof.
  intros H. unfold ingress_key in H. m_step H. apply ok_or_Ok in Hrun as [Hp ->]. apply asks_Ok in H as [-> ->].
  unfold key_of. rewrite Hp. by split_and!.
Qed.
Lemma owner_or_validator_Ok c a b e w u w' :
  require_owner_or_validator c a b e w = (Ok u, w') → w' = w ∧ (a = b ∨ c.(Config.owner) = a).
Proof.
  unfold require_owner_or_validator, is_owner. intros [H ->]%require_Ok. split; [done|].
  destruct (N.eqb_spec a b); [by left|]. destruct (N.eqb_spec c.(Config.owner) a); [by right|done].
Qed.
Lemma update_record_run idx g v e w u w' :
  (vs w).(validators) !! N.to_nat idx = Some v → update_record idx g e w = (Ok u, w') →
  w' = set_w_vconfig2 (set_validators (λ l, <[N.to_nat idx := g v]> l)) w.
Proof.
  intros Hv H. unfold update_record, read_record, write_record in H. m_step H. apply rd_Ok in Hrun as [-> ->].
  m_step H. subst. change (cget vconfig2C w) with (vs w). by rewrite (nth_lookup_Some _ _ _ _ Hv).
Qed.

(** Deactivation: the record is closed and the last entry of the list of active records
    takes its place there. *)
Definition closed (b : N) (v : ValidatorRecord.t) : ValidatorRecord.t :=
  set_active_idx (λ _, 0) (set_deactivated_at_height (λ _, b) v).
Record deactivates (h : bytes → B256) (b : N) (i : nat) (v : ValidatorRecord.t) (s s' : State) : Prop := Deactivates {
  da_config : s'.(config) = s.(config);
  da_addresses : s'.(address_to_index) = s.(address_to_index);
  da_keys : s'.(pubkey_to_index) = s.(pubkey_to_index);
  da_ingress : ∃ k, key_of h v.(ingress) = Some k ∧ s'.(active_ingress_ips) = delete k s.(active_ingress_ips);
  da_list : ∃ j l n, v.(active_idx) = pos j ∧ s.(active_indices) = l ++ [n] ∧
    ((j = length l ∧ s'.(active_indices) = l ∧ s'.(validators) = <[i := closed b v]> s.(validators)) ∨
     (∃ m vm, n = pos m ∧ s.(validators) !! m = Some vm ∧ i ≠ m ∧ (j < length l)%nat ∧
        s'.(active_indices) = <[j := n]> l ∧
        s'.(validators) = <[i := closed b v]> (<[m := set_active_idx (λ _, pos j) vm]> s.(validators))))
}.
Lemma deactivate_run e h a idx w u w' :
  registry_ok h (vs w) → keccak256 e = h → deactivate_validator a idx e w = (Ok u, w') →
  ∃ v, (vs w).(validators) !! N.to_nat idx = Some v ∧ is_active v = true ∧
    (a = v.(validator_address) ∨ (vs w).(config).(Config.owner) = a) ∧
    deactivates h (block_number e) (N.to_nat idx) v (vs w) (vs w').
Proof.
  intros HR <- H. unfold deactivate_validator, read_config, free_ingress in H.
  m_step H. apply get_active_Ok in Hrun as (-> & Hv & Hact). exists a0. split; [done|]. split; [done|].
  m_step H. apply rd_Ok in Hrun as [-> ->]. m_step H. apply owner_or_validator_Ok in Hrun as [-> Hauth]. split; [done|].
  m_step H. apply ingress_key_Ok in Hrun as (-> & Hk & _). m_step H. m_step Hrun. subst.
  m_step H. apply asks_Ok in Hrun as [-> ->]. m_step H. eapply update_record_run in Hrun; [|exact Hv]. subst.
  m_step H. apply rd_Ok in Hrun as [-> ->]. cbv zeta in H. w_simpl.
  set (i := N.to_nat idx) in *.
  assert (actives (vs w).(validators) !! i = Some (true, a0.(active_idx))) as Hai.
  { unfold actives. by rewrite list_lookup_fmap, Hv, <- Hact. }
  destruct (ac_active _ _ (rg_actives _ _ HR) _ _ Hai) as (j & Ej & Hj).
  destruct (exists_last (l := (vs w).(active_indices))) as (l & n & El).
  { intros E. by rewrite E in Hj. }
  assert (j < S (length l))%nat as Hjl by (apply lookup_lt_Some in Hj; rewrite El, length_app in Hj; cbn in Hj; lia).
  pose proof (rg_indices_room _ _ HR) as Hroom. rewrite El, length_app in Hroom. cbn [length] in Hroom.
  assert (INDICES_MAX < 2 ^ 32) by done. pose proof (rg_room _ _ HR) as Hroom'. assert (RECORDS_MAX < 2 ^ 32) by done.
  assert (N.of_nat (length (vs w).(active_indices)) = pos (length l)) as Elen by (rewrite El, length_app; cbn; lia).
  rewrite Ej, Elen, !wrapping_pos, El in H by lia. rewrite !Nat2N.id in H. rewrite nth_middle in H.
  assert (i < length (vs w).(validators))%nat as Hilt by by eapply lookup_lt_Some.
  destruct (decide (j = length l)) as [->|Hne].
  - rewrite N.eqb_refl in H. cbn [negb] in H. m_step H. apply ret_Ok in Hrun as [_ ->]. m_step H. m_step Hrun. subst.
    m_step H. eapply update_record_run in Hrun; [|w_simpl; by apply list_lookup_insert_eq]. subst. m_step H. subst. w_simpl.
    split; w_simpl; [done..|by eauto|]. exists (length l), l, n. split_and!; [done..|]. left.
    rewrite El, length_app. cbn [length]. replace (length l + 1 - 1)%nat with (length l) by lia.
    rewrite take_app_length, list_insert_insert_eq. done.
  - destruct (N.eqb_spec (N.of_nat j) (N.of_nat (length l))); [lia|]. cbn [negb] in H.
    destruct (ac_listed _ _ (rg_actives _ _ HR) (length l) n) as (m & -> & Hm).
    { by rewrite El, lookup_app_r, Nat.sub_diag. }
    unfold actives in Hm. rewrite list_lookup_fmap in Hm. destruct ((vs w).(validators) !! m) as [vm|] eqn:Hvm; [|done].
    injection Hm as Hvma Hvmx. assert (m < length (vs w).(validators))%nat as Hmlt by by eapply lookup_lt_Some.
    assert (i ≠ m) as Him by (intros <-; rewrite Hv in Hvm; injection Hvm as <-; lia).
    rewrite wrapping_pos in H by lia. m_step H. m_step Hrun. m_step Hrun0. subst.
    eapply update_record_run in Hrun; [|w_simpl; rewrite Nat2N.id, list_lookup_insert_ne by done; exact Hvm]. subst.
    m_step H. m_step Hrun. subst. m_step H.
    eapply update_record_run in Hrun; [|w_simpl; rewrite Nat2N.id, list_lookup_insert_ne by done; by apply list_lookup_insert_eq].
    subst. m_step H. subst. w_simpl. split; w_simpl; [done..|by eauto|]. exists j, l, (pos m). split_and!; [done..|]. right.
    exists m, vm. split_and!; [done|done|done|lia|..].
    + rewrite El, length_insert, length_app. cbn [length]. replace (length l + 1 - 1)%nat with (length l) by lia.
      rewrite insert_app_l by lia. rewrite <- (length_insert l j (pos m)) at 1. apply take_app_length.
    + rewrite Nat2N.id. fold i. rewrite (list_insert_insert_ne _ m i) by done. by rewrite list_insert_insert_eq.
Qed.

(** A record appended by a registration or a migration. *)
Record appends (h : bytes → B256) (v : ValidatorRecord.t) (s s' : State) : Prop := Appends {
  ap_validators : s'.(validators) = s.(validators) ++ [v];
  ap_room : N.of_nat (length s.(validators)) < RECORDS_MAX;
  ap_index : v.(index) = N.of_nat (length s.(validators));
  ap_key : s.(pubkey_to_index).[v.(public_key)] = 0;
  ap_keys : s'.(pubkey_to_index) = <[v.(public_key) := pos (length s.(validators))]> s.(pubkey_to_index);
  ap_vacant : vacant (addresses s.(validators)) v.(validator_address);
  ap_addresses : s'.(address_to_index) = <[v.(validator_address) := pos (length s.(validators))]> s.(address_to_index);
  ap_endpoints : is_Some (Net.parse_socket v.(ingress)) ∧ is_Some (Net.parse_ip v.(egress));
  ap_active : if is_active v
    then v.(active_idx) = pos (length s.(active_indices)) ∧ N.of_nat (length s.(active_indices)) < INDICES_MAX ∧
         s'.(active_indices) = s.(active_indices) ++ [pos (length s.(validators))] ∧
         ∃ k, key_of h v.(ingress) = Some k ∧ s.(active_ingress_ips).[k] = false ∧
              s'.(active_ingress_ips) = <[k := true]> s.(active_ingress_ips)
    else v.(active_idx) = 0 ∧ s'.(active_indices) = s.(active_indices) ∧ s'.(active_ingress_ips) = s.(active_ingress_ips)
}.

Lemma vec_push_Ok {A} max (l : list A) x l' e w w' :
  vec_push max l x e w = (Ok l', w') → l' = l ++ [x] ∧ N.of_nat (length l) < max ∧ w' = w.
Proof. unfold vec_push. intros H. m_inv. by bool_simpl. Qed.
Lemma push_record_run v e w u w' :
  push_record v e w = (Ok u, w') →
  w' = set_w_vconfig2 (set_validators (λ l, l ++ [v])) w ∧ N.of_nat (length (vs w).(validators)) < RECORDS_MAX.
Proof.
  intros H. unfold push_record in H. m_step H. apply rd_Ok in Hrun as [-> ->]. m_step H.
  apply vec_push_Ok in Hrun as (-> & Hl & ->). m_step H. subst. done.
Qed.
Lemma append_run a k i eg f x y e w n w' :
  append_validator a k i eg f x y e w = (Ok n, w') →
  let s := vs w in
  let act := y =? 0 in
  let v := ValidatorRecord.mk k a i eg f (N.of_nat (length s.(validators)))
             (if act then pos (length s.(active_indices)) else 0) x y in
  N.of_nat (length s.(validators)) < RECORDS_MAX ∧ (act = true → N.of_nat (length s.(active_indices)) < INDICES_MAX) ∧
  vs w' = ValidatorConfigV2Storage.mk s.(config) (s.(validators) ++ [v])
    (<[a := pos (length s.(validators))]> s.(address_to_index)) (<[k := pos (length s.(validators))]> s.(pubkey_to_index))
    s.(next_network_identity_rotation_epoch) s.(active_ingress_ips)
    (if act then s.(active_indices) ++ [pos (length s.(validators))] else s.(active_indices)) ∧ n = N.of_nat (length s.(validators)).
Proof.
  intros H s act v. unfold append_validator, validator_count, write_pubkey_index, write_address_index in H.
  m_step H. apply rd_Ok in Hrun as [-> ->]. fold act in H. m_step H. subst s. destruct act eqn:Eact.
  - m_step Hrun. apply rd_Ok in Hrun0 as [-> ->]. m_step Hrun. apply vec_push_Ok in Hrun0 as (-> & Hl & ->).
    m_step Hrun. m_step Hrun0. subst. apply ret_Ok in Hrun as [-> ->]. m_step H. apply push_record_run in Hrun as [-> Hr].
    m_inv. split_and!; [done|done| |done]. subst v. rewrite length_app. cbn [length].
    by replace (N.of_nat (length (vs w).(active_indices) + 1)) with (pos (length (vs w).(active_indices))) by lia.
  - apply ret_Ok in Hrun as [-> ->]. m_step H. apply push_record_run in Hrun as [-> Hr]. m_inv.
    split_and!; [done|done| |done]. subst v. by destruct (vs w).
Qed.

(** The set of endpoints follows a validator that moves from one to another. *)
Definition retracks (h : bytes → B256) (i i' : string) (m m' : gmap B256 bool) : Prop :=
  ∃ k k', key_of h i = Some k ∧ key_of h i' = Some k' ∧
    ((k = k' ∧ m' = m) ∨ (k ≠ k' ∧ m.[k'] = false ∧ m' = <[k' := true]> (delete k m))).
Lemma tracking_run i i' e w u w' :
  update_ingress_ip_tracking i i' e w = (Ok u, w') →
  ∃ m, w' = set_w_vconfig2 (set_active_ingress_ips (λ _, m)) w ∧
    retracks (keccak256 e) i i' (vs w).(active_ingress_ips) m.
Proof.
  intros H. unfold update_ingress_ip_tracking, ingress_used, free_ingress, mark_ingress in H.
  m_step H. apply ingress_key_Ok in Hrun as (-> & Hk & _). m_step H. apply ingress_key_Ok in Hrun as (-> & Hk' & _).
  destruct (N.eqb_spec a a0) as [->|Hne]; cbn [negb] in H.
  - apply ret_Ok in H as [_ ->]. exists (vs w).(active_ingress_ips). split.
    + destruct w as [? ? ? ? ? ? ? ? ? ? ? []]. done.
    + exists a0, a0. split_and!; [done..|]. by left.
  - m_inv. bool_simpl. eexists. split; [done|]. exists a, a0. split_and!; [done..|]. by right.
Qed.
Abbreviation endpoints_valid i eg := (is_Some (Net.parse_socket i) ∧ is_Some (Net.parse_ip eg)).
Lemma validate_endpoints_Ok i eg e w u w' :
  validate_endpoints i eg e w = (Ok u, w') → w' = w ∧ endpoints_valid i eg.
Proof.
  unfold validate_endpoints, ensure_address_is_ip_port, ensure_address_is_ip. intros H. m_inv. 
  split; [done|]. split; by eapply bool_decide_eq_true_1.
Qed.

(** A record changed in place, without a new key. *)
Record edits (h : bytes → B256) (i : nat) (v v' : ValidatorRecord.t) (s s' : State) : Prop := Edits {
  ed_validators : s'.(validators) = <[i := v']> s.(validators);
  ed_keys : s'.(pubkey_to_index) = s.(pubkey_to_index);
  ed_indices : s'.(active_indices) = s.(active_indices);
  ed_same : v'.(public_key) = v.(public_key) ∧ v'.(index) = v.(index) ∧ v'.(active_idx) = v.(active_idx) ∧
    v'.(added_at_height) = v.(added_at_height) ∧ v'.(deactivated_at_height) = v.(deactivated_at_height);
  ed_address : (v'.(validator_address) = v.(validator_address) ∧ s'.(address_to_index) = s.(address_to_index)) ∨
    (vacant (addresses s.(validators)) v'.(validator_address) ∧
     s'.(address_to_index) = <[v'.(validator_address) := pos i]> (delete v.(validator_address) s.(address_to_index)));
  ed_ingress : retracks h v.(ingress) v'.(ingress) s.(active_ingress_ips) s'.(active_ingress_ips);
  ed_endpoints : endpoints_valid v'.(ingress) v'.(egress)
}.
(** A rotation: the record gets a new key, the old identity is kept at the end. *)
Definition snapshot (b : N) (n : nat) (v : ValidatorRecord.t) : ValidatorRecord.t :=
  ValidatorRecord.mk v.(public_key) v.(validator_address) v.(ingress) v.(egress) v.(fee_recipient) (N.of_nat n) 0
    v.(added_at_height) b.
Definition rotated (b : N) (k : B256) (i eg : string) (v : ValidatorRecord.t) : ValidatorRecord.t :=
  ValidatorRecord.mk k v.(validator_address) i eg v.(fee_recipient) v.(index) v.(active_idx) b v.(deactivated_at_height).
Record rotates (h : bytes → B256) (b : N) (i : nat) (k : B256) (ing eg : string) (v : ValidatorRecord.t) (s s' : State) : Prop := Rotates {
  ro_validators : s'.(validators) = <[i := rotated b k ing eg v]> (s.(validators) ++ [snapshot b (length s.(validators)) v]);
  ro_room : N.of_nat (length s.(validators)) < RECORDS_MAX;
  ro_new : s.(pubkey_to_index).[k] = 0;
  ro_keys : s'.(pubkey_to_index) = <[k := pos i]> (<[v.(public_key) := pos (length s.(validators))]> s.(pubkey_to_index));
  ro_addresses : s'.(address_to_index) = s.(address_to_index);
  ro_indices : s'.(active_indices) = s.(active_indices);
  ro_ingress : retracks h v.(ingress) ing s.(active_ingress_ips) s'.(active_ingress_ips);
  ro_endpoints : endpoints_valid ing eg
}.

(** ** Preservation *)

(** A column that an update does not touch. *)
Lemma column_same {B} (f : ValidatorRecord.t → B) (l : list ValidatorRecord.t) (i : nat) v v' :
  l !! i = Some v → f v' = f v → f <$> <[i := v']> l = f <$> l.
Proof. intros Hv Hf. rewrite list_fmap_insert, Hf, list_insert_id; [done|]. by rewrite list_lookup_fmap, Hv. Qed.
Lemma column_at {B} (f : ValidatorRecord.t → B) (l : list ValidatorRecord.t) (i : nat) v : l !! i = Some v → (f <$> l) !! i = Some (f v).
Proof. intros Hv. by rewrite list_lookup_fmap, Hv. Qed.

(** Properties of single records survive updates that keep them. *)
Lemma records_insert (P : nat → ValidatorRecord.t → Prop) (l : list ValidatorRecord.t) i v' :
  (∀ j v, l !! j = Some v → P j v) → P i v' → ∀ j v, <[i := v']> l !! j = Some v → P j v.
Proof. intros H Hi j v [(<- & <- & _)|(_ & Hj)]%list_lookup_insert_Some; auto. Qed.
Lemma records_append (P : nat → ValidatorRecord.t → Prop) (l : list ValidatorRecord.t) v' :
  (∀ j v, l !! j = Some v → P j v) → P (length l) v' → ∀ j v, (l ++ [v']) !! j = Some v → P j v.
Proof.
  intros H Hl j v [Hj|[Hle Hj]]%lookup_app_Some; [auto|]. apply list_lookup_singleton_Some in Hj as [Hd <-].
  by replace j with (length l) by lia.
Qed.

Definition views (s : State) : list ValidatorRecord.t := view_of <$> s.(validators).

Section preservation.
Context (h : bytes → B256) (s s' : State) (HR : registry_ok h s).

Lemma deactivate_ok b i v :
  s.(validators) !! i = Some v → is_active v = true → b ≠ 0 → deactivates h b i v s s' →
  registry_ok h s' ∧ views s' = <[i := view_of (closed b v)]> (views s).
Proof.
  intros Hv Ha Hb [_ E2 E3 (k & Hk & E4) (j & l & n & Hj & El & E5)].
  assert (is_active (closed b v) = false) as Hca by by apply N.eqb_neq.
  assert (∃ L, s'.(validators) = <[i := closed b v]> L ∧ L !! i = Some v ∧ length L = length s.(validators) ∧
    keys L = keys s.(validators) ∧ addresses L = addresses s.(validators) ∧ ingresses h L = ingresses h s.(validators) ∧
    view_of <$> L = view_of <$> s.(validators) ∧
    (∀ P : nat → ValidatorRecord.t → Prop, (∀ m v n, P m v → P m (set_active_idx (λ _, n) v)) →
      (∀ m v, s.(validators) !! m = Some v → P m v) → ∀ m v, L !! m = Some v → P m v)) as (L & EL & HLi & HLl & L1 & L2 & L3 & L4 & HP).
  { destruct E5 as [(_ & _ & E)|(m & vm & _ & Hvm & Hne & _ & _ & E)].
    - exists s.(validators). split_and!; [done..|]. naive_solver.
    - exists (<[m := set_active_idx (λ _, pos j) vm]> s.(validators)).
      split_and!; [done|by rewrite list_lookup_insert_ne|apply length_insert|..]; try by eapply column_same.
      intros P HP Hall. apply records_insert; eauto. }
  split; [split|].
  - rewrite EL, E3. unfold keys in *. rewrite (column_same _ _ _ v), L1 by done. apply HR.
  - rewrite EL, E2. unfold addresses in *. rewrite list_fmap_insert, L2, Hca.
    eapply addresses_deactivate; [apply HR|]. unfold addresses. by rewrite (column_at _ _ _ _ Hv).
  - destruct E5 as [(-> & -> & E)|(m & vm & -> & Hvm & Hne & Hlt & -> & E)]; rewrite E; unfold actives; rewrite !list_fmap_insert, Hca.
    + eapply (actives_pop _ l i n); [rewrite <- El; apply HR|]. rewrite (column_at _ _ _ _ Hv). by rewrite Ha, Hj.
    + pose proof (rg_actives _ _ HR) as HA. rewrite El in HA.
      destruct (ac_listed _ _ HA (length l) (pos m)) as (m' & Em & Hm); [by rewrite lookup_app_r, Nat.sub_diag|].
      replace m' with m in Hm by lia. unfold actives in Hm. rewrite (column_at _ _ _ _ Hvm) in Hm. injection Hm as Hvma _.
      change (is_active (set_active_idx (λ _, pos j) vm)) with (is_active vm). rewrite Hvma.
      apply actives_swap; [done| |done]. unfold actives. rewrite (column_at _ _ _ _ Hv). by rewrite Ha, Hj.
  - rewrite EL, E4. unfold ingresses in *. rewrite list_fmap_insert, L3, Hca.
    change (ingress (closed b v)) with (ingress v). rewrite Hk. eapply ingress_free; [apply HR|].
    rewrite (column_at _ _ _ _ Hv). by rewrite Ha, Hk.
  - rewrite EL. apply (records_insert (λ i v, v.(index) = N.of_nat i)); [|exact (rg_index _ _ HR i v Hv)].
    apply (HP (λ i v, v.(index) = N.of_nat i)); [done|apply (rg_index _ _ HR)].
  - rewrite EL. apply (records_insert (λ i v, is_Some (Net.parse_socket v.(ingress)) ∧ is_Some (Net.parse_ip v.(egress)))); [|exact (rg_endpoints _ _ HR i v Hv)].
    apply (HP (λ i v, is_Some (Net.parse_socket v.(ingress)) ∧ is_Some (Net.parse_ip v.(egress)))); [done|apply (rg_endpoints _ _ HR)].
  - rewrite EL, length_insert, HLl. apply HR.
  - pose proof (rg_indices_room _ _ HR) as Hroom. rewrite El, length_app in Hroom.
    destruct E5 as [(_ & -> & _)|(m & vm & _ & _ & _ & _ & -> & _)]; rewrite ?length_insert; cbn in Hroom; lia.
  - unfold views. by rewrite EL, list_fmap_insert, L4.
Qed.
Lemma append_ok v : appends h v s s' → registry_ok h s' ∧ views s' = views s ++ [view_of v].
Proof.
  intros [E1 Hr Hi Hk E2 Hv E3 He Ha]. split; [split|].
  - rewrite E1, E2. unfold keys. rewrite fmap_app. cbn [fmap list_fmap].
    pose proof (keys_append _ _ _ (rg_keys _ _ HR) Hk) as H. unfold keys in H. by rewrite length_fmap in H.
  - rewrite E1, E3. unfold addresses. rewrite fmap_app. cbn [fmap list_fmap].
    pose proof (addresses_append _ _ _ (is_active v) (rg_addresses _ _ HR) Hv) as H. unfold addresses in H. by rewrite length_fmap in H.
  - rewrite E1. unfold actives. rewrite fmap_app. cbn [fmap list_fmap]. destruct (is_active v).
    + destruct Ha as (-> & _ & -> & _). pose proof (actives_append _ _ (rg_actives _ _ HR)) as H. unfold actives in H.
      by rewrite length_fmap in H.
    + destruct Ha as (-> & -> & _). apply actives_snapshot, HR.
  - rewrite E1. unfold ingresses. rewrite fmap_app. cbn [fmap list_fmap]. destruct (is_active v).
    + destruct Ha as (_ & _ & _ & k & -> & Hu & ->). apply ingress_append; [apply HR|done].
    + destruct Ha as (_ & _ & ->). apply ingress_snapshot, HR.
  - rewrite E1. by apply (records_append (λ i v, v.(index) = N.of_nat i)); [apply (rg_index _ _ HR)|].
  - rewrite E1. by apply (records_append (λ i v, is_Some (Net.parse_socket v.(ingress)) ∧ is_Some (Net.parse_ip v.(egress)))); [apply (rg_endpoints _ _ HR)|].
  - rewrite E1, length_app. cbn. lia.
  - destruct (is_active v); [destruct Ha as (_ & Hl & -> & _); rewrite length_app; cbn; lia|].
    destruct Ha as (_ & -> & _). apply HR.
  - unfold views. by rewrite E1, fmap_app.
Qed.

Lemma retrack_ok xs i j j' m m' :
  ingress_ok xs m → xs !! i = Some (true, key_of h j) → retracks h j j' m m' → ingress_ok (<[i := (true, key_of h j')]> xs) m'.
Proof.
  intros Hx Hi (k & k' & Hk & Hk' & [[-> ->]|(Hne & Hu & ->)]); rewrite Hk in Hi; rewrite Hk'.
  - by rewrite list_insert_id.
  - by eapply ingress_move.
Qed.
Lemma edit_ok i v v' :
  s.(validators) !! i = Some v → is_active v = true → edits h i v v' s s' →
  registry_ok h s' ∧ views s' = <[i := view_of v']> (views s).
Proof.
  intros Hv Ha [E1 E2 E3 (S1 & S2 & S3 & S4 & S5) Had Hig Hen].
  assert (is_active v' = true) as Ha' by by unfold is_active in *; rewrite S5.
  split; [split|].
  - rewrite E1, E2. unfold keys. rewrite (column_same _ _ _ v) by done. apply HR.
  - assert (addresses s.(validators) !! i = Some (v.(validator_address), true)) as Hxi.
    { unfold addresses. by rewrite (column_at _ _ _ _ Hv), Ha. }
    rewrite E1. unfold addresses. rewrite list_fmap_insert, Ha'. destruct Had as [[-> ->]|[Hvac ->]].
    + rewrite list_insert_id by done. apply HR.
    + by eapply addresses_transfer; [apply HR|..].
  - rewrite E1, E3. unfold actives. rewrite (column_same _ _ _ v); [apply HR|done|congruence].
  - rewrite E1. unfold ingresses. rewrite list_fmap_insert, Ha'. eapply retrack_ok; [apply HR| |exact Hig].
    unfold ingresses. by rewrite (column_at _ _ _ _ Hv), Ha.
  - rewrite E1. apply (records_insert (λ i v, v.(index) = N.of_nat i)); [apply (rg_index _ _ HR)|].
    rewrite S2. exact (rg_index _ _ HR i v Hv).
  - rewrite E1. apply (records_insert (λ i v, endpoints_valid v.(ingress) v.(egress))); [apply (rg_endpoints _ _ HR)|done].
  - rewrite E1, length_insert. apply HR.
  - rewrite E3. apply HR.
  - unfold views. by rewrite E1, list_fmap_insert.
Qed.
Lemma rotate_ok b i k ing eg v :
  s.(validators) !! i = Some v → is_active v = true → b ≠ 0 → rotates h b i k ing eg v s s' →
  registry_ok h s' ∧ views s' = <[i := view_of (rotated b k ing eg v)]> (views s ++ [view_of (snapshot b (length (views s)) v)]).
Proof.
  intros Hv Ha Hb [E1 Hr Hnew E2 E3 E4 Hig Hen].
  assert (is_active (rotated b k ing eg v) = true) as Ha' by done.
  assert (∀ x, is_active (snapshot b x v) = false) as Hs by (intros; by apply N.eqb_neq).
  assert (i < length s.(validators))%nat as Hlt by by eapply lookup_lt_Some.
  split; [split|].
  - rewrite E1, E2. unfold keys. rewrite list_fmap_insert, fmap_app. cbn [fmap list_fmap].
    rewrite <- (length_fmap public_key s.(validators)). apply keys_rotate; [apply HR| |done].
    by rewrite (column_at _ _ _ _ Hv).
  - rewrite E1, E3. unfold addresses. rewrite list_fmap_insert, fmap_app. cbn [fmap list_fmap]. rewrite Hs, Ha'.
    rewrite insert_app_l by by rewrite length_fmap. rewrite list_insert_id; [apply addresses_snapshot, HR|].
    by rewrite (column_at _ _ _ _ Hv), Ha.
  - rewrite E1, E4. unfold actives. rewrite list_fmap_insert, fmap_app. cbn [fmap list_fmap]. rewrite Hs, Ha'.
    rewrite insert_app_l by by rewrite length_fmap. rewrite list_insert_id; [apply actives_snapshot, HR|].
    by rewrite (column_at _ _ _ _ Hv), Ha.
  - rewrite E1. unfold ingresses. rewrite list_fmap_insert, fmap_app. cbn [fmap list_fmap]. rewrite Hs, Ha'.
    rewrite insert_app_l by by rewrite length_fmap. apply ingress_snapshot.
    eapply retrack_ok; [apply HR| |exact Hig]. unfold ingresses. by rewrite (column_at _ _ _ _ Hv), Ha.
  - rewrite E1. apply (records_insert (λ i v, v.(index) = N.of_nat i)); [|exact (rg_index _ _ HR i v Hv)].
    by apply (records_append (λ i v, v.(index) = N.of_nat i)); [apply (rg_index _ _ HR)|].
  - rewrite E1. apply (records_insert (λ i v, endpoints_valid v.(ingress) v.(egress))); [|done].
    apply (records_append (λ i v, endpoints_valid v.(ingress) v.(egress))); [apply (rg_endpoints _ _ HR)|exact (rg_endpoints _ _ HR i v Hv)].
  - rewrite E1, length_insert, length_app. cbn. lia.
  - rewrite E4. apply HR.
  - unfold views. rewrite E1, list_fmap_insert, fmap_app, length_fmap. done.
Qed.
End preservation.

(** ** The registry as a list of records *)

(** What a step at height [b] does to the records: nothing, or it appends a record,
    closes an active one, edits an active one without touching its key and heights, or
    gives it a new identity and appends a closed copy of the old one. *)
Inductive evolves (b : N) (l : list ValidatorRecord.t) : list ValidatorRecord.t → Prop :=
| ev_same : evolves b l l
| ev_append v : v.(added_at_height) = b → is_active v = true ∨ v.(deactivated_at_height) = b → evolves b l (l ++ [v])
| ev_close i v : l !! i = Some v → is_active v = true → evolves b l (<[i := closed b v]> l)
| ev_edit i v v' : l !! i = Some v → is_active v = true → v'.(public_key) = v.(public_key) →
    v'.(index) = v.(index) → v'.(added_at_height) = v.(added_at_height) → v'.(deactivated_at_height) = 0 → evolves b l (<[i := v']> l)
| ev_rotate i v k ing eg : l !! i = Some v → is_active v = true →
    evolves b l (<[i := rotated b k ing eg v]> (l ++ [snapshot b (length l) v])).

Definition sound (h : bytes → B256) (b : N) (s s' : State) : Prop := registry_ok h s' ∧ evolves b (views s) (views s').

Section sound.
Context (h : bytes → B256) (b : N) (s s' : State) (HR : registry_ok h s).
Lemma views_at i v : s.(validators) !! i = Some v → views s !! i = Some (view_of v).
Proof. apply column_at. Qed.
Lemma deactivate_sound i v :
  s.(validators) !! i = Some v → is_active v = true → b ≠ 0 → deactivates h b i v s s' → sound h b s s'.
Proof.
  intros Hv Ha Hb Hd. destruct (deactivate_ok h s s' HR _ _ _ Hv Ha Hb Hd) as [HR' E]. split; [done|]. rewrite E.
  by apply (ev_close b _ i (view_of v)); [apply views_at|].
Qed.
Lemma append_sound v :
  appends h v s s' → v.(added_at_height) = b → is_active v = true ∨ v.(deactivated_at_height) = b → sound h b s s'.
Proof.
  intros Ha Hadd Hact. destruct (append_ok h s s' HR _ Ha) as [HR' E]. split; [done|]. rewrite E. by apply ev_append.
Qed.
Lemma edit_sound i v v' :
  s.(validators) !! i = Some v → is_active v = true → edits h i v v' s s' → sound h b s s'.
Proof.
  intros Hv Ha He. pose proof He as [_ _ _ (S1 & S2 & S3 & S4 & S5) _ _ _].
  destruct (edit_ok h s s' HR _ _ _ Hv Ha He) as [HR' E]. split; [done|]. rewrite E.
  apply (ev_edit b _ i (view_of v)); [by apply views_at|done|done|done|done|]. cbn. rewrite S5. by apply N.eqb_eq.
Qed.
Lemma rotate_sound i k ing eg v :
  s.(validators) !! i = Some v → is_active v = true → b ≠ 0 → rotates h b i k ing eg v s s' → sound h b s s'.
Proof.
  intros Hv Ha Hb Hr. destruct (rotate_ok h s s' HR _ _ _ _ _ _ Hv Ha Hb Hr) as [HR' E]. split; [done|]. rewrite E.
  by apply (ev_rotate b _ i (view_of v)); [apply views_at|].
Qed.
(** Nothing but the configuration, or the rotation epoch, changed. *)
Lemma config_sound c n : s' = set_config (λ _, c) (set_next_network_identity_rotation_epoch (λ _, n) s) → sound h b s s'.
Proof. intros ->. split; [by destruct HR; split|constructor]. Qed.
End sound.

(** ** The operations are sound *)

Section ops.
Context (e : Env) (w w' : World) (u : ()) (HR : registry_ok (keccak256 e) (vs w)) (Hb : block_number e ≠ 0).
Abbreviation ok := (sound (keccak256 e) (block_number e) (vs w) (vs w')).

Lemma deactivate_op a idx : deactivate_validator a idx e w = (Ok u, w') → ok.
Proof. intros (v & Hv & Ha & _ & Hd)%(deactivate_run e (keccak256 e)); [|done|done]. by eapply deactivate_sound. Qed.

Lemma taken_Ok a t w1 : address_taken a e w = (Ok t, w1) → w1 = w ∧ (t = false → vacant (addresses (vs w).(validators)) a).
Proof.
  intros H. unfold address_taken, address_index, read_record in H. m_step H. apply rd_Ok in Hrun as [-> ->].
  change (cget vconfig2C w) with (vs w) in H. pose proof (ad_active _ _ (rg_addresses _ _ HR)) as Hact.
  destruct (N.eqb_spec (vs w).(address_to_index).[a] 0) as [E|E].
  - apply ret_Ok in H as [-> ->]. split; [done|]. intros _ i Hi%Hact. lia.
  - m_inv. split; [done|]. intros Hin i Hi. pose proof (Hact _ _ Hi) as Ei. rewrite Ei in Hin.
    replace (N.to_nat (pos i - 1)) with i in Hin by lia. unfold addresses in Hi. rewrite list_lookup_fmap in Hi.
    destruct ((vs w).(validators) !! i) as [v|] eqn:Hv; [|done]. rewrite (nth_lookup_Some _ _ _ _ Hv) in Hin.
    injection Hi as _ Hv'. congruence.
Qed.
Lemma new_address_Ok a u1 w1 : require_new_address a e w = (Ok u1, w1) → w1 = w ∧ vacant (addresses (vs w).(validators)) a.
Proof.
  intros H. unfold require_new_address in H. m_step H. apply require_Ok in Hrun as [_ ->]. m_step H.
  apply taken_Ok in Hrun as [-> Hv]. apply require_Ok in H as [Ht ->]. split; [done|]. by apply Hv, negb_true_iff.
Qed.
Lemma new_pubkey_Ok k u1 w1 : require_new_pubkey k e w = (Ok u1, w1) → w1 = w ∧ (vs w).(pubkey_to_index).[k] = 0.
Proof. intros H. unfold require_new_pubkey, pubkey_index in H. m_inv. bool_simpl. done. Qed.
Lemma unique_ingress_Ok i k w1 :
  require_unique_ingress i e w = (Ok k, w1) →
  w1 = w ∧ key_of (keccak256 e) i = Some k ∧ (vs w).(active_ingress_ips).[k] = false.
Proof.
  intros H. unfold require_unique_ingress, ingress_used in H. m_step H. apply ingress_key_Ok in Hrun as (-> & Hk & _).
  m_inv. bool_simpl. done.
Qed.
Lemma signature_Ok kind k sig a i eg u1 w1 : verify_validator_signature kind k sig a i eg e w = (Ok u1, w1) → w1 = w.
Proof. intros H. unfold verify_validator_signature, length_byte in H. destruct kind; by m_inv. Qed.

Lemma add_op a va k i eg f sig n : add_validator a va k i eg f sig e w = (Ok n, w') → ok.
Proof.
  intros H. unfold add_validator, read_config, require_init, require_owner, mark_ingress in H.
  m_step H. apply rd_Ok in Hrun as [-> ->]. m_step H. apply require_Ok in Hrun as [_ ->].
  m_step H. apply require_Ok in Hrun as [_ ->]. m_step H. apply new_pubkey_Ok in Hrun as [-> Hk].
  m_step H. apply new_address_Ok in Hrun as [-> Hv]. m_step H. apply validate_endpoints_Ok in Hrun as [-> Hen].
  m_step H. apply unique_ingress_Ok in Hrun as (-> & Hik & Hu). m_step H. apply signature_Ok in Hrun as ->.
  m_step H. apply asks_Ok in Hrun as [-> ->]. m_step H. m_step Hrun. subst. m_step H. apply append_run in Hrun as (Hr & Hir & E & _).
  m_inv. cbn [N.eqb] in *. eapply append_sound; [done|..].
  - split; rewrite ?E; try done. cbn. split_and!; [done|by apply Hir|done|]. by eexists.
  - done.
  - by left.
Qed.
Lemma rotate_op a idx k i eg sig : rotate_validator a idx k i eg sig e w = (Ok u, w') → ok.
Proof.
  intros H. unfold rotate_validator, read_config, require_init, validator_count, write_pubkey_index, read_record, write_record in H.
  m_step H. apply get_active_Ok in Hrun as (-> & Hv & Ha). m_step H. apply rd_Ok in Hrun as [-> ->].
  m_step H. apply require_Ok in Hrun as [_ ->]. m_step H. apply owner_or_validator_Ok in Hrun as [-> _].
  m_step H. apply new_pubkey_Ok in Hrun as [-> Hk]. m_step H. apply validate_endpoints_Ok in Hrun as [-> Hen].
  m_step H. apply unique_ingress_Ok in Hrun as (-> & _ & _). m_step H. apply signature_Ok in Hrun as ->.
  m_step H. apply asks_Ok in Hrun as [-> ->]. m_step H. apply tracking_run in Hrun as (m & -> & Hm).
  m_step H. apply rd_Ok in Hrun as [-> ->]. m_step H. apply push_record_run in Hrun as [-> Hr].
  assert (N.to_nat idx < length (vs w).(validators))%nat as Hlt by by eapply lookup_lt_Some.
  m_inv. rewrite app_nth1 in * by done. rewrite (nth_lookup_Some _ _ _ _ Hv) in *.
  eapply rotate_sound; [done|exact Hv|done|done|]. split; w_simpl; try done.
  by replace (pos (N.to_nat idx)) with (idx + 1) by lia.
Qed.

Lemma retracks_same i m : is_Some (Net.parse_socket i) → retracks (keccak256 e) i i m m.
Proof. intros [x Hx]. unfold retracks, key_of. rewrite Hx. do 2 eexists. split_and!; [done..|]. by left. Qed.
Lemma fee_op a idx f : set_fee_recipient a idx f e w = (Ok u, w') → ok.
Proof.
  intros H. unfold set_fee_recipient, read_config, require_init, write_record in H.
  m_step H. apply get_active_Ok in Hrun as (-> & Hv & Ha). m_step H. apply rd_Ok in Hrun as [-> ->].
  m_step H. apply require_Ok in Hrun as [_ ->]. m_step H. apply owner_or_validator_Ok in Hrun as [-> _].
  m_inv. pose proof (rg_endpoints _ _ HR _ _ Hv) as [H1 H2]. eapply edit_sound; [done|exact Hv|done|].
  split; w_simpl; try done; [by left|]. by apply retracks_same.
Qed.
Lemma ip_op a idx i eg : set_ip_addresses a idx i eg e w = (Ok u, w') → ok.
Proof.
  intros H. unfold set_ip_addresses, read_config, require_init, write_record in H.
  m_step H. apply get_active_Ok in Hrun as (-> & Hv & Ha). m_step H. apply rd_Ok in Hrun as [-> ->].
  m_step H. apply require_Ok in Hrun as [_ ->]. m_step H. apply owner_or_validator_Ok in Hrun as [-> _].
  m_step H. apply validate_endpoints_Ok in Hrun as [-> Hen]. m_step H. apply tracking_run in Hrun as (m & -> & Hm).
  m_inv. eapply edit_sound; [done|exact Hv|done|]. split; w_simpl; try done. by left.
Qed.
Lemma transfer_op a idx na : transfer_validator_ownership a idx na e w = (Ok u, w') → ok.
Proof.
  intros H. unfold transfer_validator_ownership, read_config, require_init, write_record, write_address_index in H.
  m_step H. apply get_active_Ok in Hrun as (-> & Hv & Ha). m_step H. apply rd_Ok in Hrun as [-> ->].
  m_step H. apply require_Ok in Hrun as [_ ->]. m_step H. apply owner_or_validator_Ok in Hrun as [-> _].
  m_step H. apply new_address_Ok in Hrun as [-> Hvac]. m_inv. pose proof (rg_endpoints _ _ HR _ _ Hv) as [H1 H2].
  eapply edit_sound; [done|exact Hv|done|]. split; w_simpl; try done.
  - right. split; [done|]. by replace (pos (N.to_nat idx)) with (idx + 1) by lia.
  - by apply retracks_same.
Qed.
Lemma ownership_op a na : transfer_ownership a na e w = (Ok u, w') → ok.
Proof.
  intros H. unfold transfer_ownership, read_config, write_config, require_init, require_owner in H. m_inv.
  apply (config_sound _ _ _ _ HR (Config.set_owner (λ _, na) (vs w).(config)) (vs w).(next_network_identity_rotation_epoch)).
  by destruct (vs w).
Qed.
Lemma epoch_op a n : set_network_identity_rotation_epoch a n e w = (Ok u, w') → ok.
Proof.
  intros H. unfold set_network_identity_rotation_epoch, read_config, require_init, require_owner in H. m_inv.
  apply (config_sound _ _ _ _ HR (vs w).(config) n). by destruct (vs w).
Qed.
End ops.

(** The configuration alone. *)
Definition reconfigures (w w' : World) : Prop := ∃ c, vs w' = set_config (λ _, c) (vs w).
Lemma migration_owner_run a e w c w' :
  require_migration_owner a e w = (Ok c, w') → reconfigures w w' ∧ w_vconfig w' = w_vconfig w.
Proof.
  intros H. unfold require_migration_owner, read_config, require_not_init, write_config, require_owner, ValidatorConfig.validator_count in H.
  m_inv; (split; [|done]); [by eexists|]. exists (vs w).(config). by destruct (vs w).
Qed.
Lemma reconfigure_ok h w w' : reconfigures w w' → registry_ok h (vs w) → registry_ok h (vs w') ∧ views (vs w') = views (vs w).
Proof. intros [c ->] []. by split. Qed.
Lemma skip_run idx v n e w u w' : skip_migration idx v n e w = (Ok u, w') → reconfigures w w'.
Proof. intros H. unfold skip_migration, read_config, write_config in H. m_inv. by eexists. Qed.
Lemma sound_same_views h b s s1 s' : views s1 = views s → sound h b s1 s' → sound h b s s'.
Proof. unfold sound. by intros ->. Qed.
Lemma reconfigure_sound h b w w' : reconfigures w w' → registry_ok h (vs w) → sound h b (vs w) (vs w').
Proof. intros Hc HR. destruct (reconfigure_ok _ _ _ Hc HR) as [HR' E]. split; [done|]. rewrite E. constructor. Qed.

Lemma migrate_op e w w' u a idx :
  registry_ok (keccak256 e) (vs w) → block_number e ≠ 0 → migrate_validator a idx e w = (Ok u, w') →
  sound (keccak256 e) (block_number e) (vs w) (vs w').
Proof.
  intros HR0 Hb H. unfold migrate_validator in H. m_step H. apply migration_owner_run in Hrun as [Hc _].
  destruct (reconfigure_ok _ _ _ Hc HR0) as [HR Ev]. apply (sound_same_views _ _ _ _ _ Ev). clear Hc HR0 Ev. clear w. rename w0 into w.
  m_step H. apply asks_Ok in Hrun as [-> ->]. cbv zeta in H. unfold validator_count in H. m_step H. apply rd_Ok in Hrun as [-> ->].
  m_step H. apply require_Ok in Hrun as [_ ->]. unfold ValidatorConfig.get_validators_array, ValidatorConfig.validator_at in H.
  m_step H. m_step Hrun. apply rd_Ok in Hrun0 as [-> ->]. apply ok_or_Ok in Hrun as [_ ->].
  m_step H. unfold ValidatorConfig.get_validator in Hrun. apply rd_Ok in Hrun as [_ ->].
  m_step H. apply asks_Ok in Hrun as [-> ->].
  destruct (negb _); [by apply reconfigure_sound; [eapply skip_run|]|].
  destruct (Net.parse_socket a3.(V1Validator.outbound_address)) as [sa|] eqn:Esa; [|by apply reconfigure_sound; [eapply skip_run|]].
  unfold pubkey_index in H. m_step H. apply rd_Ok in Hrun as [-> ->].
  change (cget vconfig2C w) with (vs w) in H.
  destruct (N.eqb_spec (vs w).(pubkey_to_index).[a3.(V1Validator.public_key)] 0) as [Hk|];
    cbn [negb] in H; [|by apply reconfigure_sound; [eapply skip_run|]].
  m_step H. apply taken_Ok in Hrun as [-> Hvac]; [|done..]. m_step H. apply require_Ok in Hrun as [Hv%negb_true_iff%Hvac ->].
  m_step H. apply ingress_key_Ok in Hrun as (-> & Hik & Hip). unfold ingress_used in H. m_step H. apply rd_Ok in Hrun as [-> ->].
  change (cget vconfig2C w) with (vs w) in H. destruct (_ && _) eqn:Eu; [by apply reconfigure_sound; [eapply skip_run|]|].
  m_step H. apply append_run in Hrun as (Hr & Hir & E & _). unfold mark_ingress in H.
  assert (is_Some (Net.parse_ip (Net.to_string (Net.ip sa)))) as Hegress.
  { rewrite Net.parse_to_string by by eapply Net.socket_ip_ok. by eexists. }
  destruct a3.(V1Validator.active) eqn:Eact; cbn [andb N.eqb] in *.
  - m_inv. eapply append_sound; [done|..].
    + split; w_simpl; rewrite ?E; try done. cbn. split_and!; [done|by apply Hir|done|]. by eexists.
    + done.
    + by left.
  - rewrite (proj2 (N.eqb_neq _ 0) Hb) in *. m_inv. eapply append_sound; [done|..].
    + split; w_simpl; rewrite ?E; try done. unfold is_active.
      cbn [deactivated_at_height]. by rewrite (proj2 (N.eqb_neq _ 0) Hb).
    + done.
    + by right.
Qed.
Lemma initialize_op e w w' u a :
  registry_ok (keccak256 e) (vs w) → initialize_if_migrated a e w = (Ok u, w') →
  sound (keccak256 e) (block_number e) (vs w) (vs w').
Proof.
  intros HR0 H. unfold initialize_if_migrated in H. m_step H. apply migration_owner_run in Hrun as [Hc _].
  destruct (reconfigure_ok _ _ _ Hc HR0) as [HR Ev]. apply (sound_same_views _ _ _ _ _ Ev).
  unfold validator_count, write_config, ValidatorConfig.get_next_full_dkg_ceremony in H. m_inv. by eapply config_sound.
Qed.

Lemma registry_dispatch_sound e w w' u a o :
  registry_ok (keccak256 e) (vs w) → block_number e ≠ 0 → dispatch a o e w = (Ok u, w') →
  sound (keccak256 e) (block_number e) (vs w) (vs w').
Proof.
  intros HR Hb H. unfold dispatch in H. m_step H. apply asks_Ok in Hrun as [-> ->]. destruct (negb _).
  { apply ret_Ok in H as [_ ->]. split; [done|constructor]. }
  apply mutate_Ok in H as [_ H]. destruct o; cbn [run_op] in H.
  - m_step H. apply ret_Ok in H as [_ ->]. by eapply add_op.
  - by eapply deactivate_op.
  - by eapply rotate_op.
  - by eapply fee_op.
  - by eapply ip_op.
  - by eapply transfer_op.
  - by eapply ownership_op.
  - by eapply epoch_op.
  - by eapply migrate_op.
  - by eapply initialize_op.
Qed.
End ValidatorSpec.
