(* ===== verification/ValidatorHistory.v ===== *)
(** * Validators through time

    What holds of the validator registry in every history of the system. *)

From S2P Require Import Prelude StorageSet Hardfork Address Bytes IpAddr Signature Errors State Monad Nonce.
From S2P Require Import StorageCredits AddressRegistry Tip20Base Keychain KeychainSpec Tip403 Tip20Core Guard Tip20.
From S2P Require Import Dex Reserve Tip20Factory GuardOps FeeAmm FeeManager System Tip20Frame ReserveFrame DexFrame.
From S2P Require Import SystemFrame Tip20Ledger TransferSpec Authority ValidatorConfig ValidatorConfigV2 ValidatorFrame ValidatorInv ValidatorSpec.

Module ValidatorHistory.
Import(hints) KeychainSpec.
Import ValidatorRecord ValidatorConfigV2Storage ValidatorConfigV2 ValidatorInv ValidatorSpec.
Import Token TokenOps Policies Authority.

(** ** Nothing else touches the registries

    Nor the commitments of accounts to configurations. *)

Section frame.
Context (e : Env).
Abbreviation registries := (λ w, (w_vconfig w, w_vconfig2 w, w_account w, w_config_commitment w)).
Abbreviation kept m := (Stable e (keeps registries) m).
Lemma migrate_policies_keeps l n : kept (migrate_loop l n).
Proof.
  revert n. induction l as [|x l IH]; intros n; simpl; [stable_auto|].
  unfold set_token_transfer_policy, delete_legacy_transfer_policy_id. repeat (stable_step || apply IH).
Qed.
Lemma token_admin_keeps tk a o : is_admin_op o = true → kept (dispatch_body tk a o).
Proof.
  intros Ho. destruct o; try discriminate; unfold dispatch_body.
  all: unfold change_transfer_policy_id, set_logo_uri, pause, unpause, set_next_quote_token,
    complete_quote_token_update, grant_role, revoke_role, renounce_role, set_role_admin,
    Policies.set_token_transfer_policy, write_logo_uri, grant_role_internal, revoke_role_internal,
    set_role_admin_internal, check_role.
  all: stable_auto.
Qed.
Lemma token_keeps tk a o : kept (TokenOps.dispatch tk a o).
Proof.
  unfold TokenOps.dispatch. stable_step; [stable_auto|]. intros. stable_step; [stable_auto|]. intros.
  destruct (is_admin_op o) eqn:Ho; [by apply token_admin_keeps|].
  destruct o; try discriminate; unfold dispatch_body.
  all: unfold transfer, transfer_from, transfer_with_memo, transfer_from_with_memo, approve, permit,
    mint, mint_with_role, mint_with_memo, burn, burn_with_memo, _burn, burn_blocked, burn_at,
    distribute_reward, set_reward_recipient, claim_rewards, set_supply_cap, validate_mint, validate_inbound_or_block, check_role.
  all: stable_auto.
Qed.
Lemma policies_keep a o : kept (Policies.dispatch a o).
Proof.
  pose proof migrate_policies_keeps. destruct o; unfold Policies.dispatch.
  all: unfold create_policy, create_policy_with_accounts, add_initial_account, set_policy_admin,
    modify_policy_whitelist, modify_policy_blacklist, create_compound_policy, set_receive_policy,
    migrate_transfer_policy_ids, ensure_is_simple, validate_simple_policy, validate_receive_policy_id,
    allocate_policy_id, set_policy_data, write_policy_set, emit403, read_policy_id_counter, decode_policy_type.
  all: stable_auto.
Qed.
Lemma exec_keeps a s : (∀ o, s ≠ System.ValidatorStep o) → StableOk e (keeps registries) (System.exec a s).
Proof.
  intros Hs. destruct s; unfold System.exec;
    match goal with |- StableOk _ _ (DexOps.dispatch _ _) => idtac | |- StableOk _ _ (Reserve.dispatch _ _) => idtac | _ => apply stable_stable_ok end.
  - stable_step; [stable_auto|]. intros. apply token_keeps.
  - unfold Factory.dispatch, Factory.create_token_with_logo, Factory.create_token,
      TokenOps.initialize, initialize_roles, set_role_admin_internal, grant_default_admin,
      grant_role_internal, write_logo_uri, set_token_transfer_policy. destruct o; stable_auto.
  - unfold GuardOps.dispatch, GuardOps.claim, GuardOps.burn_blocked_receipt, release_blocked_funds,
      burn_blocked, check_role. destruct o; stable_auto.
  - unfold FeeManager.dispatch, FeeManager.set_validator_token, FeeManager.set_user_token,
      FeeManager.distribute_fees, FeeAmm.mint, FeeAmm.burn, FeeAmm.rebalance_swap, FeeAmm.pay_out,
      FeeAmm.pull_in, transfer, system_transfer_from. destruct o; stable_auto.
  - by apply policies_keep.
  - apply dex_dispatch_ok; [apply _|by split|].
    split; intros; apply stable_stable_ok; unfold transfer, system_transfer_from, transfer_from; stable_auto.
  - apply Credits.credits_dispatch; [apply _|done].
  - stable_auto.
  - stable_auto.
  - stable_auto.
  - unfold FeeManager.collect_fee_pre_tx, transfer_fee_pre_tx. stable_auto.
  - unfold FeeManager.collect_fee_post_tx, transfer_fee_post_tx. stable_auto.
  - apply reserve_dispatch_ok; [apply _|by split|].
    split; intros; apply stable_stable_ok; unfold transfer, system_transfer_from, channel_reserve_transfer; stable_auto.
  - apply stable_start_transaction; [apply _|by split].
  - unfold Factory.create_token_reserved_address, TokenOps.initialize, initialize_roles,
      set_role_admin_internal, grant_default_admin, grant_role_internal, set_token_transfer_policy. stable_auto.
  - by destruct (Hs o).
Qed.
End frame.

(** The first version leaves the second alone. *)
Lemma v1_keeps e a o : Stable e (keeps w_vconfig2) (ValidatorConfig.dispatch a o).
Proof.
  destruct o; unfold ValidatorConfig.dispatch; unfold ValidatorConfig.add_validator, ValidatorConfig.update_validator,
    ValidatorConfig.change_validator_status, ValidatorConfig.change_validator_status_by_index,
    ValidatorConfig.change_owner, ValidatorConfig.set_next_full_dkg_ceremony, ValidatorConfig.check_owner,
    ValidatorConfig.validator_exists, ValidatorConfig.get_validator, ValidatorConfig.validate_endpoints,
    ValidatorConfig.validator_count, ValidatorConfig.validator_at, ValidatorConfig.write_validator, vec_push.
  all: stable_auto.
Qed.

(** ** Histories *)

(** One hash function, and blocks after the first. *)
Definition admissible (h : bytes → B256) (x : Env * Address * System.step) : Prop :=
  keccak256 x.1.1 = h ∧ block_number x.1.1 ≠ 0.

Lemma step_sound h e a s w u w' :
  admissible h (e, a, s) → registry_ok h (vs w) → System.exec a s e w = (Ok u, w') →
  sound h (block_number e) (vs w) (vs w').
Proof.
  intros [Hh Hb] HR H. cbn in Hh, Hb. subst h.
  assert ((∃ o, s = System.ValidatorStep o) ∨ ∀ o, s ≠ System.ValidatorStep o) as [[o ->]|Hs].
  { destruct s; eauto; right; congruence. }
  - destruct o; unfold System.exec, Validators.exec in H.
    + unfold ValidatorConfig.initialize, initialize_code in H. m_inv. split; [done|constructor].
    + unfold ValidatorConfigV2.initialize, initialize_code, write_config in H.
      assert (reconfigures w w') as Hc by (m_inv; by eexists). by apply reconfigure_sound.
    + apply v1_keeps in H. unfold keeps in H. rewrite H. split; [done|constructor].
    + by eapply registry_dispatch_sound.
  - apply exec_keeps in H; [|done]. unfold keeps in H. injection H as _ -> _ _. split; [done|constructor].
Qed.

(** An invariant of the records of a history, step by step. *)
Lemma run_sound h (P : list ValidatorRecord.t → Prop) hist w :
  Forall (admissible h) hist →
  (∀ x l l', x ∈ hist → P l → evolves (block_number x.1.1) l l' → P l') →
  registry_ok h (vs w) → P (views (vs w)) →
  registry_ok h (vs (System.run hist w)) ∧ P (views (vs (System.run hist w))).
Proof.
  intros Hall. revert w. induction hist as [|[[e a] s] hist IH]; intros w HP HR Hw; simpl; [done|].
  apply Forall_cons in Hall as [Hx Hall]. assert (∀ x l l', x ∈ hist → P l → evolves (block_number x.1.1) l l' → P l') as HP'.
  { intros x l l' Hin. apply HP. by right. }
  call_cases Hr; [by apply IH|]. destruct (step_sound _ _ _ _ _ _ _ Hx HR Hr) as [HR' He].
  apply IH; [done|done|done|]. eapply (HP (e, a, s)); [by left|exact Hw|exact He].
Qed.
Lemma start_registry h : registry_ok h (vs dflt).
Proof.
  split; try done.
  - intros i k. split; [done|]. intros H. change (0 = pos i) in H. lia.
  - split; [|done]. intros a i H. change (0 = pos i) in H. lia.
Qed.
Lemma run_registry h hist : Forall (admissible h) hist → registry_ok h (vs (System.run hist dflt)).
Proof. intros Hall. by apply (run_sound h (λ _, True) hist dflt Hall); [|apply start_registry|]. Qed.
Lemma run_app hist hist' w : System.run (hist ++ hist') w = System.run hist' (System.run hist w).
Proof. revert w. induction hist as [|[[e a] s] hist IH]; intros w; [done|]. cbn. apply IH. Qed.

(** ** Active validators *)

Definition active_of (l : list ValidatorRecord.t) : list ValidatorRecord.t := filter (λ v, is_active v = true) l.

Lemma read_validators_run e w l : 
  (∀ n, n ∈ l → ∃ i v, n = pos i ∧ (vs w).(validators) !! i = Some v) → N.of_nat (length (vs w).(validators)) < 2 ^ 64 →
  read_validators l e w = (Ok ((λ n, view_of (nth (N.to_nat (n - 1)) (vs w).(validators) dflt)) <$> l), w).
Proof.
  intros Hl Hlen. induction l as [|n l IH]; [done|]. cbn [read_validators].
  destruct (Hl n) as (i & v & -> & Hv); [by left|]. rewrite wrapping_pos by (apply lookup_lt_Some in Hv; lia).
  unfold read_validator_at, read_record, mbind, M_bind. cbn. unfold mbind, M_bind in IH.
  rewrite IH by (intros; apply Hl; by right). cbn. replace (N.to_nat (pos i - 1)) with i by lia. by rewrite Nat2N.id.
Qed.
Section active.
Context (h : bytes → B256) (s : State) (HR : registry_ok h s).

Lemma listed_at j n :
  s.(active_indices) !! j = Some n →
  ∃ i v, n = pos i ∧ s.(validators) !! i = Some v ∧ is_active v = true ∧ v.(active_idx) = pos j.
Proof.
  intros Hj. destruct (ac_listed _ _ (rg_actives _ _ HR) _ _ Hj) as (i & -> & Hi).
  apply list_lookup_fmap_Some in Hi as (v & [= Ha Hx] & Hv). by exists i, v.
Qed.
Lemma listed n : n ∈ s.(active_indices) → ∃ i v, n = pos i ∧ s.(validators) !! i = Some v.
Proof. intros [j Hj]%list_elem_of_lookup. destruct (listed_at _ _ Hj) as (i & v & -> & Hv & _). by exists i, v. Qed.
Lemma listed_once : NoDup s.(active_indices).
Proof.
  apply NoDup_alt. intros j j' n Hj Hj'. destruct (listed_at _ _ Hj) as (i & v & -> & Hv & _ & E).
  destruct (listed_at _ _ Hj') as (i' & v' & Hi & Hv' & _ & E'). replace i' with i in Hv' by lia.
  rewrite Hv in Hv'. injection Hv' as <-. lia.
Qed.
Lemma views_index i v : views s !! i = Some v → v.(index) = N.of_nat i.
Proof. intros (x & -> & Hx)%list_lookup_fmap_Some. exact (rg_index _ _ HR _ _ Hx). Qed.
Lemma views_once : NoDup (views s).
Proof. apply NoDup_alt. intros i j v Hi%views_index Hj%views_index. lia. Qed.
Lemma keys_once : NoDup (public_key <$> views s).
Proof.
  apply NoDup_alt. unfold views. rewrite <- list_fmap_compose. intros i j k Hi Hj.
  assert (∀ i, (public_key ∘ view_of <$> s.(validators)) !! i = keys s.(validators) !! i) as E.
  { intros m. unfold keys. rewrite !list_lookup_fmap. by destruct (_ !! m). }
  rewrite E in Hi, Hj. apply (rg_keys _ _ HR) in Hi, Hj. lia.
Qed.

Lemma active_permutation :
  (λ n, view_of (nth (N.to_nat (n - 1)) s.(validators) dflt)) <$> s.(active_indices) ≡ₚ active_of (views s).
Proof.
  apply NoDup_Permutation.
  - apply NoDup_fmap_2_strong; [|apply listed_once]. intros n n' (i & v & -> & Hv)%listed (i' & v' & -> & Hv')%listed.
    replace (N.to_nat (pos i - 1)) with i by lia. replace (N.to_nat (pos i' - 1)) with i' by lia.
    rewrite (nth_lookup_Some _ _ dflt _ Hv), (nth_lookup_Some _ _ dflt _ Hv'). intros E.
    apply views_at, views_index in Hv, Hv'. rewrite E in Hv. lia.
  - apply NoDup_filter, views_once.
  - intros x. unfold active_of. rewrite list_elem_of_fmap, list_elem_of_filter. split.
    + intros (n & -> & [j Hj]%list_elem_of_lookup). destruct (listed_at _ _ Hj) as (i & v & -> & Hv & Ha & _).
      replace (N.to_nat (pos i - 1)) with i by lia. rewrite (nth_lookup_Some _ _ dflt _ Hv).
      split; [done|]. by eapply list_elem_of_lookup_2, views_at.
    + intros [Ha (i & Hi)%list_elem_of_lookup]. apply list_lookup_fmap_Some in Hi as (v & -> & Hv).
      destruct (ac_active _ _ (rg_actives _ _ HR) i v.(active_idx)) as (j & _ & Hj).
      { unfold actives. rewrite (column_at _ _ _ _ Hv). f_equal. f_equal. exact Ha. }
      exists (pos i). split; [|by eapply list_elem_of_lookup_2].
      replace (N.to_nat (pos i - 1)) with i by lia. by rewrite (nth_lookup_Some _ _ dflt _ Hv).
Qed.
End active.

Lemma active_run h e w :
  registry_ok h (vs w) →
  ∃ out, get_active_validators e w = (Ok out, w) ∧ out ≡ₚ active_of (views (vs w)).
Proof.
  intros HR. eexists. split; [|by eapply active_permutation]. unfold get_active_validators, mbind, M_bind. cbn.
  apply read_validators_run; [by intros n Hn; eapply listed|]. pose proof (rg_room _ _ HR) as Hroom.
  assert (RECORDS_MAX < 2 ^ 64) by done. lia.
Qed.

(** ** Records over time *)

(** A closed record stays as it is. *)
Lemma evolves_closed b l l' i v : evolves b l l' → l !! i = Some v → is_active v = false → l' !! i = Some v.
Proof.
  intros He Hi Hc. assert (∀ j x x', l !! j = Some x → is_active x = true → <[j := x']> l !! i = Some v) as Hins.
  { intros j x x' Hj Hx. rewrite list_lookup_insert_ne; [done|]. intros ->. congruence. }
  destruct He as [|x|j x Hj|j x x' Hj|j x k ing eg Hj]; [done|by apply lookup_app_l_Some|by eapply Hins|by eapply Hins|].
  rewrite list_lookup_insert_ne; [by apply lookup_app_l_Some|]. intros ->. congruence.
Qed.

(** The record was open at the end of the block of height [n], as its heights tell. *)
Definition open_at (n : N) (v : ValidatorRecord.t) : bool :=
  (v.(added_at_height) <=? n) && ((v.(deactivated_at_height) =? 0) || (n <? v.(deactivated_at_height))).
Definition key_at (n : N) (l : list ValidatorRecord.t) (k : B256) : Prop :=
  ∃ i v, l !! i = Some v ∧ open_at n v = true ∧ v.(public_key) = k.

(** Later steps do not change who was open at an earlier height. *)
Lemma key_at_update n (l : list ValidatorRecord.t) i v v' k :
  l !! i = Some v → open_at n v' = open_at n v → v'.(public_key) = v.(public_key) →
  key_at n (<[i := v']> l) k ↔ key_at n l k.
Proof.
  intros Hi Ho Hk. assert (i < length l)%nat by by eapply lookup_lt_Some. split; intros (j & x & Hj & Hx & Hkx).
  - apply list_lookup_insert_Some in Hj as [(-> & <- & _)|[Hne Hj]]; [|by exists j, x].
    exists j, v. split_and!; [done|congruence..].
  - destruct (decide (j = i)) as [->|Hne].
    + rewrite Hi in Hj. injection Hj as <-. exists i, v'. rewrite list_lookup_insert_eq by done. split_and!; [done|congruence..].
    + exists j, x. by rewrite list_lookup_insert_ne.
Qed.
Lemma key_at_append n (l : list ValidatorRecord.t) v k : open_at n v = false → key_at n (l ++ [v]) k ↔ key_at n l k.
Proof.
  intros Ho. split; intros (j & x & Hj & Hx & Hkx).
  - apply lookup_app_Some in Hj as [Hj|[_ Hj]]; [by exists j, x|].
    apply list_lookup_singleton_Some in Hj as [_ <-]. congruence.
  - exists j, x. split_and!; [by apply lookup_app_l_Some|done..].
Qed.
Lemma open_at_later n v : n < v.(added_at_height) → open_at n v = false.
Proof. intros Hn. unfold open_at. by rewrite (proj2 (N.leb_gt _ _) Hn). Qed.
Lemma open_at_closing n b v v' :
  n < b → is_active v = true → v'.(added_at_height) = v.(added_at_height) →
  v'.(deactivated_at_height) = b ∨ v'.(deactivated_at_height) = 0 → open_at n v' = open_at n v.
Proof.
  unfold open_at, is_active. intros Hn Ha -> Hd. apply N.eqb_eq in Ha. rewrite Ha. f_equal. cbn.
  destruct Hd as [->| ->]; [|done]. apply orb_true_iff. right. by apply N.ltb_lt.
Qed.
(** A rotation: the new identity is not yet there, the copy of the old one is. *)
Lemma key_at_rotate n b (l : list ValidatorRecord.t) i v k' ing eg k :
  n < b → l !! i = Some v → is_active v = true →
  key_at n (<[i := rotated b k' ing eg v]> (l ++ [snapshot b (length l) v])) k ↔ key_at n l k.
Proof.
  intros Hn Hi Ha. assert (i < length l)%nat as Hlt by by eapply lookup_lt_Some.
  assert (open_at n (snapshot b (length l) v) = open_at n v) as Hs by (eapply open_at_closing; [done..|by left]).
  assert (open_at n (rotated b k' ing eg v) = false) as Hr by by apply open_at_later.
  split; intros (j & x & Hj & Hx & Hkx).
  - apply list_lookup_insert_Some in Hj as [(-> & <- & _)|[Hne Hj]]; [congruence|].
    apply lookup_app_Some in Hj as [Hj|[_ Hj]]; [by exists j, x|].
    apply list_lookup_singleton_Some in Hj as [_ <-]. exists i, v. split_and!; [done|congruence|done].
  - destruct (decide (j = i)) as [->|Hne].
    + rewrite Hi in Hj. injection Hj as <-. exists (length l), (snapshot b (length l) v).
      rewrite list_lookup_insert_ne, lookup_app_r, Nat.sub_diag by lia. split_and!; [done|congruence|done].
    + exists j, x. rewrite list_lookup_insert_ne by done. split_and!; [by apply lookup_app_l_Some|done..].
Qed.
Lemma evolves_key_at n b l l' k : n < b → evolves b l l' → key_at n l' k ↔ key_at n l k.
Proof.
  intros Hn [|v Hadd _|i v Hi Ha|i v v' Hi Ha Hk _ Hadd Hd|i v k' ing eg Hi Ha]; [done|..].
  - apply key_at_append, open_at_later. lia.
  - apply key_at_update with v; [done| |done]. eapply open_at_closing; [done..|by left].
  - apply key_at_update with v; [done| |done]. eapply open_at_closing; [done..|by right].
  - by apply key_at_rotate.
Qed.

(** No record is from the future. *)
Definition past (n : N) (l : list ValidatorRecord.t) : Prop :=
  Forall (λ v, v.(added_at_height) ≤ n ∧ v.(deactivated_at_height) ≤ n) l.
Lemma evolves_past n b l l' : b ≤ n → past n l → evolves b l l' → past n l'.
Proof.
  intros Hb Hl He. assert (∀ i v, l !! i = Some v → v.(added_at_height) ≤ n) as Hold.
  { intros i v Hi. by apply (Forall_lookup_1 _ _ _ _ Hl) in Hi as [? _]. }
  destruct He as [|v Hadd Hact|i v Hi Ha|i v v' Hi Ha _ _ Hadd Hd|i v k ing eg Hi Ha]; [done|..]; unfold past.
  - apply Forall_app. split; [done|]. apply Forall_singleton. destruct Hact as [Ha|Hd]; [apply N.eqb_eq in Ha|]; lia.
  - apply Forall_insert; [done|]. cbn. split; [by eapply Hold|done].
  - apply Forall_insert; [done|]. rewrite Hadd, Hd. split; [by eapply Hold|lia].
  - apply N.eqb_eq in Ha. apply Forall_insert; [|cbn; rewrite Ha; lia]. apply Forall_app. split; [done|].
    apply Forall_singleton. cbn. split; [by eapply Hold|done].
Qed.

Lemma key_at_elem n l k : k ∈ public_key <$> filter (λ v, open_at n v = true) l ↔ key_at n l k.
Proof.
  unfold key_at. rewrite list_elem_of_fmap. setoid_rewrite list_elem_of_filter. setoid_rewrite list_elem_of_lookup. naive_solver.
Qed.
(** Of the past, the open records are the active ones. *)
Lemma open_now n l : past n l → filter (λ v, open_at n v = true) l = active_of l.
Proof.
  unfold active_of. induction 1 as [|v l [Ha Hd] _ IH]; [done|]. rewrite !filter_cons, IH.
  assert (open_at n v = is_active v) as ->; [|done]. unfold open_at, is_active.
  by rewrite (proj2 (N.leb_le _ _) Ha), (proj2 (N.ltb_ge _ _) Hd), orb_false_r.
Qed.

(** A history of the registry: two validators join, one rotates its identity, the other
    leaves. *)
Definition at_height (n : N) : Env := {|
  spec := T2; timestamp := n; block_number := n; chain_id := 4217; beneficiary := 0xBE;
  is_static := false; keccak256 := example_hash;
  ecrecover := λ _ _ _ _, None; crypto := Signatures.example_crypto;
  eth_precompiles := λ _ _, false; create2 := λ _ _ _, 0; configurable_account_recovery_factory := None
|}.
Definition registry_call (n : N) (a : Address) (o : Validators.op) : Env * Address * System.step :=
  (at_height n, a, System.ValidatorStep o).
Definition joins : list (Env * Address * System.step) :=
  [registry_call 1 0 (Validators.GenesisV2 1);
   registry_call 1 1 (Validators.CallV2 (AddValidator 10 100 "1.2.3.4:80" "1.2.3.4" 0 (repeat 0 64)));
   registry_call 2 1 (Validators.CallV2 (AddValidator 11 101 "[::1]:80" "::1" 0 (repeat 0 64)))].
Definition leaves : list (Env * Address * System.step) :=
  [registry_call 3 10 (Validators.CallV2 (RotateValidator 0 102 "1.2.3.5:80" "1.2.3.5" (repeat 0 64)));
   registry_call 4 11 (Validators.CallV2 (DeactivateValidator 1))].

(** ** Claims *)

(** C10: the validator set the chain reads is exactly the set of open records. After any
    history of calls to any of the precompiles, [get_active_validators] succeeds, leaves
    the state alone and returns each record that has no deactivation height exactly
    once, and no other record; it never reads a record that is not there. *)
Theorem active_validators_complete h hist e :
  Forall (admissible h) hist →
  let w := System.run hist dflt in
  ∃ out, get_active_validators e w = (Ok out, w) ∧ out ≡ₚ active_of (views (vs w)) ∧ NoDup (public_key <$> out).
Proof.
  intros Hall w. pose proof (run_registry _ _ Hall) as HR. destruct (active_run _ e _ HR) as (out & Hr & Hp).
  exists out. split_and!; [done|done|]. rewrite Hp. eapply sublist_NoDup; [by eapply keys_once|].
  apply fmap_sublist, sublist_filter.
Qed.

Lemma active_validators_complete_witness :
  let w := System.run (joins ++ leaves) dflt in
  ∃ out, get_active_validators (at_height 5) w = (Ok out, w) ∧ out ≡ₚ active_of (views (vs w)) ∧ NoDup (public_key <$> out).
Proof. refine (active_validators_complete example_hash (joins ++ leaves) (at_height 5) _). repeat constructor; done. Defined.

(** C26: the registry is append-only. Once a record is closed, by a deactivation or by a
    rotation of its validator's identity, no later step of any history changes it, and
    its public key stays bound to it, so that the key can never be registered again. *)
Theorem deactivated_forever h hist hist' i v :
  Forall (admissible h) (hist ++ hist') →
  views (vs (System.run hist dflt)) !! i = Some v → is_active v = false →
  let w := System.run (hist ++ hist') dflt in
  views (vs w) !! i = Some v ∧ (vs w).(pubkey_to_index).[v.(public_key)] = pos i.
Proof.
  intros [Hall Hall']%Forall_app Hi Hc w. unfold w. rewrite run_app. pose proof (run_registry _ _ Hall) as HR.
  destruct (run_sound h (λ l, l !! i = Some v) hist' (System.run hist dflt) Hall') as [HR' Hv]; [|done|done|].
  { intros x l l' _ Hl He. by eapply evolves_closed. }
  split; [done|]. apply (rg_keys _ _ HR'). apply list_lookup_fmap_Some in Hv as (y & -> & Hy).
  exact (column_at public_key _ _ _ Hy).
Qed.
Lemma deactivated_forever_witness :
  let w := System.run ((joins ++ leaves) ++ joins) dflt in
  views (vs w) !! 1%nat = Some (ValidatorRecord.mk 101 11 "[::1]:80" "::1" 0 1 0 2 4) ∧ (vs w).(pubkey_to_index).[101] = pos 1.
Proof.
  refine (deactivated_forever example_hash (joins ++ leaves) joins 1%nat (ValidatorRecord.mk 101 11 "[::1]:80" "::1" 0 1 0 2 4) _ _ _).
  - repeat constructor; done.
  - by vm_compute.
  - done.
Defined.

(** C9: past validator sets can be read from the present records. The keys of the
    records that were added at or before height [n] and not deactivated at or before it
    are exactly the keys [get_active_validators] returned after the last call of block
    [n], whatever happened in later blocks. *)
Theorem validators_at_height h hist hist' n e :
  Forall (admissible h) (hist ++ hist') →
  Forall (λ x, block_number x.1.1 ≤ n) hist → Forall (λ x, n < block_number x.1.1) hist' →
  ∃ out w, get_active_validators e (System.run hist dflt) = (Ok out, w) ∧
    public_key <$> filter (λ v, open_at n v = true) (views (vs (System.run (hist ++ hist') dflt))) ≡ₚ public_key <$> out.
Proof.
  intros [Hall Hall']%Forall_app Hle Hgt. pose proof (run_registry _ _ Hall) as HR.
  destruct (active_run _ e _ HR) as (out & Hout & Hp). exists out, (System.run hist dflt). split; [done|]. rewrite Hp, run_app.
  set (l := views (vs (System.run hist dflt))).
  destruct (run_sound h (past n) hist dflt Hall) as [_ Hpast]; [|apply start_registry|by apply Forall_nil|].
  { intros x l1 l2 Hx Hl He. eapply evolves_past; [|done|done]. by eapply (proj1 (Forall_forall _ _) Hle). }
  destruct (run_sound h (λ l', ∀ k, key_at n l' k ↔ key_at n l k) hist' (System.run hist dflt) Hall') as [HR' Hkeys]; [|done|done|].
  { intros x l1 l2 Hx Hl He k. rewrite <- Hl. eapply evolves_key_at; [|done]. by eapply (proj1 (Forall_forall _ _) Hgt). }
  apply NoDup_Permutation.
  - eapply sublist_NoDup; [exact (keys_once _ _ HR')|]. apply fmap_sublist, sublist_filter.
  - eapply sublist_NoDup; [exact (keys_once _ _ HR)|]. apply fmap_sublist, sublist_filter.
  - intros k. transitivity (key_at n l k); [rewrite key_at_elem; apply Hkeys|].
    rewrite <- key_at_elem, open_now; done.
Qed.
Lemma validators_at_height_witness :
  ∃ out w, get_active_validators (at_height 2) (System.run joins dflt) = (Ok out, w) ∧
    public_key <$> filter (λ v, open_at 2 v = true) (views (vs (System.run (joins ++ leaves) dflt))) ≡ₚ public_key <$> out.
Proof.
  refine (validators_at_height example_hash joins leaves 2 (at_height 2) _ _ _); repeat constructor; done.
Defined.
End ValidatorHistory.
