(* ===== verification/ValidatorKeys.v ===== *)
(** * Identities of validators

    How a public key enters the validator registry: with a signature of its own over
    the address, the endpoints and the fee recipient it is registered with, or from the
    first version of the registry. Also the one way the signature check does not
    return. *)

From S2P Require Import Prelude StorageSet Hardfork Address Bytes IpAddr Signature Errors State Monad.
From S2P Require Import ValidatorConfig ValidatorConfigV2 ValidatorFrame System ValidatorInv ValidatorSpec ValidatorHistory.

Module ValidatorKeys.
Import ValidatorRecord ValidatorConfigV2Storage ValidatorConfigV2 ValidatorInv ValidatorSpec ValidatorHistory.

(** ** Signatures *)

Definition namespace_of (kind : SignatureKind) : bytes :=
  match kind with Add _ => VALIDATOR_NS_ADD | Rotate => VALIDATOR_NS_ROTATE end.
(** What a validator signs: chain, contract, address, endpoints with their lengths and,
    to join, the fee recipient. *)
Definition binding (chain : N) (kind : SignatureKind) (a : Address) (ing eg : string) : bytes :=
  be_bytes 8 chain ++ address_bytes self ++ address_bytes a ++
  [N.of_nat (length (string_bytes ing))] ++ string_bytes ing ++
  [N.of_nat (length (string_bytes eg))] ++ string_bytes eg ++
  match kind with Add f => address_bytes f | Rotate => [] end.
Definition signed_by (e : Env) (kind : SignatureKind) (k : B256) (a : Address) (ing eg : string) (sig : bytes) : Prop :=
  ed25519_verify (crypto e) k (namespace_of kind)
    (word_bytes (keccak256 e (binding (chain_id e) kind a ing eg))) sig = true.

Lemma signature_signed kind k sig a ing eg e w u w' :
  verify_validator_signature kind k sig a ing eg e w = (Ok u, w') → w' = w ∧ signed_by e kind k a ing eg sig.
Proof.
  unfold signed_by, binding, namespace_of. intros H. unfold verify_validator_signature, length_byte in H.
  destruct kind; m_inv; done.
Qed.

(** ** New keys *)

Abbreviation registered w k := ((vs w).(pubkey_to_index).[k] ≠ 0).

(** The call [x] brings in the key [k] by right. *)
Definition introduces (w : World) (x : Env * Address * System.step) (k : B256) : Prop :=
  let '(e, a, s) := x in
  match s with
  | System.ValidatorStep (Validators.CallV2 (AddValidator va k' ing eg f sig)) =>
      k' = k ∧ a = (vs w).(config).(Config.owner) ∧ signed_by e (Add f) k va ing eg sig
  | System.ValidatorStep (Validators.CallV2 (RotateValidator idx k' ing eg sig)) =>
      k' = k ∧ ∃ v, (vs w).(validators) !! N.to_nat idx = Some v ∧ is_active v = true ∧
        (a = v.(validator_address) ∨ a = (vs w).(config).(Config.owner)) ∧
        signed_by e Rotate k v.(validator_address) ing eg sig
  | System.ValidatorStep (Validators.CallV2 (MigrateValidator idx)) =>
      (vs w).(config).(Config.is_init) = false ∧
      ∃ va, (w_vconfig w).(ValidatorConfigStorage.validators_array) !! N.to_nat idx = Some va ∧
        k = (w_vconfig w).(ValidatorConfigStorage.validators).[va].(V1Validator.public_key)
  | _ => False
  end.

Lemma migration_open a e w c w' : require_migration_owner a e w = (Ok c, w') → (vs w).(config).(Config.is_init) = false.
Proof.
  intros H. unfold require_migration_owner, read_config, require_not_init in H. m_step H. apply rd_Ok in Hrun as [-> ->].
  m_step H. apply require_Ok in Hrun as [Hi ->]. by apply negb_true_iff.
Qed.
Lemma address_taken_same a e w t w' : address_taken a e w = (Ok t, w') → w' = w.
Proof. intros H. unfold address_taken, address_index, read_record in H. m_inv; done. Qed.

Section steps.
Context (e : Env) (w w' : World) (k : B256) (HR : registry_ok (keccak256 e) (vs w)) (Hb : block_number e ≠ 0).

Lemma add_keys a va k' ing eg f sig n :
  add_validator a va k' ing eg f sig e w = (Ok n, w') → registered w' k →
  registered w k ∨ (k' = k ∧ a = (vs w).(config).(Config.owner) ∧ signed_by e (Add f) k va ing eg sig).
Proof.
  intros H Hk. unfold add_validator, read_config, require_init, require_owner, is_owner, mark_ingress in H.
  m_step H. apply rd_Ok in Hrun as [-> ->]. m_step H. apply require_Ok in Hrun as [_ ->].
  m_step H. apply require_Ok in Hrun as [Ho ->]. m_step H. apply new_pubkey_Ok in Hrun as [-> _].
  m_step H. apply (new_address_Ok _ _ HR Hb) in Hrun as [-> _]. m_step H. apply validate_endpoints_Ok in Hrun as [-> _].
  m_step H. apply unique_ingress_Ok in Hrun as (-> & _ & _). m_step H. apply signature_signed in Hrun as [-> Hs].
  m_step H. apply asks_Ok in Hrun as [-> ->]. m_step H. m_step Hrun. subst. m_step H. apply append_run in Hrun as (_ & _ & E & _).
  m_inv. apply N.eqb_eq in Ho. rewrite E in Hk. cbn [pubkey_to_index] in Hk. rewrite sread_insert in Hk.
  case_decide as Hd; [subst k'; by right|by left].
Qed.
Lemma rotate_keys a idx k' ing eg sig u :
  rotate_validator a idx k' ing eg sig e w = (Ok u, w') → registered w' k →
  registered w k ∨ (k' = k ∧ ∃ v, (vs w).(validators) !! N.to_nat idx = Some v ∧ is_active v = true ∧
    (a = v.(validator_address) ∨ a = (vs w).(config).(Config.owner)) ∧
    signed_by e Rotate k v.(validator_address) ing eg sig).
Proof.
  intros H Hk. unfold rotate_validator, read_config, require_init, validator_count, write_pubkey_index, read_record, write_record in H.
  m_step H. apply get_active_Ok in Hrun as (-> & Hv & Ha). m_step H. apply rd_Ok in Hrun as [-> ->].
  m_step H. apply require_Ok in Hrun as [_ ->]. m_step H. apply owner_or_validator_Ok in Hrun as [-> Ho].
  m_step H. apply new_pubkey_Ok in Hrun as [-> _]. m_step H. apply validate_endpoints_Ok in Hrun as [-> _].
  m_step H. apply unique_ingress_Ok in Hrun as (-> & _ & _). m_step H. apply signature_signed in Hrun as [-> Hs].
  m_step H. apply asks_Ok in Hrun as [-> ->]. m_step H. apply tracking_run in Hrun as (m & -> & _).
  m_step H. apply rd_Ok in Hrun as [-> ->]. m_step H. apply push_record_run in Hrun as [-> _].
  m_inv. cbn in Hk. rewrite !sread_insert in Hk. destruct (decide (k' = k)) as [->|]; [right; naive_solver|].
  destruct (decide (a0.(public_key) = k)) as [<-|]; [|by left].
  left. assert (keys (vs w).(validators) !! N.to_nat idx = Some a0.(public_key)) as Hi by exact (column_at public_key _ _ _ Hv).
  apply (rg_keys _ _ HR) in Hi. lia.
Qed.
Lemma migrate_keys a idx u :
  migrate_validator a idx e w = (Ok u, w') → registered w' k →
  registered w k ∨ ((vs w).(config).(Config.is_init) = false ∧
    ∃ va, (w_vconfig w).(ValidatorConfigStorage.validators_array) !! N.to_nat idx = Some va ∧
      k = (w_vconfig w).(ValidatorConfigStorage.validators).[va].(V1Validator.public_key)).
Proof.
  intros H Hk. unfold migrate_validator in H. m_step H. pose proof Hrun as Hi%migration_open. apply migration_owner_run in Hrun as [[c Hc] Hv1].
  m_step H. apply asks_Ok in Hrun as [-> ->]. cbv zeta in H. unfold validator_count in H. m_step H. apply rd_Ok in Hrun as [-> ->].
  m_step H. apply require_Ok in Hrun as [_ ->]. unfold ValidatorConfig.get_validators_array, ValidatorConfig.validator_at in H.
  m_step H. m_step Hrun. apply rd_Ok in Hrun0 as [-> ->]. apply ok_or_Ok in Hrun as [Hva ->].
  m_step H. unfold ValidatorConfig.get_validator in Hrun. apply rd_Ok in Hrun as [Ea3 ->].
  m_step H. apply asks_Ok in Hrun as [-> ->]. cbn [cget vconfigC] in Hva, Ea3. rewrite Hv1 in Hva, Ea3.
  assert (∀ w1 u1 n, skip_migration idx a3 n e w0 = (Ok u1, w1) → registered w1 k → registered w k) as Hskip.
  { intros w1 u1 n [c' E]%skip_run. by rewrite E, Hc. }
  destruct (negb _); [left; by eapply Hskip|].
  destruct (Net.parse_socket a3.(V1Validator.outbound_address)) as [sa|]; [|left; by eapply Hskip].
  unfold pubkey_index in H. m_step H. apply rd_Ok in Hrun as [-> ->]. destruct (negb _); [left; by eapply Hskip|].
  m_step H. apply address_taken_same in Hrun as ->. m_step H. apply require_Ok in Hrun as [_ ->].
  m_step H. apply ingress_key_Ok in Hrun as (-> & _ & _). unfold ingress_used in H. m_step H. apply rd_Ok in Hrun as [-> ->].
  destruct (_ && _); [left; by eapply Hskip|].
  m_step H. apply append_run in Hrun as (_ & _ & E & _). unfold mark_ingress in H.
  assert (registered w0 k ∨ k = a3.(V1Validator.public_key)) as [Hk'|Hk'].
  { assert ((vs w').(pubkey_to_index) = (vs w1).(pubkey_to_index)) as Ep by (destruct a3.(V1Validator.active); by m_inv).
    rewrite Ep, E in Hk. cbn [pubkey_to_index] in Hk. rewrite sread_insert in Hk. case_decide; [by right|by left]. }
  - left. by rewrite Hc in Hk'.
  - right. split; [done|]. exists a2. subst a3. done.
Qed.
End steps.

(** Whatever else is called, the table of keys is left alone. *)
Lemma rest_keys e a o :
  match o with AddValidator _ _ _ _ _ _ | RotateValidator _ _ _ _ _ | MigrateValidator _ => True
  | _ => Stable e (keeps (λ w, (vs w).(pubkey_to_index))) (run_op a o) end.
Proof.
  destruct o; try exact I; unfold run_op; unfold deactivate_validator, set_fee_recipient, set_ip_addresses,
    transfer_validator_ownership, transfer_ownership, set_network_identity_rotation_epoch, initialize_if_migrated,
    require_migration_owner, require_not_init, require_new_address, address_taken, read_config, write_config, require_init, require_owner, require_owner_or_validator,
    validate_endpoints, update_ingress_ip_tracking, ingress_key, ingress_used, mark_ingress, free_ingress, get_active_validator, update_record, read_record,
    write_record, write_address_index, validator_count, address_index,
    ValidatorConfig.validator_count, ValidatorConfig.get_next_full_dkg_ceremony.
  all: stable_auto.
Qed.

Lemma other_keys e a s w u w' :
  (∀ o, s ≠ System.ValidatorStep (Validators.CallV2 o)) → System.exec a s e w = (Ok u, w') →
  (vs w').(pubkey_to_index) = (vs w).(pubkey_to_index).
Proof.
  intros Hs H. assert ((∃ o, s = System.ValidatorStep o) ∨ ∀ o, s ≠ System.ValidatorStep o) as [[o ->]|Ho].
  { destruct s; eauto; right; congruence. }
  - destruct o; unfold System.exec, Validators.exec in H; [| | |by destruct (Hs o)].
    + unfold ValidatorConfig.initialize, initialize_code in H. by m_inv.
    + unfold ValidatorConfigV2.initialize, initialize_code, write_config in H. by m_inv.
    + apply v1_keeps in H. unfold keeps in H. by rewrite H.
  - apply exec_keeps in H; [|done]. unfold keeps in H. by injection H as _ -> _ _.
Qed.
Lemma step_keys h e a s w u w' k :
  admissible h (e, a, s) → registry_ok h (vs w) → System.exec a s e w = (Ok u, w') →
  registered w' k → registered w k ∨ introduces w (e, a, s) k.
Proof.
  intros [Hh Hb] HR H Hk. cbn in Hh, Hb. subst h.
  assert ((∃ o, s = System.ValidatorStep (Validators.CallV2 o)) ∨ (∀ o, s ≠ System.ValidatorStep (Validators.CallV2 o)))
    as [[o ->]|Hs] by (destruct s; try (right; intros; congruence); destruct o; eauto; right; intros; congruence).
  - cbn [System.exec Validators.exec] in H. unfold dispatch in H. m_step H. apply asks_Ok in Hrun as [-> ->]. destruct (negb _).
    { apply ret_Ok in H as [_ ->]. by left. }
    apply mutate_Ok in H as [_ H]. pose proof (rest_keys e a o) as Hrest. unfold introduces. destruct o; cbn [run_op] in *.
    all: try (left; apply Hrest in H; unfold keeps in H; by rewrite H in Hk).
    + m_step H. apply ret_Ok in H as [_ ->]. by eapply add_keys.
    + by eapply rotate_keys.
    + by eapply migrate_keys.
  - left. by rewrite (other_keys _ _ _ _ _ _ Hs H) in Hk.
Qed.

(** The first step after which a key is registered introduces it. *)
Lemma run_keys h hist w k :
  Forall (admissible h) hist → registry_ok h (vs w) → registered (System.run hist w) k → registered w k ∨
  ∃ hist1 x hist2, hist = hist1 ++ x :: hist2 ∧ introduces (System.run hist1 w) x k.
Proof.
  intros Hall. revert w. induction hist as [|[[e a] s] hist IH]; intros w HR Hk; simpl in Hk; [by left|].
  apply Forall_cons in Hall as [Hx Hall]. set (w1 := (call (System.exec a s) e w).2) in Hk.
  assert (registry_ok h (vs w1) ∧ (registered w1 k → registered w k ∨ introduces w (e, a, s) k)) as [HR1 Hk1].
  { subst w1. clear Hk. call_cases Hr; [by eauto|]. split; [by eapply step_sound|by eapply step_keys]. }
  destruct (IH Hall w1 HR1 Hk) as [Hreg|(hist1 & x & hist2 & -> & Hin)].
  - destruct (Hk1 Hreg) as [Hw|Hw]; [by left|]. right. by exists [], (e, a, s), hist.
  - right. by exists ((e, a, s) :: hist1), x, hist2.
Qed.

(** C6: nobody becomes a validator under a key they do not hold. Every public key in the
    registry, of an active or a former validator, came in by a call of the history that
    was entitled to bring it in: the owner added it with a signature by that very key
    over the chain, the validator's address, its endpoints and its fee recipient; or the
    validator or the owner rotated to it with such a signature under the namespace of
    rotations; or it was migrated from the first version before the registry was
    initialized. *)
Theorem keys_are_proved h hist i v :
  Forall (admissible h) hist → views (vs (System.run hist dflt)) !! i = Some v →
  ∃ hist1 x hist2, hist = hist1 ++ x :: hist2 ∧ introduces (System.run hist1 dflt) x v.(public_key).
Proof.
  intros Hall Hv. assert (registered (System.run hist dflt) v.(public_key)) as Hk.
  { apply list_lookup_fmap_Some in Hv as (y & -> & Hy). cbn [view_of set_active_idx public_key].
    assert (keys (vs (System.run hist dflt)).(validators) !! i = Some y.(public_key)) as Hi by exact (column_at public_key _ _ _ Hy).
    apply (rg_keys _ _ (run_registry _ _ Hall)) in Hi. lia. }
  destruct (run_keys h hist dflt _ Hall (start_registry h) Hk) as [Hd|Hd]; [by destruct Hd|done].
Qed.
Lemma keys_are_proved_witness :
  ∃ hist1 x hist2, joins ++ leaves = hist1 ++ x :: hist2 ∧
    introduces (System.run hist1 dflt) x (ValidatorRecord.mk 102 10 "1.2.3.5:80" "1.2.3.5" 0 0 0 3 0).(public_key).
Proof.
  refine (keys_are_proved example_hash (joins ++ leaves) 0%nat (ValidatorRecord.mk 102 10 "1.2.3.5:80" "1.2.3.5" 0 0 0 3 0) _ _).
  - repeat constructor; done.
  - by vm_compute.
Defined.

(** ** Lengths *)

Lemma get_active_returns idx v e w :
  (vs w).(validators) !! N.to_nat idx = Some v → is_active v = true →
  returns (get_active_validator idx) e w (λ v' w', w' = w ∧ v' = v).
Proof.
  intros Hv Ha. pose proof (nth_lookup_Some _ _ dflt _ Hv) as Hn. apply lookup_lt_Some in Hv.
  unfold get_active_validator, validator_count, read_record. repeat ret_step.
  - apply negb_true_iff, N.leb_gt. cbn. lia.
  - change (cget vconfig2C w) with (vs w). by rewrite Hn.
  - by rewrite <- Hn.
Qed.

Lemma unique_returns ing e w :
  ensure_address_is_ip_port ing = true →
  (∀ key, key_of (keccak256 e) ing = Some key → (vs w).(active_ingress_ips).[key] = false) →
  returns (require_unique_ingress ing) e w (λ _ w', w' = w).
Proof.
  unfold ensure_address_is_ip_port, key_of. intros [a Ha]%bool_decide_eq_true Hfree. rewrite Ha in Hfree.
  unfold require_unique_ingress, ingress_key, ingress_used. repeat ret_step; [done| |done].
  apply negb_true_iff. by apply Hfree.
Qed.

(** C33: the length of an ingress endpoint is not bounded before it is packed into a byte.
    A validator that rotates, with everything else in order, to an endpoint whose text
    is longer than 255 bytes, as an endpoint with leading zeros in its port can be, does
    not get an error of the contract: the conversion of the length panics. No egress
    address that passes the check of its form does that. *)
Theorem overlong_ingress_panics e w idx v k ing eg sig :
  is_t2 (spec e) = true → is_static e = false → (vs w).(config).(Config.is_init) = true →
  (vs w).(validators) !! N.to_nat idx = Some v → is_active v = true →
  k ≠ 0 → (vs w).(pubkey_to_index).[k] = 0 →
  ensure_address_is_ip_port ing = true → ensure_address_is_ip eg = true →
  (∀ key, key_of (keccak256 e) ing = Some key → (vs w).(active_ingress_ips).[key] = false) →
  ed25519_signature_ok (crypto e) sig = true →
  (255 < length (string_bytes ing))%nat →
  dispatch v.(validator_address) (RotateValidator idx k ing eg sig) e w =
    (Err (Fatal "validator ingress length must fit in uint8"), w) ∧
  length_byte eg "validator egress length must fit in uint8" e w = (Ok [N.of_nat (length (string_bytes eg))], w).
Proof.
  intros H2 Hs Hi Hv Ha Hk Hnew Hing Heg Hfree Hsig Hlen. split.
  - apply rejects_after. ret_step. split; [done|]. rewrite H2. cbn [negb]. apply rejects_mutate; [done|]. cbn [run_op].
    apply rejects_after. eapply returns_mono; [by apply get_active_returns|]. intros ? ? _ [-> ->]. split; [done|].
    unfold read_config, require_init, require_owner_or_validator, require_new_pubkey, validate_endpoints, pubkey_index.
    apply rejects_after. ret_step. split; [done|].
    apply rejects_after. ret_step; [done|]. split; [done|]. apply rejects_after. ret_step; [by rewrite N.eqb_refl|]. split; [done|].
    apply rejects_after. repeat ret_step; [by apply negb_true_iff, N.eqb_neq|by apply N.eqb_eq|]. split; [done|].
    apply rejects_after. repeat ret_step; [done..|]. split; [done|].
    apply rejects_after. eapply returns_mono; [by apply unique_returns|]. intros ? ? _ ->. split; [done|].
    apply rejects_here. unfold verify_validator_signature, length_byte. 
    apply rejects_after. ret_step. split; [done|]. apply rejects_after. ret_step; [done|]. split; [done|].
    apply rejects_after. ret_step. split; [done|]. do 2 apply rejects_here. apply rejects_require, N.leb_gt. lia.
  - unfold ensure_address_is_ip in Heg. apply bool_decide_eq_true in Heg as [ip Hip]. apply Net.ip_text_length in Hip.
    unfold length_byte. unfold mbind, M_bind, require. rewrite (proj2 (N.leb_le _ _)) by lia. done.
Qed.
(** An endpoint with three hundred zeros in its port. *)
Definition padded_ingress : string := "1.2.3.6:" ++ Nat.iter 300 (String "0") "80".
Lemma overlong_ingress_panics_witness :
  dispatch 10 (RotateValidator 0 103 padded_ingress "1.2.3.6" (repeat 0 64)) (at_height 3) (System.run joins dflt) =
    (Err (Fatal "validator ingress length must fit in uint8"), System.run joins dflt) ∧
  length_byte "1.2.3.6" "validator egress length must fit in uint8" (at_height 3) (System.run joins dflt) =
    (Ok [N.of_nat (length (string_bytes "1.2.3.6"))], System.run joins dflt).
Proof.
  refine (overlong_ingress_panics (at_height 3) (System.run joins dflt) 0
    (ValidatorRecord.mk 100 10 "1.2.3.4:80" "1.2.3.4" 0 0 1 1 0) 103 padded_ingress "1.2.3.6" (repeat 0 64)
    _ _ _ _ _ _ _ _ _ _ _ _).
  1-9: by vm_compute.
  - intros key Hkey. vm_compute in Hkey. injection Hkey as <-. by vm_compute.
  - by vm_compute.
  - apply Nat.ltb_lt. by vm_compute.
Defined.
End ValidatorKeys.
