(* ===== verification/ConfigurableAccount.v ===== *)
(** * Configurable accounts

    [configurable_account/mod.rs]: an account commits to a configuration of owners, by
    migrating an account that has a key so far, and replaces the configuration by the
    next version with the approval of its owners. The handler puts what the transaction
    may do into transient storage. Commitments are written through the storage provider;
    the definition here is that of [storage/hashmap.rs], the one that stores them. The
    precompile is not routed yet, so its steps stand next to those of [System.v].

    The theorem follows the commitment of an account through the histories of both. *)

From S2P Require Import Prelude Hardfork Address Bytes Signature AccountConfig Errors State Monad Nonce.
From S2P Require Import StorageCredits AddressRegistry Tip20Base Keychain KeychainSpec Tip403 Tip20Core Guard Tip20.
From S2P Require Import Dex Reserve Tip20Factory GuardOps FeeAmm FeeManager System ValidatorFrame ValidatorHistory.

Module ConfigurableAccount.
Import ConfigurableAccountOwner ConfigurableAccountConfig ConfigurableAccountStorage.
Import ConfigurableAccountError ConfigurableAccountEvent AccountConfig.

Definition config_error (x : CE.t) : TempoPrecompileError :=
  ConfigAccount
    match x with
    | CE.EmptyOwners | CE.ZeroOwner | CE.AccountIsOwner => InvalidConfigurableAccountOwner
    | CE.TooManyOwners => TooManyOwners
    | CE.ZeroThreshold | CE.ThresholdExceedsWeight => InvalidThreshold
    | CE.ZeroWeight | CE.TotalWeightExceedsMax => InvalidWeight
    | CE.DuplicateOwner => DuplicateOwner
    | CE.OwnersNotAscending => InvalidOwnerOrder
    | CE.DerivedAccountZero => InvalidAccount
    end.
(** [r?]. *)
Definition lift {A} (r : CE.t + A) : M A :=
  match r with inl x => throw (config_error x) | inr a => mret a end.
(** [r.map_err(|_| ConfigurableAccountError::invalid_config())?]. *)
Definition lift_invalid {A} (r : CE.t + A) : M A :=
  match r with inl _ => throw (ConfigAccount InvalidConfig) | inr a => mret a end.

Definition set_authority (origin directly_authorized : Address) (eligibility : UpgradeEligibility) : M () :=
  wr accountC (λ _, ConfigurableAccountStorage.mk origin directly_authorized eligibility).

Definition config (salt : B256) (version threshold : N) (owners : list ConfigurableAccountOwner.t) : ConfigurableAccountConfig.t :=
  ConfigurableAccountConfig.mk salt version threshold owners.

Definition factory : M Address :=
  f ← asks configurable_account_recovery_factory;
  ok_or f (ConfigAccount InvalidConfig).

Definition get_config_commitment (account : Address) : M B256 := gets (λ w, (w_config_commitment w).[account]).
Definition set_config_commitment (address : Address) (commitment : B256) : M () :=
  sp ← asks spec;
  static ← asks is_static;
  require (negb (negb (is_t14 sp) || static || (commitment =? 0))) InvalidConfigCommitmentWrite ;;
  modify (set_w_config_commitment (insert address commitment)).

Definition derive_account (salt : B256) (threshold : N) (owners : list ConfigurableAccountOwner.t) : M Address :=
  f ← factory;
  let config := config salt 0 threshold owners in
  lift (validate config) ;;
  keccak ← asks keccak256;
  derive ← asks create2;
  r ← ok_or (AccountConfig.derive_account keccak derive config f) (Fatal "validated account config has an encodable owner count");
  account ← lift r;
  eth ← asks eth_precompiles;
  sp ← asks spec;
  require (is_valid_native_account eth account sp) (ConfigAccount InvalidAccount) ;;
  mret account.

Definition update_config (sender : Address) (current : ConfigurableAccountConfig.t) (threshold : N)
    (owners : list ConfigurableAccountOwner.t) : M () :=
  authorized ← rd accountC directly_authorized_account;
  require (negb ((sender =? 0) || negb (authorized =? sender))) (ConfigAccount UnauthorizedConfigurableAccountCaller) ;;
  let current := config current.(salt) current.(version) current.(ConfigurableAccountConfig.threshold) current.(ConfigurableAccountConfig.owners) in
  stored ← get_config_commitment sender;
  keccak ← asks keccak256;
  preimage ← lift_invalid (commitment_preimage current);
  require (stored =? keccak preimage) (ConfigAccount InvalidConfig) ;;
  version ← ok_or (checked_add U64_MAX current.(version) 1) (ConfigAccount InvalidConfig);
  let next := config current.(salt) version threshold owners in
  lift (validate_for_account next sender) ;;
  next_preimage ← lift (commitment_preimage next);
  let hash := keccak next_preimage in
  require (negb (hash =? 0)) (ConfigAccount InvalidConfig) ;;
  set_config_commitment sender hash ;;
  emit CONFIGURABLE_ACCOUNT_ADDRESS
    (AccountEv (ConfigurableAccountConfigUpdated sender next.(salt) version threshold owners)).

Definition upgrade_account (sender : Address) (threshold : N) (owners : list ConfigurableAccountOwner.t) : M B256 :=
  origin ← rd accountC tx_origin;
  require (origin =? sender) (ConfigAccount UpgradeMustBeOnlyCall) ;;
  eligibility ← rd accountC upgrade_eligibility;
  match eligibility with
  | NotSoleCall => throw (ConfigAccount UpgradeMustBeOnlyCall)
  | NotPrimitiveRoot => throw (ConfigAccount PrimitiveRootRequired)
  | PrimitiveRoot => mret ()
  end ;;
  code ← has_code sender;
  commitment ← get_config_commitment sender;
  require (negb code) (ConfigAccount AccountHasCode) ;;
  require (commitment =? 0) (ConfigAccount AccountAlreadyConfigurable) ;;
  keccak ← asks keccak256;
  let salt := keccak (CONFIGURABLE_ACCOUNT_UPGRADE_DOMAIN ++ address_bytes sender) in
  let upgraded := config salt 1 threshold owners in
  lift_invalid (validate_for_account upgraded sender) ;;
  preimage ← lift_invalid (commitment_preimage upgraded);
  let hash := keccak preimage in
  require (negb (hash =? 0)) (ConfigAccount InvalidConfig) ;;
  set_config_commitment sender hash ;;
  emit CONFIGURABLE_ACCOUNT_ADDRESS (AccountEv (AccountUpgraded sender hash salt threshold owners)) ;;
  mret hash.

(** The state-changing entry points. *)
Inductive op :=
| UpdateConfig (current : ConfigurableAccountConfig.t) (threshold : N) (owners : list ConfigurableAccountOwner.t)
| UpgradeAccount (threshold : N) (owners : list ConfigurableAccountOwner.t).
Definition dispatch (sender : Address) (o : op) : M () :=
  match o with
  | UpdateConfig current threshold owners => mutate (update_config sender current threshold owners)
  | UpgradeAccount threshold owners => mutate (upgrade_account sender threshold owners ;; mret ())
  end.

(** ** Histories *)

Inductive step :=
| SystemStep (s : System.step)
| SetAuthority (origin directly_authorized : Address) (eligibility : UpgradeEligibility)
| AccountCall (o : op).
Definition exec (sender : Address) (s : step) : M () :=
  match s with
  | SystemStep s => System.exec sender s
  | SetAuthority origin directly_authorized eligibility => set_authority origin directly_authorized eligibility
  | AccountCall o => dispatch sender o
  end.
Definition history := list (Env * Address * step).
Fixpoint run (h : history) (w : World) : World :=
  match h with
  | [] => w
  | (e, a, s) :: h' => run h' (call (exec a s) e w).2
  end.

(** ** The commitment of an account *)

(** [x] is the commitment to [c]. *)
Definition committed (h : bytes → B256) (c : ConfigurableAccountConfig.t) (x : B256) : Prop :=
  ∃ l, commitment_preimage c = inr l ∧ h l = x.
(** The configurations [K] that are around have fields in range, and no two of them
    collide under the hash. *)
Record collision_free (h : bytes → B256) (K : ConfigurableAccountConfig.t → Prop) : Prop := mkFree {
  free_range c : K c → in_range c;
  free_hash c c' l l' : K c → K c' → commitment_preimage c = inr l → commitment_preimage c' = inr l' →
    h l = h l' → l = l'
}.

(** [y] commits to a valid configuration of [a], which follows every configuration [x]
    commits to. *)
Definition advanced (h : bytes → B256) (K : ConfigurableAccountConfig.t → Prop) (a : Address) (x y : B256) : Prop :=
  ∃ c, K c ∧ valid c (Some a) ∧ committed h c y ∧ y ≠ 0 ∧ 0 < c.(version) ∧
    ∀ c', K c' → committed h c' x → x ≠ 0 → c'.(salt) = c.(salt) ∧ c'.(version) < c.(version).

(** What the transaction of a successful call was allowed to do. *)
Definition authorized (w : World) (a : Address) (o : op) : Prop :=
  match o with
  | UpdateConfig _ _ _ => (w_account w).(directly_authorized_account) = a
  | UpgradeAccount _ _ =>
      (w_account w).(tx_origin) = a ∧ (w_account w).(upgrade_eligibility) = PrimitiveRoot ∧
      (a ∉ w_code w) ∧ (w_config_commitment w).[a] = 0
  end.

(** The configurations of a call. *)
Definition op_known (h : bytes → B256) (K : ConfigurableAccountConfig.t → Prop) (a : Address) (o : op) : Prop :=
  match o with
  | UpdateConfig current threshold owners =>
      K current ∧ K (config current.(salt) (current.(version) + 1) threshold owners)
  | UpgradeAccount threshold owners =>
      K (config (h (CONFIGURABLE_ACCOUNT_UPGRADE_DOMAIN ++ address_bytes a)) 1 threshold owners)
  end.
Definition admissible (h : bytes → B256) (K : ConfigurableAccountConfig.t → Prop) (x : Env * Address * step) : Prop :=
  keccak256 x.1.1 = h ∧ match x.2 with AccountCall o => op_known h K x.1.2 o | _ => True end.

Lemma advanced_trans h K a x y z : advanced h K a x y → advanced h K a y z → advanced h K a x z.
Proof.
  intros (c & Hr & _ & Hc & Hy & _ & Hlt) (c' & Hr' & Hv' & Hc' & Hz & Hn' & Hlt').
  exists c'. split_and!; [done..|]. intros c1 H1 Hc1 Hx. destruct (Hlt c1 H1 Hc1 Hx) as [E1 L1].
  destruct (Hlt' c Hr Hc Hy) as [E2 L2]. split; [congruence|lia].
Qed.

(** A configuration that was replaced is not accepted again. *)
Lemma replaced_config_rejected h K create2 factory s a x y :
  advanced h K a x y → K (AccountConfig.config s) → config_commitment h s = Some x → x ≠ 0 →
  validate_account_commitment h create2 s y factory = Some (inl (TE.CommitmentMismatch y x)).
Proof.
  intros (c & Hr & _ & Hc & Hy & _ & Hlt) Hs Hx Hx0. unfold validate_account_commitment. rewrite Hx. cbn.
  rewrite (proj2 (N.eqb_neq x 0)), (proj2 (N.eqb_neq y 0)) by done. cbn.
  destruct (N.eqb_spec y x) as [->|]; [|done]. destruct (Hlt c Hr Hc Hx0). lia.
Qed.

Lemma lift_Ok {A} (r : CE.t + A) e w a w' : lift r e w = (Ok a, w') → r = inr a ∧ w' = w.
Proof. destruct r; [done|]. by intros [= -> ->]. Qed.
Lemma lift_invalid_Ok {A} (r : CE.t + A) e w a w' : lift_invalid r e w = (Ok a, w') → r = inr a ∧ w' = w.
Proof. destruct r; [done|]. by intros [= -> ->]. Qed.
Lemma set_config_commitment_Ok a x e w u w' :
  set_config_commitment a x e w = (Ok u, w') → w' = set_w_config_commitment (insert a x) w ∧ is_t14 (spec e) = true.
Proof. unfold set_config_commitment. intros H. m_inv. split; [done|]. by destruct (is_t14 (spec e)). Qed.

Ltac lift_inv :=
  repeat match goal with
  | H : lift_invalid _ _ _ = (Ok _, _) |- _ => apply lift_invalid_Ok in H as [H ->]
  | H : lift _ _ _ = (Ok _, _) |- _ => apply lift_Ok in H as [H ->]
  | H : set_config_commitment _ _ _ _ = (Ok _, _) |- _ => apply set_config_commitment_Ok in H as [-> H]
  end.

Lemma update_advances K a cur th ow e w u w' :
  collision_free (keccak256 e) K → op_known (keccak256 e) K a (UpdateConfig cur th ow) →
  update_config a cur th ow e w = (Ok u, w') →
  ∃ y, w_config_commitment w' = <[a := y]> (w_config_commitment w) ∧
    advanced (keccak256 e) K a (w_config_commitment w).[a] y ∧ authorized w a (UpdateConfig cur th ow).
Proof.
  intros HK (Hc & Hc') H. destruct cur as [s v t l]. unfold update_config, get_config_commitment in H. m_inv. lift_inv.
  apply negb_true_iff, orb_false_iff in H2 as [_ Ha%negb_false_iff%N.eqb_eq]. apply N.eqb_eq in H1.
  apply negb_true_iff, N.eqb_neq in H. apply checked_add_Some in H0 as [-> _]. apply validate_spec in Hrun6 as [Hv _].
  eexists. split_and!; [reflexivity| |done]. rewrite H1.
  eexists. split_and!; [exact Hc'|exact Hv|by eexists|done|cbn; lia|]. intros c Hc1 (l1 & Hl1 & E) _.
  assert (c = config s v t l) as ->; [|cbn; lia]. destruct HK as [Hr Hf].
  eapply commitment_preimage_inj; [by apply Hr..| |done]. by rewrite (Hf _ _ _ _ Hc1 Hc Hl1 Hrun3 E) in Hl1.
Qed.
Lemma upgrade_advances K a th ow e w u w' :
  op_known (keccak256 e) K a (UpgradeAccount th ow) → upgrade_account a th ow e w = (Ok u, w') →
  ∃ y, w_config_commitment w' = <[a := y]> (w_config_commitment w) ∧
    advanced (keccak256 e) K a (w_config_commitment w).[a] y ∧ authorized w a (UpgradeAccount th ow).
Proof.
  intros HK H. unfold upgrade_account, get_config_commitment, has_code in H. m_inv. lift_inv.
  rewrite N.eqb_eq in H3, H0. apply negb_true_iff, bool_decide_eq_false in H1. apply negb_true_iff, N.eqb_neq in H.
  apply validate_spec in Hrun8 as [Hv _]. eexists. split_and!; [reflexivity| |by split_and!]. rewrite H0.
  eexists. by split_and!; [exact HK|exact Hv|by eexists|..].
Qed.

(** A successful call changes the commitment of its sender only, and only forward. *)
Lemma call_advances K e a o w u w' :
  collision_free (keccak256 e) K → op_known (keccak256 e) K a o →
  dispatch a o e w = (Ok u, w') →
  ∃ y, w_config_commitment w' = <[a := y]> (w_config_commitment w) ∧
    advanced (keccak256 e) K a (w_config_commitment w).[a] y ∧ authorized w a o.
Proof.
  intros HK Ho H. destruct o; unfold dispatch, mutate in H; m_inv.
  - by eapply update_advances.
  - by eapply upgrade_advances.
Qed.

Lemma system_keeps_commitments e a s w u w' :
  System.exec a s e w = (Ok u, w') → w_config_commitment w' = w_config_commitment w.
Proof.
  intros H. assert ((∃ o, s = System.ValidatorStep o) ∨ ∀ o, s ≠ System.ValidatorStep o) as [[o ->]|Hs].
  { destruct s; eauto; right; congruence. }
  - pose proof (stable_validators e (keeps w_config_commitment) ltac:(auto with stable) a o) as Hst. by apply Hst in H.
  - apply ValidatorHistory.exec_keeps in H; [|done]. unfold keeps in H. by injection H as _ _ _ ->.
Qed.

Lemma step_advances h K e b s w a :
  collision_free h K → admissible h K (e, b, s) → let w' := (call (exec b s) e w).2 in
  (w_config_commitment w').[a] = (w_config_commitment w).[a] ∨
  ∃ o, b = a ∧ s = AccountCall o ∧ authorized w a o ∧ advanced h K a (w_config_commitment w).[a] (w_config_commitment w').[a].
Proof.
  intros Hc [<- Ho] w'. cbn in Hc, Ho. unfold w'. call_cases Hr; [by left|]. destruct s as [s| |o]; cbn [exec] in *.
  - left. by erewrite system_keeps_commitments.
  - left. unfold set_authority in Hr. by m_inv.
  - destruct (call_advances _ _ _ _ _ _ _ Hc Ho Hr) as (y & E & Hy & Ha). rewrite E.
    destruct (decide (b = a)) as [->|Hne]; [|left; by rewrite sread_insert_ne].
    right. exists o. by rewrite sread_insert_eq.
Qed.

(** C16: The configuration of an account only moves forward, and only by the account. In every
    history of calls to the precompile, of what the handler allows them, and of all other
    steps of the system, the commitment of an account stays the same, or the account itself
    made a call with the authority of its owners, or, to begin with, of its root key, and
    commits to a valid configuration of a later version under the same salt. So a
    replaced set of owners never becomes valid again, and a root key that was given up
    stays retired. *)
Theorem account_config_advances h K hist w a :
  collision_free h K → Forall (admissible h K) hist →
  let x := (w_config_commitment w).[a] in
  let y := (w_config_commitment (run hist w)).[a] in
  y = x ∨
  advanced h K a x y ∧
  ∃ pre e o post, hist = pre ++ (e, a, AccountCall o) :: post ∧ authorized (run pre w) a o.
Proof.
  intros Hc. revert w. induction hist as [|[[e b] s] hist IH]; intros w Hhist x y; [by left|]. apply Forall_cons in Hhist as [Hs Hhist].
  specialize (IH (call (exec b s) e w).2 Hhist). cbv zeta in IH.
  destruct (step_advances h K e b s w a Hc Hs) as [E|(o & -> & -> & Ha & Hadv)].
  - rewrite E in IH. destruct IH as [IH|(Hadv & pre & e' & o & post & -> & Ha)]; [by left|]. right. split; [done|].
    exists ((e, b, s) :: pre), e', o, post. done.
  - right. split; [|by exists [], e, o, hist]. destruct IH as [IH|[Hadv' _]]; [|by eapply advanced_trans].
    unfold y. cbn [run]. by rewrite IH.
Qed.

(** An account gives up its root key for two owners, who later take in a third. *)
Definition ex_hash (l : bytes) : B256 := example_hash l mod 2 ^ 255 + 1.
Definition ex_env : Env := {|
  spec := T14; timestamp := 100; block_number := 1; chain_id := 4217; beneficiary := 0xBE;
  is_static := false; keccak256 := ex_hash; ecrecover := λ _ _ _ _, None; crypto := Signatures.example_crypto;
  eth_precompiles := λ _ _, false; create2 := λ _ salt _, salt; configurable_account_recovery_factory := None
|}.
Definition ex_first : ConfigurableAccountConfig.t :=
  config (ex_hash (CONFIGURABLE_ACCOUNT_UPGRADE_DOMAIN ++ address_bytes 5)) 1 2 [ex_owner 11 1; ex_owner 12 1].
Definition ex_second : ConfigurableAccountConfig.t :=
  config ex_first.(salt) 2 3 [ex_owner 11 1; ex_owner 12 1; ex_owner 13 2].
Definition ex_known (c : ConfigurableAccountConfig.t) : Prop := c = ex_first ∨ c = ex_second.
Definition ex_history : history :=
  [ (ex_env, 5, SetAuthority 5 0 PrimitiveRoot);
    (ex_env, 5, AccountCall (UpgradeAccount 2 ex_first.(owners)));
    (ex_env, 5, SetAuthority 5 5 NotSoleCall);
    (ex_env, 5, AccountCall (UpdateConfig ex_first 3 ex_second.(owners))) ].
Lemma ex_collision_free : collision_free ex_hash ex_known.
Proof.
  assert (∀ c, ex_known c → in_range c) as Hr.
  { intros c [-> | ->]; (split; [by vm_compute..|]); intros o Ho.
    all: repeat (apply elem_of_cons in Ho as [->|Ho]; [by split; vm_compute|]); by apply not_elem_of_nil in Ho. }
  split; [done|]. intros c c' l l' [-> | ->] [-> | ->] H H' E; simplify_eq; try congruence.
  all: apply (f_equal (sum_rect (λ _, B256) (λ _, 0) ex_hash)) in H, H'; cbn [sum_rect] in H, H'.
  all: rewrite <- E, <- H in H'; vm_compute in H'; discriminate.
Qed.
Lemma account_config_advances_witness :
  let y := (w_config_commitment (run ex_history dflt)).[5] in
  Forall (admissible ex_hash ex_known) ex_history ∧ committed ex_hash ex_second y ∧ advanced ex_hash ex_known 5 0 y.
Proof.
  intros y. assert (Forall (admissible ex_hash ex_known) ex_history) as Hh.
  { repeat (apply Forall_cons; split; [split; [reflexivity|]; try exact I|]); [| |apply Forall_nil; exact I].
    - left. reflexivity.
    - split; [left; reflexivity|right; reflexivity]. }
  split; [exact Hh|]. split.
  - eexists. split; [reflexivity|]. vm_compute. reflexivity.
  - destruct (account_config_advances ex_hash ex_known ex_history dflt 5 ex_collision_free Hh) as [E|[H _]].
    + exfalso. vm_compute in E. discriminate E.
    + exact H.
Defined.
End ConfigurableAccount.
