(* ===== verification/Pool2dState.v ===== *)
(** * State of the pool of two-dimensional nonces

    The types of [crates/transaction-pool/src/tt_2d_pool.rs] and the part of a pooled
    transaction ([transaction.rs]) that the pool reads. Ordered sets and maps of the
    source are finite maps; iteration in order is [first], [last] and [lane] of
    [Pool2d.v]. What comes from the libraries the pool is built on is the record
    [Reth]. *)

From S2P Require Import Prelude.

(** [AASequenceId]: sender and nonce key. *)
Abbreviation AASequenceId := (Address * U256)%type.
(** [AA2dTransactionId]: sequence and nonce. *)
Abbreviation AA2dTransactionId := (AASequenceId * N)%type.
(** [Priority<u64>]: a tip, or none for a transaction below the base fee. *)
Abbreviation Priority := (option N).
(** [EvictionOrderKey]: priority and submission id. *)
Abbreviation EvictionOrderKey := (Priority * N)%type.

Inductive NonceSlotEntry := Sequence (seq_id : AASequenceId) | ExpiringNonce (hash : B256).
#[global] Instance nonce_slot_entry_eq_dec : EqDecision NonceSlotEntry.
Proof. solve_decision. Defined.

(** [TempoPooledTransaction]; [body] stands for everything the pool does not read. *)
Module TempoPooledTransaction.
Record t := mk {
  sender : Address;
  nonce_key : U256;
  nonce : N;
  size : N;
  max_fee_per_gas : N;
  body : N
}.
#[global] Instance transaction_eq_dec : EqDecision t.
Proof. solve_decision. Defined.
End TempoPooledTransaction.

Module AA2dStoredTransaction.
Record t := mk { submission_id : N; transaction : TempoPooledTransaction.t }.
End AA2dStoredTransaction.

Module AA2dInternalTransaction.
Record t := mk { inner : AA2dStoredTransaction.t; is_pending : bool }.
Definition set_is_pending (b : bool) (x : t) : t := mk x.(inner) b.
End AA2dInternalTransaction.

(** [SubPoolLimit]. *)
Module SubPoolLimit.
Record t := mk { max_txs : N; max_size : N }.
End SubPoolLimit.

Module AA2dPoolConfig.
Record t := mk {
  pending_limit : SubPoolLimit.t;
  queued_limit : SubPoolLimit.t;
  max_txs_per_sender : N;
  max_txs_per_lane : N
}.
End AA2dPoolConfig.

(** [IndependentTransactions]: one executable transaction per sequence. *)
Module IndependentTransactions.
Record t := mk {
  transactions : gmap AASequenceId AA2dStoredTransaction.t;
  order : gmap EvictionOrderKey AA2dTransactionId;
  base_fee : N
}.
Definition set_transactions (g : gmap AASequenceId AA2dStoredTransaction.t → gmap AASequenceId AA2dStoredTransaction.t) (s : t) : t :=
  mk (g s.(transactions)) s.(order) s.(base_fee).
Definition set_order (g : gmap EvictionOrderKey AA2dTransactionId → gmap EvictionOrderKey AA2dTransactionId) (s : t) : t :=
  mk s.(transactions) (g s.(order)) s.(base_fee).
Definition set_base_fee (g : N → N) (s : t) : t :=
  mk s.(transactions) s.(order) (g s.(base_fee)).
End IndependentTransactions.

(** [AA2dPool]. Sizes are tracked in [isize]; the broadcast channel and the metrics are
    left out, the scratch buffers live only during a state update. *)
Module AA2dPool.
Record t := mk {
  submission_id : N;
  independent_transactions : IndependentTransactions.t;
  by_id : gmap AA2dTransactionId AA2dInternalTransaction.t;
  by_hash : gmap B256 TempoPooledTransaction.t;
  expiring_nonce_txs : gmap B256 AA2dStoredTransaction.t;
  expiring_nonce_eviction_order : gmap EvictionOrderKey TempoPooledTransaction.t;
  slot_to_nonce_entry : gmap U256 NonceSlotEntry;
  config : AA2dPoolConfig.t;
  pending_eviction_order : gmap EvictionOrderKey AA2dTransactionId;
  queued_eviction_order : gmap EvictionOrderKey AA2dTransactionId;
  base_fee : N;
  txs_by_sender : gmap Address N;
  txs_by_lane : gmap AASequenceId N;
  pending_count : N;
  queued_count : N;
  pending_size : Z;
  queued_size : Z
}.
Definition set_submission_id (g : N → N) (s : t) : t :=
  mk (g s.(submission_id)) s.(independent_transactions) s.(by_id) s.(by_hash) s.(expiring_nonce_txs)
    s.(expiring_nonce_eviction_order) s.(slot_to_nonce_entry) s.(config) s.(pending_eviction_order)
    s.(queued_eviction_order) s.(base_fee) s.(txs_by_sender) s.(txs_by_lane) s.(pending_count)
    s.(queued_count) s.(pending_size) s.(queued_size).
Definition set_independent_transactions (g : IndependentTransactions.t → IndependentTransactions.t) (s : t) : t :=
  mk s.(submission_id) (g s.(independent_transactions)) s.(by_id) s.(by_hash) s.(expiring_nonce_txs)
    s.(expiring_nonce_eviction_order) s.(slot_to_nonce_entry) s.(config) s.(pending_eviction_order)
    s.(queued_eviction_order) s.(base_fee) s.(txs_by_sender) s.(txs_by_lane) s.(pending_count)
    s.(queued_count) s.(pending_size) s.(queued_size).
Definition set_by_id (g : gmap AA2dTransactionId AA2dInternalTransaction.t → gmap AA2dTransactionId AA2dInternalTransaction.t) (s : t) : t :=
  mk s.(submission_id) s.(independent_transactions) (g s.(by_id)) s.(by_hash) s.(expiring_nonce_txs)
    s.(expiring_nonce_eviction_order) s.(slot_to_nonce_entry) s.(config) s.(pending_eviction_order)
    s.(queued_eviction_order) s.(base_fee) s.(txs_by_sender) s.(txs_by_lane) s.(pending_count)
    s.(queued_count) s.(pending_size) s.(queued_size).
Definition set_by_hash (g : gmap B256 TempoPooledTransaction.t → gmap B256 TempoPooledTransaction.t) (s : t) : t :=
  mk s.(submission_id) s.(independent_transactions) s.(by_id) (g s.(by_hash)) s.(expiring_nonce_txs)
    s.(expiring_nonce_eviction_order) s.(slot_to_nonce_entry) s.(config) s.(pending_eviction_order)
    s.(queued_eviction_order) s.(base_fee) s.(txs_by_sender) s.(txs_by_lane) s.(pending_count)
    s.(queued_count) s.(pending_size) s.(queued_size).
Definition set_expiring_nonce_txs (g : gmap B256 AA2dStoredTransaction.t → gmap B256 AA2dStoredTransaction.t) (s : t) : t :=
  mk s.(submission_id) s.(independent_transactions) s.(by_id) s.(by_hash) (g s.(expiring_nonce_txs))
    s.(expiring_nonce_eviction_order) s.(slot_to_nonce_entry) s.(config) s.(pending_eviction_order)
    s.(queued_eviction_order) s.(base_fee) s.(txs_by_sender) s.(txs_by_lane) s.(pending_count)
    s.(queued_count) s.(pending_size) s.(queued_size).
Definition set_expiring_nonce_eviction_order (g : gmap EvictionOrderKey TempoPooledTransaction.t → gmap EvictionOrderKey TempoPooledTransaction.t) (s : t) : t :=
  mk s.(submission_id) s.(independent_transactions) s.(by_id) s.(by_hash) s.(expiring_nonce_txs) (g
    s.(expiring_nonce_eviction_order)) s.(slot_to_nonce_entry) s.(config) s.(pending_eviction_order)
    s.(queued_eviction_order) s.(base_fee) s.(txs_by_sender) s.(txs_by_lane) s.(pending_count)
    s.(queued_count) s.(pending_size) s.(queued_size).
Definition set_slot_to_nonce_entry (g : gmap U256 NonceSlotEntry → gmap U256 NonceSlotEntry) (s : t) : t :=
  mk s.(submission_id) s.(independent_transactions) s.(by_id) s.(by_hash) s.(expiring_nonce_txs)
    s.(expiring_nonce_eviction_order) (g s.(slot_to_nonce_entry)) s.(config) s.(pending_eviction_order)
    s.(queued_eviction_order) s.(base_fee) s.(txs_by_sender) s.(txs_by_lane) s.(pending_count)
    s.(queued_count) s.(pending_size) s.(queued_size).
Definition set_config (g : AA2dPoolConfig.t → AA2dPoolConfig.t) (s : t) : t :=
  mk s.(submission_id) s.(independent_transactions) s.(by_id) s.(by_hash) s.(expiring_nonce_txs)
    s.(expiring_nonce_eviction_order) s.(slot_to_nonce_entry) (g s.(config)) s.(pending_eviction_order)
    s.(queued_eviction_order) s.(base_fee) s.(txs_by_sender) s.(txs_by_lane) s.(pending_count)
    s.(queued_count) s.(pending_size) s.(queued_size).
Definition set_pending_eviction_order (g : gmap EvictionOrderKey AA2dTransactionId → gmap EvictionOrderKey AA2dTransactionId) (s : t) : t :=
  mk s.(submission_id) s.(independent_transactions) s.(by_id) s.(by_hash) s.(expiring_nonce_txs)
    s.(expiring_nonce_eviction_order) s.(slot_to_nonce_entry) s.(config) (g s.(pending_eviction_order))
    s.(queued_eviction_order) s.(base_fee) s.(txs_by_sender) s.(txs_by_lane) s.(pending_count)
    s.(queued_count) s.(pending_size) s.(queued_size).
Definition set_queued_eviction_order (g : gmap EvictionOrderKey AA2dTransactionId → gmap EvictionOrderKey AA2dTransactionId) (s : t) : t :=
  mk s.(submission_id) s.(independent_transactions) s.(by_id) s.(by_hash) s.(expiring_nonce_txs)
    s.(expiring_nonce_eviction_order) s.(slot_to_nonce_entry) s.(config) s.(pending_eviction_order) (g
    s.(queued_eviction_order)) s.(base_fee) s.(txs_by_sender) s.(txs_by_lane) s.(pending_count)
    s.(queued_count) s.(pending_size) s.(queued_size).
Definition set_base_fee (g : N → N) (s : t) : t :=
  mk s.(submission_id) s.(independent_transactions) s.(by_id) s.(by_hash) s.(expiring_nonce_txs)
    s.(expiring_nonce_eviction_order) s.(slot_to_nonce_entry) s.(config) s.(pending_eviction_order)
    s.(queued_eviction_order) (g s.(base_fee)) s.(txs_by_sender) s.(txs_by_lane) s.(pending_count)
    s.(queued_count) s.(pending_size) s.(queued_size).
Definition set_txs_by_sender (g : gmap Address N → gmap Address N) (s : t) : t :=
  mk s.(submission_id) s.(independent_transactions) s.(by_id) s.(by_hash) s.(expiring_nonce_txs)
    s.(expiring_nonce_eviction_order) s.(slot_to_nonce_entry) s.(config) s.(pending_eviction_order)
    s.(queued_eviction_order) s.(base_fee) (g s.(txs_by_sender)) s.(txs_by_lane) s.(pending_count)
    s.(queued_count) s.(pending_size) s.(queued_size).
Definition set_txs_by_lane (g : gmap AASequenceId N → gmap AASequenceId N) (s : t) : t :=
  mk s.(submission_id) s.(independent_transactions) s.(by_id) s.(by_hash) s.(expiring_nonce_txs)
    s.(expiring_nonce_eviction_order) s.(slot_to_nonce_entry) s.(config) s.(pending_eviction_order)
    s.(queued_eviction_order) s.(base_fee) s.(txs_by_sender) (g s.(txs_by_lane)) s.(pending_count)
    s.(queued_count) s.(pending_size) s.(queued_size).
Definition set_pending_count (g : N → N) (s : t) : t :=
  mk s.(submission_id) s.(independent_transactions) s.(by_id) s.(by_hash) s.(expiring_nonce_txs)
    s.(expiring_nonce_eviction_order) s.(slot_to_nonce_entry) s.(config) s.(pending_eviction_order)
    s.(queued_eviction_order) s.(base_fee) s.(txs_by_sender) s.(txs_by_lane) (g s.(pending_count))
    s.(queued_count) s.(pending_size) s.(queued_size).
Definition set_queued_count (g : N → N) (s : t) : t :=
  mk s.(submission_id) s.(independent_transactions) s.(by_id) s.(by_hash) s.(expiring_nonce_txs)
    s.(expiring_nonce_eviction_order) s.(slot_to_nonce_entry) s.(config) s.(pending_eviction_order)
    s.(queued_eviction_order) s.(base_fee) s.(txs_by_sender) s.(txs_by_lane) s.(pending_count) (g
    s.(queued_count)) s.(pending_size) s.(queued_size).
Definition set_pending_size (g : Z → Z) (s : t) : t :=
  mk s.(submission_id) s.(independent_transactions) s.(by_id) s.(by_hash) s.(expiring_nonce_txs)
    s.(expiring_nonce_eviction_order) s.(slot_to_nonce_entry) s.(config) s.(pending_eviction_order)
    s.(queued_eviction_order) s.(base_fee) s.(txs_by_sender) s.(txs_by_lane) s.(pending_count)
    s.(queued_count) (g s.(pending_size)) s.(queued_size).
Definition set_queued_size (g : Z → Z) (s : t) : t :=
  mk s.(submission_id) s.(independent_transactions) s.(by_id) s.(by_hash) s.(expiring_nonce_txs)
    s.(expiring_nonce_eviction_order) s.(slot_to_nonce_entry) s.(config) s.(pending_eviction_order)
    s.(queued_eviction_order) s.(base_fee) s.(txs_by_sender) s.(txs_by_lane) s.(pending_count)
    s.(queued_count) s.(pending_size) (g s.(queued_size)).
End AA2dPool.

(** [BestAA2dTransactions]; the receiver holds what is still to be received. *)
Module BestAA2dTransactions.
Record t := mk {
  independent : gmap EvictionOrderKey AA2dTransactionId;
  by_id : gmap AA2dTransactionId AA2dStoredTransaction.t;
  expiring_nonce_order : gmap EvictionOrderKey TempoPooledTransaction.t;
  invalid : gset AASequenceId;
  new_transaction_receiver : option (list AA2dStoredTransaction.t);
  last_priority : option Priority;
  base_fee : N
}.
Definition set_independent (g : gmap EvictionOrderKey AA2dTransactionId → gmap EvictionOrderKey AA2dTransactionId) (s : t) : t :=
  mk (g s.(independent)) s.(by_id) s.(expiring_nonce_order) s.(invalid) s.(new_transaction_receiver)
    s.(last_priority) s.(base_fee).
Definition set_by_id (g : gmap AA2dTransactionId AA2dStoredTransaction.t → gmap AA2dTransactionId AA2dStoredTransaction.t) (s : t) : t :=
  mk s.(independent) (g s.(by_id)) s.(expiring_nonce_order) s.(invalid) s.(new_transaction_receiver)
    s.(last_priority) s.(base_fee).
Definition set_expiring_nonce_order (g : gmap EvictionOrderKey TempoPooledTransaction.t → gmap EvictionOrderKey TempoPooledTransaction.t) (s : t) : t :=
  mk s.(independent) s.(by_id) (g s.(expiring_nonce_order)) s.(invalid) s.(new_transaction_receiver)
    s.(last_priority) s.(base_fee).
Definition set_invalid (g : gset AASequenceId → gset AASequenceId) (s : t) : t :=
  mk s.(independent) s.(by_id) s.(expiring_nonce_order) (g s.(invalid)) s.(new_transaction_receiver)
    s.(last_priority) s.(base_fee).
Definition set_new_transaction_receiver (g : option (list AA2dStoredTransaction.t) → option (list AA2dStoredTransaction.t)) (s : t) : t :=
  mk s.(independent) s.(by_id) s.(expiring_nonce_order) s.(invalid) (g s.(new_transaction_receiver))
    s.(last_priority) s.(base_fee).
Definition set_last_priority (g : option Priority → option Priority) (s : t) : t :=
  mk s.(independent) s.(by_id) s.(expiring_nonce_order) s.(invalid) s.(new_transaction_receiver) (g
    s.(last_priority)) s.(base_fee).
Definition set_base_fee (g : N → N) (s : t) : t :=
  mk s.(independent) s.(by_id) s.(expiring_nonce_order) s.(invalid) s.(new_transaction_receiver)
    s.(last_priority) (g s.(base_fee)).
End BestAA2dTransactions.
