(* ===== verification/Pool2d.v ===== *)
(** * The pool of two-dimensional nonces

    [tt_2d_pool.rs]: transactions with a nonce key wait in lanes of consecutive nonces,
    one lane per sender and key, or, with an expiring nonce, on their own. A transaction
    is pending when no nonce is missing between the nonce on chain and its own, and
    queued otherwise. The pool keeps indexes by hash, by storage slot and by eviction
    priority, counts and sizes next to the transactions, evicts what has the lowest
    priority when it grows over its limits, and follows the nonces on chain.

    An operation takes the pool and returns its result with the new pool. Loops over the
    pool have fuel for every transaction in it; [Pool2dRemove.v], [Pool2dAdd.v] and
    [Pool2dUpdate.v] show that it is enough.
    The order in which the source iterates over a hash map is the order of the model's
    map. *)

From stdpp Require Import sorting.
From S2P Require Import Prelude Hardfork Address Bytes Pool2dState.

(** What the pool takes from its libraries: hashes, the effective tip of a transaction
    at a base fee, the comparison of priorities, the rules for limits and for
    replacements, and Keccak. *)
Record Reth := mkReth {
  tx_hash : TempoPooledTransaction.t → B256;
  tx_expiring_nonce_hash : TempoPooledTransaction.t → B256;
  effective_tip_per_gas : TempoPooledTransaction.t → N → option N;
  priority_cmp : Priority → Priority → comparison;
  is_exceeded : SubPoolLimit.t → N → N → bool;
  is_replacement_underpriced : TempoPooledTransaction.t → TempoPooledTransaction.t → bool;
  slot_keccak : bytes → B256
}.

Module Pool2d.
Import AA2dPool.

Definition TEMPO_EXPIRING_NONCE_KEY : U256 := U256_MAX.
Definition USIZE : N := 2 ^ 64.
(** [usize] arithmetic as in release builds, and a tracked size as [usize]. *)
Definition usize_sub (a b : N) : N := (a + USIZE - b) mod USIZE.
Definition usize_of (z : Z) : N := Z.to_N (z mod Z.of_N USIZE).

(** ** Transactions *)

Definition is_aa_2d (tx : TempoPooledTransaction.t) : bool := negb (tx.(TempoPooledTransaction.nonce_key) =? 0).
Definition is_expiring_nonce (tx : TempoPooledTransaction.t) : bool :=
  tx.(TempoPooledTransaction.nonce_key) =? TEMPO_EXPIRING_NONCE_KEY.
Definition aa_transaction_id (tx : TempoPooledTransaction.t) : AA2dTransactionId :=
  ((tx.(TempoPooledTransaction.sender), tx.(TempoPooledTransaction.nonce_key)), tx.(TempoPooledTransaction.nonce)).
Abbreviation stored_tx st := (AA2dStoredTransaction.transaction st).
Abbreviation inner := AA2dInternalTransaction.inner.
Abbreviation is_pending := AA2dInternalTransaction.is_pending.
Abbreviation inner_tx x := (stored_tx (inner x)).
Abbreviation size tx := (TempoPooledTransaction.size tx).

(** [unlocks] of an id. *)
Definition unlocks (id : AA2dTransactionId) : AA2dTransactionId := (id.1, saturating_add U64_MAX id.2 1).

Section pool.
Context (R : Reth).

(** [StorageKey::mapping_slot] and the two mappings of the nonce manager. *)
Definition mapping_slot (key slot : U256) : U256 := slot_keccak R (word_bytes key ++ word_bytes slot).
Definition nonce_slot (s : AASequenceId) : U256 := mapping_slot s.2 (mapping_slot s.1 0).
Definition seen_slot (hash : B256) : U256 := mapping_slot hash 1.
Definition nonce_key_slot (tx : TempoPooledTransaction.t) : U256 := nonce_slot (aa_transaction_id tx).1.
Definition expiring_nonce_slot (tx : TempoPooledTransaction.t) : U256 := seen_slot (tx_expiring_nonce_hash R tx).

(** [TempoTipOrdering::priority]. *)
Definition priority (tx : TempoPooledTransaction.t) (base_fee : N) : Priority :=
  (λ p, if p <=? U64_MAX then p else U64_MAX) <$> effective_tip_per_gas R tx base_fee.
Definition eviction_key (st : AA2dStoredTransaction.t) (base_fee : N) : EvictionOrderKey :=
  (priority (stored_tx st) base_fee, st.(AA2dStoredTransaction.submission_id)).
(** [EvictionOrderKey::cmp]: lower priority first, then newer first. *)
Definition key_cmp (a b : EvictionOrderKey) : comparison :=
  match priority_cmp R a.1 b.1 with Eq => b.2 ?= a.2 | c => c end.

(** [first] and [last] of a map ordered by [key_cmp]. *)
Definition lower {V} (a : EvictionOrderKey * V) (o : option (EvictionOrderKey * V)) : option (EvictionOrderKey * V) :=
  match o with
  | Some b => match key_cmp a.1 b.1 with Gt => Some b | _ => Some a end
  | None => Some a
  end.
Definition higher {V} (a : EvictionOrderKey * V) (o : option (EvictionOrderKey * V)) : option (EvictionOrderKey * V) :=
  match o with
  | Some b => match key_cmp a.1 b.1 with Lt => Some b | _ => Some a end
  | None => Some a
  end.
Definition first {V} (m : gmap EvictionOrderKey V) : option (EvictionOrderKey * V) := foldr lower None (map_to_list m).
Definition last {V} (m : gmap EvictionOrderKey V) : option (EvictionOrderKey * V) := foldr higher None (map_to_list m).
(** [BTreeSet::insert] keeps an equal element. *)
Definition set_insert {V} (k : EvictionOrderKey) (v : V) (m : gmap EvictionOrderKey V) : gmap EvictionOrderKey V :=
  match m !! k with Some _ => m | None => <[k := v]> m end.

(** The nonces of a sequence from [n] on, in order: the range
    [by_id.range(id..).take_while(..)]. *)
Definition lane {V} (m : gmap AA2dTransactionId V) (s : AASequenceId) (n : N) : list N :=
  merge_sort N.le (omap (λ kv : AA2dTransactionId * V,
    if bool_decide (kv.1.1 = s) && (n <=? kv.1.2) then Some kv.1.2 else None) (map_to_list m)).

(** ** Independent transactions *)

Definition independent_insert (st : AA2dStoredTransaction.t) (i : IndependentTransactions.t) : IndependentTransactions.t :=
  let id := aa_transaction_id (stored_tx st) in
  let key := eviction_key st i.(IndependentTransactions.base_fee) in
  let order := match i.(IndependentTransactions.transactions) !! id.1 with
    | Some old => delete (eviction_key old i.(IndependentTransactions.base_fee)) i.(IndependentTransactions.order)
    | None => i.(IndependentTransactions.order)
    end in
  IndependentTransactions.mk (<[id.1 := st]> i.(IndependentTransactions.transactions)) (<[key := id]> order)
    i.(IndependentTransactions.base_fee).
Definition independent_remove (s : AASequenceId) (nonce : option N) (i : IndependentTransactions.t) : IndependentTransactions.t :=
  match i.(IndependentTransactions.transactions) !! s with
  | Some st =>
      if match nonce with Some n => (stored_tx st).(TempoPooledTransaction.nonce) =? n | None => true end
      then IndependentTransactions.mk (delete s i.(IndependentTransactions.transactions))
             (delete (eviction_key st i.(IndependentTransactions.base_fee)) i.(IndependentTransactions.order))
             i.(IndependentTransactions.base_fee)
      else i
  | None => i
  end.
Definition ordered_by (base_fee : N) (m : gmap AASequenceId AA2dStoredTransaction.t)
    : gmap EvictionOrderKey AA2dTransactionId :=
  map_fold (λ s st order, <[eviction_key st base_fee := (s, (stored_tx st).(TempoPooledTransaction.nonce))]> order) ∅ m.
Definition on_new_base_fee (base_fee : N) (i : IndependentTransactions.t) : IndependentTransactions.t :=
  IndependentTransactions.mk i.(IndependentTransactions.transactions)
    (ordered_by base_fee i.(IndependentTransactions.transactions)) base_fee.
Definition eviction_order_for (base_fee : N) (i : IndependentTransactions.t) : gmap EvictionOrderKey AA2dTransactionId :=
  if base_fee =? i.(IndependentTransactions.base_fee) then i.(IndependentTransactions.order)
  else ordered_by base_fee i.(IndependentTransactions.transactions).

(** ** Bookkeeping *)

Definition remove_from_subpool (pending : bool) (sz : N) (p : t) : t :=
  if pending then set_pending_count (λ n, usize_sub n 1) (set_pending_size (λ z, (z - Z.of_N sz)%Z) p)
  else set_queued_count (λ n, usize_sub n 1) (set_queued_size (λ z, (z - Z.of_N sz)%Z) p).
Definition remove_eviction_key (x : AA2dInternalTransaction.t) (p : t) : t :=
  let order := eviction_key (inner x) p.(base_fee) in
  if is_pending x then set_pending_eviction_order (delete order) p
  else set_queued_eviction_order (delete order) p.
Definition decrement {K} `{Countable K} (k : K) (m : gmap K N) : gmap K N :=
  match m !! k with
  | Some n => if usize_sub n 1 =? 0 then delete k m else <[k := usize_sub n 1]> m
  | None => m
  end.
Definition decrement_sender_count (a : Address) (p : t) : t := set_txs_by_sender (decrement a) p.
(** The check of the sender's limit with the increment, shared by both kinds. *)
Definition accept_sender (a : Address) (p : t) : option t :=
  match p.(txs_by_sender) !! a with
  | Some n =>
      if p.(config).(AA2dPoolConfig.max_txs_per_sender) <=? n then None
      else Some (set_txs_by_sender (insert a (n + 1)) p)
  | None =>
      if p.(config).(AA2dPoolConfig.max_txs_per_sender) =? 0 then None
      else Some (set_txs_by_sender (insert a 1) p)
  end.
Definition remove_nonce_slot_entry (slot : U256) (expected : NonceSlotEntry) (p : t) : t :=
  match p.(slot_to_nonce_entry) !! slot with
  | Some e => if decide (e = expected) then set_slot_to_nonce_entry (delete slot) p else p
  | None => p
  end.
Definition next_id (p : t) : N * t :=
  (p.(submission_id), set_submission_id (λ n, (n + 1) mod USIZE) p).
Definition contains (hash : B256) (p : t) : bool := bool_decide (is_Some (p.(by_hash) !! hash)).

(** ** Removal *)

Definition remove_transaction_by_id (id : AA2dTransactionId) (p : t) : option TempoPooledTransaction.t * t :=
  match p.(by_id) !! id with
  | None => (None, p)
  | Some x =>
      let p := set_by_id (delete id) p in
      let p := set_txs_by_lane (decrement id.1) p in
      let p := remove_eviction_key x p in
      let p := match lane p.(by_id) id.1 0 with
        | [] => remove_nonce_slot_entry (nonce_key_slot (inner_tx x)) (Sequence id.1) p
        | _ => p
        end in
      let p := set_independent_transactions (independent_remove id.1 (Some id.2)) p in
      let p := set_by_hash (delete (tx_hash R (inner_tx x))) p in
      let p := remove_from_subpool (is_pending x) (size (inner_tx x)) p in
      let p := decrement_sender_count (inner_tx x).(TempoPooledTransaction.sender) p in
      (Some (inner_tx x), p)
  end.

(** The common end of the removals of an expiring nonce. *)
Definition remove_expiring_nonce_pending_tx (st : AA2dStoredTransaction.t) (p : t) : TempoPooledTransaction.t * t :=
  let tx := stored_tx st in
  let p := set_by_hash (delete (tx_hash R tx)) p in
  let p := remove_nonce_slot_entry (expiring_nonce_slot tx) (ExpiringNonce (tx_expiring_nonce_hash R tx)) p in
  let p := decrement_sender_count tx.(TempoPooledTransaction.sender) p in
  (tx, remove_from_subpool true (size tx) p).
Definition remove_expiring_nonce_tx (h : B256) (p : t) : option TempoPooledTransaction.t * t :=
  match p.(expiring_nonce_txs) !! h with
  | None => (None, p)
  | Some st =>
      let p := set_expiring_nonce_txs (delete h) p in
      let p := set_expiring_nonce_eviction_order (delete (eviction_key st p.(base_fee))) p in
      let '(tx, p) := remove_expiring_nonce_pending_tx st p in
      (Some tx, p)
  end.

(** The flag of one transaction moves, with its count, size and eviction key. *)
Definition demote_one (s : AASequenceId) (p : t) (n : N) : t :=
  match p.(by_id) !! (s, n) with
  | Some x =>
      let p := set_by_id (insert (s, n) (AA2dInternalTransaction.set_is_pending false x)) p in
      if is_pending x then
        let sz := Z.of_N (size (inner_tx x)) in
        let p := set_pending_count (λ c, usize_sub c 1) p in
        let p := set_queued_count (λ c, c + 1) p in
        let p := set_pending_size (λ z, (z - sz)%Z) p in
        let p := set_queued_size (λ z, (z + sz)%Z) p in
        let key := eviction_key (inner x) p.(base_fee) in
        let p := set_pending_eviction_order (delete key) p in
        set_queued_eviction_order (set_insert key (s, n)) p
      else p
  | None => p
  end.
Definition demote_from_nonce (s : AASequenceId) (min_nonce : N) (p : t) : t :=
  foldl (demote_one s) p (lane p.(by_id) s (min_nonce + 1)).
Definition demote_descendants (id : AA2dTransactionId) (p : t) : t := demote_from_nonce id.1 id.2 p.

Definition remove_transaction_by_hash_no_demote (hash : B256) (p : t)
    : option (TempoPooledTransaction.t * option AA2dTransactionId) * t :=
  match p.(by_hash) !! hash with
  | None => (None, p)
  | Some tx =>
      let p := set_by_hash (delete hash) p in
      if is_expiring_nonce tx then
        let '(r, p) := remove_expiring_nonce_tx (tx_expiring_nonce_hash R tx) p in
        ((λ tx, (tx, None)) <$> r, p)
      else
        let id := aa_transaction_id tx in
        let '(r, p) := remove_transaction_by_id id p in
        ((λ _, (tx, Some id)) <$> r, p)
  end.
Definition remove_transaction_by_hash (hash : B256) (p : t) : option TempoPooledTransaction.t * t :=
  let '(r, p) := remove_transaction_by_hash_no_demote hash p in
  match r with
  | Some (tx, Some id) => (Some tx, demote_descendants id p)
  | Some (tx, None) => (Some tx, p)
  | None => (None, p)
  end.

(** The least removed nonce per sequence. *)
Definition note_demotion (id : AA2dTransactionId) (m : gmap AASequenceId N) : gmap AASequenceId N :=
  match m !! id.1 with
  | Some n => if id.2 <? n then <[id.1 := id.2]> m else m
  | None => <[id.1 := id.2]> m
  end.
Fixpoint remove_hashes (hashes : list B256) (p : t) (demote : gmap AASequenceId N)
    : list TempoPooledTransaction.t * t * gmap AASequenceId N :=
  match hashes with
  | [] => ([], p, demote)
  | h :: hashes' =>
      let '(r, p) := remove_transaction_by_hash_no_demote h p in
      match r with
      | Some (tx, id) =>
          let demote := match id with Some id => note_demotion id demote | None => demote end in
          let '(txs, p, demote) := remove_hashes hashes' p demote in
          (tx :: txs, p, demote)
      | None => remove_hashes hashes' p demote
      end
  end.
Definition remove_transactions (hashes : list B256) (p : t) : list TempoPooledTransaction.t * t :=
  let '(txs, p, demote) := remove_hashes hashes p ∅ in
  (txs, foldl (λ p '(s, n), demote_from_nonce s n p) p (map_to_list demote)).

(** Each round removes the next descendant. *)
Fixpoint remove_descendants (fuel : nat) (id : AA2dTransactionId) (p : t) : list TempoPooledTransaction.t * t :=
  match fuel with
  | O => ([], p)
  | S fuel' =>
      match lane p.(by_id) id.1 (id.2 + 1) with
      | [] => ([], p)
      | n :: _ =>
          let '(r, p) := remove_transaction_by_id (id.1, n) p in
          let '(txs, p) := remove_descendants fuel' (id.1, n) p in
          (match r with Some tx => tx :: txs | None => txs end, p)
      end
  end.
Fixpoint remove_transactions_and_descendants (hashes : list B256) (p : t) : list TempoPooledTransaction.t * t :=
  match hashes with
  | [] => ([], p)
  | h :: hashes' =>
      let '(r, p) := remove_transaction_by_hash h p in
      match r with
      | Some tx =>
          let '(txs, p) := remove_descendants (base.size p.(by_id)) (aa_transaction_id tx) p in
          let '(txs', p) := remove_transactions_and_descendants hashes' p in
          (tx :: txs ++ txs', p)
      | None => remove_transactions_and_descendants hashes' p
      end
  end.

(** The order of [by_id]: address, nonce key, nonce. *)
Definition id_leb (a b : AA2dTransactionId) : bool :=
  let '((sa, ka), na) := a in let '((sb, kb), nb) := b in
  (sa <? sb) || ((sa =? sb) && ((ka <? kb) || ((ka =? kb) && (na <=? nb)))).
Definition id_le (x y : AA2dTransactionId * AA2dInternalTransaction.t) : Prop := id_leb x.1 y.1 = true.
#[export] Instance id_le_dec x y : Decision (id_le x y) := decide (id_leb x.1 y.1 = true).
Definition values_by_id (m : gmap AA2dTransactionId AA2dInternalTransaction.t) : list AA2dInternalTransaction.t :=
  (merge_sort id_le (map_to_list m)).*2.
Definition transactions_by_sender (a : Address) (p : t) : list TempoPooledTransaction.t :=
  let regular := filter (λ tx, tx.(TempoPooledTransaction.sender) = a) ((λ x, inner_tx x) <$> values_by_id p.(by_id)) in
  let expiring := filter (λ tx, tx.(TempoPooledTransaction.sender) = a)
    ((λ st, stored_tx st) <$> (map_to_list p.(expiring_nonce_txs)).*2) in
  regular ++ expiring.
Fixpoint remove_each (txs : list TempoPooledTransaction.t) (p : t) : list TempoPooledTransaction.t * t :=
  match txs with
  | [] => ([], p)
  | tx :: txs' =>
      let '(r, p) := if is_expiring_nonce tx then remove_expiring_nonce_tx (tx_expiring_nonce_hash R tx) p
                     else remove_transaction_by_id (aa_transaction_id tx) p in
      let '(out, p) := remove_each txs' p in
      (match r with Some tx => tx :: out | None => out end, p)
  end.
Definition remove_transactions_by_sender (a : Address) (p : t) : list TempoPooledTransaction.t * t :=
  remove_each (transactions_by_sender a p) p.

(** ** Eviction *)

Definition pending_exceeded (p : t) : bool :=
  is_exceeded R p.(config).(AA2dPoolConfig.pending_limit) p.(pending_count) (usize_of p.(pending_size)).
Definition queued_exceeded (p : t) : bool :=
  is_exceeded R p.(config).(AA2dPoolConfig.queued_limit) p.(queued_count) (usize_of p.(queued_size)).

Definition evict_2d_pending_tx (id : AA2dTransactionId) (p : t) : option TempoPooledTransaction.t * t :=
  let '(r, p) := remove_transaction_by_id id p in
  match r with
  | Some tx => (Some tx, demote_descendants id p)
  | None => (None, p)
  end.
Definition evict_worst_expiring_nonce_tx (p : t) : option TempoPooledTransaction.t * t :=
  match first p.(expiring_nonce_eviction_order) with
  | None => (None, p)
  | Some (key, tx) =>
      let p := set_expiring_nonce_eviction_order (delete key) p in
      match p.(expiring_nonce_txs) !! tx_expiring_nonce_hash R tx with
      | None => (None, p)
      | Some st =>
          let p := set_expiring_nonce_txs (delete (tx_expiring_nonce_hash R tx)) p in
          let '(tx, p) := remove_expiring_nonce_pending_tx st p in
          (Some tx, p)
      end
  end.
Definition evict_one_pending (p : t) : option TempoPooledTransaction.t * t :=
  match first p.(pending_eviction_order), first p.(expiring_nonce_eviction_order) with
  | Some (k2d, id), Some (kexp, _) =>
      let evict_expiring := match priority_cmp R kexp.1 k2d.1 with
        | Eq => match k2d.2 ?= kexp.2 with Gt => false | _ => true end
        | Lt => true
        | Gt => false
        end in
      if evict_expiring then evict_worst_expiring_nonce_tx p else evict_2d_pending_tx id p
  | Some (_, id), None => evict_2d_pending_tx id p
  | None, Some _ => evict_worst_expiring_nonce_tx p
  | None, None => (None, p)
  end.
Fixpoint evict_pending (fuel : nat) (p : t) : list TempoPooledTransaction.t * t :=
  match fuel with
  | O => ([], p)
  | S fuel' =>
      if pending_exceeded p then
        let '(r, p) := evict_one_pending p in
        match r with
        | Some tx => let '(txs, p) := evict_pending fuel' p in (tx :: txs, p)
        | None => ([], p)
        end
      else ([], p)
  end.
Fixpoint evict_queued (fuel : nat) (p : t) : list TempoPooledTransaction.t * t :=
  match fuel with
  | O => ([], p)
  | S fuel' =>
      if queued_exceeded p then
        match first p.(queued_eviction_order) with
        | None => ([], p)
        | Some (_, id) =>
            let '(r, p) := remove_transaction_by_id id p in
            match r with
            | Some tx => let '(txs, p) := evict_queued fuel' p in (tx :: txs, p)
            | None => ([], p)
            end
        end
      else ([], p)
  end.
Definition rounds (p : t) : nat := S (base.size p.(by_id) + base.size p.(expiring_nonce_txs)).
Definition evict_lowest_priority (pending : bool) (p : t) : list TempoPooledTransaction.t * t :=
  if pending then evict_pending (rounds p) p else evict_queued (rounds p) p.
Definition discard (p : t) : list TempoPooledTransaction.t * t :=
  let '(r1, p) := if queued_exceeded p then evict_lowest_priority false p else ([], p) in
  let '(r2, p) := if pending_exceeded p then evict_lowest_priority true p else ([], p) in
  let '(r3, p) := if queued_exceeded p then evict_lowest_priority false p else ([], p) in
  (r1 ++ r2 ++ r3, p).
(** ** Additions *)

Inductive PoolErrorKind :=
| AlreadyImported
| NonceNotConsistent (tx state : N)
| SpammerExceededCapacity (sender : Address)
| ReplacementUnderpriced.
Inductive AddedTransaction :=
| Pending (replaced : option TempoPooledTransaction.t) (promoted discarded : list TempoPooledTransaction.t)
| Parked (replaced : option TempoPooledTransaction.t).

(** The scan of the sequence from the nonce on chain: transactions up to the first gap
    become pending. It returns the pool with the flags set, the promoted transactions,
    whether the new one became pending, and the number and size of the newly pending. *)
Record scan := Scan {
  sc_pool : t;
  sc_promoted : list AA2dStoredTransaction.t;
  sc_inserted : bool;
  sc_count : N;
  sc_size : N
}.
Definition mark_pending (id : AA2dTransactionId) (x : AA2dInternalTransaction.t) (p : t) : t :=
  set_by_id (insert id (AA2dInternalTransaction.set_is_pending true x)) p.
Fixpoint scan_lane (tx_id : AA2dTransactionId) (next_nonce : N) (ns : list N) (sc : scan) : scan :=
  match ns with
  | [] => sc
  | n :: ns' =>
      if negb (n =? next_nonce) then sc
      else
        let next := saturating_add U64_MAX n 1 in
        match sc.(sc_pool).(by_id) !! (tx_id.1, n) with
        | None => sc
        | Some x =>
            let p := mark_pending (tx_id.1, n) x sc.(sc_pool) in
            let newly := if is_pending x then 0 else 1 in
            let newly_size := if is_pending x then 0 else size (inner_tx x) in
            match n ?= tx_id.2 with
            | Lt => scan_lane tx_id next ns' sc
            | Eq => scan_lane tx_id next ns'
                (Scan p sc.(sc_promoted) true (sc.(sc_count) + newly) (sc.(sc_size) + newly_size))
            | Gt =>
                if is_pending x then sc
                else scan_lane tx_id next ns'
                  (Scan p (sc.(sc_promoted) ++ [inner x]) sc.(sc_inserted) (sc.(sc_count) + newly)
                     (sc.(sc_size) + newly_size))
            end
        end
  end.
Definition promote_key (p : t) (st : AA2dStoredTransaction.t) : t :=
  let id := aa_transaction_id (stored_tx st) in
  let key := eviction_key st p.(base_fee) in
  set_pending_eviction_order (set_insert key id) (set_queued_eviction_order (delete key) p).

Definition record_2d_slot (tx : TempoPooledTransaction.t) (p : t) : t :=
  set_slot_to_nonce_entry (insert (nonce_key_slot tx) (Sequence (aa_transaction_id tx).1)) p.

(** The entry of [by_id] is replaced or filled, with counts; an error leaves the pool as
    it is, except for the submission id that was taken before. *)
Definition place_by_id (tx : TempoPooledTransaction.t) (x : AA2dInternalTransaction.t) (p : t)
    : PoolErrorKind + option AA2dInternalTransaction.t * t :=
  let tx_id := aa_transaction_id tx in
  match p.(by_id) !! tx_id with
  | Some old =>
      if is_replacement_underpriced R (inner_tx old) tx then inl ReplacementUnderpriced
      else
        let p := set_by_id (insert tx_id x) p in
        let p := remove_from_subpool (is_pending old) (size (inner_tx old)) p in
        inr (Some old, set_queued_count (λ n, n + 1) p)
  | None =>
      match accept_sender tx.(TempoPooledTransaction.sender) p with
      | None => inl (SpammerExceededCapacity tx.(TempoPooledTransaction.sender))
      | Some p =>
          let p := set_by_id (insert tx_id x) p in
          let p := set_txs_by_lane (λ m, <[tx_id.1 := m.[tx_id.1] + 1]> m) p in
          inr (None, set_queued_count (λ n, n + 1) p)
      end
  end.

Definition add_expiring_nonce_transaction (tx : TempoPooledTransaction.t) (p : t)
    : (PoolErrorKind + AddedTransaction) * t :=
  let h := tx_expiring_nonce_hash R tx in
  match p.(expiring_nonce_txs) !! h with
  | Some _ => (inl AlreadyImported, p)
  | None =>
      match accept_sender tx.(TempoPooledTransaction.sender) p with
      | None => (inl (SpammerExceededCapacity tx.(TempoPooledTransaction.sender)), p)
      | Some p =>
          let '(id, p) := next_id p in
          let st := AA2dStoredTransaction.mk id tx in
          let p := set_expiring_nonce_txs (insert h st) p in
          let p := set_expiring_nonce_eviction_order (set_insert (eviction_key st p.(base_fee)) tx) p in
          let p := set_slot_to_nonce_entry (insert (expiring_nonce_slot tx) (ExpiringNonce h)) p in
          let p := set_by_hash (insert (tx_hash R tx) tx) p in
          let p := set_pending_count (λ n, n + 1) p in
          let p := set_pending_size (λ z, (z + Z.of_N (size tx))%Z) p in
          let '(discarded, p) := discard p in
          (inr (Pending None [] discarded), p)
      end
  end.

Definition add_transaction (tx : TempoPooledTransaction.t) (on_chain_nonce : N) (hardfork : TempoHardfork) (p : t)
    : (PoolErrorKind + AddedTransaction) * t :=
  let tx_id := aa_transaction_id tx in
  if is_t1 hardfork && is_expiring_nonce tx then add_expiring_nonce_transaction tx p
  else if contains (tx_hash R tx) p then (inl AlreadyImported, p)
  else if tx.(TempoPooledTransaction.nonce) <? on_chain_nonce then
    (inl (NonceNotConsistent tx.(TempoPooledTransaction.nonce) on_chain_nonce), p)
  else if (p.(config).(AA2dPoolConfig.max_txs_per_lane) <=? p.(txs_by_lane).[tx_id.1]) && (on_chain_nonce <? tx_id.2)
  then (inl (SpammerExceededCapacity tx.(TempoPooledTransaction.sender)), p)
  else
    let '(id, p) := next_id p in
    let st := AA2dStoredTransaction.mk id tx in
    match place_by_id tx (AA2dInternalTransaction.mk st false) p with
    | inl e => (inl e, p)
    | inr (replaced, p) =>
        let p := set_queued_size (λ z, (z + Z.of_N (size tx))%Z) p in
        let p := if is_aa_2d tx then record_2d_slot tx p else p in
        let p := match replaced with
          | Some old => remove_eviction_key old (set_by_hash (delete (tx_hash R (inner_tx old))) p)
          | None => p
          end in
        let p := set_by_hash (insert (tx_hash R tx) tx) p in
        let sc := scan_lane tx_id on_chain_nonce (lane p.(by_id) tx_id.1 on_chain_nonce) (Scan p [] false 0 0) in
        let p := sc.(sc_pool) in
        let p := set_pending_count (λ n, n + sc.(sc_count)) p in
        let p := set_queued_count (λ n, usize_sub n sc.(sc_count)) p in
        let p := set_pending_size (λ z, (z + Z.of_N sc.(sc_size))%Z) p in
        let p := set_queued_size (λ z, (z - Z.of_N sc.(sc_size))%Z) p in
        let p := foldl promote_key p sc.(sc_promoted) in
        let key := eviction_key st p.(base_fee) in
        let replaced := (λ old, inner_tx old) <$> replaced in
        if sc.(sc_inserted) then
          let p := set_pending_eviction_order (set_insert key tx_id) p in
          let p := if tx_id.2 =? on_chain_nonce
                   then set_independent_transactions (independent_insert st) p else p in
          let '(discarded, p) := discard p in
          (inr (Pending replaced ((λ st, stored_tx st) <$> sc.(sc_promoted)) discarded), p)
        else
          let p := set_queued_eviction_order (set_insert key tx_id) p in
          let '(_, p) := discard p in
          (inr (Parked replaced), p)
    end.

(** ** Nonces on chain *)

(** The transactions of a sequence that were mined: the front of the range. *)
Fixpoint split_mined (on_chain_nonce : N) (ns : list N) : list N * list N :=
  match ns with
  | [] => ([], [])
  | n :: ns' =>
      if n <? on_chain_nonce then let '(mined, rest) := split_mined on_chain_nonce ns' in (n :: mined, rest)
      else ([], ns)
  end.

(** The rest of the sequence: pending up to the first gap, queued behind it. *)
Record sweep := Sweep {
  sw_pool : t;
  sw_promoted : list TempoPooledTransaction.t;
  sw_next : N;
  sw_pending : N;
  sw_queued : N;
  sw_pending_size : N;
  sw_queued_size : N
}.
Definition sweep_one (s : AASequenceId) (on_chain_nonce : N) (sw : sweep) (n : N) : sweep :=
  match sw.(sw_pool).(by_id) !! (s, n) with
  | None => sw
  | Some x =>
      let key := eviction_key (inner x) sw.(sw_pool).(base_fee) in
      if n =? sw.(sw_next) then
        let p := mark_pending (s, n) x sw.(sw_pool) in
        let '(p, promoted, c, sz) :=
          if is_pending x then (p, sw.(sw_promoted), sw.(sw_pending), sw.(sw_pending_size))
          else (set_pending_eviction_order (set_insert key (s, n)) (set_queued_eviction_order (delete key) p),
                sw.(sw_promoted) ++ [inner_tx x], sw.(sw_pending) + 1, sw.(sw_pending_size) + size (inner_tx x)) in
        let p := if n =? on_chain_nonce then set_independent_transactions (independent_insert (inner x)) p else p in
        Sweep p promoted (saturating_add U64_MAX sw.(sw_next) 1) c sw.(sw_queued) sz sw.(sw_queued_size)
      else
        let p := set_by_id (insert (s, n) (AA2dInternalTransaction.set_is_pending false x)) sw.(sw_pool) in
        if is_pending x then
          Sweep (set_queued_eviction_order (set_insert key (s, n)) (set_pending_eviction_order (delete key) p))
            sw.(sw_promoted) sw.(sw_next) sw.(sw_pending) (sw.(sw_queued) + 1) sw.(sw_pending_size)
            (sw.(sw_queued_size) + size (inner_tx x))
        else Sweep p sw.(sw_promoted) sw.(sw_next) sw.(sw_pending) sw.(sw_queued) sw.(sw_pending_size) sw.(sw_queued_size)
  end.
Definition change_nonce (s : AASequenceId) (on_chain_nonce : N) (p : t)
    : list TempoPooledTransaction.t * list AA2dTransactionId * t :=
  let '(mined, rest) := split_mined on_chain_nonce (lane p.(by_id) s 0) in
  let mined := (λ n, (s, n)) <$> mined in
  match rest with
  | [] => ([], mined, p)
  | _ =>
      let sw := foldl (sweep_one s on_chain_nonce) (Sweep p [] on_chain_nonce 0 0 0 0) rest in
      let p := sw.(sw_pool) in
      let p := set_pending_count (λ c, usize_sub (c + sw.(sw_pending)) sw.(sw_queued)) p in
      let p := set_queued_count (λ c, usize_sub c sw.(sw_pending) + sw.(sw_queued)) p in
      let p := set_pending_size (λ z, (z + Z.of_N sw.(sw_pending_size) - Z.of_N sw.(sw_queued_size))%Z) p in
      let p := set_queued_size (λ z, (z - Z.of_N sw.(sw_pending_size) + Z.of_N sw.(sw_queued_size))%Z) p in
      let p := if sw.(sw_next) =? on_chain_nonce
               then set_independent_transactions (independent_remove s None) p else p in
      (sw.(sw_promoted), mined, p)
  end.
Fixpoint change_nonces (changes : list (AASequenceId * N)) (p : t)
    : list TempoPooledTransaction.t * list AA2dTransactionId * t :=
  match changes with
  | [] => ([], [], p)
  | (s, n) :: changes' =>
      let '(promoted, mined, p) := change_nonce s n p in
      let '(promoted', mined', p) := change_nonces changes' p in
      (promoted ++ promoted', mined ++ mined', p)
  end.
Fixpoint remove_ids (ids : list AA2dTransactionId) (p : t) : list TempoPooledTransaction.t * t :=
  match ids with
  | [] => ([], p)
  | id :: ids' =>
      let '(r, p) := remove_transaction_by_id id p in
      let '(txs, p) := remove_ids ids' p in
      (match r with Some tx => tx :: txs | None => txs end, p)
  end.
Definition on_nonce_changes_iter (changes : list (AASequenceId * N)) (p : t)
    : list TempoPooledTransaction.t * list TempoPooledTransaction.t * t :=
  let '(promoted, mined_ids, p) := change_nonces changes p in
  let '(mined, p) := remove_ids mined_ids p in
  (promoted, mined, p).

(** The changed slots of the nonce manager, by what the pool tracks them for. *)
Definition note_slot (p : t) (acc : gmap AASequenceId N * list B256) (sv : U256 * U256) : gmap AASequenceId N * list B256 :=
  match p.(slot_to_nonce_entry) !! sv.1 with
  | Some (Sequence s) => (<[s := saturating_to U64_MAX sv.2]> acc.1, acc.2)
  | Some (ExpiringNonce h) => if sv.2 =? 0 then acc else (acc.1, acc.2 ++ [h])
  | None => acc
  end.
Fixpoint remove_included (hs : list B256) (p : t) : list TempoPooledTransaction.t * t :=
  match hs with
  | [] => ([], p)
  | h :: hs' =>
      let '(r, p) := remove_expiring_nonce_tx h p in
      let '(txs, p) := remove_included hs' p in
      (match r with Some tx => tx :: txs | None => txs end, p)
  end.
(** [storage]: the changed slots of the nonce manager, if its account changed. *)
Definition on_state_updates (storage : option (list (U256 * U256))) (p : t)
    : list TempoPooledTransaction.t * list TempoPooledTransaction.t * list TempoPooledTransaction.t * t :=
  match storage with
  | None => ([], [], [], p)
  | Some storage =>
      let '(changes, included) := foldl (note_slot p) (∅, []) storage in
      let '(promoted, mined, p) := on_nonce_changes_iter (map_to_list changes) p in
      let '(mined', p) := remove_included included p in
      let '(discarded, p) := discard p in
      (promoted, mined ++ mined', discarded, p)
  end.

(** ** Base fee *)

Definition rebuild_eviction_order (p : t) : t :=
  let bf := p.(base_fee) in
  let order (b : bool) := map_fold (λ id x m,
    if Bool.eqb (is_pending x) b then set_insert (eviction_key (inner x) bf) id m else m) ∅ p.(by_id) in
  set_expiring_nonce_eviction_order
    (λ _, map_fold (λ _ st m, set_insert (eviction_key st bf) (stored_tx st) m) ∅ p.(expiring_nonce_txs))
    (set_queued_eviction_order (λ _, order false) (set_pending_eviction_order (λ _, order true) p)).
Definition set_base_fee (bf : N) (p : t) : t :=
  if p.(base_fee) =? bf then p
  else
    let p := AA2dPool.set_base_fee (λ _, bf) p in
    let p := rebuild_eviction_order p in
    set_independent_transactions (on_new_base_fee bf) p.

Definition new (c : AA2dPoolConfig.t) : t :=
  mk 0 (IndependentTransactions.mk ∅ ∅ 0) ∅ ∅ ∅ ∅ ∅ c ∅ ∅ 0 ∅ ∅ 0 0 0 0.
End pool.
End Pool2d.
