(* ===== verification/Pool2dBest.v ===== *)
(** * The best transactions of the pool

    [BestAA2dTransactions] of [tt_2d_pool.rs], the iterator a block is built from: a
    snapshot of the executable transactions in order of priority that unlocks the next
    nonce of a sequence when one is taken, follows transactions that arrive meanwhile,
    and leaves out the sequences that were marked invalid. *)

From S2P Require Import Prelude Hardfork Address Bytes Pool2dState Pool2d.

Module Pool2dBest.
Import Pool2d BestAA2dTransactions.

Section best.
Context (R : Reth).

(** At another base fee than the pool's the orders are computed anew. *)
Definition best_transactions_with_base_fee (bf : N) (p : AA2dPool.t) : t :=
  let expiring := if bf =? p.(AA2dPool.base_fee) then p.(AA2dPool.expiring_nonce_eviction_order)
    else map_fold (λ _ st m, set_insert (eviction_key R st bf) (stored_tx st) m) ∅ p.(AA2dPool.expiring_nonce_txs) in
  mk (eviction_order_for R bf p.(AA2dPool.independent_transactions)) ((λ x, inner x) <$> p.(AA2dPool.by_id))
    expiring ∅ (Some []) None bf.
Definition best_transactions (p : AA2dPool.t) : t := best_transactions_with_base_fee p.(AA2dPool.base_fee) p.

(** [PendingTransaction]: transaction, priority and submission id. *)
Definition PendingTransaction : Type := TempoPooledTransaction.t * EvictionOrderKey.

Definition can_pay_base_fee (tx : TempoPooledTransaction.t) (bf : N) : bool :=
  bf <=? tx.(TempoPooledTransaction.max_fee_per_gas).

(** The sequence is gone from the order also when its transaction is missing. *)
Definition pop_best_regular (b : t) : option (AA2dTransactionId * PendingTransaction) * t :=
  match last R b.(independent) with
  | None => (None, b)
  | Some (key, id) =>
      let b := set_independent (delete key) b in
      match b.(by_id) !! id with
      | None => (None, b)
      | Some st => (Some (id, (stored_tx st, key)), set_by_id (delete id) b)
      end
  end.
Definition pop_best_expiring_nonce (b : t) : option PendingTransaction * t :=
  match last R b.(expiring_nonce_order) with
  | None => (None, b)
  | Some (key, tx) => (Some (tx, key), set_expiring_nonce_order (delete key) b)
  end.

Inductive PoppedAA2dTransaction :=
| Regular (id : AA2dTransactionId) (tx : PendingTransaction)
| Expiring (tx : PendingTransaction).
Definition pop_regular (b : t) : option PoppedAA2dTransaction * t :=
  let '(r, b) := pop_best_regular b in ((λ x, Regular x.1 x.2) <$> r, b).
Definition pop_expiring (b : t) : option PoppedAA2dTransaction * t :=
  let '(r, b) := pop_best_expiring_nonce b in (Expiring <$> r, b).
Definition pop_best (b : t) : option PoppedAA2dTransaction * t :=
  match last R b.(independent), last R b.(expiring_nonce_order) with
  | Some (regular, _), Some (expiring, _) =>
      let is_ge := match priority_cmp R regular.1 expiring.1 with
        | Eq => match expiring.2 ?= regular.2 with Lt => false | _ => true end
        | Lt => false
        | Gt => true
        end in
      if is_ge then pop_regular b else pop_expiring b
  | Some _, None => pop_regular b
  | None, Some _ => pop_expiring b
  | None, None => (None, b)
  end.

(** [try_recv]: the next arrival, and whether it may still be yielded in order. *)
Definition try_recv (b : t) : option (PendingTransaction * bool) * t :=
  match b.(new_transaction_receiver) with
  | Some (st :: rest) =>
      let b := set_new_transaction_receiver (λ _, Some rest) b in
      let key := eviction_key R st b.(base_fee) in
      let process := match b.(last_priority) with
        | Some lp => match priority_cmp R key.1 lp with Gt => false | _ => true end
        | None => true
        end in
      (Some ((stored_tx st, key), process), b)
  | _ => (None, b)
  end.
Definition add_incoming (tx : PendingTransaction) (process : bool) (b : t) : t :=
  if is_expiring_nonce tx.1 then
    if process && can_pay_base_fee tx.1 b.(base_fee) then set_expiring_nonce_order (set_insert tx.2 tx.1) b else b
  else
    let id := aa_transaction_id tx.1 in
    let previous := b.(by_id) !! id in
    let b := set_by_id (insert id (AA2dStoredTransaction.mk tx.2.2 tx.1)) b in
    let b := match previous with
      | Some st => set_independent (delete (eviction_key R st b.(base_fee))) b
      | None => b
      end in
    if process && (negb (bool_decide (is_Some (b.(by_id) !! (id.1, saturating_sub id.2 1)))) || (id.2 =? 0))
    then set_independent (insert tx.2 id) b else b.
Definition MAX_NEW_TRANSACTIONS_PER_BATCH : nat := 16.
Fixpoint add_new_transactions (n : nat) (b : t) : t :=
  match n with
  | O => b
  | S n' =>
      let '(r, b) := try_recv b in
      match r with
      | Some (tx, process) => add_new_transactions n' (add_incoming tx process b)
      | None => b
      end
  end.

(** Each round takes one transaction from the orders or an arrival from the receiver;
    with fuel for all of them the loop ends by itself. *)
Definition yield (tx : PendingTransaction) (b : t) : option PendingTransaction * t :=
  (Some tx, match b.(new_transaction_receiver) with Some _ => set_last_priority (λ _, Some tx.2.1) b | None => b end).
Fixpoint next_loop (fuel : nat) (b : t) : option PendingTransaction * t :=
  match fuel with
  | O => (None, b)
  | S fuel' =>
      let b := add_new_transactions MAX_NEW_TRANSACTIONS_PER_BATCH b in
      let '(r, b) := pop_best b in
      match r with
      | None => (None, b)
      | Some (Regular id tx) =>
          if bool_decide (id.1 ∈ b.(invalid)) then next_loop fuel' b
          else if negb (can_pay_base_fee tx.1 b.(base_fee)) then
            next_loop fuel' (set_invalid (λ i, {[id.1]} ∪ i) b)
          else
            let b := match b.(by_id) !! unlocks id with
              | Some st => set_independent (insert (eviction_key R st b.(base_fee)) (unlocks id)) b
              | None => b
              end in
            yield tx b
      | Some (Expiring tx) =>
          if negb (can_pay_base_fee tx.1 b.(base_fee)) then next_loop fuel' b else yield tx b
      end
  end.
Definition arrivals (b : t) : nat := match b.(new_transaction_receiver) with Some l => length l | None => 0 end.
Definition work (b : t) : nat := (base.size b.(by_id) + base.size b.(independent) + base.size b.(expiring_nonce_order) + 2 * arrivals b)%nat.
Definition next_tx_and_priority (b : t) : option PendingTransaction * t := next_loop (S (work b)) b.

Definition mark_invalid (tx : TempoPooledTransaction.t) (b : t) : t :=
  if is_expiring_nonce tx then b else set_invalid (λ i, {[(aa_transaction_id tx).1]} ∪ i) b.
Definition no_updates (b : t) : t := set_last_priority (λ _, None) (set_new_transaction_receiver (λ _, None) b).

(** All that is left, in the order it is yielded. *)
Fixpoint collect (fuel : nat) (b : t) : list PendingTransaction :=
  match fuel with
  | O => []
  | S fuel' =>
      match next_tx_and_priority b with
      | (Some tx, b) => tx :: collect fuel' b
      | (None, _) => []
      end
  end.
End best.
End Pool2dBest.
