(* ===== verification/Pool2dLib.v ===== *)
(** * Orders, lanes and sums of the pool

    What the library code of the pool is relied on for, and lemmas on the iterations of
    [Pool2d.v]: the lane of a sequence is its nonces in order, the first and the last
    entry of an order are its least and greatest, and sums over maps follow updates. *)

From stdpp Require Import sorting.
From S2P Require Import Prelude Hardfork Address Bytes Pool2dState Pool2d.

(** Documented behaviour of the libraries, and no collisions of hashes and slots. *)
Class LawfulReth (R : Reth) : Prop := {
  hash_inj :: Inj (=) (=) (tx_hash R);
  priority_cmp_eq x y : priority_cmp R x y = Eq ↔ x = y;
  priority_cmp_opp x y : priority_cmp R y x = CompOpp (priority_cmp R x y);
  priority_cmp_trans x y z : priority_cmp R x y = Lt → priority_cmp R y z = Lt → priority_cmp R x z = Lt;
  is_exceeded_spec l n sz : is_exceeded R l n sz = true ↔ l.(SubPoolLimit.max_txs) < n ∨ l.(SubPoolLimit.max_size) < sz;
  nonce_slot_inj a k a' k' : a ≤ ADDRESS_MAX → a' ≤ ADDRESS_MAX → k ≤ U256_MAX → k' ≤ U256_MAX →
    Pool2d.nonce_slot R (a, k) = Pool2d.nonce_slot R (a', k') → (a, k) = (a', k');
  seen_slot_inj tx tx' : Pool2d.seen_slot R (tx_expiring_nonce_hash R tx) = Pool2d.seen_slot R (tx_expiring_nonce_hash R tx') →
    tx_expiring_nonce_hash R tx = tx_expiring_nonce_hash R tx';
  slots_apart a k tx : a ≤ ADDRESS_MAX → k ≤ U256_MAX →
    Pool2d.nonce_slot R (a, k) ≠ Pool2d.seen_slot R (tx_expiring_nonce_hash R tx)
}.

(** ** Sums *)

Definition total `{Countable K} {V} (f : V → N) (m : gmap K V) : N := msum (f <$> m).
Section total.
Context `{Countable K} {V : Type}.
Implicit Types (f : V → N) (m : gmap K V).
Lemma total_empty f : total f (∅ : gmap K V) = 0.
Proof. unfold total. by rewrite fmap_empty, msum_empty. Qed.
Lemma total_insert_None f m k v : m !! k = None → total f (<[k := v]> m) = f v + total f m.
Proof. intros Hk. unfold total. rewrite fmap_insert. apply msum_insert_None. by rewrite lookup_fmap, Hk. Qed.
Lemma total_delete f m k v : m !! k = Some v → total f m = f v + total f (delete k m).
Proof. intros Hk. rewrite <- (insert_delete_id m k v Hk) at 1. apply total_insert_None, lookup_delete_eq. Qed.
Lemma total_replace f m k v v' : m !! k = Some v → total f (<[k := v']> m) + f v = total f m + f v'.
Proof.
  intros Hk. rewrite (total_delete f m k v Hk), <- insert_delete_eq, total_insert_None by apply lookup_delete_eq. lia.
Qed.
Lemma total_lookup_le f m k v : m !! k = Some v → f v ≤ total f m.
Proof. intros Hk. rewrite (total_delete f m k v Hk). lia. Qed.
Lemma total_bound f m b : (∀ k v, m !! k = Some v → f v ≤ b) → total f m ≤ b * N.of_nat (base.size m).
Proof.
  induction m as [|k v m Hk IH] using map_ind; intros Hf; [rewrite total_empty; lia|].
  rewrite total_insert_None, map_size_insert_None by done.
  assert (f v ≤ b) by (eapply Hf, lookup_insert_eq).
  assert (total f m ≤ b * N.of_nat (base.size m)); [|lia].
  apply IH. intros k' v' Hk'. eapply Hf. rewrite lookup_insert_ne; [done|]. intros ->. congruence.
Qed.
Lemma total_zero f m : (∀ k v, m !! k = Some v → f v = 0) → total f m = 0.
Proof. intros Hz. pose proof (total_bound f m 0) as Hb. apply N.le_0_r, Hb. intros k v Hk. by rewrite (Hz k v Hk). Qed.
Lemma total_add f g m : total (λ v, f v + g v) m = total f m + total g m.
Proof.
  induction m as [|k v m Hk IH] using map_ind; [by rewrite !total_empty|]. rewrite !total_insert_None by done. lia.
Qed.
Lemma total_one m : total (λ _, 1) m = N.of_nat (base.size m).
Proof.
  induction m as [|k v m Hk IH] using map_ind; [done|]. rewrite total_insert_None, map_size_insert_None by done. lia.
Qed.
Lemma total_mono f g m : (∀ v, f v ≤ g v) → total f m ≤ total g m.
Proof.
  intros Hf. induction m as [|k v m Hk IH] using map_ind; [by rewrite !total_empty|].
  rewrite !total_insert_None by done. specialize (Hf v). lia.
Qed.
Lemma total_subseteq f m m' : m ⊆ m' → total f m ≤ total f m'.
Proof.
  revert m'. induction m as [|k v m Hk IH] using map_ind; intros m' Hs; [rewrite total_empty; lia|].
  assert (m' !! k = Some v) as Hk' by (eapply lookup_weaken; [apply lookup_insert_eq|done]).
  rewrite total_insert_None, (total_delete f m' k v Hk') by done. apply N.add_le_mono_l, IH, map_subseteq_spec.
  intros j w Hj. assert (j ≠ k) by (intros ->; congruence). rewrite lookup_delete_ne by auto.
  eapply lookup_weaken; [|done]. by rewrite lookup_insert_ne by auto.
Qed.
End total.

(** ** Lanes *)

Section lanes.
Context {V : Type}.
Implicit Types (m : gmap AA2dTransactionId V) (s : AASequenceId).
#[local] Instance nle_total : Total N.le.
Proof. intros x y. lia. Qed.

Lemma lane_elem m s n k : k ∈ Pool2d.lane m s n ↔ is_Some (m !! (s, k)) ∧ n ≤ k.
Proof.
  unfold Pool2d.lane. rewrite merge_sort_Permutation, list_elem_of_omap. split.
  - intros ([[s' k'] v] & Hin & Hk). apply elem_of_map_to_list in Hin. cbn in Hk.
    destruct (bool_decide_reflect (s' = s)) as [->|]; [|done]. cbn in Hk.
    destruct (N.leb_spec n k'); [|done]. injection Hk as ->. by eauto.
  - intros [[v Hv] Hle]. exists ((s, k), v). split; [by apply elem_of_map_to_list|]. cbn.
    rewrite bool_decide_eq_true_2 by done. cbn. by rewrite (proj2 (N.leb_le _ _)).
Qed.
Lemma lane_NoDup m s n : NoDup (Pool2d.lane m s n).
Proof.
  unfold Pool2d.lane. rewrite merge_sort_Permutation. pose proof (NoDup_fst_map_to_list m) as Hnd. revert Hnd.
  generalize (map_to_list m). intros l. induction l as [|[[s' k'] v] l IH]; cbn; [constructor|].
  intros [Hni Hnd]%NoDup_cons. specialize (IH Hnd). destruct (bool_decide_reflect (s' = s)) as [->|]; [|done]. cbn.
  destruct (n <=? k'); [|done]. apply NoDup_cons. split; [|done]. intros ([[s'' k''] v''] & Hin & Hk)%list_elem_of_omap.
  apply Hni, list_elem_of_fmap. exists ((s'', k''), v''). split; [|done]. cbn in *.
  destruct (bool_decide_reflect (s'' = s)) as [->|]; [|done]. cbn in Hk. destruct (n <=? k''); [|done]. by injection Hk as ->.
Qed.
Lemma lane_sorted m s n : StronglySorted N.lt (Pool2d.lane m s n).
Proof.
  pose proof (lane_NoDup m s n) as Hnd. assert (StronglySorted N.le (Pool2d.lane m s n)) as Hs
    by (unfold Pool2d.lane; apply StronglySorted_merge_sort; [intros x y z; lia|apply _]).
  induction Hs as [|x l Hl IH Hx]; [constructor|]. apply NoDup_cons in Hnd as [Hni Hnd]. constructor; [by apply IH|].
  apply Forall_forall. intros y Hy. pose proof (proj1 (Forall_forall _ _) Hx y Hy) as Hle. assert (x ≠ y) by (intros ->; done). lia.
Qed.
Lemma lane_nil m s n : Pool2d.lane m s n = [] ↔ ∀ k, n ≤ k → m !! (s, k) = None.
Proof.
  split.
  - intros E k Hk. destruct (m !! (s, k)) eqn:Hm; [|done]. exfalso. apply (not_elem_of_nil k). rewrite <- E.
    apply lane_elem. eauto.
  - intros Hn. destruct (Pool2d.lane m s n) as [|k l] eqn:E; [done|]. exfalso.
    assert (k ∈ Pool2d.lane m s n) as [[v Hv] Hle]%lane_elem by (rewrite E; by left). by rewrite Hn in Hv.
Qed.
Lemma lane_head m s n k l :
  Pool2d.lane m s n = k :: l → is_Some (m !! (s, k)) ∧ n ≤ k ∧ ∀ j, n ≤ j → j < k → m !! (s, j) = None.
Proof.
  intros E. assert (k ∈ Pool2d.lane m s n) as [Hk Hle]%lane_elem by (rewrite E; left). split_and!; [done..|].
  intros j Hj Hlt. apply eq_None_not_Some. intros Hsome. assert (j ∈ Pool2d.lane m s n) as Hin by (apply lane_elem; auto).
  pose proof (lane_sorted m s n) as Hs. rewrite E in Hs, Hin. apply StronglySorted_inv in Hs as [_ Hs].
  apply elem_of_cons in Hin as [->|Hin]; [lia|]. pose proof (proj1 (Forall_forall _ _) Hs j Hin). cbn in *. lia.
Qed.
End lanes.

(** ** Orders *)

Section orders.
Context (R : Reth) `{!LawfulReth R} {V : Type}.
Implicit Types (k : EvictionOrderKey) (m : gmap EvictionOrderKey V).
Abbreviation cmp := (Pool2d.key_cmp R).
Lemma key_cmp_eq a b : cmp a b = Eq ↔ a = b.
Proof.
  destruct a as [p i], b as [q j]. unfold Pool2d.key_cmp. cbn.
  destruct (priority_cmp R p q) eqn:E; [|split; [done|]; intros [= <- <-]; by rewrite (proj2 (priority_cmp_eq p p)) in E..].
  apply priority_cmp_eq in E as ->. rewrite N.compare_eq_iff. split; [by intros ->|congruence].
Qed.
Lemma key_cmp_opp a b : cmp b a = CompOpp (cmp a b).
Proof.
  unfold Pool2d.key_cmp. rewrite (priority_cmp_opp a.1 b.1). destruct (priority_cmp R a.1 b.1); cbn; [|done..].
  apply N.compare_antisym.
Qed.
Lemma key_cmp_trans a b c : cmp a b ≠ Gt → cmp b c ≠ Gt → cmp a c ≠ Gt.
Proof.
  intros Hab Hbc. destruct (cmp a b) eqn:Eab; [apply key_cmp_eq in Eab as ->; done| |done].
  destruct (cmp b c) eqn:Ebc; [apply key_cmp_eq in Ebc as <-; congruence| |done].
  enough (cmp a c = Lt) by congruence. clear Hab Hbc. unfold Pool2d.key_cmp in *.
  destruct (priority_cmp R a.1 b.1) eqn:E1; [|clear Eab|done].
  - apply priority_cmp_eq in E1 as ->. destruct (priority_cmp R b.1 c.1); [|done..].
    rewrite N.compare_lt_iff in *. lia.
  - destruct (priority_cmp R b.1 c.1) eqn:E2; [|clear Ebc|done].
    + apply priority_cmp_eq in E2 as <-. by rewrite E1.
    + by rewrite (priority_cmp_trans _ _ _ E1 E2).
Qed.

(** The first entry is there and no entry is below it. *)
Lemma foldr_lower (l : list (EvictionOrderKey * V)) :
  match foldr (Pool2d.lower R) None l with
  | None => l = []
  | Some a => a ∈ l ∧ ∀ b, b ∈ l → cmp a.1 b.1 ≠ Gt
  end.
Proof.
  induction l as [|a l IH]; [done|]. cbn. destruct (foldr _ None l) as [b|]; cbn.
  - destruct IH as [Hb Hmin]. destruct (cmp a.1 b.1) eqn:E.
    1,2: split; [by left|]; intros c [->|Hc]%elem_of_cons; [by rewrite (proj2 (key_cmp_eq _ _))|];
      eapply key_cmp_trans; [|by apply Hmin]; congruence.
    split; [by right|]. intros c [->|Hc]%elem_of_cons; [|by apply Hmin]. rewrite key_cmp_opp, E. done.
  - subst l. split; [by left|]. intros c [->|[]%elem_of_nil]%elem_of_cons. by rewrite (proj2 (key_cmp_eq _ _)).
Qed.
Lemma first_None m : Pool2d.first R m = None ↔ m = ∅.
Proof.
  unfold Pool2d.first. pose proof (foldr_lower (map_to_list m)) as H. split.
  - intros E. rewrite E in H. by apply map_to_list_empty_iff.
  - intros ->. by rewrite map_to_list_empty.
Qed.
Lemma first_Some m k v :
  Pool2d.first R m = Some (k, v) → m !! k = Some v ∧ ∀ k' v', m !! k' = Some v' → cmp k k' ≠ Gt.
Proof.
  unfold Pool2d.first. pose proof (foldr_lower (map_to_list m)) as H. intros E. rewrite E in H. destruct H as [Hin Hmin].
  split; [by apply elem_of_map_to_list|]. intros k' v' Hk. apply (Hmin (k', v')). by apply elem_of_map_to_list.
Qed.
Lemma foldr_higher (l : list (EvictionOrderKey * V)) :
  match foldr (Pool2d.higher R) None l with
  | None => l = []
  | Some a => a ∈ l ∧ ∀ b, b ∈ l → cmp b.1 a.1 ≠ Gt
  end.
Proof.
  induction l as [|a l IH]; [done|]. cbn. destruct (foldr _ None l) as [b|]; cbn.
  - destruct IH as [Hb Hmax]. destruct (cmp a.1 b.1) eqn:E.
    2: { split; [by right|]. intros c [->|Hc]%elem_of_cons; [by rewrite E|by apply Hmax]. }
    all: split; [by left|]; intros c [->|Hc]%elem_of_cons; [by rewrite (proj2 (key_cmp_eq _ _))|];
      eapply key_cmp_trans; [by apply Hmax|]; rewrite key_cmp_opp, E; done.
  - subst l. split; [by left|]. intros c [->|[]%elem_of_nil]%elem_of_cons. by rewrite (proj2 (key_cmp_eq _ _)).
Qed.
Lemma last_None m : Pool2d.last R m = None ↔ m = ∅.
Proof.
  unfold Pool2d.last. pose proof (foldr_higher (map_to_list m)) as H. split.
  - intros E. rewrite E in H. by apply map_to_list_empty_iff.
  - intros ->. by rewrite map_to_list_empty.
Qed.
Lemma last_Some m k v :
  Pool2d.last R m = Some (k, v) → m !! k = Some v ∧ ∀ k' v', m !! k' = Some v' → cmp k' k ≠ Gt.
Proof.
  unfold Pool2d.last. pose proof (foldr_higher (map_to_list m)) as H. intros E. rewrite E in H. destruct H as [Hin Hmax].
  split; [by apply elem_of_map_to_list|]. intros k' v' Hk. apply (Hmax (k', v')). by apply elem_of_map_to_list.
Qed.
End orders.
