(* ===== verification/Pool2dInv.v ===== *)
(** * The tables of the pool

    The transactions of the pool are [by_id] and [expiring_nonce_txs]; every other table
    is determined by them. [tables_ok] says how, table by table, and the lemmas say how
    each table follows when a transaction comes, goes or changes between pending and
    queued. *)

From S2P Require Import Prelude Hardfork Address Bytes Pool2dState Pool2d Pool2dLib.

Module Pool2dInv.
Import AA2dPool Pool2d.

(** Ranges of the fields of a transaction with a nonce key. *)
Definition tx_ok (tx : TempoPooledTransaction.t) : Prop :=
  tx.(TempoPooledTransaction.sender) ≤ ADDRESS_MAX ∧ tx.(TempoPooledTransaction.nonce_key) ≤ U256_MAX ∧
  is_aa_2d tx = true ∧ tx.(TempoPooledTransaction.nonce) ≤ U64_MAX ∧ tx.(TempoPooledTransaction.size) < 2 ^ 32.
(** Submissions a pool of this model can count and measure without overflow. *)
Definition CAPACITY : N := 2 ^ 31.

Abbreviation Stored := AA2dStoredTransaction.t.
Abbreviation Internal := AA2dInternalTransaction.t.
Abbreviation sid st := (AA2dStoredTransaction.submission_id st).
(** The transactions without their flags. *)
Abbreviation stored m := (AA2dInternalTransaction.inner <$> m).

Abbreviation flag b x := (AA2dInternalTransaction.set_is_pending b x).

Section tables.
Context (R : Reth) `{!LawfulReth R}.
Implicit Types (T : gmap AA2dTransactionId Stored) (E : gmap B256 Stored) (M : gmap AA2dTransactionId Internal).

(** ** Tables that do not depend on the flags *)

Definition entries_ok T : Prop := ∀ id st, T !! id = Some st →
  id = aa_transaction_id (stored_tx st) ∧ tx_ok (stored_tx st) ∧ is_expiring_nonce (stored_tx st) = false.
Definition expiring_ok E : Prop := ∀ h st, E !! h = Some st →
  h = tx_expiring_nonce_hash R (stored_tx st) ∧ tx_ok (stored_tx st) ∧ is_expiring_nonce (stored_tx st) = true.
Definition below (next : N) `{Countable K} (m : gmap K Stored) : Prop := ∀ k st, m !! k = Some st → sid st < next.
Definition distinct `{Countable K} (m : gmap K Stored) : Prop :=
  ∀ k k' st st', m !! k = Some st → m !! k' = Some st' → sid st = sid st' → k = k'.
Definition hash_ok T E (ix : gmap B256 TempoPooledTransaction.t) : Prop := ∀ h tx,
  ix !! h = Some tx ↔ h = tx_hash R tx ∧
    ((∃ st, T !! aa_transaction_id tx = Some st ∧ stored_tx st = tx) ∨
     (∃ st, E !! tx_expiring_nonce_hash R tx = Some st ∧ stored_tx st = tx)).
Definition occupied T (s : AASequenceId) : Prop := ∃ n, is_Some (T !! (s, n)).
Definition slot_ok T E (ix : gmap U256 NonceSlotEntry) : Prop := ∀ slot e,
  ix !! slot = Some e ↔
    match e with
    | Sequence s => slot = nonce_slot R s ∧ occupied T s
    | ExpiringNonce h => slot = seen_slot R h ∧ is_Some (E !! h)
    end.
Definition of_sender (a : Address) (st : Stored) : N := if decide ((stored_tx st).(TempoPooledTransaction.sender) = a) then 1 else 0.
Definition of_lane (s : AASequenceId) (st : Stored) : N := if decide ((aa_transaction_id (stored_tx st)).1 = s) then 1 else 0.
(** A count that is zero has no entry. *)
Definition counts `{Countable K} (f : K → N) (m : gmap K N) : Prop := ∀ k, m.[k] = f k ∧ m !! k ≠ Some 0.
Definition expiring_order_ok E (bf : N) (ix : gmap EvictionOrderKey TempoPooledTransaction.t) : Prop := ∀ k tx,
  ix !! k = Some tx ↔
  ∃ st, E !! tx_expiring_nonce_hash R tx = Some st ∧ stored_tx st = tx ∧ k = eviction_key R st bf.

(** ** Tables of the pending and of the queued *)

Abbreviation selection := (AA2dTransactionId → Internal → bool).
Definition order_ok (sel : selection) M (bf : N) (ix : gmap EvictionOrderKey AA2dTransactionId) : Prop := ∀ k id,
  ix !! k = Some id ↔ ∃ x, M !! id = Some x ∧ sel id x = true ∧ k = eviction_key R (inner x) bf.
Definition one_pending (x : Internal) : N := if is_pending x then 1 else 0.
Definition one_queued (x : Internal) : N := if is_pending x then 0 else 1.
Definition size_pending (x : Internal) : N := if is_pending x then size (inner_tx x) else 0.
Definition size_queued (x : Internal) : N := if is_pending x then 0 else size (inner_tx x).
Definition stored_size (st : Stored) : N := size (stored_tx st).

(** ** The orders *)

Section order.
Context (M : gmap AA2dTransactionId Internal) (bf : N) (Hd : distinct (stored M)).
Implicit Types (sel : selection) (ix : gmap EvictionOrderKey AA2dTransactionId).
Lemma same_key id id' x x' :
  M !! id = Some x → M !! id' = Some x' → eviction_key R (inner x) bf = eviction_key R (inner x') bf → id = id' ∧ x = x'.
Proof.
  intros Hx Hx' [= _ E]. assert (id = id') as <-; [|split; [done|congruence]].
  by eapply Hd; [rewrite lookup_fmap, Hx|rewrite lookup_fmap, Hx'|].
Qed.
Lemma order_join sel sel' ix id x :
  M !! id = Some x → sel id x = false → sel' id x = true →
  (∀ id' x', id' ≠ id → M !! id' = Some x' → sel' id' x' = sel id' x') →
  order_ok sel M bf ix → order_ok sel' M bf (set_insert (eviction_key R (inner x) bf) id ix).
Proof.
  intros Hx Hs Hs' Hrest H k id'. unfold set_insert.
  assert (ix !! eviction_key R (inner x) bf = None) as ->.
  { destruct (ix !! _) as [id0|] eqn:E; [|done]. apply H in E as (x0 & Hx0 & Hs0 & Hk).
    destruct (same_key _ _ _ _ Hx Hx0 Hk) as [<- <-]. congruence. }
  rewrite lookup_insert_Some, (H k id'). split.
  - intros [[<- <-]|[Hne (x' & Hx' & Hsx & ->)]]; [by eauto|]. exists x'. split_and!; [done| |done].
    rewrite Hrest; [done| |done]. intros ->. congruence.
  - intros (x' & Hx' & Hsx & ->). destruct (decide (id' = id)) as [->|Hne]; [left; split; congruence|]. right. split.
    + intros E. by destruct (same_key _ _ _ _ Hx Hx' E) as [<- _].
    + exists x'. by rewrite <- Hrest.
Qed.
Lemma order_leave sel sel' ix id x :
  M !! id = Some x → sel id x = true → sel' id x = false →
  (∀ id' x', id' ≠ id → M !! id' = Some x' → sel' id' x' = sel id' x') →
  order_ok sel M bf ix → order_ok sel' M bf (delete (eviction_key R (inner x) bf) ix).
Proof.
  intros Hx Hs Hs' Hrest H k id'. rewrite lookup_delete_Some, (H k id'). split.
  - intros [Hne (x' & Hx' & Hsx & ->)]. exists x'. split_and!; [done| |done]. rewrite Hrest; [done| |done]. intros ->. congruence.
  - intros (x' & Hx' & Hsx & ->). assert (id' ≠ id) as Hne by (intros ->; congruence). split.
    + intros E. by destruct (same_key _ _ _ _ Hx Hx' E) as [<- _].
    + exists x'. by rewrite <- Hrest.
Qed.
Lemma order_absent sel ix id x :
  M !! id = Some x → sel id x = false → order_ok sel M bf ix → ix !! eviction_key R (inner x) bf = None.
Proof.
  intros Hx Hs H. destruct (ix !! _) as [id0|] eqn:E; [|done]. apply H in E as (x0 & Hx0 & Hs0 & Hk).
  destruct (same_key _ _ _ _ Hx Hx0 Hk) as [<- <-]. congruence.
Qed.
End order.
Lemma order_ext (sel sel' : selection) M M' bf ix :
  (∀ id k, (∃ x, M !! id = Some x ∧ sel id x = true ∧ k = eviction_key R (inner x) bf) ↔
           (∃ x, M' !! id = Some x ∧ sel' id x = true ∧ k = eviction_key R (inner x) bf)) →
  order_ok sel M bf ix → order_ok sel' M' bf ix.
Proof. intros He H k id. by rewrite (H k id), He. Qed.
Lemma order_sel_ext (sel sel' : selection) M bf ix :
  (∀ id x, M !! id = Some x → sel' id x = sel id x) → order_ok sel M bf ix → order_ok sel' M bf ix.
Proof. intros Hs. apply order_ext. intros id k. split; intros (x & Hx & Hsx & ->); exists x; (split; [done|]); rewrite Hs in *; done. Qed.
(** An entry outside the selection may change or go. *)
Lemma order_other (sel sel' : selection) M M' bf ix id :
  (∀ x, M !! id = Some x → sel id x = false) → (∀ x, M' !! id = Some x → sel' id x = false) →
  (∀ id', id' ≠ id → M' !! id' = M !! id') → (∀ id' x, id' ≠ id → M !! id' = Some x → sel' id' x = sel id' x) →
  order_ok sel M bf ix → order_ok sel' M' bf ix.
Proof.
  intros H1 H2 Hrest Hsel. apply order_ext. intros id' k. destruct (decide (id' = id)) as [->|Hne].
  - split; intros (x & Hx & Hs & _); [rewrite (H1 x Hx) in Hs|rewrite (H2 x Hx) in Hs]; done.
  - rewrite Hrest by done. split; intros (x & Hx & Hs & ->); exists x; (split; [done|]); (split; [|done]).
    + by rewrite Hsel.
    + by rewrite <- Hsel.
Qed.
(** A transaction goes, and with it its key where it was selected. *)
Lemma order_drop M bf (Hd : distinct (stored M)) id x (Hx : M !! id = Some x) (sel : selection) ix ix' :
  ix' = (if sel id x then delete (eviction_key R (inner x) bf) ix else ix) →
  order_ok sel M bf ix → order_ok sel (delete id M) bf ix'.
Proof.
  intros -> H. pose (sel' := λ id' x', bool_decide (id' ≠ id) && sel id' x'). apply (order_ext sel' sel M).
  - intros id' k. setoid_rewrite lookup_delete_Some. unfold sel'. split.
    + intros (y & Hy & [Hne%bool_decide_eq_true Hs]%andb_prop & ->). by eauto.
    + intros (y & [Hne Hy] & Hs & ->). exists y. by rewrite bool_decide_eq_true_2.
  - destruct (sel id x) eqn:Es.
    + apply (order_leave M bf Hd sel sel' ix id x); [done|done| | |].
      * unfold sel'. by rewrite bool_decide_eq_false_2 by auto.
      * intros id' x' Hne _. unfold sel'. by rewrite bool_decide_eq_true_2.
      * done.
    + apply (order_other sel sel' M M bf ix id); [| |done| |done].
      * intros y Hy. congruence.
      * intros y Hy. unfold sel'. by rewrite bool_decide_eq_false_2 by auto.
      * intros id' x' Hne _. unfold sel'. by rewrite bool_decide_eq_true_2.
Qed.
(** A transaction leaves or joins a selection as its flag changes. *)
Section flip.
Context (M : gmap AA2dTransactionId Internal) (bf : N) (Hd : distinct (stored M)).
Context (id : AA2dTransactionId) (x x' : Internal) (Hx : M !! id = Some x) (Hi : inner x' = inner x).
Implicit Types (sel : selection).
Lemma stored_flip : stored (<[id := x']> M) = stored M.
Proof. rewrite fmap_insert, insert_id; [done|]. by rewrite lookup_fmap, Hx, Hi. Qed.
Lemma order_flip_out sel ix :
  sel id x = true → sel id x' = false → order_ok sel M bf ix →
  order_ok sel (<[id := x']> M) bf (delete (eviction_key R (inner x) bf) ix).
Proof.
  intros Hs Hs' H. assert (order_ok sel (delete id M) bf (delete (eviction_key R (inner x) bf) ix)) as H'.
  { eapply (order_drop M bf Hd id x Hx); [|done]. by rewrite Hs. }
  revert H'. apply (order_other _ _ _ _ _ _ id); [by rewrite lookup_delete_eq| | |done].
  - intros y. rewrite lookup_insert_eq. by intros [= <-].
  - intros id' Hne. by rewrite lookup_insert_ne, lookup_delete_ne.
Qed.
Lemma order_flip_in sel ix :
  sel id x = false → sel id x' = true → order_ok sel M bf ix →
  order_ok sel (<[id := x']> M) bf (set_insert (eviction_key R (inner x) bf) id ix).
Proof.
  intros Hs Hs' H. rewrite <- Hi. eapply (order_join _ bf); [by rewrite stored_flip|apply lookup_insert_eq| |apply Hs'| |].
  - instantiate (1 := λ id' x', bool_decide (id' ≠ id) && sel id' x'). cbn. by rewrite bool_decide_eq_false_2 by auto.
  - intros id' y Hne _. cbn. by rewrite bool_decide_eq_true_2.
  - revert H. apply (order_other _ _ _ _ _ _ id).
    + intros y Hy. congruence.
    + intros y _. by rewrite bool_decide_eq_false_2 by auto.
    + intros id' Hne. by rewrite lookup_insert_ne.
    + intros id' y Hne _. by rewrite bool_decide_eq_true_2.
Qed.
End flip.
Lemma weights_pending x : is_pending x = true →
  one_pending x = 1 ∧ one_queued x = 0 ∧ size_pending x = size (inner_tx x) ∧ size_queued x = 0.
Proof. intros Hp. unfold one_pending, one_queued, size_pending, size_queued. by rewrite Hp. Qed.
Lemma weights_queued x : is_pending x = false →
  one_pending x = 0 ∧ one_queued x = 1 ∧ size_pending x = 0 ∧ size_queued x = size (inner_tx x).
Proof. intros Hp. unfold one_pending, one_queued, size_pending, size_queued. by rewrite Hp. Qed.
Lemma totals_demote M id x : M !! id = Some x → is_pending x = true →
  total one_pending M = total one_pending (<[id := flag false x]> M) + 1 ∧
  total one_queued (<[id := flag false x]> M) = total one_queued M + 1 ∧
  total size_pending M = total size_pending (<[id := flag false x]> M) + size (inner_tx x) ∧
  total size_queued (<[id := flag false x]> M) = total size_queued M + size (inner_tx x).
Proof.
  intros Hx Hp. pose proof (λ f, total_replace f M id x (flag false x) Hx) as Hr.
  pose proof (Hr one_pending). pose proof (Hr one_queued). pose proof (Hr size_pending). pose proof (Hr size_queued).
  destruct (weights_pending _ Hp) as (? & ? & ? & ?). destruct (weights_queued (flag false x) eq_refl) as (? & ? & ? & E').
  change (size (inner_tx (flag false x))) with (size (inner_tx x)) in E'. lia.
Qed.
Lemma totals_promote M id x : M !! id = Some x → is_pending x = false →
  total one_pending (<[id := flag true x]> M) = total one_pending M + 1 ∧
  total one_queued M = total one_queued (<[id := flag true x]> M) + 1 ∧
  total size_pending (<[id := flag true x]> M) = total size_pending M + size (inner_tx x) ∧
  total size_queued M = total size_queued (<[id := flag true x]> M) + size (inner_tx x).
Proof.
  intros Hx Hp. pose proof (λ f, total_replace f M id x (flag true x) Hx) as Hr.
  pose proof (Hr one_pending). pose proof (Hr one_queued). pose proof (Hr size_pending). pose proof (Hr size_queued).
  destruct (weights_queued _ Hp) as (? & ? & ? & ?). destruct (weights_pending (flag true x) eq_refl) as (? & ? & E' & ?).
  change (size (inner_tx (flag true x))) with (size (inner_tx x)) in E'. lia.
Qed.

(** ** The other tables *)

Lemma usize_pred n : 1 ≤ n → n ≤ USIZE → usize_sub n 1 = n - 1.
Proof.
  intros Hn Hm. unfold usize_sub. replace (n + USIZE - 1) with (n - 1 + 1 * USIZE) by (unfold USIZE in *; lia).
  rewrite N.Div0.mod_add. apply N.mod_small. lia.
Qed.
Lemma usize_minus n k : k ≤ n → n < USIZE → usize_sub n k = n - k.
Proof.
  intros Hn Hm. unfold usize_sub. replace (n + USIZE - k) with (n - k + 1 * USIZE) by (unfold USIZE in *; lia).
  rewrite N.Div0.mod_add. apply N.mod_small. lia.
Qed.
Lemma counts_decr `{Countable K} (f f' : K → N) (m : gmap K N) k :
  counts f m → f k = f' k + 1 → f k ≤ USIZE → (∀ k', k' ≠ k → f' k' = f k') → counts f' (decrement k m).
Proof.
  intros Hc Hk Hmax Hrest k'. assert (m !! k = Some (f k)) as Hm.
  { destruct (Hc k) as [E _]. unfold sread in E. destruct (m !! k); cbn in E; [by subst|]. change (0 = f k) in E. lia. }
  unfold decrement. rewrite Hm, usize_pred by lia. destruct (Hc k') as [E' Hz'].
  destruct (N.eqb_spec (f k - 1) 0) as [Ez|Ez].
  - rewrite sread_delete, lookup_delete. case_decide as Hd; [subst k'; split; [lia|done]|]. by rewrite Hrest.
  - rewrite sread_insert, lookup_insert. case_decide as Hd; [subst k'|by rewrite Hrest].
    split; [lia|]. intros [= Ez']. lia.
Qed.
Lemma counts_incr `{Countable K} (f f' : K → N) (m : gmap K N) k n :
  counts f m → n = f' k → f' k = f k + 1 → (∀ k', k' ≠ k → f' k' = f k') → counts f' (<[k := n]> m).
Proof.
  intros Hc -> Hk Hrest k'. destruct (Hc k') as [E Hz]. rewrite sread_insert. destruct (decide (k = k')) as [<-|Hne].
  - split; [done|]. rewrite lookup_insert_eq. intros [= Ez]. lia.
  - rewrite lookup_insert_ne, Hrest by done. done.
Qed.

Section static.
Context (T : gmap AA2dTransactionId Stored) (E : gmap B256 Stored).
Context (HT : entries_ok T) (HE : expiring_ok E).

Lemma not_both st st' tx : T !! aa_transaction_id tx = Some st → E !! tx_expiring_nonce_hash R tx = Some st' →
  stored_tx st = tx → stored_tx st' = tx → False.
Proof. intros H1 H2 E1 E2. apply HT in H1 as (_ & _ & H1). apply HE in H2 as (_ & _ & H2). congruence. Qed.

Lemma hash_insert ix st :
  T !! aa_transaction_id (stored_tx st) = None → is_expiring_nonce (stored_tx st) = false → hash_ok T E ix →
  hash_ok (<[aa_transaction_id (stored_tx st) := st]> T) E (<[tx_hash R (stored_tx st) := stored_tx st]> ix).
Proof.
  intros Hn He H h tx. rewrite lookup_insert_Some, (H h tx). split.
  - intros [[<- <-]|[Hne [-> Hd]]].
    + split; [done|]. left. exists st. by rewrite lookup_insert_eq.
    + split; [done|]. destruct Hd as [(st' & Hst' & E')|Hd]; [left|by right]. exists st'. split; [|done].
      rewrite lookup_insert_ne; [done|]. intros Eq. by rewrite <- Eq, Hn in Hst'.
  - intros [-> Hd]. destruct (decide (stored_tx st = tx)) as [->|Hne]; [by left|]. right.
    split; [intros Eq; by apply (inj (tx_hash R)) in Eq|]. split; [done|]. destruct Hd as [(st' & Hst' & E')|Hd]; [left|by right].
    exists st'. apply lookup_insert_Some in Hst' as [[_ ->]|[_ Hst']]; [done|]. done.
Qed.
Lemma hash_delete ix id st :
  T !! id = Some st → hash_ok T E ix → hash_ok (delete id T) E (delete (tx_hash R (stored_tx st)) ix).
Proof.
  intros Hst H h tx. pose proof (HT _ _ Hst) as (-> & _ & He). rewrite lookup_delete_Some, (H h tx). split.
  - intros [Hne [-> Hd]]. split; [done|]. destruct Hd as [(st' & Hst' & E')|Hd]; [left|by right]. exists st'. split; [|done].
    rewrite lookup_delete_ne; [done|]. intros Eq. rewrite <- Eq, Hst in Hst'. injection Hst' as <-. by rewrite E' in Hne.
  - intros [-> Hd]. split.
    + intros Eq. apply (inj (tx_hash R)) in Eq. subst tx. destruct Hd as [(st' & Hst' & _)|(st' & Hst' & E')].
      * by rewrite lookup_delete_eq in Hst'.
      * by eapply (not_both st st' (stored_tx st)).
    + split; [done|]. destruct Hd as [(st' & Hst' & E')|Hd]; [left|by right]. exists st'.
      by apply lookup_delete_Some in Hst' as [_ Hst'].
Qed.
Lemma hash_insert_expiring ix st :
  E !! tx_expiring_nonce_hash R (stored_tx st) = None → hash_ok T E ix →
  hash_ok T (<[tx_expiring_nonce_hash R (stored_tx st) := st]> E) (<[tx_hash R (stored_tx st) := stored_tx st]> ix).
Proof.
  intros Hn H h tx. rewrite lookup_insert_Some, (H h tx). split.
  - intros [[<- <-]|[Hne [-> Hd]]].
    + split; [done|]. right. exists st. by rewrite lookup_insert_eq.
    + split; [done|]. destruct Hd as [Hd|(st' & Hst' & E')]; [by left|right]. exists st'. split; [|done].
      rewrite lookup_insert_ne; [done|]. intros Eq. by rewrite <- Eq, Hn in Hst'.
  - intros [-> Hd]. destruct (decide (stored_tx st = tx)) as [->|Hne]; [by left|]. right.
    split; [intros Eq; by apply (inj (tx_hash R)) in Eq|]. split; [done|]. destruct Hd as [Hd|(st' & Hst' & E')]; [by left|right].
    exists st'. apply lookup_insert_Some in Hst' as [[_ ->]|[_ Hst']]; done.
Qed.
Lemma hash_delete_expiring ix h st :
  E !! h = Some st → hash_ok T E ix → hash_ok T (delete h E) (delete (tx_hash R (stored_tx st)) ix).
Proof.
  intros Hst H k tx. pose proof (HE _ _ Hst) as (-> & _ & He). rewrite lookup_delete_Some, (H k tx). split.
  - intros [Hne [-> Hd]]. split; [done|]. destruct Hd as [Hd|(st' & Hst' & E')]; [by left|right]. exists st'. split; [|done].
    rewrite lookup_delete_ne; [done|]. intros Eq. rewrite <- Eq, Hst in Hst'. injection Hst' as <-. by rewrite E' in Hne.
  - intros [-> Hd]. split.
    + intros Eq. apply (inj (tx_hash R)) in Eq. subst tx. destruct Hd as [(st' & Hst' & E')|(st' & Hst' & _)].
      * by eapply (not_both st' st (stored_tx st)).
      * by rewrite lookup_delete_eq in Hst'.
    + split; [done|]. destruct Hd as [Hd|(st' & Hst' & E')]; [by left|right]. exists st'.
      by apply lookup_delete_Some in Hst' as [_ Hst'].
Qed.

(** *** Slots *)

Lemma occupied_range s : occupied T s → s.1 ≤ ADDRESS_MAX ∧ s.2 ≤ U256_MAX.
Proof. intros (n & st & Hst). apply HT in Hst as (E1 & (H1 & H2 & _) & _). injection E1 as -> _. done. Qed.
Lemma slot_is (s s' : AASequenceId) :
  s.1 ≤ ADDRESS_MAX ∧ s.2 ≤ U256_MAX → s'.1 ≤ ADDRESS_MAX ∧ s'.2 ≤ U256_MAX → nonce_slot R s = nonce_slot R s' → s = s'.
Proof. destruct s, s'. cbn. intros [] []. by apply nonce_slot_inj. Qed.
Lemma slot_not_seen (s : AASequenceId) h st : s.1 ≤ ADDRESS_MAX ∧ s.2 ≤ U256_MAX → E !! h = Some st → nonce_slot R s ≠ seen_slot R h.
Proof. destruct s. cbn. intros [] Hst. apply HE in Hst as [-> _]. by apply slots_apart. Qed.
Lemma seen_is h h' st st' : E !! h = Some st → h' = tx_expiring_nonce_hash R (stored_tx st') → seen_slot R h = seen_slot R h' → h = h'.
Proof. intros Hst ->. apply HE in Hst as [-> _]. apply seen_slot_inj. Qed.

(** The lane of [id] has an entry now; the slot may be recorded already. *)
Lemma slot_insert ix T' (id : AA2dTransactionId) st :
  T' = <[id := st]> T → id.1.1 ≤ ADDRESS_MAX ∧ id.1.2 ≤ U256_MAX → slot_ok T E ix →
  slot_ok T' E (<[nonce_slot R id.1 := Sequence id.1]> ix).
Proof.
  intros -> Hr H slot e. rewrite lookup_insert_Some, (H slot e). split.
  - intros [[<- <-]|[Hne He]].
    + split; [done|]. exists id.2. rewrite <- surjective_pairing, lookup_insert_eq. by eexists.
    + destruct e as [s|h]; [|done]. destruct He as [-> (n & Hn)]. split; [done|]. exists n.
      destruct (decide ((s, n) = id)) as [<-|]; [rewrite lookup_insert_eq; by eexists|by rewrite lookup_insert_ne].
  - destruct e as [s|h].
    + intros [-> (n & Hn)]. destruct (decide (s = id.1)) as [->|Hs]; [by left|]. right.
      assert (occupied T s) as Ho by (exists n; by rewrite lookup_insert_ne in Hn by (intros ?; subst; done)).
      split; [|done]. intros Eq. by apply slot_is in Eq; [|done|apply occupied_range].
    + intros [-> [st' Hst']]. right. split; [|by eauto]. by eapply slot_not_seen.
Qed.
Lemma slot_delete_kept ix id : occupied (delete id T) id.1 → slot_ok T E ix → slot_ok (delete id T) E ix.
Proof.
  intros Ho H slot e. rewrite (H slot e). destruct e as [s|h]; [|done]. split; intros [-> (n & Hn)]; (split; [done|]).
  - destruct (decide (s = id.1)) as [->|]; [done|]. exists n. rewrite lookup_delete_ne; [done|]. intros ->. done.
  - exists n. destruct Hn as [st Hst]. apply lookup_delete_Some in Hst as [_ Hst]. by eexists.
Qed.
Lemma slot_delete_last ix id st :
  T !! id = Some st → ¬ occupied (delete id T) id.1 → slot_ok T E ix →
  ix !! nonce_slot R id.1 = Some (Sequence id.1) ∧ slot_ok (delete id T) E (delete (nonce_slot R id.1) ix).
Proof.
  intros Hst Ho H. assert (occupied T id.1) as Hocc by (exists id.2; rewrite <- surjective_pairing, Hst; by eexists).
  split; [by apply (H _ (Sequence id.1))|]. intros slot e. rewrite lookup_delete_Some, (H slot e). destruct e as [s|h].
  - split.
    + intros [Hne [-> (n & Hn)]]. split; [done|]. exists n. rewrite lookup_delete_ne; [done|]. intros ?; subst; done.
    + intros [-> Hs]. assert (occupied T s) as Hs' by (destruct Hs as (n & x & [_ Hx]%lookup_delete_Some); by exists n, x).
      split; [|done]. intros Eq. apply slot_is in Eq; [by subst|by apply occupied_range..].
  - split; [by intros [_ ?]|]. intros [-> [st' Hst']]. split; [|by eauto].
    eapply slot_not_seen; [by apply occupied_range|done].
Qed.
Lemma slot_insert_expiring ix st :
  slot_ok T E ix → slot_ok T (<[tx_expiring_nonce_hash R (stored_tx st) := st]> E)
    (<[expiring_nonce_slot R (stored_tx st) := ExpiringNonce (tx_expiring_nonce_hash R (stored_tx st))]> ix).
Proof.
  intros H slot e. unfold expiring_nonce_slot. rewrite lookup_insert_Some, (H slot e). split.
  - intros [[<- <-]|[Hne He]]; [split; [done|]; rewrite lookup_insert_eq; by eexists|].
    destruct e as [s|h]; [done|]. destruct He as [-> Hh]. split; [done|]. apply lookup_insert_is_Some'. by right.
  - destruct e as [s|h].
    + intros [-> Ho]. right. split; [|done]. pose proof (occupied_range _ Ho) as [H1 H2]. destruct s. intros Eq. by eapply slots_apart.
    + intros [-> Hh]. destruct (decide (h = tx_expiring_nonce_hash R (stored_tx st))) as [->|Hne]; [by left|]. right.
      rewrite lookup_insert_ne in Hh by done. split; [|done]. destruct Hh as [st' Hst']. intros Eq.
      by apply Hne, (seen_is _ _ _ st Hst').
Qed.
Lemma slot_delete_expiring ix h st :
  E !! h = Some st → slot_ok T E ix →
  ix !! seen_slot R h = Some (ExpiringNonce h) ∧ slot_ok T (delete h E) (delete (seen_slot R h) ix).
Proof.
  intros Hst H. split; [apply (H _ (ExpiringNonce h)); by eauto|]. intros slot e. rewrite lookup_delete_Some, (H slot e).
  destruct e as [s|h'].
  - split; [by intros [_ ?]|]. intros [-> Ho]. split; [|done]. intros Eq. symmetry in Eq. revert Eq.
    eapply slot_not_seen; [by apply occupied_range|done].
  - split.
    + intros [Hne [-> Hh]]. split; [done|]. rewrite lookup_delete_ne; [done|]. by intros ->.
    + intros [-> Hh]. destruct (decide (h' = h)) as [->|Hne]; [by rewrite lookup_delete_eq in Hh; destruct Hh|].
      rewrite lookup_delete_ne in Hh by done. split; [|done]. destruct Hh as [st' Hst']. intros Eq.
      apply Hne. symmetry. eapply (seen_is h h' st st'); [done| |done]. by apply HE in Hst' as [-> _].
Qed.

(** *** Orders of the expiring *)

Lemma expiring_join bf ix st :
  E !! tx_expiring_nonce_hash R (stored_tx st) = None → (∀ h st', E !! h = Some st' → sid st' ≠ sid st) →
  expiring_order_ok E bf ix →
  expiring_order_ok (<[tx_expiring_nonce_hash R (stored_tx st) := st]> E) bf (set_insert (eviction_key R st bf) (stored_tx st) ix).
Proof.
  intros Hn Hf H k tx. unfold set_insert. assert (ix !! eviction_key R st bf = None) as ->.
  { destruct (ix !! _) as [tx0|] eqn:E0; [|done]. apply H in E0 as (st0 & Hst0 & _ & Hk). injection Hk as _ Hk. by apply Hf in Hst0. }
  rewrite lookup_insert_Some, (H k tx). split.
  - intros [[<- <-]|[Hne (st' & Hst' & E' & ->)]]; [exists st; by rewrite lookup_insert_eq|].
    exists st'. split; [|done]. rewrite lookup_insert_ne; [done|]. intros Eq. by rewrite <- Eq, Hn in Hst'.
  - intros (st' & Hst' & E' & ->). apply lookup_insert_Some in Hst' as [[_ <-]|[Hne Hst']]; [by left|]. right.
    split; [|by eauto]. intros Eq. injection Eq as _ Eq. by apply Hf in Hst'.
Qed.
Lemma expiring_leave bf ix h st :
  E !! h = Some st → distinct E → expiring_order_ok E bf ix →
  expiring_order_ok (delete h E) bf (delete (eviction_key R st bf) ix).
Proof.
  intros Hst Hd H k tx. rewrite lookup_delete_Some, (H k tx). split.
  - intros [Hne (st' & Hst' & E' & ->)]. exists st'. split; [|done]. rewrite lookup_delete_ne; [done|]. intros Eq.
    rewrite <- Eq, Hst in Hst'. by injection Hst' as ->.
  - intros (st' & [Hne Hst']%lookup_delete_Some & E' & ->). split; [|by eauto]. intros Eq. injection Eq as _ Eq.
    by apply Hne, (Hd _ _ st st').
Qed.
End static.

(** ** All tables *)

Record static_ok (p : t) : Prop := StaticOk {
  st_entries : entries_ok (stored p.(by_id));
  st_expiring : expiring_ok p.(expiring_nonce_txs);
  st_below : below p.(submission_id) (stored p.(by_id));
  st_below_expiring : below p.(submission_id) p.(expiring_nonce_txs);
  st_distinct : distinct (stored p.(by_id));
  st_distinct_expiring : distinct p.(expiring_nonce_txs);
  st_hash : hash_ok (stored p.(by_id)) p.(expiring_nonce_txs) p.(by_hash);
  st_slots : slot_ok (stored p.(by_id)) p.(expiring_nonce_txs) p.(slot_to_nonce_entry);
  st_sender : counts (λ a, total (of_sender a) (stored p.(by_id)) + total (of_sender a) p.(expiring_nonce_txs)) p.(txs_by_sender);
  st_lane : counts (λ s, total (of_lane s) (stored p.(by_id))) p.(txs_by_lane);
  st_expiring_order : expiring_order_ok p.(expiring_nonce_txs) p.(base_fee) p.(expiring_nonce_eviction_order);
  st_room : N.of_nat (base.size p.(by_id)) + N.of_nat (base.size p.(expiring_nonce_txs)) ≤ p.(submission_id);
  st_capacity : p.(submission_id) ≤ CAPACITY
}.
Record sums_ok (p : t) : Prop := SumsOk {
  sm_pending : p.(pending_count) = total one_pending p.(by_id) + N.of_nat (base.size p.(expiring_nonce_txs));
  sm_queued : p.(queued_count) = total one_queued p.(by_id);
  sm_pending_size : p.(pending_size) = Z.of_N (total size_pending p.(by_id) + total stored_size p.(expiring_nonce_txs));
  sm_queued_size : p.(queued_size) = Z.of_N (total size_queued p.(by_id))
}.
Definition pending_sel : selection := λ _ x, is_pending x.
Definition queued_sel : selection := λ _ x, negb (is_pending x).
Record tables_ok (p : t) : Prop := TablesOk {
  tb_static : static_ok p;
  tb_pending : order_ok pending_sel p.(by_id) p.(base_fee) p.(pending_eviction_order);
  tb_queued : order_ok queued_sel p.(by_id) p.(base_fee) p.(queued_eviction_order);
  tb_sums : sums_ok p
}.
End tables.
End Pool2dInv.
