(* ===== verification/Pool2dSteps.v ===== *)
(** * Steps of the pool

    Every operation of the pool keeps its tables. *)

From S2P Require Import Prelude Hardfork Address Bytes Pool2dState Pool2d Pool2dLib Pool2dInv.

Module Pool2dSteps.
Import AA2dPool Pool2d Pool2dInv.

(** The entry of a slot is there or not, and the expected one or not. *)
Ltac slot_cases := cbn;
  repeat match goal with
  | |- context [match slot_to_nonce_entry ?p !! ?k with _ => _ end] => destruct (slot_to_nonce_entry p !! k); cbn
  | |- context [decide ?P] => destruct (decide P); cbn
  end.


Section steps.
Context (R : Reth) `{!LawfulReth R}.
Abbreviation ok := (tables_ok R).

(** ** Removal *)

(** What a step leaves alone. *)
Record keeps (p p' : t) : Prop := Keeps {
  kp_config : p'.(config) = p.(config);
  kp_base_fee : p'.(base_fee) = p.(base_fee);
  kp_next : p'.(submission_id) = p.(submission_id)
}.
#[global] Instance keeps_preorder : PreOrder keeps.
Proof. split; [by split|]. intros p q r [] []. split; congruence. Qed.

(** Two pools with the same transactions and tables, but for flags. *)
Record same_static (p p' : t) : Prop := SameStatic {
  ss_by_id : stored p'.(by_id) = stored p.(by_id);
  ss_expiring : p'.(expiring_nonce_txs) = p.(expiring_nonce_txs);
  ss_hash : p'.(by_hash) = p.(by_hash);
  ss_slots : p'.(slot_to_nonce_entry) = p.(slot_to_nonce_entry);
  ss_sender : p'.(txs_by_sender) = p.(txs_by_sender);
  ss_lane : p'.(txs_by_lane) = p.(txs_by_lane);
  ss_expiring_order : p'.(expiring_nonce_eviction_order) = p.(expiring_nonce_eviction_order);
  ss_keeps : keeps p p'
}.
#[global] Instance same_static_preorder : PreOrder same_static.
Proof.
  split; [by split|]. intros p q r [] []. split; try congruence. by etrans.
Qed.
Lemma same_static_pending q r f : same_static q r → same_static q (set_pending_eviction_order f r).
Proof. intros [? ? ? ? ? ? ? []]. by split. Qed.
Lemma same_static_queued q r f : same_static q r → same_static q (set_queued_eviction_order f r).
Proof. intros [? ? ? ? ? ? ? []]. by split. Qed.
Lemma same_static_independent q r f : same_static q r → same_static q (set_independent_transactions f r).
Proof. intros [? ? ? ? ? ? ? []]. by split. Qed.
Lemma same_static_size p p' : same_static p p' → base.size p'.(by_id) = base.size p.(by_id).
Proof. intros [Eb _ _ _ _ _ _ _]. rewrite <- (map_size_fmap inner), Eb. apply map_size_fmap. Qed.
Lemma static_frame p p' : static_ok R p → same_static p p' → static_ok R p'.
Proof.
  intros [] Hs. pose proof (same_static_size _ _ Hs) as Ez. destruct Hs as [Eb Ee Eh Et Es El Eo [_ Ef Ei]].
  split; rewrite ?Eb, ?Ee, ?Eh, ?Et, ?Es, ?El, ?Eo, ?Ef, ?Ei, ?Ez; done.
Qed.

Lemma below_delete next `{Countable K} (m : gmap K Stored) k : below next m → below next (delete k m).
Proof. intros H' k' st [_ Hst]%lookup_delete_Some. by eapply H'. Qed.
Lemma distinct_delete `{Countable K} (m : gmap K Stored) k : distinct m → distinct (delete k m).
Proof. intros H' a b st st' [_ H1]%lookup_delete_Some [_ H2]%lookup_delete_Some. by eapply H'. Qed.
Lemma sender_self st : of_sender (stored_tx st).(TempoPooledTransaction.sender) st = 1.
Proof. unfold of_sender. by rewrite decide_True. Qed.
Lemma sender_other st a : a ≠ (stored_tx st).(TempoPooledTransaction.sender) → of_sender a st = 0.
Proof. intros Ha. unfold of_sender. by rewrite decide_False. Qed.
Lemma sender_le `{Countable K} (m : gmap K Stored) a : total (of_sender a) m ≤ N.of_nat (base.size m).
Proof. rewrite <- total_one. apply total_mono. intros st. unfold of_sender. case_decide; lia. Qed.
Lemma lane_le (m : gmap AA2dTransactionId Stored) s : total (of_lane s) m ≤ N.of_nat (base.size m).
Proof. rewrite <- total_one. apply total_mono. intros st. unfold of_lane. case_decide; lia. Qed.
Lemma lane_self st : of_lane (aa_transaction_id (stored_tx st)).1 st = 1.
Proof. unfold of_lane. by rewrite decide_True. Qed.
Lemma lane_other st s : s ≠ (aa_transaction_id (stored_tx st)).1 → of_lane s st = 0.
Proof. intros Hs. unfold of_lane. by rewrite decide_False. Qed.
Lemma stored_size_eq (m : gmap AA2dTransactionId Internal) : base.size (stored m) = base.size m.
Proof. apply map_size_fmap. Qed.

Lemma counts_below p : static_ok R p → sums_ok p → p.(pending_count) < USIZE ∧ p.(queued_count) < USIZE.
Proof.
  intros [] []. assert (∀ f : Internal → N, (∀ x, f x ≤ 1) → total f p.(by_id) ≤ N.of_nat (base.size p.(by_id))) as Hf.
  { intros f Hf. rewrite <- total_one. by apply total_mono. }
  pose proof (Hf one_pending) as H1. pose proof (Hf one_queued) as H2. unfold one_pending, one_queued in *.
  rewrite sm_pending0, sm_queued0. unfold CAPACITY, USIZE in *.
  split; [specialize (H1 ltac:(intros []; cbn; case_match; lia))|specialize (H2 ltac:(intros []; cbn; case_match; lia))]; lia.
Qed.
Lemma count_bounds p : ok p → p.(pending_count) ≤ USIZE ∧ p.(queued_count) ≤ USIZE.
Proof. intros [Hs _ _ Hm]. destruct (counts_below p Hs Hm). lia. Qed.

Section remove.
Context (p : t) (Hok : ok p) (id : AA2dTransactionId) (x : Internal) (Hx : p.(by_id) !! id = Some x).
Abbreviation tx := (inner_tx x).
Lemma stored_at : stored p.(by_id) !! id = Some (inner x).
Proof. by rewrite lookup_fmap, Hx. Qed.
Lemma stored_entry : id = aa_transaction_id tx ∧ tx_ok tx ∧ is_expiring_nonce tx = false.
Proof. apply (st_entries _ _ (tb_static _ _ Hok)), stored_at. Qed.

Abbreviation p' := (remove_transaction_by_id R id p).2.
Lemma removed_fields :
  (remove_transaction_by_id R id p).1 = Some tx ∧
  p'.(by_id) = delete id p.(by_id) ∧ p'.(expiring_nonce_txs) = p.(expiring_nonce_txs) ∧
  p'.(txs_by_lane) = decrement id.1 p.(txs_by_lane) ∧
  p'.(txs_by_sender) = decrement tx.(TempoPooledTransaction.sender) p.(txs_by_sender) ∧
  p'.(by_hash) = delete (tx_hash R tx) p.(by_hash) ∧
  p'.(independent_transactions) = independent_remove R id.1 (Some id.2) p.(independent_transactions) ∧
  p'.(expiring_nonce_eviction_order) = p.(expiring_nonce_eviction_order) ∧ keeps p p'.
Proof.
  unfold remove_transaction_by_id. rewrite Hx. cbn [fst snd].
  unfold remove_eviction_key, remove_from_subpool, decrement_sender_count, remove_nonce_slot_entry.
  destruct (is_pending x); cbn; destruct (lane _ _ _); slot_cases;
    split_and!; done.
Qed.
Lemma removed_flags :
  let key := eviction_key R (inner x) p.(base_fee) in
  p'.(pending_eviction_order) = (if is_pending x then delete key p.(pending_eviction_order) else p.(pending_eviction_order)) ∧
  p'.(queued_eviction_order) = (if is_pending x then p.(queued_eviction_order) else delete key p.(queued_eviction_order)) ∧
  p'.(pending_count) = (if is_pending x then usize_sub p.(pending_count) 1 else p.(pending_count)) ∧
  p'.(queued_count) = (if is_pending x then p.(queued_count) else usize_sub p.(queued_count) 1) ∧
  p'.(pending_size) = (p.(pending_size) - Z.of_N (size_pending x))%Z ∧
  p'.(queued_size) = (p.(queued_size) - Z.of_N (size_queued x))%Z.
Proof.
  unfold remove_transaction_by_id. rewrite Hx. cbn [fst snd].
  unfold remove_eviction_key, remove_from_subpool, decrement_sender_count, remove_nonce_slot_entry, size_pending, size_queued.
  destruct (is_pending x); cbn; destruct (lane _ _ _); slot_cases;
    rewrite ?Z.sub_0_r; split_and!; done.
Qed.
Lemma removed_slots :
  slot_ok R (delete id (stored p.(by_id))) p.(expiring_nonce_txs) p'.(slot_to_nonce_entry).
Proof.
  destruct stored_entry as (Hid & _ & _). pose proof (tb_static _ _ Hok) as Hs.
  assert (p'.(slot_to_nonce_entry) = match lane (delete id p.(by_id)) id.1 0 with
    | [] => (remove_nonce_slot_entry (nonce_slot R id.1) (Sequence id.1) p).(slot_to_nonce_entry)
    | _ => p.(slot_to_nonce_entry) end) as ->.
  { unfold remove_transaction_by_id. rewrite Hx. cbn [fst snd].
    unfold nonce_key_slot. rewrite <- Hid.
    unfold remove_eviction_key, remove_from_subpool, decrement_sender_count, remove_nonce_slot_entry.
    destruct (is_pending x); cbn; destruct (lane _ _ _); slot_cases; done. }
  destruct (lane (delete id p.(by_id)) id.1 0) as [|n l] eqn:El.
  - assert (¬ occupied (delete id (stored p.(by_id))) id.1) as Ho.
    { intros (n & st & Hn). rewrite <- fmap_delete, lookup_fmap in Hn. rewrite lane_nil in El. by rewrite El in Hn by lia. }
    destruct (slot_delete_last R _ _ (st_entries _ _ Hs) (st_expiring _ _ Hs) _ _ _ stored_at Ho (st_slots _ _ Hs)) as [Hl Hd].
    unfold remove_nonce_slot_entry. rewrite Hl, decide_True by done. exact Hd.
  - apply slot_delete_kept; [|apply (st_slots _ _ Hs)]. exists n. rewrite <- fmap_delete, lookup_fmap.
    assert (n ∈ lane (delete id p.(by_id)) id.1 0) as [[y Hy] _]%lane_elem by (rewrite El; left). apply fmap_is_Some. by exists y.
Qed.
Lemma room : N.of_nat (base.size p.(by_id)) = N.of_nat (base.size (delete id p.(by_id))) + 1.
Proof. rewrite map_size_delete_Some by (by eexists). assert (base.size p.(by_id) ≠ 0%nat); [|lia]. apply map_size_ne_0_lookup. eauto. Qed.
Lemma removed_static : static_ok R p'.
Proof.
  destruct removed_fields as (_ & Eb & Ee & El & Es & Eh & _ & Eo & [_ Ef Ei]). destruct stored_entry as (Hid & _ & _).
  destruct Hok as [[] _ _ _]. split; rewrite ?Eb, ?Ee, ?El, ?Es, ?Eh, ?Eo, ?Ef, ?Ei, ?fmap_delete; try done.
  - intros id' st [_ Hst]%lookup_delete_Some. auto.
  - by apply below_delete.
  - by apply distinct_delete.
  - apply (hash_delete R _ _ st_entries0 st_expiring0); [apply stored_at|done].
  - apply removed_slots.
  - eapply counts_decr; [done|..]; cbn beta.
    + rewrite (total_delete _ _ _ _ stored_at), sender_self. lia.
    + pose proof (sender_le (stored p.(by_id)) tx.(TempoPooledTransaction.sender)).
      pose proof (sender_le p.(expiring_nonce_txs) tx.(TempoPooledTransaction.sender)).
      rewrite stored_size_eq in *. unfold CAPACITY, USIZE in *. lia.
    + intros a Ha. rewrite (total_delete _ _ _ _ stored_at), sender_other by done. lia.
  - eapply counts_decr; [done|..]; cbn beta.
    + rewrite (total_delete _ _ _ _ stored_at), Hid, lane_self. lia.
    + pose proof (lane_le (stored p.(by_id)) id.1). rewrite stored_size_eq in *. unfold CAPACITY, USIZE in *. lia.
    + intros s Hs. rewrite (total_delete _ _ _ _ stored_at), lane_other by (by rewrite <- Hid). lia.
  - rewrite room in st_room0. lia.
Qed.
Lemma removed_orders :
  order_ok R pending_sel p'.(by_id) p'.(base_fee) p'.(pending_eviction_order) ∧
  order_ok R queued_sel p'.(by_id) p'.(base_fee) p'.(queued_eviction_order).
Proof.
  destruct removed_fields as (_ & Eb & _ & _ & _ & _ & _ & _ & [_ Ef _]). destruct removed_flags as (Ep & Eq & _).
  pose proof (st_distinct _ _ (tb_static _ _ Hok)) as Hd. destruct Hok as [_ Hp Hq _]. rewrite Eb, Ef, Ep, Eq.
  unfold pending_sel, queued_sel in *.
  split; (eapply (order_drop R p.(by_id) _ Hd id x Hx); [|done]); cbn; destruct (is_pending x); done.
Qed.
Lemma removed_sums : sums_ok p'.
Proof.
  destruct removed_fields as (_ & Eb & Ee & _). destruct removed_flags as (_ & _ & Ep & Eq & Ezp & Ezq).
  destruct (count_bounds p Hok) as [Hp Hq]. destruct Hok as [_ _ _ []].
  split; rewrite Eb, ?Ee, ?Ep, ?Eq, ?Ezp, ?Ezq.
  - pose proof (total_delete one_pending _ _ _ Hx) as Ht. assert (one_pending x = if is_pending x then 1 else 0) as E1 by done.
    destruct (is_pending x); [rewrite usize_pred by lia|]; lia.
  - pose proof (total_delete one_queued _ _ _ Hx) as Ht. assert (one_queued x = if is_pending x then 0 else 1) as E1 by done.
    destruct (is_pending x); [|rewrite usize_pred by lia]; lia.
  - rewrite (total_delete size_pending _ _ _ Hx) in sm_pending_size0. lia.
  - rewrite (total_delete size_queued _ _ _ Hx) in sm_queued_size0. lia.
Qed.
Lemma removed_tables : ok p'.
Proof. split; [apply removed_static|apply removed_orders|apply removed_orders|apply removed_sums]. Qed.
End remove.

(** *** An expiring nonce *)

Section remove_expiring.
Context (p : t) (Hok : ok p) (h : B256) (st : Stored) (Hst : p.(expiring_nonce_txs) !! h = Some st).
Abbreviation tx := (stored_tx st).
Abbreviation p' := (remove_expiring_nonce_tx R h p).2.
Lemma dropped_fields :
  (remove_expiring_nonce_tx R h p).1 = Some tx ∧
  p'.(by_id) = p.(by_id) ∧ p'.(expiring_nonce_txs) = delete h p.(expiring_nonce_txs) ∧
  p'.(txs_by_lane) = p.(txs_by_lane) ∧
  p'.(txs_by_sender) = decrement tx.(TempoPooledTransaction.sender) p.(txs_by_sender) ∧
  p'.(by_hash) = delete (tx_hash R tx) p.(by_hash) ∧
  p'.(independent_transactions) = p.(independent_transactions) ∧
  p'.(expiring_nonce_eviction_order) = delete (eviction_key R st p.(base_fee)) p.(expiring_nonce_eviction_order) ∧
  p'.(slot_to_nonce_entry) = (remove_nonce_slot_entry (seen_slot R (tx_expiring_nonce_hash R tx))
    (ExpiringNonce (tx_expiring_nonce_hash R tx)) p).(slot_to_nonce_entry) ∧
  p'.(pending_eviction_order) = p.(pending_eviction_order) ∧ p'.(queued_eviction_order) = p.(queued_eviction_order) ∧
  p'.(pending_count) = usize_sub p.(pending_count) 1 ∧ p'.(queued_count) = p.(queued_count) ∧
  p'.(pending_size) = (p.(pending_size) - Z.of_N (stored_size st))%Z ∧ p'.(queued_size) = p.(queued_size) ∧ keeps p p'.
Proof.
  unfold remove_expiring_nonce_tx, remove_expiring_nonce_pending_tx, remove_nonce_slot_entry, expiring_nonce_slot.
  rewrite Hst. slot_cases; split_and!; done.
Qed.
Lemma expiring_room : N.of_nat (base.size p.(expiring_nonce_txs)) = N.of_nat (base.size (delete h p.(expiring_nonce_txs))) + 1.
Proof.
  rewrite map_size_delete_Some by (by eexists). assert (base.size p.(expiring_nonce_txs) ≠ 0%nat); [|lia].
  apply map_size_ne_0_lookup. eauto.
Qed.
Lemma dropped_static : static_ok R p'.
Proof.
  destruct dropped_fields as (_ & Eb & Ee & El & Es & Eh & _ & Eo & Et & _ & _ & _ & _ & _ & _ & [_ Ef Ei]).
  destruct Hok as [[] _ _ _]. destruct (st_expiring0 _ _ Hst) as (Hh & _ & _).
  split; rewrite ?Eb, ?Ee, ?El, ?Es, ?Eh, ?Eo, ?Et, ?Ef, ?Ei; try done.
  - intros h' st' [_ Hst']%lookup_delete_Some. auto.
  - by apply below_delete.
  - by apply distinct_delete.
  - by apply (hash_delete_expiring R _ _ st_entries0 st_expiring0).
  - destruct (slot_delete_expiring R _ _ st_entries0 st_expiring0 _ _ _ Hst st_slots0) as [Hl Hd].
    unfold remove_nonce_slot_entry. rewrite <- Hh, Hl, decide_True by done. exact Hd.
  - eapply counts_decr; [done|..]; cbn beta.
    + rewrite (total_delete _ _ _ _ Hst), sender_self. lia.
    + pose proof (sender_le (stored p.(by_id)) tx.(TempoPooledTransaction.sender)).
      pose proof (sender_le p.(expiring_nonce_txs) tx.(TempoPooledTransaction.sender)).
      rewrite stored_size_eq in *. unfold CAPACITY, USIZE in *. lia.
    + intros a Ha. rewrite (total_delete _ _ _ _ Hst), sender_other by done. lia.
  - by apply expiring_leave.
  - rewrite expiring_room in st_room0. lia.
Qed.
Lemma dropped_tables : ok p'.
Proof.
  pose proof dropped_static as Hs.
  destruct dropped_fields as (_ & Eb & Ee & _ & _ & _ & _ & _ & _ & Ep & Eq & Ecp & Ecq & Ezp & Ezq & [_ Ef _]).
  destruct (count_bounds p Hok) as [Hp _]. destruct Hok as [_ Hop Hoq []]. split; [done|by rewrite Eb, Ep, Ef|by rewrite Eb, Eq, Ef|].
  split; rewrite Eb, ?Ee, ?Ecp, ?Ecq, ?Ezp, ?Ezq; try done.
  - rewrite expiring_room in sm_pending0. rewrite usize_pred; lia.
  - rewrite (total_delete stored_size _ _ _ Hst) in sm_pending_size0. lia.
Qed.
End remove_expiring.

(** *** Demotion *)

Section demote.
Context (p : t) (Hok : ok p) (s : AASequenceId).

Lemma demote_one_absent n : p.(by_id) !! (s, n) = None → demote_one R s p n = p.
Proof. unfold demote_one. by intros ->. Qed.
Lemma demote_one_queued n x : p.(by_id) !! (s, n) = Some x → is_pending x = false → demote_one R s p n = p.
Proof.
  unfold demote_one. intros Hx Hp. rewrite Hx, Hp. destruct p, x as [st b]. cbn in *. unfold AA2dInternalTransaction.set_is_pending. cbn.
  subst b. unfold set_by_id. cbn. by rewrite insert_id.
Qed.
Lemma demote_one_ok n : ok (demote_one R s p n).
Proof.
  destruct (p.(by_id) !! (s, n)) as [x|] eqn:Hx; [|by rewrite demote_one_absent].
  destruct (is_pending x) eqn:Hp; [|by erewrite demote_one_queued]. unfold demote_one. rewrite Hx, Hp. cbn.
  destruct (count_bounds p Hok) as [Hbp Hbq]. pose proof (st_distinct _ _ (tb_static _ _ Hok)) as Hd.
  destruct (totals_demote _ _ _ Hx Hp) as (H1 & H2 & H3 & H4).
  destruct Hok as [Hs Hop Hoq []]. split; cbn.
  - eapply static_frame; [done|split; cbn; try done]. by eapply stored_flip.
  - by apply order_flip_out.
  - eapply order_flip_in; try done. unfold queued_sel. by rewrite Hp.
  - split; cbn; rewrite ?usize_pred by lia; lia.
Qed.
Lemma demote_one_effect n :
  let p' := demote_one R s p n in
  same_static p p' ∧ p'.(independent_transactions) = p.(independent_transactions) ∧
  ∀ id, p'.(by_id) !! id = (λ x, if decide (id = (s, n)) then flag false x else x) <$> p.(by_id) !! id.
Proof.
  destruct (p.(by_id) !! (s, n)) as [x|] eqn:Hx.
  2: { cbn. rewrite demote_one_absent by done. split_and!; [done..|]. intros id.
       destruct (decide (id = (s, n))) as [->|]; [by rewrite Hx|]. by rewrite option_fmap_id. }
  assert (∀ id, <[(s, n) := flag false x]> p.(by_id) !! id = (λ x, if decide (id = (s, n)) then flag false x else x) <$> p.(by_id) !! id) as Hl.
  { intros id. destruct (decide (id = (s, n))) as [->|Hne]; [by rewrite lookup_insert_eq, Hx|].
    by rewrite lookup_insert_ne, option_fmap_id by done. }
  cbn. unfold demote_one. rewrite Hx. destruct (is_pending x); cbn; (split; [|done]); split; cbn; try done; by eapply stored_flip.
Qed.
End demote.
Lemma demote_list s ns : ∀ p, ok p →
  let p' := foldl (demote_one R s) p ns in
  ok p' ∧ same_static p p' ∧ p'.(independent_transactions) = p.(independent_transactions) ∧
  ∀ id, p'.(by_id) !! id = (λ x, if decide (id.1 = s ∧ id.2 ∈ ns) then flag false x else x) <$> p.(by_id) !! id.
Proof.
  induction ns as [|n ns IH]; intros p Hok; cbn.
  - split_and!; [done..|]. intros id. destruct (p.(by_id) !! id); [|done]. cbn. by rewrite decide_False by (intros [_ []%elem_of_nil]).
  - destruct (demote_one_effect p s n) as (H1 & H2 & H3).
    destruct (IH (demote_one R s p n) (demote_one_ok p Hok s n)) as (I0 & I1 & I2 & I3).
    split_and!; [done|by etrans|congruence|]. intros id. rewrite I3, H3, <- option_fmap_compose.
    destruct (p.(by_id) !! id) as [x|]; [|done]. cbn. f_equal. destruct id as [s' k]. cbn.
    destruct (decide (s' = s ∧ k ∈ n :: ns)) as [[-> Hin]|Hn].
    + rewrite elem_of_cons in Hin. destruct (decide ((s, k) = (s, n))) as [E|Hne]; [by destruct (decide _)|].
      rewrite decide_True; [done|]. split; [done|]. destruct Hin; [congruence|done].
    + rewrite !decide_False; [done|..].
      * intros [= -> ->]. apply Hn. split; [done|left].
      * intros [-> Hin]. apply Hn. split; [done|by right].
Qed.
(** All transactions of a sequence behind a nonce are queued. *)
Lemma demote_from_nonce_spec s m p : ok p →
  let p' := demote_from_nonce R s m p in
  ok p' ∧ same_static p p' ∧ p'.(independent_transactions) = p.(independent_transactions) ∧
  ∀ id, p'.(by_id) !! id = (λ x, if decide (id.1 = s ∧ m < id.2) then flag false x else x) <$> p.(by_id) !! id.
Proof.
  intros Hok. destruct (demote_list s (lane p.(by_id) s (m + 1)) p Hok) as (H0 & H1 & H2 & H3).
  split_and!; [done..|]. intros [s' k]. etrans; [apply H3|]. destruct (p.(by_id) !! (s', k)) as [x|] eqn:Hx; [|done]. cbn. f_equal.
  destruct (decide (s' = s ∧ m < k)) as [[-> Hlt]|Hn].
  - rewrite decide_True; [done|]. split; [done|]. apply lane_elem. split; [by eexists|lia].
  - rewrite decide_False; [done|]. intros [-> [_ Hle]%lane_elem]. apply Hn. split; [done|lia].
Qed.
End steps.
End Pool2dSteps.
