(* ===== verification/Pool2dChain.v ===== *)
(** * The pool and the nonces on chain

    A transaction is pending exactly when the pool holds every nonce of its sequence from
    the nonce on chain up to its own, and the independent transactions are those at the
    nonce on chain. The lemmas follow both through the removal of a transaction, through
    demotion and through eviction. *)

From S2P Require Import Prelude Hardfork Address Bytes Pool2dState Pool2d Pool2dLib Pool2dInv Pool2dSteps.

Module Pool2dChain.
Import AA2dPool Pool2d Pool2dInv Pool2dSteps.

(** The nonce of every sequence on chain. *)
Abbreviation Chain := (AASequenceId → N).
Abbreviation nonce_of st := ((stored_tx st).(TempoPooledTransaction.nonce)).

Definition executable (M : gmap AA2dTransactionId Internal) (c : Chain) (s : AASequenceId) (n : N) : Prop :=
  ∀ k, c s ≤ k → k ≤ n → is_Some (M !! (s, k)).
(** Flags are right but for the ids in [X]. *)
Definition flags_ok (X : AA2dTransactionId → Prop) (c : Chain) (M : gmap AA2dTransactionId Internal) : Prop :=
  ∀ s n x, M !! (s, n) = Some x → c s ≤ n → ¬ X (s, n) → (is_pending x = true ↔ executable M c s n).
(** No transaction is below the nonce on chain. *)
Definition current (c : Chain) (M : gmap AA2dTransactionId Internal) : Prop :=
  ∀ s n, is_Some (M !! (s, n)) → c s ≤ n.

Section chain.
Context (R : Reth) `{!LawfulReth R}.
Abbreviation ok := (tables_ok R).

Record ind_ok (T : gmap AA2dTransactionId Stored) (c : Chain) (bf : N) (i : IndependentTransactions.t) : Prop := IndOk {
  in_head s st : T !! (s, c s) = Some st → i.(IndependentTransactions.transactions) !! s = Some st;
  in_heads s st : i.(IndependentTransactions.transactions) !! s = Some st → T !! (s, nonce_of st) = Some st ∧ nonce_of st ≤ c s;
  in_order k id : i.(IndependentTransactions.order) !! k = Some id ↔
    ∃ st, i.(IndependentTransactions.transactions) !! id.1 = Some st ∧ id.2 = nonce_of st ∧ k = eviction_key R st bf;
  in_fee : i.(IndependentTransactions.base_fee) = bf
}.
Record chain_ok (X : AA2dTransactionId → Prop) (c : Chain) (p : t) : Prop := ChainOk {
  ch_flags : flags_ok X c p.(by_id);
  ch_ind : ind_ok (stored p.(by_id)) c p.(base_fee) p.(independent_transactions)
}.

(** ** Independent transactions *)

Section independent.
Context (T : gmap AA2dTransactionId Stored) (c : Chain) (bf : N) (i : IndependentTransactions.t).
Context (HT : entries_ok T) (Hd : distinct T) (Hi : ind_ok T c bf i).
Abbreviation txs := (IndependentTransactions.transactions i).

Lemma heads_apart s s' st st' : txs !! s = Some st → txs !! s' = Some st' → sid st = sid st' → s = s'.
Proof.
  intros Hs Hs' E. apply (in_heads _ _ _ _ Hi) in Hs as [Hs _]. apply (in_heads _ _ _ _ Hi) in Hs' as [Hs' _].
  pose proof (Hd _ _ _ _ Hs Hs' E) as [= ? _]. done.
Qed.
Lemma order_without s st k id :
  txs !! s = Some st →
  delete (eviction_key R st bf) i.(IndependentTransactions.order) !! k = Some id ↔
  ∃ st', delete s txs !! id.1 = Some st' ∧ id.2 = nonce_of st' ∧ k = eviction_key R st' bf.
Proof.
  intros Hs. rewrite lookup_delete_Some, (in_order _ _ _ _ Hi). split.
  - intros [Hk (st' & Hs' & Hn & ->)]. exists st'. split; [|done]. rewrite lookup_delete_ne; [done|].
    intros ->. rewrite Hs in Hs'. by injection Hs' as ->.
  - intros (st' & [Hne Hs']%lookup_delete_Some & Hn & ->). split; [|by eauto]. intros [= _ E]. apply Hne. by eapply heads_apart.
Qed.
Lemma ind_removed s n st :
  T !! (s, n) = Some st → ind_ok (delete (s, n) T) c bf (independent_remove R s (Some n) i).
Proof.
  intros Hst. pose proof (HT _ _ Hst) as ([= Hs Hn] & _). unfold independent_remove.
  destruct (txs !! s) as [st0|] eqn:H0; [destruct (N.eqb_spec (nonce_of st0) n) as [E|E]|].
  - split; cbn; [| |intros k id; rewrite (in_fee _ _ _ _ Hi); by apply order_without|by destruct Hi].
    + intros s' st' [Hne Hst']%lookup_delete_Some. apply (in_head _ _ _ _ Hi) in Hst' as Ht.
      rewrite lookup_delete_ne; [done|]. intros ->. rewrite H0 in Ht. injection Ht as <-.
      apply HT in Hst' as ([= _ En] & _). congruence.
    + intros s' st' [Hne Hst']%lookup_delete_Some. apply (in_heads _ _ _ _ Hi) in Hst' as [Ht Hle].
      rewrite lookup_delete_ne by (intros [=]; done). done.
  - destruct Hi as [H1 H2 H3 H4]. split; [..|done|done].
    + intros s' st' [Hne Hst']%lookup_delete_Some. auto.
    + intros s' st' Hst'. destruct (H2 _ _ Hst') as [Ht Hle]. split; [|done]. rewrite lookup_delete_ne; [done|].
      intros [= -> E']. congruence.
  - destruct Hi as [H1 H2 H3 H4]. split; [..|done|done].
    + intros s' st' [Hne Hst']%lookup_delete_Some. auto.
    + intros s' st' Hst'. destruct (H2 _ _ Hst') as [Ht Hle]. split; [|done]. rewrite lookup_delete_ne; [done|].
      intros [= -> E']. congruence.
Qed.
(** The transaction at the nonce on chain is put in place of the one that was there. *)
Lemma ind_put T' c' s st :
  aa_transaction_id (stored_tx st) = (s, c' s) → T' !! (s, c' s) = Some st → distinct T' →
  (∀ s', s' ≠ s → c' s' = c s') → (∀ s' n, s' ≠ s → T' !! (s', n) = T !! (s', n)) →
  ind_ok T' c' bf (independent_insert R st i).
Proof.
  intros Eid Hst Hd' Hc HTT. unfold independent_insert. rewrite Eid. cbn. rewrite (in_fee _ _ _ _ Hi).
  assert (∀ s' st', s' ≠ s → txs !! s' = Some st' → sid st' ≠ sid st) as Hsid.
  { intros s' st' Hne Hs' E. apply (in_heads _ _ _ _ Hi) in Hs' as [Hs' _]. rewrite <- HTT in Hs' by done.
    by pose proof (Hd' _ _ _ _ Hs' Hst E) as [= ? _]. }
  injection Eid as Es En. split; cbn.
  - intros s' st' Hst'. destruct (decide (s' = s)) as [->|Hne]; [rewrite lookup_insert_eq; congruence|].
    rewrite lookup_insert_ne by done. apply (in_head _ _ _ _ Hi). by rewrite <- HTT, <- Hc.
  - intros s' st' [[<- <-]|[Hne Hst']]%lookup_insert_Some; [rewrite En; split; [done|lia]|].
    rewrite HTT, Hc by done. by apply (in_heads _ _ _ _ Hi).
  - set (order := match txs !! s with Some old => delete _ _ | None => _ end).
    assert (∀ k id, order !! k = Some id ↔ ∃ st', delete s txs !! id.1 = Some st' ∧ id.2 = nonce_of st' ∧ k = eviction_key R st' bf) as Ho.
    { intros k id. subst order. destruct (txs !! s) as [old|] eqn:H0; [by apply order_without|].
      rewrite (delete_id txs) by done. apply (in_order _ _ _ _ Hi). }
    intros k [s' n']. rewrite lookup_insert_Some, Ho. setoid_rewrite lookup_insert_Some. setoid_rewrite lookup_delete_Some. cbn. split.
    + intros [[<- [= <- <-]]|[Hk (st' & [Hne Hs'] & Hn & ->)]]; [exists st; by split_and!; [left|..]|].
      exists st'. split_and!; [by right|done..].
    + intros (st' & [[<- <-]|[Hne Hs']] & Hn & ->); [left; split; [done|congruence]|]. right. split; [|by eauto 6].
      intros [= _ E]. by apply (Hsid s' st').
  - done.
Qed.
Lemma ind_gone c' s :
  T !! (s, c' s) = None → (∀ s', s' ≠ s → c' s' = c s') → ind_ok T c' bf (independent_remove R s None i).
Proof.
  intros Hn Hc. unfold independent_remove. destruct (txs !! s) as [st|] eqn:Hs.
  - split; cbn; [| |intros k id; rewrite (in_fee _ _ _ _ Hi); by apply order_without|by destruct Hi].
    + intros s' st' Hst'. destruct (decide (s' = s)) as [->|Hne]; [congruence|]. rewrite lookup_delete_ne by done.
      apply (in_head _ _ _ _ Hi). by rewrite <- Hc.
    + intros s' st' [Hne Hst']%lookup_delete_Some. rewrite Hc by done. by apply (in_heads _ _ _ _ Hi).
  - destruct Hi as [H1 H2 H3 H4]. split; [..|done|done].
    + intros s' st' Hst'. destruct (decide (s' = s)) as [->|Hne]; [congruence|]. apply H1. by rewrite <- Hc.
    + intros s' st' Hst'. rewrite Hc; [by apply H2|]. intros ->. congruence.
Qed.
(** Nothing of the sequence is left at the nonce on chain. *)
Lemma ind_behind c' s :
  (∀ n, is_Some (T !! (s, n)) → n < c' s) → (∀ s', s' ≠ s → c' s' = c s') → ind_ok T c' bf i.
Proof.
  intros Hn Hc. destruct Hi as [H1 H2 H3 H4]. split; [..|done|done].
  - intros s' st' Hst'. destruct (decide (s' = s)) as [->|Hne]; [|apply H1; by rewrite <- Hc].
    assert (c' s < c' s) by (apply Hn; by eexists). lia.
  - intros s' st' Hst'. destruct (H2 _ _ Hst') as [Ht Hle]. split; [done|]. destruct (decide (s' = s)) as [->|Hne]; [|by rewrite Hc].
    assert (nonce_of st' < c' s) by (apply Hn; by eexists). lia.
Qed.
End independent.
Lemma ind_frame T T' c bf i s n st :
  T' = <[(s, n) := st]> T → c s < n → ind_ok T c bf i → ind_ok T' c bf i.
Proof.
  intros -> Hn [H1 H2 H3 H4]. split; [..|done|done].
  - intros s' st' [[[= <- ->] _]|[_ Hst']]%lookup_insert_Some; [lia|auto].
  - intros s' st' Hst'. destruct (H2 _ _ Hst') as [Ht Hle]. split; [|done]. rewrite lookup_insert_ne; [done|].
    intros [= -> ->]. lia.
Qed.

(** ** Flags *)

Section flags.
Context (X : AA2dTransactionId → Prop) (c : Chain) (M : gmap AA2dTransactionId Internal).
Context (Hf : flags_ok X c M) (s : AASequenceId) (n : N).
Definition behind (s : AASequenceId) (n : N) (id : AA2dTransactionId) : Prop := id.1 = s ∧ n < id.2.

Lemma executable_delete s' k : ¬ behind s n (s', k) → (s', k) ≠ (s, n) →
  executable (delete (s, n) M) c s' k ↔ executable M c s' k.
Proof.
  intros Hb Hne. unfold executable. split; intros H j Hj Hk; specialize (H j Hj Hk).
  - destruct H as [x [_ Hx]%lookup_delete_Some]. by eexists.
  - rewrite lookup_delete_ne; [done|]. intros [= <- <-]. destruct (decide (n = k)) as [->|]; [done|]. apply Hb. split; [done|cbn; lia].
Qed.
Lemma flags_removed : flags_ok (λ id, X id ∨ behind s n id) c (delete (s, n) M).
Proof.
  intros s' k x [Hne Hx]%lookup_delete_Some Hle HX. rewrite executable_delete; [|auto..]. apply Hf; auto.
Qed.
Lemma executable_shorter s' k j : executable M c s' k → j ≤ k → executable M c s' j.
Proof. intros H Hj i Hi Hk. apply H; lia. Qed.
Lemma flags_removed_queued : c s ≤ n → ¬ executable M c s n → flags_ok X c (delete (s, n) M).
Proof.
  intros Hle Hn s' k x [Hne Hx]%lookup_delete_Some Hk HX.
  destruct (decide (s' = s ∧ n < k)) as [[-> Hlt]|Hb]; [|rewrite executable_delete by auto; by apply Hf].
  rewrite (Hf _ _ _ Hx Hk HX). split; intros H; exfalso.
  - apply Hn. eapply executable_shorter; [done|lia].
  - destruct (H n) as [y Hy]; [done|lia|]. by rewrite lookup_delete_eq in Hy.
Qed.
Lemma flags_removed_mined : n < c s → flags_ok X c (delete (s, n) M).
Proof.
  intros Hlt s' k x [Hne Hx]%lookup_delete_Some Hk HX. rewrite (Hf _ _ _ Hx Hk HX). unfold executable.
  split; intros H j Hj Hjk; specialize (H j Hj Hjk).
  - rewrite lookup_delete_ne; [done|]. intros [= <- <-]. lia.
  - destruct H as [y [_ Hy]%lookup_delete_Some]. by eexists.
Qed.
Lemma flags_demoted M' : M !! (s, n) = None → c s ≤ n →
  (∀ id, M' !! id = (λ x, if decide (id.1 = s ∧ n < id.2) then flag false x else x) <$> M !! id) →
  flags_ok (λ id, X id ∧ ¬ behind s n id) c M'.
Proof.
  intros Hn Hle HM s' k x Hx Hk HX. rewrite HM in Hx. apply fmap_Some in Hx as (y & Hy & ->). cbn.
  assert (executable M' c s' k ↔ executable M c s' k) as ->.
  { unfold executable. setoid_rewrite HM. setoid_rewrite fmap_is_Some. done. }
  destruct (decide (s' = s ∧ n < k)) as [[-> Hlt]|Hb]; [|apply Hf; [done..|]; intros ?; by apply HX].
  cbn. split; [done|]. intros H. destruct (H n) as [z Hz]; [done|lia|congruence].
Qed.
End flags.

(** ** Both together *)

Definition part_ok (X : AA2dTransactionId → Prop) (c : Chain) (p : t) : Prop := ok p ∧ chain_ok X c p.
Definition nowhere : AA2dTransactionId → Prop := λ _, False.
Definition pool_ok (c : Chain) (p : t) : Prop := part_ok nowhere c p ∧ current c p.(by_id).

Lemma part_weaken (X X' : AA2dTransactionId → Prop) c p :
  (∀ id, is_Some (p.(by_id) !! id) → X id → X' id) → part_ok X c p → part_ok X' c p.
Proof.
  intros Hw [Hok [Hf Hi]]. split; [done|]. split; [|done]. intros s n x Hx Hle HX. apply Hf; [done..|].
  intros ?. apply HX, Hw; [by eexists|done].
Qed.

(** Transactions only go. *)
Record shrinks (p p' : t) : Prop := Shrinks {
  sh_by_id : stored p'.(by_id) ⊆ stored p.(by_id);
  sh_expiring : p'.(expiring_nonce_txs) ⊆ p.(expiring_nonce_txs);
  sh_keeps : keeps p p'
}.
#[global] Instance shrinks_preorder : PreOrder shrinks.
Proof. split; [by split|]. intros p q r [] []. split; by etrans. Qed.
Lemma same_shrinks p p' : same_static p p' → shrinks p p'.
Proof. intros []. split; [by rewrite ss_by_id0|by rewrite ss_expiring0|done]. Qed.
Lemma shrinks_is_Some p p' id : shrinks p p' → is_Some (p'.(by_id) !! id) → is_Some (p.(by_id) !! id).
Proof.
  intros [Hs _ _] Hid. apply (fmap_is_Some inner). rewrite <- lookup_fmap. eapply lookup_weaken_is_Some; [|done].
  by rewrite lookup_fmap, fmap_is_Some.
Qed.
Lemma shrinks_current c p p' : shrinks p p' → current c p.(by_id) → current c p'.(by_id).
Proof. intros Hs Hc s n Hn. eapply Hc, shrinks_is_Some; done. Qed.
Lemma shrinks_senders p p' a : ok p → ok p' → shrinks p p' → p'.(txs_by_sender).[a] ≤ p.(txs_by_sender).[a].
Proof.
  intros Hok Hok' [H1 H2 _]. rewrite (proj1 (st_sender _ _ (tb_static _ _ Hok) a)), (proj1 (st_sender _ _ (tb_static _ _ Hok') a)).
  apply N.add_le_mono; by apply total_subseteq.
Qed.

Section removal.
Context (X : AA2dTransactionId → Prop) (c : Chain) (p : t) (Hp : part_ok X c p).
Section by_id.
Context (s : AASequenceId) (n : N) (x : Internal) (Hx : p.(by_id) !! (s, n) = Some x).
Abbreviation p' := (remove_transaction_by_id R (s, n) p).2.
Lemma removed_ind : ind_ok (stored p'.(by_id)) c p'.(base_fee) p'.(independent_transactions).
Proof.
  destruct Hp as [Hok [_ Hi]]. destruct (removed_fields R p _ _ Hx) as (_ & -> & _ & _ & _ & _ & -> & _ & [_ -> _]).
  pose proof (tb_static _ _ Hok) as []. rewrite fmap_delete. cbn. eapply ind_removed; [done..|]. by rewrite lookup_fmap, Hx.
Qed.
Lemma removed_shrinks : shrinks p p' ∧ p'.(by_id) = delete (s, n) p.(by_id) ∧ p'.(expiring_nonce_txs) = p.(expiring_nonce_txs).
Proof.
  destruct (removed_fields R p _ _ Hx) as (_ & Eb & Ee & _ & _ & _ & _ & _ & Hk). split; [|done].
  split; rewrite ?Eb, ?Ee, ?fmap_delete; [apply delete_subseteq|done..].
Qed.
Lemma removed_part : part_ok (λ id, X id ∨ behind s n id) c p'.
Proof.
  pose proof removed_ind as Hi. destruct removed_shrinks as (_ & Eb & _). destruct Hp as [Hok [Hf _]].
  split; [by eapply removed_tables|]. split; [|done]. rewrite Eb. by apply flags_removed.
Qed.
Lemma removed_mined : n < c s → part_ok X c p'.
Proof.
  intros Hn. pose proof removed_ind as Hi. destruct removed_shrinks as (_ & Eb & _). destruct Hp as [Hok [Hf _]].
  split; [by eapply removed_tables|]. split; [|done]. rewrite Eb. by apply flags_removed_mined.
Qed.
Lemma removed_queued : is_pending x = false → ¬ X (s, n) → part_ok X c p'.
Proof.
  intros Hq HX. destruct (decide (c s ≤ n)) as [Hle|]; [|apply removed_mined; lia].
  pose proof removed_ind as Hi. destruct removed_shrinks as (_ & Eb & _). destruct Hp as [Hok [Hf _]].
  split; [by eapply removed_tables|]. split; [|done]. rewrite Eb. apply flags_removed_queued; [done..|].
  rewrite <- (Hf _ _ _ Hx Hle HX). congruence.
Qed.
End by_id.
Lemma dropped_part h st : p.(expiring_nonce_txs) !! h = Some st →
  let p' := (remove_expiring_nonce_tx R h p).2 in
  part_ok X c p' ∧ shrinks p p' ∧ p'.(by_id) = p.(by_id) ∧ p'.(expiring_nonce_txs) = delete h p.(expiring_nonce_txs).
Proof.
  intros Hst. destruct Hp as [Hok [Hf Hi]]. pose proof (dropped_tables R p Hok h st Hst) as Ht. cbn.
  destruct (dropped_fields R p h st Hst) as (_ & Eb & Ee & _ & _ & _ & Ei & _ & _ & _ & _ & _ & _ & _ & _ & Hk).
  split_and!; [split; [done|]|..|done|done].
  - destruct Hk as [_ Ef _]. split; by rewrite ?Ei, ?Ef, Eb.
  - split; rewrite ?Eb, ?Ee; [done|apply delete_subseteq|done].
Qed.
Lemma demoted_part s n : p.(by_id) !! (s, n) = None → c s ≤ n →
  let p' := demote_from_nonce R s n p in
  part_ok (λ id, X id ∧ ¬ behind s n id) c p' ∧ same_static p p' ∧ (∀ id, is_Some (p'.(by_id) !! id) ↔ is_Some (p.(by_id) !! id)).
Proof.
  intros Hn Hle. destruct Hp as [Hok [Hf Hi]]. destruct (demote_from_nonce_spec R s n p Hok) as (Hok' & Hs & Ei & HM). cbn.
  split_and!; [split; [done|]|done|].
  - destruct Hs as [Eb _ _ _ _ _ _ [_ Ef _]]. split; [by eapply flags_demoted|]. by rewrite Ei, Ef, Eb.
  - intros id. by rewrite HM, fmap_is_Some.
Qed.
End removal.
End chain.
End Pool2dChain.
