(* ===== verification/Pool2dRemove.v ===== *)
(** * Removal and eviction

    Removal by hash, with and without descendants, and by sender, and eviction down to
    the limits keep the pool as it should be. Eviction ends with both subpools within
    their limits. *)

From stdpp Require Import sorting.
From S2P Require Import Prelude Hardfork Address Bytes Pool2dState Pool2d Pool2dLib Pool2dInv Pool2dSteps Pool2dChain.

Module Pool2dRemove.
Import AA2dPool Pool2d Pool2dInv Pool2dSteps Pool2dChain.

Section remove.
Context (R : Reth) `{!LawfulReth R}.
Abbreviation ok := (tables_ok R).
Abbreviation part_ok := (part_ok R).
Abbreviation pool_ok := (pool_ok R).

(** ** By hash *)

(** The index by hash loses the transaction a little earlier. *)
Lemma remove_by_id_early id x p :
  p.(by_id) !! id = Some x →
  remove_transaction_by_id R id (set_by_hash (delete (tx_hash R (inner_tx x))) p) = remove_transaction_by_id R id p.
Proof.
  intros Hx. destruct p as [? ? ? ? ? ? slot_to_nonce_entry]. cbn in Hx. unfold remove_transaction_by_id. cbn. rewrite Hx. cbn.
  unfold remove_eviction_key, remove_from_subpool, decrement_sender_count, remove_nonce_slot_entry.
  destruct (is_pending x); cbn; destruct (lane _ _ _); cbn;
    try (destruct (slot_to_nonce_entry !! _); cbn; [destruct (decide _); cbn|]);
    unfold set_by_hash; cbn; by rewrite delete_delete_eq.
Qed.
Lemma remove_expiring_early h st p :
  p.(expiring_nonce_txs) !! h = Some st →
  remove_expiring_nonce_tx R h (set_by_hash (delete (tx_hash R (stored_tx st))) p) = remove_expiring_nonce_tx R h p.
Proof.
  intros Hx. destruct p as [? ? ? ? ? ? slot_to_nonce_entry]. cbn in Hx. unfold remove_expiring_nonce_tx, remove_expiring_nonce_pending_tx. cbn. rewrite Hx. cbn.
  unfold remove_from_subpool, decrement_sender_count, remove_nonce_slot_entry.
  cbn. destruct (slot_to_nonce_entry !! _); cbn; [destruct (decide _); cbn|]; unfold set_by_hash; cbn; by rewrite delete_delete_eq.
Qed.
(** Removal by hash is removal by id or of an expiring nonce. *)
Lemma by_hash_cases p h : ok p →
  (p.(by_hash) !! h = None ∧ remove_transaction_by_hash_no_demote R h p = (None, p)) ∨
  (∃ id x, p.(by_id) !! id = Some x ∧ id = aa_transaction_id (inner_tx x) ∧ h = tx_hash R (inner_tx x) ∧
     remove_transaction_by_hash_no_demote R h p = (Some (inner_tx x, Some id), (remove_transaction_by_id R id p).2)) ∨
  (∃ k st, p.(expiring_nonce_txs) !! k = Some st ∧ h = tx_hash R (stored_tx st) ∧
     remove_transaction_by_hash_no_demote R h p = (Some (stored_tx st, None), (remove_expiring_nonce_tx R k p).2)).
Proof.
  intros Hok. pose proof (tb_static _ _ Hok) as []. unfold remove_transaction_by_hash_no_demote.
  destruct (p.(by_hash) !! h) as [tx|] eqn:Eh; [|by left]. right.
  apply st_hash0 in Eh as [-> [(st & Hst & <-)|(st & Hst & <-)]].
  - left. rewrite lookup_fmap in Hst. apply fmap_Some in Hst as (x & Hx & ->).
    destruct (st_entries0 _ (inner x) ltac:(by rewrite lookup_fmap, Hx)) as (_ & _ & He). rewrite He.
    exists (aa_transaction_id (inner_tx x)), x. split_and!; [done..|]. rewrite (remove_by_id_early _ x) by done.
    destruct (remove_transaction_by_id _ _ _) as [r p'] eqn:E. cbn.
    destruct (removed_fields R p _ _ Hx) as [Er _]. rewrite E in Er. cbn in Er. by subst r.
  - right. destruct (st_expiring0 _ _ Hst) as (_ & _ & He). rewrite He.
    exists (tx_expiring_nonce_hash R (stored_tx st)), st. split_and!; [done..|]. rewrite (remove_expiring_early _ st) by done.
    destruct (remove_expiring_nonce_tx _ _ _) as [r p'] eqn:E. cbn.
    destruct (dropped_fields R p _ _ Hst) as [Er _]. rewrite E in Er. cbn in Er. by subst r.
Qed.

(** Removal of a transaction and demotion of its descendants. *)
Lemma removed_demoted c p id x : pool_ok c p → p.(by_id) !! id = Some x →
  let p' := demote_descendants R id (remove_transaction_by_id R id p).2 in
  pool_ok c p' ∧ shrinks p p' ∧ (∀ id', is_Some (p'.(by_id) !! id') ↔ id' ≠ id ∧ is_Some (p.(by_id) !! id')) ∧
  p'.(expiring_nonce_txs) = p.(expiring_nonce_txs) ∧ base.size p.(by_id) = S (base.size p'.(by_id)).
Proof.
  intros [Hp Hc] Hx. pose proof (room p id x Hx) as Hroom. destruct id as [s n]. pose proof (removed_part R _ _ _ Hp s n x Hx) as H1.
  destruct (removed_shrinks R p s n x Hx) as (Hs & Eb & Ee).
  destruct (demoted_part R _ _ _ H1 s n) as (H2 & Hss & Hd); [by rewrite Eb, lookup_delete_eq|apply Hc; by eexists|].
  cbn in *. assert (shrinks p (demote_descendants R (s, n) (remove_transaction_by_id R (s, n) p).2)) as Hsh by (etrans; [done|by apply same_shrinks]).
  split_and!; [split| | | |].
  - eapply part_weaken; [|done]. intros id _ [[[]|Hb] Hn]. done.
  - by eapply shrinks_current.
  - done.
  - intros id'. unfold demote_descendants. cbn. rewrite Hd, Eb. split.
    + intros [y [Hne Hy]%lookup_delete_Some]. split; [auto|by eexists].
    + intros [Hne Hy]. by rewrite lookup_delete_ne by auto.
  - etrans; [by apply (ss_expiring _ _ Hss)|done].
  - unfold demote_descendants. cbn. rewrite (same_static_size _ _ Hss), Eb. lia.
Qed.
Lemma remove_by_hash_pool c p h : pool_ok c p →
  let p' := (remove_transaction_by_hash R h p).2 in
  pool_ok c p' ∧ shrinks p p' ∧
  ∀ tx, (remove_transaction_by_hash R h p).1 = Some tx → is_expiring_nonce tx = false →
    (∀ id', is_Some (p'.(by_id) !! id') ↔ id' ≠ aa_transaction_id tx ∧ is_Some (p.(by_id) !! id')) ∧ is_Some (p.(by_id) !! aa_transaction_id tx).
Proof.
  intros Hp. pose proof Hp as [[Hok Hch] Hc]. unfold remove_transaction_by_hash.
  destruct (by_hash_cases p h Hok) as [[_ ->]|[(id & x & Hx & Hid & _ & ->)|(k & st & Hst & _ & ->)]]; [done|..].
  - destruct (removed_demoted c p id x Hp Hx) as (H1 & H2 & H3 & _). split_and!; [done..|]. cbn. intros tx [= <-] _. rewrite <- Hid.
    split; [done|by eexists].
  - destruct (dropped_part R _ _ _ (conj Hok Hch) k st Hst) as (H1 & H2 & Eb & _). split_and!; [split; [done|]|done|].
    + by eapply shrinks_current.
    + cbn. intros tx [= <-] He. destruct (st_expiring _ _ (tb_static _ _ Hok) _ _ Hst) as (_ & _ & He'). congruence.
Qed.

(** *** Several at once *)

(** What a map of demotions leaves to do. *)
Definition to_demote (l : list (AASequenceId * N)) (id : AA2dTransactionId) : Prop := ∃ n, (id.1, n) ∈ l ∧ n < id.2.
Definition removed_at (c : Chain) (p : t) (l : list (AASequenceId * N)) : Prop :=
  ∀ s n, (s, n) ∈ l → p.(by_id) !! (s, n) = None ∧ c s ≤ n.
Lemma note_demotion_least s n d s' m :
  note_demotion (s, n) d !! s' = Some m → (d !! s' = Some m ∨ (s', m) = (s, n)).
Proof.
  unfold note_demotion. cbn. destruct (d !! s) as [m0|]; [destruct (n <? m0)|]; [|by left|];
    (intros [[<- <-]|[_ ?]]%lookup_insert_Some; [by right|by left]).
Qed.
Lemma note_demotion_covers s n d id :
  to_demote (map_to_list d) id ∨ behind s n id → to_demote (map_to_list (note_demotion (s, n) d)) id.
Proof.
  unfold to_demote, behind. setoid_rewrite elem_of_map_to_list. unfold note_demotion. cbn. destruct id as [s' k]. cbn.
  intros [(m & Hm & Hlt)|[-> Hlt]]; destruct (d !! s) as [m0|] eqn:E.
  - destruct (N.ltb_spec n m0); [|by eauto]. destruct (decide (s' = s)) as [->|].
    + exists n. rewrite lookup_insert_eq. split; [done|]. rewrite E in Hm. injection Hm as <-. lia.
    + exists m. by rewrite lookup_insert_ne.
  - exists m. rewrite lookup_insert_ne; [done|]. intros ->. congruence.
  - destruct (N.ltb_spec n m0); [exists n; by rewrite lookup_insert_eq|]. exists m0. split; [done|lia].
  - exists n. by rewrite lookup_insert_eq.
Qed.
Lemma remove_hashes_part c hs : ∀ p d,
  part_ok (to_demote (map_to_list d)) c p → current c p.(by_id) → removed_at c p (map_to_list d) →
  let '(_, p', d') := remove_hashes R hs p d in
  part_ok (to_demote (map_to_list d')) c p' ∧ shrinks p p' ∧ removed_at c p' (map_to_list d').
Proof.
  induction hs as [|h hs IH]; intros p d Hp Hc Hr; cbn; [by split_and!|].
  destruct (by_hash_cases p h (proj1 Hp)) as [[_ ->]|[([s n] & x & Hx & Hid & _ & ->)|(k & st & Hst & _ & ->)]]; [by apply IH|..].
  - pose proof (removed_part R _ _ _ Hp s n x Hx) as H1. destruct (removed_shrinks R p s n x Hx) as (Hs & Eb & _).
    specialize (IH (remove_transaction_by_id R (s, n) p).2 (note_demotion (s, n) d)).
    destruct (remove_hashes R hs _ _) as [[txs p'] d']. destruct IH as (I1 & I2 & I3).
    + eapply part_weaken; [|done]. intros id _. apply note_demotion_covers.
    + by eapply shrinks_current.
    + intros s' m [Hm|[= -> ->]]%elem_of_map_to_list%note_demotion_least.
      * apply elem_of_map_to_list in Hm. destruct (Hr _ _ Hm) as [Hn Hle]. split; [|done]. rewrite Eb. by apply lookup_delete_None; right.
      * rewrite Eb. split; [apply lookup_delete_eq|apply Hc; by eexists].
    + split_and!; [done|by etrans|done].
  - destruct (dropped_part R _ _ _ Hp k st Hst) as (H1 & Hs & Eb & _).
    specialize (IH (remove_expiring_nonce_tx R k p).2 d). destruct (remove_hashes R hs _ _) as [[txs p'] d'].
    destruct IH as (I1 & I2 & I3); [done|by eapply shrinks_current|by intros s m Hm; rewrite Eb; apply Hr|].
    split_and!; [done|by etrans|done].
Qed.
Lemma demote_all c l : ∀ p, part_ok (to_demote l) c p → removed_at c p l →
  let p' := foldl (λ p '(s, n), demote_from_nonce R s n p) p l in part_ok nowhere c p' ∧ shrinks p p'.
Proof.
  induction l as [|[s n] l IH]; intros p Hp Hr; cbn.
  - split; [|done]. eapply part_weaken; [|done]. by intros id _ (n & []%elem_of_nil & _).
  - destruct (Hr s n) as [Hn Hle]; [left|]. destruct (demoted_part R _ _ _ Hp s n Hn Hle) as (H1 & H2 & H3).
    destruct (IH (demote_from_nonce R s n p)) as [I1 I2].
    + eapply part_weaken; [|done]. intros [s' k] _ [(m & [[= -> ->]|Hin]%elem_of_cons & Hlt) Hb]; [by destruct Hb|by exists m].
    + intros s' m Hin. destruct (Hr s' m) as [Hm Hle']; [by right|]. split; [|done].
      apply eq_None_not_Some in Hm. apply eq_None_not_Some. intros Hy%H3. exact (Hm Hy).
    + split; [done|]. etrans; [by apply same_shrinks|done].
Qed.
Lemma remove_transactions_pool c p hs : pool_ok c p →
  let p' := (remove_transactions R hs p).2 in pool_ok c p' ∧ shrinks p p'.
Proof.
  intros [Hp Hc]. unfold remove_transactions. pose proof (remove_hashes_part c hs p ∅) as H.
  destruct (remove_hashes R hs p ∅) as [[txs p'] d]. destruct H as (H1 & H2 & H3); [|done|by intros s n; rewrite map_to_list_empty; intros []%elem_of_nil|].
  { eapply part_weaken; [|done]. by intros id _ []. }
  destruct (demote_all c _ p' H1 H3) as [H4 H5]. cbn. assert (shrinks p (foldl (λ p '(s, n), demote_from_nonce R s n p) p' (map_to_list d))) by by etrans.
  split; [split; [done|]|done]. by eapply shrinks_current.
Qed.

(** *** Descendants *)

Definition queued_behind (id : AA2dTransactionId) (p : t) : Prop :=
  ∀ k x, id.2 < k → p.(by_id) !! (id.1, k) = Some x → is_pending x = false.
Lemma remove_descendants_pool c fuel : ∀ id p,
  pool_ok c p → queued_behind id p → (base.size p.(by_id) ≤ fuel)%nat →
  let p' := (remove_descendants R fuel id p).2 in
  pool_ok c p' ∧ shrinks p p' ∧ (∀ k, id.2 < k → p'.(by_id) !! (id.1, k) = None).
Proof.
  induction fuel as [|fuel IH]; intros [s n] p Hp Hq Hfuel; cbn -[lane].
  - split_and!; [done..|]. intros k _. apply Nat.le_0_r, map_size_empty_inv in Hfuel. by rewrite Hfuel, lookup_empty.
  - destruct (lane p.(by_id) s (n + 1)) as [|m l] eqn:El.
    { split_and!; [done..|]. intros k Hk. rewrite lane_nil in El. apply El. cbn in Hk. lia. }
    apply lane_head in El as ([x Hx] & Hle & Hgap). cbn in Hq. destruct Hp as [Hp Hc].
    pose proof (removed_queued R _ _ _ Hp s m x Hx (Hq m x ltac:(cbn; lia) Hx) ltac:(intros [])) as H1.
    destruct (removed_shrinks R p s m x Hx) as (Hs & Eb & _). pose proof (room p (s, m) x Hx) as Hroom.
    destruct (remove_transaction_by_id R (s, m) p) as [r p1] eqn:E1. cbn in *.
    destruct (IH (s, m) p1) as (I1 & I2 & I3).
    + split; [done|by eapply shrinks_current].
    + intros k y Hk. rewrite Eb. intros [_ Hy]%lookup_delete_Some. eapply (Hq k); [cbn in *; lia|done].
    + rewrite Eb. lia.
    + destruct (remove_descendants R fuel (s, m) p1) as [txs p2]. cbn in *. split_and!; [done|by etrans|].
      intros k Hk. destruct (decide (m < k)) as [Hlt|Hge]; [by apply I3|]. apply eq_None_not_Some. intros Hsome.
      eapply shrinks_is_Some in Hsome; [|done]. rewrite Eb in Hsome. destruct Hsome as [y [Hne Hy]%lookup_delete_Some].
      assert (k ≠ m) by congruence. rewrite Hgap in Hy; [done|lia..].
Qed.
Lemma remove_with_descendants_pool c hs : ∀ p, pool_ok c p →
  let p' := (remove_transactions_and_descendants R hs p).2 in pool_ok c p' ∧ shrinks p p'.
Proof.
  induction hs as [|h hs IH]; intros p Hp; cbn; [done|]. pose proof (remove_by_hash_pool c p h Hp) as (H1 & H2 & H3).
  destruct (remove_transaction_by_hash R h p) as [[tx|] p1]; cbn in *; [|destruct (IH p1 H1) as [I1 I2]; split; [done|by etrans]].
  destruct (remove_descendants_pool c (base.size p1.(by_id)) (aa_transaction_id tx) p1) as (D1 & D2 & _); [done| |done|].
  { intros k x Hlt Hx. destruct (is_expiring_nonce tx) eqn:He.
    - exfalso. destruct H1 as [[Hok _] _].
      destruct (stored_entry R p1 Hok _ x Hx) as (E & _ & He'). unfold is_expiring_nonce, aa_transaction_id in *.
      injection E as _ E _. by rewrite <- E, He in He'.
    - destruct (H3 tx eq_refl He) as [Hrest Hin]. destruct H1 as [[_ [Hf _]] Hc]. destruct (is_pending x) eqn:Hpend; [|done].
      apply (Hf _ _ _ Hx) in Hpend; [|apply Hc; by eexists|intros []].
      destruct (proj1 (Hrest (aa_transaction_id tx))) as [[] _]; [|done]. rewrite (surjective_pairing (aa_transaction_id tx)) at 1.
      apply Hpend; [|lia]. destruct Hp as [_ Hc']. apply Hc'. by rewrite <- surjective_pairing. }
  destruct (remove_descendants R (base.size p1.(by_id)) (aa_transaction_id tx) p1) as [txs p2]. cbn in *.
  destruct (IH p2 D1) as [I1 I2]. destruct (remove_transactions_and_descendants R hs p2) as [txs' p3]. cbn in *.
  split; [done|]. etrans; [done|]. by etrans.
Qed.

(** ** By sender *)

Definition from_sender (a : Address) (id : AA2dTransactionId) : Prop := id.1.1 = a.
Definition gone (tx : TempoPooledTransaction.t) (p : t) : Prop :=
  if is_expiring_nonce tx then p.(expiring_nonce_txs) !! tx_expiring_nonce_hash R tx = None
  else p.(by_id) !! aa_transaction_id tx = None.
Lemma shrinks_gone tx p p' : shrinks p p' → gone tx p → gone tx p'.
Proof.
  intros Hs. unfold gone. destruct (is_expiring_nonce tx); intros Hn.
  - by eapply lookup_weaken_None; [|apply Hs].
  - apply eq_None_not_Some. intros H. eapply shrinks_is_Some in H; [|done]. by rewrite Hn in H; destruct H.
Qed.
Lemma remove_each_part a c txs : ∀ p,
  part_ok (from_sender a) c p → Forall (λ tx, tx.(TempoPooledTransaction.sender) = a) txs →
  let p' := (remove_each R txs p).2 in
  part_ok (from_sender a) c p' ∧ shrinks p p' ∧ Forall (λ tx, gone tx p') txs.
Proof.
  induction txs as [|tx txs IH]; intros p Hp Ha; cbn; [done|]. apply Forall_cons in Ha as [Ha Htxs].
  assert (∃ r p1, (if is_expiring_nonce tx then remove_expiring_nonce_tx R (tx_expiring_nonce_hash R tx) p
    else remove_transaction_by_id R (aa_transaction_id tx) p) = (r, p1) ∧ part_ok (from_sender a) c p1 ∧ shrinks p p1 ∧ gone tx p1)
    as (r & p1 & -> & H1 & H2 & H3).
  { unfold gone. destruct (is_expiring_nonce tx) eqn:He.
    - destruct (p.(expiring_nonce_txs) !! tx_expiring_nonce_hash R tx) as [st|] eqn:Hst.
      + destruct (dropped_part R _ _ _ Hp _ _ Hst) as (D1 & D2 & _ & D3). eexists _, _. split; [apply surjective_pairing|].
        split_and!; [done..|]. by rewrite D3, lookup_delete_eq.
      + exists None, p. unfold remove_expiring_nonce_tx. rewrite Hst. by split_and!.
    - destruct (p.(by_id) !! aa_transaction_id tx) as [x|] eqn:Hx.
      + assert ((aa_transaction_id tx).1.1 = a) as Es by done. destruct (aa_transaction_id tx) as [s n]. destruct (removed_shrinks R p _ _ x Hx) as (D1 & D2 & _).
        eexists _, _. split; [apply surjective_pairing|]. split_and!; [|done|by rewrite D2, lookup_delete_eq].
        eapply part_weaken; [|by apply (removed_part R _ _ _ Hp _ _ x)]. intros id _ [|[Hb _]]; [done|]. unfold from_sender. by rewrite Hb, <- Es.
      + exists None, p. unfold remove_transaction_by_id. rewrite Hx. by split_and!. }
  destruct (IH p1 H1 Htxs) as (I1 & I2 & I3). destruct (remove_each R txs p1) as [out p2]. cbn in *.
  split_and!; [done|by etrans|]. apply Forall_cons. split; [by eapply shrinks_gone|done].
Qed.
Lemma elem_of_values_by_id (m : gmap AA2dTransactionId Internal) x : x ∈ values_by_id m ↔ ∃ id, m !! id = Some x.
Proof.
  unfold values_by_id. rewrite list_elem_of_fmap. setoid_rewrite merge_sort_Permutation. split.
  - intros ([id y] & -> & Hx%elem_of_map_to_list). by exists id.
  - intros [id Hx]. exists (id, x). split; [done|by apply elem_of_map_to_list].
Qed.
Lemma elem_of_by_sender a p tx : tx ∈ transactions_by_sender a p ↔
  tx.(TempoPooledTransaction.sender) = a ∧
  ((∃ id x, p.(by_id) !! id = Some x ∧ inner_tx x = tx) ∨ (∃ h st, p.(expiring_nonce_txs) !! h = Some st ∧ stored_tx st = tx)).
Proof.
  unfold transactions_by_sender. rewrite elem_of_app, !list_elem_of_filter, !list_elem_of_fmap. setoid_rewrite elem_of_values_by_id.
  setoid_rewrite list_elem_of_fmap. split.
  - intros [[Ha (x & -> & id & Hx)]|[Ha (st & -> & [h y] & -> & Hst%elem_of_map_to_list)]]; eauto 10.
  - intros [Ha [(id & x & Hx & <-)|(h & st & Hst & <-)]]; [left|right]; (split; [done|]); [by eauto|].
    exists st. split; [done|]. exists (h, st). split; [done|by apply elem_of_map_to_list].
Qed.
Lemma remove_by_sender_pool a c p : pool_ok c p →
  let p' := (remove_transactions_by_sender R a p).2 in
  pool_ok c p' ∧ shrinks p p' ∧
  (∀ id x, p'.(by_id) !! id = Some x → (inner_tx x).(TempoPooledTransaction.sender) ≠ a) ∧
  (∀ h st, p'.(expiring_nonce_txs) !! h = Some st → (stored_tx st).(TempoPooledTransaction.sender) ≠ a).
Proof.
  intros [Hp Hc]. unfold remove_transactions_by_sender.
  destruct (remove_each_part a c (transactions_by_sender a p) p) as (H1 & H2 & H3).
  { eapply part_weaken; [|done]. by intros id _ []. }
  { apply Forall_forall. by intros tx [? _]%elem_of_by_sender. }
  cbn. set (p' := (remove_each R _ p).2) in *.
  pose proof (λ tx H, proj1 (Forall_forall _ _) H3 tx (proj2 (elem_of_by_sender a p tx) H)) as Hgone.
  destruct (tb_static _ _ (proj1 H1)) as [He' Hx' _ _ _ _ _ _ _ _ _ _ _].
  assert (∀ id x, p'.(by_id) !! id = Some x → (inner_tx x).(TempoPooledTransaction.sender) ≠ a) as Hid.
  { intros id x Hx Ha. assert (stored p'.(by_id) !! id = Some (inner x)) as Hst by by rewrite lookup_fmap, Hx.
    destruct (He' _ _ Hst) as (Eid & _ & Hexp). assert (gone (inner_tx x) p') as Hg.
    { apply Hgone. split; [done|]. left. eapply lookup_weaken in Hst; [|apply H2].
      rewrite lookup_fmap in Hst. apply fmap_Some in Hst as (x0 & Hx0 & E0). exists id, x0. by rewrite E0. }
    unfold gone in Hg. rewrite Hexp, <- Eid in Hg. congruence. }
  split_and!; [split|done|done|].
  - eapply part_weaken; [|done]. intros id [x Hx] Hs. apply (Hid id x Hx). destruct (stored_entry R p' (proj1 H1) id x Hx) as [E _].
    by rewrite E in Hs.
  - by eapply shrinks_current.
  - intros h st Hst Ha. destruct (Hx' _ _ Hst) as (Eh & _ & Hexp). assert (gone (stored_tx st) p') as Hg.
    { apply Hgone. split; [done|]. right. exists h, st. split; [|done]. by eapply lookup_weaken; [|apply H2]. }
    unfold gone in Hg. rewrite Hexp, <- Eh in Hg. congruence.
Qed.

(** ** Eviction *)

Definition weight (p : t) : nat := (base.size p.(by_id) + base.size p.(expiring_nonce_txs))%nat.
Lemma nothing_selected sel M bf : order_ok R sel M bf ∅ → ∀ id x, M !! id = Some x → sel id x = false.
Proof.
  intros H id x Hx. destruct (sel id x) eqn:E; [|done].
  by assert ((∅ : gmap EvictionOrderKey AA2dTransactionId) !! eviction_key R (inner x) bf = Some id) by (apply H; eauto).
Qed.
Lemma expiring_none p : ok p → p.(expiring_nonce_eviction_order) = ∅ → p.(expiring_nonce_txs) = ∅.
Proof.
  intros Hok E. apply map_empty. intros h. destruct (p.(expiring_nonce_txs) !! h) as [st|] eqn:Hst; [|done].
  pose proof (tb_static _ _ Hok) as []. destruct (st_expiring0 _ _ Hst) as (Eh & _). rewrite E in st_expiring_order0.
  by assert ((∅ : gmap EvictionOrderKey TempoPooledTransaction.t) !! eviction_key R st p.(base_fee) = Some (stored_tx st))
    by (apply st_expiring_order0; exists st; by rewrite <- Eh).
Qed.
Lemma not_exceeded l : is_exceeded R l 0 (usize_of 0) = false.
Proof. apply not_true_iff_false. intros H%is_exceeded_spec. change (usize_of 0) with 0 in H. lia. Qed.
Lemma no_pending p : ok p → p.(pending_eviction_order) = ∅ → p.(expiring_nonce_eviction_order) = ∅ → pending_exceeded R p = false.
Proof.
  intros Hok E1 E2. apply expiring_none in E2; [|done]. destruct Hok as [_ Hp _ []]. rewrite E1 in Hp.
  pose proof (nothing_selected _ _ _ Hp) as Hn. unfold pending_sel in Hn. unfold pending_exceeded.
  rewrite sm_pending0, sm_pending_size0, E2, map_size_empty, total_empty, !total_zero; [apply not_exceeded|..];
    intros id x Hx; by apply (weights_queued x (Hn id x Hx)).
Qed.
Lemma no_queued p : ok p → p.(queued_eviction_order) = ∅ → queued_exceeded R p = false.
Proof.
  intros Hok E1. destruct Hok as [_ _ Hq []]. rewrite E1 in Hq. pose proof (nothing_selected _ _ _ Hq) as Hn.
  unfold queued_exceeded. rewrite sm_queued0, sm_queued_size0, !total_zero; [apply not_exceeded|..];
    intros id x Hx; apply (weights_pending x), negb_false_iff, (Hn id x Hx).
Qed.

Lemma evict_worst_eq p k tx : ok p → first R p.(expiring_nonce_eviction_order) = Some (k, tx) →
  evict_worst_expiring_nonce_tx R p = remove_expiring_nonce_tx R (tx_expiring_nonce_hash R tx) p ∧
  is_Some (p.(expiring_nonce_txs) !! tx_expiring_nonce_hash R tx).
Proof.
  intros Hok Hf. pose proof (tb_static _ _ Hok) as []. pose proof (first_Some R _ _ _ Hf) as [Hl _].
  apply st_expiring_order0 in Hl as (st & Hst & <- & ->). split; [|by eexists].
  unfold evict_worst_expiring_nonce_tx, remove_expiring_nonce_tx. rewrite Hf. cbn. rewrite Hst. done.
Qed.
Lemma evict_one_pending_pool c p : pool_ok c p → pending_exceeded R p = true →
  ∃ tx p', evict_one_pending R p = (Some tx, p') ∧ pool_ok c p' ∧ shrinks p p' ∧ (weight p' < weight p)%nat.
Proof.
  intros Hp Hex. pose proof Hp as [[Hok Hch] Hc].
  assert (∀ k tx, first R p.(expiring_nonce_eviction_order) = Some (k, tx) → ∃ tx p',
    evict_worst_expiring_nonce_tx R p = (Some tx, p') ∧ pool_ok c p' ∧ shrinks p p' ∧ (weight p' < weight p)%nat) as Hexp.
  { intros k tx Hf. destruct (evict_worst_eq p k tx Hok Hf) as [-> [st Hst]].
    destruct (dropped_part R _ _ _ (conj Hok Hch) _ st Hst) as (D1 & D2 & D3 & D4). destruct (dropped_fields R p _ st Hst) as [E1 _].
    pose proof (expiring_room p _ st Hst). destruct (remove_expiring_nonce_tx R _ p) as [r p']. cbn in *. subst r.
    eexists _, _. split_and!; [done|split; [done|by eapply shrinks_current]|done|]. unfold weight. rewrite D3, D4. lia. }
  assert (∀ k id, first R p.(pending_eviction_order) = Some (k, id) → ∃ tx p',
    evict_2d_pending_tx R id p = (Some tx, p') ∧ pool_ok c p' ∧ shrinks p p' ∧ (weight p' < weight p)%nat) as H2d.
  { intros k id Hf. apply (first_Some R) in Hf as [Hf _]. apply (tb_pending _ _ Hok) in Hf as (x & Hx & _ & _).
    destruct (removed_demoted c p id x Hp Hx) as (D1 & D2 & D3 & D4 & D5). destruct (removed_fields R p id x Hx) as [E1 _].
    unfold evict_2d_pending_tx. destruct (remove_transaction_by_id R id p) as [r p']. cbn in *. subst r.
    eexists _, _. split_and!; [done..|]. unfold weight. rewrite D4.
    lia. }
  unfold evict_one_pending. destruct (first R p.(pending_eviction_order)) as [[k2d id]|] eqn:F1, (first R p.(expiring_nonce_eviction_order)) as [[kexp tx]|] eqn:F2.
  - destruct (match priority_cmp R kexp.1 k2d.1 with Eq => _ | Lt => _ | Gt => _ end); [by eapply Hexp|by eapply H2d].
  - by eapply H2d.
  - by eapply Hexp.
  - rewrite no_pending in Hex; [done..| |]; by apply (first_None R).
Qed.
Lemma evict_pending_pool c fuel : ∀ p, pool_ok c p → (weight p < fuel)%nat →
  let p' := (evict_pending R fuel p).2 in pool_ok c p' ∧ shrinks p p' ∧ pending_exceeded R p' = false.
Proof.
  induction fuel as [|fuel IH]; intros p Hp Hf; [lia|]. cbn. destruct (pending_exceeded R p) eqn:Hex; [|done].
  destruct (evict_one_pending_pool c p Hp Hex) as (tx & p1 & -> & H1 & H2 & H3).
  destruct (IH p1 H1 ltac:(lia)) as (I1 & I2 & I3). destruct (evict_pending R fuel p1) as [txs p2]. cbn in *.
  split_and!; [done|by etrans|done].
Qed.
Lemma evict_queued_pool c fuel : ∀ p, pool_ok c p → (weight p < fuel)%nat →
  let p' := (evict_queued R fuel p).2 in pool_ok c p' ∧ shrinks p p' ∧ queued_exceeded R p' = false ∧
  pending_exceeded R p' = pending_exceeded R p.
Proof.
  induction fuel as [|fuel IH]; intros p Hp Hf; [lia|]. cbn. destruct (queued_exceeded R p) eqn:Hex; [|done].
  pose proof Hp as [[Hok Hch] Hc]. destruct (first R p.(queued_eviction_order)) as [[k [s n]]|] eqn:F.
  2: { rewrite no_queued in Hex; [done..|]. by apply (first_None R). }
  apply (first_Some R) in F as [F _]. apply (tb_queued _ _ Hok) in F as (x & Hx & Hq%negb_true_iff & _).
  pose proof (removed_queued R _ _ _ (conj Hok Hch) s n x Hx Hq ltac:(intros [])) as H1.
  destruct (removed_shrinks R p s n x Hx) as (H2 & Eb & Ee). destruct (removed_fields R p _ x Hx) as [Er _].
  destruct (removed_flags R p _ x Hx) as (_ & _ & Ec & _ & Ez & _). rewrite Hq in Ec. unfold size_pending in Ez. rewrite Hq, Z.sub_0_r in Ez.
  pose proof (room p _ x Hx) as Hroom. destruct (remove_transaction_by_id R (s, n) p) as [r p1]. cbn in *. subst r.
  destruct (IH p1) as (I1 & I2 & I3 & I4); [split; [done|by eapply shrinks_current]|unfold weight in *; rewrite Eb, Ee; lia|].
  destruct (evict_queued R fuel p1) as [txs p2]. cbn in *. split_and!; [done|by etrans|done|].
  rewrite I4. unfold pending_exceeded. by rewrite Ec, Ez, (kp_config _ _ (sh_keeps _ _ H2)).
Qed.
(** [discard] brings both subpools within their limits. *)
Lemma discard_pool c p : pool_ok c p →
  let p' := (discard R p).2 in
  pool_ok c p' ∧ shrinks p p' ∧ pending_exceeded R p' = false ∧ queued_exceeded R p' = false.
Proof.
  intros Hp. unfold discard, evict_lowest_priority.
  assert (∀ p, pool_ok c p → ∃ r p', (if queued_exceeded R p then evict_queued R (rounds p) p else ([], p)) = (r, p') ∧
    pool_ok c p' ∧ shrinks p p' ∧ queued_exceeded R p' = false ∧ pending_exceeded R p' = pending_exceeded R p) as Hq.
  { intros q Hq. destruct (queued_exceeded R q) eqn:E; [|by eexists _, _].
    eexists _, _. split; [apply surjective_pairing|]. apply evict_queued_pool; [done|unfold rounds, weight; lia]. }
  destruct (Hq p Hp) as (r1 & p1 & -> & H1 & S1 & _).
  assert (∃ r p', (if pending_exceeded R p1 then evict_pending R (rounds p1) p1 else ([], p1)) = (r, p') ∧
    pool_ok c p' ∧ shrinks p1 p' ∧ pending_exceeded R p' = false) as (r2 & p2 & -> & H2 & S2 & E2).
  { destruct (pending_exceeded R p1) eqn:E; [|by eexists _, _].
    eexists _, _. split; [apply surjective_pairing|]. apply evict_pending_pool; [done|unfold rounds, weight; lia]. }
  destruct (Hq p2 H2) as (r3 & p3 & -> & H3 & S3 & E3 & E4). cbn. split_and!; [done| |congruence|done].
  etrans; [done|]. by etrans.
Qed.
End remove.
End Pool2dRemove.
