(* ===== verification/Pool2dAdd.v ===== *)
(** * Additions

    Adding a transaction, replacing one, and the scan that makes transactions pending
    keep the pool as it should be, for a transaction validated against the nonce that is
    on chain. *)

From stdpp Require Import sorting.
From S2P Require Import Prelude Hardfork Address Bytes Pool2dState Pool2d Pool2dLib Pool2dInv Pool2dSteps Pool2dChain Pool2dRemove.

Module Pool2dAdd.
Import AA2dPool Pool2d Pool2dInv Pool2dSteps Pool2dChain Pool2dRemove.

Section add.
Context (R : Reth) `{!LawfulReth R}.
Abbreviation ok := (tables_ok R).
Abbreviation part_ok := (part_ok R).
Abbreviation pool_ok := (pool_ok R).

(** ** Common steps *)

Lemma accept_sender_Some a p p' : accept_sender a p = Some p' →
  p' = set_txs_by_sender (insert a (p.(txs_by_sender).[a] + 1)) p ∧
  p.(txs_by_sender).[a] < p.(config).(AA2dPoolConfig.max_txs_per_sender).
Proof.
  unfold accept_sender, sread. destruct (p.(txs_by_sender) !! a) as [n|]; cbn.
  - destruct (N.leb_spec (AA2dPoolConfig.max_txs_per_sender p.(config)) n); [done|]. by intros [= <-].
  - destruct (N.eqb_spec (AA2dPoolConfig.max_txs_per_sender p.(config)) 0); [done|]. intros [= <-]. split; [done|].
    change (0 < AA2dPoolConfig.max_txs_per_sender p.(config)). lia.
Qed.
Lemma below_mono next next' `{Countable K} (m : gmap K Stored) : below next m → next ≤ next' → below next' m.
Proof. intros Hb Hle k st Hk. apply Hb in Hk. lia. Qed.
Lemma below_insert next next' `{Countable K} (m : gmap K Stored) k st :
  below next m → next ≤ next' → sid st < next' → below next' (<[k := st]> m).
Proof. intros Hb Hle Hst k' st' [[_ <-]|[_ Hk]]%lookup_insert_Some; [done|]. apply Hb in Hk. lia. Qed.
Lemma distinct_insert next `{Countable K} (m : gmap K Stored) k st :
  below next m → distinct m → sid st = next → distinct (<[k := st]> m).
Proof.
  intros Hb Hd Hst a b x y [[<- <-]|[Ha Hx]]%lookup_insert_Some [[<- <-]|[Hb' Hy]]%lookup_insert_Some E; [done|..].
  - apply Hb in Hy. lia.
  - apply Hb in Hx. lia.
  - by eapply Hd.
Qed.
Lemma taken_id n : n < CAPACITY → (n + 1) mod USIZE = n + 1.
Proof. intros Hn. apply N.mod_small. unfold CAPACITY, USIZE in *. lia. Qed.

(** No sender gets over the limit, unless it was. *)
Definition capped (p : t) (senders : gmap Address N) : Prop :=
  ∀ a, senders.[a] ≤ N.max p.(txs_by_sender).[a] p.(config).(AA2dPoolConfig.max_txs_per_sender).
Lemma capped_same p : capped p p.(txs_by_sender).
Proof. intros a. lia. Qed.
Lemma capped_insert p a : p.(txs_by_sender).[a] < p.(config).(AA2dPoolConfig.max_txs_per_sender) →
  capped p (<[a := p.(txs_by_sender).[a] + 1]> p.(txs_by_sender)).
Proof. intros Ha b. rewrite sread_insert. case_decide; [subst b; lia|lia]. Qed.

(** A submission id may be taken and not used. *)
Lemma take_id_pool c p : pool_ok c p → p.(submission_id) < CAPACITY → pool_ok c (next_id p).2.
Proof.
  intros [[[Hs Hp Hq Hsm] Hch] Hc] Hlt. destruct Hs. unfold next_id. cbn.
  split; [split|done]; [split; [split|..]|]; cbn; rewrite ?taken_id by done; try done; try by eapply below_mono; [done|lia].
  - unfold CAPACITY in *. lia.
  - unfold CAPACITY in *. lia.
  - by destruct Hsm.
  - by destruct Hch.
Qed.

(** ** Expiring nonces *)

Section expiring.
Context (c : Chain) (p : t) (Hp : pool_ok c p) (Hnext : p.(submission_id) < CAPACITY).
Context (tx : TempoPooledTransaction.t) (Htx : tx_ok tx) (Hexp : is_expiring_nonce tx = true).
Abbreviation h := (tx_expiring_nonce_hash R tx).
Context (Hnew : p.(expiring_nonce_txs) !! h = None).
Abbreviation st := (AA2dStoredTransaction.mk p.(submission_id) tx).
(** The pool with the transaction, before anything is evicted. *)
Definition with_expiring : t :=
  mk (p.(submission_id) + 1) p.(independent_transactions) p.(by_id) (<[tx_hash R tx := tx]> p.(by_hash))
    (<[h := st]> p.(expiring_nonce_txs)) (set_insert (eviction_key R st p.(base_fee)) tx p.(expiring_nonce_eviction_order))
    (<[expiring_nonce_slot R tx := ExpiringNonce h]> p.(slot_to_nonce_entry)) p.(config) p.(pending_eviction_order)
    p.(queued_eviction_order) p.(base_fee)
    (<[tx.(TempoPooledTransaction.sender) := p.(txs_by_sender).[tx.(TempoPooledTransaction.sender)] + 1]> p.(txs_by_sender))
    p.(txs_by_lane) (p.(pending_count) + 1) p.(queued_count) (p.(pending_size) + Z.of_N (size tx))%Z p.(queued_size).
Lemma with_expiring_static : static_ok R with_expiring.
Proof.
  assert (of_sender tx.(TempoPooledTransaction.sender) st = 1) as Hself by apply (sender_self st).
  destruct Hp as [[[[] _ _ _] _] _]. split; cbn; try done.
  - intros h' st' [[<- <-]|[_ Hst']]%lookup_insert_Some; [done|auto].
  - eapply below_mono; [done|lia].
  - eapply below_insert; [done|lia|cbn; lia].
  - by eapply distinct_insert.
  - by apply (hash_insert_expiring R _ _ _ st).
  - by apply (slot_insert_expiring R _ _ st_entries0 st_expiring0 _ st).
  - eapply counts_incr; [done|..]; cbn beta.
    + rewrite total_insert_None, Hself by done. rewrite (proj1 (st_sender0 _)). lia.
    + rewrite total_insert_None, Hself by done. lia.
    + intros a Ha. rewrite total_insert_None, (sender_other st) by done. lia.
  - apply (expiring_join R _ _ _ st); [done| |done]. intros h' st' Hst'. apply st_below_expiring0 in Hst'. cbn. lia.
  - rewrite map_size_insert_None by done. lia.
  - unfold CAPACITY in *. lia.
Qed.
Lemma with_expiring_pool : pool_ok c with_expiring.
Proof.
  pose proof with_expiring_static as Hs. destruct Hp as [[[_ H1 H2 []] [H3 H4]] H5]. split; [split|done]; [split; [done..|]|by split].
  split; cbn; [|done| |done].
  - rewrite map_size_insert_None by done. lia.
  - rewrite total_insert_None by done. unfold stored_size at 1. cbn. lia.
Qed.
Lemma add_expiring_eq :
  add_expiring_nonce_transaction R tx p =
  match accept_sender tx.(TempoPooledTransaction.sender) p with
  | None => (inl (SpammerExceededCapacity tx.(TempoPooledTransaction.sender)), p)
  | Some _ => let '(discarded, p') := discard R with_expiring in (inr (Pending None [] discarded), p')
  end.
Proof.
  unfold add_expiring_nonce_transaction. rewrite Hnew. destruct (accept_sender _ p) as [p1|] eqn:E; [|done].
  apply accept_sender_Some in E as [-> _]. unfold with_expiring. rewrite <- (taken_id _ Hnext). done.
Qed.
End expiring.

(** ** The scan *)

Section scan.
Context (p2 : t) (s : AASequenceId) (n : N) (c : Chain).
Abbreviation M1 := (by_id p2).
Context (Hrange : ∀ s k, is_Some (M1 !! (s, k)) → k ≤ U64_MAX) (Hd : distinct (stored M1)).
(** The scan has passed the nonces below [m]. *)
Definition marked (m : N) (id : AA2dTransactionId) (y : Internal) : Internal :=
  if decide (id.1 = s ∧ n ≤ id.2 ∧ id.2 < m) then flag true y else y.
Record scanned (m : N) (sc : scan) : Prop := Scanned {
  sn_frame : sc.(sc_pool) = set_by_id (λ _, sc.(sc_pool).(by_id)) p2;
  sn_by_id id : sc.(sc_pool).(by_id) !! id = marked m id <$> M1 !! id;
  sn_inserted : sc.(sc_inserted) = (n <? m);
  sn_promoted st : st ∈ sc.(sc_promoted) ↔ ∃ k y, n < k ∧ k < m ∧ M1 !! (s, k) = Some y ∧ inner y = st;
  sn_NoDup : NoDup sc.(sc_promoted);
  sn_queued k y : n < k → k < m → M1 !! (s, k) = Some y → is_pending y = false;
  sn_count : total one_pending sc.(sc_pool).(by_id) = total one_pending M1 + sc.(sc_count) ∧
    total one_queued M1 = total one_queued sc.(sc_pool).(by_id) + sc.(sc_count);
  sn_size : total size_pending sc.(sc_pool).(by_id) = total size_pending M1 + sc.(sc_size) ∧
    total size_queued M1 = total size_queued sc.(sc_pool).(by_id) + sc.(sc_size);
  sn_reach k : c s ≤ k → k < m → is_Some (M1 !! (s, k))
}.
(** It stops at a gap, or behind the new transaction at one that was pending. *)
Definition stops (m : N) : Prop :=
  M1 !! (s, m) = None ∨ (n < m ∧ ∃ y, M1 !! (s, m) = Some y ∧ is_pending y = true).
Lemma marked_same m k y : k < n ∨ m ≤ k → marked m (s, k) y = y.
Proof. intros Hk. unfold marked. rewrite decide_False; [done|]. cbn. lia. Qed.
Lemma marked_next m id y : id ≠ (s, m) ∨ m < n → marked (m + 1) id y = marked m id y.
Proof.
  intros Hm. destruct id as [s' k]. unfold marked. cbn. destruct (decide (s' = s ∧ n ≤ k ∧ k < m)) as [He|He].
  - rewrite decide_True; [done|]. destruct He as (-> & ? & ?). split; [done|lia].
  - rewrite decide_False; [done|]. intros (-> & ? & ?). apply He. split_and!; [done..|].
    destruct Hm as [Hm|Hm]; [|lia]. assert (k ≠ m) by congruence. lia.
Qed.
(** One more nonce is marked. *)
Lemma scanned_mark m sc x promoted :
  scanned m sc → n ≤ m → M1 !! (s, m) = Some x → (n < m → is_pending x = false ∧ promoted = sc.(sc_promoted) ++ [inner x]) →
  (n = m → promoted = sc.(sc_promoted)) →
  scanned (m + 1) (Scan (mark_pending (s, m) x sc.(sc_pool)) promoted true
    (sc.(sc_count) + (if is_pending x then 0 else 1)) (sc.(sc_size) + (if is_pending x then 0 else size (inner_tx x)))).
Proof.
  intros [Hfr Hb Hi Hpr Hnd Hq [Hc1 Hc2] [Hz1 Hz2] Hre] Hm Hx Hlt Heq.
  assert (sc.(sc_pool).(by_id) !! (s, m) = Some x) as Hx'.
  { rewrite Hb, Hx. cbn. by rewrite marked_same by lia. }
  assert (∀ id, <[(s, m) := flag true x]> sc.(sc_pool).(by_id) !! id = marked (m + 1) id <$> M1 !! id) as Hb'.
  { intros id. destruct (decide (id = (s, m))) as [->|Hne].
    - rewrite lookup_insert_eq, Hx. cbn. unfold marked. cbn. rewrite decide_True; [done|]. split; [done|lia].
    - rewrite lookup_insert_ne, Hb by auto. destruct (M1 !! id); [|done]. cbn. by rewrite marked_next by auto. }
  split; cbn.
  - rewrite Hfr. done.
  - exact Hb'.
  - symmetry. apply N.ltb_lt. lia.
  - intros st. destruct (decide (n < m)) as [Hn|Hn].
    + destruct (Hlt Hn) as [_ ->]. rewrite elem_of_app, list_elem_of_singleton, Hpr. split.
      * intros [(k & y & ? & ? & ? & ?)| ->]; [exists k, y|exists m, x]; split_and!; try done; lia.
      * intros (k & y & ? & ? & Hy & <-). destruct (decide (k = m)) as [->|]; [right; congruence|]. left.
        exists k, y. split_and!; try done; lia.
    + assert (n = m) as En by lia. rewrite (Heq En), Hpr. split; intros (k & y & ? & ? & ? & ?); exfalso; lia.
  - destruct (decide (n < m)) as [Hn|Hn]; [destruct (Hlt Hn) as [_ ->]|by rewrite Heq by lia].
    apply NoDup_app. split_and!; [done| |apply NoDup_singleton]. intros st (k & y & ? & ? & Hy & <-)%Hpr E%list_elem_of_singleton.
    assert ((s, k) = (s, m)) as [= ->]; [|lia]. eapply Hd; [by rewrite lookup_fmap, Hy|by rewrite lookup_fmap, Hx|by rewrite E].
  - intros k y H1 H2 Hy. destruct (decide (k = m)) as [->|]; [|apply (Hq k y); [done|lia|done]].
    assert (y = x) as -> by congruence. by apply Hlt.
  - destruct (is_pending x) eqn:E.
    + assert (flag true x = x) as -> by (destruct x; cbn in *; by subst). rewrite insert_id by done. lia.
    + destruct (totals_promote _ _ _ Hx' E) as (H1 & H2 & _). lia.
  - destruct (is_pending x) eqn:E.
    + assert (flag true x = x) as -> by (destruct x; cbn in *; by subst). rewrite insert_id by done. lia.
    + destruct (totals_promote _ _ _ Hx' E) as (_ & _ & H1 & H2). lia.
  - intros k H1 H2. destruct (decide (k = m)) as [->|]; [by eexists|]. apply Hre; [done|lia].
Qed.
Lemma scanned_pass m sc : scanned m sc → m < n → is_Some (M1 !! (s, m)) → scanned (m + 1) sc.
Proof.
  intros [] Hm Hx. split; try done.
  - intros id. rewrite sn_by_id0. destruct (M1 !! id); [|done]. cbn. by rewrite marked_next by auto.
  - rewrite sn_inserted0. transitivity false; [|symmetry]; apply N.ltb_ge; lia.
  - intros st. rewrite sn_promoted0. split; intros (k & y & ? & ? & _); exfalso; lia.
  - intros k y H1 H2. lia.
  - intros k H1 H2. destruct (decide (k = m)) as [->|]; [done|]. apply sn_reach0; [done|lia].
Qed.
Lemma scan_lane_spec ns : ∀ m sc,
  scanned m sc → (∀ k, k ∈ ns ↔ is_Some (M1 !! (s, k)) ∧ m ≤ k) → StronglySorted N.lt ns →
  ∃ m', m ≤ m' ∧ scanned m' (scan_lane (s, n) (N.min m U64_MAX) ns sc) ∧ stops m'.
Proof.
  induction ns as [|k ns IH]; intros m sc Hsc Hin Hs; cbn.
  - exists m. split_and!; [done..|]. left. apply eq_None_not_Some. intros Hm. by apply (elem_of_nil m), Hin.
  - assert (is_Some (M1 !! (s, k)) ∧ m ≤ k) as [[x Hx] Hle] by (apply Hin; left).
    pose proof (Hrange _ _ (mk_is_Some _ _ Hx)) as Hk. rewrite N.min_l by lia.
    assert (Forall (N.lt k) ns ∧ StronglySorted N.lt ns) as [Hlt Hs'] by (inversion Hs; done).
    destruct (N.eqb_spec k m) as [->|Hne]; cbn.
    2: { exists m. split_and!; [done..|]. left. apply eq_None_not_Some. intros Hm.
         assert (m ∈ k :: ns) as [->|Hm']%elem_of_cons by (apply Hin; auto); [done|].
         pose proof (proj1 (Forall_forall _ _) Hlt m Hm'). cbn in *. lia. }
    assert (sc.(sc_pool).(by_id) !! (s, m) = Some x) as ->.
    { rewrite (sn_by_id _ _ Hsc), Hx. cbn. by rewrite marked_same by lia. }
    assert (∀ j, j ∈ ns ↔ is_Some (M1 !! (s, j)) ∧ m + 1 ≤ j) as Hin'.
    { intros j. split.
      - intros Hj. destruct (proj1 (Hin j)) as [? _]; [by right|]. split; [done|].
        pose proof (proj1 (Forall_forall _ _) Hlt j Hj). cbn in *. lia.
      - intros [Hj Hmj]. assert (j ∈ m :: ns) as [->|]%elem_of_cons by (apply Hin; split; [done|lia]); [lia|done]. }
    assert (saturating_add U64_MAX m 1 = N.min (m + 1) U64_MAX) as ->.
    { unfold saturating_add. lia. }
    assert (∀ sc', scanned (m + 1) sc' → ∃ m', m ≤ m' ∧ scanned m' (scan_lane (s, n) (N.min (m + 1) U64_MAX) ns sc') ∧ stops m') as Hnext.
    { intros sc' Hsc'. destruct (IH (m + 1) sc' Hsc' Hin' Hs') as (m' & ? & ? & ?). exists m'. split_and!; [lia|done..]. }
    destruct (N.compare_spec m n) as [->|Hmn|Hmn].
    + apply Hnext. apply scanned_mark; [done..|intros; lia|done].
    + apply Hnext. apply scanned_pass; [done..|by eexists].
    + destruct (is_pending x) eqn:Hpend.
      * exists m. split_and!; [done..|]. right. eauto.
      * assert (sc.(sc_inserted) = true) as -> by (rewrite (sn_inserted _ _ Hsc); by apply N.ltb_lt).
        apply Hnext. pose proof (scanned_mark m sc x (sc.(sc_promoted) ++ [inner x]) Hsc) as H. rewrite Hpend in H.
        apply H; [lia|done|done|intros; lia].
Qed.

(** What is pending after the scan is what is executable. *)
Context (M0 : gmap AA2dTransactionId Internal) (x0 : Internal).
Context (HM1 : M1 = <[(s, n) := x0]> M0) (Hx0 : is_pending x0 = false).
Context (Hf : flags_ok nowhere c M0) (Hcn : c s ≤ n).
Lemma present_before s' k : is_Some (M0 !! (s', k)) → is_Some (M1 !! (s', k)).
Proof.
  intros Hk. rewrite HM1. destruct (decide ((s', k) = (s, n))) as [->|]; [rewrite lookup_insert_eq; by eexists|].
  by rewrite lookup_insert_ne by auto.
Qed.
Lemma executable_below s' k : (s', k) ≠ (s, n) → ¬ behind s n (s', k) → executable M1 c s' k ↔ executable M0 c s' k.
Proof.
  intros Hne Hb. unfold executable. split; intros H j Hj Hk; specialize (H j Hj Hk); [|by apply present_before].
  rewrite HM1, lookup_insert_ne in H; [done|]. intros [= <- <-]. apply Hb. split; [done|]. cbn. assert (n ≠ k) by congruence. lia.
Qed.
Lemma scanned_executable m s' k sc : scanned m sc → executable sc.(sc_pool).(by_id) c s' k ↔ executable M1 c s' k.
Proof. intros Hsc. unfold executable. setoid_rewrite (sn_by_id _ _ Hsc). setoid_rewrite fmap_is_Some. done. Qed.
Lemma stopped_executable m s' k y :
  c s ≤ m → (∀ j, c s ≤ j → j < m → is_Some (M1 !! (s, j))) → stops m → M1 !! (s', k) = Some y → c s' ≤ k →
  executable M1 c s' k ↔ is_pending (marked m (s', k) y) = true.
Proof.
  intros Hcm Hreach Hst Hy Hle. destruct (decide (s' = s ∧ n ≤ k ∧ k < m)) as [(-> & H1 & H2)|Hd'].
  - unfold marked. rewrite decide_True by done. cbn. split; [done|]. intros _ j Hj Hjk. apply Hreach; [done|lia].
  - assert (marked m (s', k) y = y) as -> by (unfold marked; by rewrite decide_False).
    destruct (decide ((s', k) = (s, n))) as [[= -> ->]|Hne].
    { assert (y = x0) as -> by (rewrite HM1, lookup_insert_eq in Hy; congruence). rewrite Hx0. split; [|done]. intros H.
      assert (m ≤ n) as Hm by (apply N.nlt_ge; intros ?; by apply Hd').
      destruct Hst as [Hn|[? _]]; [|lia]. destruct (H m Hcm Hm); congruence. }
    assert (M0 !! (s', k) = Some y) as Hy0 by (by rewrite HM1, lookup_insert_ne in Hy by auto).
    rewrite (Hf _ _ _ Hy0 Hle ltac:(intros [])). destruct (decide (s' = s ∧ n < k)) as [[-> Hlt]|Hb]; [|by apply executable_below].
    assert (m ≤ k) as Hmk by (apply N.nlt_ge; intros ?; apply Hd'; split_and!; [done|lia|done]).
    split; [|intros H j Hj Hk; by apply present_before, H]. intros H. destruct Hst as [Hn|(Hnm & y' & Hy' & Hp')].
    + destruct (H m Hcm Hmk). congruence.
    + assert (M0 !! (s, m) = Some y') as Hm0 by (rewrite HM1, lookup_insert_ne in Hy' by (intros [=]; lia); done).
      apply (Hf _ _ _ Hm0 Hcm ltac:(intros [])) in Hp'. intros j Hj Hk. destruct (decide (j = n)) as [->|Hjn]; [apply Hp'; lia|].
      destruct (H j Hj Hk) as [z Hz]. rewrite HM1, lookup_insert_ne in Hz by congruence. by eexists.
Qed.
Lemma scanned_flags m sc : c s ≤ m → scanned m sc → stops m → flags_ok nowhere c sc.(sc_pool).(by_id).
Proof.
  intros Hcm Hsc Hst s' k x Hx Hle _. rewrite (scanned_executable m) by done. rewrite (sn_by_id _ _ Hsc) in Hx.
  apply fmap_Some in Hx as (y & Hy & ->). symmetry. apply stopped_executable; [done|apply (sn_reach _ _ Hsc)|done..].
Qed.
End scan.

(** ** Keys of the promoted *)

Abbreviation id_of st := (aa_transaction_id (stored_tx st)).
Abbreviation by_sel f := (λ (id : AA2dTransactionId) (_ : Internal), f id).
Lemma promote_keys P : ∀ p (selp selq : AA2dTransactionId → bool),
  distinct (stored p.(by_id)) → NoDup P →
  (∀ st, st ∈ P → ∃ y, p.(by_id) !! id_of st = Some y ∧ inner y = st ∧ selp (id_of st) = false ∧ selq (id_of st) = true) →
  order_ok R (by_sel selp) p.(by_id) p.(base_fee) p.(pending_eviction_order) →
  order_ok R (by_sel selq) p.(by_id) p.(base_fee) p.(queued_eviction_order) →
  let p' := foldl (promote_key R) p P in
  p' = set_pending_eviction_order (λ _, p'.(pending_eviction_order)) (set_queued_eviction_order (λ _, p'.(queued_eviction_order)) p) ∧
  order_ok R (by_sel (λ id, selp id || bool_decide (id ∈ (λ st, id_of st) <$> P))) p.(by_id) p.(base_fee) p'.(pending_eviction_order) ∧
  order_ok R (by_sel (λ id, selq id && negb (bool_decide (id ∈ (λ st, id_of st) <$> P)))) p.(by_id) p.(base_fee) p'.(queued_eviction_order).
Proof.
  induction P as [|st P IH]; intros p selp selq Hd Hnd HP Hop Hoq; cbn.
  - split_and!; [by destruct p|..]; (eapply order_sel_ext; [|done]); intros id x _; cbn;
      by rewrite ?orb_false_r, ?andb_true_r.
  - apply NoDup_cons in Hnd as [Hni Hnd]. destruct (HP st) as (y & Hy & <- & Hsp & Hsq); [left|].
    assert (∀ st', st' ∈ P → id_of st' ≠ id_of (inner y)) as Hother.
    { intros st' Hst' E. destruct (HP st') as (y' & Hy' & Hin' & _); [by right|]. rewrite E, Hy in Hy'. injection Hy' as <-. congruence. }
    destruct (IH (promote_key R p (inner y)) (λ id, selp id || bool_decide (id = id_of (inner y)))
      (λ id, selq id && bool_decide (id ≠ id_of (inner y))))
      as (E & I1 & I2); [done|done| | | |].
    + intros st' Hst'. destruct (HP st') as (y' & Hy' & Hin' & -> & ->); [by right|]. exists y'. split_and!; [done..| |].
      * by rewrite bool_decide_eq_false_2 by auto.
      * by rewrite bool_decide_eq_true_2 by auto.
    + eapply (order_join R _ _ Hd (by_sel selp)); [exact Hy|exact Hsp| | |exact Hop]; cbn.
      * by rewrite bool_decide_eq_true_2, orb_true_r by done.
      * intros id' x' Hne _. by rewrite bool_decide_eq_false_2, orb_false_r by done.
    + eapply (order_leave R _ _ Hd (by_sel selq)); [exact Hy|exact Hsq| | |exact Hoq]; cbn.
      * by rewrite bool_decide_eq_false_2, andb_false_r by auto.
      * intros id' x' Hne _. by rewrite bool_decide_eq_true_2, andb_true_r by done.
    + cbn in *. split_and!.
      * rewrite E at 1. by destruct p.
      * eapply order_sel_ext; [|exact I1]. intros id x _. cbn. rewrite <- orb_assoc. f_equal.
        rewrite <- bool_decide_or. apply bool_decide_ext. apply elem_of_cons.
      * eapply order_sel_ext; [|exact I2]. intros id x _. cbn. rewrite <- andb_assoc. f_equal.
        rewrite <- !bool_decide_not, <- bool_decide_and. apply bool_decide_ext. rewrite elem_of_cons. tauto.
Qed.

(** ** The new transaction is placed *)

Section place.
Context (c : Chain) (p : t) (Hp : pool_ok c p) (Hnext : p.(submission_id) < CAPACITY).
Context (tx : TempoPooledTransaction.t) (Htx : tx_ok tx) (Hexp : is_expiring_nonce tx = false).
Abbreviation id := (aa_transaction_id tx).
Abbreviation st := (AA2dStoredTransaction.mk p.(submission_id) tx).
Abbreviation x := (AA2dInternalTransaction.mk st false).
Abbreviation p1 := (next_id p).2.

(** What follows the entry in [by_id] up to the scan. *)
Definition indexed (replaced : option Internal) (p : t) : t :=
  let p := set_queued_size (λ z, (z + Z.of_N (size tx))%Z) p in
  let p := if is_aa_2d tx then record_2d_slot R tx p else p in
  let p := match replaced with
    | Some old => remove_eviction_key R old (set_by_hash (delete (tx_hash R (inner_tx old))) p)
    | None => p
    end in
  set_by_hash (insert (tx_hash R tx) tx) p.
Definition but_new : AA2dTransactionId → Internal → bool := λ id' y, negb (is_pending y) && bool_decide (id' ≠ id).
Record indexed_ok (q : t) : Prop := IndexedOk {
  ix_static : static_ok R q;
  ix_by_id : q.(by_id) = <[id := x]> p.(by_id);
  ix_pending : order_ok R pending_sel q.(by_id) q.(base_fee) q.(pending_eviction_order);
  ix_queued : order_ok R but_new q.(by_id) q.(base_fee) q.(queued_eviction_order);
  ix_sums : sums_ok q;
  ix_independent : q.(independent_transactions) = p.(independent_transactions);
  ix_base_fee : q.(base_fee) = p.(base_fee);
  ix_config : q.(config) = p.(config);
  ix_next : q.(submission_id) = p.(submission_id) + 1;
  ix_sender : capped p q.(txs_by_sender)
}.
Lemma total_insert_any {V} (f : V → N) (m : gmap AA2dTransactionId V) k v :
  total f (<[k := v]> m) = f v + total f (delete k m).
Proof. rewrite <- insert_delete_eq. apply total_insert_None, lookup_delete_eq. Qed.
Lemma entries_insert T : entries_ok T → entries_ok (<[id := st]> T).
Proof. intros HT id' st' [[<- <-]|[_ Hst']]%lookup_insert_Some; [done|auto]. Qed.
Lemma recorded q : (if is_aa_2d tx then record_2d_slot R tx q else q) = record_2d_slot R tx q.
Proof. by destruct Htx as (_ & _ & -> & _). Qed.

Section fresh.
Context (Hnew : p.(by_id) !! id = None) (p2 : t) (Hacc : accept_sender tx.(TempoPooledTransaction.sender) p1 = Some p2).
Abbreviation q := (indexed None (set_queued_count (λ n, n + 1) (set_txs_by_lane (λ m, <[id.1 := m.[id.1] + 1]> m) (set_by_id (insert id x) p2)))).
Lemma fresh_static : static_ok R q.
Proof.
  apply accept_sender_Some in Hacc as [-> _]. unfold indexed. rewrite recorded. destruct Hp as [[[[] _ _ _] _] _].
  assert (stored p.(by_id) !! id = None) as HT by by rewrite lookup_fmap, Hnew.
  assert (of_sender tx.(TempoPooledTransaction.sender) st = 1) as Hself by apply (sender_self st).
  assert (of_lane (tx.(TempoPooledTransaction.sender), tx.(TempoPooledTransaction.nonce_key)) st = 1) as Hlane by apply (lane_self st).
  split; cbn -[N.modulo]; rewrite ?taken_id, ?fmap_insert by done; change (inner x) with st; try done.
  - by apply entries_insert.
  - eapply below_insert; [done|lia|cbn; lia].
  - eapply below_mono; [done|lia].
  - by eapply distinct_insert.
  - by apply (hash_insert R _ _ _ st).
  - eapply slot_insert; [done..| |done]. split; apply Htx.
  - eapply counts_incr; [done|..]; cbn beta.
    + rewrite total_insert_None, Hself by done. rewrite (proj1 (st_sender0 _)). lia.
    + rewrite total_insert_None, Hself by done. lia.
    + intros a Ha. rewrite total_insert_None, (sender_other st) by done. lia.
  - eapply counts_incr; [done|..]; cbn beta.
    + rewrite total_insert_None, Hlane by done. rewrite (proj1 (st_lane0 _)). lia.
    + rewrite total_insert_None, Hlane by done. lia.
    + intros a Ha. rewrite total_insert_None, (lane_other st) by done. lia.
  - rewrite map_size_insert_None by done. lia.
  - unfold CAPACITY in *. lia.
Qed.
Lemma order_new sel ix : (∀ id' y, sel id' y = true → id' ≠ id ∨ is_pending y = true) →
  order_ok R sel (delete id p.(by_id)) p.(base_fee) ix → order_ok R sel (<[id := x]> p.(by_id)) p.(base_fee) ix.
Proof.
  intros Hs. apply (order_other R _ _ _ _ _ _ id); [by rewrite lookup_delete_eq| | |done].
  - intros y. rewrite lookup_insert_eq. intros [= <-]. destruct (sel id x) eqn:E; [|done]. by apply Hs in E as [].
  - intros id' Hne. by rewrite lookup_insert_ne, lookup_delete_ne.
Qed.
Lemma fresh_ok : indexed_ok q.
Proof.
  pose proof fresh_static as Hs. apply accept_sender_Some in Hacc as [E Hcap]. unfold indexed in *. rewrite recorded in *. subst p2.
  destruct Hp as [[[_ H1 H2 []] _] _]. split; [done|done|..]; cbn -[N.modulo] in *; try done; [..|by apply capped_insert].
  - apply order_new; [intros; by right|]. by rewrite delete_id.
  - apply order_new; [intros id' y [_ ?%bool_decide_eq_true]%andb_prop; by left|]. rewrite delete_id by done.
    eapply order_sel_ext; [|exact H2]. intros id' y Hy. unfold but_new, queued_sel. rewrite bool_decide_eq_true_2, andb_true_r; [done|].
    intros ->. congruence.
  - split; cbn; rewrite total_insert_None by done; cbn; lia.
  - by apply taken_id.
Qed.
End fresh.

Section replace.
Context (old : Internal) (Hold : p.(by_id) !! id = Some old).
Abbreviation q := (indexed (Some old) (set_queued_count (λ n, n + 1)
  (remove_from_subpool (is_pending old) (size (inner_tx old)) (set_by_id (insert id x) p1)))).
Lemma old_same f : (∀ st st', id_of st = id_of st' → f st = f st') → total f (<[id := st]> (stored p.(by_id))) = total f (stored p.(by_id)).
Proof.
  intros Hf. assert (stored p.(by_id) !! id = Some (inner old)) as HT by by rewrite lookup_fmap, Hold.
  pose proof (total_replace f _ _ _ st HT) as Hr. rewrite (Hf st (inner old)) in Hr; [lia|].
  destruct Hp as [[Hok _] _]. by destruct (stored_entry R p Hok _ _ Hold) as [<- _].
Qed.
Lemma replaced_fields :
  q.(by_id) = <[id := x]> p.(by_id) ∧ q.(expiring_nonce_txs) = p.(expiring_nonce_txs) ∧ q.(txs_by_lane) = p.(txs_by_lane) ∧
  q.(txs_by_sender) = p.(txs_by_sender) ∧ q.(by_hash) = <[tx_hash R tx := tx]> (delete (tx_hash R (inner_tx old)) p.(by_hash)) ∧
  q.(slot_to_nonce_entry) = <[nonce_slot R id.1 := Sequence id.1]> p.(slot_to_nonce_entry) ∧
  q.(expiring_nonce_eviction_order) = p.(expiring_nonce_eviction_order) ∧ q.(independent_transactions) = p.(independent_transactions) ∧
  q.(base_fee) = p.(base_fee) ∧ q.(config) = p.(config) ∧ q.(submission_id) = p.(submission_id) + 1.
Proof.
  unfold indexed. rewrite recorded. unfold remove_from_subpool, remove_eviction_key.
  destruct (is_pending old); cbn -[N.modulo]; rewrite taken_id by done; split_and!; done.
Qed.
Lemma replaced_flags :
  let key := eviction_key R (inner old) p.(base_fee) in
  q.(pending_eviction_order) = (if is_pending old then delete key p.(pending_eviction_order) else p.(pending_eviction_order)) ∧
  q.(queued_eviction_order) = (if is_pending old then p.(queued_eviction_order) else delete key p.(queued_eviction_order)) ∧
  q.(pending_count) = (if is_pending old then usize_sub p.(pending_count) 1 else p.(pending_count)) ∧
  q.(queued_count) = (if is_pending old then p.(queued_count) else usize_sub p.(queued_count) 1) + 1 ∧
  q.(pending_size) = (p.(pending_size) - Z.of_N (size_pending old))%Z ∧
  q.(queued_size) = (p.(queued_size) - Z.of_N (size_queued old) + Z.of_N (size tx))%Z.
Proof.
  unfold indexed. rewrite recorded. unfold remove_from_subpool, remove_eviction_key, size_pending, size_queued.
  destruct (is_pending old); cbn; rewrite ?Z.sub_0_r; split_and!; done.
Qed.
Lemma replaced_static : static_ok R q.
Proof.
  destruct replaced_fields as (Eb & Ee & El & Es & Eh & Et & Eo & _ & Ef & _ & Ei). pose proof old_same as Hsame.
  assert (stored p.(by_id) !! id = Some (inner old)) as HT by by rewrite lookup_fmap, Hold.
  destruct Hp as [[[[] _ _ _] _] _]. split; rewrite ?Eb, ?Ee, ?El, ?Es, ?Eh, ?Et, ?Eo, ?Ef, ?Ei, ?fmap_insert; change (inner x) with st; try done.
  - by apply entries_insert.
  - eapply below_insert; [done|lia|cbn; lia].
  - eapply below_mono; [done|lia].
  - by eapply distinct_insert.
  - rewrite <- insert_delete_eq. apply (hash_insert R _ _ _ st); [apply lookup_delete_eq|done|].
    by apply (hash_delete R _ _ st_entries0 st_expiring0).
  - eapply slot_insert; [done..| |done]. split; apply Htx.
  - intros a. rewrite Hsame; [apply st_sender0|]. intros ? ? [= E _ _]. unfold of_sender. by rewrite E.
  - intros s. rewrite Hsame; [apply st_lane0|]. intros ? ? E. unfold of_lane. by rewrite E.
  - rewrite map_size_insert_Some by done. lia.
  - unfold CAPACITY in *. lia.
Qed.
Lemma replaced_ok : indexed_ok q.
Proof.
  pose proof replaced_static as Hs. destruct replaced_fields as (Eb & Ee & _ & Es & _ & _ & _ & Ei & Ef & Ec & En).
  destruct replaced_flags as (Ep & Eq & Ecp & Ecq & Ezp & Ezq). pose proof Hp as [[Hok _] _]. destruct (count_bounds R p Hok) as [Hbp Hbq].
  pose proof (st_distinct _ _ (tb_static _ _ Hok)) as Hd. destruct Hok as [_ H1 H2 []]. split; [done|done|..]; try done; [..|rewrite Es; apply capped_same]; rewrite ?Eb, ?Ef.
  - rewrite Ep. apply order_new; [intros; by right|]. by eapply (order_drop R _ _ Hd _ _ Hold).
  - rewrite Eq. apply order_new; [intros id' y [_ ?%bool_decide_eq_true]%andb_prop; by left|].
    eapply (order_sel_ext R queued_sel).
    + intros id' y [Hne Hy]%lookup_delete_Some. unfold but_new, queued_sel. by rewrite bool_decide_eq_true_2, andb_true_r by auto.
    + eapply (order_drop R _ _ Hd _ _ Hold); [|done]. unfold queued_sel. by destruct (is_pending old).
  - pose proof (λ f, total_delete f _ _ _ Hold) as Ht. pose proof (Ht one_pending). pose proof (Ht one_queued).
    pose proof (Ht size_pending). pose proof (Ht size_queued). destruct (weights_queued x eq_refl) as (? & ? & ? & W4).
    change (size (inner_tx x)) with (size tx) in W4.
    split; rewrite Eb, ?Ee, ?Ecp, ?Ecq, ?Ezp, ?Ezq, total_insert_any; destruct (is_pending old) eqn:Eo.
    all: (destruct (weights_pending _ Eo) as (? & ? & ? & ?) || destruct (weights_queued _ Eo) as (? & ? & ? & ?)); rewrite ?usize_pred by lia; lia.
Qed.
End replace.
Lemma place_by_id_ok replaced p2 : place_by_id R tx x p1 = inr (replaced, p2) → indexed_ok (indexed replaced p2).
Proof.
  unfold place_by_id. change (by_id p1) with p.(by_id). destruct (p.(by_id) !! id) as [old|] eqn:Hold.
  - destruct (is_replacement_underpriced _ _ _); [done|]. intros [= <- <-]. by apply replaced_ok.
  - destruct (accept_sender _ p1) as [p0|] eqn:Hacc; [|done]. intros [= <- <-]. by apply fresh_ok.
Qed.

(** What the scan leads to, before anything is evicted. *)
Definition settled (sc : scan) : t :=
  let q := sc.(sc_pool) in
  let q := set_pending_count (λ n, n + sc.(sc_count)) q in
  let q := set_queued_count (λ n, usize_sub n sc.(sc_count)) q in
  let q := set_pending_size (λ z, (z + Z.of_N sc.(sc_size))%Z) q in
  let q := set_queued_size (λ z, (z - Z.of_N sc.(sc_size))%Z) q in
  let q := foldl (promote_key R) q sc.(sc_promoted) in
  let key := eviction_key R st q.(base_fee) in
  if sc.(sc_inserted) then
    let q := set_pending_eviction_order (set_insert key id) q in
    if id.2 =? c id.1 then set_independent_transactions (independent_insert R st) q else q
  else set_queued_eviction_order (set_insert key id) q.
Section settle.
Context (q : t) (Hq : indexed_ok q) (Hcn : c id.1 ≤ id.2) (sc : scan) (m : N).
Context (Hsc : scanned q id.1 id.2 c m sc) (Hcm : c id.1 ≤ m) (Hst : stops q id.1 id.2 m).
Abbreviation M2 := (sc.(sc_pool).(by_id)).
Abbreviation q3 := (set_queued_size (λ z, (z - Z.of_N sc.(sc_size))%Z) (set_pending_size (λ z, (z + Z.of_N sc.(sc_size))%Z)
  (set_queued_count (λ n, usize_sub n sc.(sc_count)) (set_pending_count (λ n, n + sc.(sc_count)) sc.(sc_pool))))).
Lemma scanned_stored : stored M2 = stored q.(by_id).
Proof.
  apply map_eq. intros id'. rewrite !lookup_fmap, (sn_by_id _ _ _ _ _ _ Hsc). destruct (q.(by_id) !! id') as [y|]; [|done]. cbn.
  f_equal. unfold marked. by destruct (decide _).
Qed.
Lemma counted_same : same_static q q3.
Proof. pose proof scanned_stored as Hs. rewrite (sn_frame _ _ _ _ _ _ Hsc). split; cbn; done. Qed.
Lemma counted_sums : sums_ok q3.
Proof.
  destruct (counts_below R q (ix_static _ Hq) (ix_sums _ Hq)) as [Hbp Hbq]. destruct (ix_sums _ Hq).
  destruct (sn_count _ _ _ _ _ _ Hsc), (sn_size _ _ _ _ _ _ Hsc).
  pose proof (sn_frame _ _ _ _ _ _ Hsc) as Ef. split; cbn; rewrite Ef; cbn; rewrite ?usize_minus by lia; lia.
Qed.
Definition was_pending (id' : AA2dTransactionId) : bool := match q.(by_id) !! id' with Some y => is_pending y | None => false end.
Definition was_queued (id' : AA2dTransactionId) : bool := match q.(by_id) !! id' with Some y => but_new id' y | None => false end.
Lemma order_scanned (sel : AA2dTransactionId → Internal → bool) (f : AA2dTransactionId → bool) bf ix :
  (∀ id' y, q.(by_id) !! id' = Some y → f id' = sel id' y) → order_ok R sel q.(by_id) bf ix → order_ok R (by_sel f) M2 bf ix.
Proof.
  intros Hf. apply order_ext. intros id' k. setoid_rewrite (sn_by_id _ _ _ _ _ _ Hsc). split.
  - intros (y & Hy & Hs & ->). rewrite Hy. eexists. split; [done|]. split; [by rewrite (Hf _ _ Hy)|]. unfold marked. by destruct (decide _).
  - intros (z & (y & Hy & ->)%fmap_Some & Hs & ->). exists y. split; [done|]. rewrite (Hf _ _ Hy) in Hs. split; [done|].
    unfold marked. by destruct (decide _).
Qed.
Lemma promoted_at st' : st' ∈ sc.(sc_promoted) ↔ ∃ k y, id.2 < k ∧ k < m ∧ q.(by_id) !! (id.1, k) = Some y ∧ inner y = st' ∧ id_of st' = (id.1, k).
Proof.
  rewrite (sn_promoted _ _ _ _ _ _ Hsc). split; [|by intros (k & y & ? & ? & ? & ? & _); eauto 8].
  intros (k & y & ? & ? & Hy & <-). exists k, y. split_and!; [done..|]. symmetry.
  apply (st_entries _ _ (ix_static _ Hq)). by rewrite lookup_fmap, Hy.
Qed.
Abbreviation promoted_ids := ((λ st', id_of st') <$> sc.(sc_promoted)).
Lemma promoted_marked id' y : q.(by_id) !! id' = Some y →
  was_pending id' || bool_decide (id' ∈ promoted_ids) = is_pending (marked id.1 id.2 m id' y) && bool_decide (id' ≠ id).
Proof.
  intros Hy. unfold was_pending. rewrite Hy. assert (id' ∈ promoted_ids ↔ id'.1 = id.1 ∧ id.2 < id'.2 ∧ id'.2 < m) as Hin.
  { rewrite list_elem_of_fmap. split.
    - intros (st' & -> & (k & y' & ? & ? & ? & ? & ->)%promoted_at). done.
    - intros (E & ? & ?). exists (inner y). destruct id' as [s k]. change (s = id.1) in E. subst s.
      assert (id_of (inner y) = (id.1, k)) as Ek.
      { symmetry. apply (st_entries _ _ (ix_static _ Hq)). by rewrite lookup_fmap, Hy. }
      split; [done|]. apply promoted_at. eauto 8. }
  destruct (decide (id' = id)) as [->|Hne].
  - rewrite (bool_decide_eq_false_2 (id ≠ id)), andb_false_r by auto. rewrite (ix_by_id _ Hq), lookup_insert_eq in Hy.
    injection Hy as <-. cbn. apply bool_decide_eq_false. rewrite Hin. lia.
  - rewrite (bool_decide_eq_true_2 (id' ≠ id)), andb_true_r by done. unfold marked.
    assert (id'.1 = id.1 → id'.2 ≠ id.2) as Hk by (intros E1 E2; apply Hne; by rewrite (surjective_pairing id'), E1, E2).
    destruct (decide (id'.1 = id.1 ∧ id.2 ≤ id'.2 ∧ id'.2 < m)) as [(E & ? & ?)|Hd].
    + rewrite bool_decide_eq_true_2, orb_true_r; [done|]. apply Hin. specialize (Hk E). split_and!; [done|lia|done].
    + rewrite bool_decide_eq_false_2, orb_false_r; [done|]. rewrite Hin. intros (? & ? & ?). apply Hd. split_and!; [done|lia|done].
Qed.
Lemma promoted_unmarked id' y : q.(by_id) !! id' = Some y →
  was_queued id' && negb (bool_decide (id' ∈ promoted_ids)) = but_new id' (marked id.1 id.2 m id' y).
Proof.
  intros Hy. pose proof (promoted_marked id' y Hy) as H. unfold was_pending, was_queued, but_new in *. rewrite Hy in *.
  destruct (bool_decide (id' ≠ id)), (is_pending y), (is_pending (marked _ _ _ _ _)), (bool_decide (id' ∈ _)); done.
Qed.
Abbreviation q4 := (foldl (promote_key R) q3 sc.(sc_promoted)).
Lemma promoted_orders :
  q4 = set_pending_eviction_order (λ _, q4.(pending_eviction_order)) (set_queued_eviction_order (λ _, q4.(queued_eviction_order)) q3) ∧
  order_ok R (λ id' z, is_pending z && bool_decide (id' ≠ id)) M2 p.(base_fee) q4.(pending_eviction_order) ∧
  order_ok R but_new M2 p.(base_fee) q4.(queued_eviction_order).
Proof.
  pose proof (sn_frame _ _ _ _ _ _ Hsc) as Ef. assert (base_fee q3 = p.(base_fee)) as Ebf.
  { cbn. rewrite Ef. apply (ix_base_fee _ Hq). }
  destruct (promote_keys sc.(sc_promoted) q3 was_pending was_queued) as (E & Hop & Hoq).
  - cbn. rewrite scanned_stored. apply (st_distinct _ _ (ix_static _ Hq)).
  - apply (sn_NoDup _ _ _ _ _ _ Hsc).
  - intros st' (k & y & H1 & H2 & Hy & Hin & ->)%promoted_at. pose proof (sn_queued _ _ _ _ _ _ Hsc k y H1 H2 Hy) as Hqd. change (by_id q3) with M2.
    eexists. split; [rewrite (sn_by_id _ _ _ _ _ _ Hsc), Hy; done|]. unfold was_pending, was_queued, but_new. rewrite Hy, Hqd.
    split_and!; [unfold marked; by destruct (decide _)|done|]. cbn. apply bool_decide_eq_true. intros E%(f_equal snd). cbn in *. lia.
  - cbn. rewrite Ef. cbn. rewrite (ix_base_fee _ Hq). eapply order_scanned; [|rewrite <- (ix_base_fee _ Hq); apply (ix_pending _ Hq)].
    intros id' y Hy. unfold was_pending. by rewrite Hy.
  - cbn. rewrite Ef. cbn. rewrite (ix_base_fee _ Hq). eapply order_scanned; [|rewrite <- (ix_base_fee _ Hq); apply (ix_queued _ Hq)].
    intros id' y Hy. unfold was_queued. by rewrite Hy.
  - split; [done|]. rewrite Ebf in Hop, Hoq. change (by_id q3) with M2 in Hop, Hoq.
    split; (eapply order_sel_ext; [|done]); cbn beta; intros id' z Hz; rewrite (sn_by_id _ _ _ _ _ _ Hsc) in Hz;
      apply fmap_Some in Hz as (y & Hy & ->); symmetry; [by apply promoted_marked|by apply promoted_unmarked].
Qed.
Lemma new_at : M2 !! id = Some (marked id.1 id.2 m id x) ∧ inner (marked id.1 id.2 m id x) = st ∧
  is_pending (marked id.1 id.2 m id x) = sc.(sc_inserted).
Proof.
  rewrite (sn_by_id _ _ _ _ _ _ Hsc), (ix_by_id _ Hq), lookup_insert_eq, (sn_inserted _ _ _ _ _ _ Hsc). split; [done|]. unfold marked.
  destruct (N.ltb_spec id.2 m); [rewrite decide_True by (split_and!; done)|rewrite decide_False by (intros (_ & _ & ?); lia)]; done.
Qed.
Lemma settled_orders bf : bf = p.(base_fee) →
  order_ok R pending_sel M2 bf (if sc.(sc_inserted) then set_insert (eviction_key R st bf) id q4.(pending_eviction_order) else q4.(pending_eviction_order)) ∧
  order_ok R queued_sel M2 bf (if sc.(sc_inserted) then q4.(queued_eviction_order) else set_insert (eviction_key R st bf) id q4.(queued_eviction_order)).
Proof.
  intros ->. destruct promoted_orders as (_ & Hop & Hoq). destruct new_at as (Hz & Hin & Hpe).
  assert (distinct (stored M2)) as Hd by (rewrite scanned_stored; apply (st_distinct _ _ (ix_static _ Hq))).
  set (z := marked _ _ _ _ _) in *. rewrite <- Hin. unfold pending_sel, queued_sel, but_new in *. destruct (sc_inserted sc); split.
  - eapply (order_join R _ _ Hd _ _ _ id z Hz); [| | |exact Hop]; cbn beta; [by rewrite bool_decide_eq_false_2, andb_false_r by auto|done|].
    intros id' y Hne _. by rewrite bool_decide_eq_true_2, andb_true_r by done.
  - eapply order_sel_ext; [|exact Hoq]. intros id' y Hy. cbn beta. destruct (decide (id' = id)) as [->|Hne].
    + assert (y = z) as -> by congruence. by rewrite Hpe.
    + by rewrite bool_decide_eq_true_2, andb_true_r by done.
  - eapply order_sel_ext; [|exact Hop]. intros id' y Hy. cbn beta. destruct (decide (id' = id)) as [->|Hne].
    + assert (y = z) as -> by congruence. by rewrite Hpe.
    + by rewrite bool_decide_eq_true_2, andb_true_r by done.
  - eapply (order_join R _ _ Hd _ _ _ id z Hz); [| | |exact Hoq]; cbn beta; [by rewrite bool_decide_eq_false_2, andb_false_r by auto|by rewrite Hpe|].
    intros id' y Hne _. by rewrite bool_decide_eq_true_2, andb_true_r by done.
Qed.
Lemma settled_fields :
  same_static q (settled sc) ∧ (settled sc).(by_id) = M2 ∧ sums_ok (settled sc) ∧
  (settled sc).(pending_eviction_order) = (if sc.(sc_inserted) then set_insert (eviction_key R st p.(base_fee)) id q4.(pending_eviction_order) else q4.(pending_eviction_order)) ∧
  (settled sc).(queued_eviction_order) = (if sc.(sc_inserted) then q4.(queued_eviction_order) else set_insert (eviction_key R st p.(base_fee)) id q4.(queued_eviction_order)) ∧
  (settled sc).(independent_transactions) = (if sc.(sc_inserted) && (id.2 =? c id.1) then independent_insert R st p.(independent_transactions) else p.(independent_transactions)).
Proof.
  pose proof counted_same as Hss. pose proof counted_sums as Hsm. destruct promoted_orders as (E4 & _ & _).
  assert (independent_transactions q3 = p.(independent_transactions)) as Ei by (cbn; rewrite (sn_frame _ _ _ _ _ _ Hsc); apply (ix_independent _ Hq)).
  assert (base_fee q3 = p.(base_fee)) as Ef by (rewrite (kp_base_fee _ _ (ss_keeps _ _ Hss)); apply (ix_base_fee _ Hq)).
  change (settled sc) with (let q := q4 in
    let key := eviction_key R st q.(base_fee) in
    if sc.(sc_inserted) then
      let q := set_pending_eviction_order (set_insert key id) q in
      if id.2 =? c id.1 then set_independent_transactions (independent_insert R st) q else q
    else set_queued_eviction_order (set_insert key id) q). cbv zeta.
  assert (same_static q q4 ∧ by_id q4 = M2 ∧ sums_ok q4 ∧ independent_transactions q4 = p.(independent_transactions) ∧ base_fee q4 = p.(base_fee))
    as (S4 & B4 & M4 & I4 & F4).
  { rewrite E4. split_and!; [by apply same_static_pending, same_static_queued|done|by destruct Hsm; split|done|done]. }
  generalize dependent q4. intros r _ S4 B4 M4 I4 F4. rewrite F4. 
  destruct (sc_inserted sc), (id.2 =? c id.1); cbn [andb]; (split; [by repeat first [apply same_static_independent|apply same_static_pending|apply same_static_queued]|]); (split; [done|]);
   (split; [by destruct M4; split|]); cbn; rewrite ?I4; done.
Qed.
Lemma settled_pool : pool_ok c (settled sc).
Proof.
  destruct settled_fields as (Hss & Eb & Hsm & Ep & Eq & Ei). pose proof (kp_base_fee _ _ (ss_keeps _ _ Hss)) as Ef. rewrite (ix_base_fee _ Hq) in Ef.
  destruct (settled_orders _ eq_refl) as [Hop Hoq]. pose proof Hp as [[Hok [Hf Hi]] Hc].
  pose proof (static_frame R _ _ (ix_static _ Hq) Hss) as Hs. assert (id = (id.1, id.2)) as Eid by apply surjective_pairing.
  assert (stored M2 = <[id := st]> (stored p.(by_id))) as ET by (rewrite scanned_stored, (ix_by_id _ Hq), fmap_insert; done).
  split; [split|].
  - split; [done|by rewrite Eb, Ef, Ep|by rewrite Eb, Ef, Eq|done].
  - split; rewrite Eb.
    + eapply (scanned_flags q id.1 id.2 c p.(by_id) x); [|done..]. rewrite <- Eid. apply (ix_by_id _ Hq).
    + rewrite Ei, Ef, ET. pose proof (st_distinct _ _ Hs) as Hd. rewrite Eb, ET in Hd. destruct (tb_static _ _ Hok).
      destruct (N.eqb_spec id.2 (c id.1)) as [E|E].
      * assert (sc.(sc_inserted) = true) as ->; [|cbn [andb]].
        { rewrite (sn_inserted _ _ _ _ _ _ Hsc). apply N.ltb_lt. destruct Hst as [Hn|[? _]]; [|done].
          assert (m ≠ id.2); [|lia]. intros ->. rewrite <- Eid, (ix_by_id _ Hq), lookup_insert_eq in Hn. done. }
        eapply (ind_put R _ c); [done..| | |done|done|].
        -- change (id_of st) with id. by rewrite <- E.
        -- rewrite <- E, <- Eid. apply lookup_insert_eq.
        -- intros s' k Hne. rewrite lookup_insert_ne; [done|]. intros E'. by rewrite E' in Hne.
      * rewrite andb_false_r. eapply (ind_frame R _ _ _ _ _ id.1 id.2 st); [by rewrite <- Eid| |done]. lia.
  - intros s k Hk. rewrite Eb, (sn_by_id _ _ _ _ _ _ Hsc), fmap_is_Some, (ix_by_id _ Hq) in Hk.
    destruct (decide ((s, k) = id)) as [E|Hne]; [by rewrite <- E in Hcn|]. rewrite lookup_insert_ne in Hk by auto. by apply Hc.
Qed.
End settle.
Lemma range_of q s k : indexed_ok q → is_Some (q.(by_id) !! (s, k)) → k ≤ U64_MAX.
Proof.
  intros Hq [y Hy]. destruct (st_entries _ _ (ix_static _ Hq) (s, k) (inner y)) as (E & (_ & _ & _ & Hk & _) & _); [by rewrite lookup_fmap, Hy|].
  injection E as _ ->. done.
Qed.
(** The pool before eviction. *)
Lemma settled_exists q : indexed_ok q → c id.1 ≤ id.2 →
  let sc := scan_lane id (c id.1) (lane q.(by_id) id.1 (c id.1)) (Scan q [] false 0 0) in
  pool_ok c (settled sc) ∧ keeps q (settled sc) ∧ (settled sc).(txs_by_sender) = q.(txs_by_sender).
Proof.
  intros Hq Hcn. pose proof (range_of q) as Hr. destruct Htx as (_ & _ & _ & Hnonce & _).
  destruct (scan_lane_spec q id.1 id.2 c (λ s k, Hr s k Hq) (st_distinct _ _ (ix_static _ Hq))
    (lane q.(by_id) id.1 (c id.1)) (c id.1) (Scan q [] false 0 0)) as (m & Hm & Hsc & Hst).
  - split; cbn; try done; try lia.
    + by destruct q.
    + intros id'. destruct (q.(by_id) !! id') as [y|]; [|done]. cbn. unfold marked. rewrite decide_False; [done|]. intros (_ & ? & ?). cbn in *. lia.
    + symmetry. by apply N.ltb_ge.
    + intros st'. split; [by intros []%elem_of_nil|]. intros (k & y & ? & ? & _). cbn in *. lia.
    + constructor.
    + intros k y ? ?. cbn in *. lia.
  - intros k. apply lane_elem.
  - apply lane_sorted.
  - rewrite N.min_l in Hsc by (cbn in *; lia). change (id.1, id.2) with id in Hsc. cbv zeta. split_and!; [by eapply settled_pool|..].
    + eapply ss_keeps. by eapply settled_fields.
    + eapply ss_sender. by eapply settled_fields.
Qed.
End place.

(** ** [add_transaction] *)

Definition in_limits (p : t) : Prop := pending_exceeded R p = false ∧ queued_exceeded R p = false.
(** What an addition leads to: limits hold when it succeeds, and one submission id is taken at most. *)
Definition added_ok (c : Chain) (p : t) (r : (PoolErrorKind + AddedTransaction) * t) : Prop :=
  pool_ok c r.2 ∧ r.2.(config) = p.(config) ∧ r.2.(base_fee) = p.(base_fee) ∧ r.2.(submission_id) ≤ p.(submission_id) + 1 ∧ capped p r.2.(txs_by_sender) ∧
  match r.1 with inl _ => stored r.2.(by_id) = stored p.(by_id) ∧ r.2.(expiring_nonce_txs) = p.(expiring_nonce_txs) | inr _ => in_limits r.2 end.
Lemma rejected_ok c p e : pool_ok c p → added_ok c p (inl e, p).
Proof. intros Hp. unfold added_ok. cbn. split_and!; try done; [lia|apply capped_same]. Qed.
Lemma discarded_ok c p q (f : list TempoPooledTransaction.t → AddedTransaction) :
  pool_ok c q → q.(config) = p.(config) → q.(base_fee) = p.(base_fee) → q.(submission_id) = p.(submission_id) + 1 → capped p q.(txs_by_sender) →
  added_ok c p (let '(discarded, p') := discard R q in (inr (f discarded), p')).
Proof.
  intros Hq Ec Ef En Hcap. pose proof (discard_pool R c q Hq) as (H1 & H2 & H3 & H4). destruct (discard R q) as [d p'].
  unfold added_ok. cbn in *. destruct (sh_keeps _ _ H2) as [K1 K2 K3].
  split_and!; [done|congruence|congruence|lia| |by split].
  intros a. etrans; [|apply Hcap]. apply (shrinks_senders R); [apply Hq|apply H1|done].
Qed.
Lemma add_expiring_ok c p tx : pool_ok c p → p.(submission_id) < CAPACITY → tx_ok tx → is_expiring_nonce tx = true →
  added_ok c p (add_expiring_nonce_transaction R tx p).
Proof.
  intros Hp Hn Htx He. destruct (p.(expiring_nonce_txs) !! tx_expiring_nonce_hash R tx) as [st|] eqn:Hst.
  - unfold add_expiring_nonce_transaction. rewrite Hst. by apply rejected_ok.
  - rewrite add_expiring_eq by done. destruct (accept_sender _ p) eqn:Ha; [|by apply rejected_ok].
    apply (discarded_ok c p _ (λ d, Pending None [] d)); [by apply with_expiring_pool|done..|].
    apply capped_insert. by apply accept_sender_Some in Ha as [_ ?].
Qed.
Lemma add_transaction_ok c p tx hf :
  pool_ok c p → p.(submission_id) < CAPACITY → tx_ok tx → is_t1 hf = true →
  added_ok c p (add_transaction R tx (c (aa_transaction_id tx).1) hf p).
Proof.
  intros Hp Hn Htx Hhf. unfold add_transaction. rewrite Hhf. cbn [andb].
  destruct (is_expiring_nonce tx) eqn:He; [by apply add_expiring_ok|].
  destruct (contains _ _); [by apply rejected_ok|].
  destruct (N.ltb_spec tx.(TempoPooledTransaction.nonce) (c (aa_transaction_id tx).1)) as [|Hcn]; [by apply rejected_ok|].
  destruct (_ && _); [by apply rejected_ok|]. destruct (next_id p) as [id p1] eqn:En. assert (id = p.(submission_id)) as -> by by injection En.
  assert (p1 = (next_id p).2) as -> by by rewrite En. clear En.
  destruct (place_by_id _ _ _ _) as [e|[replaced p2]] eqn:Epl.
  - pose proof (take_id_pool c p Hp Hn) as Hq. unfold added_ok. cbn [fst snd]. unfold next_id in *. cbn [fst snd] in *. 
    split_and!; try done; [|exact (capped_same p)]. change (((p.(submission_id) + 1) mod USIZE) ≤ p.(submission_id) + 1). by rewrite taken_id.
  - pose proof (place_by_id_ok c p Hp Hn tx Htx He replaced p2 Epl) as Hix.
    set (q := set_by_hash (insert (tx_hash R tx) tx) _). assert (q = indexed tx replaced p2) as Eq by done. clearbody q. subst q.
    pose proof (settled_exists c p Hp Hn tx Htx _ Hix Hcn) as (Hpool & [K1 K2 K3] & K4). destruct Hix as [_ _ _ _ _ _ I1 I2 I3 I4].
    rewrite I1 in K2. rewrite I2 in K1. rewrite I3 in K3. rewrite <- K4 in I4. set (sc := scan_lane _ _ _ _) in *. unfold settled in *.
    destruct (sc_inserted sc) eqn:Eins.
    + by apply (discarded_ok c p _ (λ d, Pending ((λ old, inner_tx old) <$> replaced) ((λ st, stored_tx st) <$> sc.(sc_promoted)) d)).
    + by apply (discarded_ok c p _ (λ _, Parked ((λ old, inner_tx old) <$> replaced))).
Qed.
End add.
End Pool2dAdd.
