(* ===== verification/Pool2dUpdate.v ===== *)
(** * Changes on chain

    When the nonces on chain change, what was mined leaves the pool, and the rest of each
    sequence is pending up to its first gap and queued behind it. When the base fee
    changes, the orders are built anew. *)

From stdpp Require Import sorting.
From S2P Require Import Prelude Hardfork Address Bytes Pool2dState Pool2d Pool2dLib Pool2dInv Pool2dSteps Pool2dChain Pool2dRemove Pool2dAdd.

Module Pool2dUpdate.
Import AA2dPool Pool2d Pool2dInv Pool2dSteps Pool2dChain Pool2dRemove Pool2dAdd.

Section update.
Context (R : Reth) `{!LawfulReth R}.
Abbreviation ok := (tables_ok R).
Abbreviation part_ok := (part_ok R).
Abbreviation pool_ok := (pool_ok R).

(** ** The sweep of a sequence *)

Lemma split_mined_spec v ns : StronglySorted N.lt ns →
  let '(mined, rest) := split_mined v ns in
  (∀ k, k ∈ mined ↔ k ∈ ns ∧ k < v) ∧ (∀ k, k ∈ rest ↔ k ∈ ns ∧ v ≤ k) ∧ StronglySorted N.lt rest.
Proof.
  induction ns as [|n ns IH]; intros Hs; cbn.
  - split_and!; [..|constructor]; intros k; rewrite elem_of_nil; tauto.
  - assert (Forall (N.lt n) ns ∧ StronglySorted N.lt ns) as [Hlt Hs'] by (inversion Hs; done).
    destruct (N.ltb_spec n v) as [Hn|Hn].
    + destruct (split_mined v ns) as [mined rest]. destruct (IH Hs') as (H1 & H2 & H3). split_and!; [| |done].
      * intros k. rewrite !elem_of_cons, H1. split; [intros [->|[? ?]]; auto|intros [[->|?] ?]; auto].
      * intros k. rewrite elem_of_cons, H2. split; [intros [? ?]; auto|intros [[->|?] ?]; [lia|auto]].
    + assert (∀ k, k ∈ n :: ns → v ≤ k) as Hk.
      { intros k [->|Hk]%elem_of_cons; [done|]. pose proof (proj1 (Forall_forall _ _) Hlt k Hk). cbn in *. lia. }
      split_and!; [| |done]; intros k; rewrite ?elem_of_nil; split; try done; [intros [?%Hk ?]; lia|auto|tauto].
Qed.

Section sweep.
Context (p : t) (s : AASequenceId) (v : N) (Hok : ok p).
Abbreviation M := (by_id p).
Context (Hrange : ∀ k, is_Some (M !! (s, k)) → k ≤ U64_MAX).
Definition weigh (f : Internal → N) (pre : list N) : N :=
  foldr (λ k a, match M !! (s, k) with Some x => f x | None => 0 end + a) 0 pre.
(** The transactions in [pre] have been visited; [nx] is the first nonce not reached. *)
Definition visited (pre : list N) (nx : N) (id : AA2dTransactionId) (y : Internal) : Internal :=
  if decide (id.1 = s ∧ id.2 ∈ pre) then flag (id.2 <? nx) y else y.
Record swept (pre : list N) (nx : N) (sw : sweep) : Prop := Swept {
  sp_static : same_static p sw.(sw_pool);
  sp_by_id id : sw.(sw_pool).(by_id) !! id = visited pre nx id <$> M !! id;
  sp_orders : order_ok R pending_sel sw.(sw_pool).(by_id) p.(base_fee) sw.(sw_pool).(pending_eviction_order) ∧
    order_ok R queued_sel sw.(sw_pool).(by_id) p.(base_fee) sw.(sw_pool).(queued_eviction_order);
  sp_next : sw.(sw_next) = N.min nx U64_MAX;
  sp_reach k : v ≤ k → k < nx → k ∈ pre;
  sp_gap : nx ∉ pre;
  sp_above : v ≤ nx;
  sp_counters : sw.(sw_pool).(pending_count) = p.(pending_count) ∧ sw.(sw_pool).(queued_count) = p.(queued_count) ∧
    sw.(sw_pool).(pending_size) = p.(pending_size) ∧ sw.(sw_pool).(queued_size) = p.(queued_size);
  sp_count : total one_pending sw.(sw_pool).(by_id) + sw.(sw_queued) = total one_pending M + sw.(sw_pending) ∧
    total one_queued sw.(sw_pool).(by_id) + sw.(sw_pending) = total one_queued M + sw.(sw_queued);
  sp_size : total size_pending sw.(sw_pool).(by_id) + sw.(sw_queued_size) = total size_pending M + sw.(sw_pending_size) ∧
    total size_queued sw.(sw_pool).(by_id) + sw.(sw_pending_size) = total size_queued M + sw.(sw_queued_size);
  sp_bound : sw.(sw_pending) ≤ weigh one_queued pre ∧ sw.(sw_queued) ≤ weigh one_pending pre;
  sp_independent : sw.(sw_pool).(independent_transactions) =
    match M !! (s, v) with
    | Some y => if decide (v ∈ pre) then independent_insert R (inner y) p.(independent_transactions) else p.(independent_transactions)
    | None => p.(independent_transactions)
    end
}.
Lemma weigh_le f pre : NoDup pre → weigh f pre ≤ total f M.
Proof.
  unfold weigh. generalize M. induction pre as [|k pre IH]; intros m Hnd; cbn; [lia|]. apply NoDup_cons in Hnd as [Hni Hnd].
  destruct (m !! (s, k)) as [x|] eqn:Hx; [|by apply IH]. rewrite (total_delete f m _ _ Hx). apply N.add_le_mono_l.
  etrans; [|by apply IH]. apply N.eq_le_incl. clear IH Hnd. induction pre as [|j pre IH]; [done|]. cbn.
  apply not_elem_of_cons in Hni as [Hj Hni]. rewrite IH by done. rewrite lookup_delete_ne by congruence. done.
Qed.
Section step.
Context (pre : list N) (nx : N) (sw : sweep) (Hsw : swept pre nx sw).
Context (n : N) (x : Internal) (Hx : M !! (s, n) = Some x) (Hv : v ≤ n) (Hpre : ∀ k, k ∈ pre → k < n).
Abbreviation M' := (sw.(sw_pool).(by_id)).
Lemma step_here : M' !! (s, n) = Some x.
Proof.
  rewrite (sp_by_id _ _ _ Hsw), Hx. cbn. unfold visited. rewrite decide_False; [done|]. intros [_ Hn%Hpre]. cbn in Hn. lia.
Qed.
Lemma step_ahead : nx ≤ n.
Proof. apply N.nlt_ge. intros Hlt. apply (sp_reach _ _ _ Hsw) in Hv; [|done]. apply Hpre in Hv. lia. Qed.
Lemma step_by_id b nx' id : b = (n <? nx') → (∀ k, k ∈ pre → (k <? nx') = (k <? nx)) →
  <[(s, n) := flag b x]> M' !! id = visited (pre ++ [n]) nx' id <$> M !! id.
Proof.
  intros -> Hsame. destruct (decide (id = (s, n))) as [->|Hne].
  - rewrite lookup_insert_eq, Hx. cbn. unfold visited. rewrite decide_True; [done|]. split; [done|]. apply elem_of_app. right. left.
  - rewrite lookup_insert_ne, (sp_by_id _ _ _ Hsw) by auto. destruct (M !! id) as [y|]; [|done]. cbn. f_equal. unfold visited.
    destruct id as [s' k]. cbn. destruct (decide (s' = s ∧ k ∈ pre)) as [[-> Hk]|Hk].
    + rewrite decide_True by (split; [done|]; apply elem_of_app; by left). by rewrite Hsame.
    + rewrite decide_False; [done|]. intros [-> [?|Hin%list_elem_of_singleton]%elem_of_app]; [by apply Hk|congruence].
Qed.
Lemma weigh_snoc f : weigh f (pre ++ [n]) = weigh f pre + f x.
Proof.
  unfold weigh. clear Hsw Hpre. induction pre as [|k l IH]; cbn; [rewrite Hx; lia|]. rewrite IH. lia.
Qed.
Lemma step_distinct : distinct (stored M').
Proof. rewrite (ss_by_id _ _ (sp_static _ _ _ Hsw)). apply (st_distinct _ _ (tb_static _ _ Hok)). Qed.
Lemma flag_same b : is_pending x = b → flag b x = x.
Proof. intros <-. by destruct x. Qed.
Lemma mark_same b : is_pending x = b → set_by_id (insert (s, n) (flag b x)) sw.(sw_pool) = sw.(sw_pool) ∧ <[(s, n) := flag b x]> M' = M'.
Proof.
  intros E. pose proof step_here as Hh. rewrite flag_same by done. destruct (sw_pool sw) as [? ? m]. cbn in *.
  unfold set_by_id. cbn. by rewrite insert_id.
Qed.
Lemma step_fee : base_fee sw.(sw_pool) = p.(base_fee).
Proof. apply (ss_keeps _ _ (sp_static _ _ _ Hsw)). Qed.
(** The flag turns, with the orders and the counts. *)
Record turned (b : bool) (sw' : sweep) : Prop := Turned {
  tn_static : same_static sw.(sw_pool) sw'.(sw_pool);
  tn_by_id : sw'.(sw_pool).(by_id) = <[(s, n) := flag b x]> M';
  tn_orders : order_ok R pending_sel sw'.(sw_pool).(by_id) p.(base_fee) sw'.(sw_pool).(pending_eviction_order) ∧
    order_ok R queued_sel sw'.(sw_pool).(by_id) p.(base_fee) sw'.(sw_pool).(queued_eviction_order);
  tn_counters : sw'.(sw_pool).(pending_count) = sw.(sw_pool).(pending_count) ∧ sw'.(sw_pool).(queued_count) = sw.(sw_pool).(queued_count) ∧
    sw'.(sw_pool).(pending_size) = sw.(sw_pool).(pending_size) ∧ sw'.(sw_pool).(queued_size) = sw.(sw_pool).(queued_size);
  tn_pending : sw'.(sw_pending) = sw.(sw_pending) + (if b then one_queued x else 0) ∧
    sw'.(sw_pending_size) = sw.(sw_pending_size) + (if b then size_queued x else 0);
  tn_queued : sw'.(sw_queued) = sw.(sw_queued) + (if b then 0 else one_pending x) ∧
    sw'.(sw_queued_size) = sw.(sw_queued_size) + (if b then 0 else size_pending x);
  tn_next : sw'.(sw_next) = (if b then saturating_add U64_MAX sw.(sw_next) 1 else sw.(sw_next));
  tn_independent : sw'.(sw_pool).(independent_transactions) =
    (if b && (n =? v) then independent_insert R (inner x) sw.(sw_pool).(independent_transactions) else sw.(sw_pool).(independent_transactions))
}.
Lemma sweep_one_turned : turned (n =? sw.(sw_next)) (sweep_one R s v sw n).
Proof.
  pose proof step_here as Hh. pose proof step_distinct as Hd. pose proof step_fee as Ef. destruct (sp_orders _ _ _ Hsw) as [Hop Hoq].
  unfold sweep_one. rewrite Hh, Ef. destruct (n =? sw.(sw_next)); cbn [andb].
  - destruct (is_pending x) eqn:E.
    + destruct (weights_pending _ E) as (W1 & W2 & W3 & W4).
      destruct (mark_same true E) as [Es Em]. unfold mark_pending. rewrite Es.
      destruct (n =? v) eqn:Ev; split; cbn; rewrite ?Em, ?Ev, ?W2, ?W4, ?N.add_0_r; try done; by split.
    + destruct (weights_queued _ E) as (W1 & W2 & W3 & W4).
      destruct (n =? v) eqn:Ev; split; cbn; rewrite ?Ev, ?W2, ?W4, ?N.add_0_r; try done.
      all: try by (split; cbn; try done; by eapply stored_flip).
      all: split; [by apply order_flip_in|apply order_flip_out; try done; unfold queued_sel; by rewrite E].
  - destruct (is_pending x) eqn:E.
    + destruct (weights_pending _ E) as (W1 & W2 & W3 & W4). split; cbn; rewrite ?W1, ?W3, ?N.add_0_r; try done.
      * split; cbn; try done. by eapply stored_flip.
      * split; [by apply order_flip_out|apply order_flip_in; try done; unfold queued_sel; by rewrite E].
    + destruct (weights_queued _ E) as (W1 & W2 & W3 & W4).
      destruct (mark_same false E) as [Es Em]. rewrite Es. split; cbn; rewrite ?Em, ?W1, ?W3, ?N.add_0_r; try done; by split.
Qed.
Lemma swept_counts b sw' : turned b sw' → 
  (total one_pending sw'.(sw_pool).(by_id) + sw'.(sw_queued) = total one_pending M + sw'.(sw_pending) ∧
    total one_queued sw'.(sw_pool).(by_id) + sw'.(sw_pending) = total one_queued M + sw'.(sw_queued)) ∧
  (total size_pending sw'.(sw_pool).(by_id) + sw'.(sw_queued_size) = total size_pending M + sw'.(sw_pending_size) ∧
    total size_queued sw'.(sw_pool).(by_id) + sw'.(sw_pending_size) = total size_queued M + sw'.(sw_queued_size)) ∧
  sw'.(sw_pending) ≤ weigh one_queued (pre ++ [n]) ∧ sw'.(sw_queued) ≤ weigh one_pending (pre ++ [n]).
Proof.
  intros [_ -> _ _ [-> ->] [-> ->] _ _]. destruct (sp_count _ _ _ Hsw), (sp_size _ _ _ Hsw), (sp_bound _ _ _ Hsw).
  pose proof (λ f, total_replace f _ _ _ (flag b x) step_here) as Hr. pose proof (Hr one_pending). pose proof (Hr one_queued).
  pose proof (Hr size_pending). pose proof (Hr size_queued). rewrite !weigh_snoc.
  destruct b, (is_pending x) eqn:E.
  1,2: destruct (weights_pending (flag true x) eq_refl) as (F1 & F2 & F3 & F4); change (size (inner_tx (flag true x))) with (size (inner_tx x)) in F3.
  3,4: destruct (weights_queued (flag false x) eq_refl) as (F1 & F2 & F3 & F4); change (size (inner_tx (flag false x))) with (size (inner_tx x)) in F4.
  all: (destruct (weights_pending _ E) as (? & ? & ? & ?) || destruct (weights_queued _ E) as (? & ? & ? & ?)); lia.
Qed.
Lemma swept_step : swept (pre ++ [n]) (if n =? nx then nx + 1 else nx) (sweep_one R s v sw n).
Proof.
  pose proof step_ahead as Hnx. pose proof (Hrange n (mk_is_Some _ _ Hx)) as Hmax.
  assert (sw.(sw_next) = nx) as Enx by (rewrite (sp_next _ _ _ Hsw); lia).
  pose proof sweep_one_turned as Ht. rewrite Enx in Ht. destruct (swept_counts _ _ Ht) as (Hc & Hz & Hb). destruct Ht, Hsw.
  split; try done.
  - by etrans.
  - intros id. rewrite tn_by_id0. apply step_by_id; destruct (N.eqb_spec n nx) as [->|]; try done.
    + symmetry. apply N.ltb_lt. lia.
    + symmetry. apply N.ltb_ge. lia.
    + intros k Hk. specialize (Hpre k Hk). transitivity true; [|symmetry]; apply N.ltb_lt; lia.
  - rewrite tn_next0, Enx. unfold saturating_add. destruct (N.eqb_spec n nx); lia.
  - intros k Hk1 Hk2. apply elem_of_app. destruct (N.eqb_spec n nx) as [->|].
    + destruct (decide (k = nx)) as [->|]; [right; left|]. left. apply sp_reach0; [done|lia].
    + left. by apply sp_reach0.
  - intros [Hin|Hin%list_elem_of_singleton]%elem_of_app; destruct (N.eqb_spec n nx) as [->|]; try lia; try done. apply Hpre in Hin. lia.
  - destruct (N.eqb_spec n nx); lia.
  - destruct tn_counters0 as (-> & -> & -> & ->). done.
  - rewrite tn_independent0, sp_independent0. destruct (N.eqb_spec n v) as [->|Hnv].
    + assert (nx = v) as -> by lia. rewrite N.eqb_refl. cbn [andb]. rewrite Hx.
      destruct (decide (v ∈ pre)) as [Hin%Hpre|_]; [lia|]. by rewrite decide_True by (apply elem_of_app; right; left).
    + rewrite andb_false_r. destruct (M !! (s, v)); [|done]. destruct (decide (v ∈ pre)) as [Hin|Hni].
      * by rewrite decide_True by (apply elem_of_app; by left).
      * rewrite decide_False; [done|]. by intros [?|?%list_elem_of_singleton]%elem_of_app.
Qed.
End step.
Lemma swept_start : v ≤ U64_MAX → swept [] v (Sweep p [] v 0 0 0 0).
Proof.
  intros Hv. destruct Hok as [_ Hp Hq _]. split; cbn; try done; try lia.
  - intros id. destruct (M !! id); [|done]. cbn. unfold visited. rewrite decide_False; [done|]. by intros [_ []%elem_of_nil].
  - by intros []%elem_of_nil.
  - destruct (M !! (s, v)); [|done]. rewrite decide_False; [done|]. by intros []%elem_of_nil.
Qed.
Lemma sweep_all post : ∀ pre nx sw, swept pre nx sw →
  StronglySorted N.lt post → (∀ k, k ∈ post → v ≤ k ∧ is_Some (M !! (s, k))) → (∀ j k, j ∈ pre → k ∈ post → j < k) →
  ∃ nx', swept (pre ++ post) nx' (foldl (sweep_one R s v) sw post).
Proof.
  induction post as [|n post IH]; intros pre nx sw Hsw Hs Hin Hlt; cbn; [rewrite app_nil_r; by exists nx|].
  destruct (Hin n) as [Hv [x Hx]]; [left|]. assert (Forall (N.lt n) post ∧ StronglySorted N.lt post) as [Hn Hs'] by (inversion Hs; done).
  rewrite cons_middle, (assoc_L app). eapply IH; [eapply swept_step; [done|done|done|]|done|..].
  - intros k Hk. apply Hlt; [done|left].
  - intros k Hk. apply Hin. by right.
  - intros j k [Hj|Ej%list_elem_of_singleton]%elem_of_app Hk; [apply Hlt; [done|by right]|]. subst j. by apply (proj1 (Forall_forall _ _) Hn).
Qed.

(** The end of the sweep of a sequence of which [rest] is what was not mined. *)
Definition turn (c : Chain) : Chain := λ s', if decide (s' = s) then v else c s'.
Context (c : Chain) (rest : list N) (nx : N) (sw : sweep) (Hsw : swept rest nx sw) (Hv : v < U64_MAX).
Context (Hrest : ∀ k, k ∈ rest ↔ is_Some (M !! (s, k)) ∧ v ≤ k) (Hnd : NoDup rest).
Abbreviation M' := (sw.(sw_pool).(by_id)).
Lemma swept_flags : flags_ok nowhere c M → flags_ok nowhere (turn c) M'.
Proof.
  intros Hf s' k y Hy Hle _. rewrite (sp_by_id _ _ _ Hsw) in Hy. apply fmap_Some in Hy as (z & Hz & ->).
  assert (executable M' (turn c) s' k ↔ executable M (turn c) s' k) as ->.
  { unfold executable. setoid_rewrite (sp_by_id _ _ _ Hsw). setoid_rewrite fmap_is_Some. done. }
  unfold turn in *. destruct (decide (s' = s)) as [->|Hne].
  - unfold visited. rewrite decide_True by (split; [done|]; apply Hrest; split; [by eexists|done]). cbn. rewrite N.ltb_lt.
    unfold executable. rewrite decide_True by done. split.
    + intros Hlt j Hj Hjk. apply Hrest. apply (sp_reach _ _ _ Hsw); [done|lia].
    + intros H. apply N.nle_gt. intros Hge. destruct (sp_gap _ _ _ Hsw). apply Hrest. pose proof (sp_above _ _ _ Hsw). split; [by apply H|done].
  - unfold visited. rewrite decide_False by (by intros [? _]). rewrite (Hf _ _ _ Hz Hle ltac:(intros [])).
    unfold executable. by rewrite decide_False.
Qed.
Definition tallied : t :=
  let p := sw.(sw_pool) in
  let p := set_pending_count (λ c, usize_sub (c + sw.(sw_pending)) sw.(sw_queued)) p in
  let p := set_queued_count (λ c, usize_sub c sw.(sw_pending) + sw.(sw_queued)) p in
  let p := set_pending_size (λ z, (z + Z.of_N sw.(sw_pending_size) - Z.of_N sw.(sw_queued_size))%Z) p in
  set_queued_size (λ z, (z - Z.of_N sw.(sw_pending_size) + Z.of_N sw.(sw_queued_size))%Z) p.
Lemma tallied_ok : ok tallied ∧ same_static p tallied.
Proof.
  assert (same_static p tallied) as Hss by (destruct (sp_static _ _ _ Hsw) as [? ? ? ? ? ? ? []]; by split). split; [|done].
  pose proof (static_frame R _ _ (tb_static _ _ Hok) Hss) as Hs. pose proof (ss_expiring _ _ Hss) as Ee.
  destruct (sp_orders _ _ _ Hsw) as [Hop Hoq]. pose proof (kp_base_fee _ _ (ss_keeps _ _ Hss)) as Ef.
  split; [done|by rewrite Ef|by rewrite Ef|]. pose proof (weigh_le one_queued rest Hnd) as H1. pose proof (weigh_le one_pending rest Hnd) as H2.
  destruct (sp_counters _ _ _ Hsw) as (C1 & C2 & C3 & C4), (sp_count _ _ _ Hsw), (sp_size _ _ _ Hsw), (sp_bound _ _ _ Hsw).
  destruct (counts_below R p (tb_static _ _ Hok) (tb_sums _ _ Hok)). destruct (tb_sums _ _ Hok).
  assert (total one_pending M + total one_queued M ≤ N.of_nat (base.size M)) as Hsize.
  { rewrite <- total_add, <- total_one. apply total_mono. intros y. unfold one_pending, one_queued. destruct (is_pending y); lia. }
  destruct (tb_static _ _ Hok) as [_ _ _ _ _ _ _ _ _ _ _ Hroom Hcap]. unfold CAPACITY in Hcap.
  split; rewrite ?Ee; unfold tallied; cbn; rewrite ?C1, ?C2, ?C3, ?C4; rewrite ?usize_minus by (unfold USIZE in *; lia); lia.
Qed.
Lemma swept_chain : chain_ok R nowhere c p →
  part_ok nowhere (turn c) (if sw.(sw_next) =? v then set_independent_transactions (independent_remove R s None) tallied else tallied) ∧
  same_static p (if sw.(sw_next) =? v then set_independent_transactions (independent_remove R s None) tallied else tallied).
Proof.
  intros [Hf Hi]. destruct tallied_ok as [Ht Hss]. apply swept_flags in Hf. pose proof (sp_above _ _ _ Hsw) as Ha.
  assert (sw.(sw_next) = v ↔ nx = v) as Hnx by (rewrite (sp_next _ _ _ Hsw); lia).
  assert (∀ s', s' ≠ s → turn c s' = c s') as Hc by (intros s' ?; unfold turn; by rewrite decide_False).
  assert (turn c s = v) as Hcs by (unfold turn; by rewrite decide_True).
  pose proof (ss_by_id _ _ Hss) as ET. pose proof (kp_base_fee _ _ (ss_keeps _ _ Hss)) as Ef.
  pose proof (sp_independent _ _ _ Hsw) as Ei. pose proof (tb_static _ _ Hok) as []. destruct (N.eqb_spec sw.(sw_next) v) as [E|E].
  - split; [|by apply same_static_independent]. split; [destruct Ht as [[] ? ? []]; split; [by split|done|done|by split]|]. split; [done|].
    assert (M !! (s, v) = None) as Hn.
    { apply eq_None_not_Some. intros Hsome. destruct (sp_gap _ _ _ Hsw). rewrite (proj1 Hnx E). apply Hrest. split; [done|lia]. }
    change (ind_ok R (stored (by_id tallied)) (turn c) (base_fee tallied) (independent_remove R s None (independent_transactions sw.(sw_pool)))).
    rewrite ET, Ef, Ei, Hn. apply (ind_gone R _ c); try done. rewrite Hcs. by rewrite lookup_fmap, Hn.
  - split; [|done]. split; [done|]. split; [done|].
    change (ind_ok R (stored (by_id tallied)) (turn c) (base_fee tallied) (independent_transactions sw.(sw_pool))). rewrite ET, Ef, Ei.
    assert (v ∈ rest) as Hin by (apply (sp_reach _ _ _ Hsw); [done|]; assert (nx ≠ v) by tauto; lia).
    pose proof (proj1 (Hrest v) Hin) as [[y Hy] _]. rewrite Hy, decide_True by done.
    eapply (ind_put R _ c); [done..| | |done|done|done]; rewrite Hcs; [|by rewrite lookup_fmap, Hy].
    symmetry. apply st_entries0. by rewrite lookup_fmap, Hy.
Qed.
End sweep.

(** ** Changes of nonces *)

Lemma pool_range p s k : ok p → is_Some (p.(by_id) !! (s, k)) → k ≤ U64_MAX.
Proof.
  intros Hok [y Hy]. destruct (stored_entry R p Hok _ _ Hy) as (E & (_ & _ & _ & Hk & _) & _). injection E as _ ->. done.
Qed.
Lemma change_nonce_ok s v c p : part_ok nowhere c p → v < U64_MAX →
  let '(_, mined, p') := change_nonce R s v p in
  part_ok nowhere (turn s v c) p' ∧ same_static p p' ∧
  (∀ id, id ∈ mined ↔ is_Some (p.(by_id) !! id) ∧ id.1 = s ∧ id.2 < v).
Proof.
  intros [Hok [Hf Hi]] Hv. unfold change_nonce. pose proof (split_mined_spec v _ (lane_sorted p.(by_id) s 0)) as H.
  destruct (split_mined v (lane p.(by_id) s 0)) as [mined rest]. destruct H as (Hm & Hr & Hs).
  assert (∀ k, k ∈ rest ↔ is_Some (p.(by_id) !! (s, k)) ∧ v ≤ k) as Hrest.
  { intros k. rewrite Hr, lane_elem. split; [intros [[? _] ?]; done|intros [? ?]; split_and!; [done|lia|done]]. }
  assert (∀ id, id ∈ (λ n, (s, n)) <$> mined ↔ is_Some (p.(by_id) !! id) ∧ id.1 = s ∧ id.2 < v) as Hmined.
  { intros [s' k]. rewrite list_elem_of_fmap. setoid_rewrite Hm. setoid_rewrite lane_elem. cbn. split.
    - intros (n & [= -> ->] & ([? _] & ?)). done.
    - intros (? & -> & ?). exists k. split_and!; [done..|lia|done]. }
  destruct rest as [|n rest].
  - split_and!; [split; [done|split]|done|done].
    + intros s' k x Hx Hle _. unfold turn in Hle. destruct (decide (s' = s)) as [->|Hne].
      * exfalso. apply (elem_of_nil k), Hrest. split; [by eexists|done].
      * rewrite (Hf _ _ _ Hx Hle ltac:(intros [])). unfold executable, turn. by rewrite decide_False.
    + eapply (ind_behind R _ c _ _ Hi _ s).
      * intros k. rewrite lookup_fmap, fmap_is_Some. unfold turn. rewrite decide_True by done. intros Hk.
        apply N.nle_gt. intros Hle. apply (elem_of_nil k), Hrest. done.
      * intros s' Hne. unfold turn. by rewrite decide_False.
  - pose proof (λ k, pool_range p s k Hok) as Hrange. assert (NoDup (n :: rest)) as Hnd.
    { clear -Hs. induction Hs as [|a l Hl IH Ha]; [constructor|]. apply NoDup_cons. split; [|done].
      intros Hin. pose proof (proj1 (Forall_forall _ _) Ha a Hin). cbn in *. lia. }
    destruct (sweep_all p s v Hok Hrange (n :: rest) [] v _ (swept_start p s v Hok ltac:(lia)) Hs) as [nx Hsw].
    { intros k Hk%Hrest. tauto. }
    { intros j k []%elem_of_nil. }
    destruct (swept_chain p s v Hok c (n :: rest) nx _ Hsw Hv Hrest Hnd (ChainOk _ _ _ _ Hf Hi)) as [H1 H2].
    split_and!; [exact H1|exact H2|done].
Qed.
Definition turns (changes : list (AASequenceId * N)) (c : Chain) : Chain := foldl (λ c '(s, v), turn s v c) c changes.
Lemma turns_other changes : ∀ c s, s ∉ changes.*1 → turns changes c s = c s.
Proof.
  unfold turns. induction changes as [|[s' v] changes IH]; intros c s Hn; cbn; [done|]. cbn in Hn.
  apply not_elem_of_cons in Hn as [Hne Hn]. rewrite IH by done. unfold turn. by rewrite decide_False.
Qed.
Lemma turns_at changes : ∀ c s v, NoDup changes.*1 → (s, v) ∈ changes → turns changes c s = v.
Proof.
  unfold turns. induction changes as [|[s' v'] changes IH]; intros c s v Hnd Hin; cbn; [by apply elem_of_nil in Hin|].
  cbn in Hnd. apply NoDup_cons in Hnd as [Hni Hnd]. apply elem_of_cons in Hin as [[= -> ->]|Hin]; [|by apply IH].
  change (turns changes (turn s' v' c) s' = v'). rewrite turns_other by done. unfold turn. by rewrite decide_True.
Qed.
Lemma change_nonces_ok changes : ∀ c p, part_ok nowhere c p → NoDup changes.*1 → Forall (λ sv, sv.2 < U64_MAX) changes →
  let '(_, mined, p') := change_nonces R changes p in
  part_ok nowhere (turns changes c) p' ∧ same_static p p' ∧
  (∀ id, id ∈ mined ↔ is_Some (p.(by_id) !! id) ∧ ∃ v, (id.1, v) ∈ changes ∧ id.2 < v).
Proof.
  induction changes as [|[s v] changes IH]; intros c p Hp Hnd Hmax; cbn.
  - split_and!; [done..|]. intros id. rewrite elem_of_nil. split; [done|]. by intros [_ (v & []%elem_of_nil & _)].
  - cbn in Hnd. apply NoDup_cons in Hnd as [_ Hnd]. apply Forall_cons in Hmax as [Hv Hmax].
    pose proof (change_nonce_ok s v c p Hp Hv) as H. destruct (change_nonce R s v p) as [[promoted mined] p1]. destruct H as (H1 & H2 & H3).
    specialize (IH _ _ H1 Hnd Hmax). destruct (change_nonces R changes p1) as [[promoted' mined'] p2]. destruct IH as (I1 & I2 & I3).
    split_and!; [done|by etrans|]. intros [s' k]. rewrite elem_of_app, H3, I3. cbn. setoid_rewrite elem_of_cons.
    assert (is_Some (p1.(by_id) !! (s', k)) ↔ is_Some (p.(by_id) !! (s', k))) as ->.
    { rewrite <- !(fmap_is_Some inner), <- !lookup_fmap. by rewrite (ss_by_id _ _ H2). }
    split.
    + intros [(? & -> & ?)|[? (v' & ? & ?)]]; (split; [done|]); [exists v; auto|exists v'; auto].
    + intros [? (v' & [[= -> ->]|?] & ?)]; [left; auto|right; eauto].
Qed.
Lemma remove_ids_ok ids : ∀ c p, part_ok nowhere c p → Forall (λ id, id.2 < c id.1) ids →
  let p' := (remove_ids R ids p).2 in
  part_ok nowhere c p' ∧ shrinks p p' ∧ p'.(expiring_nonce_txs) = p.(expiring_nonce_txs) ∧ ∀ id, id ∈ ids → p'.(by_id) !! id = None.
Proof.
  induction ids as [|[s n] ids IH]; intros c p Hp Hm; cbn; [split_and!; try done; by intros id []%elem_of_nil|].
  apply Forall_cons in Hm as [Hlt Hm]. cbn in Hlt.
  assert (∃ r p1, remove_transaction_by_id R (s, n) p = (r, p1) ∧ part_ok nowhere c p1 ∧ shrinks p p1 ∧
    p1.(expiring_nonce_txs) = p.(expiring_nonce_txs) ∧ p1.(by_id) !! (s, n) = None) as (r & p1 & -> & H1 & H2 & H3 & H4).
  { destruct (p.(by_id) !! (s, n)) as [x|] eqn:Hx.
    - eexists _, _. split; [apply surjective_pairing|]. destruct (removed_shrinks R p s n x Hx) as (D1 & D2 & D3).
      split_and!; [by eapply removed_mined|done..|]. by rewrite D2, lookup_delete_eq.
    - exists None, p. unfold remove_transaction_by_id. by rewrite Hx. }
  destruct (IH c p1 H1 Hm) as (I1 & I2 & I3 & I4). destruct (remove_ids R ids p1) as [txs p2]. cbn in *.
  split_and!; [done|by etrans|congruence|]. intros id [->|Hin]%elem_of_cons; [|by apply I4].
  apply eq_None_not_Some. intros Hs. eapply shrinks_is_Some in Hs; [|done]. rewrite H4 in Hs. by destruct Hs.
Qed.
Lemma remove_included_ok hs : ∀ c p, pool_ok c p → let p' := (remove_included R hs p).2 in pool_ok c p' ∧ shrinks p p'.
Proof.
  induction hs as [|h hs IH]; intros c p Hp; cbn; [done|].
  assert (∃ r p1, remove_expiring_nonce_tx R h p = (r, p1) ∧ pool_ok c p1 ∧ shrinks p p1) as (r & p1 & -> & H1 & H2).
  { destruct (p.(expiring_nonce_txs) !! h) as [st|] eqn:Hst.
    - eexists _, _. split; [apply surjective_pairing|]. destruct Hp as [Hp Hc]. destruct (dropped_part R _ _ _ Hp h st Hst) as (D1 & D2 & _).
      split; [|done]. split; [done|by eapply shrinks_current].
    - exists None, p. unfold remove_expiring_nonce_tx. by rewrite Hst. }
  destruct (IH c p1 H1) as [I1 I2]. destruct (remove_included R hs p1) as [txs p2]. cbn in *. split; [done|by etrans].
Qed.
(** A pool says nothing about sequences it has no transaction of. *)
Lemma pool_chain_ext c c' p : pool_ok c p → (∀ s, occupied (stored p.(by_id)) s → c' s = c s) → pool_ok c' p.
Proof.
  intros [[Hok [Hf Hi]] Hc] He.
  assert (∀ s n x, p.(by_id) !! (s, n) = Some x → c' s = c s) as He'.
  { intros s n x Hx. apply He. exists n. rewrite lookup_fmap, Hx. by eexists. }
  split; [split; [done|split]|].
  - intros s n x Hx Hle _. rewrite (He' _ _ _ Hx) in Hle. rewrite (Hf _ _ _ Hx Hle ltac:(intros [])).
    unfold executable. by rewrite (He' _ _ _ Hx).
  - destruct Hi as [H1 H2 H3 H4]. split; [..|done|done].
    + intros s st Hst. apply H1. by rewrite <- (He s) by (eexists; by eexists).
    + intros s st Hst. destruct (H2 s st Hst) as [Ht Hle]. by rewrite (He s) by (eexists; by eexists).
  - intros s n [x Hx]. rewrite (He' _ _ _ Hx). apply Hc. by eexists.
Qed.

(** ** State updates *)

(** The last value written to the nonce of a sequence. *)
Definition written (storage : list (U256 * U256)) (s : AASequenceId) : option U256 :=
  foldl (λ o sv, if decide (sv.1 = nonce_slot R s) then Some sv.2 else o) None storage.
Definition nonce_after (c : Chain) (storage : list (U256 * U256)) : Chain := λ s,
  match written storage s with Some v => saturating_to U64_MAX v | None => c s end.
Lemma written_snoc storage sv s : written (storage ++ [sv]) s = if decide (sv.1 = nonce_slot R s) then Some sv.2 else written storage s.
Proof. unfold written. by rewrite foldl_snoc. Qed.
Lemma noted p storage s : ok p →
  (foldl (note_slot p) (∅, []) storage).1 !! s =
  if bool_decide (p.(slot_to_nonce_entry) !! nonce_slot R s = Some (Sequence s)) then saturating_to U64_MAX <$> written storage s else None.
Proof.
  intros Hok. pose proof (st_slots _ _ (tb_static _ _ Hok)) as Hsl.
  induction storage as [|sv storage IH] using rev_ind; [by destruct (bool_decide _)|]. rewrite foldl_snoc, written_snoc.
  destruct (foldl (note_slot p) (∅, []) storage) as [m hs]. cbn [fst] in IH. unfold note_slot. cbn [fst snd].
  destruct (p.(slot_to_nonce_entry) !! sv.1) as [[s'|h]|] eqn:E.
  - pose proof (proj1 (Hsl _ _) E) as [Es _]. cbn [fst]. destruct (decide (s' = s)) as [->|Hne].
    + rewrite lookup_insert_eq, bool_decide_eq_true_2 by congruence. by rewrite decide_True by done.
    + rewrite lookup_insert_ne, IH by done. destruct (bool_decide_reflect (p.(slot_to_nonce_entry) !! nonce_slot R s = Some (Sequence s))) as [Hs|]; [|done].
      rewrite decide_False; [done|]. intros E'. rewrite E', Hs in E. congruence.
  - assert ((if sv.2 =? 0 then (m, hs) else (m, hs ++ [h])).1 = m) as -> by by destruct (sv.2 =? 0). rewrite IH.
    destruct (bool_decide_reflect (p.(slot_to_nonce_entry) !! nonce_slot R s = Some (Sequence s))) as [Hs|]; [|done].
    rewrite decide_False; [done|]. intros E'. rewrite E', Hs in E. congruence.
  - cbn [fst]. rewrite IH. destruct (bool_decide_reflect (p.(slot_to_nonce_entry) !! nonce_slot R s = Some (Sequence s))) as [Hs|]; [|done].
    rewrite decide_False; [done|]. intros E'. rewrite E', Hs in E. congruence.
Qed.
Lemma on_state_updates_ok c p storage : pool_ok c p → (∀ s, nonce_after c storage s < U64_MAX) →
  let p' := (on_state_updates R (Some storage) p).2 in
  pool_ok (nonce_after c storage) p' ∧ shrinks p p' ∧ in_limits R p'.
Proof.
  intros [Hp Hc] Hmax. pose proof (noted p storage) as Hn. cbn. destruct (foldl (note_slot p) (∅, []) storage) as [changes included].
  cbn in Hn. unfold on_nonce_changes_iter.
  assert (∀ s, occupied (stored p.(by_id)) s → p.(slot_to_nonce_entry) !! nonce_slot R s = Some (Sequence s)) as Hocc.
  { intros s Hs. by apply (st_slots _ _ (tb_static _ _ (proj1 Hp)) _ (Sequence s)). }
  pose proof (NoDup_fst_map_to_list changes) as Hnd.
  assert (Forall (λ sv : AASequenceId * N, sv.2 < U64_MAX) (map_to_list changes)) as Hall.
  { apply Forall_forall. intros [s v] Hin%elem_of_map_to_list. specialize (Hmax s). rewrite Hn in Hin by apply Hp.
    destruct (bool_decide _); [|done]. unfold nonce_after in Hmax. destruct (written storage s); [|done]. injection Hin as <-. done. }
  pose proof (change_nonces_ok (map_to_list changes) c p Hp Hnd Hall) as H1.
  destruct (change_nonces R (map_to_list changes) p) as [[promoted mined] p1]. destruct H1 as (P1 & S1 & M1).
  assert (∀ s, occupied (stored p.(by_id)) s → nonce_after c storage s = turns (map_to_list changes) c s) as Heq.
  { intros s Hs. pose proof (Hn s (proj1 Hp)) as E. rewrite bool_decide_eq_true_2 in E by auto. unfold nonce_after.
    destruct (written storage s) as [v|]; cbn in E.
    - symmetry. apply turns_at; [done|]. by apply elem_of_map_to_list.
    - symmetry. apply turns_other. intros ([s' v] & -> & Hin%elem_of_map_to_list)%list_elem_of_fmap. cbn in *. congruence. }
  pose proof (remove_ids_ok mined _ _ P1) as H2. cbn in H2. destruct (remove_ids R mined p1) as [m1 p2]. cbn in H2.
  destruct H2 as (P2 & S2 & _ & G2).
  { apply Forall_forall. intros [s n] [_ (v & Hin & Hlt)]%M1. cbn in *. by rewrite (turns_at _ _ _ _ Hnd Hin). }
  assert (shrinks p p2) as S12 by (etrans; [by apply same_shrinks|done]).
  assert (pool_ok (nonce_after c storage) p2) as P3.
  { apply (pool_chain_ext (turns (map_to_list changes) c)).
    - split; [done|]. intros s n Hs. apply N.nlt_ge. intros Hlt. pose proof (shrinks_is_Some _ _ _ S12 Hs) as Hsp.
      assert ((s, n) ∈ mined) as Hin; [|apply G2 in Hin; rewrite Hin in Hs; by destruct Hs].
      apply M1. split; [done|]. cbn. destruct (changes !! s) as [v|] eqn:Ev.
      + apply elem_of_map_to_list in Ev. exists v. split; [done|]. by rewrite (turns_at _ _ _ _ Hnd Ev) in Hlt.
      + exfalso. rewrite turns_other in Hlt; [apply Hc in Hsp; lia|].
        intros ([s' v] & -> & Hin%elem_of_map_to_list)%list_elem_of_fmap. cbn in *. congruence.
    - intros s (n & Hs). apply Heq. exists n. eapply lookup_weaken_is_Some; [done|apply S12]. }
  destruct (remove_included_ok included _ _ P3) as [P4 S4]. destruct (remove_included R included p2) as [m2 p3]. cbn in P4, S4.
  pose proof (discard_pool R _ _ P4) as (P5 & S5 & L1 & L2). destruct (discard R p3) as [d p4]. cbn in *.
  split_and!; [done| |by split]. etrans; [done|]. by etrans.
Qed.

(** ** Base fee *)

Lemma distinct_without `{Countable K} (m : gmap K Stored) k st : m !! k = None → distinct (<[k := st]> m) → distinct m.
Proof.
  intros Hk Hd a b x y Ha Hb. apply Hd; rewrite lookup_insert_ne; [done| |done|]; intros ->; congruence.
Qed.
Lemma fold_order (sel : AA2dTransactionId → Internal → bool) bf M : distinct (stored M) →
  order_ok R sel M bf (map_fold (λ id x m, if sel id x then set_insert (eviction_key R (inner x) bf) id m else m) ∅ M).
Proof.
  apply (map_fold_weak_ind (λ r M, distinct (stored M) → order_ok R sel M bf r)); clear M.
  - intros _ k id. setoid_rewrite lookup_empty. split; [done|]. by intros (x & ? & _).
  - intros id x M r Hid IH Hd. specialize (IH ltac:(rewrite fmap_insert in Hd; apply distinct_without in Hd; [done|by rewrite lookup_fmap, Hid])).
    assert (order_ok R (λ id' y, sel id' y && bool_decide (id' ≠ id)) (<[id := x]> M) bf r) as Hr.
    { revert IH. apply (order_other R _ _ _ _ _ _ id).
      - by rewrite Hid.
      - intros y _. by rewrite bool_decide_eq_false_2, andb_false_r by auto.
      - intros id' Hne. by rewrite lookup_insert_ne.
      - intros id' y Hne _. by rewrite bool_decide_eq_true_2, andb_true_r. }
    destruct (sel id x) eqn:E.
    + eapply (order_join R _ _ Hd); [apply lookup_insert_eq| |done| |exact Hr]; cbn beta.
      * by rewrite bool_decide_eq_false_2, andb_false_r by auto.
      * intros id' y Hne _. by rewrite bool_decide_eq_true_2, andb_true_r.
    + eapply order_sel_ext; [|exact Hr]. intros id' y Hy. cbn beta. destruct (decide (id' = id)) as [->|Hne].
      * rewrite lookup_insert_eq in Hy. injection Hy as <-. by rewrite E.
      * by rewrite bool_decide_eq_true_2, andb_true_r.
Qed.
Lemma fold_expiring bf E : expiring_ok R E → distinct E →
  expiring_order_ok R E bf (map_fold (λ _ st m, set_insert (eviction_key R st bf) (stored_tx st) m) ∅ E).
Proof.
  apply (map_fold_weak_ind (λ r E, expiring_ok R E → distinct E → expiring_order_ok R E bf r)); clear E.
  - intros _ _ k tx. setoid_rewrite lookup_empty. split; [done|]. by intros (st & ? & _).
  - intros h st E r Hh IH He Hd. destruct (He h st) as (Eh & _); [apply lookup_insert_eq|]. subst h.
    apply expiring_join; [done|..|apply IH].
    + intros h' st' Hst' Es. assert (h' = tx_expiring_nonce_hash R (stored_tx st)) as ->; [|congruence].
      apply (Hd _ _ st' st); [|apply lookup_insert_eq|done]. rewrite lookup_insert_ne; [done|]. intros <-. congruence.
    + intros h' st' Hst'. apply He. rewrite lookup_insert_ne; [done|]. intros <-. congruence.
    + by eapply distinct_without.
Qed.
Lemma fold_heads (bf : N) (m : gmap AASequenceId Stored) : distinct m → ∀ k id,
  ordered_by R bf m !! k = Some id ↔ ∃ st, m !! id.1 = Some st ∧ id.2 = nonce_of st ∧ k = eviction_key R st bf.
Proof.
  unfold ordered_by. apply (map_fold_weak_ind (λ r m, distinct m → ∀ k id,
    r !! k = Some id ↔ ∃ st, m !! id.1 = Some st ∧ id.2 = nonce_of st ∧ k = eviction_key R st bf)); clear m.
  - intros _ k id. setoid_rewrite lookup_empty. split; [done|]. by intros (st & ? & _).
  - intros s st m r Hs IH Hd k [s' n]. specialize (IH (distinct_without _ _ _ Hs Hd)). rewrite lookup_insert_Some, IH. cbn.
    setoid_rewrite lookup_insert_Some. split.
    + intros [[<- [= <- <-]]|[Hk (st' & Hst' & -> & ->)]]; [by eauto 6|]. exists st'. split_and!; [right|done..]. split; [|done]. intros ->. congruence.
    + intros (st' & [[<- <-]|[Hne Hst']] & -> & ->); [by left|]. right. split; [|by eauto]. intros [= _ E]. apply Hne.
      eapply (Hd _ _ st st'); [apply lookup_insert_eq|by rewrite lookup_insert_ne|done].
Qed.
Lemma set_base_fee_ok c bf p : pool_ok c p → pool_ok c (set_base_fee R bf p) ∧
  (set_base_fee R bf p).(by_id) = p.(by_id) ∧ (set_base_fee R bf p).(expiring_nonce_txs) = p.(expiring_nonce_txs) ∧
  (set_base_fee R bf p).(config) = p.(config) ∧ (set_base_fee R bf p).(submission_id) = p.(submission_id) ∧
  (set_base_fee R bf p).(txs_by_sender) = p.(txs_by_sender).
Proof.
  intros Hp. unfold set_base_fee. destruct (_ =? bf); [done|]. cbn. split; [|done].
  destruct Hp as [[Hok [Hf Hi]] Hc]. pose proof (tb_static _ _ Hok) as [].
  split; [split; [|split]|]; [|done| |done].
  - split; cbn.
    + split; cbn; try done. by apply fold_expiring.
    + eapply order_sel_ext; [|by apply (fold_order (λ _ x, Bool.eqb (is_pending x) true))]. intros id x _. unfold pending_sel. by destruct (is_pending x).
    + eapply order_sel_ext; [|by apply (fold_order (λ _ x, Bool.eqb (is_pending x) false))]. intros id x _. unfold queued_sel. by destruct (is_pending x).
    + by destruct (tb_sums _ _ Hok).
  - split; cbn; [apply (in_head _ _ _ _ _ Hi)|apply (in_heads _ _ _ _ _ Hi)| |done].
    apply fold_heads. intros s s' st st' Hs Hs' E. by eapply heads_apart.
Qed.
End update.
End Pool2dUpdate.
