(* ===== verification/Pool2dSpec.v ===== *)
(** * Histories of the pool

    A pool and the chain it follows go through additions, removals, blocks and changes of
    the base fee. At every point the pool is as it should be for the nonces on chain. *)

From stdpp Require Import sorting.
From S2P Require Import Prelude Hardfork Address Bytes Pool2dState Pool2d Pool2dLib Pool2dInv Pool2dSteps Pool2dChain Pool2dRemove Pool2dAdd Pool2dUpdate.

Module Pool2dSpec.
Import AA2dPool Pool2d Pool2dInv Pool2dSteps Pool2dChain Pool2dRemove Pool2dAdd Pool2dUpdate.

(** Calls of the pool; a transaction is added with the nonce that is on chain. *)
Inductive event :=
| Add (tx : TempoPooledTransaction.t) (hardfork : TempoHardfork)
| Remove (hashes : list B256)
| RemoveWithDescendants (hashes : list B256)
| RemoveSender (a : Address)
| StateUpdate (storage : list (U256 * U256))
| BaseFee (base_fee : N).

Section histories.
Context (R : Reth).

Definition step (w : Chain * t) (e : event) : Chain * t :=
  let '(c, p) := w in
  match e with
  | Add tx hf => (c, (add_transaction R tx (c (aa_transaction_id tx).1) hf p).2)
  | Remove hs => (c, (remove_transactions R hs p).2)
  | RemoveWithDescendants hs => (c, (remove_transactions_and_descendants R hs p).2)
  | RemoveSender a => (c, (remove_transactions_by_sender R a p).2)
  | StateUpdate storage => (nonce_after R c storage, (on_state_updates R (Some storage) p).2)
  | BaseFee bf => (c, set_base_fee R bf p)
  end.
(** Transactions have fields in range and nonces on chain do not run out. *)
Definition admissible (c : Chain) (e : event) : Prop :=
  match e with
  | Add tx hf => tx_ok tx ∧ is_t1 hf = true
  | StateUpdate storage => ∀ s, nonce_after R c storage s < U64_MAX
  | _ => True
  end.
Fixpoint history (w : Chain * t) (es : list event) : Prop :=
  match es with
  | [] => True
  | e :: es => admissible w.1 e ∧ history (step w e) es
  end.
Abbreviation run := (foldl step).

Context `{!LawfulReth R}.
Definition goes_on (c : Chain) (p p' : t) : Prop :=
  pool_ok R c p' ∧ p'.(submission_id) ≤ p.(submission_id) + 1 ∧ p'.(config) = p.(config) ∧ capped p p'.(txs_by_sender).
Lemma shrinks_goes_on c c' p p' : pool_ok R c p → pool_ok R c' p' → shrinks p p' → goes_on c' p p'.
Proof.
  intros Hp Hp' Hs. pose proof (λ a, shrinks_senders R p p' a (proj1 (proj1 Hp)) (proj1 (proj1 Hp')) Hs) as Ha.
  destruct Hs as [_ _ [Ec _ En]]. split_and!; [done|lia|done|]. intros a. specialize (Ha a). lia.
Qed.
Lemma step_pool c p e : pool_ok R c p → p.(submission_id) < CAPACITY → admissible c e →
  goes_on (step (c, p) e).1 p (step (c, p) e).2.
Proof.
  intros Hp Hn He. destruct e as [tx hf|hs|hs|a|storage|bf]; cbn in *.
  - destruct He as [Htx Hhf]. destruct (add_transaction_ok R c p tx hf Hp Hn Htx Hhf) as (? & ? & ? & ? & ? & _). by split_and!.
  - destruct (remove_transactions_pool R c p hs Hp). by eapply shrinks_goes_on.
  - destruct (remove_with_descendants_pool R c hs p Hp). by eapply shrinks_goes_on.
  - destruct (remove_by_sender_pool R a c p Hp) as (? & ? & _). by eapply shrinks_goes_on.
  - destruct (on_state_updates_ok R c p storage Hp He) as (? & ? & _). by eapply shrinks_goes_on.
  - destruct (set_base_fee_ok R c bf p Hp) as (H1 & _ & _ & Ec & En & Es). split_and!; [done|lia|done|]. rewrite Es. apply capped_same.
Qed.
Definition under_limits (p : t) : Prop := ∀ a, p.(txs_by_sender).[a] ≤ p.(config).(AA2dPoolConfig.max_txs_per_sender).
Lemma run_pool es : ∀ c p, pool_ok R c p → under_limits p → p.(submission_id) + N.of_nat (length es) ≤ CAPACITY → history (c, p) es →
  let w := run (c, p) es in pool_ok R w.1 w.2 ∧ under_limits w.2 ∧
    w.2.(submission_id) ≤ p.(submission_id) + N.of_nat (length es) ∧ w.2.(config) = p.(config).
Proof.
  induction es as [|e es IH]; intros c p Hp Hu Hn Hh; cbn -[step] in *; [split_and!; [done|done|lia|done]|]. destruct Hh as [He Hh].
  destruct (step_pool c p e Hp ltac:(lia) He) as (H1 & H2 & H3 & H4). destruct (step (c, p) e) as [c' p']. cbn in H1, H2, H3, H4.
  destruct (IH c' p' H1) as (I1 & I2 & I3 & I4); [|lia|done|split_and!; [done|done|lia|congruence]].
  intros a. rewrite H3. specialize (H4 a). specialize (Hu a). lia.
Qed.
Lemma new_pool c config : pool_ok R c (new config).
Proof.
  split; [split; [split; [split|..]|split]|]; cbn; try done.
  - intros h tx. rewrite lookup_empty. split; [done|]. rewrite fmap_empty. by intros [_ [(st & ? & _)|(st & ? & _)]].
  - intros slot [s|h]; rewrite lookup_empty; (split; [done|]); rewrite ?fmap_empty; [by intros [_ (n & st & ?)]|by intros [_ [st ?]]].
  - intros k tx. rewrite lookup_empty. split; [done|]. by intros (st & ? & _).
  - intros k id. rewrite lookup_empty. split; [done|]. by intros (x & ? & _).
  - intros k id. rewrite lookup_empty. split; [done|]. by intros (x & ? & _).
  - split; cbn; try done.
    + intros k id. rewrite lookup_empty. split; [done|]. by intros (st & ? & _).
  - intros s n [x Hx]. done.
Qed.
Lemma history_pool config c0 es c p :
  history (c0, new config) es → N.of_nat (length es) ≤ CAPACITY → run (c0, new config) es = (c, p) →
  pool_ok R c p ∧ under_limits p ∧ p.(submission_id) ≤ N.of_nat (length es) ∧ p.(AA2dPool.config) = config.
Proof.
  intros Hh Hn E. pose proof (run_pool es c0 (new config) (new_pool c0 config)) as H. rewrite E in H.
  apply H; [|cbn; lia|done]. intros a. change ((∅ : gmap Address N).[a] ≤ config.(AA2dPoolConfig.max_txs_per_sender)). rewrite sread_empty. apply N.le_0_l.
Qed.
Lemma history_app es es' : ∀ w, history w (es ++ es') ↔ history w es ∧ history (run w es) es'.
Proof. induction es as [|e es IH]; intros w; cbn; [tauto|]. rewrite IH. tauto. Qed.

(** C11: A pool follows the chain. Take any history of additions, replacements, removals,
    evictions, blocks and base fee changes in which every transaction is added with the
    nonce its sequence has on the chain at that moment, under T1 or later, and that has at
    most 2^31 events. Outside these histories it fails: see [stale_nonce_keeps_replaced]
    for a transaction validated against an older nonce. After the history, no transaction in the pool is
    below the nonce of its sequence on chain, a transaction is marked pending exactly
    when the pool holds every nonce from the one on chain up to its own, and the
    independent transactions are exactly those at the nonce on chain. *)
Theorem pool_follows_chain config c0 es c p :
  history (c0, new config) es → N.of_nat (length es) ≤ CAPACITY → run (c0, new config) es = (c, p) →
  (∀ s n x, p.(by_id) !! (s, n) = Some x →
    c s ≤ n ∧ (is_pending x = true ↔ ∀ k, c s ≤ k → k ≤ n → is_Some (p.(by_id) !! (s, k)))) ∧
  (∀ s st, p.(independent_transactions).(IndependentTransactions.transactions) !! s = Some st ↔
    ∃ x, p.(by_id) !! (s, c s) = Some x ∧ inner x = st).
Proof.
  intros Hh Hn E. destruct (history_pool config c0 es c p Hh Hn E) as ([[Hok [Hf Hi]] Hc] & _). split.
  - intros s n x Hx. assert (c s ≤ n) as Hle by (apply Hc; by eexists). split; [done|]. apply (Hf _ _ _ Hx Hle). intros [].
  - intros s st. split.
    + intros Hs. apply (in_heads _ _ _ _ _ Hi) in Hs as [Ht Hle]. rewrite lookup_fmap in Ht. apply fmap_Some in Ht as (x & Hx & ->).
      assert (c s ≤ nonce_of (inner x)) as Hle' by (apply Hc; by eexists). replace (nonce_of (inner x)) with (c s) in Hx by lia. eauto.
    + intros (x & Hx & <-). apply (in_head _ _ _ _ _ Hi). by rewrite lookup_fmap, Hx.
Qed.

(** The transactions in a pool. *)
Definition in_pool (p : t) (tx : TempoPooledTransaction.t) : Prop :=
  (∃ x, p.(by_id) !! aa_transaction_id tx = Some x ∧ inner_tx x = tx) ∨
  (∃ st, p.(expiring_nonce_txs) !! tx_expiring_nonce_hash R tx = Some st ∧ stored_tx st = tx).

(** C17: The tables of the pool agree. Take a history as above: transactions are added
    with the nonce of their sequence on the chain at that moment, under T1 or later, and
    there are at most 2^31 events (before T1 it fails: see [pre_t1_expiring_key_stays]).
    After it the index by hash holds exactly
    the transactions of the pool under their hashes, the storage slot of a sequence is
    tracked exactly when the pool has a transaction of it, and that of an expiring nonce
    exactly when it is there; the eviction orders hold exactly the pending and the queued
    transactions under their priorities at the current base fee, and so does the order of
    the independent ones; the counts and sizes of
    the subpools are those of the transactions in them, and the counts per sender and per
    sequence are exact. *)
Theorem pool_tables_agree config c0 es c p :
  history (c0, new config) es → N.of_nat (length es) ≤ CAPACITY → run (c0, new config) es = (c, p) →
  (∀ h tx, p.(by_hash) !! h = Some tx ↔ h = tx_hash R tx ∧ in_pool p tx) ∧
  (∀ slot s, p.(slot_to_nonce_entry) !! slot = Some (Sequence s) ↔ slot = nonce_slot R s ∧ ∃ n, is_Some (p.(by_id) !! (s, n))) ∧
  (∀ slot h, p.(slot_to_nonce_entry) !! slot = Some (ExpiringNonce h) ↔ slot = seen_slot R h ∧ is_Some (p.(expiring_nonce_txs) !! h)) ∧
  (∀ k id, p.(pending_eviction_order) !! k = Some id ↔
    ∃ x, p.(by_id) !! id = Some x ∧ is_pending x = true ∧ k = eviction_key R (inner x) p.(base_fee)) ∧
  (∀ k id, p.(queued_eviction_order) !! k = Some id ↔
    ∃ x, p.(by_id) !! id = Some x ∧ is_pending x = false ∧ k = eviction_key R (inner x) p.(base_fee)) ∧
  (∀ k tx, p.(expiring_nonce_eviction_order) !! k = Some tx ↔
    ∃ st, p.(expiring_nonce_txs) !! tx_expiring_nonce_hash R tx = Some st ∧ stored_tx st = tx ∧ k = eviction_key R st p.(base_fee)) ∧
  (∀ k id, p.(independent_transactions).(IndependentTransactions.order) !! k = Some id ↔
    ∃ st, p.(independent_transactions).(IndependentTransactions.transactions) !! id.1 = Some st ∧ id.2 = nonce_of st ∧
      k = eviction_key R st p.(base_fee)) ∧
  p.(pending_count) = total one_pending p.(by_id) + N.of_nat (base.size p.(expiring_nonce_txs)) ∧
  p.(queued_count) = total one_queued p.(by_id) ∧
  p.(pending_size) = Z.of_N (total size_pending p.(by_id) + total stored_size p.(expiring_nonce_txs)) ∧
  p.(queued_size) = Z.of_N (total size_queued p.(by_id)) ∧
  (∀ a, p.(txs_by_sender).[a] = total (of_sender a) (stored p.(by_id)) + total (of_sender a) p.(expiring_nonce_txs)) ∧
  (∀ s, p.(txs_by_lane).[s] = total (of_lane s) (stored p.(by_id))).
Proof.
  intros Hh Hn E. destruct (history_pool config c0 es c p Hh Hn E) as ([[[[] Hp Hq []] [_ []]] _] & _).
  split_and!; try done.
  - intros h tx. rewrite (st_hash0 h tx). unfold in_pool. setoid_rewrite lookup_fmap. setoid_rewrite fmap_Some. naive_solver.
  - intros slot s. rewrite (st_slots0 slot (Sequence s)). unfold occupied. setoid_rewrite lookup_fmap. by setoid_rewrite fmap_is_Some.
  - intros k id. rewrite (Hq k id). unfold queued_sel. by setoid_rewrite negb_true_iff.
  - intros a. apply st_sender0.
  - intros s. apply st_lane0.
Qed.

(** *** Limits *)

Lemma sizes_fit p : static_ok R p →
  total size_pending p.(by_id) + total stored_size p.(expiring_nonce_txs) < USIZE ∧ total size_queued p.(by_id) < USIZE.
Proof.
  intros []. assert (∀ f, (∀ x, f x ≤ size (inner_tx x)) → total f p.(by_id) ≤ (2 ^ 32 - 1) * N.of_nat (base.size p.(by_id))) as Hf.
  { intros f Hf. apply total_bound. intros id x Hx. specialize (Hf x).
    destruct (st_entries0 id (inner x)) as (_ & (_ & _ & _ & _ & Hs) & _); [by rewrite lookup_fmap, Hx|]. lia. }
  assert (total stored_size p.(expiring_nonce_txs) ≤ (2 ^ 32 - 1) * N.of_nat (base.size p.(expiring_nonce_txs))) as He.
  { apply total_bound. intros h st Hst. destruct (st_expiring0 h st Hst) as (_ & (_ & _ & _ & _ & Hs) & _). unfold stored_size. lia. }
  pose proof (Hf size_pending) as H1. pose proof (Hf size_queued) as H2. unfold size_pending, size_queued in H1, H2.
  specialize (H1 ltac:(intros x; destruct (is_pending x); lia)). specialize (H2 ltac:(intros x; destruct (is_pending x); lia)).
  fold size_pending in H1. fold size_queued in H2. unfold CAPACITY, USIZE in *. lia.
Qed.
Lemma usize_of_fits n : n < USIZE → usize_of (Z.of_N n) = n.
Proof. intros Hn. unfold usize_of. rewrite Z.mod_small by lia. apply N2Z.id. Qed.
Definition within (l : SubPoolLimit.t) (n sz : N) : Prop := n ≤ l.(SubPoolLimit.max_txs) ∧ sz ≤ l.(SubPoolLimit.max_size).
Lemma limits_within p : tables_ok R p → in_limits R p →
  within p.(config).(AA2dPoolConfig.pending_limit) (total one_pending p.(by_id) + N.of_nat (base.size p.(expiring_nonce_txs)))
    (total size_pending p.(by_id) + total stored_size p.(expiring_nonce_txs)) ∧
  within p.(config).(AA2dPoolConfig.queued_limit) (total one_queued p.(by_id)) (total size_queued p.(by_id)).
Proof.
  intros [Hs _ _ []] [H1 H2]. destruct (sizes_fit p Hs) as [F1 F2]. unfold pending_exceeded, queued_exceeded in *.
  rewrite sm_pending0, sm_pending_size0, usize_of_fits in H1 by done. rewrite sm_queued0, sm_queued_size0, usize_of_fits in H2 by done.
  apply not_true_iff_false in H1, H2. rewrite is_exceeded_spec in H1, H2. unfold within. lia.
Qed.
(** Calls that evict: blocks, and additions that succeed. *)
Definition evicts (e : event) (c : Chain) (p : t) : Prop :=
  match e with
  | Add tx hf => match (add_transaction R tx (c (aa_transaction_id tx).1) hf p).1 with inr _ => True | inl _ => False end
  | StateUpdate _ => True
  | _ => False
  end.

(** C14: The pool stays within its limits. In histories where transactions are added with
    the current nonce of their sequence on the chain, under T1 or later, of at most 2^31
    events: after every block and every addition that succeeds the pending and the queued
    transactions are within the configured numbers and sizes, and no sender has more transactions in the pool
    than the configured number. *)
Theorem pool_within_limits config c0 es e c p :
  history (c0, new config) (es ++ [e]) → N.of_nat (length (es ++ [e])) ≤ CAPACITY →
  run (c0, new config) es = (c, p) → evicts e c p →
  let p' := (step (c, p) e).2 in
  within config.(AA2dPoolConfig.pending_limit) (total one_pending p'.(by_id) + N.of_nat (base.size p'.(expiring_nonce_txs)))
    (total size_pending p'.(by_id) + total stored_size p'.(expiring_nonce_txs)) ∧
  within config.(AA2dPoolConfig.queued_limit) (total one_queued p'.(by_id)) (total size_queued p'.(by_id)) ∧
  (∀ a, total (of_sender a) (stored p'.(by_id)) + total (of_sender a) p'.(expiring_nonce_txs) ≤ config.(AA2dPoolConfig.max_txs_per_sender)).
Proof.
  intros Hh Hn E He. apply history_app in Hh as [Hh Ha]. rewrite E in Ha. destruct Ha as [Ha _]. cbn in Ha. rewrite length_app in Hn. cbn in Hn.
  destruct (history_pool config c0 es c p Hh ltac:(lia) E) as (Hp & Hu & Hs & Ec).
  destruct (step_pool c p e Hp ltac:(lia) Ha) as (H1 & _ & H3 & H4). rewrite Ec in H3.
  assert (in_limits R (step (c, p) e).2) as Hl.
  { destruct e as [tx hf| | | |storage|]; try done; cbn in *.
    - destruct Ha as [Htx Hhf]. destruct (add_transaction_ok R c p tx hf Hp ltac:(lia) Htx Hhf) as (_ & _ & _ & _ & _ & Hr).
      by destruct (add_transaction R tx _ hf p).1.
    - by destruct (on_state_updates_ok R c p storage Hp Ha) as (_ & _ & ?). }
  destruct (limits_within _ (proj1 (proj1 H1)) Hl) as [L1 L2]. rewrite H3 in L1, L2. split_and!; [done..|].
  intros a. rewrite <- (proj1 (st_sender _ _ (tb_static _ _ (proj1 (proj1 H1))) a)). specialize (H4 a). specialize (Hu a). rewrite Ec in *. lia.
Qed.
End histories.

(** ** An instance of the libraries *)

Definition simple_keccak (bs : bytes) : N :=
  let key := from_be_slice (take 32 bs) in
  let slot := from_be_slice (drop 32 bs) in
  if slot =? 0 then 2 * key + 2 else if slot =? 1 then 2 * key + 1 else 2 * (key * 2 ^ 256 + slot).
Definition simple_cmp (a b : Priority) : comparison :=
  match a, b with
  | None, None => Eq
  | None, Some _ => Lt
  | Some _, None => Gt
  | Some x, Some y => x ?= y
  end.
Definition simple_reth : Reth := {|
  tx_hash tx := N.pos (encode (tx.(TempoPooledTransaction.sender), tx.(TempoPooledTransaction.nonce_key), tx.(TempoPooledTransaction.nonce),
    tx.(TempoPooledTransaction.size), tx.(TempoPooledTransaction.max_fee_per_gas), tx.(TempoPooledTransaction.body)));
  tx_expiring_nonce_hash tx := tx.(TempoPooledTransaction.body) mod 2 ^ 256;
  effective_tip_per_gas tx bf := if bf <=? tx.(TempoPooledTransaction.max_fee_per_gas) then Some (tx.(TempoPooledTransaction.max_fee_per_gas) - bf) else None;
  priority_cmp := simple_cmp;
  is_exceeded l n sz := (l.(SubPoolLimit.max_txs) <? n) || (l.(SubPoolLimit.max_size) <? sz);
  is_replacement_underpriced old new := new.(TempoPooledTransaction.max_fee_per_gas) <=? old.(TempoPooledTransaction.max_fee_per_gas);
  slot_keccak := simple_keccak
|}.
Lemma simple_mapping key slot : key < 2 ^ 256 → slot < 2 ^ 256 →
  mapping_slot simple_reth key slot = if slot =? 0 then 2 * key + 2 else if slot =? 1 then 2 * key + 1 else 2 * (key * 2 ^ 256 + slot).
Proof.
  intros Hk Hs. unfold mapping_slot, word_bytes. cbn [slot_keccak simple_reth]. unfold simple_keccak.
  rewrite take_be_bytes, drop_be_bytes, !from_be_bytes by done. done.
Qed.
Lemma simple_nonce_slot a k : a ≤ ADDRESS_MAX → k ≤ U256_MAX → nonce_slot simple_reth (a, k) = 2 * (k * 2 ^ 256 + (2 * a + 2)).
Proof.
  intros Ha Hk. unfold nonce_slot. cbn [fst snd]. unfold ADDRESS_MAX, U256_MAX in *.
  rewrite (simple_mapping a 0) by lia. cbn [N.eqb]. rewrite simple_mapping by lia.
  destruct (N.eqb_spec (2 * a + 2) 0); [lia|]. destruct (N.eqb_spec (2 * a + 2) 1); [lia|]. done.
Qed.
Lemma simple_seen_slot tx : seen_slot simple_reth (tx_expiring_nonce_hash simple_reth tx) = 2 * tx_expiring_nonce_hash simple_reth tx + 1.
Proof. unfold seen_slot. rewrite simple_mapping; [done| |done]. by apply N.mod_lt. Qed.
#[global] Instance simple_lawful : LawfulReth simple_reth.
Proof.
  split.
  - intros [] []. cbn. intros [= E]. apply (inj encode) in E. by injection E as -> -> -> -> -> ->.
  - intros [x|] [y|]; cbn; rewrite ?N.compare_eq_iff; split; congruence.
  - intros [x|] [y|]; cbn; try done. apply N.compare_antisym.
  - intros [x|] [y|] [z|]; cbn; try done. rewrite !N.compare_lt_iff. lia.
  - intros l n sz. cbn. by rewrite orb_true_iff, !N.ltb_lt.
  - intros a k a' k' Ha Ha' Hk Hk'. rewrite !simple_nonce_slot by done. unfold ADDRESS_MAX in *. intros E. f_equal; lia.
  - intros tx tx'. rewrite !simple_seen_slot. lia.
  - intros a k tx Ha Hk. rewrite simple_nonce_slot, simple_seen_slot by done. lia.
Qed.
(** A history: a gap, its filling, a replacement, an expiring nonce, a base fee and a block. *)
Definition ex_config : AA2dPoolConfig.t := AA2dPoolConfig.mk (SubPoolLimit.mk 3 1000) (SubPoolLimit.mk 4 1000) 5 5.
Definition ex_tx (key nonce fee body : N) : TempoPooledTransaction.t := TempoPooledTransaction.mk 7 key nonce 100 fee body.
Definition ex_chain : Chain := λ _, 0.
Definition ex_events : list event :=
  [Add (ex_tx 5 1 10 1) T1; Add (ex_tx 5 2 12 2) T1; Add (ex_tx 5 0 7 3) T1; Add (ex_tx 5 1 20 4) T1;
   Add (ex_tx U256_MAX 0 9 5) T1; Add (ex_tx 6 3 9 6) T1; BaseFee 3; StateUpdate [(nonce_slot simple_reth (7, 5), 1)]].
Lemma ex_history : history simple_reth (ex_chain, new ex_config) ex_events.
Proof.
  unfold ex_events. cbn [history step admissible fst snd]. split_and!; try done; try (unfold tx_ok; cbn; unfold ADDRESS_MAX, U256_MAX, U64_MAX; split_and!; done).
  intros s. unfold nonce_after, written. cbn [foldl fst snd]. destruct (decide _); done.
Qed.
Lemma pool_follows_chain_witness :
  let w := foldl (step simple_reth) (ex_chain, new ex_config) ex_events in
  (base.size w.2.(by_id) = 3%nat ∧ w.1 (7, 5) = 1) ∧
  ((∀ s n x, w.2.(by_id) !! (s, n) = Some x →
    w.1 s ≤ n ∧ (is_pending x = true ↔ ∀ k, w.1 s ≤ k → k ≤ n → is_Some (w.2.(by_id) !! (s, k)))) ∧
  (∀ s st, w.2.(independent_transactions).(IndependentTransactions.transactions) !! s = Some st ↔
    ∃ x, w.2.(by_id) !! (s, w.1 s) = Some x ∧ inner x = st)).
Proof.
  intros w. split; [split; vm_compute; reflexivity|].
  refine (pool_follows_chain simple_reth ex_config ex_chain ex_events w.1 w.2 ex_history _ (surjective_pairing _)).
  vm_compute. discriminate.
Defined.
Lemma pool_tables_agree_witness :
  let w := foldl (step simple_reth) (ex_chain, new ex_config) ex_events in
  (w.2.(pending_count), w.2.(queued_count)) = (3, 1) ∧
  (∀ h tx, w.2.(by_hash) !! h = Some tx ↔ h = tx_hash simple_reth tx ∧ in_pool simple_reth w.2 tx).
Proof.
  intros w. split; [vm_compute; reflexivity|].
  refine (proj1 (pool_tables_agree simple_reth ex_config ex_chain ex_events w.1 w.2 ex_history _ (surjective_pairing _))).
  vm_compute. discriminate.
Defined.
Lemma pool_within_limits_witness :
  let w := foldl (step simple_reth) (ex_chain, new ex_config) (take 4 ex_events) in
  let p' := (step simple_reth (w.1, w.2) (Add (ex_tx U256_MAX 0 9 5) T1)).2 in
  base.size w.2.(by_id) = 3%nat ∧ base.size p'.(by_id) = 2%nat ∧
  within ex_config.(AA2dPoolConfig.pending_limit) (total one_pending p'.(by_id) + N.of_nat (base.size p'.(expiring_nonce_txs)))
    (total size_pending p'.(by_id) + total stored_size p'.(expiring_nonce_txs)).
Proof.
  intros w p'. split; [vm_compute; reflexivity|]. split; [vm_compute; reflexivity|].
  refine (proj1 (pool_within_limits simple_reth ex_config ex_chain (take 4 ex_events) (Add (ex_tx U256_MAX 0 9 5) T1) w.1 w.2 _ _ (surjective_pairing _) _)).
  - apply (proj1 (history_app simple_reth (take 5 ex_events) (drop 5 ex_events) (ex_chain, new ex_config))). exact ex_history.
  - vm_compute. discriminate.
  - vm_compute. exact I.
Defined.
End Pool2dSpec.

(** ** Cases outside the histories

    Two situations that the histories of [Pool2dSpec.v] leave out, and what the pool does
    in them: a transaction validated before a block and added after it, and an expiring
    nonce key before T1. *)

Module Pool2dCases.
Import AA2dPool Pool2d Pool2dSpec.

Definition outcome (r : (PoolErrorKind + AddedTransaction) * t) : t := r.2.
Definition first_tx : TempoPooledTransaction.t := ex_tx 5 1 10 1.
Definition bumped_tx : TempoPooledTransaction.t := ex_tx 5 1 20 2.

(** The pool holds the transaction at nonce 1, which is the nonce on chain; a replacement
    arrives that was validated when the nonce on chain was 0. The replaced transaction
    stays independent, and the new one is queued although it is executable. *)
Lemma stale_nonce_keeps_replaced :
  let p := outcome (add_transaction simple_reth first_tx 1 T1 (new ex_config)) in
  let p' := outcome (add_transaction simple_reth bumped_tx 0 T1 p) in
  (λ st, stored_tx st) <$> p'.(independent_transactions).(IndependentTransactions.transactions) !! (7, 5) = Some first_tx ∧
  (λ x, (inner_tx x, is_pending x)) <$> p'.(by_id) !! ((7, 5), 1) = Some (bumped_tx, false) ∧
  contains (tx_hash simple_reth first_tx) p' = false.
Proof. vm_compute. done. Qed.

(** Before T1 a transaction with the expiring nonce key is in a sequence like any other;
    its removal by hash takes it for an expiring nonce and leaves it there, counted and
    executable, but without its hash. *)
Lemma pre_t1_expiring_key_stays :
  let tx := ex_tx TEMPO_EXPIRING_NONCE_KEY 0 10 1 in
  let p := outcome (add_transaction simple_reth tx 0 T0 (new ex_config)) in
  let p' := (remove_transactions simple_reth [tx_hash simple_reth tx] p).2 in
  contains (tx_hash simple_reth tx) p = true ∧ contains (tx_hash simple_reth tx) p' = false ∧
  (λ x, (inner_tx x, is_pending x)) <$> p'.(by_id) !! aa_transaction_id tx = Some (tx, true) ∧ p'.(pending_count) = 1.
Proof. vm_compute. done. Qed.
End Pool2dCases.
