(* ===== verification/Pool2dIter.v ===== *)
(** * What the best transactions are

    The iterator over a pool yields every executable transaction that pays the base fee,
    once, sequences in the order of their nonces and otherwise by priority. *)

From stdpp Require Import sorting.
From S2P Require Import Prelude Hardfork Address Bytes Pool2dState Pool2d Pool2dBest Pool2dLib Pool2dInv Pool2dSteps Pool2dChain Pool2dRemove Pool2dAdd Pool2dUpdate Pool2dSpec.

Module Pool2dIter.
Import Pool2d Pool2dBest Pool2dInv Pool2dChain BestAA2dTransactions.

Section iter.
Context (R : Reth) `{!LawfulReth R}.
Abbreviation pays b st := (can_pay_base_fee (stored_tx st) (base_fee b)).

(** An iterator that does not receive transactions, between two calls. *)
Record iter_ok (b : t) : Prop := IterOk {
  it_quiet : b.(new_transaction_receiver) = None;
  it_front k id : b.(independent) !! k = Some id → ∃ st, b.(by_id) !! id = Some st ∧ k = eviction_key R st b.(base_fee);
  it_lane k k' id id' : b.(independent) !! k = Some id → b.(independent) !! k' = Some id' → id.1 = id'.1 → k = k';
  it_ids id st : b.(by_id) !! id = Some st →
    id = aa_transaction_id (stored_tx st) ∧ is_expiring_nonce (stored_tx st) = false ∧ id.2 ≤ U64_MAX;
  it_distinct : distinct b.(by_id);
  it_expiring k tx : b.(expiring_nonce_order) !! k = Some tx → is_expiring_nonce tx = true;
  it_once k k' tx : b.(expiring_nonce_order) !! k = Some tx → b.(expiring_nonce_order) !! k' = Some tx → k = k'
}.
(** From the front of its sequence up to its own nonce everything is there and pays. *)
Definition reachable (b : t) (s : AASequenceId) (n m : N) : Prop :=
  n ≤ m ∧ ∀ j, n ≤ j → j ≤ m → ∃ st, b.(by_id) !! (s, j) = Some st ∧ pays b st = true.
Definition available (b : t) (s : AASequenceId) (m : N) : Prop :=
  (s ∉ b.(invalid)) ∧ ∃ k n, b.(independent) !! k = Some (s, n) ∧ reachable b s n m.
Definition remains (b : t) (tx : TempoPooledTransaction.t) : Prop :=
  (available b (aa_transaction_id tx).1 (aa_transaction_id tx).2 ∧
    ∃ st, b.(by_id) !! aa_transaction_id tx = Some st ∧ stored_tx st = tx) ∨
  (∃ k, b.(expiring_nonce_order) !! k = Some tx ∧ can_pay_base_fee tx b.(base_fee) = true).
(** What could be yielded next, with its key. *)
Definition at_front (b : t) (k : EvictionOrderKey) (tx : TempoPooledTransaction.t) : Prop :=
  (∃ s n st, b.(independent) !! k = Some (s, n) ∧ (s ∉ b.(invalid)) ∧ b.(by_id) !! (s, n) = Some st ∧ stored_tx st = tx ∧ pays b st = true) ∨
  (b.(expiring_nonce_order) !! k = Some tx ∧ can_pay_base_fee tx b.(base_fee) = true).

Lemma quiet_new n b : b.(new_transaction_receiver) = None → add_new_transactions R n b = b.
Proof. intros Hq. destruct n; [done|]. cbn. unfold try_recv. by rewrite Hq. Qed.

Section regular.
Context (b : t) (Hb : iter_ok b) (k : EvictionOrderKey) (s : AASequenceId) (n : N) (st : Stored).
Context (Hk : b.(independent) !! k = Some (s, n)) (Hst : b.(by_id) !! (s, n) = Some st).
Abbreviation popped := (set_by_id (delete (s, n)) (set_independent (delete k) b)).
Lemma popped_ok : iter_ok popped.
Proof.
  destruct Hb. split; cbn; try done.
  - intros k' id [Hne Hid]%lookup_delete_Some. destruct (it_front0 _ _ Hid) as (st' & Hst' & E). exists st'. split; [|done].
    rewrite lookup_delete_ne; [done|]. intros <-. by apply Hne, (it_lane0 _ _ _ _ Hk Hid).
  - intros k1 k2 id id' [_ H1]%lookup_delete_Some [_ H2]%lookup_delete_Some. by eapply it_lane0.
  - intros id st' [_ H]%lookup_delete_Some. by apply it_ids0.
  - by apply Pool2dSteps.distinct_delete.
Qed.
(** Other sequences are untouched. *)
Lemma popped_other s' m : s' ≠ s → available popped s' m ↔ available b s' m.
Proof.
  intros Hne. unfold available, reachable. cbn. split; intros (Hi & k' & n' & Hk' & Hle & Hr); (split; [done|]); exists k', n'.
  - apply lookup_delete_Some in Hk' as [_ Hk']. split_and!; [done..|]. intros j H1 H2. destruct (Hr j H1 H2) as (st' & Hst' & ?).
    apply lookup_delete_Some in Hst' as [_ Hst']. eauto.
  - split_and!; [|done|].
    + rewrite lookup_delete_ne; [done|]. intros <-. congruence.
    + intros j H1 H2. destruct (Hr j H1 H2) as (st' & Hst' & ?). exists st'. by rewrite lookup_delete_ne by congruence.
Qed.
Lemma popped_gone m : ¬ available popped s m.
Proof.
  intros (_ & k' & n' & Hk' & _). cbn in Hk'. apply lookup_delete_Some in Hk' as [Hne Hk']. by apply Hne, (it_lane _ Hb _ _ _ _ Hk Hk').
Qed.
Lemma front_is m : available b s m ↔ (s ∉ b.(invalid)) ∧ reachable b s n m.
Proof.
  split.
  - intros (Hi & k' & n' & Hk' & Hr). assert (k' = k) as -> by (by eapply (it_lane _ Hb)). rewrite Hk in Hk'. injection Hk' as <-. done.
  - intros [Hi Hr]. split; [done|]. eauto.
Qed.
(** Nothing of the sequence could be yielded: the pop loses nothing. *)
Lemma skipped b' : s ∈ b.(invalid) ∨ pays b st = false →
  b'.(by_id) = delete (s, n) b.(by_id) → b'.(independent) = delete k b.(independent) → b'.(expiring_nonce_order) = b.(expiring_nonce_order) →
  b'.(base_fee) = b.(base_fee) → (∀ s', s' ≠ s → s' ∈ b'.(invalid) ↔ s' ∈ b.(invalid)) →
  ∀ tx, remains b' tx ↔ remains b tx.
Proof.
  intros Hskip E1 E2 E3 E4 E5 tx. unfold remains. rewrite E3, E4.
  enough ((available b' (aa_transaction_id tx).1 (aa_transaction_id tx).2 ∧ ∃ st, b'.(by_id) !! aa_transaction_id tx = Some st ∧ stored_tx st = tx) ↔
    (available b (aa_transaction_id tx).1 (aa_transaction_id tx).2 ∧ ∃ st, b.(by_id) !! aa_transaction_id tx = Some st ∧ stored_tx st = tx)) by tauto.
  destruct (aa_transaction_id tx) as [s' m]. cbn. destruct (decide (s' = s)) as [->|Hne].
  - assert (¬ available b s m) as H1.
    { rewrite front_is. intros [Hi [Hle Hr]]. destruct Hskip as [?|Hp]; [done|]. destruct (Hr n) as (st' & Hst' & ?); [lia|done|]. congruence. }
    assert (¬ available b' s m) as H2.
    { intros (_ & k' & n' & Hk' & _). rewrite E2 in Hk'. apply lookup_delete_Some in Hk' as [Hne Hk']. by apply Hne, (it_lane _ Hb _ _ _ _ Hk Hk'). }
    tauto.
  - assert (available b' s' m ↔ available b s' m) as ->.
    { rewrite <- popped_other by done. unfold available, reachable. cbn. by rewrite E1, E2, E4, E5. }
    by rewrite E1, lookup_delete_ne by congruence.
Qed.

(** The transaction is yielded and unlocks the next nonce. *)
Definition unlocked : t :=
  match popped.(by_id) !! unlocks (s, n) with
  | Some st' => set_independent (insert (eviction_key R st' popped.(base_fee)) (unlocks (s, n))) popped
  | None => popped
  end.
Lemma unlocks_next : delete (s, n) b.(by_id) !! unlocks (s, n) = b.(by_id) !! (s, n + 1) ∧
  (∀ st', b.(by_id) !! (s, n + 1) = Some st' → unlocks (s, n) = (s, n + 1)).
Proof.
  destruct (it_ids _ Hb _ _ Hst) as (_ & _ & Hn). cbn in Hn. unfold unlocks, saturating_add. cbn. destruct (decide (n = U64_MAX)) as [->|].
  - rewrite N.min_l by lia. rewrite lookup_delete_eq. destruct (b.(by_id) !! (s, U64_MAX + 1)) as [st'|] eqn:E; [|done].
    apply (it_ids _ Hb) in E as (_ & _ & E). cbn in E. lia.
  - rewrite N.min_r by lia. rewrite lookup_delete_ne; [done|]. intros [=]. lia.
Qed.
Lemma unlocked_ok : iter_ok unlocked.
Proof.
  pose proof popped_ok as Hp. destruct unlocks_next as [E1 E2]. unfold unlocked. change (by_id popped) with (delete (s, n) b.(by_id)). rewrite E1.
  destruct (b.(by_id) !! (s, n + 1)) as [st'|] eqn:Hn; [|done]. rewrite (E2 st' eq_refl).
  assert (popped.(by_id) !! (s, n + 1) = Some st') as Hn' by (cbn; rewrite lookup_delete_ne; [done|]; intros [=]; lia).
  destruct Hp. split; try done; cbn [independent set_independent base_fee by_id] in *.
  - intros k' id [[<- <-]|[_ Hk']]%lookup_insert_Some; [by exists st'|by apply it_front0].
  - intros k1 k2 id1 id2 [[<- <-]|[N1 H1]]%lookup_insert_Some [[<- <-]|[N2 H2]]%lookup_insert_Some El; [done|..|by eapply it_lane0].
    + exfalso. destruct id2 as [s2 n2]. cbn in El. subst s2. cbn in H2. apply lookup_delete_Some in H2 as [Hne H2]. by apply Hne, (it_lane _ Hb _ _ _ _ Hk H2).
    + exfalso. destruct id1 as [s1 n1]. cbn in El. subst s1. cbn in H1. apply lookup_delete_Some in H1 as [Hne H1]. by apply Hne, (it_lane _ Hb _ _ _ _ Hk H1).
Qed.
Lemma unlocked_fields : unlocked.(by_id) = delete (s, n) b.(by_id) ∧ unlocked.(expiring_nonce_order) = b.(expiring_nonce_order) ∧
  unlocked.(base_fee) = b.(base_fee) ∧ unlocked.(invalid) = b.(invalid) ∧ unlocked.(new_transaction_receiver) = b.(new_transaction_receiver).
Proof. unfold unlocked. by destruct (popped.(by_id) !! unlocks (s, n)). Qed.
Lemma unlocked_other s' m : s' ≠ s → available unlocked s' m ↔ available b s' m.
Proof.
  intros Hne. rewrite <- popped_other by done. unfold unlocked. destruct unlocks_next as [E1 E2].
  destruct (popped.(by_id) !! unlocks (s, n)) as [st'|] eqn:Hn; [|done]. unfold available, reachable. cbn.
  assert (∀ k' n', <[eviction_key R st' b.(base_fee) := unlocks (s, n)]> (delete k b.(independent)) !! k' = Some (s', n') ↔
    delete k b.(independent) !! k' = Some (s', n')) as Hk'.
  { intros k' n'. rewrite lookup_insert_Some. split; [intros [[_ E]|[_ ?]]; [by injection E|done]|]. intros H. right. split; [|done].
    intros <-. destruct (it_front _ popped_ok _ _ H) as (st'' & Hst'' & E). injection E as _ E.
    pose proof (it_distinct _ popped_ok _ _ _ _ Hn Hst'' E) as E'. by injection E'. }
  by setoid_rewrite Hk'.
Qed.
Lemma unlocked_none m : b.(by_id) !! (s, n + 1) = None → ¬ available unlocked s m ∧ (available b s m → m = n).
Proof.
  intros Hn. destruct unlocks_next as [E1 _]. unfold unlocked. change (by_id popped) with (delete (s, n) b.(by_id)). rewrite E1, Hn.
  split; [apply popped_gone|]. rewrite front_is. intros [_ [Hle Hr]]. destruct (decide (m = n)) as [|Hne]; [done|].
  destruct (Hr (n + 1)) as (st' & Hst' & _); [lia..|congruence].
Qed.
Lemma unlocked_some st' : b.(by_id) !! (s, n + 1) = Some st' →
  unlocked.(independent) !! eviction_key R st' b.(base_fee) = Some (s, n + 1) ∧ unlocked.(by_id) !! (s, n + 1) = Some st'.
Proof.
  intros Hn. destruct unlocks_next as [E1 E2]. destruct unlocked_fields as (-> & _). split; [|rewrite lookup_delete_ne; [done|]; intros [=]; lia].
  unfold unlocked. change (by_id popped) with (delete (s, n) b.(by_id)). rewrite E1, Hn, (E2 st' Hn). apply lookup_insert_eq.
Qed.
End regular.
Lemma unlocked_available b k s n st s' m : iter_ok b → b.(independent) !! k = Some (s, n) → b.(by_id) !! (s, n) = Some st →
  (s ∉ b.(invalid)) → pays b st = true →
  available (unlocked b k s n) s' m ↔ available b s' m ∧ (s', m) ≠ (s, n).
Proof.
  intros Hb Hk Hst Hi Hpay. destruct (decide (s' = s)) as [->|Hne].
  2: { rewrite (unlocked_other b Hb k s n st) by done. split; [|by intros [? _]]. intros ?. split; [done|]. congruence. }
  destruct (b.(by_id) !! (s, n + 1)) as [st'|] eqn:Hn.
  - destruct (unlocked_some b Hb k s n st Hk Hst st' Hn) as [U1 U2]. pose proof (unlocked_ok b Hb k s n st Hk Hst) as Hu.
    rewrite (front_is _ Hu _ _ _ U1), (front_is b Hb k s n Hk). destruct (unlocked_fields b k s n) as (F1 & _ & F3 & -> & _).
    unfold reachable. rewrite F1, F3. split.
    + intros [_ [Hle Hr]]. split; [split; [done|split; [lia|]]|intros [=]; lia]. intros j H1 H2. destruct (decide (j = n)) as [->|]; [by eauto|].
      destruct (Hr j) as (st'' & [_ ?]%lookup_delete_Some & ?); [lia|done|]. eauto.
    + intros [[_ [Hle Hr]] Hm]. assert (m ≠ n) by congruence. split; [done|]. split; [lia|]. intros j H1 H2.
      destruct (Hr j) as (st'' & ? & ?); [lia|done|]. exists st''. split; [|done]. rewrite lookup_delete_ne; [done|]. intros [=]. lia.
  - destruct (unlocked_none b Hb k s n st Hk Hst m Hn) as [U1 U2]. split; [done|]. intros [Ha Hm]. exfalso. apply Hm. by rewrite U2.
Qed.

(** ** One pop *)

Definition highest (b : t) (k : EvictionOrderKey) : Prop :=
  (∀ k' id, b.(independent) !! k' = Some id → key_cmp R k' k ≠ Gt) ∧
  (∀ k' tx, b.(expiring_nonce_order) !! k' = Some tx → key_cmp R k' k ≠ Gt).
Lemma pop_best_cases b : iter_ok b →
  (pop_best R b = (None, b) ∧ b.(independent) = ∅ ∧ b.(expiring_nonce_order) = ∅) ∨
  (∃ k s n st, pop_best R b = (Some (Regular (s, n) (stored_tx st, k)), set_by_id (delete (s, n)) (set_independent (delete k) b)) ∧
    b.(independent) !! k = Some (s, n) ∧ b.(by_id) !! (s, n) = Some st ∧ highest b k) ∨
  (∃ k tx, pop_best R b = (Some (Expiring (tx, k)), set_expiring_nonce_order (delete k) b) ∧ b.(expiring_nonce_order) !! k = Some tx ∧ highest b k).
Proof.
  intros Hb. unfold pop_best.
  assert (∀ k id, last R b.(independent) = Some (k, id) → ∃ s n st, pop_regular R b = (Some (Regular (s, n) (stored_tx st, k)),
    set_by_id (delete (s, n)) (set_independent (delete k) b)) ∧ b.(independent) !! k = Some (s, n) ∧ b.(by_id) !! (s, n) = Some st) as Hreg.
  { intros k [s n] E. destruct (last_Some R _ _ _ E) as [Hk _]. destruct (it_front _ Hb _ _ Hk) as (st & Hst & _). exists s, n, st.
    unfold pop_regular, pop_best_regular. rewrite E. cbn. rewrite Hst. done. }
  assert (∀ k tx, last R b.(expiring_nonce_order) = Some (k, tx) → pop_expiring R b = (Some (Expiring (tx, k)), set_expiring_nonce_order (delete k) b)) as Hexp.
  { intros k tx E. unfold pop_expiring, pop_best_expiring_nonce. by rewrite E. }
  destruct (last R b.(independent)) as [[k id]|] eqn:E1, (last R b.(expiring_nonce_order)) as [[k' tx]|] eqn:E2.
  - destruct (last_Some R _ _ _ E1) as [Hk M1]. destruct (last_Some R _ _ _ E2) as [Hk' M2].
    assert (match priority_cmp R k.1 k'.1 with Eq => match k'.2 ?= k.2 with Lt => false | _ => true end | Lt => false | Gt => true end =
      match key_cmp R k k' with Lt => false | _ => true end) as -> by (unfold key_cmp; by destruct (priority_cmp R k.1 k'.1)).
    destruct (key_cmp R k k') eqn:Ec.
    2: { right. right. exists k', tx. split_and!; [by apply Hexp|done|]. split; [|done]. intros k0 id0 H0.
         eapply key_cmp_trans; [done|by eapply M1|congruence]. }
    all: right; left; destruct (Hreg k id eq_refl) as (s & n & st & H1 & H2 & H3); exists k, s, n, st; split_and!; [done..|]; (split; [done|]);
      intros k0 tx0 H0; eapply key_cmp_trans; [done|by eapply M2|rewrite key_cmp_opp, Ec; done].
  - right. left. destruct (Hreg k id eq_refl) as (s & n & st & H1 & H2 & H3). exists k, s, n, st. split_and!; [done..|].
    apply (last_None R) in E2. destruct (last_Some R _ _ _ E1) as [_ M1]. split; [done|]. by rewrite E2.
  - right. right. exists k', tx. destruct (last_Some R _ _ _ E2) as [Hk' M2]. split_and!; [by apply Hexp|done|].
    apply (last_None R) in E1. split; [|done]. by rewrite E1.
  - left. apply (last_None R) in E1, E2. done.
Qed.

(** ** One call *)

Definition held (b : t) : nat := (base.size b.(by_id) + base.size b.(expiring_nonce_order))%nat.
Definition queue (b : t) : nat := (base.size b.(independent) + base.size b.(expiring_nonce_order))%nat.
Record skips (b b' : t) : Prop := Skips {
  sk_ok : iter_ok b';
  sk_fee : b'.(base_fee) = b.(base_fee);
  sk_rest tx : remains b' tx ↔ remains b tx;
  sk_front k tx : at_front b' k tx ↔ at_front b k tx;
  sk_sub : b'.(by_id) ⊆ b.(by_id) ∧ b'.(expiring_nonce_order) ⊆ b.(expiring_nonce_order);
  sk_held : (held b' ≤ held b)%nat;
  sk_queue : (queue b' < queue b)%nat
}.
Record yields (b : t) (k : EvictionOrderKey) (tx : TempoPooledTransaction.t) (b' : t) : Prop := Yields {
  yd_ok : iter_ok b';
  yd_fee : b'.(base_fee) = b.(base_fee);
  yd_rest tx' : remains b' tx' ↔ remains b tx' ∧ tx' ≠ tx;
  yd_this : remains b tx;
  yd_front : at_front b k tx;
  yd_best k' tx' : at_front b k' tx' → key_cmp R k' k ≠ Gt;
  yd_sub : b'.(by_id) ⊆ b.(by_id) ∧ b'.(expiring_nonce_order) ⊆ b.(expiring_nonce_order);
  yd_held : (held b' < held b)%nat
}.
Lemma skips_yields b b1 k tx b' : skips b b1 → yields b1 k tx b' → yields b k tx b'.
Proof.
  intros [? Ef Hr Hf [Hs1 Hs2] Hh _] [? Ef' Hr' Ht Hfr Hbest [Hs3 Hs4] Hh']. split; [done|congruence|..].
  - intros tx'. by rewrite Hr', Hr.
  - by apply Hr.
  - by apply Hf.
  - intros k' tx' ?%Hf. by eapply Hbest.
  - split; by etrans.
  - lia.
Qed.
Lemma highest_front b k k' tx' : highest b k → at_front b k' tx' → key_cmp R k' k ≠ Gt.
Proof. intros [H1 H2] [(s & n & st & H & _)|[H _]]; [by eapply H1|by eapply H2]. Qed.

Section regular_cases.
Context (b : t) (Hb : iter_ok b) (k : EvictionOrderKey) (s : AASequenceId) (n : N) (st : Stored).
Context (Hk : b.(independent) !! k = Some (s, n)) (Hst : b.(by_id) !! (s, n) = Some st) (Hh : highest b k).
Abbreviation popped := (set_by_id (delete (s, n)) (set_independent (delete k) b)).
Lemma popped_sizes : (base.size (delete (s, n) b.(by_id)) < base.size b.(by_id))%nat ∧ (base.size (delete k b.(independent)) < base.size b.(independent))%nat.
Proof.
  rewrite !map_size_delete_Some by (by eexists).
  assert (base.size b.(by_id) ≠ 0%nat) by (apply map_size_ne_0_lookup; eauto).
  assert (base.size b.(independent) ≠ 0%nat) by (apply map_size_ne_0_lookup; eauto). lia.
Qed.
Lemma skip_regular inv : s ∈ b.(invalid) ∨ pays b st = false →
  (∀ s', s' ≠ s → s' ∈ inv ↔ s' ∈ b.(invalid)) → (s ∈ inv) → skips b (set_invalid (λ _, inv) popped).
Proof.
  intros Hskip Hinv Hin. destruct popped_sizes as [S1 S2]. split; cbn; try done.
  - by destruct (popped_ok b Hb k s n Hk).
  - by apply (skipped b Hb k s n st Hk Hst).
  - intros k' tx. unfold at_front. cbn.
    enough ((∃ s0 n0 st0, delete k b.(independent) !! k' = Some (s0, n0) ∧ (s0 ∉ inv) ∧ delete (s, n) b.(by_id) !! (s0, n0) = Some st0 ∧ stored_tx st0 = tx ∧ pays b st0 = true) ↔
      (∃ s0 n0 st0, b.(independent) !! k' = Some (s0, n0) ∧ (s0 ∉ b.(invalid)) ∧ b.(by_id) !! (s0, n0) = Some st0 ∧ stored_tx st0 = tx ∧ pays b st0 = true)) by tauto.
    split; intros (s0 & n0 & st0 & H1 & H2 & H3 & H4 & H5); exists s0, n0, st0.
    + apply lookup_delete_Some in H1 as [Hne H1]. apply lookup_delete_Some in H3 as [_ H3]. split_and!; try done.
      rewrite <- Hinv; [done|]. intros ->. by apply Hne, (it_lane _ Hb _ _ _ _ Hk H1).
    + assert (s0 ≠ s) as Hne.
      { intros ->. assert (k' = k) as -> by (by eapply (it_lane _ Hb)). rewrite Hk in H1. injection H1 as <-. rewrite Hst in H3. injection H3 as <-.
        destruct Hskip; [done|congruence]. }
      split_and!; try done; [|by rewrite Hinv|by rewrite lookup_delete_ne by congruence].
      rewrite lookup_delete_ne; [done|]. intros <-. congruence.
  - split; [apply delete_subseteq|done].
  - unfold held. cbn. lia.
  - unfold queue. cbn. lia.
Qed.
Lemma yield_regular : (s ∉ b.(invalid)) → pays b st = true → yields b k (stored_tx st) (unlocked b k s n).
Proof.
  intros Hi Hpay. destruct (it_ids _ Hb _ _ Hst) as (Eid & Hexp & _). destruct (unlocked_fields b k s n) as (F1 & F2 & F3 & F4 & F5).
  destruct popped_sizes as [S1 _]. split.
  - by eapply unlocked_ok.
  - done.
  - intros tx'. unfold remains. rewrite F1, F2, F3, (unlocked_available b k s n st) by done. rewrite <- surjective_pairing.
    split.
    + intros [[[Ha Hne] (st' & Hst' & E)]|(k' & Hk' & Hp')].
      * split; [left|by intros ->; rewrite Eid in Hne]. split; [done|]. exists st'. by apply lookup_delete_Some in Hst' as [_ ?].
      * split; [right; eauto|]. intros ->. apply (it_expiring _ Hb) in Hk'. congruence.
    + intros [[[Ha (st' & Hst' & E)]|(k' & Hk' & Hp')] Hne]; [left|right; eauto].
      assert (aa_transaction_id tx' ≠ (s, n)) as Hid by (intros E'; rewrite E', Hst in Hst'; congruence).
      split; [done|]. exists st'. by rewrite lookup_delete_ne by auto.
  - left. rewrite <- Eid. split; [|by eauto]. apply (front_is b Hb k s n Hk). split; [done|]. split; [cbn; lia|]. cbn. intros j H1 H2.
    assert (j = n) as -> by lia. eauto.
  - left. exists s, n, st. split_and!; done.
  - intros k' tx'. by apply highest_front.
  - rewrite F1, F2. split; [apply delete_subseteq|done].
  - unfold held. rewrite F1, F2. lia.
Qed.
End regular_cases.

Section expiring_cases.
Context (b : t) (Hb : iter_ok b) (k : EvictionOrderKey) (tx : TempoPooledTransaction.t).
Context (Hk : b.(expiring_nonce_order) !! k = Some tx) (Hh : highest b k).
Abbreviation popped := (set_expiring_nonce_order (delete k) b).
Lemma expired_ok : iter_ok popped.
Proof.
  destruct Hb. split; cbn; try done.
  - intros k' tx' [_ H]%lookup_delete_Some. by eapply it_expiring0.
  - intros k1 k2 tx' [_ H1]%lookup_delete_Some [_ H2]%lookup_delete_Some. by eapply it_once0.
Qed.
Lemma expired_size : (base.size (delete k b.(expiring_nonce_order)) < base.size b.(expiring_nonce_order))%nat.
Proof.
  rewrite map_size_delete_Some by (by eexists). assert (base.size b.(expiring_nonce_order) ≠ 0%nat) by (apply map_size_ne_0_lookup; eauto). lia.
Qed.
Lemma skip_expiring : can_pay_base_fee tx b.(base_fee) = false → skips b popped.
Proof.
  intros Hp. pose proof expired_size. split; cbn; [apply expired_ok|done|..].
  - intros tx'. unfold remains. cbn.
    enough ((∃ k', delete k b.(expiring_nonce_order) !! k' = Some tx' ∧ can_pay_base_fee tx' b.(base_fee) = true) ↔
      (∃ k', b.(expiring_nonce_order) !! k' = Some tx' ∧ can_pay_base_fee tx' b.(base_fee) = true)) by tauto.
    split; intros (k' & H1 & H2); exists k'; (split; [|done]); [by apply lookup_delete_Some in H1 as [_ ?]|].
    rewrite lookup_delete_ne; [done|]. intros <-. congruence.
  - intros k' tx'. unfold at_front. cbn.
    enough ((delete k b.(expiring_nonce_order) !! k' = Some tx' ∧ can_pay_base_fee tx' b.(base_fee) = true) ↔
      (b.(expiring_nonce_order) !! k' = Some tx' ∧ can_pay_base_fee tx' b.(base_fee) = true)) by tauto.
    split; intros (H1 & H2); (split; [|done]); [by apply lookup_delete_Some in H1 as [_ ?]|].
    rewrite lookup_delete_ne; [done|]. intros <-. congruence.
  - split; [done|apply delete_subseteq].
  - unfold held. cbn. lia.
  - unfold queue. cbn. lia.
Qed.
Lemma yield_expiring : can_pay_base_fee tx b.(base_fee) = true → yields b k tx popped.
Proof.
  intros Hp. pose proof expired_size. split; cbn; [apply expired_ok|done|..].
  - intros tx'. unfold remains. cbn. split.
    + intros [[Ha (st & Hst & E)]|(k' & [Hne Hk']%lookup_delete_Some & Hp')].
      * split; [left; eauto|]. intros ->. apply (it_expiring _ Hb) in Hk. destruct (it_ids _ Hb _ _ Hst) as (_ & He & _). congruence.
      * split; [right; eauto|]. intros ->. by apply Hne, (it_once _ Hb _ _ tx).
    + intros [[?|(k' & Hk' & Hp')] Hne]; [by left|]. right. exists k'. split; [|done]. rewrite lookup_delete_ne; [done|]. intros <-. congruence.
  - right. eauto.
  - right. done.
  - intros k' tx'. by apply highest_front.
  - split; [done|apply delete_subseteq].
  - unfold held. cbn. lia.
Qed.
End expiring_cases.

Lemma next_loop_spec fuel : ∀ b, iter_ok b → (queue b < fuel)%nat →
  match next_loop R fuel b with
  | (Some (tx, k), b') => yields b k tx b'
  | (None, _) => ∀ tx, ¬ remains b tx
  end.
Proof.
  induction fuel as [|fuel IH]; intros b Hb Hf; [lia|]. cbn [next_loop]. rewrite quiet_new by apply (it_quiet _ Hb).
  assert (∀ b1, skips b b1 → match next_loop R fuel b1 with (Some (tx, k), b') => yields b k tx b' | (None, _) => ∀ tx, ¬ remains b tx end) as Hskip.
  { intros b1 Hs. pose proof (sk_queue _ _ Hs). specialize (IH b1 (sk_ok _ _ Hs) ltac:(lia)).
    destruct (next_loop R fuel b1) as [[[tx k]|] b']; [by eapply skips_yields|]. intros tx. rewrite <- (sk_rest _ _ Hs). apply IH. }
  destruct (pop_best_cases b Hb) as [(-> & E1 & E2)|[(k & s & n & st & -> & Hk & Hst & Hh)|(k & tx & -> & Hk & Hh)]].
  - intros tx [[(_ & k & n & Hk & _) _]|(k & Hk & _)]; [by rewrite E1 in Hk|by rewrite E2 in Hk].
  - cbn [fst snd]. change (invalid (set_by_id _ _)) with b.(invalid). destruct (bool_decide_reflect (s ∈ b.(invalid))) as [Hin|Hni].
    { apply Hskip. apply (skip_regular b Hb k s n st Hk Hst b.(invalid)); auto. }
    change (base_fee (set_by_id _ _)) with b.(base_fee). destruct (pays b st) eqn:Hpay; cbn [negb].
    2: { apply Hskip. apply (skip_regular b Hb k s n st Hk Hst ({[s]} ∪ b.(invalid))); [by right|set_solver..]. }
    pose proof (yield_regular b Hb k s n st Hk Hst Hh Hni Hpay) as Hy. unfold unlocked in Hy. unfold yield.
    destruct (_ !! unlocks (s, n)); cbn [new_transaction_receiver set_by_id set_independent] in *; by rewrite (it_quiet _ Hb).
  - cbn [fst snd]. change (base_fee (set_expiring_nonce_order _ _)) with b.(base_fee). destruct (can_pay_base_fee tx b.(base_fee)) eqn:Hpay; cbn [negb].
    + unfold yield. cbn [new_transaction_receiver set_expiring_nonce_order]. rewrite (it_quiet _ Hb). by apply yield_expiring.
    + apply Hskip. by apply (skip_expiring b Hb k tx).
Qed.

(** ** All calls *)

Abbreviation lane_of tx := ((aa_transaction_id tx).1).
Definition keyed (b : t) (a : PendingTransaction) : Prop :=
  (∃ st, b.(by_id) !! aa_transaction_id a.1 = Some st ∧ stored_tx st = a.1 ∧ a.2 = eviction_key R st b.(base_fee)) ∨
  b.(expiring_nonce_order) !! a.2 = Some a.1.
(** What comes before what in a list of yielded transactions. *)
Definition by_nonce (l : list PendingTransaction) : Prop := ∀ i j a a',
  l !! i = Some a → l !! j = Some a' → (i < j)%nat → is_expiring_nonce a.1 = false → is_expiring_nonce a'.1 = false →
  lane_of a.1 = lane_of a'.1 → a.1.(TempoPooledTransaction.nonce) < a'.1.(TempoPooledTransaction.nonce).
Definition by_priority (l : list PendingTransaction) : Prop := ∀ i j a a',
  l !! i = Some a → l !! j = Some a' → (i < j)%nat →
  (is_expiring_nonce a'.1 = true ∨ ∀ m a0, (i ≤ m)%nat → (m < j)%nat → l !! m = Some a0 → lane_of a0.1 ≠ lane_of a'.1) →
  key_cmp R a'.2 a.2 ≠ Gt.
Record collected (b : t) (l : list PendingTransaction) : Prop := Collected {
  cl_once : NoDup l.*1;
  cl_all tx : tx ∈ l.*1 ↔ remains b tx;
  cl_keyed a : a ∈ l → keyed b a;
  cl_nonce : by_nonce l;
  cl_priority : by_priority l
}.
Lemma front_keyed b k tx : iter_ok b → at_front b k tx → keyed b (tx, k).
Proof.
  intros Hb [(s & n & st & H1 & _ & H3 & <- & _)|[H _]]; [left|by right]. destruct (it_front _ Hb _ _ H1) as (st' & H3' & ->).
  destruct (it_ids _ Hb _ _ H3) as [E _]. exists st. cbn. rewrite <- E. split_and!; [done..|]. congruence.
Qed.
Lemma keyed_before b k tx b' a : yields b k tx b' → keyed b' a → keyed b a.
Proof.
  intros Hy [(st & H1 & H2 & H3)|H]; [left; exists st|right].
  - rewrite (yd_fee _ _ _ _ Hy) in H3. split_and!; [|done..]. eapply lookup_weaken; [done|apply Hy].
  - eapply lookup_weaken; [done|apply Hy].
Qed.
(** A sequence goes on from its front. *)
Lemma front_first b k tx tx' : iter_ok b → at_front b k tx → remains b tx' → is_expiring_nonce tx = false → is_expiring_nonce tx' = false →
  lane_of tx = lane_of tx' → tx' ≠ tx → tx.(TempoPooledTransaction.nonce) < tx'.(TempoPooledTransaction.nonce).
Proof.
  intros Hb Hf Hr He He' El Hne. destruct Hf as [(s & n & st & H1 & H2 & H3 & <- & H5)|[H _]]; [|apply (it_expiring _ Hb) in H; congruence].
  destruct Hr as [[Ha (st' & Hst' & E')]|(k' & H & _)]; [|apply (it_expiring _ Hb) in H; congruence].
  destruct (it_ids _ Hb _ _ H3) as [Eid _]. rewrite <- El, <- Eid in Ha. cbn [fst] in Ha. apply (front_is b Hb k s n H1) in Ha as [_ [Hle _]].
  pose proof (f_equal snd Eid) as En. cbn in En, Hle. assert (n ≠ tx'.(TempoPooledTransaction.nonce)); [|lia].
  intros E. apply Hne. assert (aa_transaction_id tx' = (s, n)) as E2 by (rewrite (surjective_pairing (aa_transaction_id tx')), <- El, <- Eid; cbn; congruence).
  rewrite E2, H3 in Hst'. congruence.
Qed.

Section cons.
Context (b b' : t) (k : EvictionOrderKey) (tx : TempoPooledTransaction.t) (l : list PendingTransaction).
Context (Hb : iter_ok b) (Hy : yields b k tx b') (Hl : collected b' l).
Lemma cons_all tx' : tx' ∈ ((tx, k) :: l).*1 ↔ remains b tx'.
Proof.
  rewrite fmap_cons, elem_of_cons, (cl_all _ _ Hl), (yd_rest _ _ _ _ Hy). cbn. pose proof (yd_this _ _ _ _ Hy).
  destruct (decide (tx' = tx)) as [->|]; tauto.
Qed.
Lemma cons_keyed a : a ∈ (tx, k) :: l → keyed b a.
Proof.
  intros [->|Hin]%elem_of_cons; [apply front_keyed; [done|apply Hy]|]. eapply keyed_before; [done|by apply Hl].
Qed.
Lemma later_remains j a : l !! j = Some a → remains b a.1 ∧ a.1 ≠ tx.
Proof.
  intros Hj. apply (yd_rest _ _ _ _ Hy), (cl_all _ _ Hl). apply list_elem_of_fmap. exists a. split; [done|]. by eapply list_elem_of_lookup_2.
Qed.
Lemma cons_nonce : by_nonce ((tx, k) :: l).
Proof.
  intros [|i] [|j] a a' Ha Ha' Hlt He He' El; try lia; cbn in Ha, Ha'; [|apply (cl_nonce _ _ Hl i j); try done; lia].
  injection Ha as <-. destruct (later_remains j a' Ha') as [Hr Hne]. eapply front_first; [done|apply Hy|done..].
Qed.
(** What comes first of its sequence could have come now. *)
Lemma first_at_front j a : l !! j = Some a →
  (is_expiring_nonce a.1 = true ∨ ∀ m a0, (m < S j)%nat → ((tx, k) :: l) !! m = Some a0 → lane_of a0.1 ≠ lane_of a.1) →
  at_front b a.2 a.1.
Proof.
  intros Hj Hfirst. destruct (later_remains j a Hj) as [Hr _]. assert (keyed b a) as Hk by (apply cons_keyed; right; by eapply list_elem_of_lookup_2).
  destruct Hk as [(st & Hst & E & Ek)|Hexp].
  - destruct (it_ids _ Hb _ _ Hst) as (_ & He & _). rewrite E in He. destruct Hfirst as [?|Hfirst]; [congruence|].
    destruct Hr as [[(Hi & k0 & n & Hk0 & Hle & Hreach) _]|(k' & H & _)]; [|apply (it_expiring _ Hb) in H; congruence].
    destruct (decide (n = (aa_transaction_id a.1).2)) as [->|Hne].
    + rewrite <- surjective_pairing in Hk0. destruct (it_front _ Hb _ _ Hk0) as (st' & Hst' & Ek0). left.
      exists (lane_of a.1), (aa_transaction_id a.1).2, st. rewrite <- surjective_pairing.
      destruct (Hreach (aa_transaction_id a.1).2) as (st'' & Hst'' & Hpay); [lia..|]. rewrite <- surjective_pairing in Hst''.
      assert (st' = st) as -> by congruence. assert (st'' = st) as -> by congruence. rewrite Ek, <- Ek0. by split_and!.
    + exfalso. destruct (Hreach n) as (st0 & Hst0 & Hpay0); [lia|done|].
      destruct (it_ids _ Hb _ _ Hst0) as (Eid & He0 & _). assert (remains b (stored_tx st0)) as Hr0.
      { left. rewrite <- Eid. split; [|by eauto]. split; [done|]. exists k0, n. split; [done|]. split; [cbn; lia|]. intros i H1 H2.
        assert (i = n) as -> by (cbn in H2; lia). eauto. }
      apply cons_all, list_elem_of_fmap in Hr0 as ([tx0 k1] & E0 & [m Hm]%list_elem_of_lookup). cbn in E0. subst tx0.
      assert (lane_of (stored_tx st0) = lane_of a.1) as El by (by rewrite <- Eid).
      destruct (decide (m < S j)%nat) as [Hlt|Hge]; [by eapply (Hfirst m)|].
      assert (m ≠ S j) as Hmj.
      { intros ->. change (l !! j = Some (stored_tx st0, k1)) in Hm. rewrite Hj in Hm. injection Hm as ->. apply Hne. cbn [fst]. by rewrite <- Eid. }
      pose proof (cons_nonce (S j) m a (stored_tx st0, k1) Hj Hm ltac:(lia) He He0 (eq_sym El)) as Hn.
      pose proof (f_equal snd Eid) as En. cbn in *. lia.
  - right. split; [done|]. destruct Hr as [[_ (st & Hst & E)]|(k' & _ & Hp)]; [|done].
    apply (it_expiring _ Hb) in Hexp. destruct (it_ids _ Hb _ _ Hst) as (_ & He & _). congruence.
Qed.
Lemma collected_cons : collected b ((tx, k) :: l).
Proof.
  split; [|apply cons_all|apply cons_keyed|apply cons_nonce|].
  - cbn. apply NoDup_cons. split; [|apply Hl]. intros Hin%(cl_all _ _ Hl)%(yd_rest _ _ _ _ Hy). tauto.
  - intros [|i] [|j] a a' Ha Ha' Hlt Hfirst; try lia; cbn in Ha, Ha'.
    + injection Ha as <-. cbn. eapply (yd_best _ _ _ _ Hy), first_at_front; [done|].
      destruct Hfirst as [?|Hf]; [by left|right]. intros m a0 Hm. apply (Hf m a0); lia.
    + eapply (cl_priority _ _ Hl i j); [done..|lia|]. destruct Hfirst as [?|Hf]; [by left|right].
      intros m a0 H1 H2. apply (Hf (S m) a0); lia.
Qed.
End cons.
Lemma collect_spec fuel : ∀ b, iter_ok b → (held b < fuel)%nat → collected b (collect R fuel b).
Proof.
  induction fuel as [|fuel IH]; intros b Hb Hf; [lia|]. cbn [collect]. unfold next_tx_and_priority.
  pose proof (next_loop_spec (S (work b)) b Hb ltac:(unfold work, queue; lia)) as H.
  destruct (next_loop R (S (work b)) b) as [[[tx k]|] b'].
  - eapply collected_cons; [done..|]. pose proof (yd_held _ _ _ _ H). apply IH; [apply H|lia].
  - split; cbn; try done; [constructor|..].
    + intros tx. rewrite elem_of_nil. split; [done|]. apply H.
    + by intros a []%elem_of_nil.
Qed.

(** ** An iterator that still listens *)

(** As long as nothing has been announced to it, an iterator goes on as if it did not
    listen. *)
Definition waiting (b : t) : Prop := b.(new_transaction_receiver) = Some [].
Lemma waiting_new n b : waiting b → add_new_transactions R n b = b.
Proof. intros Hw. destruct n; [done|]. cbn. unfold try_recv. by rewrite Hw. Qed.
Lemma pop_best_waiting b r b' : waiting b → pop_best R b = (r, b') →
  waiting b' ∧ pop_best R (no_updates b) = (r, no_updates b').
Proof.
  intros Hw. unfold pop_best, pop_regular, pop_expiring, pop_best_regular, pop_best_expiring_nonce. cbn.
  repeat (case_match; simplify_eq/=); intros [= <- <-]; done.
Qed.
Lemma next_loop_waiting fuel : ∀ b r b', waiting b → next_loop R fuel b = (r, b') →
  waiting b' ∧ next_loop R fuel (no_updates b) = (r, no_updates b').
Proof.
  induction fuel as [|fuel IH]; intros b r b' Hw; cbn [next_loop]; [by intros [= <- <-]|].
  rewrite (waiting_new _ b Hw), quiet_new by done. destruct (pop_best R b) as [q b1] eqn:Hq.
  destruct (pop_best_waiting _ _ _ Hw Hq) as [Hw1 ->]. destruct q as [[id tx|tx]|]; cbn; [| |by intros [= <- <-]].
  - case_bool_decide; [by apply IH|]. destruct (can_pay_base_fee tx.1 _); cbn [negb]; [|by apply IH].
    unfold yield. destruct (b1.(by_id) !! unlocks id); cbn; rewrite Hw1; by intros [= <- <-].
  - destruct (can_pay_base_fee tx.1 _); cbn [negb]; [|by apply IH]. unfold yield. cbn. rewrite Hw1. by intros [= <- <-].
Qed.
Lemma collect_waiting fuel : ∀ b, waiting b → collect R fuel b = collect R fuel (no_updates b).
Proof.
  induction fuel as [|fuel IH]; intros b Hw; [done|]. cbn [collect]. unfold next_tx_and_priority.
  assert (work (no_updates b) = work b) as -> by (unfold work, arrivals; cbn; by rewrite Hw).
  destruct (next_loop R (S (work b)) b) as [r b'] eqn:H. destruct (next_loop_waiting _ _ _ _ Hw H) as [Hw' ->].
  destruct r; [|done]. by rewrite (IH b' Hw').
Qed.

(** Whatever has been announced, a call ends: more fuel than the iterator has work
    left does not change its result. *)
Lemma size_insert_le {K A} `{Countable K} (m : gmap K A) k x : (base.size (<[k := x]> m) ≤ S (base.size m))%nat.
Proof. rewrite map_size_insert. destruct (m !! k); cbn; lia. Qed.
Lemma size_delete_le {K A} `{Countable K} (m : gmap K A) k : (base.size (delete k m) ≤ base.size m)%nat.
Proof. rewrite map_size_delete. destruct (m !! k); cbn; lia. Qed.
Lemma add_incoming_work tx process b : (work (add_incoming R tx process b) ≤ work b + 2)%nat.
Proof.
  unfold add_incoming, work, arrivals. destruct (is_expiring_nonce tx.1).
  { case_match; cbn; [|lia]. unfold set_insert. pose proof (size_insert_le b.(expiring_nonce_order) tx.2 tx.1). case_match; cbn in *; lia. }
  pose proof (size_insert_le b.(by_id) (aa_transaction_id tx.1) (AA2dStoredTransaction.mk tx.2.2 tx.1)).
  destruct (b.(by_id) !! aa_transaction_id tx.1) as [st|]; cbn.
  - pose proof (size_delete_le b.(independent) (eviction_key R st b.(base_fee))).
    pose proof (size_insert_le (delete (eviction_key R st b.(base_fee)) b.(independent)) tx.2 (aa_transaction_id tx.1)).
    case_match; cbn; lia.
  - pose proof (size_insert_le b.(independent) tx.2 (aa_transaction_id tx.1)). case_match; cbn; lia.
Qed.
Lemma add_new_work n b : (work (add_new_transactions R n b) ≤ work b)%nat.
Proof.
  revert b. induction n as [|n IH]; intros b; [done|]. cbn. unfold try_recv.
  destruct b.(new_transaction_receiver) as [[|st rest]|] eqn:Hr; [done| |done].
  etrans; [apply IH|]. etrans; [apply add_incoming_work|]. unfold work, arrivals. rewrite Hr. cbn. lia.
Qed.
Lemma size_delete_lt {K A} `{Countable K} (m : gmap K A) k x : m !! k = Some x → (base.size (delete k m) < base.size m)%nat.
Proof. intros Hx. rewrite map_size_delete, Hx. assert (base.size m ≠ 0)%nat; [|lia]. intros E%map_size_empty_inv. by subst. Qed.
Lemma pop_regular_work b x b' : pop_regular R b = (Some x, b') → (work b' < work b)%nat.
Proof.
  unfold pop_regular, pop_best_regular. destruct (last R b.(independent)) as [[k id]|] eqn:E; [|done]. cbn.
  destruct (last_Some R _ _ _ E) as [Hk%size_delete_lt _]. pose proof (size_delete_le b.(by_id) id).
  destruct (b.(by_id) !! id); [|done]. intros [= <- <-]. unfold work, arrivals. cbn. lia.
Qed.
Lemma pop_expiring_work b x b' : pop_expiring R b = (Some x, b') → (work b' < work b)%nat.
Proof.
  unfold pop_expiring, pop_best_expiring_nonce. destruct (last R b.(expiring_nonce_order)) as [[k id]|] eqn:E; [|done]. cbn.
  destruct (last_Some R _ _ _ E) as [Hk%size_delete_lt _]. intros [= <- <-]. unfold work, arrivals. cbn. lia.
Qed.
Lemma pop_best_work b x b' : pop_best R b = (Some x, b') → (work b' < work b)%nat.
Proof. unfold pop_best. repeat case_match; try done; eauto using pop_regular_work, pop_expiring_work. Qed.
Lemma next_loop_ends fuel fuel' : ∀ b, (work b < fuel)%nat → (work b < fuel')%nat → next_loop R fuel b = next_loop R fuel' b.
Proof.
  revert fuel'. induction fuel as [|fuel IH]; intros [|fuel'] b H1 H2; try lia. cbn [next_loop].
  pose proof (add_new_work MAX_NEW_TRANSACTIONS_PER_BATCH b). destruct (pop_best R _) as [[x|] b'] eqn:E; [|done].
  apply pop_best_work in E. destruct x as [id tx|tx].
  - case_bool_decide; [apply IH; lia|]. destruct (negb _); [|done]. apply IH; unfold work, arrivals in *; cbn in *; lia.
  - destruct (negb _); [|done]. apply IH; lia.
Qed.

(** ** The iterator of a pool *)

Section pool.
Context (c : Chain) (p : AA2dPool.t) (Hp : pool_ok R c p) (bf : N).
Abbreviation M := (AA2dPool.by_id p).
Abbreviation b0 := (no_updates (best_transactions_with_base_fee R bf p)).
Lemma best_heads k id : b0.(independent) !! k = Some id ↔
  ∃ st, p.(AA2dPool.independent_transactions).(IndependentTransactions.transactions) !! id.1 = Some st ∧ id.2 = nonce_of st ∧ k = eviction_key R st bf.
Proof.
  destruct Hp as [[Hok [_ Hi]] _]. pose proof (tb_static _ _ Hok) as []. cbn. unfold eviction_order_for.
  destruct (N.eqb_spec bf p.(AA2dPool.independent_transactions).(IndependentTransactions.base_fee)) as [E|_].
  - rewrite E, (in_fee _ _ _ _ _ Hi). apply (in_order _ _ _ _ _ Hi).
  - apply Pool2dUpdate.fold_heads. intros s s' st st' H1 H2 E. by eapply (heads_apart R).
Qed.
Lemma best_expiring : expiring_order_ok R p.(AA2dPool.expiring_nonce_txs) bf b0.(expiring_nonce_order).
Proof.
  destruct Hp as [[Hok _] _]. pose proof (tb_static _ _ Hok) as []. cbn. destruct (N.eqb_spec bf p.(AA2dPool.base_fee)) as [->|_]; [done|].
  by apply Pool2dUpdate.fold_expiring.
Qed.
Lemma head_nonce s st : p.(AA2dPool.independent_transactions).(IndependentTransactions.transactions) !! s = Some st ↔ stored M !! (s, c s) = Some st.
Proof.
  destruct Hp as [[Hok [_ Hi]] Hc]. split; [|apply (in_head _ _ _ _ _ Hi)]. intros [Ht Hle]%(in_heads _ _ _ _ _ Hi).
  rewrite lookup_fmap in Ht. apply fmap_Some in Ht as (x & Hx & ->). assert (c s ≤ nonce_of (inner x)) as Hge by (apply Hc; by eexists).
  replace (c s) with (nonce_of (inner x)) by lia. by rewrite lookup_fmap, Hx.
Qed.
Lemma best_ok : iter_ok b0.
Proof.
  pose proof best_expiring as He. destruct Hp as [[Hok [_ Hi]] _]. pose proof (tb_static _ _ Hok) as []. split; try done.
  - intros k [s n] (st & H1 & H2 & ->)%best_heads. cbn in *. exists st. split; [|done]. subst n. by apply (in_heads _ _ _ _ _ Hi).
  - intros k k' [s n] [s' n'] (st & H1 & _ & ->)%best_heads (st' & H2 & _ & ->)%best_heads E. cbn in *. subst s'. congruence.
  - intros id st Hst. destruct (st_entries0 id st Hst) as (E & (_ & _ & _ & Hn & _) & Hx). split_and!; [done..|]. rewrite E. done.
  - intros k tx (st & Hst & <- & _)%He. by apply st_expiring0 in Hst as (_ & _ & ?).
  - intros k k' tx (st & Hst & _ & ->)%He (st' & Hst' & _ & ->)%He. congruence.
Qed.
(** The executable transactions that pay, with all before them. *)
Definition best (tx : TempoPooledTransaction.t) : Prop :=
  (∃ x, M !! aa_transaction_id tx = Some x ∧ inner_tx x = tx ∧ is_pending x = true ∧
    ∀ j y, c (lane_of tx) ≤ j → j ≤ tx.(TempoPooledTransaction.nonce) → M !! (lane_of tx, j) = Some y → can_pay_base_fee (inner_tx y) bf = true) ∨
  (∃ st, p.(AA2dPool.expiring_nonce_txs) !! tx_expiring_nonce_hash R tx = Some st ∧ stored_tx st = tx ∧ can_pay_base_fee tx bf = true).
Lemma best_available s m : available b0 s m ↔ c s ≤ m ∧ executable M c s m ∧
  ∀ j y, c s ≤ j → j ≤ m → M !! (s, j) = Some y → can_pay_base_fee (inner_tx y) bf = true.
Proof.
  unfold available, reachable. cbn [invalid no_updates set_last_priority set_new_transaction_receiver best_transactions_with_base_fee by_id base_fee].
  split.
  - intros (_ & k & n & (st & H1%head_nonce & H2 & _)%best_heads & Hle & Hr). cbn in H2.
    assert (n = c s) as ->.
    { destruct Hp as [[Hok _] _]. apply (st_entries _ _ (tb_static _ _ Hok)) in H1 as (E & _). injection E as _ E. congruence. }
    split_and!; [done|..].
    + intros j H3 H4. destruct (Hr j H3 H4) as (st' & Hst' & _). apply (fmap_is_Some inner). rewrite <- lookup_fmap. by eexists.
    + intros j y H3 H4 Hy. destruct (Hr j H3 H4) as (st' & Hst' & Hpay). rewrite lookup_fmap, Hy in Hst'. injection Hst' as <-. done.
  - intros (Hle & He & Hpay). split; [set_solver|]. destruct (He (c s)) as [x Hx]; [done..|].
    assert (p.(AA2dPool.independent_transactions).(IndependentTransactions.transactions) !! s = Some (inner x)) as Hh by (apply head_nonce; by rewrite lookup_fmap, Hx).
    exists (eviction_key R (inner x) bf), (c s). split.
    + apply best_heads. exists (inner x). split_and!; [done| |done]. destruct Hp as [[Hok _] _].
      destruct (Pool2dSteps.stored_entry R p Hok _ _ Hx) as (E & _). injection E as _ E. done.
    + split; [done|]. intros j H3 H4. destruct (He j H3 H4) as [y Hy]. exists (inner y). rewrite lookup_fmap, Hy. split; [done|]. by eapply Hpay.
Qed.
Lemma best_remains tx : remains b0 tx ↔ best tx.
Proof.
  unfold remains, best. rewrite best_available. change (by_id b0) with (stored M). change (base_fee b0) with bf. pose proof best_expiring as He.
  destruct Hp as [[Hok [Hf _]] Hc]. split.
  - intros [[(Hle & Hex & Hpay) (st & Hst & E)]|(k & (st & Hst & E & _)%He & Hpay)]; [left|right; eauto].
    rewrite lookup_fmap in Hst. apply fmap_Some in Hst as (x & Hx & ->). exists x. split_and!; [done..| |done].
    apply (Hf (lane_of tx) (aa_transaction_id tx).2); [by rewrite <- surjective_pairing|done|intros []|done].
  - intros [(x & Hx & E & Hpend & Hpay)|(st & Hst & E & Hpay)].
    + left. assert (c (lane_of tx) ≤ (aa_transaction_id tx).2) as Hle by (apply Hc; rewrite <- surjective_pairing; by eexists).
      split; [|exists (inner x); by rewrite lookup_fmap, Hx]. split_and!; [done| |done].
      apply (Hf _ _ x); [by rewrite <- surjective_pairing|done|intros []|done].
    + right. exists (eviction_key R st bf). split; [|done]. apply He. eauto.
Qed.
Lemma best_priority fuel a : (work b0 < fuel)%nat → a ∈ collect R fuel b0 → a.2.1 = priority R a.1 bf.
Proof.
  intros Hf Ha. destruct (cl_keyed _ _ (collect_spec fuel b0 best_ok ltac:(unfold work, held in *; lia)) a Ha) as [(st & _ & <- & ->)|H]; [done|].
  apply best_expiring in H as (st & _ & <- & ->). done.
Qed.
End pool.

(** C12: The best transactions of a pool. Take a history of the pool in which every
    transaction is added with the nonce its sequence has on the chain at that moment,
    from T1 on, of at most 2^31 events, and the iterator over the pool at any base
    fee, either as it is created, listening, or after [no_updates]. As long as nothing
    is announced to it, it ends and yields exactly the transactions with an expiring
    nonce that pay the base fee and the pending transactions that pay it with all before
    them in their sequence; each of them once, with its priority; the transactions of a
    sequence come in the order of their nonces, and a transaction that could be taken,
    because it has an expiring nonce or is the next of its sequence, never waits for one
    that has a lower priority, or the same one and came later. What an iterator yields
    once transactions are announced to it is not covered, but for each call ending
    ([next_loop_ends]). *)
Theorem best_transactions_complete config c0 es c p bf (listening : bool) fuel :
  Pool2dSpec.history R (c0, new config) es → N.of_nat (length es) ≤ CAPACITY →
  foldl (Pool2dSpec.step R) (c0, new config) es = (c, p) →
  let created := best_transactions_with_base_fee R bf p in
  let b := if listening then created else no_updates created in
  (work b < fuel)%nat →
  let l := collect R fuel b in
  NoDup l.*1 ∧ (∀ tx, tx ∈ l.*1 ↔ best c p bf tx) ∧ (∀ a, a ∈ l → a.2.1 = priority R a.1 bf) ∧ by_nonce l ∧ by_priority l.
Proof.
  intros Hh Hn E created b Hf l. destruct (Pool2dSpec.history_pool R config c0 es c p Hh Hn E) as (Hp & _).
  assert (l = collect R fuel (no_updates created)) as -> by (subst l b; destruct listening; [by apply collect_waiting|done]).
  assert (work b = work (no_updates created)) as Ew by (subst b; by destruct listening). rewrite Ew in Hf.
  destruct (collect_spec fuel (no_updates created) (best_ok c p Hp bf) ltac:(unfold work, held in *; lia)) as [H1 H2 _ H4 H5].
  split_and!; [done| |by intros a; apply (best_priority c p Hp bf fuel a Hf)|done..].
  intros tx. etrans; [apply H2|by apply best_remains].
Qed.
End iter.

Lemma best_transactions_complete_witness :
  let w := foldl (Pool2dSpec.step Pool2dSpec.simple_reth) (Pool2dSpec.ex_chain, new Pool2dSpec.ex_config) Pool2dSpec.ex_events in
  let b := best_transactions_with_base_fee Pool2dSpec.simple_reth 8 w.2 in
  let l := collect Pool2dSpec.simple_reth 20 b in
  length l = 3%nat ∧ by_nonce l ∧ by_priority Pool2dSpec.simple_reth l.
Proof.
  intros w b l. split; [vm_compute; reflexivity|].
  refine (proj2 (proj2 (proj2 (best_transactions_complete Pool2dSpec.simple_reth Pool2dSpec.ex_config Pool2dSpec.ex_chain Pool2dSpec.ex_events
    w.1 w.2 8 true 20 Pool2dSpec.ex_history _ (surjective_pairing _) _)))).
  - vm_compute. discriminate.
  - vm_compute. repeat constructor.
Defined.
End Pool2dIter.
